(* ===== verification/_CoqProject ===== *)
-Q . S2P
Prelude.v
Decimal.v
Status.v
Crc64.v
Io.v
DurableIo.v
Record.v
SegmentLog.v
SegmentHandle.v
Checkpoint.v
ConsumerSession.v
Message.v
EventLog.v
Group.v
Handlers.v
Lifecycle.v
HandlerSpecs.v
Operations.v
Values.v
Engine.v
Recovery.v
Restart.v
EngineSpecs.v
Lease.v
ShardActor.v
ServerConfig.v
EngineApi.v
Isolation.v
Composition.v
Lives.v
Facade.v
Server.v
Ctl.v
Stress.v
Witnesses.v
