(* ===== verification/Prelude.v ===== *)
(** * PomaiQueue: a verification of the message queue engine

    PomaiQueue is an embedded message queue in C++: named queues, each an
    append-only log of messages; consumer groups, each with its own delivery
    state for every message; leases with a visibility timeout, retries and a
    dead-letter state; crash recovery from three kinds of files.  This
    library models its engine and proves what makes it correct, and what the
    code does where it does not do what its documents say.

    ** The program

    A request of [src/core/api/pomai_queue.cc] goes to
    [src/core/engine/queue_engine.cc], which checks that the engine is started
    and hands a task to the shard that the queue's name hashes to
    ([src/core/engine/shard_actor.cc]: one worker thread, a FIFO of tasks).
    The task finds the queue and the group; the group is loaded at its first
    use, from the queue's log ([src/core/storage/segment_log.cc], records in
    the format of [record.cc]), the group's snapshot [<group>.state] and its
    transition log [<group>.events].  Consuming takes back expired leases (a
    timing wheel of 512 slots), takes the ready message with the smallest
    offset, reads it from the log, appends a transition event, applies it in
    memory and stores a new snapshot by writing a temporary file and renaming
    it ([src/core/durable_io.cc]).  Acknowledging and rejecting append an
    event, apply it and store the snapshot.  [consumer_session.cc] and
    [checkpoint.cc] are components of their own.  Two server binaries
    ([src/server/main.cc], [cmd/pomaiqueue-server/main.cc], configured by
    [src/server/config.cc]) and the tool [src/cli/pomaiqctl.cc] are programs
    over the library.

    ** The model

    Code that reads files, clocks or unordered containers is a function
    [S -> outcome A * S] ([Status]): a value, an error [Status] or a C++
    exception, and the new state, also after an error.  The state is the
    [World] of [Io] (files as byte lists), with a component of its own where
    the code has one.  What the environment decides is a field of the class
    [Env]: which system calls fail or transfer fewer bytes, what the clock
    reads, in which order an unordered map is traversed, how large a buffer
    the allocator grants, which bytes pad a struct, which failpoint is set.
    Every theorem is over all environments; [calm_run] (nothing is refused, no
    failpoint) and [clock_bounded] (the clock never reads 2^64-1) are the only
    assumptions about them, stated where they are used.  Counters, timestamps
    and sizes are integers with the wrap-around of their C++ type written out
    ([u16], [u32], [u64]).

    ** The files

    The foundations:
    - [Decimal]: numbers and separators in printed text.
    - [Status]: [src/core/util/status.h], [status_or.h]; the monad and its
      weakest-precondition rules.
    - [Crc64]: [src/core/util/crc64.cc].
    - [Io]: file system, streams, descriptors' failures, clock;
      [fsync.cc], [failpoint.cc].
    - [DurableIo]: [src/core/durable_io.cc].
    The storage:
    - [Record]: [src/core/storage/record.cc], with its byte layout.
    - [SegmentLog]: [src/core/storage/segment_log.cc]: [Open], [Recover],
      [Append], [Read], the descriptor's offset included.
    - [SegmentHandle]: the objects of that class: constructors, moves,
      destructor and the descriptors they own.
    - [Checkpoint]: [src/core/storage/checkpoint.cc].
    - [ConsumerSession]: [src/core/consumer_session.cc].
    - [Message]: the data types of [message.h] and [queue_engine.h].
    - [EventLog]: the byte formats of the transition log and the snapshot,
      and their readers in [queue_engine.cc].
    A group:
    - [Group]: the timing wheel, [ApplyTransition], [BuildReadyQueue],
      [PersistGroupState], [AppendTransition], [ReapExpiredInflight].
    - [Handlers]: consume, acknowledge, reject, statistics, inspection on one
      group.
    - [Lifecycle]: the specification: which events are legal in a state, the
      runs they make, the documented state machine, the group's invariant.
    - [HandlerSpecs]: each handler is a run of [Lifecycle], with its result on
      every branch.
    - [Operations]: whole histories of operations on a group, interleaved
      with the rest of the engine.
    - [Values]: the ranges of a group's values; lease tokens.
    - [Lease]: expiry: the lease that is due, and the lease that is missed.
    The engine:
    - [Engine]: loading a group, the table of queues, the operations that run
      on a shard.
    - [Recovery]: what loading a group from its files gives.
    - [Restart]: what the files give at any moment of a history.
    - [EngineSpecs]: creating, producing, replay, other groups.
    - [ShardActor], [EngineApi]: the workers, routing, start and stop, and the
      interleavings of clients and workers.
    - [Isolation]: which files an operation can touch.
    - [Composition]: a run of the engine, seen from a group, is a history.
    - [Lives]: engines one after the other over the same directory.
    The programs:
    - [Facade]: [src/core/api/pomai_queue.cc] as an interface, a queue without
      threads as its specification, and the refinement.
    - [ServerConfig]: [src/server/config.cc].
    - [Server]: the two [main.cc], as programs over the interface.
    - [Ctl]: [src/cli/pomaiqctl.cc], likewise.
    - [Stress]: [src/cli/pomaiqueue_stress.cc], likewise.
    - [Witnesses]: theorems of several files at concrete inputs.

    ** What is shown

    End to end ([Lives], [Composition]): whatever clients, threads and
    restarts there are, a message that was settled is never delivered again,
    and a message whose production was answered is read back as it was
    produced by every later process and known to the group there, when nothing
    is refused and only the first process over an empty directory produces to
    the queue (a later one overwrites the first record, see below); a run of
    the whole engine is, for each group that is loaded when it begins, a
    history, so every theorem about histories holds of it, when whoever
    produces to the group's queue finds its log open at its end.
    Delivery: consuming gives the ready message with the smallest offset, as
    it was produced, within [max_inflight]; a message is delivered at most as
    often as its retries allow; every history follows the documented state
    machine (except that recovery leaves leases of ready messages, under which
    such a message can be settled once without a delivery); it keeps the
    group's invariant and the ranges of its values; a lease token names one
    delivery.  Storage: records, events, snapshots and
    checkpoints survive encoding and decoding; damage within eight bytes is
    detected by the checksum, which is the CRC of its polynomial; a torn
    append is cut off by recovery and nothing before it is lost; a durable
    write leaves the old or the new contents, whatever fails; a restart at any
    moment of a history gives back what was in memory, with what was in flight
    ready again, when the log only grew; descriptors have one owner, but for
    those that a second [Open] on the same object overwrites.  Engine: requests on a queue take
    effect in the order of their submission and [Stop] loses none; an
    operation changes no file and no state of another group or queue; replay
    rebuilds the state of a sequence number; the library with its threads
    refines one without.  Programs: the two servers behave alike, and every
    way they end is described; a configuration is read back as printed; the
    tool's queries never answer; the stress tool, run over the whole of it,
    finds no more acknowledgements than messages.  Termination: the readers end on arbitrary
    bytes and the expiry loop ends.
    Theorems that state defects: an append after a restart overwrites the
    first record, a message produced after a group was loaded is not delivered
    to it, recovery leaves leases of messages that are ready again, a lease
    behind the wheel's base is never taken back, and the tool creates no queue
    before it asks one.

    ** Fuel

    The readers of files recurse on fuel of one more than the number of bytes
    left, each round consuming at least eight of them; [write_loop] on the
    length of the data, each round writing at least one byte; [Recover] on the
    length of the file, each round passing a record of at least 64 bytes; the
    expiry loop on the distance between the wheel and the clock.  Running out
    is an exception of its own, and the theorems show that it does not happen.
    The loops of the programs that wait for a signal or for a time to be over
    take a bound on their rounds; when it is enough is up to the environment.

    ** What is not modelled

    Threads below the granularity of a task (two shards work on different
    queues; the table of queues is under a mutex; the interleavings inside
    [Submit], [Stop] and the worker's loop are steps of [ShardActor]); reads of
    a descriptor that fail for a reason other than those of [Env]; a change of
    the failpoint's environment variable while the process runs; the loss of
    unsynchronised pages by a crash of the machine: a process ends between two
    steps of its workers, and what it wrote is there; a signal handler that
    interrupts anything but the server's waiting; the rates and percentiles in
    floating point that the stress tool prints, which are a parameter; the RPC
    schema, from which no code is generated, the benchmarks and the tests. *)
From stdpp Require Export base tactics option list gmap strings numbers sorting.
From coqutil Require Export Byte.
From coqutil Require Export Word.LittleEndianList.
From Stdlib Require Export ZArith Lia.
From Stdlib Require Strings.String.

#[export] Set Default Goal Selector "!".
#[global] Open Scope string_scope.
#[global] Open Scope list_scope.
#[global] Open Scope Z_scope.

Create HintDb queue discriminated.
#[export] Hint Constants Transparent : queue.

Declare Scope queue_scope.
Delimit Scope queue_scope with queue.
#[global] Open Scope queue_scope.

(** ** Machine integers

    A [uintN_t] is a [Z] in [[0, 2^N)]; every place where the code can wrap
    writes the reduction. *)

Definition u8 (z : Z) : Z := z mod 2 ^ 8.
Definition u16 (z : Z) : Z := z mod 2 ^ 16.
Definition u32 (z : Z) : Z := z mod 2 ^ 32.
Definition u64 (z : Z) : Z := z mod 2 ^ 64.

Definition UINT64_MAX : Z := 2 ^ 64 - 1.

Notation "'is_u16' z" := (0 <= z < 2 ^ 16) (at level 10, z at level 9) : queue_scope.
Notation "'is_u32' z" := (0 <= z < 2 ^ 32) (at level 10, z at level 9) : queue_scope.
Notation "'is_u64' z" := (0 <= z < 2 ^ 64) (at level 10, z at level 9) : queue_scope.

Lemma u16_range z : is_u16 (u16 z).
Proof. apply Z.mod_pos_bound. lia. Qed.

Lemma u32_range z : is_u32 (u32 z).
Proof. apply Z.mod_pos_bound. lia. Qed.

Lemma u64_range z : is_u64 (u64 z).
Proof. apply Z.mod_pos_bound. lia. Qed.

Lemma u16_small z : is_u16 z → u16 z = z.
Proof. apply Z.mod_small. Qed.

Lemma u32_small z : is_u32 z → u32 z = z.
Proof. apply Z.mod_small. Qed.

Lemma u64_small z : is_u64 z → u64 z = z.
Proof. apply Z.mod_small. Qed.

Lemma u64_land z : u64 z = Z.land z (Z.ones 64).
Proof. symmetry. apply Z.land_ones. lia. Qed.

#[export] Hint Resolve u16_range u32_range u64_range : queue.

(** ** Tactics *)

(** Case analysis on the scrutinee of a [match] in the goal or a hypothesis,
    keeping the equation. *)
Ltac case_goal := match goal with |- context [match ?x with _ => _ end] => destruct x eqn:? end.
Ltac case_hyp H := match type of H with context [match ?x with _ => _ end] => destruct x eqn:? end.

(** Split conjunctions, evaluate trivial parts, close arithmetic. *)
Ltac crush := repeat (split || intros); simplify_eq/=; eauto with queue; try lia.

(** ** Bytes and strings *)

#[global] Instance byte_eq_dec : EqDecision byte := Byte.byte_eq_dec.

(** [std::string] data as bytes. *)
Definition bytes_of_string (s : string) : list byte := String.list_byte_of_string s.
Definition string_of_bytes (l : list byte) : string := String.string_of_list_byte l.

Lemma string_of_bytes_of_string s : string_of_bytes (bytes_of_string s) = s.
Proof. apply String.string_of_list_byte_of_string. Qed.

Lemma bytes_of_string_of_bytes l : bytes_of_string (string_of_bytes l) = l.
Proof. apply String.list_byte_of_string_of_list_byte. Qed.

(** ** Little-endian fields *)

#[global] Opaque le_split le_combine.

Lemma le_roundtrip (n : nat) (z : Z) :
  0 <= z < 2 ^ (8 * Z.of_nat n) → le_combine (le_split n z) = z.
Proof.
  intros Hz. rewrite le_combine_split. apply Z.mod_small.
  by rewrite Z.mul_comm.
Qed.

Lemma le_combine_range (l : list byte) (n : nat) :
  length l = n → 0 <= le_combine l < 2 ^ (8 * Z.of_nat n).
Proof. intros <-. apply le_combine_bound. Qed.

(** ** Slices of byte lists *)

Section slices.
Context {A : Type}.
Implicit Types a b c l : list A.

Definition slice (off n : nat) (l : list A) : list A := take n (drop off l).

Lemma slice_app_skip a b (off n : nat) :
  slice (length a + off) n (a ++ b) = slice off n b.
Proof. unfold slice. by rewrite drop_app_add. Qed.

Lemma slice_app_skip' a b (k off n : nat) :
  length a = k → slice (k + off) n (a ++ b) = slice off n b.
Proof. intros <-. apply slice_app_skip. Qed.

Lemma slice_skip a b (off n : nat) :
  (length a <= off)%nat → slice off n (a ++ b) = slice (off - length a) n b.
Proof.
  intros ?. rewrite <-(slice_app_skip a b). f_equal. lia.
Qed.

Lemma slice_app_here b c (n : nat) : length b = n → slice 0 n (b ++ c) = b.
Proof. intros <-. unfold slice. rewrite drop_0. apply take_app_length. Qed.

Lemma slice_app_at a b c (off n : nat) :
  off = length a → n = length b → slice off n (a ++ b ++ c) = b.
Proof.
  intros -> ->. rewrite <-(Nat.add_0_r (length a)), slice_app_skip. by apply slice_app_here.
Qed.

Lemma slice_length (off n : nat) l :
  (off + n <= length l)%nat → length (slice off n l) = n.
Proof. intros ?. unfold slice. rewrite length_take, length_drop. lia. Qed.

Lemma slice_all l : slice 0 (length l) l = l.
Proof. unfold slice. by rewrite drop_0, take_ge. Qed.

(** Store [data] at position [pos] of a file, extending the file when it is
    too short; a gap is filled with [z]. *)
Definition overwrite (z : A) (pos : nat) (data l : list A) : list A :=
  take pos (l ++ replicate (pos - length l) z) ++ data ++ drop (pos + length data) l.

Lemma overwrite_end z l data : overwrite z (length l) data l = l ++ data.
Proof.
  unfold overwrite. rewrite Nat.sub_diag, app_nil_r.
  rewrite take_ge by lia. rewrite drop_ge by lia. by rewrite app_nil_r.
Qed.

Lemma overwrite_middle z a b c data :
  length data = length b → overwrite z (length a) data (a ++ b ++ c) = a ++ data ++ c.
Proof.
  intros Hlen. unfold overwrite. rewrite <-app_assoc, take_app_length, Hlen.
  by rewrite drop_app_add, drop_app_length.
Qed.

Lemma overwrite_length z pos data l :
  length (overwrite z pos data l) = Nat.max (length l) (pos + length data).
Proof.
  unfold overwrite. rewrite !length_app, length_take, length_app, length_replicate, length_drop.
  lia.
Qed.
End slices.
Arguments slice : simpl never.
Arguments overwrite : simpl never.

(** The [n]-byte little-endian integer at position [off]. *)
Definition field (off n : nat) (data : list byte) : Z := le_combine (slice off n data).

#[global] Arguments field : simpl never.

Lemma field_range off n data : 0 <= field off n data < 2 ^ (8 * Z.of_nat n).
Proof.
  unfold field. pose proof (le_combine_bound (slice off n data)) as Hb.
  split; [lia|]. eapply Z.lt_le_trans; [apply Hb|]. apply Z.pow_le_mono_r; [lia|].
  unfold slice. rewrite length_take. lia.
Qed.

(** ** Prefixes *)

Lemma prefix_app_cases {A} (p x y : list A) :
  p `prefix_of` x ++ y →
  p `prefix_of` x ∨ ∃ q, p = x ++ q ∧ q `prefix_of` y.
Proof.
  revert p; induction x as [|a x IH]; intros p Hp; [right; by exists p|].
  destruct p as [|b p]; [left; apply prefix_nil|].
  simpl in Hp. pose proof (prefix_cons_inv_1 _ _ _ _ Hp) as ->.
  apply prefix_cons_inv_2 in Hp. destruct (IH _ Hp) as [H|(q & -> & H)].
  - left. by apply prefix_cons.
  - right. by exists q.
Qed.
