(* ===== verification/Decimal.v ===== *)
(** * Numbers in decimal

    How the code prints integers ([std::to_string], [operator<<]): the
    characters and the number of them, and texts that are put together from
    numbers and separators. *)
From stdpp Require Import pretty.
From S2P Require Import Prelude.

Lemma bytes_of_string_app s t : bytes_of_string (s +:+ t) = bytes_of_string s ++ bytes_of_string t.
Proof. induction s as [|c s IH]; [done|]. exact (f_equal (cons _) IH). Qed.

Lemma bytes_of_string_inj s t : bytes_of_string s = bytes_of_string t → s = t.
Proof.
  intros Hst. by rewrite <-(string_of_bytes_of_string s), Hst, string_of_bytes_of_string.
Qed.

Lemma pretty_N_pos (x : N) : (0 < x)%N → pretty x = pretty_N_go x "".
Proof. intros Hx. unfold pretty, pretty_N. by rewrite decide_False by lia. Qed.

(** The ten characters. *)
Definition digit_byte (x : N) : byte := Ascii.byte_of_ascii (pretty_N_char x).

Section go.
Context (P : byte → Prop).

Lemma go_forall (x : N) s :
  (∀ d, (d < 10)%N → P (digit_byte d)) →
  Forall P (bytes_of_string s) → Forall P (bytes_of_string (pretty_N_go x s)).
Proof.
  intros Hd. revert s; induction (N.lt_wf_0 x) as [x _ IH]; intros s Hs.
  destruct (decide (x = 0)%N) as [->|Hx]; [by rewrite pretty_N_go_0|].
  rewrite pretty_N_go_step by lia. apply IH; [apply N.div_lt; lia|].
  constructor; [|done]. apply Hd, N.mod_lt. lia.
Qed.
End go.

Lemma go_length (k : nat) (x : N) s :
  (x < 10 ^ N.of_nat k)%N →
  (length (bytes_of_string (pretty_N_go x s)) <= k + length (bytes_of_string s))%nat.
Proof.
  revert x s; induction k as [|k IH]; intros x s Hx;
    (destruct (decide (x = 0)%N) as [->|Hx0]; [rewrite pretty_N_go_0; lia|]); [simpl in Hx; lia|].
  rewrite pretty_N_go_step by lia. etrans; [apply IH|].
  - rewrite Nat2N.inj_succ, N.pow_succ_r' in Hx. by apply N.Div0.div_lt_upper_bound.
  - change (bytes_of_string (String ?c s)) with (Ascii.byte_of_ascii c :: bytes_of_string s).
    cbn [length]. lia.
Qed.

Lemma pretty_Z_N (z : Z) : 0 <= z → pretty z = pretty (Z.to_N z).
Proof. destruct z; [done..|lia]. Qed.

Definition digits (t : list byte) : Prop := Forall (λ b, ∃ d, (d < 10)%N ∧ b = digit_byte d) t.

Lemma pretty_digits z : 0 <= z → digits (bytes_of_string (pretty z)).
Proof.
  intros Hz. rewrite pretty_Z_N by done. destruct (decide (Z.to_N z = 0)%N) as [->|Hn].
  - apply Forall_singleton. by exists 0%N.
  - rewrite pretty_N_pos by lia. apply go_forall; [eauto|constructor].
Qed.

(** A 64-bit number has at most twenty digits. *)
Lemma pretty_u64_length z : is_u64 z → (length (bytes_of_string (pretty z)) <= 20)%nat.
Proof.
  intros Hz. rewrite pretty_Z_N by lia. destruct (decide (Z.to_N z = 0)%N) as [->|Hn]; [simpl; lia|].
  rewrite pretty_N_pos by lia. etrans; [apply (go_length 20); simpl; lia|simpl; lia].
Qed.

Lemma digits_not c t : (∀ d, (d < 10)%N → c ≠ digit_byte d) → digits t → c ∉ t.
Proof.
  intros Hc Ht Hin. unfold digits in Ht. rewrite Forall_forall in Ht.
  destruct (Ht _ Hin) as (d & Hd & Heq). by apply (Hc d).
Qed.

(** The ten cases of a digit. *)
Ltac digit_cases :=
  intros d Hd;
  assert (d = 0 ∨ d = 1 ∨ d = 2 ∨ d = 3 ∨ d = 4 ∨ d = 5 ∨ d = 6 ∨ d = 7 ∨ d = 8 ∨ d = 9)%N as Hcases by lia;
  by destruct_or! Hcases; subst d.

Lemma digits_no_colon t : digits t → Byte.x3a ∉ t.
Proof. apply digits_not. digit_cases. Qed.

Lemma digits_no_slash t : digits t → Byte.x2f ∉ t.
Proof. apply digits_not. digit_cases. Qed.

(** A text is cut at its first separator in one way only. *)
Lemma separator_inj {A} (c : A) l1 l2 r1 r2 :
  c ∉ l1 → c ∉ l2 → l1 ++ c :: r1 = l2 ++ c :: r2 → l1 = l2 ∧ r1 = r2.
Proof.
  revert l2; induction l1 as [|a l1 IH]; intros [|b l2] H1 H2 Heq; simplify_eq/=; [done|..].
  - destruct H2. left.
  - destruct H1. left.
  - rewrite elem_of_cons in H1, H2. destruct (IH l2) as [-> ->]; tauto.
Qed.
