(* ===== verification/Status.v ===== *)
(** * Status codes, StatusOr and the effect monad

    [util::Status] ([src/core/util/status.h]) and [util::StatusOr]
    ([src/core/util/status_or.h]), and the state-and-error monad in which the
    stateful code is written.  A C++ function that returns [StatusOr<T>] (or
    [Status]) and may throw is a function [S -> outcome T * S]: the state is
    returned in every case, so the mutations that precede an early error
    return stay visible, as they do in the code. *)
From S2P Require Import Prelude.

Inductive StatusCode :=
  | kOk | kNotFound | kAlreadyExists | kInvalidArgument | kIOError
  | kCorruption | kUnavailable | kDeadlineExceeded | kInternal.

#[global] Instance StatusCode_eq_dec : EqDecision StatusCode.
Proof. solve_decision. Defined.

Record Status := mkStatus { code : StatusCode; message : string }.

#[global] Instance Status_eq_dec : EqDecision Status.
Proof. solve_decision. Defined.

Definition Status_Ok : Status := mkStatus kOk "".
Definition ok (s : Status) : bool := bool_decide (code s = kOk).

(** The three ways a call can end: a value, an error [Status], or a C++
    exception that unwinds out of the caller. *)
Inductive outcome (A : Type) :=
  | Good (a : A)
  | Fail (s : Status)
  | Throw (what : string).
Arguments Good {A} a.
Arguments Fail {A} s.
Arguments Throw {A} what.

Definition is_good {A} (o : outcome A) : bool :=
  match o with Good _ => true | _ => false end.

Definition obind {A B} (o : outcome A) (f : A → outcome B) : outcome B :=
  match o with
  | Good a => f a
  | Fail s => Fail s
  | Throw e => Throw e
  end.

(** ** The monad *)

Definition M (S A : Type) : Type := S → outcome A * S.

Definition ret {S A} (a : A) : M S A := λ s, (Good a, s).
Definition fail {S A} (c : StatusCode) (msg : string) : M S A := λ s, (Fail (mkStatus c msg), s).
Definition throw {S A} (what : string) : M S A := λ s, (Throw what, s).
Definition get {S} : M S S := λ s, (Good s, s).
Definition gets {S T} (f : S → T) : M S T := λ s, (Good (f s), s).
Definition modify {S} (f : S → S) : M S unit := λ s, (Good tt, f s).
Definition lift_outcome {S A} (o : outcome A) : M S A := λ s, (o, s).

Definition bind {S A B} (m : M S A) (f : A → M S B) : M S B := λ s,
  match m s with
  | (Good a, s') => f a s'
  | (Fail e, s') => (Fail e, s')
  | (Throw e, s') => (Throw e, s')
  end.

Notation "'let!' x := m 'in' k" := (bind m (λ x, k))
  (at level 10, x name, m at level 100, k at level 200,
   format "'[v' 'let!'  x  :=  m  'in' '/' k ']'") : queue_scope.
Notation "'do!' m 'in' k" := (bind m (λ _, k))
  (at level 10, m at level 100, k at level 200,
   format "'[v' 'do!'  m  'in' '/' k ']'") : queue_scope.

(** Run a call whose error the caller inspects instead of propagating
    ([auto r = f(); if (!r.ok()) ...]); exceptions still unwind. *)
Definition attempt {S A} (m : M S A) : M S (A + Status) := λ s,
  match m s with
  | (Good a, s') => (Good (inl a), s')
  | (Fail e, s') => (Good (inr e), s')
  | (Throw e, s') => (Throw e, s')
  end.

(** Run an operation on a component of the state. *)
Definition zoom {S T A} (view : S → T) (put : T → S → S) (m : M T A) : M S A := λ s,
  let '(o, t) := m (view s) in (o, put t s).

Section laws.
Context {S : Type}.

Lemma bind_good {A B} (m : M S A) (f : A → M S B) s a s' :
  m s = (Good a, s') → bind m f s = f a s'.
Proof. unfold bind. by intros ->. Qed.

Lemma bind_fail {A B} (m : M S A) (f : A → M S B) s e s' :
  m s = (Fail e, s') → bind m f s = (Fail e, s').
Proof. unfold bind. by intros ->. Qed.

Lemma bind_throw {A B} (m : M S A) (f : A → M S B) s e s' :
  m s = (Throw e, s') → bind m f s = (Throw e, s').
Proof. unfold bind. by intros ->. Qed.

Lemma bind_assoc {A B C} (m : M S A) (f : A → M S B) (g : B → M S C) s :
  bind (bind m f) g s = bind m (λ a, bind (f a) g) s.
Proof. unfold bind. by destruct (m s) as [[] ?]. Qed.

Lemma bind_ret_r {A} (m : M S A) s : bind m ret s = m s.
Proof. unfold bind, ret. by destruct (m s) as [[] ?]. Qed.

(** A successful sequence is a successful first half followed by a
    successful second half. *)
Lemma bind_good_inv {A B} (m : M S A) (f : A → M S B) s b s'' :
  bind m f s = (Good b, s'') → ∃ a s', m s = (Good a, s') ∧ f a s' = (Good b, s'').
Proof. unfold bind. destruct (m s) as [[] ?]; intros; simplify_eq; eauto. Qed.

(** A relation kept by the first half and by every continuation is kept by
    the sequence, whatever the outcomes are. *)
Lemma bind_preserves {A B} (m : M S A) (f : A → M S B) (P : S → Prop) s :
  P (m s).2 → (∀ a s', m s = (Good a, s') → P (f a s').2) → P (bind m f s).2.
Proof. unfold bind. destruct (m s) as [[] ?]; simpl; eauto. Qed.
End laws.

(** Step a run of the monad through its leading call, given what that call
    returns. *)
Ltac mstep H :=
  match type of H with
  | _ = (Good _, _) => rewrite (bind_good _ _ _ _ _ H)
  | _ = (Fail _, _) => rewrite (bind_fail _ _ _ _ _ H)
  | _ = (Throw _, _) => rewrite (bind_throw _ _ _ _ _ H)
  end.

(** ** Weakest preconditions

    [wp m Q s]: every way the call can end from [s] satisfies [Q].  The rules
    below walk through a program call by call; the database [wp] holds the
    rules of the primitive operations. *)

Definition wp {S A} (m : M S A) (Q : outcome A → S → Prop) (s : S) : Prop := Q (m s).1 (m s).2.

Arguments wp : simpl never.
Arguments bind : simpl never.

Create HintDb wp discriminated.

Section wp_rules.
Context {S : Type}.

Lemma wp_intro {A} (m : M S A) Q s o s' : wp m Q s → m s = (o, s') → Q o s'.
Proof. unfold wp. intros HQ Hm. by rewrite Hm in HQ. Qed.

Lemma wp_elim {A} (m : M S A) (Q : outcome A → S → Prop) s :
  (∀ o s', m s = (o, s') → Q o s') → wp m Q s.
Proof. intros HQ. apply HQ, surjective_pairing. Qed.

(** Read a statement about a run off its weakest precondition. *)
Lemma wp_run {A} (m : M S A) (Q : outcome A → S → Prop) s :
  wp m Q s → let '(o, s') := m s in Q o s'.
Proof. unfold wp. by destruct (m s). Qed.

Lemma wp_run2 {A T} (m : M (S * T) A) (Q : outcome A → S → T → Prop) s :
  wp m (λ o p, Q o p.1 p.2) s → let '(o, (s1, s2)) := m s in Q o s1 s2.
Proof. unfold wp. by destruct (m s) as [? []]. Qed.

Lemma wp_mono {A} (m : M S A) (Q R : outcome A → S → Prop) s :
  wp m Q s → (∀ o s', Q o s' → R o s') → wp m R s.
Proof. unfold wp. eauto. Qed.

Lemma wp_bind {A B} (m : M S A) (f : A → M S B) Q s :
  wp m (λ o s', match o with
                | Good a => wp (f a) Q s'
                | Fail e => Q (Fail e) s'
                | Throw e => Q (Throw e) s'
                end) s →
  wp (bind m f) Q s.
Proof. unfold wp, bind. by destruct (m s) as [[] ?]. Qed.

Lemma wp_ret {A} (a : A) (Q : outcome A → S → Prop) s : Q (Good a) s → wp (ret a) Q s.
Proof. done. Qed.

Lemma wp_fail {A} c msg (Q : outcome A → S → Prop) s :
  Q (Fail (mkStatus c msg)) s → wp (fail c msg) Q s.
Proof. done. Qed.

Lemma wp_throw {A} what (Q : outcome A → S → Prop) s : Q (Throw what) s → wp (throw what) Q s.
Proof. done. Qed.

Lemma wp_raise {A} e (Q : outcome A → S → Prop) s : Q (Fail e) s → wp (λ s, (Fail e, s)) Q s.
Proof. done. Qed.

Lemma wp_get (Q : outcome S → S → Prop) s : Q (Good s) s → wp get Q s.
Proof. done. Qed.

Lemma wp_gets {T} (f : S → T) (Q : outcome T → S → Prop) s : Q (Good (f s)) s → wp (gets f) Q s.
Proof. done. Qed.

Lemma wp_modify (f : S → S) (Q : outcome unit → S → Prop) s :
  Q (Good tt) (f s) → wp (modify f) Q s.
Proof. done. Qed.

Lemma wp_lift {A} (o : outcome A) (Q : outcome A → S → Prop) s : Q o s → wp (lift_outcome o) Q s.
Proof. done. Qed.

Lemma wp_attempt {A} (m : M S A) (Q : outcome (A + Status) → S → Prop) s :
  wp m (λ o s', match o with
                | Good a => Q (Good (inl a)) s'
                | Fail e => Q (Good (inr e)) s'
                | Throw e => Q (Throw e) s'
                end) s →
  wp (attempt m) Q s.
Proof. unfold wp, attempt. by destruct (m s) as [[] ?]. Qed.

Lemma wp_zoom {T A} (view : S → T) (put : T → S → S) (m : M T A) Q s :
  wp m (λ o t, Q o (put t s)) (view s) → wp (zoom view put m) Q s.
Proof. unfold wp, zoom. by destruct (m (view s)). Qed.
End wp_rules.

#[export] Hint Resolve wp_ret wp_fail wp_throw wp_raise wp_get wp_gets wp_modify wp_lift : wp.

(** One step: peel a bind or an attempt, or apply a rule of the database
    without solving its premise. *)
Ltac wp_prim :=
  first [ apply wp_bind | apply wp_attempt | apply wp_zoom
        | apply wp_ret | apply wp_fail | apply wp_throw | apply wp_raise
        | apply wp_get | apply wp_gets | apply wp_modify | apply wp_lift ].

(** ** Operations on one half of a pair of states *)

Definition on_fst {S T A} (m : M S A) : M (S * T) A := zoom fst (λ s p, (s, p.2)) m.
Definition on_snd {S T A} (m : M T A) : M (S * T) A := zoom snd (λ t p, (p.1, t)) m.

Section pair_rules.
Context {S T : Type}.

Lemma wp_on_fst {A} (m : M S A) (Q : outcome A → S * T → Prop) s t :
  wp m (λ o s', Q o (s', t)) s → wp (on_fst m) Q (s, t).
Proof. unfold wp, on_fst, zoom. simpl. by destruct (m s). Qed.

Lemma wp_on_snd {A} (m : M T A) (Q : outcome A → S * T → Prop) s t :
  wp m (λ o t', Q o (s, t')) t → wp (on_snd m) Q (s, t).
Proof. unfold wp, on_snd, zoom. simpl. by destruct (m t). Qed.

Lemma wp_modify_snd (f : T → T) (Q : outcome unit → S * T → Prop) s t :
  Q (Good tt) (s, f t) → wp (on_snd (modify f)) Q (s, t).
Proof. done. Qed.

Lemma wp_gets_snd (Q : outcome T → S * T → Prop) s t :
  Q (Good t) (s, t) → wp (gets snd) Q (s, t).
Proof. done. Qed.
End pair_rules.
