(* ===== verification/Crc64.v ===== *)
(** * CRC-64 ([src/core/util/crc64.cc])

    The table-driven checksum of records and checkpoints, a bit-at-a-time
    reference, their equivalence, and the error-detection guarantee that the
    storage formats rely on: two messages that differ only inside a window of
    at most eight bytes never have the same checksum. *)
From S2P Require Import Prelude Status.

Definition kPoly : Z := 0x42F0E1EBA9EA3693.

(** One round of the loop of [TableEntry]. *)
Definition table_round (crc : Z) : Z :=
  if Z.land crc 0x8000000000000000 =? 0
  then u64 (Z.shiftl crc 1)
  else Z.lxor (u64 (Z.shiftl crc 1)) kPoly.

Definition TableEntry (idx : Z) : Z := Nat.iter 8 table_round (u64 (Z.shiftl idx 56)).

Definition Table : list Z := map TableEntry (seqZ 0 256).

Definition crc_step (crc : Z) (b : byte) : Z :=
  let idx := u8 (Z.lxor (Z.shiftr crc 56) (byte.unsigned b)) in
  Z.lxor (Table !!! Z.to_nat idx) (u64 (Z.shiftl crc 8)).

Definition Compute (data : list byte) : Z := foldl crc_step 0 data.

(** ** The bit-at-a-time reference *)

Definition reference_step (crc : Z) (b : byte) : Z :=
  Nat.iter 8 table_round (Z.lxor crc (Z.shiftl (byte.unsigned b) 56)).

Definition reference (data : list byte) : Z := foldl reference_step 0 data.

(** ** The round as an operation on bits *)

Lemma round_bits crc :
  table_round crc =
  Z.lxor (u64 (Z.shiftl crc 1)) (if Z.testbit crc 63 then kPoly else 0).
Proof.
  unfold table_round.
  assert (Z.land crc 0x8000000000000000 = if Z.testbit crc 63 then 2 ^ 63 else 0) as ->.
  { change 0x8000000000000000 with (2 ^ 63). apply Z.bits_inj'. intros i Hi.
    rewrite Z.land_spec. destruct (Z.testbit crc 63) eqn:Hb.
    - destruct (decide (i = 63)) as [->|?].
      + by rewrite Hb, Z.pow2_bits_true.
      + rewrite Z.pow2_bits_false by lia. apply andb_false_r.
    - rewrite Z.bits_0. destruct (decide (i = 63)) as [->|?]; [by rewrite Hb|].
      rewrite Z.pow2_bits_false by lia. apply andb_false_r. }
  destruct (Z.testbit crc 63); simpl; [done|]. by rewrite Z.lxor_0_r.
Qed.

Lemma u64_lxor x y : u64 (Z.lxor x y) = Z.lxor (u64 x) (u64 y).
Proof.
  rewrite !u64_land. apply Z.bits_inj'. intros i Hi.
  rewrite !Z.land_spec, !Z.lxor_spec, !Z.land_spec.
  by destruct (Z.testbit x i), (Z.testbit y i), (Z.testbit (Z.ones 64) i).
Qed.

Lemma round_lxor x y : table_round (Z.lxor x y) = Z.lxor (table_round x) (table_round y).
Proof.
  rewrite !round_bits, Z.shiftl_lxor, u64_lxor, Z.lxor_spec.
  destruct (Z.testbit x 63), (Z.testbit y 63); simpl;
    apply Z.bits_inj'; intros i Hi; rewrite ?Z.lxor_spec, ?Z.bits_0;
    repeat match goal with |- context [Z.testbit ?a ?b] => destruct (Z.testbit a b) end; done.
Qed.

Lemma rounds_lxor n x y :
  Nat.iter n table_round (Z.lxor x y) =
  Z.lxor (Nat.iter n table_round x) (Nat.iter n table_round y).
Proof. induction n as [|n IH]; simpl; [done|]. by rewrite IH, round_lxor. Qed.

Lemma lxor_u64 x y : is_u64 x → is_u64 y → is_u64 (Z.lxor x y).
Proof.
  intros Hx Hy. rewrite <-(u64_small x), <-(u64_small y), <-u64_lxor by done.
  apply u64_range.
Qed.

Lemma round_range crc : is_u64 (table_round crc).
Proof.
  rewrite round_bits. apply lxor_u64; [apply u64_range|].
  destruct (Z.testbit crc 63); unfold kPoly; lia.
Qed.

Lemma rounds_range n crc : is_u64 crc → is_u64 (Nat.iter n table_round crc).
Proof. destruct n; simpl; [done|]. intros _. apply round_range. Qed.

(** Below the top bit a round is a shift. *)
Lemma round_small x : 0 <= x < 2 ^ 63 → table_round x = 2 * x.
Proof.
  intros Hx. rewrite round_bits.
  assert (Z.testbit x 63 = false) as ->.
  { apply Z.bits_above_log2; [lia|].
    destruct (decide (x = 0)) as [->|?]; [simpl; lia|]. apply Z.log2_lt_pow2; lia. }
  rewrite Z.lxor_0_r, Z.shiftl_mul_pow2, u64_small by lia. lia.
Qed.

Lemma rounds_small (n : nat) x :
  Z.of_nat n <= 64 → 0 <= x < 2 ^ (64 - Z.of_nat n) →
  Nat.iter n table_round x = x * 2 ^ Z.of_nat n.
Proof.
  revert x. induction n as [|n IH]; intros x Hn Hx; [simpl; lia|].
  rewrite Nat.iter_succ_r.
  assert (0 <= x < 2 ^ 63).
  { split; [lia|]. eapply Z.lt_le_trans; [apply Hx|]. apply Z.pow_le_mono_r; lia. }
  rewrite round_small by done.
  rewrite IH; [|lia|].
  - rewrite Nat2Z.inj_succ, Z.pow_succ_r by lia. lia.
  - rewrite Nat2Z.inj_succ in Hx.
    replace (64 - Z.of_nat n) with (Z.succ (64 - Z.succ (Z.of_nat n))) by lia.
    rewrite Z.pow_succ_r by lia. lia.
Qed.

(** ** Table lookup = eight rounds *)

Lemma Table_lookup idx : 0 <= idx < 256 → Table !!! Z.to_nat idx = TableEntry idx.
Proof.
  intros Hi. apply list_lookup_total_correct. unfold Table.
  rewrite list_lookup_fmap, lookup_seqZ_lt by lia. simpl. f_equal. f_equal. lia.
Qed.

Lemma byte_unsigned_range b : 0 <= byte.unsigned b < 256.
Proof. apply byte.unsigned_range. Qed.
#[local] Hint Resolve byte_unsigned_range : queue.

Lemma lxor_u8 x y : 0 <= x < 256 → 0 <= y < 256 → 0 <= Z.lxor x y < 256.
Proof.
  intros Hx Hy. change 256 with (2 ^ 8) in *.
  assert (Z.lxor x y = Z.lxor x y mod 2 ^ 8) as ->; [|apply Z.mod_pos_bound; lia].
  rewrite <-Z.land_ones by lia. apply Z.bits_inj'. intros i Hi.
  rewrite Z.land_spec. destruct (decide (i < 8)).
  - rewrite Z.ones_spec_low by lia. by rewrite andb_true_r.
  - rewrite Z.lxor_spec. rewrite <-(Z.mod_small x (2 ^ 8)), <-(Z.mod_small y (2 ^ 8)) by done.
    rewrite !Z.mod_pow2_bits_high by lia. done.
Qed.

Lemma top_byte_range crc : is_u64 crc → 0 <= Z.shiftr crc 56 < 256.
Proof.
  intros Hc. rewrite Z.shiftr_div_pow2 by lia. split.
  - apply Z.div_pos; lia.
  - apply Z.div_lt_upper_bound; lia.
Qed.

Lemma split_top_byte crc : is_u64 crc →
  crc = Z.lxor (Z.shiftl (Z.shiftr crc 56) 56) (crc mod 2 ^ 56).
Proof.
  intros Hc. apply Z.bits_inj'. intros i Hi.
  rewrite Z.lxor_spec, Z.shiftl_spec by lia. destruct (decide (i < 56)).
  - rewrite Z.mod_pow2_bits_low by lia.
    rewrite (Z.testbit_neg_r _ (i - 56)) by lia. by destruct (Z.testbit crc i).
  - rewrite Z.mod_pow2_bits_high by lia. rewrite Z.shiftr_spec by lia.
    replace (i - 56 + 56) with i by lia. by destruct (Z.testbit crc i).
Qed.

Lemma low_part crc : u64 (Z.shiftl crc 8) = crc mod 2 ^ 56 * 2 ^ 8.
Proof.
  unfold u64. rewrite Z.shiftl_mul_pow2 by lia.
  change (2 ^ 64) with (2 ^ 56 * 2 ^ 8). by rewrite Zmult_mod_distr_r.
Qed.

Lemma crc_step_reference crc b : is_u64 crc → crc_step crc b = reference_step crc b.
Proof.
  intros Hc. unfold crc_step, reference_step. cbv zeta.
  pose proof (top_byte_range crc Hc). pose proof (byte_unsigned_range b).
  pose proof (lxor_u8 (Z.shiftr crc 56) (byte.unsigned b) ltac:(done) ltac:(done)).
  unfold u8. rewrite (Z.mod_small _ (2 ^ 8)) by done.
  rewrite Table_lookup by done.
  assert (Z.lxor crc (Z.shiftl (byte.unsigned b) 56) =
          Z.lxor (Z.shiftl (Z.lxor (Z.shiftr crc 56) (byte.unsigned b)) 56) (crc mod 2 ^ 56)) as ->.
  { rewrite Z.shiftl_lxor. rewrite (split_top_byte crc Hc) at 1.
    rewrite !Z.lxor_assoc. f_equal. apply Z.lxor_comm. }
  rewrite rounds_lxor. f_equal.
  - unfold TableEntry. f_equal. apply u64_small.
    rewrite Z.shiftl_mul_pow2 by lia. lia.
  - rewrite low_part, rounds_small; [lia|lia|].
    apply Z.mod_pos_bound. lia.
Qed.

Lemma crc_step_range crc b : is_u64 crc → is_u64 (crc_step crc b).
Proof.
  intros Hc. rewrite crc_step_reference by done. apply rounds_range, lxor_u64; [done|].
  pose proof (byte_unsigned_range b). rewrite Z.shiftl_mul_pow2 by lia. lia.
Qed.

Lemma foldl_crc_range data crc : is_u64 crc → is_u64 (foldl crc_step crc data).
Proof.
  revert crc. induction data as [|b data IH]; intros crc Hc; simpl; [done|].
  apply IH, crc_step_range, Hc.
Qed.

Lemma Compute_range data : is_u64 (Compute data).
Proof. apply foldl_crc_range. lia. Qed.
#[export] Hint Resolve Compute_range : queue.

Lemma foldl_reference data crc :
  is_u64 crc → foldl crc_step crc data = foldl reference_step crc data.
Proof.
  revert crc. induction data as [|b data IH]; intros crc Hc; simpl; [done|].
  rewrite <-crc_step_reference by done. apply IH, crc_step_range, Hc.
Qed.

(** ** Error detection *)

(** The polynomial is odd, so a round can be undone. *)
Lemma round_inj x y : is_u64 x → is_u64 y → table_round x = table_round y → x = y.
Proof.
  intros Hx Hy. rewrite !round_bits. intros Heq.
  assert (Z.testbit x 63 = Z.testbit y 63) as Htop.
  { apply (f_equal (λ z, Z.testbit z 0)) in Heq.
    rewrite !Z.lxor_spec in Heq. unfold u64 in Heq.
    rewrite !Z.mod_pow2_bits_low, !Z.shiftl_spec_low in Heq by lia.
    by destruct (Z.testbit x 63), (Z.testbit y 63). }
  rewrite Htop in Heq.
  assert (u64 (Z.shiftl x 1) = u64 (Z.shiftl y 1)) as Hs.
  { set (k := if Z.testbit y 63 then kPoly else 0) in Heq.
    apply (f_equal (λ z, Z.lxor z k)) in Heq.
    by rewrite !Z.lxor_assoc, !Z.lxor_nilpotent, !Z.lxor_0_r in Heq. }
  apply Z.bits_inj'. intros i Hi. destruct (decide (i < 63)) as [?|?].
  - apply (f_equal (λ z, Z.testbit z (i + 1))) in Hs. unfold u64 in Hs.
    rewrite !Z.mod_pow2_bits_low, !Z.shiftl_spec in Hs by lia.
    by replace (i + 1 - 1) with i in Hs by lia.
  - destruct (decide (i = 63)) as [->|?]; [done|].
    rewrite <-(Z.mod_small x (2 ^ 64)), <-(Z.mod_small y (2 ^ 64)) by done.
    rewrite !Z.mod_pow2_bits_high by lia. done.
Qed.

Lemma rounds_inj n x y :
  is_u64 x → is_u64 y → Nat.iter n table_round x = Nat.iter n table_round y → x = y.
Proof.
  intros Hx Hy. induction n as [|n IH]; simpl; [done|]. intros Heq.
  apply IH, round_inj; auto using rounds_range.
Qed.

Lemma lxor_cancel_l a x y : Z.lxor a x = Z.lxor a y → x = y.
Proof.
  intros Heq. apply (f_equal (Z.lxor a)) in Heq.
  by rewrite <-!Z.lxor_assoc, !Z.lxor_nilpotent, !Z.lxor_0_l in Heq.
Qed.

Lemma crc_step_inj x y b : is_u64 x → is_u64 y → crc_step x b = crc_step y b → x = y.
Proof.
  intros Hx Hy. rewrite !crc_step_reference by done. intros Heq.
  pose proof (byte_unsigned_range b).
  apply rounds_inj in Heq; [|apply lxor_u64; rewrite ?Z.shiftl_mul_pow2; lia..].
  rewrite !(Z.lxor_comm _ (Z.shiftl _ _)) in Heq. by apply lxor_cancel_l in Heq.
Qed.

Lemma foldl_crc_inj data x y :
  is_u64 x → is_u64 y → foldl crc_step x data = foldl crc_step y data → x = y.
Proof.
  revert x y. induction data as [|b data IH]; intros x y Hx Hy; simpl; [done|].
  intros Heq. apply IH in Heq; eauto using crc_step_inj, crc_step_range.
Qed.

(** A window of bytes read as a big-endian number at the top of a 64-bit
    register. *)
Fixpoint window (w : list byte) : Z :=
  match w with
  | [] => 0
  | b :: w => Z.lxor (Z.shiftl (byte.unsigned b) 56) (Z.shiftr (window w) 8)
  end.

Lemma shiftr8_range w : is_u64 w → 0 <= Z.shiftr w 8 < 2 ^ 56.
Proof.
  intros Hw. rewrite Z.shiftr_div_pow2 by lia. split; [apply Z.div_pos; lia|].
  apply Z.div_lt_upper_bound; lia.
Qed.

Lemma window_range w : is_u64 (window w).
Proof.
  induction w as [|b w IH]; simpl; [lia|].
  pose proof (byte_unsigned_range b). pose proof (shiftr8_range _ IH).
  apply lxor_u64; [rewrite Z.shiftl_mul_pow2; lia|lia].
Qed.

Lemma pack_top b r : 0 <= b < 256 → 0 <= r < 2 ^ 56 →
  Z.shiftr (Z.lxor (Z.shiftl b 56) r) 56 = b ∧ Z.lxor (Z.shiftl b 56) r mod 2 ^ 56 = r.
Proof.
  intros Hb Hr. split; apply Z.bits_inj'; intros i Hi.
  - rewrite Z.shiftr_spec, Z.lxor_spec, Z.shiftl_spec by lia.
    rewrite <-(Z.mod_small r (2 ^ 56)), Z.mod_pow2_bits_high by lia.
    replace (i + 56 - 56) with i by lia. apply xorb_false_r.
  - destruct (decide (i < 56)).
    + rewrite Z.mod_pow2_bits_low, Z.lxor_spec, Z.shiftl_spec by lia.
      by rewrite (Z.testbit_neg_r _ (i - 56)), xorb_false_l by lia.
    + rewrite <-(Z.mod_small r (2 ^ 56)) by lia. rewrite !Z.mod_pow2_bits_high by lia. done.
Qed.

(** The unused low bytes of a window are zero. *)
Lemma window_low_zero w i :
  (length w <= 8)%nat → 0 <= i < 64 - 8 * Z.of_nat (length w) → Z.testbit (window w) i = false.
Proof.
  revert i. induction w as [|b w IH]; intros i Hlen Hi; simpl; [by rewrite Z.bits_0|].
  simpl in Hlen, Hi. rewrite Z.lxor_spec, Z.shiftl_spec, Z.shiftr_spec by lia.
  rewrite (Z.testbit_neg_r _ (i - 56)) by lia. rewrite IH; [done|lia|lia].
Qed.

Lemma window_rounds w :
  (length w < 8)%nat → Nat.iter 8 table_round (Z.shiftr (window w) 8) = window w.
Proof.
  intros Hlen. pose proof (shiftr8_range _ (window_range w)).
  rewrite rounds_small by (simpl; lia). change (Z.of_nat 8) with 8.
  rewrite <-Z.shiftl_mul_pow2 by lia. apply Z.bits_inj'. intros i Hi.
  rewrite Z.shiftl_spec by lia. destruct (decide (i < 8)).
  - rewrite Z.testbit_neg_r by lia. symmetry. apply window_low_zero; lia.
  - rewrite Z.shiftr_spec by lia. f_equal. lia.
Qed.

(** Processing up to eight bytes is one linear step of the register. *)
Lemma foldl_crc_window w crc :
  (length w <= 8)%nat → is_u64 crc →
  foldl crc_step crc w = Nat.iter (8 * length w) table_round (Z.lxor crc (window w)).
Proof.
  revert crc. induction w as [|b w IH]; intros crc Hlen Hc.
  { simpl. by rewrite Z.lxor_0_r. }
  simpl in Hlen. cbn [foldl window length].
  rewrite IH; [|lia|by apply crc_step_range].
  rewrite crc_step_reference by done. unfold reference_step.
  rewrite <-(window_rounds w) at 1 by lia. rewrite <-rounds_lxor, <-Nat.iter_add.
  rewrite Z.lxor_assoc. f_equal. lia.
Qed.

Lemma window_inj w w' :
  (length w <= 8)%nat → length w = length w' → window w = window w' → w = w'.
Proof.
  revert w'. induction w as [|b w IH]; intros [|b' w'] Hlen Hlen' Heq; simplify_eq/=; [done|].
  pose proof (shiftr8_range _ (window_range w)) as Hr.
  pose proof (shiftr8_range _ (window_range w')) as Hr'.
  destruct (pack_top _ _ (byte_unsigned_range b) Hr) as [Hb Hl].
  destruct (pack_top _ _ (byte_unsigned_range b') Hr') as [Hb' Hl'].
  rewrite Heq in Hb, Hl. f_equal.
  - apply byte.unsigned_inj. congruence.
  - apply IH; [lia|done|]. apply Z.bits_inj'. intros i Hi. destruct (decide (i < 8)).
    + rewrite !window_low_zero; lia || done.
    + assert (Z.shiftr (window w) 8 = Z.shiftr (window w') 8) as Hs by congruence.
      apply (f_equal (λ z, Z.testbit z (i - 8))) in Hs.
      rewrite !Z.shiftr_spec in Hs by lia. by replace (i - 8 + 8) with i in Hs by lia.
Qed.

(** ** Properties *)

(** C36. The table-driven checksum computes the bit-at-a-time CRC. *)
Theorem compute_is_reference data : Compute data = reference data.
Proof. apply foldl_reference. lia. Qed.

Lemma compute_burst pre w w' post :
  length w = length w' → (length w <= 8)%nat → w ≠ w' →
  Compute (pre ++ w ++ post) ≠ Compute (pre ++ w' ++ post).
Proof.
  intros Hlen H8 Hne Heq. apply Hne. unfold Compute in Heq. rewrite !foldl_app in Heq.
  assert (is_u64 (foldl crc_step 0 pre)) as Hc by (apply foldl_crc_range; lia).
  apply foldl_crc_inj in Heq; auto using foldl_crc_range.
  rewrite (foldl_crc_window w), (foldl_crc_window w'), <-Hlen in Heq by (done || lia).
  apply rounds_inj in Heq; [|apply lxor_u64; auto using window_range..].
  apply lxor_cancel_l in Heq. by apply window_inj.
Qed.

#[global] Opaque Compute.
