(* ===== verification/Io.v ===== *)
(** * The operating system as the code uses it

    Files, clocks, failpoints and the C++ streams and POSIX calls of the
    sources, over an explicit [World].  Whatever the environment decides (the
    reading of [now_fn], the answer of a system call, the iteration order of
    a [std::unordered_map], the allocator's limit, struct padding) is a field
    of [Env], indexed by how many such decisions were taken before, so a
    theorem quantified over [Env] holds for every behaviour of it.
    [FailpointActive] ([src/core/util/failpoint.cc]), [FsyncFile] and
    [FsyncDir] ([src/core/util/fsync.cc]) are here as well. *)
From S2P Require Import Prelude Status.

(** The answer of one system call: done, refused, or (for a transfer) done
    for the first [n] bytes only. *)
Inductive io_answer := IoOk | IoFail | IoShort (n : nat).

Class Env := {
  failpoint_var : option string;            (* getenv("POMAIQUEUE_FAILPOINT") *)
  clock : nat → Z;                          (* the i-th call of now_fn *)
  io : nat → io_answer;                     (* the i-th decision: a system call *)
  shuffle : nat → ∀ A, list A → list A;     (* an unordered_map traversal *)
  shuffle_perm : ∀ i A (l : list A), shuffle i A l ≡ₚ l;
  alloc_limit : Z;                          (* largest buffer the allocator grants *)
  alloc_limit_max : alloc_limit < 2 ^ 63;   (* std::string::max_size *)
  padding1 : list byte;                     (* RecordHeader bytes 12..15 *)
  padding2 : list byte;                     (* RecordHeader bytes 60..63 *)
  padding1_length : length padding1 = 4%nat;
  padding2_length : length padding2 = 4%nat;
}.

(** An environment in which nothing fails: the clock stands at [t]. *)
#[program] Definition calm_env (t : Z) : Env := {|
  failpoint_var := None; clock := λ _, t; io := λ _, IoOk;
  shuffle := λ _ _ l, l; alloc_limit := 2 ^ 40;
  padding1 := replicate 4 Byte.x00; padding2 := replicate 4 Byte.x00 |}.
Solve All Obligations with done.

Record World := mkWorld {
  files : gmap string (list byte);
  clock_reads : nat;
  io_calls : nat;
}.

Definition empty_world : World := mkWorld ∅ 0 0.

Definition set_files (f : gmap string (list byte) → gmap string (list byte)) (w : World) : World :=
  mkWorld (f (files w)) (clock_reads w) (io_calls w).

Abbreviation W := (M World).

Definition file_bytes (w : World) (path : string) : list byte := default [] (files w !! path).

(** [std::filesystem::path::operator/] on POSIX. *)
Definition path_join (a b : string) : string :=
  if String.prefix "/" b then b
  else match bytes_of_string a with
       | [] => b
       | _ => if bool_decide (last (bytes_of_string a) = Some Byte.x2f)
              then a +:+ b else a +:+ "/" +:+ b
       end.

Section io.
Context `{Env}.

(** ** Failpoints *)

Definition FailpointActive (name : string) : bool :=
  match failpoint_var with
  | None => false
  | Some configured => if String.eqb configured "" then false else String.eqb configured name
  end.

(** ** Oracle calls *)

Definition syscall : W io_answer := λ w,
  (Good (io (io_calls w)), mkWorld (files w) (clock_reads w) (S (io_calls w))).

(** A call that transfers no data: it succeeds unless refused. *)
Definition call_ok : W bool :=
  let! a := syscall in ret (match a with IoFail => false | _ => true end).

(** [CurrentTimeMs]: [now_fn] returns a [uint64_t]. *)
Definition now : W Z := λ w,
  (Good (u64 (clock (clock_reads w))),
   mkWorld (files w) (S (clock_reads w)) (io_calls w)).

(** The [n]-th value that [now] gives from [w] on. *)
Definition reading (n : nat) (w : World) : Z := u64 (clock (n + clock_reads w)).

(** The elements of an unordered map, in the order the container yields them. *)
Definition traverse `{Countable K} {A} (m : gmap K A) : W (list (K * A)) := λ w,
  (Good (shuffle (io_calls w) _ (map_to_list m)),
   mkWorld (files w) (clock_reads w) (S (io_calls w))).

(** A buffer of [n] bytes, or [std::bad_alloc] / [std::length_error]. *)
Definition allocate (n : Z) : W unit :=
  if n <=? alloc_limit then ret tt else throw "bad_alloc".

Definition set_file (path : string) (data : list byte) : W unit :=
  modify (set_files (insert path data)).

(** ** [std::filesystem] *)

Definition exists_ (path : string) : W bool := gets (λ w, bool_decide (is_Some (files w !! path))).

Definition create_directories : W unit :=
  let! good := call_ok in
  if good then ret tt else throw "filesystem_error".

(** [rename(2)]: replaces [final] atomically. *)
Definition rename (tmp final : string) : W bool :=
  let! good := call_ok in
  let! w := get in
  match (if good then files w !! tmp else None) with
  | Some data => do! modify (set_files (λ m, <[final := data]> (delete tmp m))) in ret true
  | None => ret false
  end.

(** ** [std::ofstream]

    Bytes sit in the stream's buffer until [flush] or the destructor; a
    failing transfer leaves a prefix in the file and the stream bad. *)

Record ofstream := mkOfstream { o_path : string; o_buf : list byte; o_good : bool }.

Definition append_file (path : string) (data : list byte) : W unit :=
  modify (λ w, set_files (insert path (file_bytes w path ++ data)) w).

(** [open_out trunc path]: [std::ios::trunc], or [std::ios::app]. *)
Definition open_out (trunc : bool) (path : string) : W (option ofstream) :=
  let! good := call_ok in
  if good then
    do! modify (λ w, set_files (insert path (if trunc then [] else file_bytes w path)) w) in
    ret (Some (mkOfstream path [] true))
  else ret None.

Definition stream_write (out : ofstream) (data : list byte) : W ofstream :=
  if o_good out then
    let! a := syscall in
    match a with
    | IoOk => ret (mkOfstream (o_path out) (o_buf out ++ data) true)
    | IoFail => ret (mkOfstream (o_path out) [] false)
    | IoShort n =>
        do! append_file (o_path out) (take n (o_buf out ++ data)) in
        ret (mkOfstream (o_path out) [] false)
    end
  else ret out.

Definition flush (out : ofstream) : W ofstream :=
  if o_good out then
    let! a := syscall in
    match a with
    | IoOk =>
        do! append_file (o_path out) (o_buf out) in
        ret (mkOfstream (o_path out) [] true)
    | IoFail => ret (mkOfstream (o_path out) [] false)
    | IoShort n =>
        do! append_file (o_path out) (take n (o_buf out)) in
        ret (mkOfstream (o_path out) [] (bool_decide (length (o_buf out) <= n)%nat))
    end
  else ret out.

(** The destructor writes what is left in the buffer and reports nothing. *)
Definition close (out : ofstream) : W unit := do! flush out in ret tt.

(** ** [std::ifstream] *)

Record ifstream := mkIfstream { i_rest : list byte; i_good : bool }.

Definition open_in (path : string) : W (option ifstream) :=
  let! good := call_ok in
  let! w := get in
  ret (match (if good then files w !! path else None) with
       | Some data => Some (mkIfstream data true)
       | None => None
       end).

(** [in.read(&x, n)] on an [n]-byte integer holding [old]: a short read
    overwrites the low bytes only and makes the stream bad. *)
Definition read_int (n : nat) (old : Z) (s : ifstream) : Z * ifstream :=
  if i_good s then
    if (n <=? length (i_rest s))%nat
    then (le_combine (take n (i_rest s)), mkIfstream (drop n (i_rest s)) true)
    else (le_combine (i_rest s ++ drop (length (i_rest s)) (le_split n old)), mkIfstream [] false)
  else (old, s).

(** [str.resize(size); in.read(str.data(), size)]. *)
Definition read_string (size : Z) (s : ifstream) : outcome (string * ifstream) :=
  if size <=? alloc_limit then
    if i_good s && (size <=? Z.of_nat (length (i_rest s)))
    then Good (string_of_bytes (take (Z.to_nat size) (i_rest s)),
               mkIfstream (drop (Z.to_nat size) (i_rest s)) true)
    else Good ("", mkIfstream [] false)
  else Throw "length_error".

(** ** [fsync] *)

Inductive FsyncPolicy := kAlways | kInterval | kNever.

Definition FsyncFile (fd_valid : bool) : W unit :=
  if FailpointActive "fsync_file" then fail kIOError "failpoint fsync_file"
  else if negb fd_valid then fail kInvalidArgument "invalid fd"
  else
    let! good := call_ok in
    if good then ret tt else fail kIOError "fsync failed".

Definition FsyncDir : W unit :=
  if FailpointActive "fsync_dir" then fail kIOError "failpoint fsync_dir"
  else
    let! opened := call_ok in
    if negb opened then fail kIOError "open dir failed"
    else
      let! synced := call_ok in
      let! closed := call_ok in
      if synced then ret tt else fail kIOError "fsync dir failed".
End io.

#[global] Instance FsyncPolicy_eq_dec : EqDecision FsyncPolicy.
Proof. solve_decision. Defined.

(** ** Frames and rules *)

(** Worlds that differ in how many system calls were made only. *)
Definition io_only (w w' : World) : Prop :=
  files w' = files w ∧ clock_reads w' = clock_reads w.

#[global] Instance io_only_equivalence : Equivalence io_only.
Proof. split; unfold io_only; repeat intro; destruct_and?; split_and!; congruence. Qed.

(** Worlds that differ in system calls and in one file only. *)
Definition file_only (path : string) (w w' : World) : Prop :=
  (∀ p, p ≠ path → files w' !! p = files w !! p) ∧
  clock_reads w' = clock_reads w.

#[global] Instance file_only_preorder path : PreOrder (file_only path).
Proof.
  split; unfold file_only; [done|].
  intros w1 w2 w3 (H12 & ?) (H23 & ?). split_and!; [|congruence..].
  intros p Hp. rewrite H23, H12; done.
Qed.

#[global] Instance io_only_file_only path : subrelation io_only (file_only path).
Proof. intros w w' (Hf & ?). unfold file_only; split; [|done]. intros p _. by rewrite Hf. Qed.

Lemma file_bytes_io_only w w' p : io_only w w' → file_bytes w' p = file_bytes w p.
Proof. intros (Hf & _). unfold file_bytes. by rewrite Hf. Qed.

Section io_rules.
Context `{Env}.

Lemma wp_syscall (Q : outcome io_answer → World → Prop) w :
  (∀ a w', io_only w w' → Q (Good a) w') → wp syscall Q w.
Proof. intros HQ. by apply HQ. Qed.

Lemma wp_call_ok (Q : outcome bool → World → Prop) w :
  (∀ b w', io_only w w' → Q (Good b) w') → wp call_ok Q w.
Proof. intros HQ. by apply HQ. Qed.

Lemma wp_create_directories (Q : outcome unit → World → Prop) w :
  (∀ w', io_only w w' → Q (Good tt) w' ∧ Q (Throw "filesystem_error") w') →
  wp create_directories Q w.
Proof.
  intros HQ. apply wp_bind, wp_call_ok. intros [] w' Hw; by apply HQ.
Qed.

Lemma wp_rename tmp final (Q : outcome bool → World → Prop) w :
  (∀ w', io_only w w' → Q (Good false) w') →
  (∀ data w', files w !! tmp = Some data →
     files w' = <[final := data]> (delete tmp (files w)) →
     clock_reads w' = clock_reads w → Q (Good true) w') →
  wp (rename tmp final) Q w.
Proof.
  intros Hfail Hok. apply wp_bind, wp_call_ok. intros b w' Hw.
  apply wp_bind, wp_get. destruct Hw as (Hf & Hc).
  destruct b; [|by apply Hfail]. rewrite Hf.
  destruct (files w !! tmp) as [data|] eqn:Htmp; [|by apply Hfail].
  apply wp_bind, wp_modify, wp_ret. apply (Hok data); simpl; by rewrite ?Hf.
Qed.

Lemma wp_open_out (trunc : bool) (path : string) (Q : outcome (option ofstream) → World → Prop) w :
  (∀ w', io_only w w' → Q (Good None) w') →
  (∀ w', file_only path w w' →
     files w' !! path = Some (if trunc then ([] : list byte) else file_bytes w path) →
     Q (Good (Some (mkOfstream path [] true))) w') →
  wp (open_out trunc path) Q w.
Proof.
  intros Hno Hyes. apply wp_bind, wp_call_ok. intros [] w' Hw.
  - apply wp_bind, wp_modify, wp_ret. apply Hyes.
    + destruct Hw as (Hf & Hc). unfold file_only; split_and!; [|done..].
      intros p Hp. simpl. rewrite Hf. by apply lookup_insert_ne.
    + simpl. rewrite lookup_insert_eq. by rewrite (file_bytes_io_only w w').
  - by apply wp_ret, Hno.
Qed.

(** Writing to a good stream extends the bytes on their way to the file; a
    failure leaves the file with a prefix of them. *)
Lemma wp_stream_write out data (Q : outcome ofstream → World → Prop) w :
  o_good out = true →
  (∀ w', io_only w w' → Q (Good (mkOfstream (o_path out) (o_buf out ++ data) true)) w') →
  (∀ w' part, file_only (o_path out) w w' →
     part `prefix_of` o_buf out ++ data →
     file_bytes w' (o_path out) = file_bytes w (o_path out) ++ part →
     Q (Good (mkOfstream (o_path out) [] false)) w') →
  wp (stream_write out data) Q w.
Proof.
  intros Hg Hok Hbad. unfold stream_write. rewrite Hg.
  apply wp_bind, wp_syscall. intros [| |n] w' Hw.
  - by apply wp_ret, Hok.
  - apply wp_ret. apply (Hbad _ []).
    + by rewrite Hw.
    + apply prefix_nil.
    + by rewrite app_nil_r, (file_bytes_io_only w w').
  - apply wp_bind, wp_modify, wp_ret. apply (Hbad _ (take n (o_buf out ++ data))).
    + destruct Hw as (Hf & ?). unfold file_only; split_and!; [|done..].
      intros p Hp. simpl. rewrite lookup_insert_ne by done. by rewrite Hf.
    + apply prefix_take.
    + unfold file_bytes at 1. simpl. rewrite lookup_insert_eq. simpl.
      by rewrite (file_bytes_io_only w w').
Qed.

Lemma wp_flush out (Q : outcome ofstream → World → Prop) w :
  o_good out = true →
  (∀ w' part, file_only (o_path out) w w' →
     part `prefix_of` o_buf out →
     file_bytes w' (o_path out) = file_bytes w (o_path out) ++ part →
     Q (Good (mkOfstream (o_path out) [] false)) w') →
  (∀ w', file_only (o_path out) w w' →
     files w' !! o_path out = Some (file_bytes w (o_path out) ++ o_buf out) →
     Q (Good (mkOfstream (o_path out) [] true)) w') →
  wp (flush out) Q w.
Proof.
  intros Hg Hbad Hok. unfold flush. rewrite Hg.
  apply wp_bind, wp_syscall. intros a w' Hw.
  assert (∀ data, file_only (o_path out) w
            (set_files (insert (o_path out) (file_bytes w' (o_path out) ++ data)) w') ∧
          files (set_files (insert (o_path out) (file_bytes w' (o_path out) ++ data)) w')
            !! o_path out = Some (file_bytes w (o_path out) ++ data)) as Happ.
  { intros data. rewrite (file_bytes_io_only w w') by done. destruct Hw as (Hf & ?).
    split; [unfold file_only; split_and!; [|done..]|].
    - intros p Hp. simpl. rewrite lookup_insert_ne by done. by rewrite Hf.
    - apply lookup_insert_eq. }
  destruct a as [| |n].
  - apply wp_bind, wp_modify, wp_ret. destruct (Happ (o_buf out)). by apply Hok.
  - apply wp_ret. apply (Hbad _ []); [by rewrite Hw|apply prefix_nil|].
    by rewrite app_nil_r, (file_bytes_io_only w w').
  - apply wp_bind, wp_modify, wp_ret. destruct (Happ (take n (o_buf out))) as [H1 H2].
    case_bool_decide as Hn.
    + apply Hok; [done|]. by rewrite take_ge in H2 at 2 by lia.
    + eapply Hbad; [done|apply prefix_take|]. unfold file_bytes at 1. by rewrite H2.
Qed.

(** Closing a stream that holds nothing, or is bad, does nothing to files. *)
Lemma wp_close_empty out (Q : outcome unit → World → Prop) w :
  o_good out = false ∨ (o_buf out = [] ∧ is_Some (files w !! o_path out)) →
  (∀ w', files w' = files w → clock_reads w' = clock_reads w → Q (Good tt) w') →
  wp (close out) Q w.
Proof.
  intros Hout HQ. unfold close. apply wp_bind. unfold flush.
  destruct (o_good out) eqn:Hg; [|by apply wp_ret, wp_ret, HQ].
  destruct Hout as [?|[Hb [data Hd]]]; [done|]. rewrite Hb.
  apply wp_bind, wp_syscall. intros a w' (Hf & Hc).
  assert (files (set_files (insert (o_path out) (file_bytes w' (o_path out) ++ [])) w') = files w).
  { simpl. rewrite app_nil_r. unfold file_bytes. rewrite Hf, Hd. simpl. by apply insert_id. }
  destruct a; rewrite ?take_nil; repeat wp_prim; by apply HQ.
Qed.

Lemma wp_FsyncFile v (Q : outcome unit → World → Prop) w :
  (∀ w' o, io_only w w' → (∀ e, o ≠ Throw e) → Q o w') → wp (FsyncFile v) Q w.
Proof.
  intros HQ. unfold FsyncFile. repeat case_match; try (by apply wp_fail, HQ).
  apply wp_bind, wp_call_ok. intros [] w' Hw; repeat wp_prim; by apply HQ.
Qed.

Lemma wp_FsyncDir (Q : outcome unit → World → Prop) w :
  (∀ w' o, io_only w w' → (∀ e, o ≠ Throw e) → Q o w') → wp FsyncDir Q w.
Proof.
  intros HQ. unfold FsyncDir. case_match; [by apply wp_fail, HQ|].
  apply wp_bind, wp_call_ok. intros [] w1 Hw1; simpl; [|by apply wp_fail, HQ].
  apply wp_bind, wp_call_ok. intros b w2 Hw2.
  apply wp_bind, wp_call_ok. intros b' w3 Hw3.
  assert (io_only w w3) by (by rewrite Hw1, Hw2).
  destruct b; repeat wp_prim; by apply HQ.
Qed.
End io_rules.

(** ** Rules for runs in which nothing is refused *)

Definition calm_run `{Env} : Prop := (∀ n, io n = IoOk) ∧ failpoint_var = None.

Section calm_rules.
Context `{Env}.
Context (calm : calm_run).

Lemma calm_failpoint name : FailpointActive name = false.
Proof using calm. unfold FailpointActive. destruct calm as [_ ->]. done. Qed.

Lemma calm_syscall (Q : outcome io_answer → World → Prop) w :
  (∀ w', io_only w w' → Q (Good IoOk) w') → wp syscall Q w.
Proof using calm. intros HQ. unfold wp. simpl. rewrite (proj1 calm). by apply HQ. Qed.

Lemma calm_call_ok (Q : outcome bool → World → Prop) w :
  (∀ w', io_only w w' → Q (Good true) w') → wp call_ok Q w.
Proof using calm. intros HQ. by apply wp_bind, calm_syscall. Qed.

Lemma calm_create_directories (Q : outcome unit → World → Prop) w :
  (∀ w', io_only w w' → Q (Good tt) w') → wp create_directories Q w.
Proof using calm. intros HQ. by apply wp_bind, calm_call_ok. Qed.

Lemma calm_open_out (trunc : bool) (path : string) (Q : outcome (option ofstream) → World → Prop) w :
  (∀ w', file_only path w w' →
     files w' !! path = Some (if trunc then ([] : list byte) else file_bytes w path) →
     Q (Good (Some (mkOfstream path [] true))) w') →
  wp (open_out trunc path) Q w.
Proof using calm.
  intros HQ. apply wp_bind, calm_call_ok. intros w' Hw. apply wp_bind, wp_modify, wp_ret.
  destruct Hw as (Hf & Hc). apply HQ.
  - unfold file_only; split; [|done]. intros p Hp. simpl. rewrite Hf.
    by apply lookup_insert_ne.
  - simpl. rewrite lookup_insert_eq. unfold file_bytes. by rewrite Hf.
Qed.

Lemma calm_stream_write out data (Q : outcome ofstream → World → Prop) w :
  o_good out = true →
  (∀ w', io_only w w' → Q (Good (mkOfstream (o_path out) (o_buf out ++ data) true)) w') →
  wp (stream_write out data) Q w.
Proof using calm.
  intros Hg HQ. unfold stream_write. rewrite Hg. apply wp_bind, calm_syscall.
  intros w' Hw. by apply wp_ret, HQ.
Qed.

Lemma calm_flush out (Q : outcome ofstream → World → Prop) w :
  o_good out = true →
  (∀ w', file_only (o_path out) w w' →
     files w' !! o_path out = Some (file_bytes w (o_path out) ++ o_buf out) →
     Q (Good (mkOfstream (o_path out) [] true)) w') →
  wp (flush out) Q w.
Proof using calm.
  intros Hg HQ. unfold flush. rewrite Hg. apply wp_bind, calm_syscall. intros w' (Hf & Hc).
  apply wp_bind, wp_modify, wp_ret. apply HQ; simpl.
  - unfold file_only; split; [|done]. intros p Hp. simpl.
    by rewrite lookup_insert_ne, Hf.
  - rewrite lookup_insert_eq. unfold file_bytes. by rewrite Hf.
Qed.

Lemma calm_rename tmp final data (Q : outcome bool → World → Prop) w :
  files w !! tmp = Some data → (∀ w', Q (Good true) w') → wp (rename tmp final) Q w.
Proof using calm.
  intros Htmp HQ. apply wp_bind, calm_call_ok. intros w' (Hf & _). apply wp_bind, wp_get.
  rewrite Hf, Htmp. by apply wp_bind, wp_modify, wp_ret.
Qed.

Lemma calm_FsyncFile (Q : outcome unit → World → Prop) w :
  (∀ w', io_only w w' → Q (Good tt) w') → wp (FsyncFile true) Q w.
Proof using calm.
  intros HQ. unfold FsyncFile. rewrite calm_failpoint. by apply wp_bind, calm_call_ok.
Qed.

Lemma calm_FsyncDir (Q : outcome unit → World → Prop) w :
  (∀ w', io_only w w' → Q (Good tt) w') → wp FsyncDir Q w.
Proof using calm.
  intros HQ. unfold FsyncDir. rewrite calm_failpoint. apply wp_bind, calm_call_ok.
  intros w1 H1. apply wp_bind, calm_call_ok. intros w2 H2. apply wp_bind, calm_call_ok.
  intros w3 H3. apply wp_ret, HQ. by rewrite H1, H2.
Qed.
End calm_rules.

(** ** Clocks, traversals and appends *)

(** [part] was added at the end of [path], and nothing else was touched. *)
Definition appended (path : string) (part : list byte) (w w' : World) : Prop :=
  file_only path w w' ∧ file_bytes w' path = file_bytes w path ++ part.

Lemma appended_nil path w w' : io_only w w' → appended path [] w w'.
Proof. intros Hw. split; [by rewrite Hw|]. by rewrite app_nil_r, (file_bytes_io_only w w'). Qed.

Lemma appended_trans path p1 p2 w1 w2 w3 :
  appended path p1 w1 w2 → appended path p2 w2 w3 → appended path (p1 ++ p2) w1 w3.
Proof.
  intros [H12 Hb2] [H23 Hb3]. split; [by transitivity w2|]. by rewrite Hb3, Hb2, app_assoc.
Qed.

Section oracle_rules.
Context `{Env}.

Lemma wp_now (Q : outcome Z → World → Prop) w :
  (∀ w', files w' = files w → io_calls w' = io_calls w → clock_reads w' = S (clock_reads w) →
     Q (Good (u64 (clock (clock_reads w)))) w') →
  wp now Q w.
Proof. intros HQ. by apply HQ. Qed.

Lemma wp_traverse `{Countable K} {A} (m : gmap K A) (Q : outcome (list (K * A)) → World → Prop) w :
  (∀ l w', l ≡ₚ map_to_list m → io_only w w' → Q (Good l) w') → wp (traverse m) Q w.
Proof. intros HQ. unfold traverse, wp. simpl. by apply HQ; [apply shuffle_perm|]. Qed.
End oracle_rules.
