(* ===== verification/DurableIo.v ===== *)
(** * Durable file replacement ([src/core/durable_io.cc])

    [DurableWriteFile] and [DurableRename], and the contract the snapshot and
    checkpoint stores rely on: whatever fails, and wherever, the destination
    holds either its old contents or the complete new contents. *)
From S2P Require Import Prelude Status Io.

Section durable.
Context `{Env}.

Definition DurableRename (tmp_path final_path : string) (policy : FsyncPolicy) : W unit :=
  do! (if bool_decide (policy ≠ kNever) then
         let! tmp_fd := call_ok in
         if negb tmp_fd then fail kIOError "open tmp for fsync failed"
         else
           let! s := attempt (FsyncFile true) in
           let! closed := call_ok in
           match s with inl _ => ret tt | inr e => λ w, (Fail e, w) end
       else ret tt) in
  let! renamed := rename tmp_path final_path in
  if negb renamed then fail kIOError "rename failed"
  else if bool_decide (policy ≠ kNever) then FsyncDir
  else ret tt.

(** [writer] puts the contents on the stream and reports a [Status]; the
    stream is closed (and its buffer written) when the block is left. *)
Definition DurableWriteFile (final_path : string)
    (writer : ofstream → W (ofstream * option Status)) (policy : FsyncPolicy) : W unit :=
  do! create_directories in
  let tmp_path := final_path +:+ ".tmp" in
  let! opened := open_out true tmp_path in
  match opened with
  | None => fail kIOError "open durable tmp failed"
  | Some out =>
      let! r := writer out in
      let '(out, write_status) := r in
      match write_status with
      | Some e => do! close out in λ w, (Fail e, w)
      | None =>
          let! out := flush out in
          if negb (o_good out) then do! close out in fail kIOError "flush durable tmp failed"
          else
            do! close out in
            DurableRename tmp_path final_path policy
      end
  end.

(** A writer that puts one block of bytes on the stream and tests
    it. *)
Definition block_writer (data : list byte) (msg : string) (out : ofstream)
    : W (ofstream * option Status) :=
  let! out := stream_write out data in
  ret (out, if o_good out then None else Some (mkStatus kIOError msg)).

(** A writer that computes what it writes first. *)
Definition computed_writer (gen : W (list byte)) (msg : string) (out : ofstream)
    : W (ofstream * option Status) :=
  let! data := gen in block_writer data msg out.
End durable.

Lemma tmp_path_ne path : path +:+ ".tmp" ≠ path.
Proof.
  intros Heq. apply (f_equal String.length) in Heq. revert Heq.
  induction path; simpl; [done|]. intros Heq. by injection Heq.
Qed.

(** What a replacement of [path] by [data] may leave behind. *)
Definition replaced (path : string) (data : list byte) (w : World) (o : outcome unit) (w' : World)
  : Prop :=
  (files w' !! path = files w !! path ∨ files w' !! path = Some data) ∧
  (o = Good tt → files w' !! path = Some data) ∧
  (∀ p, p ≠ path → p ≠ path +:+ ".tmp" → files w' !! p = files w !! p) ∧
  clock_reads w' = clock_reads w.

Section durable_rules.
Context `{Env}.

(** Nothing but the temporary file has changed yet. *)
Lemma replaced_not_yet path data w o w' :
  file_only (path +:+ ".tmp") w w' → (o ≠ Good tt) → replaced path data w o w'.
Proof.
  intros (Hf & ?) Ho. split_and!; [|done| |done].
  - left. apply Hf. by intros ?%eq_sym%tmp_path_ne.
  - intros p _. apply Hf.
Qed.

Lemma wp_DurableRename path data policy (Q : outcome unit → World → Prop) w0 w :
  file_only (path +:+ ".tmp") w0 w → files w !! (path +:+ ".tmp") = Some data →
  (∀ o w', replaced path data w0 o w' → Q o w') →
  wp (DurableRename (path +:+ ".tmp") path policy) Q w.
Proof.
  intros H0 Hdata HQ.
  assert (∀ w', file_only (path +:+ ".tmp") w0 w' → files w' !! (path +:+ ".tmp") = Some data →
    wp (let! renamed := rename (path +:+ ".tmp") path in
        if negb renamed then fail kIOError "rename failed"
        else if bool_decide (policy ≠ kNever) then FsyncDir else ret tt) Q w') as Hrest.
  { intros w1 H1 Hd1. apply wp_bind, wp_rename.
    - intros w2 H2. apply wp_fail, HQ, replaced_not_yet; [by rewrite H1, H2|done].
    - intros data' w2 Hd2 Hf2 Hc2. simplify_eq. simpl.
      assert (∀ o w', io_only w2 w' → replaced path data w0 o w') as Hdone.
      { intros o w' (Hf & ?). destruct H1 as (Hf1 & ?). unfold replaced.
        rewrite Hf, Hf2, lookup_insert_eq. split_and!; [by right|done| |congruence].
        intros p Hp Htmp. by rewrite lookup_insert_ne, lookup_delete_ne, Hf1. }
      case_bool_decide; [|by apply wp_ret, HQ, Hdone].
      apply wp_FsyncDir. intros w3 o H3 _. by apply HQ, Hdone. }
  unfold DurableRename. apply wp_bind. case_bool_decide; [|by apply wp_ret, Hrest].
  apply wp_bind, wp_call_ok. intros [] w1 Hw1; simpl.
  2: { apply wp_fail, HQ, replaced_not_yet; [by rewrite H0, Hw1|done]. }
  apply wp_bind, wp_attempt, wp_FsyncFile. intros w2 o Hw2 Ho.
  assert (file_only (path +:+ ".tmp") w0 w2) by (by rewrite H0, Hw1, Hw2).
  destruct o as [[]|e|e]; [| |by destruct (Ho e)].
  all: apply wp_bind, wp_call_ok; intros b w3 Hw3.
  - apply wp_ret, Hrest; [by transitivity w2; [|rewrite Hw3]|].
    destruct Hw1 as (Hf1 & _), Hw2 as (Hf2 & _), Hw3 as (Hf3 & _). congruence.
  - apply wp_raise, HQ, replaced_not_yet; [by transitivity w2; [|rewrite Hw3]|done].
Qed.

(** What a writer puts on the stream is the result of a computation that
    leaves the files alone. *)
Lemma wp_DurableWriteFile_gen path gen msg policy (P : list byte → Prop)
    (Q : outcome unit → World → Prop) w :
  (∀ w1, wp gen (λ o w2, ∃ data, o = Good data ∧ P data ∧ io_only w1 w2) w1) →
  (∀ o data w', P data → replaced path data w o w' → Q o w') →
  (∃ data, P data) →
  wp (DurableWriteFile path (computed_writer gen msg) policy) Q w.
Proof.
  intros Hgen HQ [data0 Hdata0]. unfold DurableWriteFile. apply wp_bind, wp_create_directories.
  intros w1 H1. split; [|apply (HQ _ data0 _ Hdata0), replaced_not_yet; [by rewrite H1|done]].
  apply wp_bind, wp_open_out.
  { intros w2 H2. apply wp_fail, (HQ _ data0 _ Hdata0), replaced_not_yet; [by rewrite H1, H2|done]. }
  intros w2 H2 Hopen. apply wp_bind, wp_bind. eapply wp_mono; [apply Hgen|].
  intros ? w2' (data & -> & Hdata & Hgen').
  assert (file_only (path +:+ ".tmp") w w2') as H02
    by (transitivity w1; [by rewrite H1|by rewrite H2, Hgen']).
  apply wp_bind, wp_stream_write; [done| |].
  - intros w3 H3. apply wp_ret. simpl. apply wp_bind, wp_flush; [done| |].
    + intros w4 part H4 _ _. simpl. apply wp_bind, wp_close_empty; [by left|].
      intros w5 Hf5 Hc5. apply wp_fail, (HQ _ data _ Hdata), replaced_not_yet; [|done].
      transitivity w4; [by rewrite H02, H3|]. by unfold file_only; rewrite Hf5.
    + intros w4 H4 Hd4. simpl in *. apply wp_bind, wp_close_empty; [right; eauto|].
      intros w5 Hf5 Hc5. apply (wp_DurableRename _ data _ _ w); [| |eauto].
      * transitivity w4; [by rewrite H02, H3|]. by unfold file_only; rewrite Hf5.
      * rewrite Hf5, Hd4, (file_bytes_io_only _ _ _ H3), (file_bytes_io_only _ _ _ Hgen').
        unfold file_bytes. by rewrite Hopen.
  - intros w3 part H3 _ _. apply wp_ret. simpl. apply wp_bind, wp_close_empty; [by left|].
    intros w4 Hf4 Hc4. apply wp_raise, (HQ _ data _ Hdata), replaced_not_yet; [|done].
    transitivity w3; [by rewrite H02|]. by unfold file_only; rewrite Hf4.
Qed.

Lemma wp_DurableWriteFile path data msg policy (Q : outcome unit → World → Prop) w :
  (∀ o w', replaced path data w o w' → Q o w') →
  wp (DurableWriteFile path (block_writer data msg) policy) Q w.
Proof.
  intros HQ. apply (wp_DurableWriteFile_gen path (ret data) msg policy (eq data)); [| |by exists data].
  - intros w1. apply wp_ret. by exists data.
  - intros o d w' <-. apply HQ.
Qed.

Lemma calm_DurableWriteFile_gen (calm : calm_run) path gen msg policy w :
  (∀ w1, wp gen (λ o w2, (∃ data, o = Good data) ∧ io_only w1 w2) w1) →
  wp (DurableWriteFile path (computed_writer gen msg) policy) (λ o _, o = Good tt) w.
Proof.
  intros Hgen. apply wp_bind, (calm_create_directories calm). intros w1 H1.
  apply wp_bind, (calm_open_out calm). intros w2 H2 Hopen.
  apply wp_bind, wp_bind. eapply wp_mono; [apply Hgen|]. intros ? w2' ([data ->] & Hgen').
  apply wp_bind, (calm_stream_write calm); [done|]. intros w3 H3.
  apply wp_ret. cbn [o_good o_buf o_path app]. apply wp_bind, (calm_flush calm); [done|].
  intros w4 H4 Hf4. cbn [o_good o_buf o_path negb] in *.
  apply wp_bind, wp_close_empty; [right; eauto|]. intros w5 Hf5 _.
  unfold DurableRename. apply wp_bind.
  assert (∀ w6, io_only w5 w6 → wp (let! renamed := rename (path +:+ ".tmp") path in
    if negb renamed then fail kIOError "rename failed"
    else if bool_decide (policy ≠ kNever) then FsyncDir else ret tt) (λ o _, o = Good tt) w6)
    as Hrest.
  { intros w6 (Hf6 & _). eapply wp_bind, (calm_rename calm); [by rewrite Hf6, Hf5|].
    intros w7. simpl. case_bool_decide; [|done]. by apply (calm_FsyncDir calm). }
  case_bool_decide; [|by apply wp_ret, Hrest].
  apply wp_bind, (calm_call_ok calm). intros w6 H6. apply wp_bind, wp_attempt.
  apply (calm_FsyncFile calm). intros w7 H7. apply wp_bind, (calm_call_ok calm). intros w8 H8.
  apply wp_ret, Hrest. by rewrite H6, H7.
Qed.

Lemma calm_DurableWriteFile (calm : calm_run) path data msg policy w :
  wp (DurableWriteFile path (block_writer data msg) policy) (λ o _, o = Good tt) w.
Proof.
  apply (calm_DurableWriteFile_gen calm path (ret data)). intros w1. apply wp_ret.
  split; [by exists data|done].
Qed.
End durable_rules.

(** ** Properties *)

(** C24. Whatever fails during [DurableWriteFile], the destination file holds its
    old contents or all of the new contents, it holds the new contents when
    the call reports success, and no file besides it and its [.tmp] sibling
    is touched.  When no system call is refused and no failpoint is set, the
    call succeeds. *)
Theorem durable_write_atomic `{Env} path data msg policy w :
  let '(o, w') := DurableWriteFile path (block_writer data msg) policy w in
  (files w' !! path = files w !! path ∨ files w' !! path = Some data) ∧
  (o = Good tt → files w' !! path = Some data) ∧
  (∀ p, p ≠ path → p ≠ path +:+ ".tmp" → files w' !! p = files w !! p) ∧
  (calm_run → o = Good tt).
Proof.
  destruct (DurableWriteFile path (block_writer data msg) policy w) as [o w'] eqn:Hrun.
  pose proof (wp_intro _ _ _ _ _ (wp_DurableWriteFile path data msg policy (replaced path data w) w
    ltac:(done)) Hrun) as (? & ? & ? & _).
  split_and!; [done..|]. intros calm.
  exact (wp_intro _ _ _ _ _ (calm_DurableWriteFile calm path data msg policy w) Hrun).
Qed.
