(* ===== verification/Record.v ===== *)
(** * The record format of the segment log ([src/core/storage/record.cc])

    [EncodeRecord] and [DecodeRecord] over the in-memory layout of
    [RecordHeader] ([src/core/storage/record.h]) on a little-endian LP64
    machine: 64 bytes, with padding at 12..15 and 60..63. *)
From S2P Require Import Prelude Status Crc64 Io.

Definition kRecordMagic : Z := 0x504D5151.
Definition kRecordVersion : Z := 1.

Record RecordHeader := mkRecordHeader {
  magic : Z;
  version : Z;
  header_kv_count : Z;
  payload_size : Z;
  crc64 : Z;
  offset : Z;
  enqueue_ts : Z;
  msg_id_high : Z;
  msg_id_low : Z;
  routing_key_size : Z;
}.

(** The member initialisers of [RecordHeader]. *)
Definition default_header : RecordHeader :=
  mkRecordHeader kRecordMagic kRecordVersion 0 0 0 0 0 0 0 0.

Record Record_ := mkRecord {
  header : RecordHeader;
  payload : list byte;
  headers : list (string * string);
  routing_key : string;
}.

Definition sizeof_RecordHeader : nat := 64.
Definition offsetof_crc64 : nat := 16.

Definition string_size (s : string) : Z := Z.of_nat (length (bytes_of_string s)).

Section codec.
Context `{Env}.

(** The bytes of a [RecordHeader] object. *)
Definition header_bytes (h : RecordHeader) : list byte :=
  le_split 4 (magic h) ++ le_split 2 (version h) ++ le_split 2 (header_kv_count h) ++
  le_split 4 (payload_size h) ++ padding1 ++
  le_split 8 (crc64 h) ++ le_split 8 (offset h) ++ le_split 8 (enqueue_ts h) ++
  le_split 8 (msg_id_high h) ++ le_split 8 (msg_id_low h) ++
  le_split 4 (routing_key_size h) ++ padding2.

(** [memcpy(&header, data, sizeof(RecordHeader))]. *)
Definition header_of_bytes (data : list byte) : RecordHeader :=
  mkRecordHeader (field 0 4 data) (field 4 2 data) (field 6 2 data) (field 8 4 data)
    (field 16 8 data) (field 24 8 data) (field 32 8 data) (field 40 8 data)
    (field 48 8 data) (field 56 4 data).

(** One key/value header: both sizes, then both strings, each cut to the
    32-bit size written for it. *)
Definition kv_bytes (kv : string * string) : list byte :=
  let key_size := u32 (string_size kv.1) in
  let value_size := u32 (string_size kv.2) in
  le_split 4 key_size ++ le_split 4 value_size ++
  take (Z.to_nat key_size) (bytes_of_string kv.1) ++
  take (Z.to_nat value_size) (bytes_of_string kv.2).

Definition body_bytes (record : Record_) : list byte :=
  concat (map kv_bytes (headers record)) ++ bytes_of_string (routing_key record) ++
  payload record.

Definition EncodeRecord (record : Record_) : outcome (list byte) :=
  let h := header record in
  let h := mkRecordHeader (magic h) (version h)
             (u16 (Z.of_nat (length (headers record))))
             (u32 (Z.of_nat (length (payload record))))
             (crc64 h) (offset h) (enqueue_ts h) (msg_id_high h) (msg_id_low h)
             (u32 (string_size (routing_key record))) in
  let out := header_bytes h ++ body_bytes record in
  let crc := Compute (drop sizeof_RecordHeader out) in
  Good (overwrite Byte.x00 offsetof_crc64 (le_split 8 crc) out).

Definition ConsumeHeader (data : list byte) : outcome RecordHeader :=
  if (length data <? sizeof_RecordHeader)%nat
  then Fail (mkStatus kCorruption "record header too small")
  else
    let h := header_of_bytes data in
    if negb (magic h =? kRecordMagic) || negb (version h =? kRecordVersion)
    then Fail (mkStatus kCorruption "record header magic/version mismatch")
    else Good h.

(** The loop over the key/value headers: [n] iterations left, [off] is
    [offset].  The sums are [size_t] sums of a position inside the span and
    two 32-bit sizes, so they do not wrap. *)
Fixpoint DecodeHeaders (n : nat) (off : nat) (data : list byte)
    : outcome (list (string * string) * nat) :=
  match n with
  | O => Good ([], off)
  | S n =>
      if (length data <? off + 8)%nat
      then Fail (mkStatus kCorruption "record header kv too small")
      else
        let key_size := field off 4 data in
        let value_size := field (off + 4) 4 data in
        let off := (off + 8)%nat in
        if Z.of_nat (length data) <? Z.of_nat off + key_size + value_size
        then Fail (mkStatus kCorruption "record header kv truncated")
        else
          let key := slice off (Z.to_nat key_size) data in
          let off := (off + Z.to_nat key_size)%nat in
          let value := slice off (Z.to_nat value_size) data in
          let off := (off + Z.to_nat value_size)%nat in
          obind (DecodeHeaders n off data) (λ '(kvs, off),
            Good ((string_of_bytes key, string_of_bytes value) :: kvs, off))
  end.

Definition DecodeRecord (data : list byte) : outcome Record_ :=
  obind (ConsumeHeader data) (λ h,
  obind (DecodeHeaders (Z.to_nat (header_kv_count h)) sizeof_RecordHeader data) (λ '(kvs, off),
    if Z.of_nat (length data) <? Z.of_nat off + routing_key_size h + payload_size h
    then Fail (mkStatus kCorruption "record payload truncated")
    else
      let key := slice off (Z.to_nat (routing_key_size h)) data in
      let off := (off + Z.to_nat (routing_key_size h))%nat in
      let body := slice off (Z.to_nat (payload_size h)) data in
      let crc := Compute (drop sizeof_RecordHeader data) in
      if negb (crc =? crc64 h)
      then Fail (mkStatus kCorruption "record crc mismatch")
      else Good (mkRecord h body kvs (string_of_bytes key)))).
End codec.

(** ** Well-formed records *)

(** The header's integers fit their fields and it carries the magic number
    and version of this format. *)
Definition wf_header (h : RecordHeader) : Prop :=
  magic h = kRecordMagic ∧ version h = kRecordVersion ∧
  is_u64 (offset h) ∧ is_u64 (enqueue_ts h) ∧ is_u64 (msg_id_high h) ∧ is_u64 (msg_id_low h).

(** The variable-length parts fit the size fields of the format. *)
Definition fits (r : Record_) : Prop :=
  Z.of_nat (length (headers r)) < 2 ^ 16 ∧
  Forall (λ kv, string_size kv.1 < 2 ^ 32 ∧ string_size kv.2 < 2 ^ 32) (headers r) ∧
  string_size (routing_key r) < 2 ^ 32 ∧
  Z.of_nat (length (payload r)) < 2 ^ 32.

Definition wf_record (r : Record_) : Prop := wf_header (header r) ∧ fits r.

(** The header that [EncodeRecord] writes for a record. *)
Definition encoded_header (r : Record_) : RecordHeader :=
  let h := header r in
  mkRecordHeader (magic h) (version h)
    (u16 (Z.of_nat (length (headers r)))) (u32 (Z.of_nat (length (payload r))))
    (Compute (body_bytes r)) (offset h) (enqueue_ts h) (msg_id_high h) (msg_id_low h)
    (u32 (string_size (routing_key r))).

(** The record as the decoder returns it. *)
Definition stored (r : Record_) : Record_ :=
  mkRecord (encoded_header r) (payload r) (headers r) (routing_key r).

Section facts.
Context `{Env}.

Lemma header_bytes_length h : length (header_bytes h) = sizeof_RecordHeader.
Proof.
  unfold header_bytes. rewrite !length_app, !length_le_split, padding1_length, padding2_length.
  done.
Qed.

(** The encoding is the final header followed by the body. *)
Lemma EncodeRecord_eq r :
  EncodeRecord r = Good (header_bytes (encoded_header r) ++ body_bytes r).
Proof.
  unfold EncodeRecord. f_equal.
  rewrite drop_app_length' by (by rewrite header_bytes_length).
  unfold header_bytes. cbn [magic version header_kv_count payload_size crc64 offset
    enqueue_ts msg_id_high msg_id_low routing_key_size encoded_header].
  set (a := le_split 4 (magic (header r)) ++ le_split 2 (version (header r)) ++
            le_split 2 (u16 (Z.of_nat (length (headers r)))) ++
            le_split 4 (u32 (Z.of_nat (length (payload r)))) ++ padding1).
  assert (length a = offsetof_crc64) as <-.
  { unfold a. by rewrite !length_app, !length_le_split, padding1_length. }
  pose proof (overwrite_middle Byte.x00 a (le_split 8 (crc64 (header r)))) as Ho.
  unfold a in Ho. repeat rewrite <-?app_assoc in Ho. repeat rewrite <-?app_assoc.
  unfold a. apply Ho. by rewrite !length_le_split.
Qed.

Ltac solve_field :=
  unfold field;
  repeat rewrite slice_skip by (rewrite ?length_le_split, ?padding1_length; lia);
  rewrite ?length_le_split, ?padding1_length; simpl Nat.sub;
  rewrite slice_app_here by (by rewrite length_le_split);
  apply le_roundtrip; simpl Z.of_nat; try done; try lia.

Lemma header_roundtrip h rest :
  is_u32 (magic h) → is_u16 (version h) → is_u16 (header_kv_count h) →
  is_u32 (payload_size h) → is_u64 (crc64 h) → is_u64 (offset h) → is_u64 (enqueue_ts h) →
  is_u64 (msg_id_high h) → is_u64 (msg_id_low h) → is_u32 (routing_key_size h) →
  header_of_bytes (header_bytes h ++ rest) = h.
Proof.
  destruct h; cbn [magic version header_kv_count payload_size crc64 offset
    enqueue_ts msg_id_high msg_id_low routing_key_size]; intros.
  unfold header_of_bytes, header_bytes. repeat rewrite <-app_assoc.
  cbn [magic version header_kv_count payload_size crc64 offset
    enqueue_ts msg_id_high msg_id_low routing_key_size].
  f_equal; solve_field.
Qed.

Definition fits_kv (kv : string * string) : Prop :=
  string_size kv.1 < 2 ^ 32 ∧ string_size kv.2 < 2 ^ 32.

Lemma kv_bytes_fits kv : fits_kv kv →
  kv_bytes kv = le_split 4 (string_size kv.1) ++ le_split 4 (string_size kv.2) ++
                bytes_of_string kv.1 ++ bytes_of_string kv.2.
Proof.
  intros [H1 H2]. unfold kv_bytes, string_size in *. rewrite !u32_small by lia.
  by rewrite !Nat2Z.id, !take_ge by lia.
Qed.

(** What the decoder reads off the encoding of one key/value header. *)
Lemma kv_fields k v pre post :
  fits_kv (k, v) →
  let data := pre ++ kv_bytes (k, v) ++ post in
  let kn := length (bytes_of_string k) in
  let vn := length (bytes_of_string v) in
  field (length pre) 4 data = Z.of_nat kn ∧
  field (length pre + 4) 4 data = Z.of_nat vn ∧
  slice (length pre + 8) kn data = bytes_of_string k ∧
  slice (length pre + 8 + kn) vn data = bytes_of_string v ∧
  length (kv_bytes (k, v)) = (8 + kn + vn)%nat.
Proof.
  intros Hf. cbv zeta. pose proof Hf as [Hk Hv]. rewrite kv_bytes_fits by done.
  unfold string_size in *. cbn [fst snd] in *.
  set (kb := bytes_of_string k) in *. set (vb := bytes_of_string v) in *.
  set (ka := le_split 4 (Z.of_nat (length kb))). set (va := le_split 4 (Z.of_nat (length vb))).
  assert (length ka = 4%nat ∧ length va = 4%nat) as [Hka Hva] by (split; apply length_le_split).
  unfold field. rewrite <-!app_assoc.
  rewrite (slice_app_at pre ka) by done.
  rewrite (app_assoc pre), (slice_app_at (pre ++ ka) va) by (rewrite ?length_app; lia).
  rewrite (app_assoc _ va), (slice_app_at ((pre ++ ka) ++ va) kb) by (rewrite ?length_app; lia).
  rewrite (app_assoc _ kb), (slice_app_at (((pre ++ ka) ++ va) ++ kb) vb)
    by (rewrite ?length_app; lia).
  unfold ka, va. rewrite !le_roundtrip by (change (8 * Z.of_nat 4) with 32; lia).
  split_and!; [done..|]. rewrite !length_app, !length_le_split. lia.
Qed.

Lemma DecodeHeaders_roundtrip kvs pre post :
  Forall fits_kv kvs →
  DecodeHeaders (length kvs) (length pre) (pre ++ concat (map kv_bytes kvs) ++ post) =
  Good (kvs, length pre + length (concat (map kv_bytes kvs)))%nat.
Proof.
  intros Hf. revert pre. induction Hf as [|[k v] kvs Hkv Hf IH]; intros pre.
  { simpl. by rewrite Nat.add_0_r. }
  cbn [DecodeHeaders map concat length].
  set (rest := concat (map kv_bytes kvs)) in *. rewrite <-(app_assoc (kv_bytes (k, v))).
  destruct (kv_fields k v pre (rest ++ post) Hkv) as (Hks & Hvs & Hkb & Hvb & Hl).
  rewrite Hks, Hvs. rewrite !Nat2Z.id, Hkb, Hvb.
  assert (length (pre ++ kv_bytes (k, v) ++ rest ++ post) =
          length pre + (8 + length (bytes_of_string k) + length (bytes_of_string v)) +
          length (rest ++ post))%nat as Htotal by (rewrite !length_app, Hl; lia).
  rewrite Htotal.
  destruct (Nat.ltb_spec (length pre + (8 + length (bytes_of_string k) +
    length (bytes_of_string v)) + length (rest ++ post)) (length pre + 8)); [lia|].
  case_match eqn:Hlt; [apply Z.ltb_lt in Hlt; lia|].
  specialize (IH (pre ++ kv_bytes (k, v))). rewrite <-app_assoc, length_app, Hl in IH.
  replace (length pre + 8 + length (bytes_of_string k) + length (bytes_of_string v))%nat
    with (length pre + (8 + length (bytes_of_string k) + length (bytes_of_string v)))%nat by lia.
  rewrite IH. cbn [obind]. rewrite !string_of_bytes_of_string, length_app, Hl.
  do 2 f_equal. lia.
Qed.

Lemma encoded_header_roundtrip r rest :
  wf_header (header r) →
  header_of_bytes (header_bytes (encoded_header r) ++ rest) = encoded_header r.
Proof.
  intros (Hm & Hv & Ho & Ht & Hh & Hl).
  apply header_roundtrip; cbn [encoded_header magic version header_kv_count payload_size
    crc64 offset enqueue_ts msg_id_high msg_id_low routing_key_size]; auto with queue.
  - rewrite Hm. unfold kRecordMagic. lia.
  - rewrite Hv. unfold kRecordVersion. lia.
Qed.

Lemma ConsumeHeader_encoded r rest :
  wf_header (header r) →
  ConsumeHeader (header_bytes (encoded_header r) ++ rest) = Good (encoded_header r).
Proof.
  intros Hwf. unfold ConsumeHeader.
  destruct (Nat.ltb_spec (length (header_bytes (encoded_header r) ++ rest)) sizeof_RecordHeader)
    as [Hlt|_]; [rewrite length_app, header_bytes_length in Hlt; lia|].
  rewrite encoded_header_roundtrip by done. destruct Hwf as (Hm & Hv & _).
  cbn [encoded_header magic version]. by rewrite Hm, Hv, !Z.eqb_refl.
Qed.

Lemma DecodeRecord_encoded r :
  wf_record r → DecodeRecord (header_bytes (encoded_header r) ++ body_bytes r) = Good (stored r).
Proof.
  intros [Hh (Hn & Hkv & Hrk & Hp)]. unfold DecodeRecord.
  rewrite ConsumeHeader_encoded by done. cbn [obind].
  pose proof (header_bytes_length (encoded_header r)) as Hhd.
  set (hd := header_bytes (encoded_header r)) in *.
  cbn [encoded_header header_kv_count routing_key_size payload_size crc64].
  rewrite u16_small, Nat2Z.id by lia. unfold body_bytes at 1. rewrite <-Hhd at 1.
  rewrite DecodeHeaders_roundtrip by done. cbn [obind]. unfold body_bytes at 1 2 3.
  set (kvs := concat (map kv_bytes (headers r))).
  unfold string_size in *. rewrite !u32_small, !Nat2Z.id by lia.
  set (rk := bytes_of_string (routing_key r)) in *.
  case_match eqn:Hlt; [apply Z.ltb_lt in Hlt; rewrite !length_app in Hlt; lia|].
  rewrite drop_app_length' by done.
  rewrite Z.eqb_refl. simpl negb. cbv iota. unfold stored. f_equal. f_equal.
  all: change (body_bytes r) with (kvs ++ rk ++ payload r).
  - rewrite (app_assoc hd), (app_assoc (hd ++ kvs)), <-(app_nil_r (_ ++ payload r)), <-app_assoc.
    apply slice_app_at; rewrite ?length_app; lia.
  - rewrite (app_assoc hd). rewrite slice_app_at by (rewrite ?length_app; lia).
    apply string_of_bytes_of_string.
Qed.

(** Every failure of the decoder is [kCorruption]: it neither throws nor
    reports another code. *)
Lemma DecodeRecord_total data :
  (∃ r, DecodeRecord data = Good r) ∨ ∃ msg, DecodeRecord data = Fail (mkStatus kCorruption msg).
Proof.
  unfold DecodeRecord, ConsumeHeader.
  destruct (_ <? _)%nat; simpl; [by eauto|]. destruct (_ || _); simpl; [by eauto|].
  assert (∀ n off, (∃ x, DecodeHeaders n off data = Good x) ∨
                   ∃ msg, DecodeHeaders n off data = Fail (mkStatus kCorruption msg)) as Hloop.
  { intros n. induction n as [|n IH]; intros off; simpl; [by eauto|].
    repeat (case_match; [by eauto|]).
    edestruct IH as [[[kvs off'] Hg]|[msg Hf]]; rewrite ?Hg, ?Hf; simpl; eauto. }
  edestruct Hloop as [[[kvs off] Hg]|[msg Hf]]; [rewrite Hg|rewrite Hf]; simpl; [|by eauto].
  repeat case_match; eauto.
Qed.

(** The header is in the first 64 bytes. *)
Lemma header_of_bytes_take data :
  header_of_bytes (take sizeof_RecordHeader data) = header_of_bytes data.
Proof.
  assert (∀ off n, (off + n <= sizeof_RecordHeader)%nat →
    slice off n (take sizeof_RecordHeader data) = slice off n data) as Hs.
  { intros off n Hn. unfold slice. rewrite !take_drop_commute, take_take. by rewrite Nat.min_l. }
  unfold header_of_bytes, field. rewrite !Hs by (unfold sizeof_RecordHeader; lia). done.
Qed.

(** A decoded record passed the checksum. *)
Lemma DecodeRecord_crc data r :
  DecodeRecord data = Good r →
  Compute (drop sizeof_RecordHeader data) = field 16 8 data ∧
  header r = header_of_bytes data ∧ (sizeof_RecordHeader <= length data)%nat.
Proof.
  unfold DecodeRecord, ConsumeHeader.
  destruct (Nat.ltb_spec (length data) sizeof_RecordHeader); simpl; [done|].
  destruct (_ || _); simpl; [done|].
  destruct (DecodeHeaders _ _ _) as [[kvs off]|e|e]; simpl; [|done..].
  repeat case_match; intros; simplify_eq. split_and!; [|done..].
  by match goal with Hc : negb _ = false |- _ => apply negb_false_iff, Z.eqb_eq in Hc end.
Qed.
End facts.

#[global] Opaque header_bytes header_of_bytes kv_bytes EncodeRecord DecodeRecord.

(** ** Properties *)

(** C22. A record whose parts fit the format's fields survives the encoder and
    the decoder: the decoder returns its strings, headers and payload
    unchanged, with the header the encoder completed. *)
Theorem record_roundtrip `{Env} r :
  wf_record r → obind (EncodeRecord r) DecodeRecord = Good (stored r).
Proof. intros Hwf. rewrite EncodeRecord_eq. by apply DecodeRecord_encoded. Qed.

(** C23. No damage inside a window of eight bytes of a record's body goes
    unnoticed: the decoder rejects the damaged bytes as corrupted. *)
Theorem record_burst_detected `{Env} r pre w w' post :
  wf_record r →
  EncodeRecord r = Good (pre ++ w ++ post) →
  (sizeof_RecordHeader <= length pre)%nat → (length w <= 8)%nat →
  length w' = length w → w' ≠ w →
  ∃ msg, DecodeRecord (pre ++ w' ++ post) = Fail (mkStatus kCorruption msg).
Proof.
  intros Hwf Henc Hpre Hw Hlen Hne.
  destruct (DecodeRecord_total (pre ++ w' ++ post)) as [[r' Hr']|?]; [|done]. exfalso.
  pose proof (DecodeRecord_encoded r Hwf) as Hdec.
  rewrite EncodeRecord_eq in Henc.
  assert (header_bytes (encoded_header r) ++ body_bytes r = pre ++ w ++ post) as Henc' by congruence.
  rewrite Henc' in Hdec.
  apply DecodeRecord_crc in Hdec as (Hc & _), Hr' as (Hc' & _).
  unfold field in Hc, Hc'. unfold sizeof_RecordHeader in *.
  assert (∀ x, slice 16 8 (pre ++ x) = slice 16 8 pre) as Hsl.
  { intros x. unfold slice. rewrite drop_app_le by lia. apply take_app_le.
    rewrite length_drop. lia. }
  rewrite !Hsl in *. rewrite <-Hc' in Hc. rewrite !drop_app_le in Hc by lia.
  eapply compute_burst; [| | |exact Hc]; [done|done|congruence].
Qed.
