(* ===== verification/SegmentLog.v ===== *)
(** * The append-only segment log ([src/core/storage/segment_log.cc])

    [SegmentLog] over the POSIX calls it makes.  The kernel keeps a file
    offset per descriptor: [write] uses and advances it, [pread] and
    [ftruncate] do not touch it, [open] sets it to 0. *)
From S2P Require Import Prelude Status Crc64 Io Record.

Record SegmentLog := mkSegmentLog {
  path_ : string;
  fsync_policy_ : FsyncPolicy;
  fd_ : option nat;                      (* [None] is -1; [Some p]: open, at file offset [p] *)
  next_offset_ : Z;
  offset_to_position_ : gmap Z nat;
}.

Definition new_SegmentLog (path : string) (policy : FsyncPolicy) : SegmentLog :=
  mkSegmentLog path policy None 0 ∅.

Definition set_fd (fd : option nat) (s : SegmentLog) : SegmentLog :=
  mkSegmentLog (path_ s) (fsync_policy_ s) fd (next_offset_ s) (offset_to_position_ s).
Definition set_index (next : Z) (m : gmap Z nat) (s : SegmentLog) : SegmentLog :=
  mkSegmentLog (path_ s) (fsync_policy_ s) (fd_ s) next m.

(** [std::map] iterates in key order. *)
Definition Offsets (s : SegmentLog) : list Z :=
  merge_sort Z.le (map fst (map_to_list (offset_to_position_ s))).

Abbreviation SegM := (M (World * SegmentLog)).

Section segment.
Context `{Env}.

(** ** System calls on the segment's descriptor *)

(** [None] is a negative result. *)
Definition pread (path : string) (size : Z) (position : Z) : W (option (list byte)) :=
  let! a := syscall in
  let! w := get in
  let available := drop (Z.to_nat (Z.min position (Z.of_nat (length (file_bytes w path)))))
                        (file_bytes w path) in
  let data := take (Z.to_nat (Z.min size (Z.of_nat (length available)))) available in
  ret (match a with
       | IoOk => Some data
       | IoFail => None
       | IoShort n => Some (take n data)
       end).

(** The result of [ftruncate] is ignored by the callers. *)
Definition ftruncate (path : string) (position : nat) : W unit :=
  let! good := call_ok in
  if good then modify (λ w, set_files (insert path (take position (file_bytes w path))) w)
  else ret tt.

Definition SizeBytes (s : SegmentLog) : W Z :=
  let! good := call_ok in
  match fd_ s with
  | Some _ => if good then gets (λ w, Z.of_nat (length (file_bytes w (path_ s)))) else ret 0
  | None => ret 0
  end.

(** ** Open *)

Definition Open : SegM unit :=
  do! on_fst create_directories in
  let! good := on_fst call_ok in
  if negb good then do! modify (λ '(w, s), (w, set_fd None s)) in fail kIOError "open segment failed"
  else
    modify (λ '(w, s), (set_files (insert (path_ s) (file_bytes w (path_ s))) w,
                        set_fd (Some 0%nat) s)).

(** ** Recover *)

(** The scan of the key/value sizes: the size of the whole record, or
    [None] when the file ends inside them.  All sums fit 64 bits. *)
Fixpoint kv_scan (path : string) (n : nat) (kv_cursor record_size : Z) : W (option Z) :=
  match n with
  | O => ret (Some record_size)
  | S n =>
      let! sizes := pread path 8 kv_cursor in
      match sizes with
      | Some sizes =>
          if (length sizes <? 8)%nat then ret None
          else
            let grow := 8 + field 0 4 sizes + field 4 4 sizes in
            kv_scan path n (kv_cursor + grow) (record_size + grow)
      | None => ret None
      end
  end.

Definition fixed_size (h : RecordHeader) : Z :=
  Z.of_nat sizeof_RecordHeader + routing_key_size h + payload_size h.

Fixpoint recover_loop (fuel : nat) (position : nat) : SegM unit :=
  match fuel with
  | O => throw "recovery loop: out of fuel"
  | S fuel =>
      let! s := gets snd in
      let path := path_ s in
      let! read := on_fst (pread path (Z.of_nat sizeof_RecordHeader) (Z.of_nat position)) in
      match read with
      | None => fail kIOError "read segment failed"
      | Some data =>
          if (length data =? 0)%nat then ret tt
          else if (length data <? sizeof_RecordHeader)%nat then on_fst (ftruncate path position)
          else
            let h := header_of_bytes data in
            if negb (magic h =? kRecordMagic) || negb (version h =? kRecordVersion)
            then on_fst (ftruncate path position)
            else
              let! size := on_fst (kv_scan path (Z.to_nat (header_kv_count h))
                (Z.of_nat (position + sizeof_RecordHeader)) (fixed_size h)) in
              match size with
              | None => on_fst (ftruncate path position)
              | Some record_size =>
                  do! on_fst (allocate record_size) in
                  let! total := on_fst (pread path record_size (Z.of_nat position)) in
                  let total := default [] total in
                  if Z.of_nat (length total) <? record_size
                  then on_fst (ftruncate path position)
                  else
                    match DecodeRecord total with
                    | Good _ =>
                        do! modify (λ '(w, s), (w, set_index (u64 (offset h + 1))
                              (<[offset h := position]> (offset_to_position_ s)) s)) in
                        recover_loop fuel (position + Z.to_nat record_size)
                    | _ => on_fst (ftruncate path position)
                    end
              end
      end
  end.

(** Every completed round moves [position] forward by a whole record, so
    one more round than the file has bytes is enough. *)
Definition Recover : SegM unit :=
  let! st := get in
  let '(w, s) := st in
  match fd_ s with
  | None => fail kInvalidArgument "segment not open"
  | Some _ =>
      do! modify (λ '(w, s), (w, set_index 0 ∅ s)) in
      recover_loop (S (length (file_bytes w (path_ s)))) 0
  end.

(** ** Append *)

(** [::write]: at the descriptor's offset, which it advances. *)
Definition write_fd (data : list byte) : SegM Z :=
  let! a := on_fst syscall in
  let k := match a with IoOk => length data | IoFail => 0%nat
                      | IoShort n => Nat.min n (length data) end in
  do! modify (λ '(w, s),
        let p := default 0%nat (fd_ s) in
        match a with
        | IoFail => (w, s)
        | _ => (set_files (insert (path_ s)
                  (overwrite Byte.x00 p (take k data) (file_bytes w (path_ s)))) w,
                set_fd (Some (p + k)%nat) s)
        end) in
  ret (match a with IoFail => -1 | _ => Z.of_nat k end).

Fixpoint write_loop (fuel : nat) (data : list byte) : SegM unit :=
  match data with
  | [] => ret tt
  | _ =>
      match fuel with
      | O => throw "write loop: out of fuel"
      | S fuel =>
          let! result := write_fd data in
          if result <=? 0 then fail kIOError "write failed"
          else write_loop fuel (drop (Z.to_nat result) data)
      end
  end.

(** Every round writes at least one byte. *)
Definition WriteAll (data : list byte) : SegM unit := write_loop (length data) data.

Definition set_offset (o : Z) (r : Record_) : Record_ :=
  let h := header r in
  mkRecord (mkRecordHeader (magic h) (version h) (header_kv_count h) (payload_size h) (crc64 h)
              o (enqueue_ts h) (msg_id_high h) (msg_id_low h) (routing_key_size h))
    (payload r) (headers r) (routing_key r).

(** [offset_to_position_[next_offset_] = lseek(fd_, 0, SEEK_CUR) - bytes.size();
    next_offset_++]. *)
Definition index_appended (size : nat) (s : SegmentLog) : SegmentLog :=
  set_index (u64 (next_offset_ s + 1))
    (<[next_offset_ s := (default 0%nat (fd_ s) - size)%nat]> (offset_to_position_ s)) s.

Definition Append (record : Record_) : SegM Z :=
  let! s := gets snd in
  match fd_ s with
  | None => fail kInvalidArgument "segment not open"
  | Some _ =>
      let! bytes := lift_outcome (EncodeRecord (set_offset (next_offset_ s) record)) in
      do! WriteAll bytes in
      do! (if bool_decide (fsync_policy_ s = kAlways) then on_fst (FsyncFile true) else ret tt) in
      do! on_snd (modify (index_appended (length bytes))) in
      ret (next_offset_ s)
  end.

(** ** Read *)

Definition ReadAt (s : SegmentLog) (position : nat) (size : Z) : W (list byte) :=
  do! allocate size in
  let! read := pread (path_ s) size (Z.of_nat position) in
  let read := default [] read in
  if Z.of_nat (length read) <? size then fail kIOError "pread failed" else ret read.

Definition Read (s : SegmentLog) (o : Z) : W Record_ :=
  match offset_to_position_ s !! o with
  | None => fail kNotFound "offset not found"
  | Some position =>
      let! read := pread (path_ s) (Z.of_nat sizeof_RecordHeader) (Z.of_nat position) in
      let data := default [] read in
      if (length data <? sizeof_RecordHeader)%nat then fail kIOError "read header failed"
      else
        let h := header_of_bytes data in
        let! size := kv_scan (path_ s) (Z.to_nat (header_kv_count h))
          (Z.of_nat (position + sizeof_RecordHeader)) (fixed_size h) in
        match size with
        | None => fail kIOError "read header kv failed"
        | Some record_size =>
            let! bytes := ReadAt s position record_size in
            lift_outcome (DecodeRecord bytes)
        end
  end.
End segment.

(** ** The bytes of a log *)

Section pure.
Context `{Env}.

Definition record_bytes (r : Record_) : list byte :=
  header_bytes (encoded_header r) ++ body_bytes r.

Definition log_bytes (rs : list Record_) : list byte := concat (map record_bytes rs).

(** What a scan of the records [rs] laid out from [pos] adds to the index. *)
Fixpoint index_records (pos : nat) (rs : list Record_) (next : Z) (m : gmap Z nat)
    : Z * gmap Z nat :=
  match rs with
  | [] => (next, m)
  | r :: rs =>
      index_records (pos + length (record_bytes r)) rs (u64 (offset (header r) + 1))
        (<[offset (header r) := pos]> m)
  end.

(** [kv_scan] on a file with contents [file], when no call fails. *)
Fixpoint scan (file : list byte) (n : nat) (cursor : nat) (size : Z) : option Z :=
  match n with
  | O => Some size
  | S n =>
      let sizes := slice cursor 8 file in
      if (length sizes <? 8)%nat then None
      else
        let grow := 8 + field 0 4 sizes + field 4 4 sizes in
        scan file n (cursor + Z.to_nat grow) (size + grow)
  end.

Lemma record_bytes_length r :
  length (record_bytes r) = (sizeof_RecordHeader + length (body_bytes r))%nat.
Proof. unfold record_bytes. by rewrite length_app, header_bytes_length. Qed.

Lemma slice_prefix (off n : nat) (f g : list byte) :
  f `prefix_of` g → length (slice off n f) = n → slice off n f = slice off n g.
Proof.
  intros [h ->]. unfold slice. rewrite length_take, length_drop. intros Hlen.
  destruct (decide (off <= length f)%nat).
  - rewrite drop_app_le by lia. rewrite take_app_le; [done|]. rewrite length_drop. lia.
  - rewrite drop_ge in * by lia. assert (n = 0%nat) as -> by (simpl in *; lia).
    by rewrite !take_0.
Qed.

(** Cutting the file can only make the scan fail. *)
Lemma scan_prefix f g n cursor size :
  f `prefix_of` g → scan f n cursor size = None ∨ scan f n cursor size = scan g n cursor size.
Proof.
  intros Hp. revert cursor size. induction n as [|n IH]; intros cursor size; simpl; [by right|].
  destruct (Nat.ltb_spec (length (slice cursor 8 f)) 8) as [|Hge]; [by left|].
  assert (length (slice cursor 8 f) = 8%nat) as H8.
  { unfold slice in *. rewrite length_take in *. lia. }
  rewrite <-(slice_prefix _ _ _ _ Hp H8).
  destruct (Nat.ltb_spec (length (slice cursor 8 f)) 8); [lia|]. apply IH.
Qed.

Lemma slice_slice (off n a k : nat) (l : list byte) :
  (a + k <= n)%nat → slice a k (slice off n l) = slice (off + a) k l.
Proof.
  intros Hk. unfold slice. rewrite <-drop_drop, !take_drop_commute, take_take.
  by rewrite Nat.min_l by lia.
Qed.

Lemma scan_kvs kvs pre post size :
  Forall fits_kv kvs →
  scan (pre ++ concat (map kv_bytes kvs) ++ post) (length kvs) (length pre) size =
  Some (size + Z.of_nat (length (concat (map kv_bytes kvs)))).
Proof.
  intros Hf. revert pre size. induction Hf as [|[k v] kvs Hkv Hf IH]; intros pre size.
  { simpl. f_equal. lia. }
  cbn [scan map concat length]. set (rest := concat (map kv_bytes kvs)) in *.
  rewrite <-(app_assoc (kv_bytes (k, v))).
  destruct (kv_fields k v pre (rest ++ post) Hkv) as (Hks & Hvs & _ & _ & Hl).
  unfold field in Hks, Hvs.
  assert (length (slice (length pre) 8 (pre ++ kv_bytes (k, v) ++ rest ++ post)) = 8%nat) as H8.
  { apply slice_length. rewrite !length_app, Hl. lia. }
  rewrite H8. simpl Nat.ltb. cbv iota. unfold field. rewrite !slice_slice by lia.
  rewrite Nat.add_0_r, Hks, Hvs.
  specialize (IH (pre ++ kv_bytes (k, v))). rewrite <-app_assoc, length_app, Hl in IH.
  rewrite (length_app (kv_bytes (k, v))), Hl.
  replace (Z.to_nat (8 + Z.of_nat (length (bytes_of_string k)) +
                     Z.of_nat (length (bytes_of_string v))))
    with (8 + length (bytes_of_string k) + length (bytes_of_string v))%nat by lia.
  rewrite IH. f_equal. lia.
Qed.

(** The scan of a whole record finds its length. *)
Lemma scan_record r pre post :
  wf_record r →
  scan (pre ++ record_bytes r ++ post) (length (headers r))
    (length pre + sizeof_RecordHeader) (fixed_size (encoded_header r)) =
  Some (Z.of_nat (length (record_bytes r))).
Proof.
  intros [_ (Hn & Hkv & Hrk & Hp)]. rewrite record_bytes_length.
  assert (pre ++ record_bytes r ++ post =
    (pre ++ header_bytes (encoded_header r)) ++ concat (map kv_bytes (headers r)) ++
    (bytes_of_string (routing_key r) ++ payload r) ++ post) as ->
    by (unfold record_bytes, body_bytes; by rewrite <-!app_assoc).
  rewrite <-(header_bytes_length (encoded_header r)) at 1. rewrite <-length_app.
  rewrite scan_kvs by done. f_equal.
  unfold fixed_size, string_size in *. cbn [encoded_header routing_key_size payload_size].
  rewrite !u32_small by (unfold string_size; lia).
  unfold body_bytes, string_size. rewrite !length_app. lia.
Qed.
End pure.

(** ** Runs in which no call is refused *)

Section calm.
Context `{Env}.
Context (calm : ∀ n, io n = IoOk).

Lemma wp_pread path size position (Q : outcome (option (list byte)) → World → Prop) w :
  (∀ w', io_only w w' →
     Q (Good (Some (slice (Z.to_nat position) (Z.to_nat size) (file_bytes w path)))) w') →
  wp (pread path size position) Q w.
Proof using calm.
  intros HQ. unfold pread, wp, bind, syscall, get, ret. simpl. rewrite calm.
  set (w' := mkWorld _ _ _).
  assert (file_bytes w' path = file_bytes w path) as -> by done.
  assert (∀ (n : Z) (l : list byte), take (Z.to_nat (Z.min n (Z.of_nat (length l)))) l =
                   take (Z.to_nat n) l ∧
                   drop (Z.to_nat (Z.min n (Z.of_nat (length l)))) l = drop (Z.to_nat n) l)
    as Hmin.
  { intros n l. destruct (decide (n <= Z.of_nat (length l))).
    - by rewrite Z.min_l by lia.
    - rewrite Z.min_r by lia. rewrite Nat2Z.id, !take_ge, !drop_ge by lia. done. }
  rewrite (proj2 (Hmin _ _)), (proj1 (Hmin _ _)). by apply HQ.
Qed.

Lemma wp_kv_scan path n cursor size (Q : outcome (option Z) → World → Prop) w :
  (∀ w', io_only w w' → Q (Good (scan (file_bytes w path) n cursor size)) w') →
  wp (kv_scan path n (Z.of_nat cursor) size) Q w.
Proof using calm.
  revert cursor size w. induction n as [|n IH]; intros cursor size w HQ; simpl.
  { apply wp_ret. by apply HQ. }
  apply wp_bind, wp_pread. intros w1 H1. rewrite Nat2Z.id.
  change (Z.to_nat 8) with 8%nat. simpl in *.
  case_match; [by apply wp_ret, HQ|].
  set (sizes := slice _ _ _) in *.
  pose proof (field_range 0 4 sizes) as Hk. pose proof (field_range 4 4 sizes) as Hv.
  replace (Z.of_nat cursor + (8 + field 0 4 sizes + field 4 4 sizes))
    with (Z.of_nat (cursor + Z.to_nat (8 + field 0 4 sizes + field 4 4 sizes))) by lia.
  apply IH. intros w2 H2. rewrite (file_bytes_io_only _ _ _ H1). apply HQ. by rewrite H1.
Qed.

Lemma wp_ftruncate path position (Q : outcome unit → World → Prop) w :
  (∀ w', files w' = <[path := take position (file_bytes w path)]> (files w) →
     clock_reads w' = clock_reads w → Q (Good tt) w') →
  wp (ftruncate path position) Q w.
Proof using calm.
  intros HQ. unfold ftruncate, call_ok, wp, bind, syscall, ret. simpl. rewrite calm.
  by apply HQ.
Qed.

Lemma wp_allocate n (Q : outcome unit → World → Prop) w :
  n <= alloc_limit → Q (Good tt) w → wp (allocate n) Q w.
Proof using. intros Hn HQ. unfold allocate. apply Z.leb_le in Hn. by rewrite Hn. Qed.
End calm.

(** A torn tail: what a crash in the middle of an append leaves behind. *)
Definition torn `{Env} (t : list byte) : Prop :=
  t = [] ∨ ∃ r, wf_record r ∧ t `prefix_of` record_bytes r ∧ t ≠ record_bytes r ∧
                Z.of_nat (length (record_bytes r)) <= alloc_limit.

Section recovery.
Context `{Env}.
Context (calm : ∀ n, io n = IoOk).

(** A record that recovery can take in. *)
Definition recoverable (r : Record_) : Prop :=
  wf_record r ∧ Z.of_nat (length (record_bytes r)) <= alloc_limit.

(** The state a scan that stopped at [bytes] leaves. *)
Definition scanned (w : World) (path : string) (bytes : list byte) (w' : World) : Prop :=
  files w' = <[path := bytes]> (files w) ∧
  clock_reads w' = clock_reads w.

Lemma wp_stop path pre t (Q : outcome unit → World * SegmentLog → Prop) w0 w s :
  io_only w0 w → files w0 !! path = Some (pre ++ t) →
  (∀ w', scanned w0 path pre w' → Q (Good tt) (w', s)) →
  wp (on_fst (ftruncate path (length pre))) Q (w, s).
Proof using calm.
  intros (Hf & Hc) Hfile HQ. apply wp_zoom, wp_ftruncate; [done|].
  intros w' Hf' Hc'. simpl in *. apply HQ. unfold scanned. split; [|congruence].
  rewrite Hf', Hf. f_equal. unfold file_bytes. rewrite Hf, Hfile. simpl.
  apply take_app_length.
Qed.

Lemma wp_recover_torn pre t fuel (Q : outcome unit → World * SegmentLog → Prop) w s :
  torn t → files w !! path_ s = Some (pre ++ t) →
  (∀ w', scanned w (path_ s) pre w' → Q (Good tt) (w', s)) →
  wp (recover_loop (S fuel) (length pre)) Q (w, s).
Proof using calm.
  intros Htorn Hfile HQ.
  assert (file_bytes w (path_ s) = pre ++ t) as Hb by (unfold file_bytes; by rewrite Hfile).
  assert (∀ n : Z, slice (length pre) (Z.to_nat n) (pre ++ t) = take (Z.to_nat n) t) as Hsl.
  { intros n. unfold slice. by rewrite drop_app_length. }
  simpl. apply wp_bind, wp_gets. apply wp_bind, wp_zoom, wp_pread; [done|].
  intros w1 H1. simpl in *. rewrite Nat2Z.id, Hb, Hsl.
  assert (∀ w', io_only w w' →
    wp (on_fst (ftruncate (path_ s) (length pre))) Q (w', s)) as Hstop
    by (intros; eapply wp_stop; eauto).
  destruct Htorn as [->|(r & Hwf & Hp & Hne & Hal)].
  { rewrite take_nil. simpl. apply wp_ret, HQ. destruct H1 as (Hf & ?).
    unfold scanned. split; [|done]. rewrite Hf, insert_id; [done|]. by rewrite Hfile, app_nil_r. }
  destruct (Nat.eqb_spec (length (take (Z.to_nat (Z.of_nat sizeof_RecordHeader)) t)) 0).
  { apply wp_ret, HQ. destruct H1 as (Hf & ?). unfold scanned. split; [|done].
    rewrite Hf, insert_id; [done|]. destruct t; [by rewrite Hfile, app_nil_r|done]. }
  case_match eqn:Hshort; [by apply Hstop|]. apply Nat.ltb_ge in Hshort.
  rewrite Nat2Z.id in *. rewrite length_take in Hshort.
  set (data := take sizeof_RecordHeader t) in *.
  assert (data = header_bytes (encoded_header r) ++ []) as ->.
  { rewrite app_nil_r. destruct Hp as [u Hu].
    assert (take sizeof_RecordHeader (record_bytes r) = data) as <-.
    { rewrite Hu. unfold data. apply take_app_le. lia. }
    unfold record_bytes. apply take_app_length'. symmetry; apply header_bytes_length. }
  destruct Hwf as [Hh Hfits]. rewrite encoded_header_roundtrip by done.
  destruct (_ || _); [by apply Hstop|].
  apply wp_bind, wp_zoom. rewrite <-Nat2Z.inj_add || idtac. apply wp_kv_scan; [done|].
  intros w2 H2. simpl in *. rewrite (file_bytes_io_only _ _ _ H1), Hb.
  assert (io_only w w2) as H02 by (by rewrite H1).
  cbn [encoded_header header_kv_count]. destruct Hfits as (Hn & Hrest).
  rewrite u16_small, Nat2Z.id by lia.
  destruct (scan_prefix (pre ++ t) (pre ++ record_bytes r ++ []) (length (headers r))
    (length pre + sizeof_RecordHeader) (fixed_size (encoded_header r))) as [->| ->].
  { rewrite app_nil_r. by apply prefix_app. }
  { by apply Hstop. }
  rewrite scan_record by done.
  apply wp_bind, wp_zoom, wp_allocate; [done|]. simpl.
  apply wp_bind, wp_zoom, wp_pread; [done|]. intros w3 H3. simpl.
  rewrite Nat2Z.id, (file_bytes_io_only _ _ _ H02), Hb, Hsl, Nat2Z.id.
  assert (length t < length (record_bytes r))%nat as Hlt.
  { destruct Hp as [u Hu]. rewrite Hu in Hne |- *. destruct u; [by rewrite app_nil_r in Hne|].
    rewrite length_app. simpl. lia. }
  destruct (Z.ltb_spec (Z.of_nat (length (take (length (record_bytes r)) t)))
    (Z.of_nat (length (record_bytes r)))) as [_|Hge];
    [|rewrite length_take in Hge; lia].
  apply Hstop. by rewrite H02.
Qed.

Lemma wp_recover_record pre r post fuel (Q : outcome unit → World * SegmentLog → Prop) w s :
  recoverable r → files w !! path_ s = Some (pre ++ record_bytes r ++ post) →
  (∀ w', io_only w w' →
     wp (recover_loop fuel (length (pre ++ record_bytes r))) Q
        (w', set_index (u64 (offset (header r) + 1))
               (<[offset (header r) := length pre]> (offset_to_position_ s)) s)) →
  wp (recover_loop (S fuel) (length pre)) Q (w, s).
Proof using calm.
  intros [Hwf Hal] Hfile HQ. pose proof Hwf as [Hh (Hn & _)].
  assert (file_bytes w (path_ s) = pre ++ record_bytes r ++ post) as Hb
    by (unfold file_bytes; by rewrite Hfile).
  simpl. apply wp_bind, wp_gets. apply wp_bind, wp_zoom, wp_pread; [done|].
  intros w1 H1. simpl in *. rewrite !Nat2Z.id, Hb.
  assert (slice (length pre) sizeof_RecordHeader (pre ++ record_bytes r ++ post) =
          header_bytes (encoded_header r) ++ []) as ->.
  { rewrite app_nil_r. unfold record_bytes. rewrite <-app_assoc.
    apply slice_app_at; [done|]. by rewrite header_bytes_length. }
  rewrite (length_app (header_bytes _)), header_bytes_length, Nat.add_0_r.
  simpl Nat.eqb. simpl Nat.ltb. cbv iota.
  rewrite encoded_header_roundtrip by done.
  pose proof Hh as (Hm & Hv & _). cbn [encoded_header magic version header_kv_count].
  rewrite Hm, Hv, !Z.eqb_refl. simpl orb. cbv iota.
  rewrite u16_small, Nat2Z.id by lia.
  apply wp_bind, wp_zoom, wp_kv_scan; [done|]. intros w2 H2. simpl.
  rewrite (file_bytes_io_only _ _ _ H1), Hb, scan_record by done.
  assert (io_only w w2) as H02 by (by rewrite H1).
  apply wp_bind, wp_zoom, wp_allocate; [done|]. simpl.
  apply wp_bind, wp_zoom, wp_pread; [done|]. intros w3 H3. simpl.
  rewrite !Nat2Z.id, (file_bytes_io_only _ _ _ H02), Hb, slice_app_at by done.
  rewrite Z.ltb_irrefl. unfold record_bytes. rewrite DecodeRecord_encoded by done.
  fold (record_bytes r).
  apply wp_bind, wp_modify. rewrite <-length_app. apply HQ. by rewrite H02.
Qed.

Lemma wp_recover_loop rs t pre fuel (Q : outcome unit → World * SegmentLog → Prop) w s :
  Forall recoverable rs → torn t →
  files w !! path_ s = Some (pre ++ log_bytes rs ++ t) →
  (length (log_bytes rs) < fuel)%nat →
  (∀ w', scanned w (path_ s) (pre ++ log_bytes rs) w' →
     let '(next, m) := index_records (length pre) rs (next_offset_ s) (offset_to_position_ s) in
     Q (Good tt) (w', set_index next m s)) →
  wp (recover_loop fuel (length pre)) Q (w, s).
Proof using calm.
  intros Hrs Ht. revert pre fuel w s.
  induction Hrs as [|r rs Hr Hrs IH]; intros pre fuel w s Hfile Hfuel HQ.
  - destruct fuel as [|fuel]; [simpl in Hfuel; lia|].
    apply wp_recover_torn with (t := t); [done..|]. simpl in HQ. rewrite app_nil_r in HQ.
    intros w' Hw'. specialize (HQ w' Hw'). by destruct s.
  - destruct fuel as [|fuel]; [lia|]. unfold log_bytes in *. simpl in *.
    fold (log_bytes rs) in *. rewrite <-app_assoc in Hfile.
    eapply wp_recover_record; [done|done|]. intros w1 H1.
    pose proof H1 as (Hf1 & Hc1).
    rewrite length_app, record_bytes_length in Hfuel.
    apply IH; [simpl; by rewrite Hf1, <-app_assoc|unfold sizeof_RecordHeader in *; lia|].
    intros w2 (Hf2 & Hc2). rewrite length_app.
    specialize (HQ w2). rewrite <-app_assoc in Hf2.
    destruct (index_records _ _ _ _) as [next m]. apply HQ.
    unfold scanned. split; [by rewrite Hf2, Hf1|congruence].
Qed.
End recovery.

(** ** The live log *)

(** Record [i] of the log carries offset [i]. *)
Definition numbered (rs : list Record_) : Prop :=
  (∀ i r, rs !! i = Some r → offset (header r) = Z.of_nat i) ∧ Z.of_nat (length rs) < 2 ^ 64.

(** The segment object knows the records [rs] that its file holds (and may
    hold more bytes after them). *)
Definition indexed `{Env} (rs : list Record_) (s : SegmentLog) : Prop :=
  Forall recoverable rs ∧ numbered rs ∧
  (next_offset_ s, offset_to_position_ s) = index_records 0 rs 0 ∅.

(** The log is open for appending: the file is exactly its records, and the
    descriptor stands at the end. *)
Definition appendable `{Env} (rs : list Record_) (w : World) (s : SegmentLog) : Prop :=
  indexed rs s ∧ files w !! path_ s = Some (log_bytes rs) ∧
  fd_ s = Some (length (log_bytes rs)).

Section live.
Context `{Env}.

Lemma log_bytes_app rs rs' : log_bytes (rs ++ rs') = log_bytes rs ++ log_bytes rs'.
Proof. unfold log_bytes. by rewrite map_app, concat_app. Qed.

Lemma index_records_app pos rs rs' next m :
  index_records pos (rs ++ rs') next m =
  let '(next', m') := index_records pos rs next m in
  index_records (pos + length (log_bytes rs)) rs' next' m'.
Proof.
  revert pos next m. induction rs as [|r rs IH]; intros pos next m; simpl.
  - by rewrite Nat.add_0_r.
  - rewrite IH. unfold log_bytes. simpl. rewrite length_app, Nat.add_assoc. done.
Qed.

Lemma numbered_app rs r :
  numbered (rs ++ [r]) ↔ numbered rs ∧ offset (header r) = Z.of_nat (length rs) ∧
                         Z.of_nat (length rs) + 1 < 2 ^ 64.
Proof.
  unfold numbered. rewrite length_app. simpl. split.
  - intros [Hn Hl]. split_and!; [|lia| |lia].
    + intros i r' Hi. apply Hn. by apply lookup_app_l_Some.
    + apply Hn. rewrite lookup_app_r, Nat.sub_diag by lia. done.
  - intros ([Hn Hl] & Ho & ?). split; [|lia]. intros i r' Hi.
    apply lookup_app_Some in Hi as [Hi|[? Hi]]; [by apply Hn|].
    apply list_lookup_singleton_Some in Hi as [? <-]. rewrite Ho. lia.
Qed.

Lemma index_next rs : numbered rs → (index_records 0 rs 0 ∅).1 = Z.of_nat (length rs).
Proof.
  induction rs as [|r rs IH] using rev_ind; [done|]. intros [_ [Ho Hl]]%numbered_app.
  rewrite index_records_app. destruct (index_records 0 rs 0 ∅). simpl.
  rewrite Ho, u64_small, length_app by (simpl; lia). simpl. lia.
Qed.

(** Every record of the log is indexed at its position. *)
Lemma index_lookup rs i r :
  numbered rs → rs !! i = Some r →
  (index_records 0 rs 0 ∅).2 !! Z.of_nat i = Some (length (log_bytes (take i rs))).
Proof.
  induction rs as [|r' rs IH] using rev_ind; [done|]. intros [Hn [Ho Hl]]%numbered_app Hi.
  rewrite index_records_app. destruct (index_records 0 rs 0 ∅) as [next m] eqn:Hm. simpl in *.
  rewrite Ho. apply lookup_app_Some in Hi as [Hi|[Hge Hi]].
  - pose proof (lookup_lt_Some _ _ _ Hi). rewrite lookup_insert_ne by lia.
    rewrite take_app_le by lia. by apply IH.
  - apply list_lookup_singleton_Some in Hi as [Hi <-].
    replace i with (length rs) by lia. rewrite take_app_length. by rewrite lookup_insert_eq.
Qed.

(** Nothing else is indexed. *)
Lemma index_dom rs o p :
  numbered rs → (index_records 0 rs 0 ∅).2 !! o = Some p → 0 <= o < Z.of_nat (length rs).
Proof.
  revert p. induction rs as [|r rs IH] using rev_ind; intros p; [done|].
  intros [Hn [Ho Hl]]%numbered_app Hp. rewrite index_records_app in Hp.
  destruct (index_records 0 rs 0 ∅) as [next m] eqn:Hm. simpl in *.
  rewrite length_app. simpl. apply lookup_insert_Some in Hp as [[<- _]|[_ Hp]]; [lia|].
  specialize (IH p Hn Hp). lia.
Qed.

Context (calm : ∀ n, io n = IoOk).

(** Reading at a position that holds a record returns that record. *)
Lemma wp_Read_at pre r post o (Q : outcome Record_ → World → Prop) w s :
  recoverable r → offset_to_position_ s !! o = Some (length pre) →
  files w !! path_ s = Some (pre ++ record_bytes r ++ post) →
  (∀ w', io_only w w' → Q (Good (stored r)) w') →
  wp (Read s o) Q w.
Proof using calm.
  intros [Hwf Hal] Hpos Hfile HQ. pose proof Hwf as [Hh (Hn & _)].
  assert (file_bytes w (path_ s) = pre ++ record_bytes r ++ post) as Hb
    by (unfold file_bytes; by rewrite Hfile).
  unfold Read. rewrite Hpos. apply wp_bind, wp_pread; [done|]. intros w1 H1.
  rewrite !Nat2Z.id, Hb.
  assert (slice (length pre) sizeof_RecordHeader (pre ++ record_bytes r ++ post) =
          header_bytes (encoded_header r) ++ []) as ->.
  { rewrite app_nil_r. unfold record_bytes. rewrite <-app_assoc.
    apply slice_app_at; [done|]. by rewrite header_bytes_length. }
  cbn [default id]. rewrite (length_app (header_bytes _)), header_bytes_length, Nat.add_0_r.
  simpl Nat.ltb. cbv iota. rewrite encoded_header_roundtrip by done.
  cbn [encoded_header header_kv_count]. rewrite u16_small, Nat2Z.id by lia.
  apply wp_bind, wp_kv_scan; [done|]. intros w2 H2.
  rewrite (file_bytes_io_only _ _ _ H1), Hb, scan_record by done.
  assert (io_only w w2) as H02 by (by rewrite H1).
  apply wp_bind, wp_bind, wp_allocate; [done|].
  apply wp_bind, wp_pread; [done|]. intros w3 H3. cbn [default id].
  rewrite !Nat2Z.id, (file_bytes_io_only _ _ _ H02), Hb, slice_app_at by done.
  rewrite Z.ltb_irrefl. apply wp_ret, wp_lift.
  unfold record_bytes. rewrite DecodeRecord_encoded by done. apply HQ. by rewrite H02.
Qed.

Lemma wp_Read rs post i r (Q : outcome Record_ → World → Prop) w s :
  indexed rs s → files w !! path_ s = Some (log_bytes rs ++ post) → rs !! i = Some r →
  (∀ w', io_only w w' → Q (Good (stored r)) w') →
  wp (Read s (Z.of_nat i)) Q w.
Proof using calm.
  intros (Hrec & Hnum & Hidx) Hfile Hi HQ.
  apply wp_Read_at with (pre := log_bytes (take i rs)) (r := r)
    (post := log_bytes (drop (S i) rs) ++ post); [| | |done].
  - by eapply Forall_lookup_1.
  - pose proof (index_lookup rs i r Hnum Hi) as Hl. by rewrite <-Hidx in Hl.
  - rewrite Hfile. f_equal. rewrite <-(take_drop_middle _ _ _ Hi) at 1.
    rewrite log_bytes_app. unfold log_bytes at 2. simpl. by rewrite <-!app_assoc.
Qed.
End live.

(** ** Reading when calls may be refused or cut short *)

Section reading_any.
Context `{Env}.

Lemma wp_pread_any path size position (Q : outcome (option (list byte)) → World → Prop) w :
  (∀ w', io_only w w' → Q (Good None) w') →
  (∀ w' d, io_only w w' →
     d `prefix_of` slice (Z.to_nat position) (Z.to_nat size) (file_bytes w path) →
     Q (Good (Some d)) w') →
  wp (pread path size position) Q w.
Proof.
  intros Hnone Hsome. apply wp_bind, wp_syscall. intros a w1 H1. apply wp_bind, wp_get, wp_ret.
  rewrite (file_bytes_io_only _ _ _ H1). set (l := file_bytes w path) in *.
  set (m := drop _ l).
  assert (m = drop (Z.to_nat position) l) as Hm.
  { unfold m. destruct (decide (position <= Z.of_nat (length l))); [by rewrite Z.min_l by lia|].
    rewrite Z.min_r, Nat2Z.id, !drop_ge by lia. done. }
  assert (take (Z.to_nat (Z.min size (Z.of_nat (length m)))) m = take (Z.to_nat size) m) as Hs.
  { destruct (decide (size <= Z.of_nat (length m))); [by rewrite Z.min_l by lia|].
    rewrite Z.min_r, Nat2Z.id, !take_ge by lia. done. }
  rewrite Hs, Hm. destruct a as [| |n]; [by apply Hsome|by apply Hnone|].
  apply Hsome; [done|]. apply prefix_take.
Qed.

Lemma wp_kv_scan_any path n cursor size (Q : outcome (option Z) → World → Prop) w :
  (∀ w', io_only w w' → Q (Good None) w') →
  (∀ w', io_only w w' → Q (Good (scan (file_bytes w path) n cursor size)) w') →
  wp (kv_scan path n (Z.of_nat cursor) size) Q w.
Proof.
  revert cursor size w. induction n as [|n IH]; intros cursor size w Hnone HQ; simpl.
  { apply wp_ret. by apply HQ. }
  apply wp_bind, wp_pread_any; [by intros; apply wp_ret, Hnone|]. intros w1 d H1 Hd.
  change (Z.to_nat 8) with 8%nat in *. rewrite Nat2Z.id in Hd.
  destruct (Nat.ltb_spec (length d) 8) as [|H8]; [by apply wp_ret, Hnone|].
  assert (d = slice cursor 8 (file_bytes w path)) as ->.
  { pose proof (prefix_length _ _ Hd) as Hl. destruct Hd as [k Hk].
    assert (length (slice cursor 8 (file_bytes w path)) <= 8)%nat
      by (unfold slice; rewrite length_take; lia).
    rewrite Hk, length_app in *. destruct k; [by rewrite app_nil_r|]. simpl in *. lia. }
  simpl in HQ. destruct (Nat.ltb_spec (length (slice cursor 8 (file_bytes w path))) 8); [lia|].
  set (sizes := slice _ _ _) in *.
  pose proof (field_range 0 4 sizes) as Hk. pose proof (field_range 4 4 sizes) as Hv.
  replace (Z.of_nat cursor + (8 + field 0 4 sizes + field 4 4 sizes))
    with (Z.of_nat (cursor + Z.to_nat (8 + field 0 4 sizes + field 4 4 sizes))) by lia.
  apply IH; intros w2 H2; [|rewrite (file_bytes_io_only _ _ _ H1)].
  - apply Hnone. by rewrite H1.
  - apply HQ. by rewrite H1.
Qed.

Lemma prefix_full {A} (d l : list A) : d `prefix_of` l → (length l <= length d)%nat → d = l.
Proof.
  intros [k ->] Hle. rewrite length_app in Hle. destruct k; simpl in Hle; [by rewrite app_nil_r|lia].
Qed.

(** Reading a record of the log gives that record or an error. *)
Lemma wp_Read_any rs post i r (Q : outcome Record_ → World → Prop) w s :
  indexed rs s → files w !! path_ s = Some (log_bytes rs ++ post) → rs !! i = Some r →
  (∀ w' out, io_only w w' → out = Good (stored r) ∨ (∃ e, out = Fail e) → Q out w') →
  wp (Read s (Z.of_nat i)) Q w.
Proof.
  intros (Hrec & Hnum & Hidx) Hfile Hi HQ.
  assert (∀ w' c m, io_only w w' → Q (Fail (mkStatus c m)) w') as Hfail by eauto.
  destruct (Forall_lookup_1 _ _ _ _ Hrec Hi) as [Hwf Hal]. pose proof Hwf as [Hh (Hn & _)].
  pose proof (index_lookup rs i r Hnum Hi) as Hl. rewrite <-Hidx in Hl. cbn [snd] in Hl.
  set (pre := log_bytes (take i rs)) in *.
  assert (file_bytes w (path_ s) = pre ++ record_bytes r ++ (log_bytes (drop (S i) rs) ++ post)) as Hb.
  { unfold file_bytes. rewrite Hfile. cbn [default id]. unfold pre.
    rewrite <-(take_drop_middle _ _ _ Hi) at 1. rewrite log_bytes_app.
    unfold log_bytes at 2. simpl. by rewrite <-!app_assoc. }
  set (rest := log_bytes (drop (S i) rs) ++ post) in *.
  unfold Read. rewrite Hl.
  apply wp_bind, wp_pread_any; [by intros; apply wp_fail, Hfail|]. intros w1 d H1 Hd.
  rewrite !Nat2Z.id, Hb in Hd. cbn [default id].
  destruct (Nat.ltb_spec (length d) sizeof_RecordHeader) as [|Hge]; [by apply wp_fail, Hfail|].
  assert (slice (length pre) sizeof_RecordHeader (pre ++ record_bytes r ++ rest) =
          header_bytes (encoded_header r) ++ []) as Hs.
  { rewrite app_nil_r. unfold record_bytes. rewrite <-app_assoc.
    apply slice_app_at; [done|]. by rewrite header_bytes_length. }
  apply prefix_full in Hd; [|by rewrite Hs, app_nil_r, header_bytes_length]. rewrite Hs in Hd. subst d.
  rewrite encoded_header_roundtrip by done.
  cbn [encoded_header header_kv_count]. rewrite u16_small, Nat2Z.id by lia.
  apply wp_bind, wp_kv_scan_any; intros w2 H2.
  { apply wp_fail, Hfail. by rewrite H1. }
  rewrite (file_bytes_io_only _ _ _ H1), Hb, scan_record by done.
  assert (io_only w w2) as H02 by (by rewrite H1).
  apply wp_bind, wp_bind, wp_allocate; [done|].
  apply wp_bind, wp_pread_any; intros w3; [intros H3|intros d H3 Hd]; cbn [default id].
  { pose proof (record_bytes_length r) as Hlen. unfold sizeof_RecordHeader in Hlen.
    destruct (Z.ltb_spec (Z.of_nat (@length byte [])) (Z.of_nat (length (record_bytes r))));
      [apply wp_fail, Hfail; by rewrite H02|]. rewrite Hlen in *. simpl in *. lia. }
  destruct (Z.ltb_spec (Z.of_nat (length d)) (Z.of_nat (length (record_bytes r)))) as [|Hge'].
  { apply wp_fail, Hfail. by rewrite H02. }
  rewrite !Nat2Z.id, (file_bytes_io_only _ _ _ H02), Hb, slice_app_at in Hd by done.
  apply prefix_full in Hd; [|lia]. subst d. apply wp_ret, wp_lift.
  unfold record_bytes. rewrite DecodeRecord_encoded by done. apply HQ; [by rewrite H02|by left].
Qed.

(** ** Recovery of an arbitrary file *)

Lemma wp_ftruncate_any path position (Q : outcome unit → World → Prop) w :
  (∀ w' k, (position <= k)%nat → files w' = <[path := take k (file_bytes w path)]> (files w) ∨
     io_only w w' → file_bytes w' path = take k (file_bytes w path) → Q (Good tt) w') →
  wp (ftruncate path position) Q w.
Proof.
  intros HQ. unfold ftruncate. apply wp_bind, wp_call_ok. intros good w1 H1. destruct good.
  - apply wp_modify. apply (HQ _ position); [done| |].
    + left. cbn. by rewrite (file_bytes_io_only _ _ _ H1), (proj1 H1).
    + unfold file_bytes at 1. cbn. rewrite lookup_insert_eq. cbn.
      by rewrite (file_bytes_io_only _ _ _ H1).
  - apply wp_ret. apply (HQ _ (position + length (file_bytes w path))%nat); [lia|by right|].
    rewrite take_ge by lia. by apply file_bytes_io_only.
Qed.

(** An intact record with offset [o] stands at position [p], before [limit]. *)
Definition intact (file : list byte) (limit : nat) (o : Z) (p : nat) : Prop :=
  ∃ n r, DecodeRecord (slice p n file) = Good r ∧ offset (header r) = o ∧ (p + n <= limit)%nat.

Lemma intact_take file limit k o p :
  intact file limit o p → (limit <= k)%nat → intact (take k file) limit o p.
Proof.
  intros (n & r & Hd & Ho & Hl) Hk. exists n, r. split; [|done]. rewrite <-Hd. f_equal.
  unfold slice. rewrite !take_drop_commute, take_take. by rewrite Nat.min_l by lia.
Qed.

Lemma intact_mono file l1 l2 o p : intact file l1 o p → (l1 <= l2)%nat → intact file l2 o p.
Proof. intros (n & r & Hd & Ho & Hl) Hle. exists n, r. split_and!; [done..|lia]. Qed.

(** What recovery leaves: a prefix of the file, and an index of intact
    records in it. *)
Definition recovered (w : World) (s : SegmentLog) (o : outcome unit) (w' : World) (s' : SegmentLog)
    : Prop :=
  let path := path_ s in
  match o with
  | Good _ => True
  | Fail e => code e = kIOError
  | Throw e => e = "bad_alloc"
  end ∧ path_ s' = path ∧ fd_ s' = fd_ s ∧
  (∃ k, file_bytes w' path = take k (file_bytes w path)) ∧
  (∀ p, p ≠ path → files w' !! p = files w !! p) ∧
  (∀ off p, offset_to_position_ s' !! off = Some p →
     intact (file_bytes w' path) (length (file_bytes w' path)) off p).

(** The state of the loop at [position]. *)
Definition recovering (w0 : World) (s0 : SegmentLog) (position : nat) (w : World) (s : SegmentLog)
    : Prop :=
  io_only w0 w ∧ path_ s = path_ s0 ∧ fd_ s = fd_ s0 ∧
  (position <= length (file_bytes w0 (path_ s0)))%nat ∧
  (∀ off p, offset_to_position_ s !! off = Some p → intact (file_bytes w0 (path_ s0)) position off p).

Lemma recovering_io w0 s0 position w w1 s :
  recovering w0 s0 position w s → io_only w w1 → recovering w0 s0 position w1 s.
Proof. intros (H1 & Hr) Hw. split; [by rewrite H1|done]. Qed.

Lemma recovering_done w0 s0 position w s o :
  recovering w0 s0 position w s →
  match o with Good _ => True | Fail e => code e = kIOError | Throw e => e = "bad_alloc" end →
  recovered w0 s0 o w s.
Proof.
  intros (Hw & Hp & Hfd & Hpos & Hidx) Ho. pose proof (file_bytes_io_only _ _ (path_ s0) Hw) as Hb.
  split; [done|]. split_and!; [done..| | |].
  - exists (length (file_bytes w0 (path_ s0))). by rewrite Hb, firstn_all.
  - intros p _. by rewrite (proj1 Hw).
  - intros off p Hoff. rewrite Hb. by eapply intact_mono; [apply Hidx|].
Qed.

Lemma wp_cut_off w0 s0 position w s :
  recovering w0 s0 position w s →
  wp (on_fst (ftruncate (path_ s) position)) (λ o p, recovered w0 s0 o p.1 p.2) (w, s).
Proof.
  intros (Hw & Hp & Hfd & Hpos & Hidx). pose proof (file_bytes_io_only _ _ (path_ s0) Hw) as Hb.
  apply wp_on_fst, wp_ftruncate_any. intros w' k Hk Hf Hbytes. cbn [fst snd].
  rewrite Hp, Hb in Hbytes. split; [done|]. split_and!; [done..|by exists k| |].
  - intros p Hne. destruct Hf as [->|[-> _]]; [|by rewrite (proj1 Hw)].
    rewrite lookup_insert_ne by congruence. by rewrite (proj1 Hw).
  - intros off p Hoff. rewrite Hbytes. apply (intact_mono _ position); [|rewrite length_take; lia].
    by apply intact_take; [apply Hidx|].
Qed.

Lemma wp_recover_any w0 s0 fuel position w s :
  (length (file_bytes w0 (path_ s0)) < fuel + position)%nat →
  recovering w0 s0 position w s →
  wp (recover_loop fuel position) (λ o p, recovered w0 s0 o p.1 p.2) (w, s).
Proof.
  revert position w s. induction fuel as [|fuel IH]; intros position w s Hfuel Hr.
  { destruct Hr as (_ & _ & _ & ? & _). lia. }
  cbn [recover_loop]. apply wp_bind, wp_gets_snd. cbn [snd].
  apply wp_bind, wp_on_fst, wp_pread_any; intros w1; [intros H1|intros d H1 Hd].
  { apply wp_fail. apply (recovering_done _ _ position); [by eapply recovering_io|done]. }
  assert (recovering w0 s0 position w1 s) as Hr1 by by eapply recovering_io.
  destruct (length d =? 0)%nat; [by apply wp_ret; apply (recovering_done _ _ position)|].
  destruct (Nat.ltb_spec (length d) sizeof_RecordHeader) as [|Hd64]; [by apply wp_cut_off|].
  destruct (_ || _); [by apply wp_cut_off|].
  rewrite !Nat2Z.id in Hd.
  apply prefix_full in Hd; [|unfold slice; rewrite length_take; lia].
  apply wp_bind, wp_on_fst, wp_kv_scan_any; intros w2 H2; cbn [fst snd].
  { apply wp_cut_off. by eapply recovering_io. }
  assert (recovering w0 s0 position w2 s) as Hr2 by by eapply recovering_io.
  destruct (scan _ _ _ _) as [size|]; [|by apply wp_cut_off].
  apply wp_bind, wp_on_fst. unfold allocate. destruct (size <=? alloc_limit); cbn [fst snd].
  2: { by apply wp_throw, (recovering_done _ _ position). }
  apply wp_ret, wp_bind, wp_on_fst, wp_pread_any; intros w3; [intros H3|intros e H3 He];
    cbn [fst snd default id].
  { assert (recovering w0 s0 position w3 s) as Hr3 by by eapply recovering_io.
    destruct (_ <? _); [by apply wp_cut_off|].
    destruct (DecodeRecord []) eqn:Hdec; [|by apply wp_cut_off..].
    apply DecodeRecord_crc in Hdec as (_ & _ & Hlen). unfold sizeof_RecordHeader in Hlen. simpl in Hlen. lia. }
  assert (recovering w0 s0 position w3 s) as Hr3 by by eapply recovering_io.
  destruct (Z.ltb_spec (Z.of_nat (length e)) size) as [|Hsize]; [by apply wp_cut_off|].
  rewrite Nat2Z.id in He. apply prefix_full in He; [|unfold slice; rewrite length_take; lia].
  destruct (DecodeRecord e) as [r| |] eqn:Hdec; [|by apply wp_cut_off..].
  pose proof (DecodeRecord_crc _ _ Hdec) as (_ & Hhead & Hlen).
  destruct Hr3 as (Hw3 & Hp & Hfd & Hpos & Hidx).
  rewrite (file_bytes_io_only w0) in He by (by destruct Hr2).
  rewrite (file_bytes_io_only w0) in Hd by (by destruct Hr). rewrite Hp in *.
  set (file := file_bytes w0 (path_ s0)) in *.
  assert (length e <= Z.to_nat size)%nat as Hle by (rewrite He; unfold slice; rewrite length_take; lia).
  assert (position + Z.to_nat size <= length file)%nat as Hend.
  { rewrite He in Hsize. unfold slice in Hsize. rewrite length_take, length_drop in Hsize. lia. }
  unfold sizeof_RecordHeader in Hlen.
  apply wp_bind, wp_modify, IH; [lia|].
  split; [done|]. split_and!; [done..|fold file; lia|]. intros off p. cbn.
  intros [[<- <-]|[_ Hoff]]%lookup_insert_Some; [|eapply intact_mono; [by apply Hidx|lia]].
  exists (Z.to_nat size), r. fold file. rewrite <-He. split_and!; [done| |lia].
  rewrite Hhead, <-(header_of_bytes_take e), He, Hd. f_equal. f_equal. unfold slice.
  rewrite take_take, Nat.min_l; [done|unfold sizeof_RecordHeader; lia].
Qed.

Lemma Recover_any w s :
  wp Recover (λ o p, match fd_ s with
    | None => o = Fail (mkStatus kInvalidArgument "segment not open") ∧ p = (w, s)
    | Some _ => recovered w s o p.1 p.2
    end) (w, s).
Proof.
  unfold Recover. apply wp_bind, wp_get. destruct (fd_ s) as [f|] eqn:Hfd; [|by apply wp_fail].
  apply wp_bind, wp_modify. eapply wp_mono; [eapply (wp_recover_any w (set_index 0 ∅ s))|].
  - cbn. lia.
  - split; [done|]. split_and!; [done..|cbn; lia|]. intros off p. cbn. by rewrite lookup_empty.
  - intros o p Hrec. exact Hrec.
Qed.
End reading_any.

(** ** Appending *)

Section appending.
Context `{Env}.

(** The files after [data] was stored at [p] of [path]. *)
Definition stored_at (path : string) (p : nat) (data : list byte) (w w' : World) : Prop :=
  files w' = <[path := overwrite Byte.x00 p data (file_bytes w path)]> (files w) ∧
  clock_reads w' = clock_reads w.

Lemma record_bytes_nonempty r : record_bytes r ≠ [].
Proof.
  intros Heq. apply (f_equal length) in Heq. rewrite record_bytes_length in Heq. done.
Qed.

Lemma set_fd_index fd next m s : set_fd fd (set_index next m s) = set_index next m (set_fd fd s).
Proof. done. Qed.

Lemma wp_WriteAll data p (Q : outcome unit → World * SegmentLog → Prop) w s :
  (∀ n, io n = IoOk) → data ≠ [] → fd_ s = Some p →
  (∀ w', stored_at (path_ s) p data w w' →
     Q (Good tt) (w', set_fd (Some (p + length data)%nat) s)) →
  wp (WriteAll data) Q (w, s).
Proof.
  intros calm Hne Hfd HQ. unfold WriteAll. destruct data as [|b data]; [done|].
  cbn [length write_loop]. apply wp_bind. unfold write_fd. apply wp_bind, wp_zoom.
  unfold syscall, wp at 1. simpl. rewrite calm. apply wp_bind, wp_modify, wp_ret.
  rewrite Hfd. cbn [default id]. destruct (Z.leb_spec (Z.of_nat (length (b :: data))) 0) as [|_];
    [simpl in *; lia|].
  rewrite Nat2Z.id, drop_ge by done. rewrite take_ge by done.
  destruct data; apply wp_ret; by apply HQ.
Qed.

Lemma wp_Append r p (Q : outcome Z → World * SegmentLog → Prop) w s :
  (∀ n, io n = IoOk) → failpoint_var = None → fd_ s = Some p →
  (let bytes := record_bytes (set_offset (next_offset_ s) r) in
   ∀ w', stored_at (path_ s) p bytes w w' →
     Q (Good (next_offset_ s))
       (w', set_index (u64 (next_offset_ s + 1)) (<[next_offset_ s := p]> (offset_to_position_ s))
              (set_fd (Some (p + length bytes)%nat) s))) →
  wp (Append r) Q (w, s).
Proof.
  intros calm Hfp Hfd HQ. unfold Append. apply wp_bind, wp_gets. simpl. rewrite Hfd.
  rewrite EncodeRecord_eq. fold (record_bytes (set_offset (next_offset_ s) r)).
  set (bytes := record_bytes _) in *. apply wp_bind, wp_lift. apply wp_bind.
  apply wp_WriteAll with p; [done|apply record_bytes_nonempty|done|].
  intros w1 (Hf1 & Hc1). apply wp_bind.
  assert (∀ w2, io_only w1 w2 →
    wp (do! on_snd (modify (index_appended (length bytes))) in ret (next_offset_ s)) Q
       (w2, set_fd (Some (p + length bytes)%nat) s)) as Hlast.
  { intros w2 (Hf2 & Hc2). apply wp_bind, wp_zoom, wp_modify, wp_ret.
    unfold index_appended. cbn.
    replace (p + length bytes - length bytes)%nat with p by lia.
    apply HQ. split_and!; congruence. }
  case_bool_decide; [|by apply wp_ret, Hlast].
  apply wp_zoom. unfold FsyncFile, FailpointActive. rewrite Hfp. simpl.
  apply wp_bind. unfold call_ok, syscall, wp, bind. simpl. rewrite calm. simpl.
  by apply Hlast.
Qed.

(** Whatever is refused, and wherever, an append to the end of the file
    keeps all bytes already there and every index entry but the new one. *)
Definition extended (path : string) (w w' : World) (s s' : SegmentLog) : Prop :=
  (∃ more, files w' !! path = Some (file_bytes w path ++ more) ∧
           fd_ s' = Some (length (file_bytes w path ++ more))) ∧
  (∀ p, p ≠ path → files w' !! p = files w !! p) ∧
  path_ s' = path_ s ∧ fsync_policy_ s' = fsync_policy_ s.

Lemma wp_write_loop fuel data (Q : outcome unit → World * SegmentLog → Prop) w s :
  is_Some (files w !! path_ s) → fd_ s = Some (length (file_bytes w (path_ s))) →
  (length data <= fuel)%nat →
  (∀ o w' s', extended (path_ s) w w' s s' → (∀ e, o ≠ Throw e) →
     next_offset_ s' = next_offset_ s → offset_to_position_ s' = offset_to_position_ s →
     (o = Good tt → files w' !! path_ s = Some (file_bytes w (path_ s) ++ data)) →
     Q o (w', s')) →
  wp (write_loop fuel data) Q (w, s).
Proof.
  revert data w s Q. induction fuel as [|fuel IH]; intros data w s Q [old Hold] Hfd Hfuel HQ.
  { destruct data; [|simpl in Hfuel; lia]. apply wp_ret, HQ; [|done..|].
    - split_and!; [exists []; rewrite app_nil_r|done..]. unfold file_bytes in *.
      by rewrite Hold in *.
    - intros _. unfold file_bytes. by rewrite Hold, app_nil_r. }
  destruct data as [|b data].
  { apply wp_ret, HQ; [|done..|].
    - split_and!; [exists []; rewrite app_nil_r|done..]. unfold file_bytes in *.
      by rewrite Hold in *.
    - intros _. unfold file_bytes. by rewrite Hold, app_nil_r. }
  set (d := b :: data) in *. change (write_loop (S fuel) d) with
    (let! result := write_fd d in
     if result <=? 0 then fail kIOError "write failed"
     else write_loop fuel (drop (Z.to_nat result) d)).
  apply wp_bind. unfold write_fd. apply wp_bind, wp_zoom, wp_syscall. intros a w1 H1.
  pose proof H1 as (Hf1 & _).
  assert (file_bytes w (path_ s) = old) as Hb by (unfold file_bytes; by rewrite Hold).
  assert (∀ k, (0 < k <= length d)%nat →
    wp (write_loop fuel (drop k d)) Q
      (set_files (insert (path_ s) (overwrite Byte.x00 (length old) (take k d) old)) w1,
       set_fd (Some (length old + k)%nat) s)) as Hnext.
  { intros k Hk. rewrite overwrite_end. apply IH.
    - exists (old ++ take k d). apply lookup_insert_eq.
    - unfold file_bytes. cbn. rewrite lookup_insert_eq. cbn.
      rewrite length_app, length_take. f_equal. lia.
    - rewrite length_drop. lia.
    - intros o w' s' ((more & Hm & Hfd') & Hoth & Hp & Hpol) Ho Hn Hi Hgood.
      unfold file_bytes in Hm, Hfd', Hgood. cbn in Hm, Hfd', Hgood.
      rewrite lookup_insert_eq in Hm, Hfd', Hgood. cbn in Hm, Hfd', Hgood.
      apply HQ; [|done..|].
      + unfold extended. rewrite Hb. split_and!; [exists (take k d ++ more); by rewrite app_assoc| |done..].
        intros p Hne. rewrite Hoth by done. cbn. by rewrite lookup_insert_ne, Hf1.
      + intros Hg. rewrite Hb, Hgood by done. by rewrite <-app_assoc, take_drop. }
  apply wp_bind, wp_modify. cbn [fst snd].
  rewrite (file_bytes_io_only _ _ _ H1), Hfd. cbn [fst snd]. rewrite !Hb. cbn [default id].
  assert (wp (fail kIOError "write failed") Q (w1, s)) as Hfail.
  { apply wp_fail, HQ; [|done..].
    split_and!; [exists []; rewrite app_nil_r, Hf1, Hb|intros; by rewrite Hf1|done..].
    by rewrite Hfd, Hb. }
  assert (0 < length d)%nat by (simpl; lia).
  destruct a as [| |n]; apply wp_ret.
  - destruct (Z.leb_spec (Z.of_nat (length d)) 0); [lia|]. rewrite Nat2Z.id.
    apply (Hnext (length d)). lia.
  - done.
  - destruct (Z.leb_spec (Z.of_nat (Nat.min n (length d))) 0) as [Hz|Hpos].
    + destruct n; [|lia]. simpl Nat.min. rewrite take_0, overwrite_end, app_nil_r.
      apply wp_fail, HQ; [|done..].
      split_and!; [exists []; rewrite app_nil_r, Hb|intros; cbn|done..].
      * cbn. by rewrite lookup_insert_eq, Nat.add_0_r.
      * by rewrite lookup_insert_ne, Hf1.
    + rewrite Nat2Z.id. apply (Hnext (Nat.min n (length d))). lia.
Qed.
End appending.

Section append_any.
Context `{Env}.

(** An append either fails, leaving the index as it was, or returns the next
    offset, with the record stored at the end of the file. *)
Definition append_post (r : Record_) (w : World) (s : SegmentLog)
    (o : outcome Z) (w' : World) (s' : SegmentLog) : Prop :=
  let bytes := record_bytes (set_offset (next_offset_ s) r) in
  extended (path_ s) w w' s s' ∧
  match o with
  | Good n =>
      n = next_offset_ s ∧ next_offset_ s' = u64 (n + 1) ∧
      offset_to_position_ s' = <[n := length (file_bytes w (path_ s))]> (offset_to_position_ s) ∧
      files w' !! path_ s = Some (file_bytes w (path_ s) ++ bytes)
  | Fail _ =>
      next_offset_ s' = next_offset_ s ∧ offset_to_position_ s' = offset_to_position_ s
  | Throw _ => False
  end.

Lemma wp_Append_any r (Q : outcome Z → World * SegmentLog → Prop) w s :
  is_Some (files w !! path_ s) → fd_ s = Some (length (file_bytes w (path_ s))) →
  (∀ o w' s', append_post r w s o w' s' → Q o (w', s')) →
  wp (Append r) Q (w, s).
Proof.
  intros Hold Hfd HQ. unfold Append. apply wp_bind, wp_gets. cbn [snd]. rewrite Hfd.
  rewrite EncodeRecord_eq. fold (record_bytes (set_offset (next_offset_ s) r)).
  set (bytes := record_bytes _) in *. apply wp_bind, wp_lift. apply wp_bind.
  unfold WriteAll. apply wp_write_loop; [done..|].
  intros o w1 s1 Hext Ho Hn Hi Hgood. destruct o as [[]|e|e]; [| |by destruct (Ho e)].
  2: { apply HQ. split; [done|]. by split. }
  specialize (Hgood eq_refl). apply wp_bind.
  assert (∀ w2, io_only w1 w2 → extended (path_ s) w w2 s s1) as Hext2.
  { intros w2 (Hf2 & _). destruct Hext as ((more & Hm) & Hoth & Hp).
    unfold extended. rewrite Hf2. eauto. }
  assert (∀ w2, io_only w1 w2 →
    wp (do! on_snd (modify (index_appended (length bytes))) in ret (next_offset_ s)) Q
       (w2, s1)) as Hlast.
  { intros w2 H2. pose proof H2 as (Hf2 & _). apply wp_bind, wp_zoom, wp_modify, wp_ret.
    apply HQ. cbn [fst snd].
    destruct (Hext2 w2 H2) as ((more & Hm & Hfd1) & Hoth & Hp & Hpol).
    split; [by split_and!; eauto|]. rewrite Hf2 in Hm |- *. rewrite Hgood in Hm.
    assert (bytes = more) as <- by (by apply (inj Some), (inj (app _)) in Hm).
    unfold index_appended. cbn. rewrite Hfd1, Hi, Hn. cbn [default id].
    rewrite length_app, Nat.add_sub. done. }
  case_bool_decide; [|by apply wp_ret, Hlast].
  apply wp_zoom, wp_FsyncFile. intros w2 o H2 Ho2. cbn [fst snd] in *.
  destruct o as [[]|e|e]; [by apply Hlast| |by destruct (Ho2 e)].
  apply HQ. split; [by apply Hext2|]. by split.
Qed.
End append_any.

(** ** Whole operations *)

Section operations.
Context `{Env}.

Lemma Append_appendable rs r w s :
  appendable rs w s →
  recoverable (set_offset (Z.of_nat (length rs)) r) → Z.of_nat (length rs) + 1 < 2 ^ 64 →
  let '(o, (w', s')) := Append r (w, s) in
  match o with
  | Good n => n = Z.of_nat (length rs) ∧ appendable (rs ++ [set_offset n r]) w' s'
  | Fail _ => indexed rs s' ∧ ∃ more, files w' !! path_ s = Some (log_bytes rs ++ more)
  | Throw _ => False
  end.
Proof.
  intros ((Hrec & Hnum & Hidx) & Hfile & Hfd) Hr Hlen.
  destruct (Append r (w, s)) as [o [w' s']] eqn:Hrun.
  assert (file_bytes w (path_ s) = log_bytes rs) as Hb by (unfold file_bytes; by rewrite Hfile).
  assert (next_offset_ s = Z.of_nat (length rs)) as Hnext.
  { rewrite <-index_next by done. by rewrite <-Hidx. }
  pose proof (wp_intro _ _ _ _ _ (wp_Append_any r (λ o p, append_post r w s o p.1 p.2) w s
    ltac:(eauto) ltac:(by rewrite Hb) ltac:(done)) Hrun) as [Hext Hpost]; simpl in Hext, Hpost.
  rewrite Hb, Hnext in *. destruct Hext as ((more & Hm & Hfd') & _ & Hp & _).
  destruct o as [n|e|e]; [| |done].
  2: { destruct Hpost as [Hn' Hi']. split; [|exists more; by rewrite <-Hb].
       unfold indexed. by rewrite Hn', Hi'. }
  destruct Hpost as (-> & Hn' & Hi' & Hf'). split; [done|].
  rewrite Hb in Hm, Hfd'. rewrite Hf' in Hm. apply (inj Some), (inj (app _)) in Hm as <-.
  unfold appendable, indexed. rewrite log_bytes_app, numbered_app, index_records_app, <-Hidx.
  rewrite Forall_app, Forall_singleton, Hp, Hf', Hfd', Hn', Hi'.
  assert (∀ r', log_bytes [r'] = record_bytes r') as -> by (intros; apply app_nil_r).
  done.
Qed.

(** When nothing is refused, an append to an open log succeeds. *)
Lemma Append_calm r w s : calm_run → is_Some (fd_ s) → wp (Append r) (λ o _, ∃ n, o = Good n) (w, s).
Proof.
  intros calm [p Hfd]. unfold Append. apply wp_bind, wp_gets. cbn [snd]. rewrite Hfd.
  rewrite EncodeRecord_eq. apply wp_bind, wp_lift. set (data := _ ++ _). clearbody data.
  assert (∀ w s (Q : outcome unit → World * SegmentLog → Prop), (∀ w' s', Q (Good tt) (w', s')) →
    wp (WriteAll data) Q (w, s)) as Hwrite.
  { intros w1 s1 Q HQ. unfold WriteAll. destruct data as [|b d]; [by apply wp_ret|].
    set (data := b :: d). change (write_loop (length data) data) with
      (let! result := write_fd data in
       if result <=? 0 then fail kIOError "write failed"
       else write_loop (length d) (drop (Z.to_nat result) data)).
    apply wp_bind. unfold write_fd. apply wp_bind, wp_zoom, (calm_syscall calm). intros w2 _.
    apply wp_bind, wp_modify, wp_ret.
    destruct (Z.leb_spec (Z.of_nat (length data)) 0); [simpl in *; lia|].
    rewrite Nat2Z.id, drop_all. destruct (length d); by apply wp_ret. }
  apply wp_bind, Hwrite. intros w1 s1. apply wp_bind.
  assert (∀ w2, wp (do! on_snd (S := World) (modify (index_appended (length data))) in ret (next_offset_ s))
    (λ o _, ∃ n, o = Good n) (w2, s1)) as Hlast.
  { intros w2. apply wp_bind, wp_modify_snd, wp_ret. eauto. }
  case_bool_decide; [|by apply wp_ret].
  apply wp_zoom, (calm_FsyncFile calm). intros w2 _. apply Hlast.
Qed.

Lemma Recover_run rs t w s :
  (∀ n, io n = IoOk) → Forall recoverable rs → torn t →
  files w !! path_ s = Some (log_bytes rs ++ t) → is_Some (fd_ s) →
  let '(o, (w', s')) := Recover (w, s) in
  o = Good tt ∧ files w' = <[path_ s := log_bytes rs]> (files w) ∧
  (next_offset_ s', offset_to_position_ s') = index_records 0 rs 0 ∅ ∧ fd_ s' = fd_ s ∧
path_ s' = path_ s.
Proof.
  intros calm Hrs Ht Hfile [p Hfd]. apply wp_run2. unfold Recover. apply wp_bind, wp_get. rewrite Hfd.
  apply wp_bind, wp_modify.
  apply (wp_recover_loop calm rs t []); [done|done|done| |].
  - unfold file_bytes. rewrite Hfile. cbn [default id]. rewrite length_app. lia.
  - intros w1 (Hf1 & _). cbn [length set_index next_offset_ offset_to_position_].
    destruct (index_records 0 rs 0 ∅). split_and!; done.
Qed.
End operations.

(** ** Properties *)

(** C19. An append to a log that is open at its end, whatever system calls fail
    in it, never disturbs the records already there: on success the log has
    the new record at the next offset; on failure the same records are
    indexed, at unchanged positions of a file that still begins with them. *)
Theorem append_keeps_log `{Env} rs r w s :
  appendable rs w s →
  recoverable (set_offset (Z.of_nat (length rs)) r) → Z.of_nat (length rs) + 1 < 2 ^ 64 →
  let '(o, (w', s')) := Append r (w, s) in
  match o with
  | Good n => n = Z.of_nat (length rs) ∧ appendable (rs ++ [set_offset n r]) w' s'
  | Fail _ => indexed rs s' ∧ ∃ more, files w' !! path_ s = Some (log_bytes rs ++ more)
  | Throw _ => False
  end.
Proof. apply Append_appendable. Qed.

(** On an intact log [Read] returns exactly the record that was appended
    at an offset, and [kNotFound] for every other offset. *)
Theorem read_log `{Env} rs post w s o :
  (∀ n, io n = IoOk) → indexed rs s → files w !! path_ s = Some (log_bytes rs ++ post) →
  (Read s o w).1 = match (if bool_decide (0 <= o) then rs !! Z.to_nat o else None) with
                   | Some r => Good (stored r)
                   | None => Fail (mkStatus kNotFound "offset not found")
                   end.
Proof.
  intros calm Hidx Hfile. case_match eqn:Ho.
  - case_bool_decide; [|done]. rewrite <-(Z2Nat.id o) by done.
    change (wp (Read s (Z.of_nat (Z.to_nat o))) (λ out _, out = Good (stored r)) w).
    by eapply wp_Read.
  - destruct Hidx as (_ & Hnum & Hi). unfold Read.
    destruct (offset_to_position_ s !! o) as [p|] eqn:Hp; [|done]. exfalso.
    replace (offset_to_position_ s) with (index_records 0 rs 0 ∅).2 in Hp by (by rewrite <-Hi).
    apply index_dom in Hp; [|done]. case_bool_decide; [|lia].
    apply lookup_ge_None in Ho. lia.
Qed.

(** C20. Recovery after a crash in the middle of an append: the torn record is
    cut off the file, every complete record is indexed at its position, and
    the next offset follows the last of them. *)
Theorem recover_torn_tail `{Env} rs t w s :
  (∀ n, io n = IoOk) → Forall recoverable rs → torn t →
  files w !! path_ s = Some (log_bytes rs ++ t) → is_Some (fd_ s) →
  let '(o, (w', s')) := Recover (w, s) in
  o = Good tt ∧ files w' = <[path_ s := log_bytes rs]> (files w) ∧
  (next_offset_ s', offset_to_position_ s') = index_records 0 rs 0 ∅ ∧ fd_ s' = fd_ s ∧
  path_ s' = path_ s.
Proof. apply Recover_run. Qed.

(** C21. Recovery of any file, whatever it holds and whatever calls fail: it ends,
    with success, an I/O error or the allocator's refusal of a size that a
    header claims (the fuel never runs out); it only ever shortens the file,
    touches no other, leaves the descriptor alone, and every entry of the index
    it builds is the position of an intact record of that offset in the file
    it leaves.  A log that is not open is reported and left as it is. *)
Theorem recover_any_file `{Env} w s :
  let '(o, (w', s')) := Recover (w, s) in
  match fd_ s with
  | None => o = Fail (mkStatus kInvalidArgument "segment not open") ∧ w' = w ∧ s' = s
  | Some _ => recovered w s o w' s'
  end.
Proof.
  apply wp_run2. eapply wp_mono; [apply Recover_any|]. intros o p. cbn beta.
  destruct (fd_ s); [done|]. by intros [-> ->].
Qed.

(** C34. The descriptor of a reopened log stands at the start of the file, so
    the first append after a restart overwrites the first record: offset 0
    then reads back as the new record, not the one that was stored there. *)
Theorem append_after_reopen_overwrites `{Env} rs r0 r w s :
  (∀ n, io n = IoOk) → failpoint_var = None →
  indexed (r0 :: rs) s → fd_ s = Some 0%nat → files w !! path_ s = Some (log_bytes (r0 :: rs)) →
  let new := set_offset (next_offset_ s) r in
  recoverable new →
  let '(o, (w', s')) := Append r (w, s) in
  o = Good (Z.of_nat (length (r0 :: rs))) ∧ (Read s' 0 w').1 = Good (stored new).
Proof.
  intros calm Hfp (Hrec & Hnum & Hidx) Hfd Hfile new Hnew.
  assert (next_offset_ s = Z.of_nat (length (r0 :: rs))) as Hnext.
  { rewrite <-index_next by done. by rewrite <-Hidx. }
  assert (offset_to_position_ s !! 0 = Some 0%nat) as H0.
  { pose proof (index_lookup (r0 :: rs) 0 r0 Hnum eq_refl) as Hl. by rewrite <-Hidx in Hl. }
  apply wp_run2, wp_Append with (p := 0%nat); [done..|].
  cbv zeta. fold new. intros w1 (Hf1 & _). cbn [fst snd]. split; [by rewrite Hnext|].
  set (s1 := set_index _ _ _).
  assert (offset_to_position_ s1 !! 0 = Some 0%nat) as H01.
  { unfold s1. cbn [set_index offset_to_position_]. rewrite Hnext. simpl length.
    by rewrite lookup_insert_ne by lia. }
  change (wp (Read s1 0) (λ out _, out = Good (stored new)) w1).
  eapply (wp_Read_at calm [] new); [done|done| |done].
  rewrite Hf1. unfold overwrite. rewrite take_0. apply lookup_insert_eq.
Qed.
