(* ===== verification/SegmentHandle.v ===== *)
(** * Who owns a log's descriptor ([src/core/storage/segment_log.cc])

    The constructors, the destructor and the moves of [SegmentLog], on the
    objects of a process and the kernel's table of open descriptors.
    [CreateQueueOnShard] opens a log in a local object and moves it twice on
    its way into the table of queues; what is shown is that at every moment
    each open descriptor belongs to one object, but for those that [Open]
    overwrote in an object that was open already, that no descriptor is closed
    twice, and that the log arrives as it was. *)
From S2P Require Import Prelude Status Io Record SegmentLog.

(** An object of class [SegmentLog], with the number of its descriptor. *)
Record Handle := mkHandle {
  h_path : string;
  h_policy : FsyncPolicy;
  h_fd : Z;
  h_next : Z;
  h_index : gmap Z nat;
}.

(** The objects that are alive, the open descriptors with their file offsets,
    and whether a descriptor was closed that was not open. *)
Record Memory := mkMemory {
  objects : gmap nat Handle;
  descriptors : gmap Z nat;
  bad_close : bool;
}.

Definition empty_memory : Memory := mkMemory ∅ ∅ false.

Definition set_object (i : nat) (h : Handle) (m : Memory) : Memory :=
  mkMemory (<[i := h]> (objects m)) (descriptors m) (bad_close m).

(** The log that an object stands for. *)
Definition view (m : Memory) (h : Handle) : SegmentLog :=
  mkSegmentLog (h_path h) (h_policy h)
    (if 0 <=? h_fd h then descriptors m !! h_fd h else None) (h_next h) (h_index h).

Section moves.
(** What the library leaves in a path and in a map that were moved from. *)
Context (moved_path : string → string) (moved_map : gmap Z nat → gmap Z nat).

(** [::close] *)
Definition close_fd (fd : Z) (m : Memory) : Memory :=
  mkMemory (objects m) (delete fd (descriptors m))
    (bad_close m || negb (bool_decide (is_Some (descriptors m !! fd)))).

(** [SegmentLog(path, fsync_policy)] *)
Definition construct (i : nat) (path : string) (policy : FsyncPolicy) (m : Memory) : Memory :=
  set_object i (mkHandle path policy (-1) 0 ∅) m.

(** [::open] answers [fd]; nothing is closed. *)
Definition open_at (i : nat) (fd : Z) (m : Memory) : Memory :=
  match objects m !! i with
  | None => m
  | Some h =>
      let h := mkHandle (h_path h) (h_policy h) fd (h_next h) (h_index h) in
      mkMemory (<[i := h]> (objects m))
        (if 0 <=? fd then <[fd := 0%nat]> (descriptors m) else descriptors m) (bad_close m)
  end.

(** What is left of an object that was moved from. *)
Definition moved_from (h : Handle) : Handle :=
  mkHandle (moved_path (h_path h)) (h_policy h) (-1) 0 (moved_map (h_index h)).

(** [SegmentLog(SegmentLog&& other)] *)
Definition move_construct (i other : nat) (m : Memory) : Memory :=
  match objects m !! other with
  | None => m
  | Some h => set_object other (moved_from h) (set_object i h m)
  end.

(** [operator=(SegmentLog&& other)] *)
Definition move_assign (i other : nat) (m : Memory) : Memory :=
  if decide (i = other) then m
  else
    match objects m !! i, objects m !! other with
    | Some h, Some h' =>
        let m := if 0 <=? h_fd h then close_fd (h_fd h) m else m in
        set_object other (moved_from h') (set_object i h' m)
    | _, _ => m
    end.

(** [~SegmentLog] *)
Definition destroy (i : nat) (m : Memory) : Memory :=
  match objects m !! i with
  | None => m
  | Some h =>
      let m := if 0 <=? h_fd h then close_fd (h_fd h) m else m in
      mkMemory (delete i (objects m)) (descriptors m) (bad_close m)
  end.

(** [Recover], [Append] and [Read] keep the number of the descriptor: they
    move its file offset and set the index. *)
Definition use_log (i : nat) (s : SegmentLog) (m : Memory) : Memory :=
  match objects m !! i with
  | None => m
  | Some h =>
      mkMemory (<[i := mkHandle (h_path h) (h_policy h) (h_fd h) (next_offset_ s)
                         (offset_to_position_ s)]> (objects m))
        (match fd_ s with
         | Some p => <[h_fd h := p]> (descriptors m)
         | None => descriptors m
         end) (bad_close m)
  end.

(** ** Runs *)

(** What a process may do, with the descriptors that become lost: [Open] does
    not look at the descriptor that it overwrites.  A new object takes a fresh
    identity, and the kernel answers an unused number, or a negative one when
    it refuses. *)
Definition held (m : Memory) (i : nat) : gset Z :=
  match objects m !! i with
  | Some h => if 0 <=? h_fd h then {[h_fd h]} else ∅
  | None => ∅
  end.

Inductive step (m : Memory) : gset Z → Memory → Prop :=
  | step_construct i path policy : objects m !! i = None → step m ∅ (construct i path policy m)
  | step_open i fd :
      is_Some (objects m !! i) → descriptors m !! fd = None → step m (held m i) (open_at i fd m)
  | step_move i other : objects m !! i = None → step m ∅ (move_construct i other m)
  | step_assign i other : step m ∅ (move_assign i other m)
  | step_destroy i : step m ∅ (destroy i m)
  | step_use i s h :
      objects m !! i = Some h → (is_Some (fd_ s) ↔ is_Some (fd_ (view m h))) →
      step m ∅ (use_log i s m).

(** The memories that a process can come to, with all it lost on the way. *)
Inductive reached : gset Z → Memory → Prop :=
  | reached_empty : reached ∅ empty_memory
  | reached_step lost m more m' : reached lost m → step m more m' → reached (lost ∪ more) m'.

(** Object [i] holds descriptor [fd]. *)
Definition holds (m : Memory) (fd : Z) (i : nat) : Prop :=
  0 <= fd ∧ h_fd <$> objects m !! i = Some fd.

(** Every descriptor that an object holds is open and held by it only, every
    open descriptor is held or lost, not both, and nothing was closed that was
    not open. *)
Record owned (lost : gset Z) (m : Memory) : Prop := {
  own_open fd i : holds m fd i → is_Some (descriptors m !! fd);
  own_one fd i j : holds m fd i → holds m fd j → i = j;
  own_all fd : is_Some (descriptors m !! fd) → (∃ i, holds m fd i) ∨ fd ∈ lost;
  own_lost fd : fd ∈ lost → is_Some (descriptors m !! fd) ∧ ∀ i, ¬ holds m fd i;
  own_good : bad_close m = false;
}.

#[local] Ltac solve_holds :=
  intuition (subst; simplify_eq; eauto; try congruence; try lia).

(** Memories in which the same objects hold the same open descriptors. *)
Lemma owned_same lost m m' :
  owned lost m → (∀ fd i, holds m' fd i ↔ holds m fd i) →
  (∀ fd, is_Some (descriptors m' !! fd) ↔ is_Some (descriptors m !! fd)) →
  bad_close m' = bad_close m → owned lost m'.
Proof.
  intros [Ho H1 Ha Hl Hg] Hh Hd Hb. split; [| | | |by rewrite Hb].
  - intros fd i. rewrite Hh, Hd. apply Ho.
  - intros fd i j. rewrite !Hh. apply H1.
  - intros fd [[i Hi]|Hi]%Hd%Ha; [left|by right]. exists i. by apply Hh.
  - intros fd [Hs Hn]%Hl. rewrite Hd. split; [done|]. intros i. rewrite Hh. apply Hn.
Qed.

(** An object that holds nothing. *)
Lemma holds_set m i h fd j :
  holds (set_object i h m) fd j ↔ if decide (j = i) then 0 <= fd ∧ h_fd h = fd else holds m fd j.
Proof.
  unfold holds, set_object. cbn. case_decide as Hd.
  - rewrite Hd, lookup_insert_eq. cbn. solve_holds.
  - by rewrite lookup_insert_ne.
Qed.

Lemma holds_none m i : objects m !! i = None → ∀ fd, ¬ holds m fd i.
Proof. intros Hi fd [_ Hh]. by rewrite Hi in Hh. Qed.

(** Closing the descriptor of an object that goes away or takes another one. *)
Lemma owned_release lost m i h :
  owned lost m → objects m !! i = Some h →
  let m' := if 0 <=? h_fd h then close_fd (h_fd h) m else m in
  objects m' = objects m ∧ bad_close m' = false ∧
  (∀ fd, is_Some (descriptors m' !! fd) ↔ is_Some (descriptors m !! fd) ∧ ¬ holds m fd i).
Proof.
  intros [Ho H1 Ha Hl Hg] Hi. cbv zeta.
  assert (∀ fd, holds m fd i ↔ 0 <= fd ∧ h_fd h = fd) as Hhi.
  { intros fd. unfold holds. rewrite Hi. cbn. solve_holds. }
  destruct (Z.leb_spec 0 (h_fd h)) as [Hle|Hlt].
  - split; [done|]. assert (is_Some (descriptors m !! h_fd h)) as Hs by (eapply Ho, Hhi; done).
    cbn. rewrite Hg, bool_decide_true by done. split; [done|]. intros fd. rewrite Hhi.
    destruct (decide (fd = h_fd h)) as [->|Hne].
    + rewrite lookup_delete_eq. split; [by intros []|solve_holds].
    + rewrite lookup_delete_ne by done. solve_holds.
  - split_and!; [done..|]. intros fd. rewrite Hhi. solve_holds.
Qed.

Lemma owned_construct lost m i path policy :
  owned lost m → objects m !! i = None → owned lost (construct i path policy m).
Proof.
  intros Hm Hi. apply (owned_same _ m); [done| |done|done].
  intros fd j. unfold construct. rewrite holds_set. case_decide as Hd; [|done]. subst j. cbn.
  pose proof (holds_none m i Hi fd). solve_holds.
Qed.

(** Losing what an object holds leaves an object that holds nothing. *)
Lemma owned_lose lost m i h :
  owned lost m → objects m !! i = Some h →
  owned (lost ∪ held m i) (set_object i (mkHandle (h_path h) (h_policy h) (-1) (h_next h) (h_index h)) m).
Proof.
  intros [Ho H1 Ha Hl Hg] Hi. set (m' := set_object _ _ _).
  assert (∀ fd j, holds m' fd j ↔ j ≠ i ∧ holds m fd j) as Hh.
  { intros fd j. unfold m'. rewrite holds_set. case_decide; cbn; solve_holds. }
  assert (∀ fd, fd ∈ held m i ↔ holds m fd i) as Hheld.
  { intros fd. unfold held, holds. rewrite Hi. cbn. destruct (Z.leb_spec 0 (h_fd h)).
    - rewrite elem_of_singleton. solve_holds.
    - rewrite elem_of_empty. solve_holds. }
  split; [| | | |done].
  - intros fd j [_ Hj]%Hh. by eapply Ho.
  - intros fd j k [_ Hj]%Hh [_ Hk]%Hh. by apply (H1 fd).
  - intros fd Hs. rewrite elem_of_union, Hheld. destruct (Ha fd Hs) as [[j Hj]|?]; [|by right; left].
    destruct (decide (j = i)) as [->|Hne]; [by right; right|]. left. exists j. by apply Hh.
  - intros fd. rewrite elem_of_union, Hheld. intros [Hfd|Hfd].
    + destruct (Hl fd Hfd) as [Hs Hn]. split; [done|]. intros j [_ Hj]%Hh. by apply (Hn j).
    + split; [by eapply Ho|]. intros j [Hne Hj]%Hh. by apply Hne, (H1 fd).
Qed.

Lemma owned_open_closed lost m i fd h :
  owned lost m → objects m !! i = Some h → h_fd h < 0 → descriptors m !! fd = None →
  owned lost (open_at i fd m).
Proof.
  intros [Ho H1 Ha Hl Hg] Hi Hneg Hfree. unfold open_at. rewrite Hi.
  set (h1 := mkHandle _ _ fd _ _). set (m' := mkMemory _ _ _).
  assert (∀ fd' j, holds m' fd' j ↔ (j = i ∧ fd' = fd ∧ 0 <= fd) ∨ holds m fd' j) as Hh.
  { intros fd' j. change (holds m' fd' j) with (holds (set_object i h1 m) fd' j).
    rewrite holds_set. case_decide as Hd; [|solve_holds]. subst j. cbn. unfold holds. rewrite Hi. cbn.
    solve_holds. }
  assert (∀ fd', is_Some (descriptors m' !! fd') ↔ (fd' = fd ∧ 0 <= fd) ∨ is_Some (descriptors m !! fd'))
    as Hd.
  { intros fd'. cbn. destruct (Z.leb_spec 0 fd).
    - destruct (decide (fd' = fd)) as [->|Hne].
      + rewrite lookup_insert_eq. solve_holds.
      + rewrite lookup_insert_ne by done. solve_holds.
    - solve_holds. }
  assert (∀ j, ¬ holds m fd j) as Hno.
  { intros j Hj. destruct (Ho _ _ Hj) as [p Hp]. by rewrite Hfree in Hp. }
  split; [| | | |done].
  - intros fd' j. rewrite Hh, Hd. intros [(_ & -> & ?)|Hj]; [by left|right; by eapply Ho].
  - intros fd' j k. rewrite !Hh. intros [(-> & -> & _)|Hj] [(-> & ? & _)|Hk]; subst; try done.
    + by destruct (Hno k).
    + by destruct (Hno j).
    + by apply (H1 fd').
  - intros fd'. rewrite Hd. intros [[-> Hp]|Hs].
    + left. exists i. apply Hh. by left.
    + destruct (Ha fd' Hs) as [[j Hj]|?]; [left|by right]. exists j. apply Hh. by right.
  - intros fd' Hfd'. destruct (Hl fd' Hfd') as [Hs Hn]. split; [apply Hd; by right|].
    intros j [(_ & -> & _)|Hj]%Hh; [|by apply (Hn j)]. rewrite Hfree in Hs. by destruct Hs.
Qed.

Lemma owned_open lost m i fd :
  owned lost m → is_Some (objects m !! i) → descriptors m !! fd = None →
  owned (lost ∪ held m i) (open_at i fd m).
Proof.
  intros Hm [h Hi] Hfree. pose proof (owned_lose lost m i h Hm Hi) as Hlose.
  set (h0 := mkHandle _ _ _ _ _) in Hlose.
  assert (open_at i fd m = open_at i fd (set_object i h0 m)) as ->.
  { unfold open_at, set_object. cbn. rewrite Hi, lookup_insert_eq. cbn. by rewrite insert_insert_eq. }
  eapply owned_open_closed; [exact Hlose|apply lookup_insert_eq|done|exact Hfree].
Qed.

(** The descriptor of [other] goes to [i], which holds none. *)
Lemma owned_transfer lost m i other h h' :
  owned lost m → i ≠ other → objects m !! other = Some h → (∀ fd, ¬ holds m fd i) →
  h_fd h' = h_fd h → owned lost (set_object other (moved_from h) (set_object i h' m)).
Proof.
  intros [Ho H1 Ha Hl Hg] Hne Hother Hi Hfd.
  set (m' := set_object other _ _).
  assert (∀ fd j, holds m' fd j ↔ (j = i ∧ holds m fd other) ∨ (j ≠ other ∧ holds m fd j)) as Hh.
  { intros fd j. unfold m'. specialize (Hi fd).
    assert (holds m fd other ↔ 0 <= fd ∧ h_fd h = fd) as Hho.
    { unfold holds. rewrite Hother. cbn. solve_holds. }
    rewrite holds_set, Hho. destruct (decide (j = other)) as [->|]; [cbn; solve_holds|].
    rewrite holds_set. destruct (decide (j = i)) as [->|]; rewrite ?Hfd; solve_holds. }
  split; [| | | |done].
  - intros fd j. rewrite Hh. intros [[_ Hj]|[_ Hj]]; by eapply Ho.
  - intros fd j k. rewrite !Hh. intros [[-> Hj]|[Hne1 Hj]] [[-> Hk]|[Hne2 Hk]]; try done.
    + by destruct Hne2; apply (H1 fd).
    + by destruct Hne1; apply (H1 fd).
    + by apply (H1 fd).
  - intros fd Hs. destruct (Ha fd Hs) as [[j Hj]|?]; [left|by right].
    destruct (decide (j = other)) as [->|Hj'].
    + exists i. apply Hh. by left.
    + exists j. apply Hh. by right.
  - intros fd Hfd'. destruct (Hl fd Hfd') as [Hs Hn]. split; [done|].
    intros j [[_ Hj]|[_ Hj]]%Hh; by eapply Hn.
Qed.

Lemma owned_move lost m i other :
  owned lost m → objects m !! i = None → owned lost (move_construct i other m).
Proof.
  intros Hm Hi. unfold move_construct. destruct (objects m !! other) as [h|] eqn:Ho; [|done].
  apply (owned_transfer _ m i other h h); try done; [congruence|by apply holds_none].
Qed.

Lemma owned_assign lost m i other : owned lost m → owned lost (move_assign i other m).
Proof.
  intros Hm. unfold move_assign. case_decide as Hne; [done|].
  destruct (objects m !! i) as [h|] eqn:Hi; [|done].
  destruct (objects m !! other) as [h'|] eqn:Ho; [|done].
  destruct (owned_release lost m i h Hm Hi) as (Hobj & Hbad & Hdesc).
  set (m1 := if 0 <=? h_fd h then close_fd (h_fd h) m else m) in *.
  (* between the close and the assignment the number is stale: go through the
     memory in which [i] holds nothing *)
  set (m2 := set_object i (mkHandle (h_path h) (h_policy h) (-1) (h_next h) (h_index h)) m1).
  assert (∀ fd j, holds m2 fd j ↔ j ≠ i ∧ holds m fd j) as Hh.
  { intros fd j. unfold m2. rewrite holds_set. unfold holds at 1. rewrite Hobj.
    case_decide; cbn; [solve_holds|]. unfold holds. solve_holds. }
  assert (owned lost m2) as Hm2.
  { destruct Hm as [Hop H1 Ha Hl Hg]. split; [| | | |done].
    - intros fd j [Hj Hm]%Hh. apply Hdesc. split; [by eapply Hop|]. intros Hi'. by apply Hj, (H1 fd).
    - intros fd j k [_ Hj]%Hh [_ Hk]%Hh. by apply (H1 fd).
    - intros fd [Hs Hn]%Hdesc. destruct (Ha fd Hs) as [[j Hj]|?]; [left|by right]. exists j.
      apply Hh. split; [|done]. by intros ->.
    - intros fd Hfd. destruct (Hl fd Hfd) as [Hs Hn]. split; [by apply Hdesc|].
      intros j [_ Hj]%Hh. by apply (Hn j). }
  assert (set_object other (moved_from h') (set_object i h' m1) =
          set_object other (moved_from h') (set_object i h' m2)) as ->.
  { unfold m2, set_object. cbn. by rewrite insert_insert_eq. }
  apply (owned_transfer _ m2 i other h'); [done|done| | |done].
  - unfold m2, set_object. cbn. by rewrite lookup_insert_ne, Hobj.
  - intros fd [? _]%Hh. done.
Qed.

Lemma owned_destroy lost m i : owned lost m → owned lost (destroy i m).
Proof.
  intros Hm. unfold destroy. destruct (objects m !! i) as [h|] eqn:Hi; [|done].
  destruct (owned_release lost m i h Hm Hi) as (Hobj & Hbad & Hdesc).
  set (m1 := if 0 <=? h_fd h then close_fd (h_fd h) m else m) in *.
  set (m' := mkMemory _ _ _).
  assert (∀ fd j, holds m' fd j ↔ j ≠ i ∧ holds m fd j) as Hh.
  { intros fd j. unfold holds, m'. cbn. rewrite Hobj. destruct (decide (j = i)) as [->|Hne].
    - rewrite lookup_delete_eq. solve_holds.
    - rewrite lookup_delete_ne by done. solve_holds. }
  destruct Hm as [Hop H1 Ha Hl Hg]. split; [| | | |done].
  - intros fd j [Hj Hm]%Hh. apply Hdesc. split; [by eapply Hop|]. intros Hi'. by apply Hj, (H1 fd).
  - intros fd j k [_ Hj]%Hh [_ Hk]%Hh. by apply (H1 fd).
  - intros fd [Hs Hn]%Hdesc. destruct (Ha fd Hs) as [[j Hj]|?]; [left|by right]. exists j.
    apply Hh. split; [|done]. by intros ->.
  - intros fd Hfd. destruct (Hl fd Hfd) as [Hs Hn]. split; [by apply Hdesc|].
    intros j [_ Hj]%Hh. by apply (Hn j).
Qed.

Lemma owned_use lost m i s h :
  owned lost m → objects m !! i = Some h → (is_Some (fd_ s) ↔ is_Some (fd_ (view m h))) →
  owned lost (use_log i s m).
Proof.
  intros Hm Hi Hs. unfold use_log. rewrite Hi. apply (owned_same _ m); [done| | |done].
  - intros fd j. unfold holds. cbn. destruct (decide (j = i)) as [->|Hne].
    + by rewrite lookup_insert_eq, Hi.
    + by rewrite lookup_insert_ne.
  - intros fd. cbn. destruct (fd_ s) as [p|]; [|done].
    assert (is_Some (fd_ (view m h))) as [q Hq] by (by apply Hs; eexists). cbn in Hq.
    destruct (0 <=? h_fd h); [|done]. destruct (decide (fd = h_fd h)) as [->|Hne].
    + rewrite lookup_insert_eq, Hq. split; by eexists.
    + by rewrite lookup_insert_ne.
Qed.

Lemma step_owned lost m more m' : step m more m' → owned lost m → owned (lost ∪ more) m'.
Proof.
  intros [] Hm; rewrite ?union_empty_r_L;
    eauto using owned_construct, owned_move, owned_assign, owned_destroy, owned_open, owned_use.
Qed.

Lemma owned_empty : owned ∅ empty_memory.
Proof.
  split; [by intros fd i [_ ?]|by intros fd i j [_ ?]|by intros fd []|by intros fd ?%elem_of_empty|done].
Qed.

Lemma reached_owned lost m : reached lost m → owned lost m.
Proof. induction 1; [apply owned_empty|by eapply step_owned]. Qed.

(** ** The log of a new queue *)

(** [CreateQueueOnShard] on its objects: the local [segment], the parameter
    [segment_log] of the constructor of [QueueState], and its member.  The
    kernel answers [fd]; [Open] and [Recover] leave the log [s]. *)
Definition open_log (local : nat) (fd : Z) (s : SegmentLog) (m : Memory) : Memory :=
  use_log local s (open_at local fd (construct local (path_ s) (fsync_policy_ s) m)).

Definition keep_log (local parameter member : nat) (m : Memory) : Memory :=
  destroy local (destroy parameter
    (move_construct member parameter (move_construct parameter local m))).

Definition create_objects (local parameter member : nat) (fd : Z) (s : SegmentLog) (recovered : bool)
    (m : Memory) : Memory :=
  let m := open_log local fd s m in
  if recovered then keep_log local parameter member m else destroy local m.

Lemma open_log_spec local fd s m p :
  0 <= fd → fd_ s = Some p → objects m !! local = None → descriptors m !! fd = None →
  let h := mkHandle (path_ s) (fsync_policy_ s) fd (next_offset_ s) (offset_to_position_ s) in
  open_log local fd s m = mkMemory (<[local := h]> (objects m)) (<[fd := p]> (descriptors m)) (bad_close m).
Proof.
  intros Hfd Hp Hl Hfree. unfold open_log, construct, open_at, use_log, set_object. cbn.
  rewrite lookup_insert_eq. cbn. rewrite lookup_insert_eq. cbn. rewrite Hp.
  rewrite (proj2 (Z.leb_le _ _)) by done. by rewrite !insert_insert_eq.
Qed.
End moves.

(** ** Properties *)

(** C40. Who owns a descriptor.  Whatever logs a process constructs, opens (once
    or again), uses, moves, assigns (to themselves too) and destroys, in any
    order, each open descriptor is held by exactly one object, or was lost: it
    was held by an object when [Open] was called on it; and nothing is ever
    closed that is not open.  So a process that calls [Open] only on objects
    that hold no descriptor loses none, and when its last object is gone no
    descriptor is open; otherwise exactly the lost ones still are. *)
Theorem descriptors_owned moved_path moved_map lost m :
  reached moved_path moved_map lost m →
  bad_close m = false ∧
  (∀ fd, is_Some (descriptors m !! fd) ↔ (∃ i, holds m fd i) ∨ fd ∈ lost) ∧
  (∀ fd i, holds m fd i → fd ∉ lost) ∧
  (∀ fd i j, holds m fd i → holds m fd j → i = j) ∧
  (objects m = ∅ → dom (descriptors m) = lost).
Proof.
  intros [Ho H1 Ha Hl Hg]%reached_owned.
  assert (∀ fd, is_Some (descriptors m !! fd) ↔ (∃ i, holds m fd i) ∨ fd ∈ lost) as Hopen.
  { intros fd. split; [apply Ha|]. intros [[i Hi]|Hfd]; [by eapply Ho|by apply Hl]. }
  split_and!; [done|done| |done|].
  - intros fd i Hi Hfd. by destruct (Hl fd Hfd) as [_ Hn]; apply (Hn i).
  - intros Hnil. apply set_eq. intros fd. rewrite elem_of_dom, Hopen.
    split; [intros [[i [_ Hi]]|?]; [by rewrite Hnil, lookup_empty in Hi|done]|by right].
Qed.

(** Creating a queue hands its log over intact.  After the two moves the
    member of the queue's state stands for exactly the log that [Recover]
    left, its descriptor included, and it is the only new object; when opening
    or recovering fails, the descriptor is closed with the local object and
    the process is as before. *)
Theorem create_moves_log moved_path moved_map local parameter member fd s p m :
  local ≠ parameter → local ≠ member → parameter ≠ member →
  objects m !! local = None → objects m !! parameter = None → objects m !! member = None →
  0 <= fd → fd_ s = Some p → descriptors m !! fd = None →
  create_objects moved_path moved_map local parameter member fd s false m = m ∧
  ∃ h, let m' := create_objects moved_path moved_map local parameter member fd s true m in
    m' = mkMemory (<[member := h]> (objects m)) (<[fd := p]> (descriptors m)) (bad_close m) ∧
    view m' h = s.
Proof.
  intros Hlp Hlm Hpm Hl Hp Hm Hfd Hs Hfree. unfold create_objects.
  rewrite (open_log_spec _ _ _ _ p) by done. set (h := mkHandle _ _ fd _ _). split.
  - unfold destroy. cbn. rewrite lookup_insert_eq. cbn.
    rewrite (proj2 (Z.leb_le _ _)) by done. cbn. rewrite lookup_insert_eq.
    rewrite !delete_insert_id by done. rewrite orb_false_r. by destruct m.
  - exists h.
    assert (keep_log moved_path moved_map local parameter member
      (mkMemory (<[local := h]> (objects m)) (<[fd := p]> (descriptors m)) (bad_close m)) =
      mkMemory (<[member := h]> (objects m)) (<[fd := p]> (descriptors m)) (bad_close m)) as ->.
    { unfold keep_log, move_construct, destroy, set_object. cbn.
      rewrite lookup_insert_eq. cbn. rewrite lookup_insert_ne, lookup_insert_eq by done. cbn.
      rewrite lookup_insert_eq. cbn.
      rewrite lookup_delete_ne, !lookup_insert_ne, lookup_insert_eq by done. cbn. f_equal.
      apply map_eq. intros i. destruct (decide (i = local)) as [->|]; [by simplify_map_eq|].
      destruct (decide (i = parameter)) as [->|]; [by simplify_map_eq|].
      destruct (decide (i = member)) as [->|]; by simplify_map_eq. }
    split; [done|]. unfold view. cbn. rewrite (proj2 (Z.leb_le _ _)), lookup_insert_eq, <-Hs by done.
    by destruct s.
Qed.

Section examples.

(** Two moves of an open log, and the end of the objects. *)
Definition demo_log : SegmentLog := mkSegmentLog "/d/q/seg-000001.log" kAlways (Some 7%nat) 1 {[0 := 0%nat]}.

(** A log is opened as descriptor 3 and once more as 4, moved, and both objects
    are destroyed: 3 stays open. *)
Definition demo_memory : Memory :=
  move_construct id id 1 0 (open_at 0 4 (open_at 0 3 (construct 0 "/l" kAlways empty_memory))).

Lemma descriptors_owned_witness :
  holds demo_memory 4 1 ∧ is_Some (descriptors demo_memory !! 3) ∧
  bad_close (destroy 0 (destroy 1 demo_memory)) = false ∧
  dom (descriptors (destroy 0 (destroy 1 demo_memory))) = {[3]}.
Proof.
  assert (reached id id {[3]} demo_memory) as Hm.
  { rewrite <-(union_empty_r_L {[3]}). eapply reached_step; [|by apply step_move].
    assert ((∅ : gset Z) ∪ held (open_at 0 3 (construct 0 "/l" kAlways empty_memory)) 0 = {[3]}) as <-
      by (vm_compute; reflexivity).
    eapply reached_step; [|apply step_open; [by eexists|reflexivity]].
    rewrite <-(union_empty_r_L ∅). change (∅ : gset Z) with (held (construct 0 "/l" kAlways empty_memory) 0) at 2.
    eapply reached_step; [|apply step_open; [by eexists|reflexivity]].
    rewrite <-(union_empty_r_L ∅). eapply reached_step; [apply reached_empty|by apply step_construct]. }
  destruct (descriptors_owned id id {[3]} demo_memory Hm) as (_ & Hopen & _).
  assert (reached id id {[3]} (destroy 0 (destroy 1 demo_memory))) as Hend.
  { rewrite <-(union_empty_r_L {[3]}). eapply reached_step; [|apply step_destroy].
    rewrite <-(union_empty_r_L {[3]}). eapply reached_step; [exact Hm|apply step_destroy]. }
  destruct (descriptors_owned id id {[3]} _ Hend) as (Hbad & _ & _ & _ & Hdom).
  split; [split; [lia|vm_compute; reflexivity]|]. split; [apply Hopen; right; by apply elem_of_singleton|].
  split; [exact Hbad|]. apply Hdom. vm_compute. reflexivity.
Defined.

Lemma create_moves_log_witness :
  ∃ h, view (create_objects id id 0 1 2 3 demo_log true empty_memory) h = demo_log.
Proof.
  destruct (create_moves_log id id 0 1 2 3 demo_log 7 empty_memory ltac:(lia) ltac:(lia) ltac:(lia)
    eq_refl eq_refl eq_refl ltac:(lia) eq_refl eq_refl) as (_ & h & _ & Hv).
  by exists h.
Defined.
End examples.
