(* ===== verification/Checkpoint.v ===== *)
(** * The checkpoint store ([src/core/storage/checkpoint.cc])

    A 24-byte [CheckpointBlob] (no padding) whose last field is the CRC of
    the first sixteen bytes, replaced atomically through [DurableWriteFile]. *)
From S2P Require Import Prelude Status Crc64 Io DurableIo.

Definition kCheckpointMagic : Z := 0x504d434b.
Definition kCheckpointVersion : Z := 1.

Record CheckpointBlob := mkBlob {
  blob_magic : Z;
  blob_version : Z;
  blob_reserved : Z;
  blob_offset : Z;
  blob_crc64 : Z;
}.

Definition default_blob : CheckpointBlob := mkBlob kCheckpointMagic kCheckpointVersion 0 0 0.
Definition sizeof_CheckpointBlob : nat := 24.

Definition blob_bytes (b : CheckpointBlob) : list byte :=
  le_split 4 (blob_magic b) ++ le_split 2 (blob_version b) ++ le_split 2 (blob_reserved b) ++
  le_split 8 (blob_offset b) ++ le_split 8 (blob_crc64 b).

Definition blob_of_bytes (data : list byte) : CheckpointBlob :=
  mkBlob (field 0 4 data) (field 4 2 data) (field 6 2 data) (field 8 8 data) (field 16 8 data).

Definition ComputeCrc (b : CheckpointBlob) : Z := Compute (take 16 (blob_bytes b)).

Record CheckpointStore := mkCheckpointStore { cp_path : string; cp_policy : FsyncPolicy }.

(** The blob [Save] writes. *)
Definition saved_blob (o : Z) : CheckpointBlob :=
  let b := mkBlob kCheckpointMagic kCheckpointVersion 0 o 0 in
  mkBlob kCheckpointMagic kCheckpointVersion 0 o (ComputeCrc b).

Section checkpoint.
Context `{Env}.

Definition Load (st : CheckpointStore) : W Z :=
  let! there := exists_ (cp_path st) in
  if negb there then ret 0
  else
    let! opened := open_in (cp_path st) in
    match opened with
    | None => fail kIOError "open checkpoint failed"
    | Some s =>
        if (length (i_rest s) <? sizeof_CheckpointBlob)%nat
        then fail kCorruption "checkpoint truncated"
        else
          let blob := blob_of_bytes (take sizeof_CheckpointBlob (i_rest s)) in
          if negb (blob_magic blob =? kCheckpointMagic) ||
             negb (blob_version blob =? kCheckpointVersion)
          then fail kCorruption "checkpoint version mismatch"
          else if negb (blob_crc64 blob =? ComputeCrc blob)
          then fail kCorruption "checkpoint crc mismatch"
          else ret (blob_offset blob)
    end.

Definition Save (st : CheckpointStore) (o : Z) : W unit :=
  DurableWriteFile (cp_path st) (block_writer (blob_bytes (saved_blob o)) "write checkpoint failed")
    (cp_policy st).
End checkpoint.

(** ** The blob codec *)

Lemma blob_bytes_length b : length (blob_bytes b) = sizeof_CheckpointBlob.
Proof. unfold blob_bytes. by rewrite !length_app, !length_le_split. Qed.

(** Bytes and blob determine each other. *)
Lemma blob_bytes_of_bytes data :
  length data = sizeof_CheckpointBlob → blob_bytes (blob_of_bytes data) = data.
Proof.
  unfold sizeof_CheckpointBlob. intros Hl. unfold blob_bytes, blob_of_bytes, field.
  cbn [blob_magic blob_version blob_reserved blob_offset blob_crc64].
  assert (∀ off n, (off + n <= 24)%nat → le_split n (le_combine (slice off n data)) = slice off n data)
    as Hs.
  { intros off n ?. rewrite <-(slice_length off n data) at 1 by lia. apply split_le_combine. }
  rewrite !Hs by lia. unfold slice. rewrite drop_0.
  rewrite <-(take_drop 4 data) at 6. f_equal.
  rewrite <-(take_drop 2 (drop 4 data)) at 2. f_equal. rewrite drop_drop. simpl Nat.add.
  rewrite <-(take_drop 2 (drop 6 data)) at 2. f_equal. rewrite drop_drop. simpl Nat.add.
  rewrite <-(take_drop 8 (drop 8 data)) at 2. f_equal. rewrite drop_drop. simpl Nat.add.
  apply take_ge. rewrite length_drop. lia.
Qed.

Lemma ComputeCrc_of_bytes data :
  length data = sizeof_CheckpointBlob → ComputeCrc (blob_of_bytes data) = Compute (take 16 data).
Proof. intros Hl. unfold ComputeCrc. by rewrite blob_bytes_of_bytes. Qed.

Lemma saved_blob_roundtrip o :
  is_u64 o → blob_of_bytes (blob_bytes (saved_blob o)) = saved_blob o.
Proof.
  intros Ho. pose proof (Compute_range (take 16 (blob_bytes
    (mkBlob kCheckpointMagic kCheckpointVersion 0 o 0)))) as Hc.
  fold (ComputeCrc (mkBlob kCheckpointMagic kCheckpointVersion 0 o 0)) in Hc.
  unfold blob_of_bytes, blob_bytes, saved_blob, field.
  cbn [blob_magic blob_version blob_reserved blob_offset blob_crc64].
  set (crc := ComputeCrc _) in *.
  rewrite <-(app_nil_r (le_split 8 crc)). f_equal;
    repeat rewrite slice_skip by (rewrite ?length_le_split; lia);
    rewrite ?length_le_split; simpl Nat.sub;
    rewrite slice_app_here by (by rewrite length_le_split);
    apply le_roundtrip; simpl Z.of_nat; unfold kCheckpointMagic, kCheckpointVersion; lia.
Qed.

Lemma saved_crc o :
  blob_crc64 (saved_blob o) = Compute (take 16 (blob_bytes (saved_blob o))).
Proof.
  unfold saved_blob at 1. cbn [blob_crc64]. unfold ComputeCrc. by f_equal.
Qed.

(** ** Loading a file *)

(** [Load] on a file of [data], when opening it is not refused. *)
Definition load_bytes (data : list byte) : outcome Z :=
  if (length data <? sizeof_CheckpointBlob)%nat
  then Fail (mkStatus kCorruption "checkpoint truncated")
  else
    let blob := blob_of_bytes (take sizeof_CheckpointBlob data) in
    if negb (blob_magic blob =? kCheckpointMagic) || negb (blob_version blob =? kCheckpointVersion)
    then Fail (mkStatus kCorruption "checkpoint version mismatch")
    else if negb (blob_crc64 blob =? ComputeCrc blob)
    then Fail (mkStatus kCorruption "checkpoint crc mismatch")
    else Good (blob_offset blob).

Lemma Load_spec `{Env} st w :
  (Load st w).1 =
  match files w !! cp_path st with
  | None => Good 0
  | Some data => match io (io_calls w) with
                 | IoFail => Fail (mkStatus kIOError "open checkpoint failed")
                 | _ => load_bytes data
                 end
  end.
Proof.
  unfold Load, exists_, open_in, call_ok, syscall, bind, gets, get, ret. simpl.
  destruct (files w !! cp_path st) as [data|] eqn:Hd; simpl; [|done].
  destruct (io (io_calls w)); cbn [files negb]; rewrite ?Hd; cbn [i_rest]; unfold load_bytes;
    try done; destruct (_ <? _)%nat; try done; destruct (_ || _); try done; by destruct (negb _).
Qed.

(** A blob that loads carries its own checksum. *)
Lemma load_bytes_good data v :
  load_bytes data = Good v → (sizeof_CheckpointBlob <= length data)%nat ∧
  field 16 8 data = Compute (take 16 data) ∧ v = field 8 8 data.
Proof.
  unfold load_bytes. destruct (Nat.ltb_spec (length data) sizeof_CheckpointBlob) as [|Hl]; [done|].
  cbv zeta. destruct (_ || _); [done|].
  rewrite ComputeCrc_of_bytes by (rewrite length_take; unfold sizeof_CheckpointBlob in *; lia).
  unfold blob_of_bytes. cbn [blob_crc64 blob_offset].
  rewrite take_take. change (16 `min` sizeof_CheckpointBlob)%nat with 16%nat.
  destruct (Z.eqb_spec (field 16 8 (take sizeof_CheckpointBlob data)) (Compute (take 16 data)))
    as [Heq|]; simpl; [|done].
  intros [= <-]. split; [done|]. rewrite <-Heq. unfold field.
  assert (∀ off, (off + 8 <= sizeof_CheckpointBlob)%nat →
    slice off 8 (take sizeof_CheckpointBlob data) = slice off 8 data) as Hs.
  { intros off ?. unfold slice. rewrite !take_drop_commute, take_take. by rewrite Nat.min_l. }
  rewrite !Hs by (unfold sizeof_CheckpointBlob; lia). done.
Qed.

(** ** Properties *)

(** What [Save] stored is what [Load] returns: [Save] succeeds when nothing
    is refused, and after a successful [Save] a [Load] that can open the file
    returns the saved offset. *)
Theorem checkpoint_roundtrip `{Env} st o w :
  is_u64 o →
  let '(r, w') := Save st o w in
  (calm_run → r = Good tt) ∧
  (r = Good tt → io (io_calls w') ≠ IoFail → (Load st w').1 = Good o).
Proof.
  intros Ho. destruct (Save st o w) as [r w'] eqn:Hsave. unfold Save in Hsave. split.
  { intros calm. apply (wp_intro _ (λ o _, o = Good tt)) in Hsave; [exact Hsave|].
    by apply calm_DurableWriteFile. }
  intros -> Hio.
  apply (wp_intro _ (replaced (cp_path st) (blob_bytes (saved_blob o)) w)) in Hsave;
    [|by apply wp_DurableWriteFile].
  destruct Hsave as (_ & Hfile & _). rewrite Load_spec, Hfile by done.
  enough (load_bytes (blob_bytes (saved_blob o)) = Good o) as He
    by (destruct (io (io_calls w')); [exact He|by destruct Hio|exact He]).
  unfold load_bytes. rewrite blob_bytes_length. simpl Nat.ltb. cbv iota zeta.
  rewrite take_ge by (rewrite blob_bytes_length; done).
  pose proof (saved_blob_roundtrip o Ho) as Hr. pose proof (saved_crc o) as Hcrc.
  rewrite <-(ComputeCrc_of_bytes (blob_bytes (saved_blob o))) in Hcrc by apply blob_bytes_length.
  rewrite Hr in *. rewrite <-Hcrc.
  change (blob_magic (saved_blob o)) with kCheckpointMagic.
  change (blob_version (saved_blob o)) with kCheckpointVersion.
  by rewrite !Z.eqb_refl.
Qed.

(** Damage confined to a window of at most eight bytes of a saved
    checkpoint, in the checked part or in the checksum field itself, is
    detected: the damaged file does not load, and the error is [kCorruption].
    Every single damaged byte is such a window. *)
Theorem checkpoint_damage_detected o pre w w' post :
  is_u64 o → blob_bytes (saved_blob o) = pre ++ w ++ post →
  length w' = length w → (length w <= 8)%nat → w' ≠ w →
  (length pre + length w <= 16 ∨ 16 <= length pre)%nat →
  ∃ msg, load_bytes (pre ++ w' ++ post) = Fail (mkStatus kCorruption msg).
Proof.
  intros Ho Hb Hlen Hw Hne Hside.
  assert (length (pre ++ w' ++ post) = sizeof_CheckpointBlob) as Hl'.
  { rewrite <-(blob_bytes_length (saved_blob o)), Hb, !length_app. lia. }
  destruct (load_bytes (pre ++ w' ++ post)) as [v|e|e] eqn:Hload.
  - exfalso. apply load_bytes_good in Hload as (_ & Hcrc & _).
    pose proof (saved_crc o) as Hcrc0.
    rewrite <-saved_blob_roundtrip in Hcrc0 at 1 by done. cbn [blob_of_bytes blob_crc64] in Hcrc0.
    rewrite Hb in Hcrc0. unfold field in Hcrc, Hcrc0.
    assert (length (pre ++ w ++ post) = sizeof_CheckpointBlob) as Hl
      by (rewrite <-Hl', !length_app; lia).
    unfold sizeof_CheckpointBlob in *. rewrite !length_app in Hl, Hl'.
    destruct Hside as [Hin|Hout].
    + assert (∀ x, length x = length w → slice 16 8 (pre ++ x ++ post) =
                     slice (16 - length pre - length w) 8 post) as Hs.
      { intros x Hx. rewrite slice_skip, slice_skip by lia. by rewrite Hx. }
      rewrite Hs in Hcrc by done. rewrite Hs in Hcrc0 by done. rewrite Hcrc0 in Hcrc.
      assert (∀ x, length x = length w → take 16 (pre ++ x ++ post) =
                pre ++ x ++ take (16 - length pre - length w) post) as Ht.
      { intros x Hx. rewrite take_app_ge, take_app_ge by lia. by rewrite Hx. }
      rewrite !Ht in Hcrc by done. eapply compute_burst; [| | |exact Hcrc]; done.
    + assert (∀ x, take 16 (pre ++ x) = take 16 pre) as Ht by (intros; apply take_app_le; lia).
      rewrite Ht in Hcrc, Hcrc0. rewrite <-Hcrc0 in Hcrc. apply Hne.
      apply le_combine_inj in Hcrc; [|rewrite !slice_length; rewrite ?length_app; lia].
      unfold slice in Hcrc. rewrite !drop_app_le in Hcrc by lia.
      rewrite !take_ge in Hcrc by (rewrite !length_app, length_drop; lia).
      apply (inj (app _)) in Hcrc. by apply app_inj_1 in Hcrc as [? _].
  - exists (message e). unfold load_bytes in Hload. repeat case_match; by inv Hload.
  - unfold load_bytes in Hload. repeat case_match; by inv Hload.
Qed.
