(* ===== verification/ConsumerSession.v ===== *)
(** * Consumer sessions and their scheduler ([src/core/consumer_session.cc])

    The credit window and in-flight accounting of one [ConsumerSession], and
    the round-robin [ConsumerSessionScheduler]. *)
From S2P Require Import Prelude Status Io.

Module Session.

Record ConsumerSession := mkSession {
  session_id : string;
  consumer_id : string;
  group_id : string;
  max_inflight : Z;
  credit_window : Z;
  inflight : Z;
  last_heartbeat_ts_ms : Z;
}.

Definition CanDispatch (s : ConsumerSession) : bool :=
  (0 <? credit_window s) && (inflight s <? max_inflight s).

Definition set_counts (credit flight : Z) (s : ConsumerSession) : ConsumerSession :=
  mkSession (session_id s) (consumer_id s) (group_id s) (max_inflight s) credit flight
    (last_heartbeat_ts_ms s).

Definition TryDispatch (s : ConsumerSession) : bool * ConsumerSession :=
  if negb (CanDispatch s) then (false, s)
  else (true, set_counts (u32 (credit_window s - 1)) (u32 (inflight s + 1)) s).

Definition AddCredit (credit : Z) (s : ConsumerSession) : ConsumerSession :=
  set_counts (u32 (credit_window s + credit)) (inflight s) s.

Definition AckOne (s : ConsumerSession) : ConsumerSession :=
  if 0 <? inflight s then set_counts (credit_window s) (u32 (inflight s - 1)) s else s.

Definition Expired (now_ms heartbeat_timeout_ms : Z) (s : ConsumerSession) : bool :=
  (last_heartbeat_ts_ms s <? now_ms) &&
  (heartbeat_timeout_ms <? u64 (now_ms - last_heartbeat_ts_ms s)).

(** ** The scheduler *)

Record ConsumerSessionScheduler := mkScheduler {
  sessions : list ConsumerSession;
  cursor : nat;
}.

Definition session_le (a b : ConsumerSession) : Prop := String.le (session_id a) (session_id b).
#[global] Instance session_le_dec : RelDecision session_le.
Proof. unfold session_le. intros a b. apply _. Defined.

#[global] Instance session_le_total : Total session_le.
Proof. intros a b. apply (total String.le). Qed.

(** The constructor.  [std::sort] leaves sessions with equal ids in no
    particular order: [i] picks one of the orders it may produce. *)
Definition new_Scheduler `{Env} (i : nat) (l : list ConsumerSession) : ConsumerSessionScheduler :=
  mkScheduler (merge_sort session_le (shuffle i _ l)) 0.

(** The scan: [scanned] sessions were tried, [left_] remain. *)
Fixpoint scan_sessions (l : list ConsumerSession) (cursor scanned left_ : nat) : option nat :=
  match left_ with
  | O => None
  | S left_ =>
      let idx := ((cursor + scanned) mod length l)%nat in
      match l !! idx with
      | Some s => if CanDispatch s then Some idx else scan_sessions l cursor (S scanned) left_
      | None => None
      end
  end.

Definition NextDispatchable (d : ConsumerSessionScheduler) : option nat * ConsumerSessionScheduler :=
  match sessions d with
  | [] => (None, d)
  | _ =>
      match scan_sessions (sessions d) (cursor d) 0 (length (sessions d)) with
      | Some idx => (Some idx, mkScheduler (sessions d) ((idx + 1) mod length (sessions d))%nat)
      | None => (None, d)
      end
  end.

(** ** Sessions *)

(** The counters fit their fields and the in-flight budget is respected. *)
Definition session_ok (s : ConsumerSession) : Prop :=
  is_u32 (credit_window s) ∧ is_u32 (max_inflight s) ∧
  0 <= inflight s <= max_inflight s.

Inductive session_op := ODispatch | OAddCredit (n : Z) | OAck.

(** Run operations, counting the dispatches that were granted. *)
Fixpoint run_session (ops : list session_op) (s : ConsumerSession) : Z * ConsumerSession :=
  match ops with
  | [] => (0, s)
  | ODispatch :: ops =>
      let '(granted, s) := TryDispatch s in
      let '(n, s) := run_session ops s in
      ((if granted then 1 else 0) + n, s)
  | OAddCredit c :: ops => run_session ops (AddCredit c s)
  | OAck :: ops => run_session ops (AckOne s)
  end.

Fixpoint credits (ops : list session_op) : Z :=
  match ops with
  | [] => 0
  | OAddCredit c :: ops => c + credits ops
  | _ :: ops => credits ops
  end.

Definition op_ok (op : session_op) : Prop :=
  match op with OAddCredit c => 0 <= c | _ => True end.

Lemma CanDispatch_iff s :
  CanDispatch s = true ↔ 0 < credit_window s ∧ inflight s < max_inflight s.
Proof. unfold CanDispatch. rewrite andb_true_iff, !Z.ltb_lt. done. Qed.

Lemma credits_nonneg ops : Forall op_ok ops → 0 <= credits ops.
Proof. induction 1 as [|[] ops Hop Hops IH]; simpl in *; lia. Qed.

Lemma run_session_account ops s :
  session_ok s → Forall op_ok ops → credit_window s + credits ops < 2 ^ 32 →
  let '(n, s') := run_session ops s in
  session_ok s' ∧ 0 <= n ∧ n + credit_window s' = credit_window s + credits ops ∧
  max_inflight s' = max_inflight s.
Proof.
  intros Hok Hops. revert s Hok.
  induction Hops as [|op ops Hop Hops IH]; intros s Hok Hc; simpl in *.
  { split_and!; [apply Hok..|lia|lia|done]. }
  pose proof (credits_nonneg ops Hops) as Hn. destruct Hok as (Hcw & Hm & Hi).
  destruct op as [|c|]; simpl in *.
  - unfold TryDispatch. destruct (CanDispatch s) eqn:Hcan; simpl.
    + apply CanDispatch_iff in Hcan. rewrite !u32_small by lia.
      specialize (IH (set_counts (credit_window s - 1) (inflight s + 1) s)). simpl in IH.
      destruct (run_session ops _) as [n s']. destruct IH as (? & ? & ? & ?);
        [unfold session_ok; simpl; lia|lia|]. split_and!; [done|lia..].
    + specialize (IH s ltac:(split_and!; lia)). destruct (run_session ops s) as [n s'].
      destruct IH as (? & ? & ? & ?); [lia|]. split_and!; [done|lia..].
  - unfold AddCredit. rewrite u32_small by lia.
    specialize (IH (set_counts (credit_window s + c) (inflight s) s)). simpl in IH.
    destruct (run_session ops _) as [n s']. destruct IH as (? & ? & ? & ?);
      [unfold session_ok; simpl; lia|lia|]. split_and!; [done|lia..].
  - unfold AckOne. destruct (Z.ltb_spec 0 (inflight s)).
    + rewrite u32_small by lia.
      specialize (IH (set_counts (credit_window s) (inflight s - 1) s)). simpl in IH.
      destruct (run_session ops _) as [n s']. destruct IH as (? & ? & ? & ?);
        [unfold session_ok; simpl; lia|lia|]. split_and!; [done|lia..].
    + apply IH; [split_and!; lia|lia].
Qed.

(** ** The scan *)

Lemma scan_sessions_spec l c k n :
  l ≠ [] → (∀ i s, (i < k)%nat → l !! ((c + i) mod length l)%nat = Some s → CanDispatch s = false) →
  match scan_sessions l c k n with
  | Some idx => ∃ i s, (i < k + n)%nat ∧ idx = ((c + i) mod length l)%nat ∧ l !! idx = Some s ∧
      CanDispatch s = true ∧
      ∀ i' s', (i' < i)%nat → l !! ((c + i') mod length l)%nat = Some s' → CanDispatch s' = false
  | None => ∀ i s, (i < k + n)%nat → l !! ((c + i) mod length l)%nat = Some s →
      CanDispatch s = false
  end.
Proof.
  intros Hne. revert k. induction n as [|n IH]; intros k Hk; simpl.
  { rewrite Nat.add_0_r. done. }
  assert (length l ≠ 0%nat) as Hl by (by destruct l).
  destruct (lookup_lt_is_Some_2 l ((c + k) mod length l)) as [s Hs];
    [by apply Nat.mod_upper_bound|].
  rewrite Hs. destruct (CanDispatch s) eqn:Hcan.
  - exists k, s. split_and!; [lia|done|done|done|done].
  - replace (k + S n)%nat with (S k + n)%nat by lia. apply IH.
    intros i s' Hi Hs'. destruct (decide (i = k)) as [->|]; [congruence|]. apply (Hk i); [lia|done].
Qed.

(** The number of steps from the cursor [c] to index [j], going round. *)
Definition steps (c j n : nat) : nat := ((j + n - c) mod n)%nat.

Lemma steps_lt c j n : (0 < n)%nat → (steps c j n < n)%nat.
Proof. intros. apply Nat.mod_upper_bound. lia. Qed.

Lemma steps_reach c j n : (c < n)%nat → (j < n)%nat → ((c + steps c j n) mod n)%nat = j.
Proof.
  intros Hc Hj. unfold steps. rewrite Nat.Div0.add_mod_idemp_r.
  replace (c + (j + n - c))%nat with (j + 1 * n)%nat by lia.
  rewrite Nat.Div0.mod_add. by apply Nat.mod_small.
Qed.

(** Serving an index before [j] brings the cursor closer to [j]. *)
Lemma steps_decrease c j n i :
  (c < n)%nat → (j < n)%nat → (i < steps c j n)%nat →
  steps (((c + i) mod n + 1) mod n)%nat j n = (steps c j n - i - 1)%nat.
Proof.
  intros Hc Hj Hi. pose proof (steps_lt c j n ltac:(lia)) as Hs. unfold steps in *.
  assert ((((c + i) mod n + 1) mod n)%nat = ((c + i + 1) mod n)%nat) as ->
    by apply Nat.Div0.add_mod_idemp_l.
  destruct (decide (c <= j)%nat) as [Hcj|Hcj].
  - replace (j + n - c)%nat with (j - c + 1 * n)%nat in * by lia.
    rewrite Nat.Div0.mod_add, (Nat.mod_small (j - c)) in * by lia.
    rewrite (Nat.mod_small (c + i + 1)) by lia.
    replace (j + n - (c + i + 1))%nat with (j - c - i - 1 + 1 * n)%nat by lia.
    rewrite Nat.Div0.mod_add, Nat.mod_small; lia.
  - rewrite (Nat.mod_small (j + n - c)) in * by lia.
    destruct (decide (c + i + 1 < n)%nat) as [Hlt|Hge].
    + rewrite (Nat.mod_small (c + i + 1)) by lia. rewrite Nat.mod_small; lia.
    + replace (c + i + 1)%nat with (c + i + 1 - n + 1 * n)%nat by lia.
      rewrite Nat.Div0.mod_add, (Nat.mod_small (c + i + 1 - n)) by lia.
      replace (j + n - (c + i + 1 - n))%nat with (j + n - c - i - 1 + 1 * n)%nat by lia.
      rewrite Nat.Div0.mod_add, Nat.mod_small; lia.
Qed.

(** Successive calls of [NextDispatchable], the sessions being replaced
    between calls (their counters change as messages are dispatched). *)
Fixpoint serve (views : list (list ConsumerSession)) (c : nat) : list (option nat) :=
  match views with
  | [] => []
  | l :: views =>
      let '(r, d) := NextDispatchable (mkScheduler l c) in r :: serve views (cursor d)
  end.

(** What one call does when session [j] can be dispatched: it serves [j], or
    serves another session and gets strictly closer to [j]. *)
Lemma NextDispatchable_progress l c j s :
  l !! j = Some s → CanDispatch s = true → (c < length l)%nat →
  ∃ idx, (NextDispatchable (mkScheduler l c)).1 = Some idx ∧
    let c' := cursor (NextDispatchable (mkScheduler l c)).2 in
    (c' < length l)%nat ∧ (idx = j ∨ (steps c' j (length l) < steps c j (length l))%nat).
Proof.
  intros Hj Hcan Hc. pose proof (lookup_lt_Some _ _ _ Hj) as Hjl.
  unfold NextDispatchable. cbn [sessions cursor].
  assert (l ≠ []) as Hne by (by destruct l).
  pose proof (scan_sessions_spec l c 0 (length l) Hne ltac:(lia)) as Hscan.
  destruct l as [|s0 l0]; [done|]. set (l := s0 :: l0) in *.
  pose proof (steps_reach c j (length l) Hc Hjl) as Hreach.
  pose proof (steps_lt c j (length l) ltac:(lia)) as Hlt.
  destruct (scan_sessions l c 0 (length l)) as [idx|] eqn:Hs.
  - destruct Hscan as (i & s' & Hi & -> & Hs' & Hcan' & Hfirst).
    eexists. split; [done|]. cbn [fst snd cursor]. split; [apply Nat.mod_upper_bound; lia|].
    destruct (decide (i = steps c j (length l))) as [->|Hne']; [by left|right].
    assert (i < steps c j (length l))%nat.
    { destruct (decide (i < steps c j (length l))%nat); [done|]. exfalso.
      rewrite (Hfirst (steps c j (length l)) s) in Hcan; [done|lia|by rewrite Hreach]. }
    rewrite steps_decrease by done. lia.
  - exfalso. rewrite (Hscan (steps c j (length l)) s) in Hcan; [done|lia|by rewrite Hreach].
Qed.

(** ** Properties *)

(** C37. Flow control of a session: over any sequence of dispatches, credits and
    acknowledgements whose credit total fits 32 bits, the in-flight count
    never exceeds its limit and the granted dispatches are paid for one by
    one by the credits given. *)
Theorem session_flow_control ops s :
  session_ok s → Forall op_ok ops → credit_window s + credits ops < 2 ^ 32 →
  let '(granted, s') := run_session ops s in
  0 <= inflight s' <= max_inflight s' ∧
  granted + credit_window s' = credit_window s + credits ops.
Proof.
  intros Hs Hops Hc. pose proof (run_session_account ops s Hs Hops Hc) as Hr.
  destruct (run_session ops s) as [n s']. destruct Hr as ((_ & _ & Hi) & _ & Hsum & _). done.
Qed.

Lemma session_flow_control_witness :
  let s := mkSession "s-1" "c1" "g" 2 2 0 0 in
  let ops := [ODispatch; ODispatch; ODispatch; OAck; OAddCredit 1; ODispatch] in
  run_session ops s = (3, mkSession "s-1" "c1" "g" 2 0 2 0) ∧
  (let '(granted, s') := run_session ops s in
   0 <= inflight s' <= max_inflight s' ∧ granted + credit_window s' = 2 + credits ops).
Proof.
  cbv zeta. split; [reflexivity|].
  apply (session_flow_control [ODispatch; ODispatch; ODispatch; OAck; OAddCredit 1; ODispatch]
           (mkSession "s-1" "c1" "g" 2 2 0 0)).
  - unfold session_ok. simpl. lia.
  - repeat constructor; done.
  - simpl. lia.
Defined.

(** The round robin is fair: a session that can be dispatched at every call
    is served within as many calls as there are sessions, whatever happens to
    the other sessions in between. *)
Theorem scheduler_fair j n c views :
  (c < n)%nat → (n <= length views)%nat →
  Forall (λ l, length l = n ∧ ∃ s, l !! j = Some s ∧ CanDispatch s = true) views →
  Some j ∈ serve views c.
Proof.
  intros Hc Hn Hviews.
  enough (steps c j n < length views)%nat as Hd.
  2: { pose proof (steps_lt c j n). lia. }
  clear Hn. revert c Hc Hd.
  induction Hviews as [|l views [Hl (s & Hs & Hcan)] _ IH]; intros c Hc Hd; [simpl in Hd; lia|].
  rewrite <-Hl in Hc. cbn [serve].
  destruct (NextDispatchable_progress l c j s Hs Hcan Hc) as (idx & Hr & Hc' & Hprog).
  destruct (NextDispatchable (mkScheduler l c)) as [r d]. cbn [fst snd] in *. subst r.
  destruct Hprog as [->|Hlt]; [by left|right]. rewrite Hl in *. apply IH; [done|].
  simpl in Hd. lia.
Qed.

Lemma scheduler_fair_witness :
  let a := mkSession "s-a" "ca" "g" 100 2 0 0 in
  let b := mkSession "s-b" "cb" "g" 100 1 0 0 in
  serve [[a; b]; [a; b]] 0 = [Some 0%nat; Some 1%nat] ∧ Some 1%nat ∈ serve [[a; b]; [a; b]] 0.
Proof.
  cbv zeta. split; [reflexivity|].
  apply (scheduler_fair 1 2 0); [lia|simpl; lia|].
  repeat constructor; eexists; split; reflexivity.
Defined.

(** [NextDispatchable] misses nobody: it returns no session exactly when no
    session can be dispatched, and the sessions it chooses from are the given
    ones in order of their ids. *)
Theorem scheduler_complete `{Env} i l :
  let d := new_Scheduler i l in
  sessions d ≡ₚ l ∧ Sorted session_le (sessions d) ∧
  ((NextDispatchable d).1 = None ↔ Forall (λ s, CanDispatch s = false) l).
Proof.
  cbv zeta. set (d := new_Scheduler i l).
  assert (sessions d ≡ₚ l) as Hp.
  { unfold d, new_Scheduler. cbn [sessions]. by rewrite merge_sort_Permutation, shuffle_perm. }
  split_and!; [done| |].
  { apply (Sorted_merge_sort session_le). }
  rewrite <-Hp. unfold NextDispatchable.
  destruct (sessions d) as [|s0 l0] eqn:Hd; [by split|].
  set (ss := s0 :: l0). change (cursor d) with 0%nat.
  pose proof (scan_sessions_spec ss 0 0 (length ss) ltac:(done) ltac:(lia)) as Hscan.
  destruct (scan_sessions ss 0 0 (length ss)) as [idx|]; simpl.
  - destruct Hscan as (k & s & _ & _ & Hs & Hcan & _). split; [done|]. intros Hall.
    rewrite Forall_lookup in Hall. by rewrite (Hall _ _ Hs) in Hcan.
  - split; [|done]. intros _. apply Forall_lookup. intros k s Hs.
    pose proof (lookup_lt_Some _ _ _ Hs). apply (Hscan k); [lia|].
    by rewrite Nat.add_0_l, Nat.mod_small.
Qed.

(** The heartbeat test is the exact one on integers: the unsigned
    subtraction is guarded and cannot wrap. *)
Theorem expired_exact now timeout s :
  is_u64 now → is_u64 (last_heartbeat_ts_ms s) →
  Expired now timeout s = bool_decide (last_heartbeat_ts_ms s < now ∧
                                       timeout < now - last_heartbeat_ts_ms s).
Proof.
  intros Hn Hl. unfold Expired. destruct (Z.ltb_spec (last_heartbeat_ts_ms s) now); simpl.
  - rewrite u64_small by lia. apply eq_true_iff_eq. rewrite Z.ltb_lt, bool_decide_eq_true. lia.
  - symmetry. apply bool_decide_eq_false. lia.
Qed.

Lemma expired_exact_witness :
  let s := mkSession "s-1" "c1" "g" 2 2 0 1000 in
  Expired 1500 400 s = true ∧
  Expired 900 400 s = bool_decide (1000 < 900 ∧ 400 < 900 - 1000).
Proof.
  cbv zeta. split; [reflexivity|].
  apply (expired_exact 900 400 (mkSession "s-1" "c1" "g" 2 2 0 1000)); simpl; lia.
Defined.

End Session.
