(* ===== verification/Message.v ===== *)
(** * Messages ([src/core/model/message.h]) and engine data types

    The message model, the state machine's enumerations and the structures of
    [src/core/engine/queue_engine.h], with the conversions of the anonymous
    namespace of [src/core/engine/queue_engine.cc]. *)
From S2P Require Import Prelude Status Io Checkpoint.

(** ** Messages *)

Record MessageId := mkId { id_high : Z; id_low : Z }.

#[global] Instance MessageId_eq_dec : EqDecision MessageId.
Proof. solve_decision. Defined.
#[global] Instance MessageId_countable : Countable MessageId.
Proof.
  refine (inj_countable' (λ i, (id_high i, id_low i)) (λ p, mkId p.1 p.2) _).
  by intros [].
Defined.

Record Message := mkMessage {
  msg_id : MessageId;
  msg_enqueue_ts : Z;
  msg_payload : list byte;
  msg_headers : gmap string string;
  msg_routing_key : string;
}.

(** [std::map<std::string, std::string>] iterates in key order. *)
Definition kv_le (a b : string * string) : Prop := String.le a.1 b.1.
#[global] Instance kv_le_dec : RelDecision kv_le.
Proof. unfold kv_le. intros a b. apply _. Defined.
#[global] Instance kv_le_total : Total kv_le.
Proof. intros a b. apply (total String.le). Qed.
#[global] Instance kv_le_trans : Transitive kv_le.
Proof. intros a b c. unfold kv_le. apply transitivity. Qed.

Definition ordered_entries (m : gmap string string) : list (string * string) :=
  merge_sort kv_le (map_to_list m).

(** ** The state machine's enumerations *)

Inductive MessageState := kReady | kInFlight | kAcked | kDead.

#[global] Instance MessageState_eq_dec : EqDecision MessageState.
Proof. solve_decision. Defined.

Definition EncodeState (s : MessageState) : Z :=
  match s with kReady => 0 | kInFlight => 1 | kAcked => 2 | kDead => 3 end.

Definition DecodeState (c : Z) : MessageState :=
  match c with 0 => kReady | 1 => kInFlight | 2 => kAcked | _ => kDead end.

(** A [static_cast] of a code outside the enumeration keeps the code. *)
Inductive TransitionReason :=
  | kProduced | kDelivered | kReasonAcked | kConsumerNackRequeued | kConsumerNackDead
  | kVisibilityTimeoutRequeued | kVisibilityTimeoutDead | kRecoveredInflightToReady
  | kReasonOther (c : Z).

#[global] Instance TransitionReason_eq_dec : EqDecision TransitionReason.
Proof. solve_decision. Defined.

Definition EncodeReason (r : TransitionReason) : Z :=
  match r with
  | kProduced => 0 | kDelivered => 1 | kReasonAcked => 2 | kConsumerNackRequeued => 3
  | kConsumerNackDead => 4 | kVisibilityTimeoutRequeued => 5 | kVisibilityTimeoutDead => 6
  | kRecoveredInflightToReady => 7 | kReasonOther c => c
  end.

Definition DecodeReason (c : Z) : TransitionReason :=
  match c with
  | 0 => kProduced | 1 => kDelivered | 2 => kReasonAcked | 3 => kConsumerNackRequeued
  | 4 => kConsumerNackDead | 5 => kVisibilityTimeoutRequeued | 6 => kVisibilityTimeoutDead
  | 7 => kRecoveredInflightToReady | c => kReasonOther c
  end.

Definition ReasonToString (r : TransitionReason) : string :=
  match r with
  | kProduced => "produced"
  | kDelivered => "delivered-to-consumer"
  | kReasonAcked => "acked-by-consumer"
  | kConsumerNackRequeued => "consumer-nack-requeued"
  | kConsumerNackDead => "consumer-nack-dead-lettered"
  | kVisibilityTimeoutRequeued => "visibility-timeout-requeued"
  | kVisibilityTimeoutDead => "visibility-timeout-retry-exhausted"
  | kRecoveredInflightToReady => "recovered-inflight-to-ready"
  | kReasonOther _ => "unknown"
  end.

(** ** Structures of the engine *)

(** Durations are [std::chrono::milliseconds]: signed 64-bit counts. *)
Record EngineOptions := mkOptions {
  data_dir : string;
  shard_count : Z;
  fsync_policy : FsyncPolicy;
  max_inflight : Z;
  max_queue_depth : Z;
  max_retry_count : Z;
  visibility_timeout : Z;
  retry_backoff : Z;
  scheduler_tick : Z;
  retention : Z;
  max_segment_size_bytes : Z;
}.

(** The member initialisers of [EngineOptions]. *)
Definition default_options : EngineOptions :=
  mkOptions "" 1 kAlways 100 10000 5 30000 1000 100 (24 * 60 * 60 * 1000) (64 * 1024 * 1024).

Record InflightEntry := mkInflight {
  ie_offset : Z;
  deadline_ms : Z;
  bucket_tick : Z;
  owner : string;
  lease_token : string;
}.

Record MessageRuntime := mkRuntime {
  state : MessageState;
  rt_offset : Z;
  retry_count : Z;
  rt_enqueue_ts : Z;
  last_transition_ts : Z;
  available_after_ms : Z;
  sequence : Z;
  last_transition_reason : string;
}.

Record TransitionEvent := mkEvent {
  ev_sequence : Z;
  ev_id : MessageId;
  ev_state : MessageState;
  ev_retry_count : Z;
  ev_available_after_ms : Z;
  ev_transition_ts : Z;
  ev_deadline_ms : Z;
  ev_owner : string;
  ev_lease_token : string;
  ev_reason : TransitionReason;
}.

Record ConsumerGroupState := mkGroup {
  ready_offsets : list Z;
  inflight : gmap MessageId InflightEntry;
  runtime : gmap MessageId MessageRuntime;
  deadline_wheel : list (list MessageId);
  wheel_base_tick : Z;
  next_sequence : Z;
  checkpoint_store : CheckpointStore;
}.

Definition new_Group (st : CheckpointStore) : ConsumerGroupState := mkGroup [] ∅ ∅ [] 0 1 st.

Definition set_ready (l : list Z) (g : ConsumerGroupState) : ConsumerGroupState :=
  mkGroup l (inflight g) (runtime g) (deadline_wheel g) (wheel_base_tick g) (next_sequence g)
    (checkpoint_store g).
Definition set_inflight (m : gmap MessageId InflightEntry) (g : ConsumerGroupState)
    : ConsumerGroupState :=
  mkGroup (ready_offsets g) m (runtime g) (deadline_wheel g) (wheel_base_tick g) (next_sequence g)
    (checkpoint_store g).
Definition set_runtime (m : gmap MessageId MessageRuntime) (g : ConsumerGroupState)
    : ConsumerGroupState :=
  mkGroup (ready_offsets g) (inflight g) m (deadline_wheel g) (wheel_base_tick g)
    (next_sequence g) (checkpoint_store g).
Definition set_wheel (w : list (list MessageId)) (g : ConsumerGroupState) : ConsumerGroupState :=
  mkGroup (ready_offsets g) (inflight g) (runtime g) w (wheel_base_tick g) (next_sequence g)
    (checkpoint_store g).
Definition set_base_tick (t : Z) (g : ConsumerGroupState) : ConsumerGroupState :=
  mkGroup (ready_offsets g) (inflight g) (runtime g) (deadline_wheel g) t (next_sequence g)
    (checkpoint_store g).
Definition set_next_sequence (n : Z) (g : ConsumerGroupState) : ConsumerGroupState :=
  mkGroup (ready_offsets g) (inflight g) (runtime g) (deadline_wheel g) (wheel_base_tick g) n
    (checkpoint_store g).

(** ** Codes *)

Lemma DecodeState_EncodeState s : DecodeState (EncodeState s) = s.
Proof. by destruct s. Qed.

Lemma EncodeState_range s : is_u32 (EncodeState s).
Proof. destruct s; simpl; lia. Qed.

(** The reasons the engine itself gives. *)
Definition known_reason (r : TransitionReason) : Prop :=
  match r with kReasonOther _ => False | _ => True end.

Lemma DecodeReason_EncodeReason r : known_reason r → DecodeReason (EncodeReason r) = r.
Proof. by destruct r. Qed.

Lemma EncodeReason_range r : known_reason r → is_u32 (EncodeReason r).
Proof. destruct r; simpl; [lia..|done]. Qed.
