(* ===== verification/EventLog.v ===== *)
(** * The transition log and the group snapshot

    The byte formats of [<group>.events] and [<group>.state] in
    [src/core/engine/queue_engine.cc]: the writer of [AppendTransition], the
    reader of [LoadTransitions], the writer of [PersistGroupState] and the
    snapshot reader of [LoadGroupState]. *)
From S2P Require Import Prelude Status Io Message.

Section formats.
Context `{Env}.

(** ** Events *)

Definition encode_event (e : TransitionEvent) : list byte :=
  le_split 8 (ev_sequence e) ++ le_split 8 (id_high (ev_id e)) ++ le_split 8 (id_low (ev_id e)) ++
  le_split 4 (EncodeState (ev_state e)) ++ le_split 4 (ev_retry_count e) ++
  le_split 8 (ev_available_after_ms e) ++ le_split 8 (ev_transition_ts e) ++
  le_split 8 (ev_deadline_ms e) ++ le_split 4 (EncodeReason (ev_reason e)) ++
  le_split 8 (Z.of_nat (length (bytes_of_string (ev_owner e)))) ++ bytes_of_string (ev_owner e) ++
  le_split 8 (Z.of_nat (length (bytes_of_string (ev_lease_token e)))) ++
  bytes_of_string (ev_lease_token e).

(** The reads of one event after its sequence number. *)
Definition decode_event (seq : Z) (s : ifstream) : outcome (TransitionEvent * ifstream) :=
  let '(high, s) := read_int 8 0 s in
  let '(low, s) := read_int 8 0 s in
  let '(st, s) := read_int 4 0 s in
  let '(retry, s) := read_int 4 0 s in
  let '(available, s) := read_int 8 0 s in
  let '(ts, s) := read_int 8 0 s in
  let '(deadline, s) := read_int 8 0 s in
  let '(reason, s) := read_int 4 0 s in
  let '(owner_size, s) := read_int 8 0 s in
  obind (read_string owner_size s) (λ '(own, s),
  let '(token_size, s) := read_int 8 0 s in
  obind (read_string token_size s) (λ '(token, s),
    if negb (i_good s) then Fail (mkStatus kCorruption "events corrupted")
    else Good (mkEvent seq (mkId high low) (DecodeState st) retry available ts deadline
                 own token (DecodeReason reason), s))).

(** The loop of [LoadTransitions].  Every round that does not stop reads at
    least the eight bytes of a sequence number. *)
Fixpoint read_events (fuel : nat) (max_sequence : Z) (s : ifstream)
    : outcome (list TransitionEvent) :=
  match fuel with
  | O => Throw "event loop: out of fuel"
  | S fuel =>
      let '(seq, s) := read_int 8 0 s in
      if negb (i_good s) then Good []
      else
        obind (decode_event seq s) (λ '(e, s),
        obind (read_events fuel max_sequence s) (λ es,
          Good (if ev_sequence e <=? max_sequence then e :: es else es)))
  end.

Definition LoadTransitions (path : string) (max_sequence : Z) : W (list TransitionEvent) :=
  let! there := exists_ path in
  if negb there then ret []
  else
    let! opened := open_in path in
    match opened with
    | None => fail kIOError "open events failed"
    | Some s => lift_outcome (read_events (S (length (i_rest s))) max_sequence s)
    end.

(** ** Snapshots *)

Definition encode_item (it : MessageId * MessageRuntime) : list byte :=
  let '(id, rt) := it in
  le_split 8 (id_high id) ++ le_split 8 (id_low id) ++ le_split 8 (rt_offset rt) ++
  le_split 4 (EncodeState (state rt)) ++ le_split 4 (retry_count rt) ++
  le_split 8 (rt_enqueue_ts rt) ++ le_split 8 (last_transition_ts rt) ++
  le_split 8 (available_after_ms rt) ++ le_split 8 (sequence rt) ++
  le_split 8 (Z.of_nat (length (bytes_of_string (last_transition_reason rt)))) ++
  bytes_of_string (last_transition_reason rt).

Definition encode_snapshot (next : Z) (items : list (MessageId * MessageRuntime)) : list byte :=
  le_split 8 (Z.of_nat (length items)) ++ le_split 8 next ++ concat (map encode_item items).

Definition decode_item (s : ifstream) : outcome (MessageId * MessageRuntime * ifstream) :=
  let '(high, s) := read_int 8 0 s in
  let '(low, s) := read_int 8 0 s in
  let '(off, s) := read_int 8 0 s in
  let '(st, s) := read_int 4 0 s in
  let '(retry, s) := read_int 4 0 s in
  let '(enq, s) := read_int 8 0 s in
  let '(ts, s) := read_int 8 0 s in
  let '(available, s) := read_int 8 0 s in
  let '(seq, s) := read_int 8 0 s in
  let '(reason_size, s) := read_int 8 0 s in
  obind (read_string reason_size s) (λ '(reason, s),
    if negb (i_good s) then Fail (mkStatus kCorruption "group state corrupted")
    else Good (mkId high low, mkRuntime (DecodeState st) off retry enq ts available seq reason, s)).

(** The loop over the items, from [i] to [count]: an item of an unknown
    message is skipped, any other replaces the runtime entry.  An item takes
    at least 72 bytes, so the fuel is the number of bytes left. *)
Fixpoint read_items (fuel : nat) (i count : Z) (s : ifstream)
    (rts : gmap MessageId MessageRuntime) : outcome (gmap MessageId MessageRuntime) :=
  if i <? count then
    match fuel with
    | O => Throw "snapshot loop: out of fuel"
    | S fuel =>
        obind (decode_item s) (λ '(id, rt, s),
          read_items fuel (i + 1) count s
            (match rts !! id with None => rts | Some _ => <[id := rt]> rts end))
    end
  else Good rts.

(** The snapshot part of [LoadGroupState]: the new [next_sequence] and
    runtime map. *)
Definition load_snapshot (path : string) (next : Z) (rts : gmap MessageId MessageRuntime)
    : W (Z * gmap MessageId MessageRuntime) :=
  let! there := exists_ path in
  if negb there then ret (next, rts)
  else
    let! opened := open_in path in
    match opened with
    | None => fail kIOError "open group state failed"
    | Some s =>
        let '(count, s) := read_int 8 0 s in
        let '(next, s) := read_int 8 next s in
        if negb (i_good s) then fail kCorruption "group state corrupted"
        else
          let! rts := lift_outcome (read_items (S (length (i_rest s))) 0 count s rts) in
          ret (next, rts)
    end.
End formats.

(** ** Well-formed records *)

Section wf.
Context `{Env}.

Definition wf_string (s : string) : Prop := Z.of_nat (length (bytes_of_string s)) <= alloc_limit.

Definition wf_id (i : MessageId) : Prop := is_u64 (id_high i) ∧ is_u64 (id_low i).

Definition wf_event (e : TransitionEvent) : Prop :=
  is_u64 (ev_sequence e) ∧ wf_id (ev_id e) ∧ is_u32 (ev_retry_count e) ∧
  is_u64 (ev_available_after_ms e) ∧ is_u64 (ev_transition_ts e) ∧ is_u64 (ev_deadline_ms e) ∧
  wf_string (ev_owner e) ∧ wf_string (ev_lease_token e) ∧ known_reason (ev_reason e).

Definition wf_runtime (rt : MessageRuntime) : Prop :=
  is_u64 (rt_offset rt) ∧ is_u32 (retry_count rt) ∧ is_u64 (rt_enqueue_ts rt) ∧
  is_u64 (last_transition_ts rt) ∧ is_u64 (available_after_ms rt) ∧ is_u64 (sequence rt) ∧
  wf_string (last_transition_reason rt).
End wf.

(** ** Reading back *)

Section reading.
Context `{Env}.

Lemma read_int_app n z rest old :
  0 <= z < 2 ^ (8 * Z.of_nat n) →
  read_int n old (mkIfstream (le_split n z ++ rest) true) = (z, mkIfstream rest true).
Proof.
  intros Hz. unfold read_int. cbn [i_good i_rest].
  rewrite length_app, length_le_split. destruct (Nat.leb_spec n (n + length rest)); [|lia].
  rewrite take_app_length', drop_app_length' by (by rewrite length_le_split).
  by rewrite le_roundtrip.
Qed.

Lemma read_string_app s rest :
  wf_string s →
  read_string (Z.of_nat (length (bytes_of_string s)))
    (mkIfstream (bytes_of_string s ++ rest) true) = Good (s, mkIfstream rest true).
Proof.
  intros Hs. unfold read_string. cbn [i_good i_rest andb]. unfold wf_string in Hs.
  rewrite length_app, Nat2Z.id.
  destruct (Z.leb_spec (Z.of_nat (length (bytes_of_string s))) alloc_limit); [|lia].
  destruct (Z.leb_spec (Z.of_nat (length (bytes_of_string s)))
    (Z.of_nat (length (bytes_of_string s) + length rest))); [|lia].
  by rewrite take_app_length, drop_app_length, string_of_bytes_of_string.
Qed.

Lemma wf_string_u64 s : wf_string s → is_u64 (Z.of_nat (length (bytes_of_string s))).
Proof. pose proof alloc_limit_max. unfold wf_string. lia. Qed.

Lemma decode_encode_event e rest :
  wf_event e →
  decode_event (ev_sequence e) (mkIfstream (drop 8 (encode_event e) ++ rest) true) =
  Good (e, mkIfstream rest true).
Proof.
  intros (Hseq & [Hh Hl] & Hr & Ha & Ht & Hd & Ho & Htk & Hre).
  pose proof (wf_string_u64 _ Ho). pose proof (wf_string_u64 _ Htk).
  pose proof (EncodeState_range (ev_state e)). pose proof (EncodeReason_range _ Hre).
  unfold encode_event, decode_event.
  rewrite drop_app_length' by (by rewrite length_le_split). repeat rewrite <-app_assoc.
  do 9 (rewrite read_int_app by done; cbv beta iota).
  rewrite read_string_app by done. cbn [obind]. rewrite read_int_app by done.
  rewrite read_string_app by done. cbn [obind i_good negb].
  rewrite DecodeState_EncodeState, DecodeReason_EncodeReason by done.
  by destruct e as [? [] ? ? ? ? ? ? ? ?].
Qed.

Lemma decode_encode_item it rest :
  wf_id it.1 → wf_runtime it.2 →
  decode_item (mkIfstream (encode_item it ++ rest) true) = Good (it, mkIfstream rest true).
Proof.
  destruct it as [i rt]. cbn [fst snd]. intros [Hh Hl] (? & ? & ? & ? & ? & ? & Hs).
  pose proof (wf_string_u64 _ Hs). pose proof (EncodeState_range (state rt)) as Hst.
  unfold encode_item, decode_item. repeat rewrite <-app_assoc.
  do 10 (rewrite read_int_app by done; cbv beta iota).
  rewrite read_string_app by done. cbn [obind i_good negb].
  rewrite DecodeState_EncodeState. by destruct i, rt.
Qed.
End reading.

(** ** Reading a torn record *)

Section torn.
Context `{Env}.

(** [torn enc s]: the stream has failed, or what is left of it is a proper
    prefix of [enc]. *)
Definition torn (enc : list byte) (s : ifstream) : Prop :=
  i_good s = false ∨
  ∃ p, s = mkIfstream p true ∧ p `prefix_of` enc ∧ p ≠ enc.

Lemma torn_nil s : torn [] s → i_good s = false.
Proof. intros [?|(p & _ & Hp & Hne)]; [done|]. by apply prefix_nil_inv in Hp. Qed.

Lemma le_split_zero n : le_split n 0 = repeat Byte.x00 n.
Proof.
  rewrite <-(split_le_combine (repeat Byte.x00 n)), le_combine_0. by rewrite repeat_length.
Qed.

Lemma drop_repeat {A} (x : A) k n : drop k (repeat x n) = repeat x (n - k).
Proof. revert n; induction k; intros [|n]; simpl; auto. Qed.

Lemma read_int_torn n z rest s :
  0 <= z < 2 ^ (8 * Z.of_nat n) → torn (le_split n z ++ rest) s →
  ∃ v s', read_int n 0 s = (v, s') ∧ torn rest s' ∧ 0 <= v <= z ∧ (i_good s' = true → v = z).
Proof.
  intros Hz [Hbad|(p & -> & Hp & Hne)].
  { exists 0, s. unfold read_int. rewrite Hbad. split_and!; [done|by left|lia..|congruence]. }
  destruct (decide (n <= length p)%nat) as [Hn|Hn].
  - destruct Hp as [k Hk]. exists z, (mkIfstream (drop n p) true).
    assert (take n p = le_split n z) as Ht.
    { apply (f_equal (take n)) in Hk. rewrite take_app_length' in Hk by (by rewrite length_le_split).
      by rewrite take_app_le in Hk. }
    assert (rest = drop n p ++ k) as Hr.
    { apply (f_equal (drop n)) in Hk. rewrite drop_app_length' in Hk by (by rewrite length_le_split).
      by rewrite drop_app_le in Hk. }
    split_and!; [|right|lia..|done].
    + unfold read_int. cbn [i_good i_rest]. destruct (Nat.leb_spec n (length p)); [|lia].
      by rewrite Ht, le_roundtrip.
    + exists (drop n p). split_and!; [done|by exists k|]. intros Heq. apply Hne.
      by rewrite <-(take_drop n p), Ht, Heq.
  - assert (p `prefix_of` le_split n z) as Hpz.
    { apply prefix_app_cases in Hp as [?|(q & -> & _)]; [done|].
      rewrite length_app, length_le_split in Hn. lia. }
    exists (le_combine p), (mkIfstream [] false). split_and!; [|by left| | |done].
    + unfold read_int. cbn [i_good i_rest]. destruct (Nat.leb_spec n (length p)); [lia|].
      f_equal. rewrite le_split_zero, drop_repeat. apply le_combine_app_0.
    + pose proof (le_combine_bound p). lia.
    + destruct Hpz as [k Hk].
      assert (p = firstn (length p) (le_split n z)) as Hpe by (by rewrite Hk, take_app_length).
      rewrite Hpe, le_combine_firstn, le_roundtrip by done.
      apply Z.mod_le; [lia|]. apply Z.pow_pos_nonneg; lia.
Qed.

Lemma read_string_torn str rest s size :
  wf_string str → torn (bytes_of_string str ++ rest) s →
  0 <= size <= Z.of_nat (length (bytes_of_string str)) →
  (i_good s = true → size = Z.of_nat (length (bytes_of_string str))) →
  ∃ v s', read_string size s = Good (v, s') ∧ torn rest s'.
Proof.
  unfold wf_string. intros Hwf Ht Hsize Hg. unfold read_string.
  destruct (Z.leb_spec size alloc_limit); [|lia].
  destruct Ht as [Hbad|(p & -> & Hp & Hne)].
  { rewrite Hbad. simpl. do 2 eexists. split; [done|by left]. }
  cbn [i_good i_rest andb] in *. rewrite (Hg eq_refl), Nat2Z.id.
  destruct (Z.leb_spec (Z.of_nat (length (bytes_of_string str))) (Z.of_nat (length p))).
  - do 2 eexists. split; [done|]. right. eexists. split; [done|]. destruct Hp as [k Hk].
    assert (take (length (bytes_of_string str)) p = bytes_of_string str) as Htk.
    { apply (f_equal (take (length (bytes_of_string str)))) in Hk.
      rewrite take_app_length in Hk. by rewrite take_app_le in Hk by lia. }
    split.
    + apply (f_equal (drop (length (bytes_of_string str)))) in Hk.
      rewrite drop_app_length, drop_app_le in Hk by lia. by exists k.
    + intros Heq. apply Hne. by rewrite <-(take_drop (length (bytes_of_string str)) p), Htk, Heq.
  - do 2 eexists. split; [done|by left].
Qed.
End torn.

(** Step a reader over the next torn integer or string. *)
Ltac torn_int Ht :=
  let v := fresh "v" in let s' := fresh "s" in let Hv := fresh "Hv" in let Hg := fresh "Hg" in
  let Hs := fresh "Hs" in
  eapply read_int_torn in Ht as (v & s' & Hs & Ht & Hv & Hg); [|done];
  rewrite Hs; cbv beta iota.
Ltac torn_string Ht :=
  let v := fresh "v" in let s' := fresh "s" in let Hs := fresh "Hs" in
  eapply read_string_torn in Ht as (v & s' & Hs & Ht); [|done..];
  rewrite Hs; cbn [obind].

Section loops.
Context `{Env}.

Lemma decode_event_torn seq e s :
  wf_event e → torn (drop 8 (encode_event e)) s →
  decode_event seq s = Fail (mkStatus kCorruption "events corrupted").
Proof.
  intros (Hseq & [Hh Hl] & Hr & Ha & Ht & Hd & Ho & Htk & Hre) Htorn.
  pose proof (wf_string_u64 _ Ho). pose proof (wf_string_u64 _ Htk).
  pose proof (EncodeState_range (ev_state e)). pose proof (EncodeReason_range _ Hre).
  unfold encode_event in Htorn. rewrite drop_app_length' in Htorn by (by rewrite length_le_split).
  unfold decode_event. do 9 torn_int Htorn. torn_string Htorn. torn_int Htorn.
  rewrite <-(app_nil_r (bytes_of_string (ev_lease_token e))) in Htorn.
  torn_string Htorn. by rewrite (torn_nil _ Htorn).
Qed.

Lemma encode_event_split e :
  encode_event e = le_split 8 (ev_sequence e) ++ drop 8 (encode_event e).
Proof. unfold encode_event at 2. by rewrite drop_app_length' by (by rewrite length_le_split). Qed.

Lemma encode_event_length e : (8 <= length (encode_event e))%nat.
Proof. rewrite encode_event_split, length_app, length_le_split. lia. Qed.

Lemma encoded_events_length es :
  (length es <= length (concat (map encode_event es)))%nat.
Proof.
  induction es as [|e es IH]; simpl; [lia|]. rewrite length_app.
  pose proof (encode_event_length e). lia.
Qed.

Definition upto (max_sequence : Z) (es : list TransitionEvent) : list TransitionEvent :=
  filter (λ e, ev_sequence e <= max_sequence) es.

(** The loop consumes the encoded events one by one. *)
Lemma read_events_encoded fuel max es tail :
  Forall wf_event es → (length es <= fuel)%nat →
  read_events fuel max (mkIfstream (concat (map encode_event es) ++ tail) true) =
  obind (read_events (fuel - length es) max (mkIfstream tail true))
    (λ more, Good (upto max es ++ more)).
Proof.
  revert fuel. induction es as [|e es IH]; intros fuel Hwf Hfuel.
  { simpl. rewrite Nat.sub_0_r. by destruct (read_events _ _ _). }
  destruct fuel as [|fuel]; simpl in Hfuel; [lia|].
  apply Forall_cons in Hwf as [He Hwf]. cbn [map concat read_events].
  rewrite (encode_event_split e) at 1. repeat rewrite <-app_assoc.
  rewrite read_int_app by (by destruct He). cbn [i_good negb].
  rewrite decode_encode_event by done. cbn [obind]. rewrite IH by (done || lia).
  simpl. destruct (read_events _ _ _); [|done..]. simpl. unfold upto.
  rewrite filter_cons. destruct (Z.leb_spec (ev_sequence e) max); by case_decide; try lia.
Qed.

(** Fewer than eight bytes at the end are dropped in silence. *)
Lemma read_events_short fuel max tail :
  (0 < fuel)%nat → (length tail < 8)%nat → read_events fuel max (mkIfstream tail true) = Good [].
Proof.
  intros Hf Hl. destruct fuel; [lia|]. simpl. unfold read_int. cbn [i_good i_rest].
  by destruct (Nat.leb_spec 8 (length tail)); [lia|].
Qed.

(** A longer part of an event is an error. *)
Lemma read_events_torn fuel max e tail :
  (0 < fuel)%nat → wf_event e → (8 <= length tail)%nat →
  tail `prefix_of` encode_event e → tail ≠ encode_event e →
  read_events fuel max (mkIfstream tail true) = Fail (mkStatus kCorruption "events corrupted").
Proof.
  intros Hf He Hl Hp Hne. destruct fuel; [lia|]. cbn [read_events].
  assert (torn (encode_event e) (mkIfstream tail true)) as Ht by (right; eauto).
  rewrite encode_event_split in Ht. pose proof He as [Hs _].
  eapply read_int_torn in Ht as (v & s' & Hr & Ht & _ & _); [|done].
  rewrite Hr. unfold read_int in Hr. cbn [i_good i_rest] in Hr.
  destruct (Nat.leb_spec 8 (length tail)); [|lia]. simplify_eq. cbn [i_good negb].
  by rewrite (decode_event_torn _ e).
Qed.

Lemma LoadTransitions_spec path max w data :
  files w !! path = Some data → io (io_calls w) ≠ IoFail →
  (LoadTransitions path max w).1 = read_events (S (length data)) max (mkIfstream data true).
Proof.
  intros Hd Hio. unfold LoadTransitions, exists_, open_in, call_ok, syscall, bind, gets, get, ret.
  cbn [fst snd]. rewrite Hd. rewrite bool_decide_eq_true_2 by eauto. cbn [negb fst snd files].
  rewrite Hd. by destruct (io (io_calls w)).
Qed.

(** ** Snapshots *)

(** What loading a snapshot does to the runtime map. *)
Definition restore (rts : gmap MessageId MessageRuntime) (items : list (MessageId * MessageRuntime))
    : gmap MessageId MessageRuntime :=
  foldl (λ m it, match m !! it.1 with None => m | Some _ => <[it.1 := it.2]> m end) rts items.

Lemma encode_item_length it : (8 <= length (encode_item it))%nat.
Proof. destruct it. unfold encode_item. rewrite length_app, length_le_split. lia. Qed.

Lemma encoded_items_length its : (length its <= length (concat (map encode_item its)))%nat.
Proof.
  induction its as [|e es IH]; simpl; [lia|]. rewrite length_app.
  pose proof (encode_item_length e). lia.
Qed.

Lemma read_items_encoded fuel i items rest rts :
  Forall (λ it, wf_id it.1 ∧ wf_runtime it.2) items → (length items <= fuel)%nat →
  read_items fuel i (i + Z.of_nat (length items))
    (mkIfstream (concat (map encode_item items) ++ rest) true) rts = Good (restore rts items).
Proof.
  revert fuel i rts. induction items as [|it items IH]; intros fuel i rts Hwf Hf.
  { destruct fuel; cbn [read_items length]; rewrite Z.add_0_r, Z.ltb_irrefl; done. }
  destruct fuel as [|fuel]; simpl in Hf; [lia|]. apply Forall_cons in Hwf as [[? ?] Hwf].
  cbn [read_items length]. destruct (Z.ltb_spec i (i + Z.of_nat (S (length items)))); [|lia].
  cbn [map concat]. rewrite <-app_assoc, decode_encode_item by done.
  destruct it as [id rt]. cbn [obind].
  replace (i + Z.of_nat (S (length items))) with (i + 1 + Z.of_nat (length items)) by lia.
  rewrite IH by (done || lia). done.
Qed.

End loops.

(** ** The loops end

    Whatever bytes the file holds, a round that goes on has consumed at least
    eight of them, so the fuel given is never used up: the only exception that
    leaves the loops is the allocator's refusal of a length found in the file. *)
Section fuel.
Context `{Env}.

(** [s'] is reached from [s] by reads that consumed at least [n] bytes, if
    it is good. *)
Definition consumed (n : nat) (s s' : ifstream) : Prop :=
  i_good s' = true → i_good s = true ∧ (n + length (i_rest s') <= length (i_rest s))%nat.

Lemma read_int_consumed n old k s0 s v s' :
  consumed k s0 s → read_int n old s = (v, s') → consumed (k + n) s0 s'.
Proof.
  unfold consumed, read_int. intros Hk Hr Hg. destruct (i_good s) eqn:Hs; [|simplify_eq; congruence].
  destruct (Nat.leb_spec n (length (i_rest s))); simplify_eq/=.
  destruct Hk; [done|]. rewrite length_drop. split; [done|lia].
Qed.

Lemma read_string_consumed size k s0 s v s' :
  consumed k s0 s → read_string size s = Good (v, s') → consumed k s0 s'.
Proof.
  unfold consumed, read_string. intros Hk Hr Hg. destruct (size <=? alloc_limit); [|done].
  destruct (i_good s) eqn:Hs; simpl in Hr; [|simplify_eq; done].
  destruct (size <=? _); simplify_eq/=.
  destruct Hk; [done|]. rewrite length_drop. split; [done|lia].
Qed.

Lemma read_string_throw size s e : read_string size s = Throw e → e = "length_error".
Proof. unfold read_string. repeat case_match; by intros; simplify_eq. Qed.

Lemma consumed_refl s : consumed 0 s s.
Proof. by intros ?. Qed.
End fuel.

(** Follow a reader whose result is in [H] through its next integer or string,
    keeping count in [Hc]. *)
Ltac follow_int H Hc :=
  let v := fresh "v" in let s := fresh "s" in let E := fresh "E" in
  match type of H with context [read_int ?n ?o ?s0] =>
    destruct (read_int n o s0) as [v s] eqn:E; eapply read_int_consumed in E; [|exact Hc];
    clear Hc; rename E into Hc
  end.
Ltac follow_string H Hc :=
  let v := fresh "v" in let s := fresh "s" in let E := fresh "E" in
  match type of H with context [read_string ?n ?s0] =>
    destruct (read_string n s0) as [[v s]| |] eqn:E; cbn [obind] in H;
    [eapply read_string_consumed in E; [|exact Hc]; clear Hc; rename E into Hc
    |exfalso; unfold read_string in E; by repeat case_match
    |apply read_string_throw in E; by simplify_eq]
  end.

Section fuel_loops.
Context `{Env}.

Lemma decode_item_ends s o :
  decode_item s = o →
  match o with
  | Good (_, s') => (S (length (i_rest s')) <= length (i_rest s))%nat
  | Fail e => code e = kCorruption
  | Throw e => e = "length_error"
  end.
Proof.
  intros <-. destruct (decode_item s) as [[it s']|e|e] eqn:Hd; unfold decode_item in Hd;
    pose proof (consumed_refl s) as Hc; do 10 follow_int Hd Hc; follow_string Hd Hc;
    destruct (i_good _) eqn:Hg; simplify_eq/=; [|done].
  destruct Hc; [done|]. lia.
Qed.

Lemma decode_event_ends seq s o :
  decode_event seq s = o →
  match o with
  | Good (_, s') => (length (i_rest s') <= length (i_rest s))%nat
  | Fail e => code e = kCorruption
  | Throw e => e = "length_error"
  end.
Proof.
  intros <-. destruct (decode_event seq s) as [[it s']|e|e] eqn:Hd; unfold decode_event in Hd;
    pose proof (consumed_refl s) as Hc; do 9 follow_int Hd Hc; follow_string Hd Hc;
    follow_int Hd Hc; follow_string Hd Hc; destruct (i_good _) eqn:Hg; simplify_eq/=; [|done].
  destruct Hc; [done|]. lia.
Qed.

Lemma read_items_ends fuel i count s rts o :
  (length (i_rest s) < fuel)%nat → read_items fuel i count s rts = o →
  match o with
  | Good _ => True
  | Fail e => code e = kCorruption
  | Throw e => e = "length_error"
  end.
Proof.
  revert i s rts o. induction fuel as [|fuel IH]; intros i s rts o Hf; [lia|]. cbn [read_items].
  destruct (i <? count); [|by intros <-].
  pose proof (decode_item_ends s _ eq_refl) as Hd.
  destruct (decode_item s) as [[[id rt] s']|e|e]; cbn [obind]; [|by intros <-..].
  apply IH. lia.
Qed.

Lemma read_events_ends fuel max s o :
  (length (i_rest s) < fuel)%nat → read_events fuel max s = o →
  match o with
  | Good _ => True
  | Fail e => code e = kCorruption
  | Throw e => e = "length_error"
  end.
Proof.
  revert s o. induction fuel as [|fuel IH]; intros s o Hf; [lia|]. cbn [read_events].
  destruct (read_int 8 0 s) as [seq s1] eqn:Hr.
  destruct (i_good s1) eqn:Hg; cbn [negb]; [|by intros <-].
  pose proof (read_int_consumed _ _ _ _ _ _ _ (consumed_refl s) Hr Hg) as [_ Hl].
  pose proof (decode_event_ends seq s1 _ eq_refl) as Hd.
  destruct (decode_event seq s1) as [[e s2]|e|e]; cbn [obind]; [|by intros <-..].
  pose proof (IH s2 _ ltac:(lia) eq_refl) as Hrest.
  destruct (read_events fuel max s2); intros <-; done.
Qed.
End fuel_loops.

(** ** Restoring *)

(** The snapshot of [m] put over the runtime map [rts] of a recovering group:
    messages of [rts] only, each as [m] has it, if it has it. *)
Definition restored (m rts : gmap MessageId MessageRuntime) : gmap MessageId MessageRuntime :=
  merge (λ saved old, match old with None => None | Some o => Some (default o saved) end) m rts.

Lemma lookup_restored m rts i :
  restored m rts !! i =
  match rts !! i with None => None | Some o => Some (default o (m !! i)) end.
Proof. unfold restored. rewrite lookup_merge. by destruct (m !! i), (rts !! i). Qed.

Lemma restore_restored items rts :
  NoDup items.*1 → restore rts items = restored (list_to_map items) rts.
Proof.
  intros Hnd. apply map_eq. intros i. rewrite lookup_restored. revert rts Hnd.
  induction items as [|[j rt] items IH]; intros rts Hnd.
  { cbn. rewrite lookup_empty. by destruct (rts !! i). }
  cbn [restore foldl fst snd]. fold (restore (match rts !! j with
    None => rts | Some _ => <[j := rt]> rts end) items).
  cbn [fmap list_fmap fst] in Hnd. apply NoDup_cons in Hnd as [Hj Hnd].
  rewrite IH by done. cbn [list_to_map foldr fst snd].
  destruct (rts !! j) as [r|] eqn:Hr; destruct (decide (i = j)) as [->|Hij];
    simplify_map_eq; try done.
  by rewrite not_elem_of_list_to_map_1.
Qed.

Lemma restore_map (m : gmap MessageId MessageRuntime) items rts :
  items ≡ₚ map_to_list m → restore rts items = restored m rts.
Proof.
  intros Hp. assert (NoDup items.*1) as Hnd by (rewrite Hp; apply NoDup_fst_map_to_list).
  rewrite restore_restored by done.
  by rewrite (list_to_map_proper _ _ Hnd Hp), list_to_map_to_list.
Qed.

(** A map survives its own snapshot when the recovering group knows the same
    messages. *)
Lemma restored_same m rts : dom rts = dom m → restored m rts = m.
Proof.
  intros Hd. apply map_eq. intros i. rewrite lookup_restored.
  pose proof (elem_of_dom m i) as Hm. rewrite <-Hd, elem_of_dom in Hm.
  destruct (rts !! i), (m !! i); try done; exfalso;
    [destruct Hm as [Hm _] | destruct Hm as [_ Hm]]; by destruct Hm as [? ?].
Qed.

Section snapshot_load.
Context `{Env}.

Lemma load_snapshot_spec path next rts w data :
  files w !! path = Some data → io (io_calls w) ≠ IoFail →
  (load_snapshot path next rts w).1 =
  (let '(count, s) := read_int 8 0 (mkIfstream data true) in
   let '(next, s) := read_int 8 next s in
   if negb (i_good s) then Fail (mkStatus kCorruption "group state corrupted")
   else obind (read_items (S (length (i_rest s))) 0 count s rts) (λ rts, Good (next, rts))).
Proof.
  intros Hd Hio. unfold load_snapshot, exists_, open_in, call_ok, syscall, bind, gets, get, ret.
  cbn [fst snd]. rewrite Hd. rewrite bool_decide_eq_true_2 by eauto. cbn [negb fst snd files].
  rewrite Hd. destruct (io (io_calls w)); [|done|];
    destruct (read_int 8 0 _) as [c s1]; destruct (read_int 8 next s1) as [nx s2];
    (destruct (negb _); [done|]); unfold lift_outcome; by destruct (read_items _ _ _ _ _).
Qed.
End snapshot_load.

(** ** Loading what was written *)

Section loading.
Context `{Env}.

Lemma load_encoded_events path max w es tail :
  files w !! path = Some (concat (map encode_event es) ++ tail) →
  Forall wf_event es → (length tail < 8)%nat → io (io_calls w) ≠ IoFail →
  (LoadTransitions path max w).1 = Good (upto max es).
Proof.
  intros Hd Hwf Ht Hio. rewrite (LoadTransitions_spec _ _ _ _ Hd Hio).
  pose proof (encoded_events_length es) as Hl.
  rewrite read_events_encoded, read_events_short; rewrite ?length_app in *; try done; try lia.
  simpl. by rewrite app_nil_r.
Qed.

Lemma load_encoded_snapshot path next next0 w items rts (m : gmap MessageId MessageRuntime) :
  files w !! path = Some (encode_snapshot next items) → items ≡ₚ map_to_list m →
  map_Forall (λ i rt, wf_id i ∧ wf_runtime rt) m → is_u64 next →
  Z.of_nat (length items) < 2 ^ 64 → io (io_calls w) ≠ IoFail →
  (load_snapshot path next0 rts w).1 = Good (next, restored m rts).
Proof.
  intros Hd Hp Hwf Hn Hl Hio. rewrite (load_snapshot_spec _ _ _ _ _ Hd Hio).
  unfold encode_snapshot. rewrite read_int_app by lia. rewrite read_int_app by done.
  cbn [i_good negb i_rest].
  pose proof (encoded_items_length items).
  pose proof (read_items_encoded (S (length (concat (map encode_item items)))) 0 items [] rts)
    as Hr. rewrite app_nil_r, Z.add_0_l in Hr. rewrite Hr; [| |lia].
  - simpl. by rewrite (restore_map m).
  - rewrite Hp. apply Forall_forall. intros [i rt] Hi%elem_of_map_to_list. by apply Hwf in Hi.
Qed.

(** Reading changes no file. *)
Lemma LoadTransitions_reads path max w : io_only w (LoadTransitions path max w).2.
Proof.
  change (wp (LoadTransitions path max) (λ _ w', io_only w w') w).
  apply wp_bind, wp_gets. destruct (bool_decide _); cbn [negb]; [|by apply wp_ret].
  apply wp_bind, wp_bind, wp_call_ok. intros b w1 Hf. apply wp_bind, wp_get, wp_ret.
  case_match; [by apply wp_lift|by apply wp_fail].
Qed.

Lemma load_snapshot_reads path next rts w : io_only w (load_snapshot path next rts w).2.
Proof.
  change (wp (load_snapshot path next rts) (λ _ w', io_only w w') w).
  apply wp_bind, wp_gets. destruct (bool_decide _); cbn [negb]; [|by apply wp_ret].
  apply wp_bind, wp_bind, wp_call_ok. intros b w1 Hf. apply wp_bind, wp_get, wp_ret.
  case_match; [|by apply wp_fail].
  destruct (read_int 8 0 _) as [? s1]. destruct (read_int 8 next s1) as [? s2].
  destruct (negb (i_good s2)); [by apply wp_fail|]. apply wp_bind, wp_lift.
  by destruct (read_items _ _ _ _ _).
Qed.

Lemma load_snapshot_refused path next rts w data :
  files w !! path = Some data → io (io_calls w) = IoFail →
  (load_snapshot path next rts w).1 = Fail (mkStatus kIOError "open group state failed").
Proof.
  intros Hd Hio.
  unfold load_snapshot, exists_, open_in, call_ok, syscall, bind, gets, get, ret.
  cbn [fst snd]. rewrite Hd. rewrite bool_decide_eq_true_2 by eauto. cbn [negb fst snd].
  by rewrite Hio.
Qed.

Lemma LoadTransitions_refused path max w data :
  files w !! path = Some data → io (io_calls w) = IoFail →
  (LoadTransitions path max w).1 = Fail (mkStatus kIOError "open events failed").
Proof.
  intros Hd Hio. unfold LoadTransitions, exists_, open_in, call_ok, syscall, bind, gets, get, ret.
  cbn [fst snd]. rewrite Hd. rewrite bool_decide_eq_true_2 by eauto. cbn [negb fst snd].
  by rewrite Hio.
Qed.
End loading.

(** ** Properties *)

(** C25. Replaying a transition log gives back the events that were appended to
    it, in order, up to the sequence asked for.  A last event that was cut
    short is dropped in silence when fewer than eight of its bytes are there;
    with more of them nothing is delivered and the error is [kCorruption]. *)
Theorem events_roundtrip `{Env} path max w es e tail :
  files w !! path = Some (concat (map encode_event es) ++ tail) →
  Forall wf_event es → wf_event e → tail `prefix_of` encode_event e → tail ≠ encode_event e →
  io (io_calls w) ≠ IoFail →
  (LoadTransitions path max w).1 =
  if (length tail <? 8)%nat then Good (upto max es)
  else Fail (mkStatus kCorruption "events corrupted").
Proof.
  intros Hd Hwf He Hp Hne Hio. destruct (Nat.ltb_spec (length tail) 8) as [Ht|Ht].
  - by apply (load_encoded_events _ _ _ _ tail).
  - rewrite (LoadTransitions_spec _ _ _ _ Hd Hio). pose proof (encoded_events_length es) as Hl.
    rewrite read_events_encoded by (rewrite ?length_app; done || lia).
    by rewrite (read_events_torn _ _ e) by (rewrite ?length_app; done || lia).
Qed.

(** Loading the snapshot of a runtime map, whatever order the map was
    traversed in, restores the sequence counter and every message the
    recovering group knows. *)
Theorem snapshot_roundtrip `{Env} path next next0 w items rts (m : gmap MessageId MessageRuntime) :
  files w !! path = Some (encode_snapshot next items) → items ≡ₚ map_to_list m →
  map_Forall (λ i rt, wf_id i ∧ wf_runtime rt) m → is_u64 next →
  Z.of_nat (length items) < 2 ^ 64 → io (io_calls w) ≠ IoFail →
  (load_snapshot path next0 rts w).1 = Good (next, restored m rts).
Proof. apply load_encoded_snapshot. Qed.

(** Whatever bytes the two files of a group hold, reading them ends: with a
    result, an I/O or corruption error, or the allocator's refusal of a
    length that the file claims.  The fuel of the loops never runs out. *)
Theorem group_files_total `{Env} path w max next rts :
  match (LoadTransitions path max w).1 with
  | Good _ => True
  | Fail e => code e = kIOError ∨ code e = kCorruption
  | Throw e => e = "length_error"
  end ∧
  match (load_snapshot path next rts w).1 with
  | Good _ => True
  | Fail e => code e = kIOError ∨ code e = kCorruption
  | Throw e => e = "length_error"
  end.
Proof.
  destruct (files w !! path) as [data|] eqn:Hd.
  2:{ unfold LoadTransitions, load_snapshot, exists_, bind, gets. rewrite Hd. done. }
  assert (io (io_calls w) = IoFail ∨ io (io_calls w) ≠ IoFail) as [Hio|Hio]
    by (destruct (io (io_calls w)); [right|left|right]; done).
  { rewrite (LoadTransitions_refused _ _ _ _ Hd Hio), (load_snapshot_refused _ _ _ _ _ Hd Hio).
    split; by left. }
  rewrite (LoadTransitions_spec _ _ _ _ Hd Hio), (load_snapshot_spec _ _ _ _ _ Hd Hio). split.
  - pose proof (read_events_ends (S (length data)) max (mkIfstream data true) _
      ltac:(simpl; lia) eq_refl) as He. destruct (read_events _ _ _); auto.
  - destruct (read_int 8 0 _) as [c s1]. destruct (read_int 8 next s1) as [n s2].
    destruct (i_good s2); cbn [negb]; [|by right].
    pose proof (read_items_ends (S (length (i_rest s2))) 0 c s2 rts _ ltac:(lia) eq_refl) as He.
    destruct (read_items _ _ _ _ _); cbn [obind]; auto.
Qed.
