(* ===== verification/Group.v ===== *)
(** * A consumer group of the queue engine

    The operations of [src/core/engine/queue_engine.cc] that work on one
    [ConsumerGroupState]: the timer wheel, the transition log, the snapshot,
    the ready queue and the expiry of leases.  The state is the world and the
    group; the engine's options and the names of the queue and the group are
    the section's variables. *)
From S2P Require Import Prelude Status Io DurableIo Checkpoint Message EventLog.

Abbreviation GroupM := (M (World * ConsumerGroupState)).

Definition kWheelSlots : nat := 512.

Section group.
Context `{Env}.
Context (options_ : EngineOptions) (queue_name group_id : string).

Definition GroupStatePath : string :=
  path_join (path_join (data_dir options_) queue_name) (group_id +:+ ".state").

Definition GroupEventPath : string :=
  path_join (path_join (data_dir options_) queue_name) (group_id +:+ ".events").

(** ** The timer wheel *)

Definition tick_ms : Z := Z.max 1 (u64 (scheduler_tick options_)).

Definition InitScheduler : GroupM unit :=
  do! on_snd (modify (set_wheel (replicate kWheelSlots []))) in
  let! t := on_fst now in
  on_snd (modify (set_base_tick (t / tick_ms))).

(** [deadline_wheel[tick % size].push_back(id)]. *)
Definition push_wheel (id : MessageId) (tick : Z) (g : ConsumerGroupState) : ConsumerGroupState :=
  set_wheel (alter (λ b, b ++ [id])
    (Z.to_nat (tick mod Z.of_nat (length (deadline_wheel g)))) (deadline_wheel g)) g.

Definition ScheduleInflight (id : MessageId) (deadline : Z) (own token : string) (off : Z)
    : GroupM unit :=
  let! g := gets snd in
  do! match deadline_wheel g with [] => InitScheduler | _ => ret tt end in
  let tick := deadline / tick_ms in
  on_snd (modify (λ g,
    set_inflight (<[id := mkInflight off deadline tick own token]> (inflight g))
      (push_wheel id tick g))).

(** ** Transitions *)

Definition apply_runtime (e : TransitionEvent) (rt : MessageRuntime) : MessageRuntime :=
  mkRuntime (ev_state e) (rt_offset rt) (ev_retry_count e) (rt_enqueue_ts rt)
    (ev_transition_ts e) (ev_available_after_ms e) (ev_sequence e) (ReasonToString (ev_reason e)).

Definition ApplyTransition (e : TransitionEvent) : GroupM unit :=
  let! g := gets snd in
  match runtime g !! ev_id e with
  | None => ret tt
  | Some rt =>
      do! on_snd (modify (λ g,
            set_inflight (delete (ev_id e) (inflight g))
              (set_runtime (<[ev_id e := apply_runtime e rt]> (runtime g)) g))) in
      match ev_state e with
      | kInFlight =>
          ScheduleInflight (ev_id e) (ev_deadline_ms e) (ev_owner e) (ev_lease_token e)
            (rt_offset rt)
      | _ => ret tt
      end
  end.

(** ** The ready queue *)

Definition is_ready (now : Z) (rt : MessageRuntime) : bool :=
  bool_decide (state rt = kReady) && (available_after_ms rt <=? now).

Definition BuildReadyQueue : GroupM unit :=
  do! on_snd (modify (set_ready [])) in
  let! t := on_fst now in
  let! g := gets snd in
  let! entries := on_fst (traverse (runtime g)) in
  on_snd (modify (set_ready (merge_sort Z.le
    (omap (λ it, if is_ready t it.2 then Some (rt_offset it.2) else None) entries)))).

(** ** Persistence *)

Definition PersistGroupState : GroupM unit :=
  if FailpointActive "before_checkpoint_rename"
  then fail kIOError "failpoint before_checkpoint_rename"
  else
    let! g := gets snd in
    on_fst (DurableWriteFile GroupStatePath
      (computed_writer
         (let! entries := traverse (runtime g) in ret (encode_snapshot (next_sequence g) entries))
         "write group state failed")
      (fsync_policy options_)).

(** The successive [out.write] calls put one event on the stream; a call
    that fails leaves any part of what was written so far in the file. *)
Definition AppendTransition (e : TransitionEvent) : GroupM unit :=
  do! on_fst create_directories in
  if FailpointActive "before_log_append" then fail kIOError "failpoint before_log_append"
  else
    let! opened := on_fst (open_out false GroupEventPath) in
    match opened with
    | None => fail kIOError "open event log failed"
    | Some out =>
        let! out := on_fst (stream_write out (encode_event e)) in
        if FailpointActive "after_log_append"
        then do! on_fst (close out) in fail kIOError "failpoint after_log_append"
        else
          let! out := on_fst (flush out) in
          if negb (o_good out)
          then do! on_fst (close out) in fail kIOError "append event failed"
          else do! ApplyTransition e in on_fst (close out)
    end.

(** ** Expiry *)

(** [group.next_sequence++]. *)
Definition take_sequence : GroupM Z :=
  let! g := gets snd in
  do! on_snd (modify (set_next_sequence (u64 (next_sequence g + 1)))) in
  ret (next_sequence g).

Definition timeout_event (t seq : Z) (id : MessageId) (rt : MessageRuntime) : TransitionEvent :=
  let retry := u32 (retry_count rt + 1) in
  if max_retry_count options_ <? retry
  then mkEvent seq id kDead retry 0 t 0 "" "" kVisibilityTimeoutDead
  else mkEvent seq id kReady retry (u64 (t + retry_backoff options_)) t 0 "" ""
         kVisibilityTimeoutRequeued.

(** One id of the bucket of the current tick. *)
Definition reap_id (t : Z) (id : MessageId) : GroupM unit :=
  let! g := gets snd in
  match inflight g !! id with
  | None => ret tt
  | Some entry =>
      if wheel_base_tick g <? bucket_tick entry then ret tt
      else if t <? deadline_ms entry then on_snd (modify (push_wheel id (bucket_tick entry)))
      else
        match runtime g !! id with
        | None => on_snd (modify (λ g, set_inflight (delete id (inflight g)) g))
        | Some rt =>
            let! seq := take_sequence in
            if FailpointActive "before_timeout_transition" then ret tt
            else do! attempt (AppendTransition (timeout_event t seq id rt)) in ret tt
        end
  end.

Fixpoint reap_bucket (t : Z) (bucket : list MessageId) : GroupM unit :=
  match bucket with
  | [] => ret tt
  | id :: bucket => do! reap_id t id in reap_bucket t bucket
  end.

(** The loop over the ticks up to [now_tick]. *)
Fixpoint reap_ticks (fuel : nat) (t now_tick : Z) : GroupM unit :=
  let! g := gets snd in
  if wheel_base_tick g <=? now_tick then
    match fuel with
    | O => throw "reap loop: out of fuel"
    | S fuel =>
        let slot := Z.to_nat (wheel_base_tick g mod Z.of_nat (length (deadline_wheel g))) in
        let bucket := default [] (deadline_wheel g !! slot) in
        do! on_snd (modify (set_wheel (<[slot := []]> (deadline_wheel g)))) in
        do! reap_bucket t bucket in
        do! on_snd (modify (λ g, set_base_tick (u64 (wheel_base_tick g + 1)) g)) in
        reap_ticks fuel t now_tick
    end
  else ret tt.

Definition ReapExpiredInflight : GroupM unit :=
  let! g := gets snd in
  do! match deadline_wheel g with [] => InitScheduler | _ => ret tt end in
  let! t := on_fst now in
  let now_tick := t / tick_ms in
  let! g := gets snd in
  do! reap_ticks (Z.to_nat (now_tick - wheel_base_tick g + 1)) t now_tick in
  BuildReadyQueue.
End group.

(** ** What the operations do, without the monad *)

Section effects.
Context (options_ : EngineOptions).

(** The group with [id] leased. *)
Definition scheduled (id : MessageId) (deadline : Z) (own token : string) (off : Z)
    (g : ConsumerGroupState) : ConsumerGroupState :=
  let tick := deadline / tick_ms options_ in
  set_inflight (<[id := mkInflight off deadline tick own token]> (inflight g)) (push_wheel id tick g).

Definition applied (e : TransitionEvent) (g : ConsumerGroupState) : ConsumerGroupState :=
  match runtime g !! ev_id e with
  | None => g
  | Some rt =>
      let g := set_inflight (delete (ev_id e) (inflight g))
                 (set_runtime (<[ev_id e := apply_runtime e rt]> (runtime g)) g) in
      match ev_state e with
      | kInFlight =>
          scheduled (ev_id e) (ev_deadline_ms e) (ev_owner e) (ev_lease_token e) (rt_offset rt) g
      | _ => g
      end
  end.

(** The offsets a rebuild at time [t] puts on the ready queue. *)
Definition ready_at (t : Z) (rts : gmap MessageId MessageRuntime) : list Z :=
  merge_sort Z.le
    (omap (λ it, if is_ready t it.2 then Some (rt_offset it.2) else None) (map_to_list rts)).
End effects.

(** How an append that did not happen is reported. *)
Definition append_refused (o : outcome unit) : Prop :=
  match o with
  | Good _ => False
  | Fail e => code e = kIOError
  | Throw e => e = "filesystem_error"
  end.

#[global] Instance Z_le_total : Total Z.le.
Proof. intros x y. lia. Qed.

Section group_rules.
Context `{Env}.
Context (options_ : EngineOptions) (queue_name group_id : string).

Abbreviation event_path := (GroupEventPath options_ queue_name group_id).

Lemma ScheduleInflight_eq id deadline own token off w g :
  deadline_wheel g ≠ [] →
  ScheduleInflight options_ id deadline own token off (w, g) =
  (Good tt, (w, scheduled options_ id deadline own token off g)).
Proof. unfold ScheduleInflight, bind, gets. simpl. by destruct (deadline_wheel g) eqn:Hw. Qed.

Lemma ApplyTransition_eq e w g :
  deadline_wheel g ≠ [] → ApplyTransition options_ e (w, g) = (Good tt, (w, applied options_ e g)).
Proof.
  intros Hw. unfold ApplyTransition, applied. unfold bind at 1. unfold gets at 1. cbn [fst snd].
  destruct (runtime g !! ev_id e) as [rt|]; [|done]. unfold bind, on_snd, zoom, modify.
  cbn [fst snd]. destruct (ev_state e); [done| |done..].
  by rewrite ScheduleInflight_eq.
Qed.

Lemma wp_AppendTransition e (Q : outcome unit → World * ConsumerGroupState → Prop) w g :
  deadline_wheel g ≠ [] →
  (∀ o w' part, append_refused o → part `prefix_of` encode_event e →
     appended event_path part w w' → Q o (w', g)) →
  (∀ w', appended event_path (encode_event e) w w' → Q (Good tt) (w', applied options_ e g)) →
  wp (AppendTransition options_ queue_name group_id e) Q (w, g).
Proof.
  intros Hwheel Hbad Hok.
  assert (∀ o w', append_refused o → io_only w w' → Q o (w', g)) as Hnone.
  { intros o w' Ho Hw. apply (Hbad o w' []); [done|apply prefix_nil|by apply appended_nil]. }
  unfold AppendTransition. apply wp_bind, wp_on_fst, wp_create_directories.
  intros w1 H1. split; [|by apply Hnone]. destruct (FailpointActive _); [by apply wp_fail, Hnone|].
  apply wp_bind, wp_on_fst, wp_open_out.
  { intros w2 H2. apply wp_fail, Hnone; [done|]. by rewrite H1. }
  intros w2 H2 Hopen. rewrite (file_bytes_io_only _ _ _ H1) in Hopen.
  assert (appended event_path [] w w2) as H02.
  { split; [by rewrite H1|]. unfold file_bytes at 1. by rewrite Hopen, app_nil_r. }
  apply wp_bind, wp_on_fst, wp_stream_write; [done| |].
  - intros w3 H3. cbn [o_path o_buf app].
    assert (appended event_path [] w w3) as H03
      by (apply (appended_trans _ [] [] _ w2); [done|by apply appended_nil]).
    assert (∀ w4 part, file_only event_path w3 w4 →
      file_bytes w4 event_path = file_bytes w3 event_path ++ part → appended event_path part w w4)
      as Happ by (intros; by apply (appended_trans _ [] _ _ w3)).
    destruct (FailpointActive _).
    + apply wp_bind, wp_on_fst. unfold close. apply wp_bind, wp_flush; [done| |].
      * intros w4 part H4 Hp Hb. by apply wp_ret, wp_fail, (Hbad _ _ part); [|done|apply Happ].
      * intros w4 H4 Hb. apply wp_ret, wp_fail, (Hbad _ _ (encode_event e)); [done..|].
        cbn [o_path o_buf] in *. apply Happ; [done|]. unfold file_bytes at 1. by rewrite Hb.
    + apply wp_bind, wp_on_fst, wp_flush; [done| |].
      * intros w4 part H4 Hp Hb. cbn [o_good negb]. apply wp_bind, wp_on_fst, wp_close_empty; [by left|].
        intros w5 Hf5 Hc5. apply wp_fail, (Hbad _ _ part); [done..|].
        unfold appended, file_only, file_bytes in *. rewrite Hf5, Hc5. by apply Happ.
      * intros w4 H4 Hb. cbn [o_good o_buf o_path negb] in *.
        apply wp_bind. unfold wp at 1. rewrite ApplyTransition_eq by done. cbn [fst snd].
        apply wp_on_fst, wp_close_empty; [right; eauto|]. intros w5 Hf5 Hc5. apply Hok.
        unfold appended, file_only, file_bytes in *. rewrite Hf5, Hc5. apply Happ; [done|].
        unfold file_bytes. by rewrite Hb.
  - intros w3 part H3 Hp Hb. cbn [o_path o_buf app] in *.
    assert (appended event_path part w w3) as H03 by (by apply (appended_trans _ [] _ _ w2)).
    destruct (FailpointActive _); apply wp_bind, wp_on_fst.
    + unfold close, flush. cbn [o_good]. apply wp_bind, wp_ret, wp_ret, wp_fail.
      by apply (Hbad _ _ part).
    + unfold flush. cbn [o_good]. apply wp_ret. cbn [o_good negb].
      apply wp_bind, wp_on_fst. unfold close, flush. cbn [o_good].
      apply wp_bind, wp_ret, wp_ret, wp_fail. by apply (Hbad _ _ part).
Qed.

Lemma calm_AppendTransition (calm : calm_run) e
    (Q : outcome unit → World * ConsumerGroupState → Prop) w g :
  deadline_wheel g ≠ [] →
  (∀ w', appended event_path (encode_event e) w w' → Q (Good tt) (w', applied options_ e g)) →
  wp (AppendTransition options_ queue_name group_id e) Q (w, g).
Proof.
  intros Hwheel HQ. unfold AppendTransition. rewrite !(calm_failpoint calm).
  apply wp_bind, wp_on_fst, (calm_create_directories calm). intros w1 H1.
  apply wp_bind, wp_on_fst, (calm_open_out calm). intros w2 H2 Hopen.
  apply wp_bind, wp_on_fst, (calm_stream_write calm); [done|]. intros w3 H3.
  apply wp_bind, wp_on_fst, (calm_flush calm); [done|]. intros w4 H4 Hb.
  cbn [o_good o_buf o_path negb app] in *.
  apply wp_bind. unfold wp at 1. rewrite ApplyTransition_eq by done. cbn [fst snd].
  apply wp_on_fst, wp_close_empty; [right; eauto|]. intros w5 Hf5 Hc5. apply HQ. split.
  - transitivity w4; [by rewrite H1, H2, H3|]. by unfold file_only; rewrite Hf5.
  - unfold file_bytes at 1. rewrite Hf5, Hb. simpl. f_equal.
    rewrite (file_bytes_io_only _ _ _ H3). unfold file_bytes at 1. rewrite Hopen.
    by rewrite (file_bytes_io_only _ _ _ H1).
Qed.

(** However the runtime map is traversed, the rebuilt queue is the same. *)
Lemma ready_at_perm t (rts : gmap MessageId MessageRuntime) l :
  l ≡ₚ map_to_list rts →
  merge_sort Z.le (omap (λ it : MessageId * MessageRuntime,
    if is_ready t it.2 then Some (rt_offset it.2) else None) l) = ready_at t rts.
Proof.
  intros Hp. unfold ready_at. apply (Sorted_unique Z.le); [apply Sorted_merge_sort, _..|].
  by rewrite !merge_sort_Permutation, Hp.
Qed.

Lemma wp_BuildReadyQueue (Q : outcome unit → World * ConsumerGroupState → Prop) w g :
  (∀ w', files w' = files w → clock_reads w' = S (clock_reads w) →
     Q (Good tt) (w', set_ready (ready_at (reading 0 w) (runtime g)) g)) →
  wp BuildReadyQueue Q (w, g).
Proof.
  intros HQ. apply wp_bind, wp_modify_snd, wp_bind, wp_on_fst, wp_now. intros w1 Hf1 _ Hc1.
  apply wp_bind, wp_gets_snd, wp_bind, wp_on_fst, wp_traverse. intros l w2 Hl (Hf2 & Hc2).
  apply wp_modify_snd. cbn [runtime set_ready] in *. rewrite (ready_at_perm _ (runtime g)) by done.
  apply (HQ w2); [by rewrite Hf2, Hf1|by rewrite Hc2, Hc1].
Qed.

Lemma wp_PersistGroupState (Q : outcome unit → World * ConsumerGroupState → Prop) w g :
  (∀ o w' items, items ≡ₚ map_to_list (runtime g) →
     replaced (GroupStatePath options_ queue_name group_id)
       (encode_snapshot (next_sequence g) items) w o w' → Q o (w', g)) →
  wp (PersistGroupState options_ queue_name group_id) Q (w, g).
Proof.
  intros HQ. unfold PersistGroupState. destruct (FailpointActive _).
  { apply wp_fail, (HQ _ _ (map_to_list (runtime g))); [done|]. by apply replaced_not_yet. }
  apply wp_bind, wp_gets_snd, wp_on_fst. cbn [snd].
  apply (wp_DurableWriteFile_gen _ _ _ _
    (λ data, ∃ items, items ≡ₚ map_to_list (runtime g) ∧
       data = encode_snapshot (next_sequence g) items)).
  - intros w1. apply wp_bind, wp_traverse. intros l w2 Hl H2. apply wp_ret. eauto 6.
  - intros o data w' (items & Hp & ->). by apply HQ.
  - by exists (encode_snapshot (next_sequence g) (map_to_list (runtime g))), (map_to_list (runtime g)).
Qed.

Lemma calm_PersistGroupState (calm : calm_run)
    (Q : outcome unit → World * ConsumerGroupState → Prop) w g :
  (∀ w' items, items ≡ₚ map_to_list (runtime g) →
     replaced (GroupStatePath options_ queue_name group_id)
       (encode_snapshot (next_sequence g) items) w (Good tt) w' → Q (Good tt) (w', g)) →
  wp (PersistGroupState options_ queue_name group_id) Q (w, g).
Proof.
  intros HQ. apply wp_elim. intros o s' Hrun.
  assert (o = Good tt) as ->.
  { apply (wp_intro _ (λ o _, o = Good tt)) in Hrun; [done|]. unfold PersistGroupState.
    rewrite (calm_failpoint calm). apply wp_bind, wp_gets_snd, wp_on_fst.
    apply (calm_DurableWriteFile_gen calm). intros w1. apply wp_bind, wp_traverse.
    intros l w2 Hl H2. apply wp_ret. eauto. }
  refine (wp_intro _ (λ o s', o = Good tt → Q o s') _ _ _ _ Hrun eq_refl).
  apply wp_PersistGroupState. intros o w' items Hp Hr ->. by eapply HQ.
Qed.

Lemma take_sequence_eq w g :
  take_sequence (w, g) = (Good (next_sequence g), (w, set_next_sequence (u64 (next_sequence g + 1)) g)).
Proof. done. Qed.
End group_rules.
