(* ===== verification/Handlers.v ===== *)
(** * Consume, acknowledge, reject, inspect

    The part of [ConsumeOnShard], [AckOnShard], [NackOnShard],
    [GetStatsOnShard] and [InspectMessageOnShard]
    ([src/core/engine/queue_engine.cc]) that runs once the queue and the
    group are found: operations on the world and one group, with the queue's
    segment log as an argument ([Read] does not change it). *)
From stdpp Require Import pretty.
From S2P Require Import Prelude Status Io Record SegmentLog Message EventLog Group.

Record ConsumeResult := mkConsumeResult {
  result_message : Message;
  result_offset : Z;
  delivery_count : Z;
}.

Record QueueStats := mkStats {
  ready_count : Z;
  inflight_count : Z;
  acked_count : Z;
  dead_count : Z;
  oldest_ready_age_ms : Z;
}.

Record MessageDebugView := mkView {
  view_state : MessageState;
  view_sequence : Z;
  enqueue_time_ms : Z;
  last_transition_time_ms : Z;
  view_retry_count : Z;
  next_visible_at_ms : Z;
  view_reason : string;
  lease_owner : string;
  view_lease_token : string;
}.

Section handlers.
Context `{Env}.
Context (options_ : EngineOptions) (queue_name group_id : string).

Abbreviation Append_ := (AppendTransition options_ queue_name group_id).
Abbreviation Persist := (PersistGroupState options_ queue_name group_id).
Abbreviation Reap := (ReapExpiredInflight options_ queue_name group_id).

(** ** Consume *)

Definition record_id (r : Record_) : MessageId :=
  mkId (msg_id_high (header r)) (msg_id_low (header r)).

Definition make_token (id : MessageId) (seq : Z) : string :=
  pretty (id_high id) +:+ ":" +:+ pretty (id_low id) +:+ ":" +:+ pretty seq.

(** [result.message.headers[kv.first] = kv.second], in order. *)
Definition headers_map (kvs : list (string * string)) : gmap string string :=
  foldl (λ m kv, <[kv.1 := kv.2]> m) ∅ kvs.

Definition make_result (r : Record_) (off count : Z) : ConsumeResult :=
  mkConsumeResult (mkMessage (record_id r) (enqueue_ts (header r)) (payload r)
                     (headers_map (headers r)) (routing_key r)) off count.

Definition deliver_event (t seq : Z) (id : MessageId) (rt : MessageRuntime) : TransitionEvent :=
  mkEvent seq id kInFlight (retry_count rt) t t (u64 (t + visibility_timeout options_))
    group_id (make_token id seq) kDelivered.

(** The runtime entry of the message, created when there is none. *)
Definition find_runtime (id : MessageId) (off enqueued : Z) : GroupM MessageRuntime :=
  let! g := gets snd in
  match runtime g !! id with
  | Some rt => ret rt
  | None =>
      let! t := on_fst now in
      let rt := mkRuntime kReady off 0 enqueued t 0 0 "runtime-created-on-consume" in
      do! on_snd (modify (λ g, set_runtime (<[id := rt]> (runtime g)) g)) in
      ret rt
  end.

(** Lease the message of the offset at the front of the ready queue. *)
Definition deliver (segment : SegmentLog) (off : Z) : GroupM (option ConsumeResult) :=
  let! record := on_fst (Read segment off) in
  let id := record_id record in
  let! rt := find_runtime id off (enqueue_ts (header record)) in
  let! t := on_fst now in
  let! seq := take_sequence in
  if FailpointActive "before_lease_issue" then fail kIOError "failpoint before_lease_issue"
  else
    do! Append_ (deliver_event t seq id rt) in
    let! g := gets snd in
    let count := u32 (retry_count (default rt (runtime g !! id)) + 1) in
    do! Persist in
    ret (Some (make_result record off count)).

Definition ConsumeGroup (segment : SegmentLog) : GroupM (option ConsumeResult) :=
  do! Reap in
  let! g := gets snd in
  if max_inflight options_ <=? Z.of_nat (size (inflight g)) then ret None
  else
    match ready_offsets g with
    | [] => ret None
    | off :: rest =>
        do! on_snd (modify (set_ready rest)) in
        deliver segment off
    end.

(** ** Acknowledge *)

Definition ack_event (t seq : Z) (id : MessageId) (rt : MessageRuntime) : TransitionEvent :=
  mkEvent seq id kAcked (retry_count rt) 0 t 0 "" "" kReasonAcked.

(** The runtime entry of a leased message. *)
Definition leased (id : MessageId) : GroupM MessageRuntime :=
  let! g := gets snd in
  match inflight g !! id with
  | None => fail kNotFound "inflight not found"
  | Some _ =>
      match runtime g !! id with
      | None => fail kCorruption "runtime missing"
      | Some rt => ret rt
      end
  end.

Definition AckGroup (id : MessageId) : GroupM unit :=
  let! rt := leased id in
  let! seq := take_sequence in
  let! t := on_fst now in
  if FailpointActive "before_ack_transition" then fail kIOError "failpoint before_ack_transition"
  else
    do! Append_ (ack_event t seq id rt) in
    Persist.

(** ** Reject *)

(** The event of a rejection at [t]; the second reading of the clock is for
    the end of the back-off. *)
Definition nack_event (t seq : Z) (id : MessageId) (rt : MessageRuntime) (requeue : bool)
    : GroupM TransitionEvent :=
  if negb requeue
  then ret (mkEvent seq id kDead (retry_count rt) 0 t 0 "" "" kConsumerNackDead)
  else
    let retry := u32 (retry_count rt + 1) in
    if max_retry_count options_ <? retry
    then ret (mkEvent seq id kDead retry 0 t 0 "" "" kConsumerNackDead)
    else
      let! t' := on_fst now in
      ret (mkEvent seq id kReady retry (u64 (t' + retry_backoff options_)) t 0 "" ""
             kConsumerNackRequeued).

Definition NackGroup (id : MessageId) (requeue : bool) : GroupM unit :=
  let! rt := leased id in
  let! seq := take_sequence in
  let! t := on_fst now in
  let! e := nack_event t seq id rt requeue in
  if bool_decide (ev_state e = kDead) && FailpointActive "before_dlq_move"
  then fail kIOError "failpoint before_dlq_move"
  else
    do! Append_ e in
    do! BuildReadyQueue in
    Persist.

(** ** Statistics *)

Definition count_state (st : MessageState) (s : QueueStats) : QueueStats :=
  match st with
  | kReady => mkStats (ready_count s + 1) (inflight_count s) (acked_count s) (dead_count s)
                (oldest_ready_age_ms s)
  | kInFlight => mkStats (ready_count s) (inflight_count s + 1) (acked_count s) (dead_count s)
                   (oldest_ready_age_ms s)
  | kAcked => mkStats (ready_count s) (inflight_count s) (acked_count s + 1) (dead_count s)
                (oldest_ready_age_ms s)
  | kDead => mkStats (ready_count s) (inflight_count s) (acked_count s) (dead_count s + 1)
               (oldest_ready_age_ms s)
  end.

Definition oldest_of (oldest : Z) (rt : MessageRuntime) : Z :=
  match state rt with
  | kReady => if (oldest =? 0) || (rt_enqueue_ts rt <? oldest) then rt_enqueue_ts rt else oldest
  | _ => oldest
  end.

Definition zero_stats : QueueStats := mkStats 0 0 0 0 0.

Definition count_entries (entries : list (MessageId * MessageRuntime)) (s : QueueStats) : QueueStats :=
  foldl (λ s it, count_state (state it.2) s) s entries.

Definition StatsGroup : GroupM QueueStats :=
  do! Reap in
  let! t := on_fst now in
  let! g := gets snd in
  let! entries := on_fst (traverse (runtime g)) in
  let oldest := foldl (λ o it, oldest_of o it.2) 0 entries in
  let s := count_entries entries zero_stats in
  ret (if (0 <? oldest) && (oldest <? t)
       then mkStats (ready_count s) (inflight_count s) (acked_count s) (dead_count s) (t - oldest)
       else s).

(** ** Inspection *)

Definition InspectGroup (id : MessageId) : GroupM MessageDebugView :=
  let! g := gets snd in
  match runtime g !! id with
  | None => fail kNotFound "message not found"
  | Some rt =>
      ret match inflight g !! id with
          | None =>
              mkView (state rt) (sequence rt) (rt_enqueue_ts rt) (last_transition_ts rt)
                (retry_count rt) (available_after_ms rt) (last_transition_reason rt) "" ""
          | Some entry =>
              mkView (state rt) (sequence rt) (rt_enqueue_ts rt) (last_transition_ts rt)
                (retry_count rt) (deadline_ms entry) (last_transition_reason rt)
                (owner entry) (lease_token entry)
          end
  end.
End handlers.
