(* ===== verification/Lifecycle.v ===== *)
(** * The life cycle of the messages of a group

    The state machine that [docs/QUEUE_CONTRACT.md] and [docs/INVARIANTS.md]
    ask of the engine, as a step relation on [ConsumerGroupState]: which
    transition events are legal in a state, what a run of events does, and
    what holds in every state a run reaches, by rule induction.  The handlers
    are shown to be runs of it in [HandlerSpecs]. *)
From S2P Require Import Prelude Status Io Checkpoint Message EventLog Group.

Section lifecycle.
Context (options_ : EngineOptions).

(** ** Steps *)

(** The events the engine may log in group [g]. *)
Inductive legal_event (g : ConsumerGroupState) (e : TransitionEvent) : Prop :=
  | legal_deliver rt :
      runtime g !! ev_id e = Some rt → state rt = kReady → ev_state e = kInFlight →
      ev_retry_count e = retry_count rt → legal_event g e
  | legal_ack rt :
      is_Some (inflight g !! ev_id e) → runtime g !! ev_id e = Some rt → ev_state e = kAcked →
      ev_retry_count e = retry_count rt → legal_event g e
  | legal_retry rt :
      is_Some (inflight g !! ev_id e) → runtime g !! ev_id e = Some rt → ev_state e = kReady →
      ev_retry_count e = u32 (retry_count rt + 1) → ev_retry_count e <= max_retry_count options_ →
      legal_event g e
  | legal_dead rt :
      is_Some (inflight g !! ev_id e) → runtime g !! ev_id e = Some rt → ev_state e = kDead →
      ev_retry_count e = retry_count rt ∨
        (ev_retry_count e = u32 (retry_count rt + 1) ∧ max_retry_count options_ < ev_retry_count e) →
      legal_event g e.

(** Two states that differ in the ready queue, the wheel's contents and its
    base only. *)
Definition same_core (g g' : ConsumerGroupState) : Prop :=
  runtime g' = runtime g ∧ inflight g' = inflight g ∧
  length (deadline_wheel g') = length (deadline_wheel g) ∧ next_sequence g' = next_sequence g ∧
  (is_u64 (wheel_base_tick g) → is_u64 (wheel_base_tick g')).

(** A sequence number is taken. *)
Definition bump (g : ConsumerGroupState) : ConsumerGroupState :=
  set_next_sequence (u64 (next_sequence g + 1)) g.

(** [group_run g n es g']: from [g], taking [n] sequence numbers and logging
    the events [es], to [g'].  A number is lost when its event could not be
    appended. *)
Inductive group_run (g : ConsumerGroupState)
    : nat → list TransitionEvent → ConsumerGroupState → Prop :=
  | run_nil : group_run g 0 [] g
  | run_internal n es g1 g2 : group_run g n es g1 → same_core g1 g2 → group_run g n es g2
  | run_lost n es g1 : group_run g n es g1 → group_run g (S n) es (bump g1)
  | run_event n es g1 e :
      group_run g n es g1 → legal_event g1 e → ev_sequence e = next_sequence g1 →
      group_run g (S n) (es ++ [e]) (applied options_ e (bump g1)).

Lemma group_run_trans g n1 es1 g1 n2 es2 g2 :
  group_run g n1 es1 g1 → group_run g1 n2 es2 g2 → group_run g (n1 + n2) (es1 ++ es2) g2.
Proof.
  intros H1. induction 1.
  - by rewrite Nat.add_0_r, app_nil_r.
  - by eapply run_internal.
  - rewrite Nat.add_succ_r. by apply run_lost.
  - rewrite Nat.add_succ_r, app_assoc. by apply run_event.
Qed.

Lemma run_same g g' : same_core g g' → group_run g 0 [] g'.
Proof. apply run_internal, run_nil. Qed.

#[global] Instance same_core_preorder : PreOrder same_core.
Proof.
  split; unfold same_core; repeat intro; [done|]. destruct_and?; split_and!; try congruence. auto.
Qed.

(** ** What applying an event does *)

Lemma applied_runtime e g id :
  runtime (applied options_ e g) !! id =
  if decide (id = ev_id e) then apply_runtime e <$> runtime g !! id else runtime g !! id.
Proof.
  unfold applied. destruct (decide (id = ev_id e)) as [->|Hne].
  - destruct (runtime g !! ev_id e) eqn:Hrt; [|by rewrite Hrt].
    destruct (ev_state e); cbn; by rewrite lookup_insert_eq.
  - destruct (runtime g !! ev_id e); [|done].
    destruct (ev_state e); cbn; by rewrite lookup_insert_ne.
Qed.

Lemma applied_inflight e g id :
  is_Some (runtime g !! ev_id e) →
  is_Some (inflight (applied options_ e g) !! id) ↔
  if decide (id = ev_id e) then ev_state e = kInFlight else is_Some (inflight g !! id).
Proof.
  intros [rt Hrt]. unfold applied. rewrite Hrt. destruct (decide (id = ev_id e)) as [->|Hne].
  - destruct (ev_state e); cbn; rewrite ?lookup_insert_eq, ?lookup_delete_eq;
      split; [by intros []|done|done|by eauto|by intros []|done|by intros []|done].
  - destruct (ev_state e); cbn; by rewrite ?lookup_insert_ne, ?lookup_delete_ne.
Qed.

(** Other messages keep their leases. *)
Lemma applied_inflight_ne e g id :
  id ≠ ev_id e → inflight (applied options_ e g) !! id = inflight g !! id.
Proof.
  intros Hne. unfold applied. destruct (runtime g !! ev_id e); [|done].
  destruct (ev_state e); cbn; by rewrite ?lookup_insert_ne, ?lookup_delete_ne.
Qed.

Lemma applied_wheel_length e g :
  length (deadline_wheel (applied options_ e g)) = length (deadline_wheel g).
Proof.
  unfold applied. destruct (runtime g !! ev_id e); [|done].
  destruct (ev_state e); cbn; by rewrite ?length_alter.
Qed.

Lemma applied_next e g : next_sequence (applied options_ e g) = next_sequence g.
Proof.
  unfold applied. destruct (runtime g !! ev_id e); [|done]. by destruct (ev_state e).
Qed.

Lemma applied_base e g : wheel_base_tick (applied options_ e g) = wheel_base_tick g.
Proof.
  unfold applied. destruct (runtime g !! ev_id e); [|done]. by destruct (ev_state e).
Qed.

Lemma applied_ready e g : ready_offsets (applied options_ e g) = ready_offsets g.
Proof.
  unfold applied. destruct (runtime g !! ev_id e); [|done]. by destruct (ev_state e).
Qed.

Lemma legal_known g e : legal_event g e → is_Some (runtime g !! ev_id e).
Proof. intros []; eauto. Qed.

(** ** Invariants *)

Definition live (rt : MessageRuntime) : Prop := state rt = kReady ∨ state rt = kInFlight.
Definition terminal (rt : MessageRuntime) : Prop := state rt = kAcked ∨ state rt = kDead.

Lemma live_or_terminal rt : live rt ∨ terminal rt.
Proof. unfold live, terminal. destruct (state rt); auto. Qed.

(** What holds of every group, recovered ones included. *)
Record group_ok (g : ConsumerGroupState) : Prop := {
  ok_wheel : length (deadline_wheel g) = kWheelSlots;
  ok_lease id : is_Some (inflight g !! id) → ∃ rt, runtime g !! id = Some rt ∧ live rt;
  ok_inflight id rt :
    runtime g !! id = Some rt → state rt = kInFlight → is_Some (inflight g !! id);
  ok_retry id rt : runtime g !! id = Some rt → live rt → retry_count rt <= max_retry_count options_;
  ok_next : is_u64 (next_sequence g);
  ok_base : is_u64 (wheel_base_tick g);
}.

(** "No dual-state membership": exactly the messages in flight are leased. *)
Definition coherent (g : ConsumerGroupState) : Prop :=
  ∀ id rt, runtime g !! id = Some rt → is_Some (inflight g !! id) → state rt = kInFlight.

Lemma group_ok_wheel g : group_ok g → deadline_wheel g ≠ [].
Proof. intros Hok Hnil. pose proof (ok_wheel _ Hok) as Hw. by rewrite Hnil in Hw. Qed.

Lemma group_ok_core g g' : same_core g g' → group_ok g → group_ok g'.
Proof.
  intros (Hr & Hi & Hl & Hn & Hb) [Hw Hle Hin Hre Hnx Hba].
  split; [by rewrite Hl| | | | |by apply Hb]; intros *; rewrite ?Hr, ?Hi, ?Hn; eauto.
Qed.

Lemma group_ok_bump g : group_ok g → group_ok (bump g).
Proof. intros []. split; try done. apply u64_range. Qed.

Lemma group_ok_applied g e : legal_event g e → group_ok g → group_ok (applied options_ e g).
Proof.
  intros Hlegal [Hw Hl Hi Hr Hn Hb].
  pose proof (legal_known _ _ Hlegal) as Hk. pose proof (applied_inflight e g) as Happ.
  split.
  - by rewrite applied_wheel_length.
  - intros id Hs. rewrite applied_runtime. apply Happ in Hs; [|done].
    case_decide as Hd; [|by apply Hl]. subst id. destruct Hk as [rt Hrt]. rewrite Hrt.
    eexists; split; [done|]. by right.
  - intros id rt. rewrite applied_runtime, Happ by done. case_decide; [|by eauto].
    subst id. destruct Hk as [rt0 Hrt]. rewrite Hrt. intros; by simplify_eq/=.
  - intros id rt. rewrite applied_runtime. case_decide; [|by eauto]. subst id.
    destruct Hk as [rt0 Hrt]. rewrite Hrt. intros Heq Hlive. simplify_eq/=.
    destruct Hlegal as [rt1 H1 Hst Hev Hre|rt1 _ H1 Hev Hre|rt1 _ H1 Hev Hre Hmax|rt1 _ H1 Hev Hre];
      simplify_eq; unfold live in Hlive; cbn [state apply_runtime] in Hlive;
      rewrite Hev in Hlive; try (by destruct Hlive).
    rewrite Hre. apply (Hr (ev_id e)); [done|by left].
  - by rewrite applied_next.
  - by rewrite applied_base.
Qed.

Lemma legal_event_bump g e : legal_event g e → legal_event (bump g) e.
Proof.
  intros [].
  - eapply legal_deliver; done.
  - eapply legal_ack; done.
  - eapply legal_retry; done.
  - eapply legal_dead; done.
Qed.

Lemma group_run_ok g n es g' : group_run g n es g' → group_ok g → group_ok g'.
Proof.
  induction 1 as [|n es g1 g2 _ IH Hc|n es g1 _ IH|n es g1 e _ IH Hlegal Hseq]; intros Hok.
  - done.
  - by eapply group_ok_core, IH.
  - by apply group_ok_bump, IH.
  - apply group_ok_applied; [by apply legal_event_bump|]. by apply group_ok_bump, IH.
Qed.

(** How the holder of a lease, or its expiry, moves a message. *)
Inductive settlement (rt rt' : MessageRuntime) : Prop :=
  | settle_ack : state rt' = kAcked → retry_count rt' = retry_count rt → settlement rt rt'
  | settle_retry : state rt' = kReady → retry_count rt' = u32 (retry_count rt + 1) →
      retry_count rt' <= max_retry_count options_ → settlement rt rt'
  | settle_dead : state rt' = kDead →
      retry_count rt' = retry_count rt ∨
        (retry_count rt' = u32 (retry_count rt + 1) ∧ max_retry_count options_ < retry_count rt') →
      settlement rt rt'.

(** The documented life cycle: only a message in flight is settled. *)
Inductive edge (rt rt' : MessageRuntime) : Prop :=
  | edge_deliver : state rt = kReady → state rt' = kInFlight → retry_count rt' = retry_count rt →
      edge rt rt'
  | edge_settle : state rt = kInFlight → settlement rt rt' → edge rt rt'.

(** A message may be settled without having been delivered when it is ready
    but a lease of it was left over: recovery leaves such leases. *)
Definition stale_edge (g : ConsumerGroupState) (id : MessageId) (rt rt' : MessageRuntime) : Prop :=
  is_Some (inflight g !! id) ∧ state rt = kReady ∧ settlement rt rt'.

Lemma legal_live g e rt :
  group_ok g → legal_event g e → runtime g !! ev_id e = Some rt → live rt.
Proof.
  intros Hok Hlegal Hrt.
  assert (is_Some (inflight g !! ev_id e) → live rt) as Hl.
  { intros Hs. destruct (ok_lease _ Hok _ Hs) as (rt1 & ? & ?). by simplify_eq. }
  destruct Hlegal; simplify_eq; [by left|auto..].
Qed.

(** One event moves its message along an edge, or a stale one. *)
Lemma legal_edge g e rt :
  group_ok g → legal_event g e → runtime g !! ev_id e = Some rt →
  edge rt (apply_runtime e rt) ∨ stale_edge g (ev_id e) rt (apply_runtime e rt).
Proof.
  intros Hok Hlegal Hrt. pose proof (legal_live g e rt Hok Hlegal Hrt) as Hl.
  assert (is_Some (inflight g !! ev_id e) → settlement rt (apply_runtime e rt) →
    edge rt (apply_runtime e rt) ∨ stale_edge g (ev_id e) rt (apply_runtime e rt)) as Hsettle.
  { intros Hs Ht. destruct Hl as [Hst|Hst]; [by right|left; by apply edge_settle]. }
  destruct Hlegal as [rt1 H1 Hst Hev Hre|rt1 Hs H1 Hev Hre|rt1 Hs H1 Hev Hre Hmax|rt1 Hs H1 Hev Hre];
    simplify_eq.
  - left. by apply edge_deliver.
  - apply Hsettle; [done|]. by apply settle_ack.
  - apply Hsettle; [done|]. by apply settle_retry.
  - apply Hsettle; [done|]. by apply settle_dead.
Qed.

(** The way of a message from [rt] in group [g]: along edges, of which the
    first may be a stale one. *)
Definition path (g : ConsumerGroupState) (id : MessageId) (rt rt' : MessageRuntime) : Prop :=
  rtc edge rt rt' ∨ ∃ rt1, stale_edge g id rt rt1 ∧ rtc edge rt1 rt'.

Lemma path_edge g id rt rt1 rt2 : path g id rt rt1 → edge rt1 rt2 → path g id rt rt2.
Proof. intros [Hp|(rt0 & Hs & Hp)] He; [left|right; exists rt0; split; [done|]]; by eapply rtc_r. Qed.

Lemma terminal_not_live rt : terminal rt → ¬ live rt.
Proof. intros [H1|H1] [H2|H2]; congruence. Qed.

(** A run takes every message it concerns along edges, one for each of the
    message's events. *)
Lemma run_ind_msg (P : list TransitionEvent → MessageRuntime → Prop) g id rt :
  group_ok g → runtime g !! id = Some rt → P [] rt →
  (∀ n es g1 e rt1, group_run g n es g1 → legal_event g1 e → group_ok g1 →
     runtime g1 !! id = Some rt1 → P es rt1 →
     P (es ++ [e]) (if decide (id = ev_id e) then apply_runtime e rt1 else rt1)) →
  ∀ n es g', group_run g n es g' → ∃ rt', runtime g' !! id = Some rt' ∧ P es rt'.
Proof.
  intros Hok Hrt Hnil Hstep.
  induction 1 as [|n es g1 g2 Hrun (rt1 & Hrt1 & HP) Hc|n es g1 Hrun (rt1 & Hrt1 & HP)
                 |n es g1 e Hrun (rt1 & Hrt1 & HP) Hlegal Hseq].
  - by exists rt.
  - exists rt1. destruct Hc as (-> & _). done.
  - by exists rt1.
  - eexists. split; [|by eapply Hstep; [..|apply HP]; eauto using group_run_ok].
    rewrite applied_runtime. cbn. rewrite Hrt1. by destruct (decide (id = ev_id e)).
Qed.

(** ** Replaying the events of a run *)

(** The last event of a message decides its entry. *)
Definition replayed (es : list TransitionEvent) (m : gmap MessageId MessageRuntime)
    : gmap MessageId MessageRuntime :=
  foldl (λ m e, alter (apply_runtime e) (ev_id e) m) m es.

Lemma replayed_app es es' m : replayed (es ++ es') m = replayed es' (replayed es m).
Proof. unfold replayed. by rewrite foldl_app. Qed.

Lemma applied_alter e g :
  runtime (applied options_ e g) = alter (apply_runtime e) (ev_id e) (runtime g).
Proof.
  apply map_eq. intros i. rewrite applied_runtime, lookup_alter.
  destruct (decide (i = ev_id e)); destruct (decide (ev_id e = i)); congruence.
Qed.

(** What the events of a run do to the runtime map is what replaying them
    does. *)
Lemma group_run_replayed g n es g' :
  group_run g n es g' → runtime g' = replayed es (runtime g).
Proof.
  induction 1 as [|n es g1 g2 _ IH (Hr & _)|n es g1 _ IH|n es g1 e _ IH Hlegal Hseq].
  - done.
  - by rewrite Hr.
  - done.
  - rewrite replayed_app, applied_alter. cbn. by rewrite IH.
Qed.

(** ** Coherence *)

Lemma coherent_applied g e :
  legal_event g e → coherent g → coherent (applied options_ e g).
Proof.
  intros Hlegal Hc id rt. rewrite applied_runtime.
  rewrite (applied_inflight e g id (legal_known _ _ Hlegal)).
  case_decide; [|by eauto]. intros Hrt Hst. subst id.
  destruct (legal_known _ _ Hlegal) as [rt0 Hrt0]. rewrite Hrt0 in Hrt. by simplify_eq/=.
Qed.

Lemma group_run_coherent g n es g' : group_run g n es g' → coherent g → coherent g'.
Proof.
  induction 1 as [|n es g1 g2 _ IH (Hr & Hi & _)|n es g1 _ IH|n es g1 e _ IH Hlegal Hseq];
    intros Hc.
  - done.
  - intros id rt. rewrite Hr, Hi. by apply IH.
  - intros id rt. by apply IH.
  - apply coherent_applied; [by apply legal_event_bump|]. intros id rt. by apply IH.
Qed.

(** ** Budgets of deliveries *)

Definition deliveries (id : MessageId) (es : list TransitionEvent) : Z :=
  Z.of_nat (length (filter (λ e, ev_id e = id ∧ ev_state e = kInFlight) es)).

(** How many more times a message may be delivered. *)
Definition budget (rt : MessageRuntime) : Z :=
  match state rt with
  | kReady => max_retry_count options_ + 1 - retry_count rt
  | kInFlight => max_retry_count options_ - retry_count rt
  | _ => 0
  end.

Lemma deliveries_snoc id es e :
  deliveries id (es ++ [e]) =
  deliveries id es + (if decide (ev_id e = id ∧ ev_state e = kInFlight) then 1 else 0).
Proof.
  unfold deliveries. rewrite filter_app, length_app. simpl.
  destruct (decide (ev_id e = id ∧ ev_state e = kInFlight)) as [Hd|Hd].
  - rewrite filter_cons_True by done. simpl. lia.
  - rewrite filter_cons_False by done. simpl. lia.
Qed.

Lemma budget_nonneg g id rt : group_ok g → runtime g !! id = Some rt → 0 <= budget rt.
Proof.
  intros Hok Hrt. unfold budget. pose proof (ok_retry _ Hok _ _ Hrt) as Hr. unfold live in Hr.
  destruct (state rt); try lia; specialize (Hr ltac:(auto)); lia.
Qed.

Lemma budget_edge g e rt :
  group_ok g → coherent g → legal_event g e → runtime g !! ev_id e = Some rt →
  0 <= max_retry_count options_ < 2 ^ 32 - 1 → 0 <= retry_count rt →
  0 <= ev_retry_count e ∧
  (if decide (ev_state e = kInFlight) then 1 else 0) + budget (apply_runtime e rt) <= budget rt.
Proof.
  intros Hok Hcoh Hlegal Hrt Hmax Hr.
  pose proof (budget_nonneg _ _ _ Hok Hrt) as Hb.
  pose proof (ok_retry _ Hok _ _ Hrt) as Hle.
  destruct Hlegal as [rt1 H1 Hst Hev Hre|rt1 Hs H1 Hev Hre|rt1 Hs H1 Hev Hre Hm|rt1 Hs H1 Hev Hre];
    simplify_eq; unfold budget at 1; cbn [state apply_runtime retry_count]; rewrite Hev, ?Hre;
    (destruct (decide _); [|try done]); try done.
  - unfold budget. rewrite Hst. lia.
  - pose proof (Hcoh _ _ H1 Hs) as Hst. unfold budget. rewrite Hst.
    specialize (Hle ltac:(by right)). rewrite u32_small; lia.
  - split; [|lia]. destruct Hre as [->|[-> _]]; [done|apply u32_range].
Qed.
End lifecycle.

(** ** Properties *)

(** Every run keeps the invariant of a group (a wheel of 512 slots, leases
    of known and live messages only, a lease for every message in flight, live
    messages within the retry limit), and a group in which exactly the
    messages in flight are leased stays so. *)
Theorem run_keeps_invariant options_ g n es g' :
  group_run options_ g n es g' → group_ok options_ g →
  group_ok options_ g' ∧ (coherent g → coherent g').
Proof. intros Hrun Hok. split; [by eapply group_run_ok|by eapply group_run_coherent]. Qed.

(** An acknowledged or dead message stays exactly as it is: no run of events
    changes its entry, leases it or delivers it. *)
Theorem terminal_absorbing options_ g n es g' id rt :
  group_run options_ g n es g' → group_ok options_ g →
  runtime g !! id = Some rt → terminal rt →
  runtime g' !! id = Some rt ∧ inflight g' !! id = None ∧ deliveries id es = 0.
Proof.
  intros Hrun Hok Hrt Hterm.
  pose proof (run_ind_msg options_ (λ es rt', rt' = rt ∧ deliveries id es = 0) g id rt Hok Hrt
    (conj eq_refl eq_refl)) as Hind.
  destruct (Hind ltac:(
    intros m fs g1 e rt1 _ Hlegal Hok1 Hrt1 [-> Hz]; rewrite deliveries_snoc, Hz; case_decide;
    [subst id; destruct (terminal_not_live _ Hterm); eapply legal_live; eauto
    |by rewrite decide_False by (intros [? _]; congruence)]) _ _ _ Hrun)
    as (rt' & Hrt' & -> & Hz).
  split; [done|]. split; [|done]. apply eq_None_not_Some. intros Hs.
  destruct (ok_lease _ _ (group_run_ok _ _ _ _ _ Hrun Hok) _ Hs) as (rt1 & ? & Hl).
  simplify_eq. by apply (terminal_not_live rt).
Qed.

(** A message the group does not know is never delivered by a run. *)
Lemma unknown_undelivered options_ g n es g' id :
  group_run options_ g n es g' → runtime g !! id = None →
  runtime g' !! id = None ∧ deliveries id es = 0.
Proof.
  intros Hrun Hid.
  induction Hrun as [|n es g1 g2 _ IH (Hr & _)|n es g1 _ IH|n es g1 e _ IH Hlegal Hseq];
    [done|by rewrite Hr|done|]. destruct IH as [Hn Hz].
  rewrite applied_runtime, deliveries_snoc, Hz. cbn.
  destruct (legal_known _ _ _ Hlegal) as [rt Hrt].
  assert (ev_id e ≠ id) as Hne by congruence.
  rewrite decide_False by congruence. by rewrite decide_False by (by intros [? _]).
Qed.

(** The events of a run carry strictly increasing sequence numbers, all taken
    between the group's counter before and after, as long as the 64-bit
    counter does not wrap; a number lost to a failed append is never reused. *)
Theorem run_sequences options_ g n es g' :
  group_run options_ g n es g' → is_u64 (next_sequence g) →
  next_sequence g + Z.of_nat n < 2 ^ 64 →
  next_sequence g' = next_sequence g + Z.of_nat n ∧
  Forall (λ e, next_sequence g <= ev_sequence e < next_sequence g') es ∧
  StronglySorted Z.lt (map ev_sequence es).
Proof.
  intros Hrun Hg.
  induction Hrun as [|n es g1 g2 _ IH (_ & _ & _ & Hn & _)|n es g1 _ IH|n es g1 e _ IH Hlegal Hseq];
    intros Hlim.
  - split_and!; [lia|constructor..].
  - rewrite Hn. by apply IH.
  - destruct IH as (Hn & Hf & Hs); [lia|]. cbn. rewrite u64_small by lia. split_and!; [lia| |done].
    eapply Forall_impl; [done|]. simpl. lia.
  - destruct IH as (Hn & Hf & Hs); [lia|]. rewrite applied_next. cbn. rewrite u64_small by lia.
    split_and!; [lia| |].
    + apply Forall_app; split; [|apply Forall_singleton; lia].
      eapply Forall_impl; [done|]. simpl. lia.
    + rewrite map_app. apply StronglySorted_app. split_and!; [|done|repeat constructor].
      intros x y (e1 & -> & He1)%list_elem_of_fmap ->%list_elem_of_singleton.
      rewrite Forall_forall in Hf. apply Hf in He1. lia.
Qed.

(** Between two restarts no message is delivered more often than its budget:
    a message that is ready with [r] retries used up is delivered at most
    [max_retry_count + 1 - r] times, whatever is rejected or times out. *)
Theorem delivery_bound options_ g n es g' id rt :
  group_run options_ g n es g' → group_ok options_ g → coherent g →
  0 <= max_retry_count options_ < 2 ^ 32 - 1 →
  runtime g !! id = Some rt → 0 <= retry_count rt →
  deliveries id es <= budget options_ rt.
Proof.
  intros Hrun Hok Hcoh Hmax Hrt Hr.
  pose proof (run_ind_msg options_ (λ es rt', 0 <= retry_count rt' ∧
    deliveries id es + budget options_ rt' <= budget options_ rt) g id rt Hok Hrt) as Hind.
  destruct (Hind ltac:(split; [done|unfold deliveries; simpl; lia]) ltac:(
    intros m fs g1 e rt1 Hrun1 Hlegal Hok1 Hrt1 [Hr1 Hb]; rewrite deliveries_snoc;
    case_decide as Hid; [subst id;
      pose proof (budget_edge _ g1 e rt1 Hok1 (group_run_coherent _ _ _ _ _ Hrun1 Hcoh) Hlegal
        Hrt1 Hmax Hr1) as [? Hbe];
      split; [done|]; destruct (decide (_ ∧ _)) as [[_ ?]|Hn]; destruct (decide (_ = kInFlight));
      try lia; try (by destruct Hn); congruence
    | rewrite decide_False by (intros [? _]; congruence); split; [done|lia]]) _ _ _ Hrun)
    as (rt' & Hrt' & _ & Hb).
  pose proof (budget_nonneg _ _ _ _ (group_run_ok _ _ _ _ _ Hrun Hok) Hrt'). lia.
Qed.

(** Until the first event of a message its lease is the one it had; after it,
    it is leased only while it is in flight. *)
Lemma run_path options_ g n es g' id rt :
  group_run options_ g n es g' → group_ok options_ g → runtime g !! id = Some rt →
  ∃ rt', runtime g' !! id = Some rt' ∧ path options_ g id rt rt' ∧
    ((rt' = rt ∧ inflight g' !! id = inflight g !! id) ∨
     (is_Some (inflight g' !! id) → state rt' = kInFlight)).
Proof.
  intros Hrun Hok Hrt.
  induction Hrun as [|n es g1 g2 _ (rt1 & Hrt1 & Hp & Hl) (Hr & Hi & _)|n es g1 _ IH
                    |n es g1 e Hrun (rt1 & Hrt1 & Hp & Hl) Hlegal Hseq].
  - exists rt. split; [done|]. split; [left; apply rtc_refl|by left].
  - exists rt1. by rewrite Hr, Hi.
  - exact IH.
  - pose proof (group_run_ok _ _ _ _ _ Hrun Hok) as Hok1.
    pose proof (legal_known _ _ _ Hlegal) as Hknown.
    destruct (decide (id = ev_id e)) as [->|Hne].
    + exists (apply_runtime e rt1). rewrite applied_runtime, decide_True by done. cbn [bump set_next_sequence runtime].
      rewrite Hrt1. split; [done|]. split.
      * destruct (legal_edge options_ g1 e rt1 Hok1 Hlegal Hrt1) as [He|(Hs & Hst & Ht)].
        { by eapply path_edge. }
        destruct Hl as [[-> Hin]|Hl]; [|apply Hl in Hs; congruence].
        right. eexists. split; [|apply rtc_refl]. by rewrite Hin in Hs.
      * right. rewrite applied_inflight by exact Hknown. by rewrite decide_True.
    + exists rt1. rewrite applied_runtime, decide_False, applied_inflight_ne by done. done.
Qed.

(** The engine implements the documented state machine: a run neither forgets
    nor invents a message, and takes each one along zero or more edges
    Ready -> InFlight -> Acked / Ready (one more retry, within the limit) /
    Dead; only a message that was ready and leased at the beginning may be
    settled once without being delivered first. *)
Theorem run_refines_lifecycle options_ g n es g' :
  group_run options_ g n es g' → group_ok options_ g →
  dom (runtime g') = dom (runtime g) ∧
  ∀ id rt, runtime g !! id = Some rt →
    ∃ rt', runtime g' !! id = Some rt' ∧ path options_ g id rt rt'.
Proof.
  intros Hrun Hok. split.
  - clear Hok. induction Hrun as [|n es g1 g2 _ IH (Hr & _)|n es g1 _ IH|n es g1 e _ IH Hlegal Hseq];
      [done|by rewrite Hr|done|].
    rewrite <-IH. apply set_eq. intros id. rewrite !elem_of_dom, applied_runtime. cbn.
    case_decide; [|done]. by rewrite fmap_is_Some.
  - intros id rt Hrt. destruct (run_path _ _ _ _ _ _ _ Hrun Hok Hrt) as (rt' & Hrt' & Hp & _).
    by exists rt'.
Qed.

(** Nobody holds a stale lease where leases and messages in flight agree. *)
Lemma coherent_path options_ g id rt rt' :
  coherent g → runtime g !! id = Some rt → path options_ g id rt rt' → rtc (edge options_) rt rt'.
Proof.
  intros Hc Hrt [Hp|(rt1 & (Hs & Hst & _) & _)]; [done|]. by rewrite (Hc id rt Hrt Hs) in Hst.
Qed.

(** ** A small run *)

Section demo.
Definition demo_id : MessageId := mkId 7 9.
Definition demo_rt : MessageRuntime := mkRuntime kReady 0 0 5 5 5 0 "recovered-default-ready".
Definition demo_group : ConsumerGroupState :=
  mkGroup [0] ∅ {[demo_id := demo_rt]} (replicate kWheelSlots []) 0 1
    (mkCheckpointStore "/d/q/g.checkpoint" kAlways).
Definition demo_deliver : TransitionEvent :=
  mkEvent 1 demo_id kInFlight 0 10 10 30010 "g" "7:9:1" kDelivered.
Definition demo_ack : TransitionEvent := mkEvent 2 demo_id kAcked 0 0 20 0 "" "" kReasonAcked.
Definition demo_leased : ConsumerGroupState :=
  applied default_options demo_deliver (bump demo_group).
Definition demo_done : ConsumerGroupState := applied default_options demo_ack (bump demo_leased).

Lemma demo_lookup id rt : runtime demo_group !! id = Some rt → id = demo_id ∧ rt = demo_rt.
Proof.
  change (runtime demo_group) with ({[demo_id := demo_rt]} : gmap MessageId MessageRuntime).
  by intros [<- <-]%lookup_singleton_Some.
Qed.

Lemma demo_ok : group_ok default_options demo_group.
Proof.
  split; [done|..].
  - intros id. unfold demo_group. cbn. rewrite lookup_empty. by intros [].
  - by intros id rt [-> ->]%demo_lookup.
  - by intros id rt [-> ->]%demo_lookup.
  - simpl. lia.
  - simpl. lia.
Qed.

Lemma demo_coherent : coherent demo_group.
Proof. intros id rt _. unfold demo_group. cbn. rewrite lookup_empty. by intros []. Qed.

Lemma demo_delivered : group_run default_options demo_group 1 [demo_deliver] demo_leased.
Proof.
  apply (run_event _ _ 0 []); [apply run_nil| |done].
  by eapply (legal_deliver _ _ _ demo_rt).
Qed.

Lemma demo_run : group_run default_options demo_group 2 [demo_deliver; demo_ack] demo_done.
Proof.
  apply (run_event _ _ 1 [demo_deliver]); [apply demo_delivered| |done].
  eapply (legal_ack _ _ _ (apply_runtime demo_deliver demo_rt)); [|done..]. by eexists.
Qed.
End demo.
