(* ===== verification/HandlerSpecs.v ===== *)
(** * The handlers are runs of the life cycle

    For every environment (any refused or shortened system call, any
    failpoint, any map order), what [Handlers] and the expiry loop of [Group]
    do to a group is a run of [Lifecycle.group_run]; when nothing is refused
    the events of the run are exactly the bytes added to the transition log.
    On top of that, the result of each handler branch by branch. *)
From S2P Require Import Prelude Status Io DurableIo Record SegmentLog Checkpoint Message EventLog.
From S2P Require Import Group Lifecycle Handlers.

(** ** Paths *)

Lemma string_app_assoc (a b c : string) : (a +:+ b) +:+ c = a +:+ b +:+ c.
Proof. induction a as [|ch a IH]; [done|]. exact (f_equal (String ch) IH). Qed.

Lemma prefix_slash_app b y :
  String.prefix "/" y = false → String.prefix "/" (b +:+ y) = String.prefix "/" b.
Proof.
  destruct b as [|ch b]; [done|]. change (String ch b +:+ y) with (String ch (b +:+ y)).
  cbn [String.prefix]. case_match; [|done]. by destruct b, y.
Qed.

(** Files of one directory are told apart by their suffixes. *)
Lemma path_join_suffix a b :
  ∃ c, ∀ y, String.prefix "/" y = false → path_join a (b +:+ y) = c +:+ b +:+ y.
Proof.
  unfold path_join. destruct (String.prefix "/" b) eqn:Hp.
  { exists "". intros y Hy. by rewrite prefix_slash_app, Hp by done. }
  destruct (bytes_of_string a).
  { exists "". intros y Hy. by rewrite prefix_slash_app, Hp by done. }
  case_bool_decide; [exists a|exists (a +:+ "/")]; intros y Hy;
  rewrite prefix_slash_app, Hp by done; [done|by rewrite string_app_assoc].
Qed.

Section paths.
Context (options_ : EngineOptions) (queue_name group_id : string).

Lemma event_path_ne :
  GroupEventPath options_ queue_name group_id ≠ GroupStatePath options_ queue_name group_id ∧
  GroupEventPath options_ queue_name group_id ≠ GroupStatePath options_ queue_name group_id +:+ ".tmp".
Proof.
  unfold GroupEventPath, GroupStatePath.
  destruct (path_join_suffix (path_join (data_dir options_) queue_name) group_id)
    as [c Hc].
  rewrite !Hc by done. rewrite !string_app_assoc.
  split; intros Heq; do 2 apply (inj (String.append _)) in Heq; done.
Qed.
End paths.

(** The clock never reads the last value of a 64-bit counter: at it the loop
    over the ticks would wrap around and not end. *)
Definition clock_bounded `{Env} : Prop := ∀ n, u64 (clock n) < UINT64_MAX.

(** ** Events as the handlers make them *)

(** Times in their range, a reason of the engine, and an owner and a lease
    token exactly on deliveries. *)
Definition stamped (group_id : string) (e : TransitionEvent) : Prop :=
  is_u64 (ev_available_after_ms e) ∧ is_u64 (ev_transition_ts e) ∧ is_u64 (ev_deadline_ms e) ∧
  known_reason (ev_reason e) ∧
  if decide (ev_state e = kInFlight)
  then ev_owner e = group_id ∧ ev_lease_token e = make_token (ev_id e) (ev_sequence e)
  else ev_owner e = "" ∧ ev_lease_token e = "".

Ltac stamped_solve := unfold stamped; cbn; split_and!; first [done|apply u64_range|lia].

Lemma deliver_stamped options_ group_id t seq id rt :
  is_u64 t → stamped group_id (deliver_event options_ group_id t seq id rt).
Proof. intros Ht. stamped_solve. Qed.

Lemma timeout_stamped options_ group_id t seq id rt :
  is_u64 t → stamped group_id (timeout_event options_ t seq id rt).
Proof.
  intros Ht. unfold timeout_event. destruct (_ <? _); stamped_solve.
Qed.

Lemma ack_stamped group_id t seq id rt : is_u64 t → stamped group_id (ack_event t seq id rt).
Proof. intros Ht. stamped_solve. Qed.

(** ** The entries of the wheel *)

(** How many entries the wheel holds: how many leases the next passes over
    it may take back. *)
Definition wheel_entries (g : ConsumerGroupState) : Z :=
  Z.of_nat (length (concat (deadline_wheel g))).

Lemma concat_alter_snoc {A} (x : A) (i : nat) (ls : list (list A)) :
  (length (concat (alter (λ l, l ++ [x]) i ls)) <= S (length (concat ls)))%nat.
Proof.
  revert i; induction ls as [|l ls IH]; intros i; [simpl; lia|].
  destruct i as [|i]; simpl; rewrite !length_app; simpl; [lia|].
  specialize (IH i). unfold alter in IH. lia.
Qed.

Lemma concat_insert_nil {A} (i : nat) (ls : list (list A)) :
  (length (concat (<[i := []]> ls)) + length (default [] (ls !! i)) = length (concat ls))%nat.
Proof.
  revert i; induction ls as [|l ls IH]; intros i; [done|].
  destruct i as [|i]; simpl; rewrite !length_app; simpl; [lia|].
  specialize (IH i). lia.
Qed.

Lemma entries_push id tick g : wheel_entries (push_wheel id tick g) <= wheel_entries g + 1.
Proof.
  unfold wheel_entries, push_wheel. cbn [deadline_wheel set_wheel].
  pose proof (concat_alter_snoc id (Z.to_nat (tick mod Z.of_nat (length (deadline_wheel g))))
    (deadline_wheel g)). lia.
Qed.

(** An event takes a number, and a place on the wheel when it is a
    delivery. *)
Definition event_cost (e : TransitionEvent) : Z := if decide (ev_state e = kInFlight) then 2 else 1.

Lemma entries_applied options_ e g : 1 + wheel_entries (applied options_ e g) <= wheel_entries g + event_cost e.
Proof.
  unfold applied, event_cost. destruct (runtime g !! ev_id e); [|case_decide; lia].
  destruct (ev_state e); [change (1 + wheel_entries g <= wheel_entries g + 1); lia| |
                          change (1 + wheel_entries g <= wheel_entries g + 1); lia..].
  change (1 + wheel_entries (push_wheel (ev_id e) (ev_deadline_ms e / tick_ms options_) g) <=
    wheel_entries g + 2).
  pose proof (entries_push (ev_id e) (ev_deadline_ms e / tick_ms options_) g). lia.
Qed.

(** ** Progress *)

Section progress.
Context `{Env}.
Context (options_ : EngineOptions) (queue_name group_id : string).

Abbreviation event_path := (GroupEventPath options_ queue_name group_id).
Abbreviation state_path := (GroupStatePath options_ queue_name group_id).
Abbreviation group_ok := (group_ok options_).

(** The files that are not the group's. *)
Definition foreign (p : string) : Prop :=
  p ≠ event_path ∧ p ≠ state_path ∧ p ≠ state_path +:+ ".tmp".

(** The snapshot file was left alone, or it holds the group as it was at some
    point of the run. *)
Definition snapshots (w : World) (g : ConsumerGroupState) (es : list TransitionEvent) (w' : World)
    (g' : ConsumerGroupState) : Prop :=
  files w' !! state_path = files w !! state_path ∨
  ∃ n1 es1 g1 n2 es2 items, es = es1 ++ es2 ∧
    group_run options_ g n1 es1 g1 ∧ group_run options_ g1 n2 es2 g' ∧
    items ≡ₚ map_to_list (runtime g1) ∧
    files w' !! state_path = Some (encode_snapshot (next_sequence g1) items).

(** The group moved along a run, logging its events and storing snapshots of
    itself; no file that is not the group's was touched.  The numbers taken
    are at most [k] and the entries that left the wheel. *)
Definition progress (k : Z) (w : World) (g : ConsumerGroupState) (w' : World) (g' : ConsumerGroupState)
    : Prop :=
  ∃ n es, group_run options_ g n es g' ∧
    (∀ p, foreign p → files w' !! p = files w !! p) ∧
    (calm_run → file_bytes w' event_path =
                file_bytes w event_path ++ concat (map encode_event es)) ∧
    Forall (stamped group_id) es ∧ snapshots w g es w' g' ∧
    Z.of_nat n + wheel_entries g' <= wheel_entries g + k.

Lemma snapshots_trans w g n1 es1 w1 g1 n2 es2 w2 g2 :
  group_run options_ g n1 es1 g1 → group_run options_ g1 n2 es2 g2 →
  snapshots w g es1 w1 g1 → snapshots w1 g1 es2 w2 g2 → snapshots w g (es1 ++ es2) w2 g2.
Proof.
  intros Hr1 Hr2 Hs1 [Hs2|(m1 & fs1 & h & m2 & fs2 & items & -> & Hh1 & Hh2 & Hitems & Hs2)].
  - unfold snapshots. rewrite Hs2.
    destruct Hs1 as [?|(m1 & fs1 & h & m2 & fs2 & items & -> & Hh1 & Hh2 & Hitems & Hs1)]; [by left|].
    right. exists m1, fs1, h, (m2 + n2)%nat, (fs2 ++ es2), items.
    rewrite app_assoc. split_and!; try done. by eapply group_run_trans.
  - right. exists (n1 + m1)%nat, (es1 ++ fs1), h, m2, fs2, items.
    rewrite app_assoc. split_and!; try done. by eapply group_run_trans.
Qed.

Lemma progress_wheel k w g w' g' :
  files w' = files w → same_core g g' → wheel_entries g' <= wheel_entries g + k → progress k w g w' g'.
Proof.
  intros Hf Hc Hk. exists 0%nat, []. split_and!; [by apply run_same|by rewrite Hf| |done| |lia].
  - intros _. unfold file_bytes. rewrite Hf. simpl. by rewrite app_nil_r.
  - left. by rewrite Hf.
Qed.

Lemma progress_same k w g w' g' :
  files w' = files w → same_core g g' → deadline_wheel g' = deadline_wheel g → 0 <= k →
  progress k w g w' g'.
Proof. intros Hf Hc Hw Hk. apply progress_wheel; [done..|]. unfold wheel_entries. rewrite Hw. lia. Qed.

Lemma progress_le k k' w g w' g' : progress k w g w' g' → k <= k' → progress k' w g w' g'.
Proof.
  intros (n & es & ? & ? & ? & ? & ? & ?) Hk. exists n, es. split_and!; [done..|lia].
Qed.

Lemma progress_trans k1 k2 k w g w1 g1 w2 g2 :
  progress k1 w g w1 g1 → progress k2 w1 g1 w2 g2 → k1 + k2 <= k → progress k w g w2 g2.
Proof.
  intros (n1 & es1 & H1 & Hf1 & Hc1 & Hw1 & Hs1 & Hk1) (n2 & es2 & H2 & Hf2 & Hc2 & Hw2 & Hs2 & Hk2) Hk.
  exists (n1 + n2)%nat, (es1 ++ es2). split_and!; [by eapply group_run_trans| | | | |lia].
  - intros p Hp. by rewrite Hf2, Hf1.
  - intros calm. by rewrite Hc2, Hc1, map_app, concat_app, app_assoc.
  - by apply Forall_app.
  - by eapply snapshots_trans.
Qed.

(** Reading a clock or rebuilding the ready queue, after progress or before
    it. *)
Lemma progress_then k w g w1 g1 w2 g2 :
  progress k w g w1 g1 → files w2 = files w1 → same_core g1 g2 →
  deadline_wheel g2 = deadline_wheel g1 → progress k w g w2 g2.
Proof. intros Hp Hf Hc Hw. eapply progress_trans; [done|by apply (progress_same 0)|lia]. Qed.

Lemma progress_before k w g w1 g1 w2 g2 :
  files w1 = files w → same_core g g1 → deadline_wheel g1 = deadline_wheel g →
  progress k w1 g1 w2 g2 → progress k w g w2 g2.
Proof. intros Hf Hc Hw Hp. eapply progress_trans; [by apply (progress_same 0)|done|lia]. Qed.

Lemma progress_ok k w g w' g' : progress k w g w' g' → group_ok g → group_ok g'.
Proof. intros (n & es & Hrun & _) Hok. by eapply group_run_ok. Qed.

(** Taking a number and appending a legal event with it. *)
Lemma wp_logged e (Q : outcome unit → World * ConsumerGroupState → Prop) w g :
  group_ok g → legal_event options_ g e → ev_sequence e = next_sequence g → stamped group_id e →
  (∀ o w', ¬ calm_run → append_refused o → progress 1 w g w' (bump g) →
     clock_reads w' = clock_reads w → Q o (w', bump g)) →
  (∀ w', progress (event_cost e) w g w' (applied options_ e (bump g)) →
     appended event_path (encode_event e) w w' → Q (Good tt) (w', applied options_ e (bump g))) →
  wp (AppendTransition options_ queue_name group_id e) Q (w, bump g).
Proof.
  intros Hok Hlegal Hseq Hstamp Hbad Hgood. pose proof (group_ok_wheel _ _ Hok) as Hwheel.
  destruct (event_path_ne options_ queue_name group_id) as [Hne _].
  assert (∀ w', appended event_path (encode_event e) w w' →
    progress (event_cost e) w g w' (applied options_ e (bump g))) as Hdone.
  { intros w' [(Hf & _) Hb]. exists 1%nat, [e].
    split_and!; [by apply (run_event _ _ 0 []); [apply run_nil|..]|by intros p [? _]; apply Hf| | | |].
    - intros _. simpl. by rewrite app_nil_r.
    - by apply Forall_singleton.
    - left. by apply Hf.
    - apply (entries_applied options_ e (bump g)). }
  apply wp_elim. intros o s' Hrun.
  assert (calm_run → o = Good tt) as Hcalm.
  { intros calm. refine (wp_intro _ (λ o _, o = Good tt) _ _ _ _ Hrun).
    by apply (calm_AppendTransition options_ queue_name group_id calm). }
  refine (wp_intro _ (λ o s', (calm_run → o = Good tt) → Q o s') _ _ _ _ Hrun Hcalm).
  apply wp_AppendTransition; [done| |by auto].
  intros o' w' part Ho Hp [Hp' Hb] Hc. pose proof Hp' as (Hf & _).
  assert (¬ calm_run) as Hn by (by intros calm; rewrite (Hc calm) in Ho).
  apply Hbad; [done..| |apply Hp']. exists 1%nat, [].
  split_and!; [apply run_lost, run_nil|by intros p [? _]; apply Hf|done..|left; by apply Hf|].
  change (wheel_entries (bump g)) with (wheel_entries g). lia.
Qed.

(** A call that some refusal of the environment made fail. *)
Definition refused {A} (o : outcome A) : Prop :=
  ¬ calm_run ∧ match o with Good _ => False | _ => True end.

Lemma failpoint_refused name {A} c m : FailpointActive name = true → refused (A := A) (Fail (mkStatus c m)).
Proof. intros Hfp. split; [|done]. intros calm. by rewrite (calm_failpoint calm) in Hfp. Qed.

(** A sequence number taken for an event that is never logged. *)
Lemma progress_lost w g : progress 1 w g w (bump g).
Proof.
  exists 1%nat, []. split_and!; [apply run_lost, run_nil|done| |done|by left|].
  - intros _. simpl. by rewrite app_nil_r.
  - change (wheel_entries (bump g)) with (wheel_entries g). lia.
Qed.

Lemma progress_persist items w g o w' :
  items ≡ₚ map_to_list (runtime g) →
  replaced state_path (encode_snapshot (next_sequence g) items) w o w' → progress 0 w g w' g.
Proof.
  intros Hitems (Hst & _ & Hf & _). exists 0%nat, [].
  split_and!; [apply run_nil|by intros p (_ & ? & ?); apply Hf| |done| |lia].
  - intros _. destruct (event_path_ne options_ queue_name group_id) as [Hn1 Hn2].
    unfold file_bytes. rewrite Hf by done. simpl. by rewrite app_nil_r.
  - destruct Hst as [?|Hst]; [by left|]. right. exists 0%nat, [], g, 0%nat, [], items.
    split_and!; [done|apply run_nil..|done|done].
Qed.

Lemma wp_persisted (Q : outcome unit → World * ConsumerGroupState → Prop) w g :
  (∀ o w', refused o → progress 0 w g w' g → Q o (w', g)) →
  (∀ w' items, items ≡ₚ map_to_list (runtime g) → progress 0 w g w' g →
     files w' !! state_path = Some (encode_snapshot (next_sequence g) items) →
     files w' !! event_path = files w !! event_path → Q (Good tt) (w', g)) →
  wp (PersistGroupState options_ queue_name group_id) Q (w, g).
Proof.
  intros Hbad Hgood. apply wp_elim. intros o s' Hrun.
  assert (calm_run → o = Good tt) as Hcalm.
  { intros calm. refine (wp_intro _ (λ o _, o = Good tt) _ _ _ _ Hrun).
    by apply (calm_PersistGroupState options_ queue_name group_id calm). }
  refine (wp_intro _ (λ o s', (calm_run → o = Good tt) → Q o s') _ _ _ _ Hrun Hcalm).
  apply wp_PersistGroupState. intros o' w' items Hp Hr Hc.
  pose proof (progress_persist _ _ g _ _ Hp Hr) as Hprog. destruct o' as [[]|e|e].
  - destruct (event_path_ne options_ queue_name group_id). destruct Hr as (_ & Hr & Hf & _).
    eapply Hgood; [done..|by apply Hr|by apply Hf].
  - apply Hbad; [|done]. split; [by intros ?%Hc|done].
  - apply Hbad; [|done]. split; [by intros ?%Hc|done].
Qed.

Lemma wp_read_or_refused rs post i r (Q : outcome Record_ → World → Prop) w s :
  indexed rs s → files w !! path_ s = Some (log_bytes rs ++ post) → rs !! i = Some r →
  (∀ e w', io_only w w' → ¬ calm_run → Q (Fail e) w') →
  (∀ w', io_only w w' → Q (Good (stored r)) w') →
  wp (Read s (Z.of_nat i)) Q w.
Proof.
  intros Hidx Hfile Hi Hbad Hgood. apply wp_elim. intros o w' Hrun.
  assert (calm_run → o = Good (stored r)) as Hcalm.
  { intros [calm _]. refine (wp_intro _ (λ o _, o = Good (stored r)) _ _ _ _ Hrun).
    by eapply (wp_Read calm). }
  refine (wp_intro _ (λ o s', (calm_run → o = Good (stored r)) → Q o s') _ _ _ _ Hrun Hcalm).
  eapply wp_Read_any; [done..|]. intros w1 out H1 [->|[e ->]] Hc; [by apply Hgood|].
  apply Hbad; [done|]. by intros ?%Hc.
Qed.
End progress.

(** Two steps of a group, one after the other. *)
Ltac progress_by :=
  match goal with
  | H1 : @progress _ _ _ _ _ ?w ?g ?w1 ?g1, H2 : @progress _ _ _ _ _ ?w1 ?g1 ?w2 ?g2
    |- @progress _ _ _ _ _ ?w ?g ?w2 ?g2 => eapply progress_trans; [exact H1|exact H2|simpl; lia]
  end.

(** ** Expiry *)

Section reap.
Context `{Env}.
Context (options_ : EngineOptions) (queue_name group_id : string).

Abbreviation event_path := (GroupEventPath options_ queue_name group_id).
Abbreviation group_ok := (group_ok options_).
Abbreviation progress := (progress options_ queue_name group_id).

(** The only way out of the expiry loop besides its end is the exception of
    [create_directories]. *)
Definition reaped {A} (o : outcome A) : Prop :=
  (calm_run → ∃ a, o = Good a) ∧
  match o with Good _ => True | Fail _ => False | Throw e => e = "filesystem_error" end.

Lemma push_wheel_core id tick g : same_core g (push_wheel id tick g).
Proof. unfold same_core, push_wheel. cbn. by rewrite length_alter. Qed.

Lemma timeout_legal t id rt g :
  is_Some (inflight g !! id) → runtime g !! id = Some rt →
  legal_event options_ g (timeout_event options_ t (next_sequence g) id rt).
Proof.
  intros Hs Hrt. unfold timeout_event.
  destruct (Z.ltb_spec (max_retry_count options_) (u32 (retry_count rt + 1))).
  - by eapply legal_dead; eauto.
  - by eapply legal_retry.
Qed.

Lemma timeout_event_seq t seq id rt : ev_sequence (timeout_event options_ t seq id rt) = seq.
Proof. unfold timeout_event. by case_match. Qed.

Lemma timeout_event_id t seq id rt : ev_id (timeout_event options_ t seq id rt) = id.
Proof. unfold timeout_event. by case_match. Qed.

Lemma timeout_event_cost t seq id rt : event_cost (timeout_event options_ t seq id rt) = 1.
Proof. unfold timeout_event. by case_match. Qed.

Lemma wp_reap_id t id (Q : outcome unit → World * ConsumerGroupState → Prop) w g :
  is_u64 t → group_ok g →
  (∀ o w' g', reaped o → progress 1 w g w' g' → wheel_base_tick g' = wheel_base_tick g →
     clock_reads w' = clock_reads w → Q o (w', g')) →
  wp (reap_id options_ queue_name group_id t id) Q (w, g).
Proof.
  intros Ht Hok HQ.
  assert (reaped (Good tt)) as Hgood by (split; [by exists tt|done]).
  apply wp_bind, wp_gets_snd. cbn [snd].
  destruct (inflight g !! id) as [entry|] eqn:Hi; [|by apply wp_ret, HQ; [|apply progress_same|..]].
  destruct (_ <? _); [by apply wp_ret, HQ; [|apply progress_same|..]|].
  destruct (_ <? _).
  { apply wp_modify_snd, HQ; [done| |done..]. apply progress_wheel;
      [done|apply push_wheel_core|apply entries_push]. }
  destruct (ok_lease _ _ Hok id) as (rt & Hrt & _); [by eexists|]. rewrite Hrt.
  apply wp_bind. unfold wp at 1. rewrite take_sequence_eq. cbn [fst snd]. fold (bump g).
  pose proof (progress_lost options_ queue_name group_id w g) as Hlost.
  destruct (FailpointActive _); [by apply wp_ret, HQ|].
  apply wp_bind, wp_attempt.
  apply wp_logged; [done|by apply timeout_legal|by apply timeout_event_seq|by apply timeout_stamped| |].
  - intros o w' Hn Ho Hp Hc. destruct o as [|e|e]; [done|by apply wp_ret, HQ|].
    by apply HQ.
  - rewrite timeout_event_cost. intros w' Hp [[_ Hc] _]. apply wp_ret, HQ; [done..| |done].
    by rewrite applied_base.
Qed.

Lemma wp_reap_bucket t bucket (Q : outcome unit → World * ConsumerGroupState → Prop) w g :
  is_u64 t → group_ok g →
  (∀ o w' g', reaped o → progress (Z.of_nat (length bucket)) w g w' g' →
     wheel_base_tick g' = wheel_base_tick g → clock_reads w' = clock_reads w → Q o (w', g')) →
  wp (reap_bucket options_ queue_name group_id t bucket) Q (w, g).
Proof.
  intros Ht. revert w g. induction bucket as [|id bucket IH]; intros w g Hok HQ.
  { apply wp_ret, HQ; [|by apply progress_same|done..]. split; [by exists tt|done]. }
  apply wp_bind, wp_reap_id; [done..|]. intros o w1 g1 Ho Hp Hb Hc.
  destruct o as [[]|e|e]; [|apply HQ; [done|eapply progress_le; [done|simpl; lia]|done..]..].
  apply IH; [by eapply progress_ok|]. intros o w2 g2 Ho2 Hp2 Hb2 Hc2.
  apply HQ; [done|progress_by|congruence..].
Qed.

Lemma wp_reap_ticks fuel t now_tick (Q : outcome unit → World * ConsumerGroupState → Prop) w g :
  is_u64 t → group_ok g → now_tick < UINT64_MAX → now_tick - wheel_base_tick g < Z.of_nat fuel →
  (∀ o w' g', reaped o → progress 0 w g w' g' → clock_reads w' = clock_reads w →
     (o = Good tt → now_tick < wheel_base_tick g') → Q o (w', g')) →
  wp (reap_ticks options_ queue_name group_id fuel t now_tick) Q (w, g).
Proof.
  unfold UINT64_MAX. intros Ht. revert w g.
  induction fuel as [|fuel IH]; intros w g Hok Hnow Hfuel HQ;
    apply wp_bind, wp_gets_snd; cbn [snd];
    destruct (Z.leb_spec (wheel_base_tick g) now_tick) as [Hb|Hb]; try lia;
    try (apply wp_ret, HQ; [split; [by exists tt|done]|by apply progress_same|done|by intros]).
  apply wp_bind, wp_modify_snd. set (g0 := set_wheel _ g).
  set (slot := Z.to_nat (wheel_base_tick g mod Z.of_nat (length (deadline_wheel g)))) in *.
  set (bucket := default [] (deadline_wheel g !! slot)).
  assert (progress (- Z.of_nat (length bucket)) w g w g0) as H0.
  { apply progress_wheel; [done|unfold same_core, g0; cbn; by rewrite length_insert|].
    pose proof (concat_insert_nil slot (deadline_wheel g)) as Hlen. fold bucket in Hlen.
    unfold wheel_entries, g0. cbn [deadline_wheel set_wheel]. lia. }
  apply wp_bind, wp_reap_bucket; [done|by eapply progress_ok|]. intros o w1 g1 Ho Hp Hbase Hc1.
  assert (progress 0 w g w1 g1) as H01 by progress_by.
  destruct o as [[]|e|e]; [|by apply HQ..].
  apply wp_bind, wp_modify_snd. set (g2 := set_base_tick _ g1).
  pose proof (ok_base _ _ Hok) as Hbr.
  assert (wheel_base_tick g2 = wheel_base_tick g + 1) as Hb2.
  { unfold g2. cbn. rewrite Hbase. apply u64_small. unfold g0. cbn. lia. }
  assert (progress 0 w g w1 g2) as H02.
  { eapply progress_then; [exact H01|done| |done].
    unfold same_core, g2. cbn. split_and!; try done. intros _. apply u64_range. }
  apply IH; [by eapply progress_ok|done|lia|]. intros o w3 g3 Ho3 Hp3 Hc3 Hb3.
  apply HQ; [done|progress_by|congruence|done].
Qed.

Lemma set_ready_core l g : same_core g (set_ready l g).
Proof. done. Qed.

Lemma now_tick_range t : 0 <= t → t / tick_ms options_ <= t.
Proof.
  intros Ht. unfold tick_ms. apply Z.div_le_upper_bound; [lia|]. nia.
Qed.

(** The clock is read twice: once for the loop, and once for the ready queue
    that is rebuilt after it. *)
Lemma wp_Reap (Q : outcome unit → World * ConsumerGroupState → Prop) w g :
  clock_bounded → group_ok g →
  (∀ o w' g', reaped o → progress 0 w g w' g' →
     (o = Good tt → clock_reads w' = (2 + clock_reads w)%nat ∧
        ready_offsets g' = ready_at (reading 1 w) (runtime g')) → Q o (w', g')) →
  wp (ReapExpiredInflight options_ queue_name group_id) Q (w, g).
Proof.
  intros Hclock Hok HQ. unfold ReapExpiredInflight. apply wp_bind, wp_gets_snd. cbn [snd].
  apply wp_bind. pose proof (group_ok_wheel _ _ Hok) as Hw.
  destruct (deadline_wheel g) eqn:Hwheel; [done|]. clear Hw. apply wp_ret.
  apply wp_bind, wp_on_fst, wp_now. intros w1 Hf1 _ Hc1.
  apply wp_bind, wp_gets_snd. cbn [snd]. apply wp_bind.
  set (t := u64 (clock (clock_reads w))).
  pose proof (u64_range (clock (clock_reads w))) as Ht. pose proof (Hclock (clock_reads w)).
  pose proof (now_tick_range t ltac:(lia)).
  apply wp_reap_ticks; [done|done|lia|lia|]. intros o w2 g2 Ho Hp Hc2 _.
  assert (progress 0 w g w2 g2) as H2.
  { by eapply progress_before; [| | |exact Hp]. }
  destruct o as [[]|e|e]; [|by apply HQ..].
  apply wp_BuildReadyQueue. intros w3 Hf3 Hc3. apply HQ; [split; [by exists tt|done]| |].
  - by eapply progress_then; [exact H2|..].
  - intros _. unfold reading. rewrite Hc3, Hc2, Hc1. done.
Qed.
End reap.

(** ** The ready queue *)

Lemma elem_of_ready_at t (rts : gmap MessageId MessageRuntime) off :
  off ∈ ready_at t rts ↔
  ∃ id rt, rts !! id = Some rt ∧ is_ready t rt = true ∧ rt_offset rt = off.
Proof.
  unfold ready_at. rewrite merge_sort_Permutation, list_elem_of_omap. split.
  - intros ([id rt] & Hin & Hif). cbn [snd] in Hif.
    destruct (is_ready t rt) eqn:Hr; [|done]. injection Hif as <-.
    exists id, rt. by rewrite <-elem_of_map_to_list.
  - intros (id & rt & Hin & Hr & <-). exists (id, rt). cbn [snd]. rewrite Hr.
    by rewrite elem_of_map_to_list.
Qed.

Lemma ready_at_sorted t rts : StronglySorted Z.le (ready_at t rts).
Proof. apply StronglySorted_merge_sort; apply _. Qed.

(** The log holds the group's messages at the offsets the group has. *)
Definition tracks (rs : list Record_) (g : ConsumerGroupState) : Prop :=
  ∀ id rt, runtime g !! id = Some rt →
    0 <= rt_offset rt ∧ ∃ r, rs !! Z.to_nat (rt_offset rt) = Some r ∧ record_id r = id.

Lemma group_run_tracks options_ rs g n es g' :
  group_run options_ g n es g' → tracks rs g → tracks rs g'.
Proof.
  induction 1 as [|n es g1 g2 _ IH (Hr & _)|n es g1 _ IH|n es g1 e _ IH Hlegal Hseq]; intros Ht.
  - done.
  - intros id rt. rewrite Hr. by apply IH.
  - by apply IH.
  - intros id rt. rewrite applied_runtime. case_decide; [|by apply IH].
    intros (rt0 & Hrt0 & ->)%fmap_Some. by apply (IH Ht id rt0).
Qed.

(** ** Consuming *)

Section consume.
Context `{Env}.
Context (options_ : EngineOptions) (queue_name group_id : string).

Abbreviation event_path := (GroupEventPath options_ queue_name group_id).
Abbreviation state_path := (GroupStatePath options_ queue_name group_id).
Abbreviation group_ok := (group_ok options_).
Abbreviation progress := (progress options_ queue_name group_id).
Abbreviation foreign := (foreign options_ queue_name group_id).

Lemma deliver_legal g t rt id :
  runtime g !! id = Some rt → state rt = kReady →
  legal_event options_ g (deliver_event options_ group_id t (next_sequence g) id rt).
Proof. intros Hrt Hst. by eapply legal_deliver. Qed.

(** The group after message [id] was leased at time [t]. *)
Definition leased_at (t : Z) (id : MessageId) (rt : MessageRuntime) (g : ConsumerGroupState)
    : ConsumerGroupState :=
  applied options_ (deliver_event options_ group_id t (next_sequence g) id rt) (bump g).

Lemma wp_deliver rs post seg r id rt
    (Q : outcome (option ConsumeResult) → World * ConsumerGroupState → Prop) w g :
  group_ok g → indexed rs seg → files w !! path_ seg = Some (log_bytes rs ++ post) →
  runtime g !! id = Some rt → state rt = kReady → 0 <= rt_offset rt →
  rs !! Z.to_nat (rt_offset rt) = Some r → record_id r = id →
  (∀ o w' g', refused o → progress 2 w g w' g' → Q o (w', g')) →
  (∀ w', let t := reading 0 w in progress 2 w g w' (leased_at t id rt g) →
     Q (Good (Some (make_result (stored r) (rt_offset rt) (u32 (retry_count rt + 1)))))
       (w', leased_at t id rt g)) →
  wp (deliver options_ queue_name group_id seg (rt_offset rt)) Q (w, g).
Proof.
  intros Hok Hidx Hfile Hrt Hst Hoff Hr Hid Hbad Hgood. unfold deliver.
  apply wp_bind, wp_on_fst. rewrite <-(Z2Nat.id (rt_offset rt)) at 1 by done.
  eapply wp_read_or_refused; [done..| |].
  { intros e w1 (Hf1 & _) Hn. apply Hbad; [done|]. by apply progress_same. }
  intros w1 (Hf1 & Hc1). change (record_id (stored r)) with (record_id r). rewrite Hid.
  apply wp_bind. unfold find_runtime at 1. apply wp_bind, wp_gets_snd. rewrite Hrt. apply wp_ret.
  apply wp_bind, wp_on_fst, wp_now. intros w2 Hf2 _ _.
  assert (u64 (clock (clock_reads w1)) = reading 0 w) as -> by (unfold reading; by rewrite Hc1).
  set (t := reading 0 w) in *.
  assert (progress 0 w g w2 g) as H2 by (apply progress_same; [by rewrite Hf2|done..]).
  apply wp_bind. unfold wp at 1. rewrite take_sequence_eq. cbn [fst snd]. fold (bump g).
  assert (progress 2 w g w2 (bump g)) as Hlost.
  { eapply progress_trans; [exact H2|apply progress_lost|lia]. }
  destruct (FailpointActive _) eqn:Hfp.
  { apply wp_fail, Hbad; [by eapply failpoint_refused|done]. }
  apply wp_bind, wp_logged; [done|by apply deliver_legal|done|apply deliver_stamped, u64_range| |].
  { intros o w3 Hn Ho Hp _.
    assert (progress 2 w g w3 (bump g)) as H3 by progress_by.
    destruct o; [done|by apply Hbad..]. }
  intros w3 Hp3 _. fold (leased_at t id rt g).
  assert (progress 2 w g w3 (leased_at t id rt g)) as H3
    by (eapply progress_trans; [exact H2|exact Hp3|reflexivity]).
  apply wp_bind, wp_gets_snd. apply wp_bind.
  assert (retry_count (default rt (runtime (leased_at t id rt g) !! id)) = retry_count rt) as ->.
  { unfold leased_at. rewrite applied_runtime, decide_True by done. cbn. by rewrite Hrt. }
  apply wp_persisted.
  - intros o w4 Ho H4. assert (progress 2 w g w4 (leased_at t id rt g)) by progress_by.
    destruct o; [by destruct Ho|by apply Hbad..].
  - intros w4 items _ H4 _ _. apply wp_ret, Hgood. progress_by.
Qed.

(** What a delivery takes from the ready queue of time [t] in group [g1]: the
    message with the smallest offset of those that are ready. *)
Definition next_ready (t : Z) (g1 : ConsumerGroupState) (id : MessageId) (rt : MessageRuntime)
    : Prop :=
  runtime g1 !! id = Some rt ∧ is_ready t rt = true ∧
  ∀ id' rt', runtime g1 !! id' = Some rt' → is_ready t rt' = true → rt_offset rt <= rt_offset rt'.

Lemma ready_front t g1 off rest rs :
  ready_offsets g1 = ready_at t (runtime g1) → ready_offsets g1 = off :: rest → tracks rs g1 →
  ∃ id rt r, next_ready t g1 id rt ∧ off = rt_offset rt ∧ 0 <= off ∧
    rs !! Z.to_nat off = Some r ∧ record_id r = id.
Proof.
  intros Heq Hfront Ht. rewrite Hfront in Heq.
  pose proof (elem_of_ready_at t (runtime g1) off) as Hin.
  rewrite <-Heq in Hin. destruct (proj1 Hin ltac:(left)) as (id & rt & Hrt & Hready & <-).
  destruct (Ht _ _ Hrt) as (Hoff & r & Hr & Hid). exists id, rt, r.
  split; [|done]. split; [done|]. split; [done|]. intros id' rt' Hrt' Hready'.
  assert (rt_offset rt' ∈ ready_at t (runtime g1)) as Hin' by (apply elem_of_ready_at; eauto 6).
  pose proof (ready_at_sorted t (runtime g1)) as Hs. rewrite <-Heq in *.
  apply StronglySorted_inv in Hs as [_ Hall]. rewrite Forall_forall in Hall.
  apply elem_of_cons in Hin' as [->|Hin']; [done|by apply Hall].
Qed.

(** Leasing one more message takes at most one more place. *)
Lemma leased_at_size t id rt g1 :
  runtime g1 !! id = Some rt →
  (size (inflight (leased_at t id rt g1)) <= S (size (inflight g1)))%nat.
Proof.
  intros Hrt. unfold leased_at, applied. cbn [deliver_event ev_id ev_state bump
    set_next_sequence runtime]. rewrite Hrt.
  unfold scheduled. cbn [inflight set_inflight push_wheel set_wheel set_runtime set_next_sequence].
  rewrite map_size_insert_None by apply lookup_delete_eq.
  destruct (inflight g1 !! id) eqn:Hi.
  - rewrite map_size_delete_Some by done. cbn [bump set_next_sequence inflight]. lia.
  - rewrite delete_id by done. cbn [bump set_next_sequence inflight]. lia.
Qed.

Abbreviation Reap := (ReapExpiredInflight options_ queue_name group_id).

(** What consuming can end with, after the expiry loop.  The clock is read three times: for the expiry
    loop, for the ready queue, and for the delivery. *)
Definition consumed_post (rs : list Record_) (w : World) (g : ConsumerGroupState)
    (o : outcome (option ConsumeResult)) (w' : World) (g' : ConsumerGroupState) : Prop :=
  match o with
  | Good None =>
      Reap (w, g) = (Good tt, (w', g')) ∧
      (max_inflight options_ <= Z.of_nat (size (inflight g')) ∨
       ∀ id rt, runtime g' !! id = Some rt → is_ready (reading 1 w) rt = false)
  | Good (Some res) =>
      ∃ w1 g0 id rt r, Reap (w, g) = (Good tt, (w1, g0)) ∧
        let g1 := set_ready (tail (ready_offsets g0)) g0 in progress 0 w g w1 g1 ∧
        Z.of_nat (size (inflight g1)) < max_inflight options_ ∧ next_ready (reading 1 w) g1 id rt ∧
        rs !! Z.to_nat (rt_offset rt) = Some r ∧ record_id r = id ∧
        res = make_result (stored r) (rt_offset rt) (u32 (retry_count rt + 1)) ∧
        g' = leased_at (reading 2 w) id rt g1 ∧ Z.of_nat (size (inflight g')) <= max_inflight options_
  | _ => ¬ calm_run
  end.

Lemma wp_ConsumeGroup rs post seg w g :
  clock_bounded → group_ok g → indexed rs seg →
  files w !! path_ seg = Some (log_bytes rs ++ post) → foreign (path_ seg) → tracks rs g →
  wp (ConsumeGroup options_ queue_name group_id seg)
    (λ o s', progress 2 w g s'.1 s'.2 ∧ consumed_post rs w g o s'.1 s'.2) (w, g).
Proof.
  intros Hclock Hok Hidx Hfile Hforeign Ht. unfold ConsumeGroup.
  apply wp_bind, wp_elim. intros o [w1 g1] Hreap.
  assert (reaped o ∧ progress 0 w g w1 g1 ∧ (o = Good tt → clock_reads w1 = (2 + clock_reads w)%nat ∧
    ready_offsets g1 = ready_at (reading 1 w) (runtime g1))) as ([Hcalm Ho] & Hp & Hready).
  { refine (wp_intro _ (λ o s', reaped o ∧ progress 0 w g s'.1 s'.2 ∧ (o = Good tt →
      clock_reads s'.1 = (2 + clock_reads w)%nat ∧
      ready_offsets s'.2 = ready_at (reading 1 w) (runtime s'.2))) _ _ _ _ Hreap). by apply wp_Reap. }
  destruct o as [[]|e|e]; [|done|].
  2: { split; [by eapply progress_le|]. intros calm. by destruct (Hcalm calm). }
  destruct (Hready eq_refl) as [Hc1 Heq]. set (t := reading 1 w) in *.
  apply wp_bind, wp_gets_snd. cbn [snd].
  destruct (Z.leb_spec (max_inflight options_) (Z.of_nat (size (inflight g1)))) as [Hm|Hm].
  { apply wp_ret. split; [by eapply progress_le|]. split; [exact Hreap|by left]. }
  destruct (ready_offsets g1) as [|off rest] eqn:Hfront.
  { apply wp_ret. split; [by eapply progress_le|]. split; [exact Hreap|right]. intros id rt Hrt. cbn [fst snd] in *.
    apply not_true_is_false. intros Hr.
    assert (rt_offset rt ∈ ready_at t (runtime g1)) as Hin by (apply elem_of_ready_at; eauto 6).
    rewrite <-Heq in Hin. by apply not_elem_of_nil in Hin. }
  apply wp_bind, wp_modify_snd. set (g2 := set_ready rest g1).
  assert (progress 0 w g w1 g2) as H2 by (by eapply progress_then; [exact Hp|..]).
  assert (tracks rs g1) as Ht1 by (destruct Hp as (? & ? & ? & _); by eapply group_run_tracks).
  destruct (ready_front t g1 off rest rs) as (id & rt & r & Hnext & -> & Hoff & Hr & Hid);
    [congruence|done|done|].
  pose proof Hnext as (Hrt & Hready1 & _).
  assert (state rt = kReady) as Hst.
  { unfold is_ready in Hready1. apply andb_prop in Hready1 as [?%bool_decide_eq_true _]. done. }
  pose proof Hp as (n & es & Hrun & Hfr & _).
  eapply (wp_deliver rs post seg r id rt); try done.
  - by eapply progress_ok.
  - by rewrite Hfr.
  - intros o w3 g3 [Hn Ho3] H3. split; [progress_by|]. by destruct o.
  - cbv zeta. assert (reading 0 w1 = reading 2 w) as -> by (unfold reading; by rewrite Hc1).
    intros w3 H3. split; [progress_by|]. exists w1, g1, id, rt, r.
    rewrite Hfront. cbn [tail]. fold g2. split; [exact Hreap|]. split_and!; try done. pose proof (leased_at_size (reading 2 w) id rt g2 Hrt) as Hsize.
    change (inflight g2) with (inflight g1) in Hsize. cbn [snd]. lia.
Qed.
End consume.

(** ** Acknowledging and rejecting *)

Section settle.
Context `{Env}.
Context (options_ : EngineOptions) (queue_name group_id : string).

Abbreviation event_path := (GroupEventPath options_ queue_name group_id).
Abbreviation state_path := (GroupStatePath options_ queue_name group_id).
Abbreviation group_ok := (group_ok options_).
Abbreviation progress := (progress options_ queue_name group_id).

(** The event [e] of message [id] was logged, applied, and the snapshot of
    the result stored. *)
Definition settled (e : TransitionEvent) (w : World) (g : ConsumerGroupState)
    (w' : World) (g' : ConsumerGroupState) : Prop :=
  runtime g' = runtime (applied options_ e (bump g)) ∧
  inflight g' = inflight (applied options_ e (bump g)) ∧
  next_sequence g' = u64 (next_sequence g + 1) ∧
  file_bytes w' event_path = file_bytes w event_path ++ encode_event e ∧
  ∃ items, items ≡ₚ map_to_list (runtime g') ∧
    files w' !! state_path = Some (encode_snapshot (next_sequence g') items).

(** What settling a message can end with: [event t rt e] says which event [e]
    the handler makes when the clock reads [t]. *)
Definition settle_post (id : MessageId) (event : Z → MessageRuntime → TransitionEvent → Prop)
    (w : World) (g : ConsumerGroupState) (o : outcome unit) (w' : World) (g' : ConsumerGroupState)
    : Prop :=
  match inflight g !! id with
  | None => o = Fail (mkStatus kNotFound "inflight not found") ∧ w' = w ∧ g' = g
  | Some _ =>
      match o with
      | Good _ => ∃ rt e, runtime g !! id = Some rt ∧ event (reading 0 w) rt e ∧ settled e w g w' g'
      | _ => ¬ calm_run
      end
  end.

(** The tail that rejecting and acknowledging share. *)
Lemma wp_settle (rebuild : bool) e (Q : outcome unit → World * ConsumerGroupState → Prop) w g :
  group_ok g → legal_event options_ g e → ev_sequence e = next_sequence g → stamped group_id e →
  event_cost e = 1 →
  (∀ o w' g', refused o → progress 1 w g w' g' → Q o (w', g')) →
  (∀ w' g', progress 1 w g w' g' → settled e w g w' g' → Q (Good tt) (w', g')) →
  wp (do! AppendTransition options_ queue_name group_id e in
      do! (if rebuild then BuildReadyQueue else ret tt) in
      PersistGroupState options_ queue_name group_id) Q (w, bump g).
Proof.
  intros Hok Hlegal Hseq Hstamp Hcost Hbad Hgood. set (g1 := applied options_ e (bump g)).
  apply wp_bind, wp_logged; [done..| |].
  { intros o w1 Hn Ho Hp _. destruct o; [done|by apply Hbad..]. }
  rewrite Hcost. intros w1 Hp1 [_ Hb1]. fold g1 in Hp1 |- *. apply wp_bind.
  assert (∀ w2 g2, files w2 = files w1 → same_core g1 g2 → deadline_wheel g2 = deadline_wheel g1 →
    wp (PersistGroupState options_ queue_name group_id) Q (w2, g2)) as Hpersist.
  { intros w2 g2 Hf2 Hc2 Hw2.
    assert (progress 1 w g w2 g2) as H2 by (by eapply progress_then).
    apply wp_persisted.
    - intros o w3 Ho H3. apply Hbad; [done|progress_by].
    - intros w3 items Hitems H3 Hstate Hev. apply Hgood; [progress_by|].
      pose proof Hc2 as (Hr & Hi & _ & Hn & _). split_and!; [done|done| | |by exists items].
      + rewrite Hn. unfold g1. by rewrite applied_next.
      + unfold file_bytes in *. by rewrite Hev, Hf2. }
  destruct rebuild; [|by apply wp_ret, Hpersist].
  apply wp_BuildReadyQueue. intros w2 Hf2 _. by apply Hpersist.
Qed.

Definition is_ack (id : MessageId) (g : ConsumerGroupState) (t : Z) (rt : MessageRuntime)
    (e : TransitionEvent) : Prop := e = ack_event t (next_sequence g) id rt.

Lemma wp_AckGroup id w g :
  group_ok g →
  wp (AckGroup options_ queue_name group_id id)
    (λ o s', progress 1 w g s'.1 s'.2 ∧ settle_post id (is_ack id g) w g o s'.1 s'.2) (w, g).
Proof.
  intros Hok. unfold AckGroup, leased, settle_post. apply wp_bind, wp_bind, wp_gets_snd.
  destruct (inflight g !! id) as [entry|] eqn:Hi.
  2: { apply wp_fail. split; [by apply progress_same|done]. }
  destruct (ok_lease _ _ Hok id) as (rt & Hrt & Hlive); [by eexists|]. rewrite Hrt.
  apply wp_ret, wp_bind. unfold wp at 1. rewrite take_sequence_eq. cbn [fst snd]. fold (bump g).
  apply wp_bind, wp_on_fst, wp_now. intros w1 Hf1 _ _. set (t := u64 _).
  assert (progress 0 w g w1 g) as H1 by (by apply progress_same).
  destruct (FailpointActive _) eqn:Hfp.
  { apply wp_fail. split; [|by apply (failpoint_refused (A := unit) _ kOk "") in Hfp as [? _]].
    eapply progress_trans; [exact H1|apply progress_lost|lia]. }
  apply (wp_settle false); [done|eapply legal_ack; by eauto|done|apply ack_stamped, u64_range|done| |].
  - intros o w2 g2 [Hn Ho] H2. split; [progress_by|]. by destruct o.
  - intros w2 g2 H2 (Hr & Hin & Hnx & Hb & Hst). split; [progress_by|].
    exists rt, (ack_event t (next_sequence g) id rt). split_and!; [done..|].
    unfold settled. split_and!; try done. cbn [fst snd]. rewrite Hb. by unfold file_bytes; rewrite Hf1.
Qed.

(** A rejected message is requeued while its retries last, and dead after
    that or when it is not to be requeued.  The clock is read at [t] for the
    event, and at [t'] for the end of the back-off. *)
Definition is_nack (id : MessageId) (requeue : bool) (g : ConsumerGroupState) (t' t : Z)
    (rt : MessageRuntime) (e : TransitionEvent) : Prop :=
  let retry := u32 (retry_count rt + 1) in
  let seq := next_sequence g in
  if requeue then
    if max_retry_count options_ <? retry
    then e = mkEvent seq id kDead retry 0 t 0 "" "" kConsumerNackDead
    else e = mkEvent seq id kReady retry (u64 (t' + retry_backoff options_)) t 0 "" ""
               kConsumerNackRequeued
  else e = mkEvent seq id kDead (retry_count rt) 0 t 0 "" "" kConsumerNackDead.

Lemma is_nack_legal id requeue g t' t rt e :
  is_Some (inflight g !! id) → runtime g !! id = Some rt → is_nack id requeue g t' t rt e →
  legal_event options_ g e ∧ ev_sequence e = next_sequence g.
Proof.
  unfold is_nack. intros Hi Hrt He. destruct requeue; [|subst e; split; [eapply legal_dead; eauto|done]].
  destruct (Z.ltb_spec (max_retry_count options_) (u32 (retry_count rt + 1))).
  - subst e. split; [|done]. eapply legal_dead; eauto.
  - subst e. split; [|done]. by eapply legal_retry.
Qed.

Lemma is_nack_stamped id requeue g t' t rt e :
  is_u64 t → is_nack id requeue g t' t rt e → stamped group_id e.
Proof. unfold is_nack. intros Ht He. repeat case_match; subst e; stamped_solve. Qed.

Lemma is_nack_cost id requeue g t' t rt e : is_nack id requeue g t' t rt e → event_cost e = 1.
Proof. unfold is_nack. intros He. repeat case_match; by subst e. Qed.

Lemma wp_nack_event t id rt requeue
    (Q : outcome TransitionEvent → World * ConsumerGroupState → Prop) w g g0 :
  (∀ e w', is_nack id requeue g0 (reading 0 w) t rt e → files w' = files w → Q (Good e) (w', g)) →
  wp (nack_event options_ t (next_sequence g0) id rt requeue) Q (w, g).
Proof.
  intros HQ. unfold nack_event. destruct requeue; cbn [negb]; [|by apply wp_ret, HQ].
  destruct (_ <? _) eqn:Hlt.
  - apply wp_ret, HQ; [|done]. unfold is_nack. by rewrite Hlt.
  - apply wp_bind, wp_on_fst, wp_now. intros w1 Hf1 _ _. apply wp_ret, HQ; [|done].
    unfold is_nack. by rewrite Hlt.
Qed.

Lemma wp_NackGroup id requeue w g :
  group_ok g →
  wp (NackGroup options_ queue_name group_id id requeue)
    (λ o s', progress 1 w g s'.1 s'.2 ∧ settle_post id (is_nack id requeue g (reading 1 w)) w g o s'.1 s'.2) (w, g).
Proof.
  intros Hok. unfold NackGroup, leased, settle_post. apply wp_bind, wp_bind, wp_gets_snd.
  destruct (inflight g !! id) as [entry|] eqn:Hi.
  2: { apply wp_fail. split; [by apply progress_same|done]. }
  destruct (ok_lease _ _ Hok id) as (rt & Hrt & Hlive); [by eexists|]. rewrite Hrt.
  apply wp_ret, wp_bind. unfold wp at 1. rewrite take_sequence_eq. cbn [fst snd]. fold (bump g).
  apply wp_bind, wp_on_fst, wp_now. intros w1 Hf1 _ Hc1. set (t := u64 _).
  apply wp_bind, wp_nack_event.
  assert (reading 0 w1 = reading 1 w) as -> by (unfold reading; by rewrite Hc1). intros e w2 He Hf2.
  assert (progress 0 w g w2 g) as H2 by (apply progress_same; [by rewrite Hf2|done..]).
  destruct (is_nack_legal id requeue g (reading 1 w) t rt e) as [Hlegal Hseq]; [by eexists|done..|].
  destruct (_ && _) eqn:Hfp.
  { apply andb_prop in Hfp as [_ Hfp]. apply wp_fail.
    split; [|by apply (failpoint_refused (A := unit) _ kOk "") in Hfp as [? _]].
    eapply progress_trans; [exact H2|apply progress_lost|lia]. }
  apply (wp_settle true); [done..|eapply is_nack_stamped; [apply u64_range|done]|by eapply is_nack_cost| |].
  - intros o w3 g3 [Hn Ho] H3. split; [progress_by|]. by destruct o.
  - intros w3 g3 H3 (Hr & Hin & Hnx & Hb & Hst). split; [progress_by|].
    exists rt, e. split_and!; [done..|].
    unfold settled. split_and!; try done. cbn [fst snd]. rewrite Hb.
    by unfold file_bytes; rewrite Hf2, Hf1.
Qed.
End settle.

(** ** Statistics *)

Definition count_in (st : MessageState) (rts : gmap MessageId MessageRuntime) : Z :=
  Z.of_nat (length (filter (λ it : MessageId * MessageRuntime, state it.2 = st) (map_to_list rts))).

Definition stats_counts (s : QueueStats) : Z * Z * Z * Z :=
  (ready_count s, inflight_count s, acked_count s, dead_count s).

Lemma count_entries_counts (entries : list (MessageId * MessageRuntime)) s :
  let n st := Z.of_nat (length (filter (λ it : MessageId * MessageRuntime, state it.2 = st) entries)) in
  stats_counts (count_entries entries s) =
  (ready_count s + n kReady, inflight_count s + n kInFlight, acked_count s + n kAcked,
   dead_count s + n kDead).
Proof.
  cbv zeta. revert s. induction entries as [|it entries IH]; intros s.
  { unfold stats_counts. simpl. by rewrite !Z.add_0_r. }
  unfold count_entries in *. cbn [foldl]. rewrite IH, !filter_cons.
  destruct (state it.2) eqn:Hst; cbn [count_state ready_count inflight_count acked_count dead_count];
    repeat first [rewrite decide_True by done | rewrite decide_False by done]; cbn [length];
    (apply f_equal2; [apply f_equal2; [apply f_equal2|]|]; lia).
Qed.

Lemma count_in_perm st rts l :
  l ≡ₚ map_to_list rts →
  Z.of_nat (length (filter (λ it : MessageId * MessageRuntime, state it.2 = st) l)) = count_in st rts.
Proof. intros Hp. unfold count_in. by rewrite Hp. Qed.

Lemma count_in_total (rts : gmap MessageId MessageRuntime) :
  count_in kReady rts + count_in kInFlight rts + count_in kAcked rts + count_in kDead rts =
  Z.of_nat (size rts).
Proof.
  unfold count_in. rewrite <-length_map_to_list. induction (map_to_list rts) as [|it l IH]; [done|].
  rewrite !filter_cons. destruct (state it.2) eqn:Hst;
    repeat first [rewrite decide_True by done | rewrite decide_False by done]; cbn [length]; lia.
Qed.

(** What counting the messages of a group can end with. *)
Definition stats_post `{Env} (o : outcome QueueStats) (g' : ConsumerGroupState) : Prop :=
  match o with
  | Good s =>
      stats_counts s = (count_in kReady (runtime g'), count_in kInFlight (runtime g'),
                        count_in kAcked (runtime g'), count_in kDead (runtime g')) ∧
      ready_count s + inflight_count s + acked_count s + dead_count s =
        Z.of_nat (size (runtime g')) ∧ 0 <= oldest_ready_age_ms s
  | _ => ¬ calm_run
  end.

Lemma wp_StatsGroup `{Env} options_ queue_name group_id w g :
  clock_bounded → group_ok options_ g →
  wp (StatsGroup options_ queue_name group_id)
    (λ o s', progress options_ queue_name group_id 0 w g s'.1 s'.2 ∧ stats_post o s'.2) (w, g).
Proof.
  intros Hc Hok. unfold StatsGroup. apply wp_bind, wp_Reap; [done..|]. unfold stats_post.
  intros o w1 g1 [Hcalm Ho] Hp _. destruct o as [[]|e|e]; [|done|].
  2: { split; [done|]. intros calm. by destruct (Hcalm calm). }
  apply wp_bind, wp_on_fst, wp_now. intros w2 Hf2 _ _. set (t := u64 _).
  apply wp_bind, wp_gets_snd, wp_bind, wp_on_fst, wp_traverse. intros l w3 Hl (Hf3 & _).
  apply wp_ret. cbn [fst snd] in *. split.
  { eapply progress_then; [exact Hp|by rewrite Hf3, Hf2|done..]. }
  pose proof (count_entries_counts l zero_stats) as Hcount. cbv beta zeta in Hcount.
  rewrite (count_in_perm kReady _ l Hl), (count_in_perm kInFlight _ l Hl),
    (count_in_perm kAcked _ l Hl), (count_in_perm kDead _ l Hl) in Hcount.
  cbn [zero_stats ready_count inflight_count acked_count dead_count] in Hcount.
  rewrite !Z.add_0_l in Hcount. set (s := count_entries l zero_stats) in *.
  assert (oldest_ready_age_ms s = 0) as Hage.
  { unfold s. clear. assert (∀ s, oldest_ready_age_ms (count_entries l s) = oldest_ready_age_ms s)
      as Hkeep; [|by rewrite Hkeep].
    induction l as [|it l IH]; intros s; [done|]. unfold count_entries in *. cbn [foldl].
    rewrite IH. by destruct (state it.2). }
  pose proof (count_in_total (runtime g1)) as Htotal. unfold stats_counts in *.
  injection Hcount as H1 H2 H3 H4.
  destruct (_ && _) eqn:Hold;
    cbn [ready_count inflight_count acked_count dead_count oldest_ready_age_ms];
    rewrite H1, H2, H3, H4, Htotal; (split; [done|]); (split; [done|]); [|lia].
  apply andb_prop in Hold as [_ Hold%Z.ltb_lt]. lia.
Qed.

(** ** Properties *)

Section properties.
Context `{Env}.
Context (options_ : EngineOptions) (queue_name group_id : string).

Abbreviation progress := (progress options_ queue_name group_id).
Abbreviation foreign := (foreign options_ queue_name group_id).
Abbreviation group_ok := (group_ok options_).

(** C2. Consuming, whatever is refused on the way, is a run of the life cycle.
    It delivers the ready message with the smallest offset, as the log holds
    it, leased and with the delivery count one above the retry count, and
    never takes the group past [max_inflight] leases; it delivers nothing only
    when, after the expired leases were taken back, [max_inflight] leases are
    out or no message of the group is ready at the time the clock showed when
    the ready queue was built, and then it does nothing more; and it fails
    only when something was refused.  What is ready, and since when a delivery
    is leased, is by the second and the third reading of the clock. *)
Theorem consume_delivers_next rs post seg w g :
  clock_bounded → group_ok g → indexed rs seg →
  files w !! path_ seg = Some (log_bytes rs ++ post) → foreign (path_ seg) → tracks rs g →
  let '(o, (w', g')) := ConsumeGroup options_ queue_name group_id seg (w, g) in
  progress 2 w g w' g' ∧ group_ok g' ∧ tracks rs g' ∧
  consumed_post options_ queue_name group_id rs w g o w' g'.
Proof.
  intros. apply wp_run2. eapply wp_mono; [by eapply wp_ConsumeGroup|].
  intros o s' [Hp Hpost]. split_and!; [done|by eapply progress_ok| |done].
  destruct Hp as (n & es & Hrun & _). by eapply group_run_tracks.
Qed.

(** C9. Acknowledging a message that holds no lease changes nothing and reports
    [kNotFound].  For a leased one, success means that its acknowledgement is
    at the end of the transition log, applied in memory and in the stored
    snapshot; it fails only when something was refused, and even then the
    group's change is a run of the life cycle. *)
Theorem ack_settles id w g :
  group_ok g →
  let '(o, (w', g')) := AckGroup options_ queue_name group_id id (w, g) in
  progress 1 w g w' g' ∧ group_ok g' ∧
  settle_post options_ queue_name group_id id (is_ack id g) w g o w' g'.
Proof.
  intros Hok. apply wp_run2. eapply wp_mono; [by apply wp_AckGroup|].
  intros o s' [Hp Hpost]. split_and!; [done|by eapply progress_ok|done].
Qed.

(** C10. Rejecting a message: as for acknowledging, with the event that requeues
    it with one more retry while [max_retry_count] allows it, ready again
    [retry_backoff] after the clock's reading (modulo 64 bits), and that makes
    it dead otherwise or when it is not to be requeued. *)
Theorem nack_settles id requeue w g :
  group_ok g →
  let '(o, (w', g')) := NackGroup options_ queue_name group_id id requeue (w, g) in
  progress 1 w g w' g' ∧ group_ok g' ∧
  settle_post options_ queue_name group_id id (is_nack options_ id requeue g (reading 1 w)) w g o w' g'.
Proof.
  intros Hok. apply wp_run2. eapply wp_mono; [by apply wp_NackGroup|].
  intros o s' [Hp Hpost]. split_and!; [done|by eapply progress_ok|done].
Qed.

(** C26. The expiry loop ends: its fuel is enough for every distance between the
    wheel and the clock.  It is a run of the life cycle, the only failure
    that leaves it is the exception of [create_directories], and the ready
    queue it rebuilds holds exactly the offsets of the messages that are ready
    at the second reading of the clock, the one after the loop, in increasing
    order. *)
Theorem expiry_ends w g :
  clock_bounded → group_ok g →
  let '(o, (w', g')) := ReapExpiredInflight options_ queue_name group_id (w, g) in
  progress 0 w g w' g' ∧ group_ok g' ∧
  match o with
  | Good _ => StronglySorted Z.le (ready_offsets g') ∧
      ∀ off, off ∈ ready_offsets g' ↔
        ∃ id rt, runtime g' !! id = Some rt ∧ is_ready (reading 1 w) rt = true ∧ rt_offset rt = off
  | Fail _ => False
  | Throw e => e = "filesystem_error" ∧ ¬ calm_run
  end.
Proof.
  intros Hc Hok. apply wp_run2, wp_Reap; [done..|]. intros o w' g' [Hcalm Ho] Hp Hready.
  cbn [fst snd]. split_and!; [done|by eapply progress_ok|]. destruct o as [[]|e|e]; [|done|].
  - destruct (Hready eq_refl) as [_ Heq]. rewrite Heq. split; [apply ready_at_sorted|].
    intros off. apply elem_of_ready_at.
  - split; [done|]. intros calm. by destruct (Hcalm calm).
Qed.

(** The statistics count every message of the group once, in the state it
    has after expired leases were taken back, however the map is traversed. *)
Theorem stats_exact w g :
  clock_bounded → group_ok g →
  let '(o, (w', g')) := StatsGroup options_ queue_name group_id (w, g) in
  progress 0 w g w' g' ∧ stats_post o g'.
Proof. intros Hc Hok. apply wp_run2. by apply wp_StatsGroup. Qed.
End properties.

(** ** A queue of one message *)

Section demo.
#[local] Instance demo_env : Env := calm_env 1000.

Definition demo_options : EngineOptions :=
  mkOptions "/d" 1 kAlways 100 10000 5 30000 1000 100 86400000 67108864.
Definition demo_record : Record_ :=
  mkRecord (mkRecordHeader kRecordMagic kRecordVersion 0 0 0 0 5 7 9 0) [Byte.x01] [] "k".
Definition demo_segment : SegmentLog :=
  mkSegmentLog "/d/q/seg-000001.log" kAlways (Some 66%nat) 1 {[0 := 0%nat]}.
Definition demo_world : World :=
  set_files (<["/d/q/seg-000001.log" := log_bytes [demo_record]]>) empty_world.

Lemma demo_clock : clock_bounded.
Proof. intros n. reflexivity. Qed.

Lemma demo_recoverable : recoverable demo_record.
Proof.
  split.
  - unfold wf_record, wf_header, fits. cbn. split_and!; try lia; done.
  - rewrite record_bytes_length. vm_compute. done.
Qed.

Lemma demo_indexed : indexed [demo_record] demo_segment.
Proof.
  split; [by apply Forall_singleton, demo_recoverable|]. split; [|done].
  split; [|simpl; lia]. intros i r [-> <-]%list_lookup_singleton_Some. done.
Qed.

Lemma demo_file : files demo_world !! path_ demo_segment = Some (log_bytes [demo_record] ++ []).
Proof. rewrite app_nil_r. apply lookup_insert_eq. Qed.

Lemma demo_foreign : foreign demo_options "q" "g" (path_ demo_segment).
Proof. vm_compute. done. Qed.

Lemma demo_group_ok : group_ok demo_options demo_group.
Proof.
  destruct demo_ok as [H1 H2 H3 H4 H5 H6]. by split.
Qed.

Lemma demo_tracks : tracks [demo_record] demo_group.
Proof. intros id rt [-> ->]%demo_lookup. split; [done|]. by exists demo_record. Qed.

Lemma demo_leased_ok : group_ok demo_options demo_leased.
Proof.
  destruct (group_run_ok _ _ _ _ _ demo_delivered demo_ok) as [H1 H2 H3 H4 H5 H6]. by split.
Qed.
End demo.

(** The message is delivered. *)
Lemma consume_delivers_next_witness :
  let '(o, (w', g')) := @ConsumeGroup demo_env demo_options "q" "g" demo_segment
                          (demo_world, demo_group) in
  group_ok demo_options g' ∧ o = Good (Some (make_result (stored demo_record) 0 1)).
Proof.
  pose proof (@consume_delivers_next demo_env demo_options "q" "g" [demo_record] [] demo_segment
    demo_world demo_group demo_clock demo_group_ok demo_indexed demo_file demo_foreign demo_tracks)
    as Hc.
  assert ((@ConsumeGroup demo_env demo_options "q" "g" demo_segment (demo_world, demo_group)).1 =
    Good (Some (make_result (stored demo_record) 0 1))) as Ho by (vm_compute; reflexivity).
  destruct (ConsumeGroup _ _ _ _ _) as [o [w' g']]. destruct Hc as (_ & Hok & _).
  split; [exact Hok|exact Ho].
Defined.

(** The leased message is acknowledged; another one holds no lease. *)
Lemma ack_settles_witness :
  (let '(o, (w', g')) := @AckGroup demo_env demo_options "q" "g" demo_id (demo_world, demo_leased) in
   o = Good tt ∧ group_ok demo_options g') ∧
  (let '(o, (w', g')) := @AckGroup demo_env demo_options "q" "g" (mkId 1 1) (demo_world, demo_leased) in
   o = Fail (mkStatus kNotFound "inflight not found") ∧ g' = demo_leased).
Proof.
  split.
  - pose proof (@ack_settles demo_env demo_options "q" "g" demo_id demo_world demo_leased
      demo_leased_ok) as Hc.
    assert ((@AckGroup demo_env demo_options "q" "g" demo_id (demo_world, demo_leased)).1 = Good tt)
      as Ho by (vm_compute; reflexivity).
    destruct (AckGroup _ _ _ _ _) as [o [w' g']]. destruct Hc as (_ & Hok & _).
    split; [exact Ho|exact Hok].
  - pose proof (@ack_settles demo_env demo_options "q" "g" (mkId 1 1) demo_world demo_leased
      demo_leased_ok) as Hc.
    destruct (AckGroup _ _ _ _ _) as [o [w' g']]. destruct Hc as (_ & _ & Ho & _ & Hg).
    split; [exact Ho|exact Hg].
Defined.

Lemma nack_settles_witness :
  let '(o, (w', g')) := @NackGroup demo_env demo_options "q" "g" demo_id true
                          (demo_world, demo_leased) in
  o = Good tt ∧ group_ok demo_options g'.
Proof.
  pose proof (@nack_settles demo_env demo_options "q" "g" demo_id true demo_world demo_leased
    demo_leased_ok) as Hc.
  assert ((@NackGroup demo_env demo_options "q" "g" demo_id true (demo_world, demo_leased)).1 =
    Good tt) as Ho by (vm_compute; reflexivity).
  destruct (NackGroup _ _ _ _ _ _) as [o [w' g']]. destruct Hc as (_ & Hok & _).
  split; [exact Ho|exact Hok].
Defined.

Lemma expiry_ends_witness :
  let '(o, (w', g')) := @ReapExpiredInflight demo_env demo_options "q" "g" (demo_world, demo_group) in
  o = Good tt ∧ group_ok demo_options g'.
Proof.
  pose proof (@expiry_ends demo_env demo_options "q" "g" demo_world demo_group demo_clock
    demo_group_ok) as Hc.
  assert ((@ReapExpiredInflight demo_env demo_options "q" "g" (demo_world, demo_group)).1 = Good tt)
    as Ho by (vm_compute; reflexivity).
  destruct (ReapExpiredInflight _ _ _ _) as [o [w' g']]. destruct Hc as (_ & Hok & _).
  split; [exact Ho|exact Hok].
Defined.

Lemma stats_exact_witness :
  let '(o, (w', g')) := @StatsGroup demo_env demo_options "q" "g" (demo_world, demo_group) in
  o = Good (mkStats 1 0 0 0 995) ∧ count_in kReady (runtime g') = 1.
Proof.
  pose proof (@stats_exact demo_env demo_options "q" "g" demo_world demo_group demo_clock
    demo_group_ok) as Hc.
  assert ((@StatsGroup demo_env demo_options "q" "g" (demo_world, demo_group)).1 =
    Good (mkStats 1 0 0 0 995)) as Ho by (vm_compute; reflexivity).
  destruct (StatsGroup _ _ _ _) as [o [w' g']]. simpl in Ho. subst o. destruct Hc as (_ & Hcount & _).
  split; [reflexivity|]. unfold stats_counts in Hcount. simpl in Hcount. congruence.
Defined.
