(* ===== verification/Operations.v ===== *)
(** * Histories of a group

    Any sequence of operations on one group, as its consumers call them, with
    the replies they get, interleaved with whatever else the engine does:
    messages produced to the queue, operations on other groups and queues.
    The theorems say what a consumer may rely on over a whole history. *)
From S2P Require Import Prelude Status Io Record SegmentLog Message EventLog Group Lifecycle.
From S2P Require Import Handlers HandlerSpecs.

Section histories.
Context `{Env}.
Context (options_ : EngineOptions) (queue_name group_id : string).

Abbreviation progress := (progress options_ queue_name group_id).
Abbreviation foreign := (foreign options_ queue_name group_id).
Abbreviation group_ok := (group_ok options_).
Abbreviation event_path := (GroupEventPath options_ queue_name group_id).

(** ** Operations and histories *)

Inductive group_op :=
  | GConsume | GAck (id : MessageId) | GNack (id : MessageId) (requeue : bool)
  | GStats | GInspect (id : MessageId).

Inductive group_reply :=
  | GotMessage (o : outcome (option ConsumeResult)) | GotStatus (o : outcome unit)
  | GotStats (o : outcome QueueStats) | GotView (o : outcome MessageDebugView).

Definition run_op (op : group_op) (seg : SegmentLog) (s : World * ConsumerGroupState)
    : group_reply * (World * ConsumerGroupState) :=
  match op with
  | GConsume => let '(o, s) := ConsumeGroup options_ queue_name group_id seg s in (GotMessage o, s)
  | GAck id => let '(o, s) := AckGroup options_ queue_name group_id id s in (GotStatus o, s)
  | GNack id b => let '(o, s) := NackGroup options_ queue_name group_id id b s in (GotStatus o, s)
  | GStats => let '(o, s) := StatsGroup options_ queue_name group_id s in (GotStats o, s)
  | GInspect id => let '(o, s) := InspectGroup id s in (GotView o, s)
  end.

(** The records of the queue's log, the log, the world and the group. *)
Record config := mkConfiguration {
  records : list Record_;
  log : SegmentLog;
  world : World;
  group : ConsumerGroupState;
}.

Definition config_ok (c : config) : Prop :=
  group_ok (group c) ∧ indexed (records c) (log c) ∧
  (∃ post, files (world c) !! path_ (log c) = Some (log_bytes (records c) ++ post)) ∧
  foreign (path_ (log c)) ∧ tracks (records c) (group c).

(** What the rest of the engine may do between two operations of the group:
    the log grows, and the group's own files stay.  (An append through a
    descriptor that stands at the start of a log that is not empty overwrites
    it, [SegmentLog.append_after_reopen_overwrites], and is not among this.) *)
Definition others (c c' : config) : Prop :=
  (∃ more, records c' = records c ++ more) ∧ indexed (records c') (log c') ∧
  path_ (log c') = path_ (log c) ∧
  (∃ post, files (world c') !! path_ (log c) = Some (log_bytes (records c') ++ post)) ∧
  (∀ p, ¬ foreign p → files (world c') !! p = files (world c) !! p) ∧ group c' = group c.

Inductive history (c : config) : list (group_op * group_reply) → config → Prop :=
  | history_nil : history c [] c
  | history_op tr rs seg w g op r w' g' :
      history c tr (mkConfiguration rs seg w g) → run_op op seg (w, g) = (r, (w', g')) →
      history c (tr ++ [(op, r)]) (mkConfiguration rs seg w' g')
  | history_others tr c1 c2 : history c tr c1 → others c1 c2 → history c tr c2.

(** ** What a reply delivers *)

Definition delivers (id : MessageId) (x : group_op * group_reply) : Prop :=
  match x.2 with
  | GotMessage (Good (Some res)) => msg_id (result_message res) = id
  | _ => False
  end.

#[local] Instance delivers_dec id x : Decision (delivers id x).
Proof. unfold delivers. destruct x as [? [[[]| |]| | |]]; apply _. Defined.

(** How often a message was handed out. *)
Definition delivered (id : MessageId) (tr : list (group_op * group_reply)) : Z :=
  Z.of_nat (length (filter (delivers id) tr)).

Lemma delivered_app id tr1 tr2 : delivered id (tr1 ++ tr2) = delivered id tr1 + delivered id tr2.
Proof. unfold delivered. rewrite filter_app, length_app. lia. Qed.

Lemma delivered_one id x : delivered id [x] = if decide (delivers id x) then 1 else 0.
Proof. unfold delivered. rewrite filter_cons, filter_nil. by destruct (decide _). Qed.

Lemma delivered_elem id x tr : x ∈ tr → delivers id x → 0 < delivered id tr.
Proof.
  intros Hx Hd. unfold delivered. assert (x ∈ filter (delivers id) tr) as Hin by by apply list_elem_of_filter.
  destruct (filter _ tr); [by apply elem_of_nil in Hin|simpl; lia].
Qed.

Lemma delivered_none id tr : Forall (λ x, ¬ delivers id x) tr → delivered id tr = 0.
Proof.
  induction 1 as [|x tr Hx _ IH]; [done|].
  change (x :: tr) with ([x] ++ tr). rewrite delivered_app, delivered_one, decide_False by done. lia.
Qed.

(** ** One operation *)

Lemma deliveries_app id es1 es2 : deliveries id (es1 ++ es2) = deliveries id es1 + deliveries id es2.
Proof. unfold deliveries. rewrite filter_app, length_app. lia. Qed.

Lemma deliveries_pos id es : 0 <= deliveries id es.
Proof. unfold deliveries. lia. Qed.

(** A run whose events contain at least the deliveries of a reply. *)
Definition explains (x : group_op * group_reply) (g g' : ConsumerGroupState) : Prop :=
  ∃ n es, group_run options_ g n es g' ∧
    ∀ id, (if decide (delivers id x) then 1 else 0) <= deliveries id es.

Lemma progress_explains k x w g w' g' :
  (∀ id, ¬ delivers id x) → progress k w g w' g' → explains x g g'.
Proof.
  intros Hx (n & es & Hrun & _). exists n, es. split; [done|]. intros id.
  rewrite decide_False by done. apply deliveries_pos.
Qed.

Lemma run_op_spec op c :
  clock_bounded → config_ok c →
  let '(r, (w', g')) := run_op op (log c) (world c, group c) in
  progress 2 (world c) (group c) w' g' ∧ explains (op, r) (group c) g'.
Proof.
  destruct c as [rs seg w g]. intros Hclock (Hok & Hidx & (post & Hfile) & Hforeign & Ht).
  cbn [log world group records] in *. destruct op as [|id|id b| |id]; cbn [run_op].
  - destruct (ConsumeGroup _ _ _ _ _) as [o [w' g']] eqn:Hrun.
    pose proof (wp_intro _ _ _ _ _ (wp_ConsumeGroup options_ queue_name group_id rs post seg w g
      Hclock Hok Hidx Hfile Hforeign Ht) Hrun) as [Hp Hpost]. cbn [fst snd] in Hp, Hpost. split; [exact Hp|].
    destruct o as [[res|]|e|e]; [|eapply progress_explains; [|exact Hp]; intros ?; by intros []..].
    destruct Hpost as (w1 & g0 & id & rt & r & _ & (n & es & Hrun1 & _) & _ & (Hrt & Hready & _)
      & _ & Hid & -> & -> & _). eexists _, _. split.
    { eapply run_event; [exact Hrun1| |reflexivity]. apply deliver_legal; [exact Hrt|].
      unfold is_ready in Hready. by destruct (state rt). }
    intros id'. rewrite deliveries_snoc. pose proof (deliveries_pos id' es).
    unfold delivers. cbn. destruct (decide (record_id _ = id')) as [Heq|]; [|case_decide; lia].
    rewrite decide_True; [lia|]. split; [|done]. rewrite <-Heq. by destruct r.
  - destruct (AckGroup _ _ _ _ _) as [o [w' g']] eqn:Hrun.
    pose proof (wp_intro _ _ _ _ _ (wp_AckGroup options_ queue_name group_id id w g Hok) Hrun) as [Hp _].
    split; [by eapply progress_le|]. eapply progress_explains; [by intros ? []|exact Hp].
  - destruct (NackGroup _ _ _ _ _ _) as [o [w' g']] eqn:Hrun.
    pose proof (wp_intro _ _ _ _ _ (wp_NackGroup options_ queue_name group_id id b w g Hok) Hrun) as [Hp _].
    split; [by eapply progress_le|]. eapply progress_explains; [by intros ? []|exact Hp].
  - destruct (StatsGroup _ _ _ _) as [o [w' g']] eqn:Hrun.
    pose proof (wp_intro _ _ _ _ _ (wp_StatsGroup options_ queue_name group_id w g Hclock Hok) Hrun)
      as [Hp _].
    split; [by eapply progress_le|]. eapply progress_explains; [by intros ? []|exact Hp].
  - destruct (InspectGroup id (w, g)) as [o [w' g']] eqn:Hrun.
    assert (w' = w ∧ g' = g) as [-> ->].
    { revert Hrun. unfold InspectGroup, bind, gets, fail, ret. cbn [snd].
      destruct (runtime g !! id); intros [= _ <- <-]; done. }
    assert (progress 2 w g w g) as Hp by by apply progress_same.
    split; [exact Hp|]. eapply progress_explains; [by intros ? []|exact Hp].
Qed.

(** ** Histories *)

Lemma config_ok_op c w' g' :
  config_ok c → progress 2 (world c) (group c) w' g' →
  config_ok (mkConfiguration (records c) (log c) w' g').
Proof.
  intros (Hok & Hidx & (post & Hfile) & Hforeign & Ht) Hp. split_and!; cbn; [|done| |done|].
  - by eapply progress_ok.
  - exists post. destruct Hp as (n & es & _ & Hf & _). by rewrite Hf.
  - destruct Hp as (n & es & Hrun & _). by eapply group_run_tracks.
Qed.

Lemma config_ok_others c c' : config_ok c → others c c' → config_ok c'.
Proof.
  intros (Hok & _ & _ & Hforeign & Ht) ((more & Hrs) & Hidx & Hpath & Hfile & _ & Hg).
  unfold config_ok. rewrite Hg, Hpath. split_and!; [done..|].
  intros id rt Hrt. destruct (Ht id rt Hrt) as (Hoff & r & Hr & Hid). split; [done|].
  exists r. rewrite Hrs. split; [by apply lookup_app_l_Some|done].
Qed.

(** A history is a run of the life cycle, and every reply that delivers a
    message is a delivery of the run. *)
Lemma history_run c tr c' :
  clock_bounded → config_ok c → history c tr c' →
  config_ok c' ∧ ∃ n es, group_run options_ (group c) n es (group c') ∧
    ∀ id, delivered id tr <= deliveries id es.
Proof.
  intros Hclock Hok. induction 1 as [|tr rs seg w g op r w' g' _ [Hok1 (n & es & Hrun & Hd)] Hop
                                     |tr c1 c2 _ [Hok1 IH] Ho].
  - split; [done|]. exists 0%nat, []. split; [apply run_nil|done].
  - pose proof (run_op_spec op _ Hclock Hok1) as Hspec. cbn [log world group] in Hspec.
    rewrite Hop in Hspec. destruct Hspec as [Hp (n2 & es2 & Hrun2 & Hd2)].
    split; [by apply (config_ok_op (mkConfiguration rs seg w g))|].
    exists (n + n2)%nat, (es ++ es2). split; [by eapply group_run_trans|].
    intros id. rewrite delivered_app, delivered_one, deliveries_app.
    specialize (Hd id). specialize (Hd2 id). lia.
  - split; [by eapply config_ok_others|]. by destruct Ho as (_ & _ & _ & _ & _ & ->).
Qed.

(** The events of the run are stamped, the snapshot is of the run, without
    refusals the transition log holds the events, and an operation takes at
    most two numbers more than entries leave the wheel. *)
Lemma history_progress c tr c' :
  clock_bounded → config_ok c → history c tr c' →
  ∃ n es, group_run options_ (group c) n es (group c') ∧
    (calm_run → file_bytes (world c') event_path =
       file_bytes (world c) event_path ++ concat (map encode_event es)) ∧
    Forall (stamped group_id) es ∧
    snapshots options_ queue_name group_id (world c) (group c) es (world c') (group c') ∧
    Z.of_nat n + wheel_entries (group c') <= wheel_entries (group c) + 2 * Z.of_nat (length tr).
Proof.
  intros Hclock Hok. induction 1 as [|tr rs seg w g op r w' g' Hh (n & es & Hrun & Hb & Hw & Hs & Hk) Hop
                                     |tr c1 c2 _ (n & es & Hrun & Hb & Hw & Hs & Hk) Ho].
  - exists 0%nat, []. split_and!; [apply run_nil|by rewrite app_nil_r|done|by left|simpl; lia].
  - destruct (history_run _ _ _ Hclock Hok Hh) as [Hok1 _].
    pose proof (run_op_spec op _ Hclock Hok1) as Hspec. cbn [log world group] in Hspec.
    rewrite Hop in Hspec. destruct Hspec as [(n2 & es2 & Hrun2 & _ & Hb2 & Hw2 & Hs2 & Hk2) _].
    exists (n + n2)%nat, (es ++ es2). cbn [world group] in *.
    split_and!; [by eapply group_run_trans| |by apply Forall_app|by eapply snapshots_trans|].
    + intros calm. by rewrite Hb2, Hb, map_app, concat_app, app_assoc.
    + rewrite length_app. simpl. lia.
  - destruct Ho as (_ & _ & _ & _ & Hf & Hg). exists n, es. unfold snapshots, file_bytes in *. rewrite Hg.
    rewrite !Hf by (by intros (? & ? & ?)). done.
Qed.

Lemma history_split tr1 x tr2 c c' :
  history c (tr1 ++ x :: tr2) c' →
  ∃ rs seg w g w' g', history c tr1 (mkConfiguration rs seg w g) ∧
    run_op x.1 seg (w, g) = (x.2, (w', g')) ∧ history (mkConfiguration rs seg w' g') tr2 c'.
Proof.
  intros Hh. remember (tr1 ++ x :: tr2) as tr eqn:Htr. revert tr2 Htr.
  induction Hh as [|tr rs seg w g op r w' g' Hh IH Hop|tr c1 c2 _ IH Ho]; intros tr2 Htr.
  - by destruct tr1.
  - destruct tr2 as [|y tr2 _] using rev_ind.
    + apply app_inj_tail in Htr as [-> <-]. exists rs, seg, w, g, w', g'.
      split_and!; [done..|apply history_nil].
    + rewrite app_comm_cons, app_assoc in Htr. apply app_inj_tail in Htr as [-> <-].
      destruct (IH _ eq_refl) as (rs1 & seg1 & w1 & g1 & w2 & g2 & Hh1 & Hop1 & Hh2).
      exists rs1, seg1, w1, g1, w2, g2. split_and!; [done..|]. by eapply history_op.
  - destruct (IH _ Htr) as (rs1 & seg1 & w1 & g1 & w2 & g2 & Hh1 & Hop1 & Hh2).
    exists rs1, seg1, w1, g1, w2, g2. split_and!; [done..|]. by eapply history_others.
Qed.

(** The operations by which a consumer is done with a message. *)
Definition settles (op : group_op) (id : MessageId) : Prop := op = GAck id ∨ op = GNack id false.

Definition settled_state (op : group_op) : MessageState :=
  match op with GAck _ => kAcked | _ => kDead end.

Lemma settles_terminal op id seg w g w' g' :
  group_ok g → settles op id → run_op op seg (w, g) = (GotStatus (Good tt), (w', g')) →
  ∃ rt, runtime g' !! id = Some rt ∧ state rt = settled_state op.
Proof.
  intros Hok [->| ->]; cbn [run_op settled_state].
  - destruct (AckGroup _ _ _ _ _) as [o [w1 g1]] eqn:Hrun. intros [= -> <- <-].
    pose proof (wp_intro _ _ _ _ _ (wp_AckGroup options_ queue_name group_id id w g Hok) Hrun)
      as [_ Hpost]. unfold settle_post in Hpost. cbn [fst snd] in Hpost.
    destruct (inflight g !! id); [|by destruct Hpost].
    destruct Hpost as (rt & e & Hrt & -> & (-> & _)).
    eexists. rewrite applied_runtime. cbn. rewrite Hrt, decide_True by done. done.
  - destruct (NackGroup _ _ _ _ _ _) as [o [w1 g1]] eqn:Hrun. intros [= -> <- <-].
    pose proof (wp_intro _ _ _ _ _ (wp_NackGroup options_ queue_name group_id id false w g Hok) Hrun)
      as [_ Hpost]. unfold settle_post in Hpost. cbn [fst snd] in Hpost.
    destruct (inflight g !! id); [|by destruct Hpost].
    destruct Hpost as (rt & e & Hrt & -> & (-> & _)).
    eexists. rewrite applied_runtime. cbn. rewrite Hrt, decide_True by done. done.
Qed.
End histories.

(** ** Playing a list of operations *)

Section play.
Context `{Env}.
Context (options_ : EngineOptions) (queue_name group_id : string).

Fixpoint play (ops : list group_op) (seg : SegmentLog) (s : World * ConsumerGroupState)
    : list (group_op * group_reply) * (World * ConsumerGroupState) :=
  match ops with
  | [] => ([], s)
  | op :: ops =>
      let '(r, s) := run_op options_ queue_name group_id op seg s in
      let '(tr, s) := play ops seg s in ((op, r) :: tr, s)
  end.

Lemma history_trans c tr1 c1 tr2 c2 :
  history options_ queue_name group_id c tr1 c1 → history options_ queue_name group_id c1 tr2 c2 →
  history options_ queue_name group_id c (tr1 ++ tr2) c2.
Proof.
  intros H1. induction 1 as [|tr rs seg w g op r w' g' _ IH Hop|tr c3 c4 _ IH Ho].
  - by rewrite app_nil_r.
  - rewrite app_assoc. by eapply history_op.
  - by eapply history_others.
Qed.

Lemma play_history ops rs seg w g :
  history options_ queue_name group_id (mkConfiguration rs seg w g) (play ops seg (w, g)).1
    (mkConfiguration rs seg (play ops seg (w, g)).2.1 (play ops seg (w, g)).2.2).
Proof.
  revert w g; induction ops as [|op ops IH]; intros w g; [apply history_nil|].
  cbn [play]. destruct (run_op _ _ _ op seg (w, g)) as [r [w1 g1]] eqn:Hop.
  specialize (IH w1 g1). destruct (play ops seg (w1, g1)) as [tr [w2 g2]]. cbn [fst snd] in *.
  apply (history_trans _ [(op, r)] (mkConfiguration rs seg w1 g1)); [|done].
  by eapply (history_op _ _ _ _ []); [apply history_nil|].
Qed.

(** The configuration after [ops]. *)
Definition after (ops : list group_op) (c : config) : config :=
  let s := (play ops (log c) (world c, group c)).2 in mkConfiguration (records c) (log c) s.1 s.2.

Lemma after_history ops c :
  history options_ queue_name group_id c (play ops (log c) (world c, group c)).1 (after ops c).
Proof. destruct c. apply play_history. Qed.
End play.

(** ** Properties *)

Section properties.
Context `{Env}.
Context (options_ : EngineOptions) (queue_name group_id : string).

Abbreviation config_ok := (config_ok options_ queue_name group_id).
Abbreviation history := (history options_ queue_name group_id).
Context (Hclock : clock_bounded).

Lemma settled_final c tr1 op id tr2 c' :
  config_ok c → settles op id →
  history c (tr1 ++ (op, GotStatus (Good tt)) :: tr2) c' →
  delivered id tr2 = 0 ∧
  ∃ rt, runtime (group c') !! id = Some rt ∧ state rt = settled_state op ∧
    inflight (group c') !! id = None.
Proof.
  intros Hok Hop Hh. apply history_split in Hh as (rs & seg & w & g & w' & g' & Hh1 & Hrun & Hh2).
  destruct (history_run _ _ _ _ _ _ Hclock Hok Hh1) as [Hok1 _].
  pose proof (run_op_spec _ _ _ op _ Hclock Hok1) as Hspec. cbn [log world group fst snd] in *.
  rewrite Hrun in Hspec. destruct Hspec as [Hp _].
  pose proof (config_ok_op _ _ _ _ _ _ Hok1 Hp) as Hok2. cbn [records log] in Hok2.
  destruct Hok1 as (Hg & _).
  destruct (settles_terminal _ _ _ _ _ _ _ _ _ _ Hg Hop Hrun) as (rt & Hrt & Hst).
  destruct (history_run _ _ _ _ _ _ Hclock Hok2 Hh2) as [_ (n & es & Hr & Hd)].
  destruct Hok2 as (Hg2 & _). cbn [group] in *.
  destruct (terminal_absorbing _ _ _ _ _ id rt Hr Hg2 Hrt) as (Hrt' & Hi & Hz).
  { unfold terminal, settled_state in *. destruct Hop as [-> | ->]; auto. }
  split; [|by exists rt]. specialize (Hd id). unfold delivered in *. lia.
Qed.

(** C4. Settling is final.  Once an acknowledgement, or a rejection without
    requeueing, was answered with success, no later operation of the history
    delivers the message again, whatever times out, fails or is called in
    between; it ends acknowledged or dead, without a lease. *)
Theorem settled_never_redelivered c tr1 op id tr2 c' :
  config_ok c → settles op id →
  history c (tr1 ++ (op, GotStatus (Good tt)) :: tr2) c' →
  delivered id tr2 = 0 ∧
  ∃ rt, runtime (group c') !! id = Some rt ∧ state rt = settled_state op ∧
    inflight (group c') !! id = None.
Proof. apply settled_final. Qed.

(** C8. Bounded delivery.  From a group in which exactly the messages in flight
    are leased, a message that is ready with [r] retries used up is handed
    out at most [max_retry_count + 1 - r] times over any history, however
    often it is rejected or times out. *)
Theorem deliveries_bounded c tr c' id rt :
  config_ok c → coherent (group c) → 0 <= max_retry_count options_ < 2 ^ 32 - 1 →
  runtime (group c) !! id = Some rt → 0 <= retry_count rt →
  history c tr c' → delivered id tr <= budget options_ rt.
Proof.
  intros Hok Hcoh Hmax Hrt Hr Hh.
  destruct (history_run _ _ _ _ _ _ Hclock Hok Hh) as [_ (n & es & Hrun & Hd)].
  destruct Hok as (Hg & _). etrans; [apply Hd|]. by eapply delivery_bound.
Qed.


(** C13. Every history keeps the group's invariant (512 wheel slots, leases of
    known and live messages only, a lease for every message in flight, live
    messages within the retry limit), the agreement of its offsets with the
    log, and the absence of leases of messages that are not in flight. *)
Theorem history_keeps_invariant c tr c' :
  config_ok c → history c tr c' →
  config_ok c' ∧ (coherent (group c) → coherent (group c')).
Proof.
  intros Hok Hh. destruct (history_run _ _ _ _ _ _ Hclock Hok Hh) as [Hok' (n & es & Hrun & _)].
  split; [done|]. by eapply group_run_coherent.
Qed.

(** Sequence numbers are handed out once.  A history of [k] operations takes at
    most as many numbers as the wheel held entries at its beginning, and two
    for every operation; as long as that does not take the counter past 64
    bits, the transition log grows, when nothing is refused, at its end only,
    by events with strictly increasing sequence numbers, all taken from the
    counter between its first and its last value. *)
Theorem history_log_sequences c tr c' :
  config_ok c → history c tr c' →
  next_sequence (group c) + wheel_entries (group c) + 2 * Z.of_nat (length tr) < 2 ^ 64 →
  next_sequence (group c) <= next_sequence (group c') <=
    next_sequence (group c) + wheel_entries (group c) + 2 * Z.of_nat (length tr) ∧
  ∃ es,
    (calm_run → file_bytes (world c') (GroupEventPath options_ queue_name group_id) =
      file_bytes (world c) (GroupEventPath options_ queue_name group_id) ++
      concat (map encode_event es)) ∧
    runtime (group c') = replayed es (runtime (group c)) ∧
    Forall (λ e, next_sequence (group c) <= ev_sequence e < next_sequence (group c')) es ∧
    StronglySorted Z.lt (map ev_sequence es).
Proof.
  intros Hok Hh Hlim.
  destruct (history_progress _ _ _ _ _ _ Hclock Hok Hh) as (n & es & Hrun & Hb & _ & _ & Hk).
  assert (0 <= wheel_entries (group c')) by (unfold wheel_entries; lia).
  destruct Hok as (Hg & _).
  destruct (run_sequences _ _ _ _ _ Hrun) as (Hn & Hall & Hsort); [by destruct Hg|lia|].
  split; [lia|]. exists es. split_and!; [done|by eapply group_run_replayed|done..].
Qed.

(** C29. A message that the group did not know when it was loaded is never
    delivered to it, whatever its consumers call: in particular a message
    produced after the group's first operation, which the log holds, waits
    until the engine is restarted. *)
Theorem late_message_never_delivered c tr c' id :
  config_ok c → runtime (group c) !! id = None → history c tr c' →
  delivered id tr = 0 ∧ runtime (group c') !! id = None.
Proof.
  intros Hok Hid Hh. destruct (history_run _ _ _ _ _ _ Hclock Hok Hh) as [_ (n & es & Hrun & Hd)].
  destruct (unknown_undelivered _ _ _ _ _ id Hrun Hid) as [Hn Hz].
  split; [|done]. specialize (Hd id). unfold delivered in *. lia.
Qed.
End properties.
