(* ===== verification/Values.v ===== *)
(** * The values of a group, and its lease tokens

    Every field of a group's state stays in the range of its C++ type over any
    history, so that nothing the engine writes to a file is cut to its width;
    and a lease token names one delivery, ever. *)
From stdpp Require Import pretty.
From S2P Require Import Prelude Decimal Status Io DurableIo Record SegmentLog Checkpoint Message EventLog.
From S2P Require Import Group Lifecycle Handlers HandlerSpecs Operations.

(** ** Lease tokens *)

Lemma make_token_bytes id seq :
  bytes_of_string (make_token id seq) =
  bytes_of_string (pretty (id_high id)) ++
    Byte.x3a :: bytes_of_string (pretty (id_low id)) ++ Byte.x3a :: bytes_of_string (pretty seq).
Proof. unfold make_token. by rewrite !bytes_of_string_app. Qed.

(** The message and the sequence number can be read off a token. *)
Lemma make_token_inj `{Env} id seq id' seq' :
  wf_id id → wf_id id' → 0 <= seq → 0 <= seq' →
  make_token id seq = make_token id' seq' → id = id' ∧ seq = seq'.
Proof.
  intros [Hh Hl] [Hh' Hl'] Hs Hs' Heq%(f_equal bytes_of_string). rewrite !make_token_bytes in Heq.
  apply separator_inj in Heq as [Hhigh Heq]; [|apply digits_no_colon, pretty_digits; lia..].
  apply separator_inj in Heq as [Hlow Hseq]; [|apply digits_no_colon, pretty_digits; lia..].
  apply bytes_of_string_inj, (inj pretty) in Hhigh, Hlow, Hseq.
  destruct id, id'. by simplify_eq/=.
Qed.

Lemma make_token_length `{Env} id seq :
  wf_id id → is_u64 seq → (length (bytes_of_string (make_token id seq)) <= 62)%nat.
Proof.
  intros [Hh Hl] Hs. rewrite make_token_bytes, !length_app. cbn [length]. rewrite length_app. cbn [length].
  pose proof (pretty_u64_length _ Hh). pose proof (pretty_u64_length _ Hl).
  pose proof (pretty_u64_length _ Hs). lia.
Qed.

(** ** Fields in their range *)

Section typed.
Context `{Env}.
Context (options_ : EngineOptions) (group_id : string).

(** The allocator grants the strings of the engine and the group's name. *)
Definition roomy : Prop := 64 <= alloc_limit ∧ wf_string group_id.

Definition wf_inflight (x : InflightEntry) : Prop :=
  is_u64 (ie_offset x) ∧ is_u64 (deadline_ms x) ∧ is_u64 (bucket_tick x) ∧
  wf_string (owner x) ∧ wf_string (lease_token x).

Record typed (g : ConsumerGroupState) : Prop := {
  typed_runtime : map_Forall (λ id rt, wf_id id ∧ wf_runtime rt) (runtime g);
  typed_inflight : map_Forall (λ id x, wf_id id ∧ wf_inflight x) (inflight g);
  typed_next : is_u64 (next_sequence g);
  typed_base : is_u64 (wheel_base_tick g);
}.

Lemma typed_core g g' : same_core g g' → typed g → typed g'.
Proof. intros (Hr & Hi & _ & Hn & Hb) []. split; rewrite ?Hr, ?Hi, ?Hn; auto. Qed.

Lemma typed_bump g : typed g → typed (bump g).
Proof. intros []. split; try done. apply u64_range. Qed.

Lemma short_string s : roomy → (length (bytes_of_string s) <= 64)%nat → wf_string s.
Proof. intros [Hr _] Hs. unfold wf_string. lia. Qed.

Lemma reason_short r : known_reason r → (length (bytes_of_string (ReasonToString r)) <= 64)%nat.
Proof. destruct r; simpl; [lia..|done]. Qed.

(** A legal and stamped event fits the fields of the transition log. *)
Lemma stamped_wf g e :
  roomy → typed g → legal_event options_ g e → ev_sequence e = next_sequence g →
  stamped group_id e → wf_event e.
Proof.
  intros Hroom [Hrt _ Hn _] Hlegal Hseq (Ha & Ht & Hd & Hk & Hnames).
  assert (is_Some (runtime g !! ev_id e)) as [rt Hid] by (by eapply legal_known).
  destruct (Hrt _ _ Hid) as [Hwf (_ & Hretry & _)].
  assert (is_u32 (ev_retry_count e)) as Hr.
  { destruct Hlegal as [rt' H1 _ _ ->|rt' _ H1 _ ->|rt' _ H1 _ -> _|rt' _ H1 _ [->|[-> _]]];
      simplify_eq; first [done|apply u32_range]. }
  assert (wf_string (ev_owner e) ∧ wf_string (ev_lease_token e)) as [].
  { destruct (decide _); destruct Hnames as [-> ->].
    - split; [by destruct Hroom|]. apply short_string; [done|].
      rewrite Hseq. pose proof (make_token_length _ _ Hwf Hn). lia.
    - split; apply short_string; [done|simpl; lia|done|simpl; lia]. }
  unfold wf_event. rewrite Hseq. tauto.
Qed.

Lemma applied_typed g e :
  roomy → typed g → wf_event e → typed (applied options_ e g).
Proof.
  intros Hroom [Hrt Hin Hn Hb] (Hs & Hid & Hr & Ha & Ht & Hd & Ho & Hk & Hkn). split.
  - intros id rt. rewrite applied_runtime. case_decide as Heq; [|apply Hrt].
    intros (rt0 & Hrt0 & ->)%fmap_Some. destruct (Hrt _ _ Hrt0) as [? (? & _ & ? & _)].
    split; [done|]. pose proof (short_string _ Hroom (reason_short _ Hkn)).
    unfold wf_runtime. cbn. tauto.
  - intros id x. destruct (decide (id = ev_id e)) as [->|Hne];
      [|rewrite applied_inflight_ne by done; apply Hin].
    unfold applied. destruct (runtime g !! ev_id e) as [rt|] eqn:Hrt0; [|apply Hin].
    destruct (ev_state e); cbn; rewrite ?lookup_insert_eq, ?lookup_delete_eq; try done.
    intros [= <-]. split; [done|]. destruct (Hrt _ _ Hrt0) as [_ (Hoff & _)].
    pose proof (now_tick_range options_ (ev_deadline_ms e) (proj1 Hd)).
    assert (0 <= ev_deadline_ms e / tick_ms options_).
    { apply Z.div_pos; [lia|]. unfold tick_ms. lia. }
    assert (is_u64 (ev_deadline_ms e / tick_ms options_)) by lia.
    unfold wf_inflight. cbn. tauto.
  - by rewrite applied_next.
  - by rewrite applied_base.
Qed.

(** Along a run whose events are stamped everything stays in range, and so is
    what is logged. *)
Lemma typed_run g n es g' :
  roomy → group_run options_ g n es g' → Forall (stamped group_id) es → typed g →
  typed g' ∧ Forall wf_event es.
Proof.
  intros Hroom. induction 1 as [|n es g1 g2 _ IH Hc|n es g1 _ IH|n es g1 e _ IH Hlegal Hseq];
    intros Hst Hg.
  - done.
  - destruct IH; [done..|]. split; [by eapply typed_core|done].
  - destruct IH; [done..|]. split; [by apply typed_bump|done].
  - apply Forall_app in Hst as [Hst He]. rewrite Forall_singleton in He. destruct IH as [Hg1 Hes]; [done..|].
    pose proof (stamped_wf g1 e Hroom Hg1 Hlegal Hseq He) as Hwf.
    split; [by apply applied_typed; [|apply typed_bump|]|]. by apply Forall_app; split;
      [|apply Forall_singleton].
Qed.
End typed.

(** ** Lease tokens over a run *)

Section tokens.
Context `{Env}.
Context (options_ : EngineOptions) (group_id : string).

(** The token of a lease is made of its message and a number already taken. *)
Definition named (g : ConsumerGroupState) : Prop :=
  map_Forall (λ id x, wf_id id ∧ ∃ seq, lease_token x = make_token id seq ∧
    0 <= seq < next_sequence g) (inflight g).

(** Along a run a lease is an old one, or its token has a number taken
    meanwhile. *)
Definition leases_since (g g' : ConsumerGroupState) : Prop :=
  ∀ id x, inflight g' !! id = Some x →
    inflight g !! id = Some x ∨
    ∃ seq, lease_token x = make_token id seq ∧ next_sequence g <= seq < next_sequence g'.

Lemma run_leases g n es g' :
  group_run options_ g n es g' → Forall (stamped group_id) es → is_u64 (next_sequence g) →
  next_sequence g + Z.of_nat n < 2 ^ 64 →
  next_sequence g' = next_sequence g + Z.of_nat n ∧ leases_since g g'.
Proof.
  induction 1 as [|n es g1 g2 _ IH (_ & Hi & _ & Hn & _)|n es g1 _ IH|n es g1 e _ IH Hlegal Hseq];
    intros Hst Hg Hlim.
  - split; [lia|]. by left.
  - rewrite Hn. unfold leases_since. rewrite Hi, Hn. by apply IH.
  - destruct IH as [Hn Hl]; [done..|lia|]. cbn. rewrite u64_small by lia. split; [lia|].
    intros id x Hx. destruct (Hl id x Hx) as [?|(seq & ? & ?)]; [by left|right].
    exists seq. cbn. rewrite u64_small by lia. split; [done|lia].
  - apply Forall_app in Hst as [Hst He]. rewrite Forall_singleton in He.
    destruct IH as [Hn Hl]; [done..|lia|].
    assert (next_sequence (applied options_ e (bump g1)) = next_sequence g1 + 1) as Hn'
      by (rewrite applied_next; cbn; apply u64_small; lia).
    split; [lia|]. intros id x Hx. rewrite Hn'. destruct (decide (id = ev_id e)) as [->|Hne].
    + right. exists (ev_sequence e). rewrite Hseq. split; [|lia].
      destruct He as (_ & _ & _ & _ & He). rewrite <-Hseq. clear Hl.
      destruct (legal_known _ _ _ Hlegal) as [rt Hrt]. revert Hx. unfold applied.
      cbn [bump runtime set_next_sequence]. rewrite Hrt.
      destruct (ev_state e); cbn in *; rewrite ?lookup_insert_eq, ?lookup_delete_eq; try done.
      intros [= <-]. cbn. by destruct He.
    + rewrite applied_inflight_ne in Hx by done.
      destruct (Hl id x Hx) as [?|(seq & ? & ?)]; [by left|right]. exists seq. split; [done|lia].
Qed.

Lemma leases_since_named g g' :
  named g → leases_since g g' → next_sequence g <= next_sequence g' → 0 <= next_sequence g →
  (∀ id, is_Some (inflight g' !! id) → wf_id id) → named g'.
Proof.
  intros Hg Hl Hn Hpos Hid id x Hx. split; [by apply Hid; eexists|].
  destruct (Hl id x Hx) as [Hold|(seq & ? & ?)]; [|exists seq; split; [done|lia]].
  destruct (Hg id x Hold) as [_ (seq & ? & ?)]. exists seq. split; [done|lia].
Qed.

(** Of two leases with the same token, one taken later, the later is the
    earlier one unchanged. *)
Lemma same_token_same_lease g g' id x id' x' :
  named g → named g' → leases_since g g' →
  inflight g !! id = Some x → inflight g' !! id' = Some x' → lease_token x = lease_token x' →
  id' = id ∧ x' = x.
Proof.
  intros Hg Hg' Hl Hx Hx' Heq. destruct (Hg _ _ Hx) as [Hid (s & Hs & Hs1)].
  destruct (Hg' _ _ Hx') as [Hid' (s' & Hs' & Hs1')].
  rewrite Hs, Hs' in Heq. apply make_token_inj in Heq as [<- <-]; [|done|done|lia|lia].
  split; [done|]. destruct (Hl _ _ Hx') as [Hold|(s2 & Hs2 & Hr)]; [by simplify_eq|].
  rewrite Hs' in Hs2. apply make_token_inj in Hs2 as [_ <-]; [lia|done|done|lia|lia].
Qed.
End tokens.

(** ** Properties *)

Section properties.
Context `{Env}.
Context (options_ : EngineOptions) (queue_name group_id : string).

Abbreviation config_ok := (config_ok options_ queue_name group_id).
Abbreviation history := (history options_ queue_name group_id).
Context (Hclock : clock_bounded).

(** C18. Every value has its C++ type, always.  Over any history of operations,
    whatever is refused, every integer of the group's state stays in the
    range of its unsigned type and every string within what the allocator
    grants.  The history changes the group by a run of transition events, each
    of which fits the fields of the transition log and is therefore read back
    as it was written; when nothing is refused, those events are what the
    log has grown by. *)
Theorem history_typed c tr c' :
  roomy group_id → config_ok c → typed (group c) → history c tr c' →
  typed (group c') ∧
  ∃ n es, group_run options_ (group c) n es (group c') ∧
    runtime (group c') = replayed es (runtime (group c)) ∧ Forall wf_event es ∧
    (calm_run → file_bytes (world c') (GroupEventPath options_ queue_name group_id) =
       file_bytes (world c) (GroupEventPath options_ queue_name group_id) ++
       concat (map encode_event es)).
Proof.
  intros Hroom Hok Hty Hh.
  destruct (history_progress _ _ _ _ _ _ Hclock Hok Hh) as (n & es & Hrun & Hb & Hst & _).
  destruct (typed_run _ _ _ _ _ _ Hroom Hrun Hst Hty) as [Hty' Hes].
  split; [done|]. exists n, es. split_and!; [done|by eapply group_run_replayed|done..].
Qed.

(** C14. Lease tokens are unique per delivery.  Unless the 64-bit counter can wrap
    around (a history of [k] operations takes at most [2 k] numbers and one
    for every entry of the wheel at its beginning), two leases that are held
    at the beginning and at the end of a history, of any two messages, have
    the same token only when they are one and the same lease, and every lease
    held at the end is named after its message and a number already taken. *)
Theorem lease_tokens_unique c tr c' :
  roomy group_id → config_ok c → typed (group c) → named (group c) → history c tr c' →
  next_sequence (group c) + wheel_entries (group c) + 2 * Z.of_nat (length tr) < 2 ^ 64 →
  named (group c') ∧
  ∀ id x id' x', inflight (group c) !! id = Some x → inflight (group c') !! id' = Some x' →
    lease_token x = lease_token x' → id' = id ∧ x' = x.
Proof.
  intros Hroom Hok Hty Hnamed Hh Hlim.
  destruct (history_progress _ _ _ _ _ _ Hclock Hok Hh) as (n & es & Hrun & _ & Hst & _ & Hk).
  destruct (typed_run _ _ _ _ _ _ Hroom Hrun Hst Hty) as [Hty' _].
  assert (0 <= wheel_entries (group c')) by (unfold wheel_entries; lia).
  pose proof (typed_next _ Hty).
  destruct (run_leases _ _ _ _ _ _ Hrun Hst (typed_next _ Hty)) as [Hn Hl]; [lia|].
  assert (named (group c')) as Hnamed'.
  { apply (leases_since_named (group c)); [done|done|lia|lia|].
    intros id [x Hx]. by destruct (typed_inflight _ Hty' id x Hx). }
  split; [done|]. intros *. by apply same_token_same_lease.
Qed.
End properties.
