(* ===== verification/Engine.v ===== *)
(** * The queue engine ([src/core/engine/queue_engine.cc])

    Loading a group from the segment, its snapshot and its transition log;
    the table of queues; and the operations that run on a shard, composed of
    the group's handlers as the code composes them.  The state is the world
    and the table of queues. *)
From S2P Require Import Prelude Status Io Record SegmentLog Checkpoint Message EventLog Group.
From S2P Require Import Handlers.

Record QueueState := mkQueue {
  segment : SegmentLog;
  groups : gmap string ConsumerGroupState;
}.

Definition set_segment (s : SegmentLog) (q : QueueState) : QueueState := mkQueue s (groups q).
Definition set_group (id : string) (g : ConsumerGroupState) (q : QueueState) : QueueState :=
  mkQueue (segment q) (<[id := g]> (groups q)).

Record ReplayResult := mkReplay {
  applied_sequence : Z;
  replay_stats : QueueStats;
}.

Abbreviation Queues := (gmap string QueueState).
Abbreviation EngM := (M (World * Queues)).

Section engine.
Context `{Env}.
Context (options_ : EngineOptions).

(** ** Loading a group *)

Definition default_runtime (off enqueued : Z) (reason : string) : MessageRuntime :=
  mkRuntime kReady off 0 enqueued enqueued 0 0 reason.

(** The loop over the segment's offsets, filling [offset_to_message]. *)
Fixpoint read_messages (seg : SegmentLog) (offsets : list Z) (m : gmap Z (MessageId * Z))
    : W (gmap Z (MessageId * Z)) :=
  match offsets with
  | [] => ret m
  | off :: offsets =>
      let! record := Read seg off in
      read_messages seg offsets (<[off := (record_id record, enqueue_ts (header record))]> m)
  end.

Definition fill_runtime (entries : list (Z * (MessageId * Z))) (rts : gmap MessageId MessageRuntime)
    : gmap MessageId MessageRuntime :=
  foldl (λ m it, <[it.2.1 := default_runtime it.1 it.2.2 "recovered-default-ready"]> m) rts entries.

(** [group.next_sequence = max(group.next_sequence, event.sequence + 1)]
    after each event. *)
Fixpoint replay_events (es : list TransitionEvent) : GroupM unit :=
  match es with
  | [] => ret tt
  | e :: es =>
      do! ApplyTransition options_ e in
      do! on_snd (modify (λ g,
            set_next_sequence (Z.max (next_sequence g) (u64 (ev_sequence e + 1))) g)) in
      replay_events es
  end.

Definition take_back (t : Z) (rt : MessageRuntime) : MessageRuntime :=
  match state rt with
  | kInFlight =>
      mkRuntime kReady (rt_offset rt) (retry_count rt) (rt_enqueue_ts rt) t t (sequence rt)
        (ReasonToString kRecoveredInflightToReady)
  | _ => rt
  end.

Definition LoadGroupState (queue_name group_id : string) (seg : SegmentLog) : GroupM unit :=
  do! InitScheduler options_ in
  let! msgs := on_fst (read_messages seg (Offsets seg) ∅) in
  let! entries := on_fst (traverse msgs) in
  do! on_snd (modify (λ g, set_runtime (fill_runtime entries (runtime g)) g)) in
  let! g := gets snd in
  let! snap := on_fst (load_snapshot (GroupStatePath options_ queue_name group_id)
                         (next_sequence g) (runtime g)) in
  do! on_snd (modify (λ g, set_runtime snap.2 (set_next_sequence snap.1 g))) in
  let! es := on_fst (LoadTransitions (GroupEventPath options_ queue_name group_id) UINT64_MAX) in
  do! replay_events es in
  let! t := on_fst now in
  do! on_snd (modify (λ g, set_runtime (take_back t <$> runtime g) g)) in
  BuildReadyQueue.

(** ** The tables *)

Definition GetQueue (queue_name : string) : EngM QueueState :=
  let! qs := gets snd in
  match qs !! queue_name with
  | None => fail kNotFound "queue not found"
  | Some q => ret q
  end.

Definition CheckpointPath (queue_name group_id : string) : string :=
  path_join (path_join (data_dir options_) queue_name) (group_id +:+ ".checkpoint").

(** After [GetGroup] the group is in the table of its queue; a group that
    fails to load is dropped. *)
Definition GetGroup (queue_name group_id : string) : EngM unit :=
  let! q := GetQueue queue_name in
  match groups q !! group_id with
  | Some _ => ret tt
  | None =>
      λ s,
        let store := mkCheckpointStore (CheckpointPath queue_name group_id) (fsync_policy options_) in
        let '(o, (w, g)) :=
          LoadGroupState queue_name group_id (segment q) (s.1, new_Group store) in
        (o, (w, match o with
                | Good _ => <[queue_name := set_group group_id g q]> s.2
                | _ => s.2
                end))
  end.

(** Run a handler on a group of the table. *)
Definition on_group {A} (queue_name group_id : string) (m : SegmentLog → GroupM A) : EngM A :=
  do! GetGroup queue_name group_id in
  λ s,
    match s.2 !! queue_name with
    | None => (Throw "dangling queue", s)
    | Some q =>
        match groups q !! group_id with
        | None => (Throw "dangling group", s)
        | Some g =>
            let '(o, (w, g)) := m (segment q) (s.1, g) in
            (o, (w, <[queue_name := set_group group_id g q]> s.2))
        end
    end.

(** ** Operations on a shard *)

Definition SegmentPath (queue_name : string) : string :=
  path_join (path_join (data_dir options_) queue_name) "seg-000001.log".

Definition CreateQueueOnShard (queue_name : string) : EngM unit := λ s,
  match s.2 !! queue_name with
  | Some _ => (Fail (mkStatus kAlreadyExists "queue already exists"), s)
  | None =>
      let '(o, (w, seg)) :=
        (do! Open in Recover) (s.1, new_SegmentLog (SegmentPath queue_name) (fsync_policy options_)) in
      (o, (w, match o with Good _ => <[queue_name := mkQueue seg ∅]> s.2 | _ => s.2 end))
  end.

Definition record_of (m : Message) : Record_ :=
  mkRecord (mkRecordHeader kRecordMagic kRecordVersion 0 0 0 0 (msg_enqueue_ts m)
              (id_high (msg_id m)) (id_low (msg_id m)) 0)
    (msg_payload m) (ordered_entries (msg_headers m)) (msg_routing_key m).

Definition ProduceOnShard (queue_name : string) (message : Message) : EngM Z :=
  let! q := GetQueue queue_name in
  if max_queue_depth options_ <=? next_offset_ (segment q)
  then fail kUnavailable "queue is full"
  else
    let! size := on_fst (SizeBytes (segment q)) in
    if max_segment_size_bytes options_ <=? size
    then fail kUnavailable "segment size limit reached"
    else
      λ s, let '(o, (w, seg)) := Append (record_of message) (s.1, segment q) in
           (o, (w, <[queue_name := set_segment seg q]> s.2)).

Definition ConsumeOnShard (queue_name group_id : string) : EngM (option ConsumeResult) :=
  on_group queue_name group_id (ConsumeGroup options_ queue_name group_id).

Definition AckOnShard (queue_name group_id : string) (id : MessageId) : EngM unit :=
  on_group queue_name group_id (λ _, AckGroup options_ queue_name group_id id).

Definition NackOnShard (queue_name group_id : string) (id : MessageId) (requeue : bool) : EngM unit :=
  on_group queue_name group_id (λ _, NackGroup options_ queue_name group_id id requeue).

Definition GetStatsOnShard (queue_name group_id : string) : EngM QueueStats :=
  on_group queue_name group_id (λ _, StatsGroup options_ queue_name group_id).

Definition InspectMessageOnShard (queue_name group_id : string) (id : MessageId)
    : EngM MessageDebugView :=
  on_group queue_name group_id (λ _, InspectGroup id).

(** ** Replay *)

(** The loop over the offsets, in their order. *)
Fixpoint replay_messages (seg : SegmentLog) (offsets : list Z) : GroupM unit :=
  match offsets with
  | [] => ret tt
  | off :: offsets =>
      let! record := on_fst (Read seg off) in
      do! on_snd (modify (λ g, set_runtime (<[record_id record :=
            default_runtime off (enqueue_ts (header record)) "replay-default-ready"]> (runtime g)) g)) in
      replay_messages seg offsets
  end.

Fixpoint apply_all (es : list TransitionEvent) : GroupM unit :=
  match es with
  | [] => ret tt
  | e :: es => do! ApplyTransition options_ e in apply_all es
  end.

Definition ReplayGroup (queue_name group_id : string) (until_sequence : Z) (seg : SegmentLog)
    : GroupM ReplayResult :=
  do! InitScheduler options_ in
  do! replay_messages seg (Offsets seg) in
  let! es := on_fst (LoadTransitions (GroupEventPath options_ queue_name group_id) until_sequence) in
  do! apply_all es in
  do! BuildReadyQueue in
  let! g := gets snd in
  let! entries := on_fst (traverse (runtime g)) in
  ret (mkReplay (match last es with None => 0 | Some e => ev_sequence e end)
         (count_entries entries zero_stats)).

Definition ReplayToSequenceOnShard (queue_name group_id : string) (until_sequence : Z)
    : EngM ReplayResult :=
  let! q := GetQueue queue_name in
  on_fst (λ w,
    let '(o, (w, _)) := ReplayGroup queue_name group_id until_sequence (segment q)
      (w, new_Group (mkCheckpointStore "/tmp/not-used" (fsync_policy options_))) in
    (o, w)).
End engine.
