(* ===== verification/Recovery.v ===== *)
(** * Recovery

    What [LoadGroupState] makes of the files of a group, and what therefore
    survives a restart. *)
From S2P Require Import Prelude Status Io DurableIo Record SegmentLog Checkpoint Message EventLog.
From S2P Require Import Group Lifecycle Handlers HandlerSpecs Engine.

(** ** Filling maps *)

Section fill.
Context `{Countable K} {A : Type}.

Lemma foldl_insert (l : list (K * A)) (m : gmap K A) :
  foldl (λ m it, <[it.1 := it.2]> m) m l = list_to_map (reverse l) ∪ m.
Proof.
  revert m. induction l as [|[k a] l IH]; intros m; simpl; [by rewrite (left_id_L ∅ (∪))|].
  rewrite IH, reverse_cons, list_to_map_app. simpl.
  rewrite insert_empty, <-(assoc_L (∪)). f_equal. by rewrite insert_union_singleton_l.
Qed.

Lemma foldl_insert_nodup (l : list (K * A)) :
  NoDup l.*1 →
  foldl (λ m it, <[it.1 := it.2]> m) (∅ : gmap K A) l = (list_to_map l : gmap K A).
Proof.
  intros Hnd. rewrite foldl_insert, (right_id_L ∅ (∪)). symmetry.
  apply list_to_map_proper; [done|]. symmetry. apply reverse_Permutation.
Qed.
End fill.

(** ** The messages of a log *)

Definition log_entry (i : nat) (r : Record_) : Z * (MessageId * Z) :=
  (Z.of_nat i, (record_id r, enqueue_ts (header r))).

Definition log_entries (rs : list Record_) : list (Z * (MessageId * Z)) := imap log_entry rs.

(** Every message of the log, ready since it was enqueued. *)
Definition log_runtime (reason : string) (rs : list Record_) : gmap MessageId MessageRuntime :=
  list_to_map (imap (λ i r,
    (record_id r, default_runtime (Z.of_nat i) (enqueue_ts (header r)) reason)) rs).

Definition distinct_ids (rs : list Record_) : Prop := NoDup (record_id <$> rs).

Lemma log_entries_keys rs : (log_entries rs).*1 = Z.of_nat <$> seq 0 (length rs).
Proof.
  unfold log_entries. apply list_eq. intros i.
  rewrite !list_lookup_fmap, list_lookup_imap.
  destruct (decide (i < length rs)%nat) as [Hi|Hi].
  - rewrite lookup_seq_lt by done. by destruct (lookup_lt_is_Some_2 rs i Hi) as [r ->].
  - rewrite lookup_seq_ge, (lookup_ge_None_2 rs) by lia. done.
Qed.

Lemma log_entries_nodup rs : NoDup (log_entries rs).*1.
Proof. rewrite log_entries_keys. apply NoDup_fmap_2; [apply _|apply NoDup_seq]. Qed.

Lemma log_runtime_keys reason rs :
  (imap (λ i r, (record_id r, default_runtime (Z.of_nat i) (enqueue_ts (header r)) reason)) rs).*1
  = record_id <$> rs.
Proof.
  apply list_eq. intros i. rewrite !list_lookup_fmap, list_lookup_imap. by destruct (rs !! i).
Qed.

Lemma lookup_log_runtime reason rs id rt :
  distinct_ids rs →
  log_runtime reason rs !! id = Some rt ↔
  ∃ i r, rs !! i = Some r ∧ record_id r = id ∧
         rt = default_runtime (Z.of_nat i) (enqueue_ts (header r)) reason.
Proof.
  intros Hd. unfold log_runtime.
  rewrite <-elem_of_list_to_map by (by rewrite log_runtime_keys).
  rewrite list_elem_of_lookup. setoid_rewrite list_lookup_imap. split.
  - intros (i & Hi). destruct (rs !! i) as [r|] eqn:Hr; [|done]. simplify_eq/=. eauto 6.
  - intros (i & r & Hr & <- & ->). exists i. by rewrite Hr.
Qed.

(** However [offset_to_message] is traversed, distinct identifiers give the
    same runtime map. *)
Lemma fill_runtime_log rs entries :
  distinct_ids rs → entries ≡ₚ log_entries rs →
  fill_runtime entries ∅ = log_runtime "recovered-default-ready" rs.
Proof.
  intros Hd Hp.
  set (f := λ it : Z * (MessageId * Z),
    (it.2.1, default_runtime it.1 it.2.2 "recovered-default-ready")).
  assert (∀ l m, fill_runtime l m = foldl (λ m it, <[it.1 := it.2]> m) m (f <$> l)) as Hf.
  { intros l. induction l as [|it l IH]; intros m; [done|]. unfold fill_runtime in *. cbn. by rewrite IH. }
  assert (f <$> log_entries rs = imap (λ i r,
    (record_id r, default_runtime (Z.of_nat i) (enqueue_ts (header r)) "recovered-default-ready")) rs)
    as Hlog.
  { unfold log_entries. apply list_eq. intros i. rewrite list_lookup_fmap, !list_lookup_imap.
    by destruct (rs !! i). }
  assert (f <$> entries ≡ₚ f <$> log_entries rs) as Hpf by (by rewrite Hp).
  assert (NoDup (f <$> entries).*1) as Hnd by (rewrite Hpf, Hlog, log_runtime_keys; done).
  rewrite Hf, foldl_insert_nodup by done. unfold log_runtime. rewrite <-Hlog.
  by apply list_to_map_proper.
Qed.

(** The offsets of an indexed log, in order. *)
Lemma Offsets_indexed `{Env} rs s :
  indexed rs s → Offsets s = Z.of_nat <$> seq 0 (length rs).
Proof.
  intros (_ & Hnum & Hidx). unfold Offsets.
  assert (offset_to_position_ s = (index_records 0 rs 0 ∅).2) as -> by (by rewrite <-Hidx).
  change (map fst ?l) with (l.*1).
  apply (Sorted_unique Z.le).
  - apply Sorted_merge_sort, _.
  - apply StronglySorted_Sorted. clear Hidx Hnum. generalize 0%nat as k.
    induction (length rs) as [|n IH]; intros k; cbn; constructor; [apply IH|].
    apply Forall_forall. intros x (i & -> & Hi%elem_of_seq)%list_elem_of_fmap. lia.
  - rewrite merge_sort_Permutation. apply NoDup_Permutation.
    + apply NoDup_fst_map_to_list.
    + apply NoDup_fmap_2; [apply _|apply NoDup_seq].
    + intros o. rewrite (list_elem_of_fmap _ (map_to_list _)). split.
      * intros ([o' p] & -> & Hp%elem_of_map_to_list). cbn.
        pose proof (index_dom rs o' p Hnum Hp). apply list_elem_of_fmap. exists (Z.to_nat o').
        split; [lia|]. apply elem_of_seq. lia.
      * intros (i & -> & Hi%elem_of_seq)%list_elem_of_fmap.
        destruct (lookup_lt_is_Some_2 rs i) as [r Hr]; [lia|].
        exists (Z.of_nat i, length (log_bytes (take i rs))). split; [done|].
        apply elem_of_map_to_list. by eapply index_lookup.
Qed.

Section load.
Context `{Env}.
Context (options_ : EngineOptions) (queue_name group_id : string).

Abbreviation event_path := (GroupEventPath options_ queue_name group_id).
Abbreviation state_path := (GroupStatePath options_ queue_name group_id).

Lemma wp_read_messages rs post seg k m (Q : outcome (gmap Z (MessageId * Z)) → World → Prop) w :
  indexed rs seg → files w !! path_ seg = Some (log_bytes rs ++ post) → (k <= length rs)%nat →
  (∀ e w', io_only w w' → ¬ calm_run → Q (Fail e) w') →
  (∀ w', io_only w w' →
     Q (Good (foldl (λ m it, <[it.1 := it.2]> m) m (drop k (log_entries rs)))) w') →
  wp (read_messages seg (Z.of_nat <$> seq k (length rs - k)) m) Q w.
Proof.
  intros Hidx Hfile. remember (length rs - k)%nat as n eqn:Hn.
  revert k m w Hn Hfile. induction n as [|n IH]; intros k m w Hn Hfile Hk Hbad Hgood.
  - apply wp_ret. rewrite drop_ge in Hgood; [by apply Hgood|].
    unfold log_entries. rewrite length_imap. lia.
  - cbn [seq fmap list_fmap read_messages].
    destruct (lookup_lt_is_Some_2 rs k) as [r Hr]; [lia|].
    apply wp_bind. eapply wp_read_or_refused; [done..| |]; [done|].
    intros w1 H1. apply IH; [lia|by destruct H1 as (-> & _)|lia| |].
    + intros e w2 H2 Hnc. apply Hbad; [by rewrite H1|done].
    + intros w2 H2. rewrite (drop_S _ (log_entry k r)) in Hgood
        by (unfold log_entries; by rewrite list_lookup_imap, Hr).
      apply Hgood. by rewrite H1.
Qed.

(** ** The files of a group *)

(** The snapshot file holds [snap] and the counter [next]; without the file
    both are initial. *)
Definition has_snapshot (w : World) (next : Z) (snap : gmap MessageId MessageRuntime) : Prop :=
  match files w !! state_path with
  | None => next = 1 ∧ snap = ∅
  | Some data => ∃ items, data = encode_snapshot next items ∧ items ≡ₚ map_to_list snap ∧
      map_Forall (λ i rt, wf_id i ∧ wf_runtime rt) snap ∧ is_u64 next ∧
      Z.of_nat (length items) < 2 ^ 64
  end.

(** The transition log holds the events [es], and at most a few stray bytes
    after them. *)
Definition has_events (w : World) (es : list TransitionEvent) : Prop :=
  Forall wf_event es ∧
  ∃ tail, (length tail < 8)%nat ∧ file_bytes w event_path = concat (map encode_event es) ++ tail.

(** The only failure of loading well-formed files is a refused call. *)
Definition refused_load {A} (o : outcome A) : Prop :=
  ¬ calm_run ∧ match o with Fail _ => True | _ => False end.

Lemma calm_io_ok w : calm_run → io (io_calls w) ≠ IoFail.
Proof. intros [-> _]. done. Qed.

Lemma restored_empty (rts : gmap MessageId MessageRuntime) : restored ∅ rts = rts.
Proof.
  apply map_eq. intros i. rewrite lookup_restored, lookup_empty. by destruct (rts !! i).
Qed.

Lemma wp_load_snapshot next snap rts
    (Q : outcome (Z * gmap MessageId MessageRuntime) → World → Prop) w :
  has_snapshot w next snap →
  (∀ e w', files w' = files w → ¬ calm_run → Q (Fail e) w') →
  (∀ w', io_only w w' → Q (Good (next, restored snap rts)) w') →
  wp (load_snapshot state_path 1 rts) Q w.
Proof.
  unfold has_snapshot. intros Hsnap Hbad Hgood.
  pose proof (load_snapshot_reads state_path 1 rts w) as Hf.
  assert (∀ o, (load_snapshot state_path 1 rts w).1 = o →
    (o = Good (next, restored snap rts) ∨ ∃ e, o = Fail e ∧ ¬ calm_run) →
    wp (load_snapshot state_path 1 rts) Q w) as Hcases.
  { intros o Ho Hcase. unfold wp. rewrite Ho.
    destruct Hcase as [->|(e & -> & ?)]; [by apply Hgood|by apply Hbad; [apply Hf|]]. }
  destruct (files w !! state_path) as [data|] eqn:Hd.
  - destruct Hsnap as (items & -> & Hp & Hwf & Hn & Hl).
    destruct (io (io_calls w)) eqn:Hio.
    2: { eapply Hcases; [by eapply load_snapshot_refused|]. right. eexists. split; [done|].
         intros calm. by destruct (calm_io_ok w calm). }
    all: eapply Hcases; [eapply load_encoded_snapshot; try done; by rewrite Hio|by left].
  - destruct Hsnap as [-> ->]. rewrite restored_empty in *.
    apply (Hcases (Good (1, rts))); [|by left].
    unfold load_snapshot, exists_, bind, gets. by rewrite Hd.
Qed.

Lemma wp_LoadTransitions es (Q : outcome (list TransitionEvent) → World → Prop) max w :
  has_events w es →
  (∀ e w', files w' = files w → ¬ calm_run → Q (Fail e) w') →
  (∀ w', io_only w w' → Q (Good (upto max es)) w') →
  wp (LoadTransitions event_path max) Q w.
Proof.
  intros (Hwf & tail & Htail & Hfile) Hbad Hgood.
  pose proof (LoadTransitions_reads event_path max w) as Hf.
  assert (∀ o, (LoadTransitions event_path max w).1 = o →
    (o = Good (upto max es) ∨ ∃ e, o = Fail e ∧ ¬ calm_run) →
    wp (LoadTransitions event_path max) Q w) as Hcases.
  { intros o Ho Hcase. unfold wp. rewrite Ho.
    destruct Hcase as [->|(e & -> & ?)]; [by apply Hgood|by apply Hbad; [apply Hf|]]. }
  unfold file_bytes in Hfile. destruct (files w !! event_path) as [data|] eqn:Hd.
  - cbn [default id] in Hfile. subst data. destruct (io (io_calls w)) eqn:Hio.
    2: { eapply Hcases; [by eapply LoadTransitions_refused|]. right. eexists. split; [done|].
         intros calm. by destruct (calm_io_ok w calm). }
    all: eapply Hcases; [eapply load_encoded_events; try done; by rewrite Hio|by left].
  - cbn [default id] in Hfile. symmetry in Hfile. apply app_eq_nil in Hfile as [Hes _].
    pose proof (encoded_events_length es) as Hlen. rewrite Hes in Hlen. destruct es; [|simpl in Hlen; lia].
    apply (Hcases (Good [])); [|by left].
    unfold LoadTransitions, exists_, bind, gets. by rewrite Hd.
Qed.
End load.

(** ** Replaying events *)

Section replay.
Context (options_ : EngineOptions).

Definition replayed_group (es : list TransitionEvent) (g : ConsumerGroupState)
    : ConsumerGroupState :=
  foldl (λ g e, let g := applied options_ e g in
           set_next_sequence (Z.max (next_sequence g) (u64 (ev_sequence e + 1))) g) g es.

Lemma replayed_group_runtime es g : runtime (replayed_group es g) = replayed es (runtime g).
Proof.
  revert g. induction es as [|e es IH]; intros g; [done|]. unfold replayed_group, replayed in *.
  cbn [foldl]. rewrite IH. cbn [runtime set_next_sequence]. by rewrite applied_alter.
Qed.

Lemma applied_nonempty e g :
  deadline_wheel g ≠ [] → deadline_wheel (applied options_ e g) ≠ [].
Proof.
  intros Hw Hnil. pose proof (applied_wheel_length options_ e g) as Hl. rewrite Hnil in Hl.
  by destruct (deadline_wheel g).
Qed.

Lemma replay_events_eq `{Env} es w g :
  deadline_wheel g ≠ [] →
  replay_events options_ es (w, g) = (Good tt, (w, replayed_group es g)).
Proof.
  revert g. induction es as [|e es IH]; intros g Hw; [done|]. cbn [replay_events].
  erewrite bind_good by (by apply ApplyTransition_eq).
  erewrite bind_good by reflexivity. cbn [fst snd].
  rewrite IH; [reflexivity|by apply applied_nonempty].
Qed.

Lemma apply_all_eq `{Env} es w g :
  deadline_wheel g ≠ [] →
  apply_all options_ es (w, g) = (Good tt, (w, foldl (λ g e, applied options_ e g) g es)).
Proof.
  revert g. induction es as [|e es IH]; intros g Hw; [done|]. cbn [apply_all].
  erewrite bind_good by (by apply ApplyTransition_eq).
  rewrite IH; [reflexivity|by apply applied_nonempty].
Qed.

Lemma replayed_dom es m : dom (replayed es m) = dom m.
Proof.
  revert m. induction es as [|e es IH]; intros m; [done|]. unfold replayed in *. cbn [foldl].
  by rewrite IH, dom_alter_L.
Qed.

(** ** The loaded group *)

Definition loaded_core (rs : list Record_) (next : Z) (snap : gmap MessageId MessageRuntime)
    (es : list TransitionEvent) (base : Z) (st : CheckpointStore) : ConsumerGroupState :=
  replayed_group es
    (set_runtime (restored snap (log_runtime "recovered-default-ready" rs))
      (set_next_sequence next
        (set_base_tick base (set_wheel (replicate kWheelSlots []) (new_Group st))))).

Definition loaded (rs : list Record_) (next : Z) (snap : gmap MessageId MessageRuntime)
    (es : list TransitionEvent) (base t t' : Z) (st : CheckpointStore) : ConsumerGroupState :=
  let g := loaded_core rs next snap es base st in
  let g := set_runtime (take_back t <$> runtime g) g in
  set_ready (ready_at t' (runtime g)) g.

Lemma loaded_runtime rs next snap es base t t' st :
  runtime (loaded rs next snap es base t t' st) =
  take_back t <$> replayed es (restored snap (log_runtime "recovered-default-ready" rs)).
Proof. unfold loaded, loaded_core. cbn [runtime set_ready set_runtime]. by rewrite replayed_group_runtime. Qed.

Lemma upto_all `{Env} es : Forall wf_event es → upto UINT64_MAX es = es.
Proof.
  intros Hwf. unfold upto. induction Hwf as [|e es [Hs _] _ IH]; [done|].
  rewrite filter_cons_True by (unfold UINT64_MAX; lia). by rewrite IH.
Qed.

End replay.

Section load_group.
Context `{Env}.
Context (options_ : EngineOptions) (queue_name group_id : string).

Lemma wp_LoadGroupState rs post seg next snap es st
    (Q : outcome unit → World * ConsumerGroupState → Prop) w :
  indexed rs seg → files w !! path_ seg = Some (log_bytes rs ++ post) → distinct_ids rs →
  has_snapshot options_ queue_name group_id w next snap →
  has_events options_ queue_name group_id w es →
  (∀ o w' g', refused_load o → files w' = files w → Q o (w', g')) →
  (∀ w' base, let t := reading 1 w in let t' := reading 2 w in
     files w' = files w → is_u64 base → is_u64 t →
     Q (Good tt) (w', loaded options_ rs next snap es base t t' st)) →
  wp (LoadGroupState options_ queue_name group_id seg) Q (w, new_Group st).
Proof.
  intros Hidx Hfile Hd Hsnap Hev Hbad Hgood. unfold LoadGroupState.
  assert (∀ e w' g', files w' = files w → ¬ calm_run → Q (Fail e) (w', g')) as Hfail
    by (intros; by apply Hbad).
  apply wp_bind. unfold InitScheduler. apply wp_bind, wp_modify_snd, wp_bind, wp_on_fst, wp_now.
  intros w1 Hf1 _ Hc1. set (base := u64 _ / tick_ms options_).
  assert (is_u64 base) as Hbase.
  { pose proof (u64_range (clock (clock_reads w))) as Hr.
    pose proof (now_tick_range options_ _ (proj1 Hr)). unfold base.
    split; [|lia]. apply Z.div_pos; [lia|]. unfold tick_ms. lia. }
  apply wp_modify_snd, wp_bind, wp_on_fst. rewrite (Offsets_indexed rs) by done.
  pose proof (wp_read_messages rs post seg 0 ∅) as Hread. rewrite Nat.sub_0_r in Hread.
  eapply Hread; [done|by rewrite Hf1|lia| |]; clear Hread.
  { intros e w2 (Hf2 & _) Hn. apply Hfail; [by rewrite Hf2|done]. }
  intros w2 (Hf2 & Hc2). rewrite drop_0, foldl_insert_nodup by apply log_entries_nodup.
  apply wp_bind, wp_on_fst, wp_traverse. intros entries w3 Hentries (Hf3 & Hc3).
  rewrite map_to_list_to_map in Hentries by apply log_entries_nodup.
  apply wp_bind, wp_modify_snd, wp_bind, wp_gets_snd, wp_bind, wp_on_fst.
  cbn [runtime set_base_tick set_wheel set_runtime new_Group next_sequence].
  rewrite (fill_runtime_log rs) by done.
  assert (files w3 = files w) as Hf by congruence.
  eapply wp_load_snapshot.
  { unfold has_snapshot in *. rewrite Hf. exact Hsnap. }
  { intros e w4 Hf4 Hn. apply Hfail; [congruence|done]. }
  intros w4 (Hf4 & Hc4). apply wp_bind, wp_modify_snd, wp_bind, wp_on_fst.
  eapply wp_LoadTransitions.
  { unfold has_events, file_bytes in *. rewrite Hf4, Hf. exact Hev. }
  { intros e w5 Hf5 Hn. apply Hfail; [congruence|done]. }
  intros w5 (Hf5 & Hc5). rewrite upto_all by apply Hev. cbn [fst snd].
  apply wp_bind. unfold wp at 1. rewrite replay_events_eq by done. cbn [fst snd].
  apply wp_bind, wp_on_fst, wp_now. intros w6 Hf6 _ Hc6.
  assert (clock_reads w5 = S (clock_reads w)) as Hc by congruence.
  assert (u64 (clock (clock_reads w5)) = reading 1 w) as -> by (unfold reading; by rewrite Hc).
  apply wp_bind, wp_modify_snd, wp_BuildReadyQueue. intros w7 Hf7 _.
  assert (reading 0 w6 = reading 2 w) as -> by (unfold reading; by rewrite Hc6, Hc).
  apply (Hgood w7 base); [congruence|done|apply u64_range].
Qed.
End load_group.

(** ** The loaded group is well formed *)

Section loaded_facts.
Context (options_ : EngineOptions).

(** Every lease belongs to a message in flight. *)
Definition leases_in_flight (g : ConsumerGroupState) : Prop :=
  ∀ id, is_Some (inflight g !! id) → ∃ rt, runtime g !! id = Some rt ∧ state rt = kInFlight.

Lemma applied_unknown e g : runtime g !! ev_id e = None → applied options_ e g = g.
Proof. unfold applied. by intros ->. Qed.

Lemma leases_applied e g : leases_in_flight g → leases_in_flight (applied options_ e g).
Proof.
  intros Hl id. destruct (runtime g !! ev_id e) as [rt0|] eqn:Hrt; [|rewrite applied_unknown by done; auto].
  rewrite applied_inflight by eauto. rewrite applied_runtime. case_decide as Hid; [|by apply Hl].
  subst id. rewrite Hrt. intros Hst. by eexists.
Qed.

Lemma leases_replayed es g : leases_in_flight g → leases_in_flight (replayed_group options_ es g).
Proof.
  revert g. induction es as [|e es IH]; intros g Hl; [done|].
  apply IH. intros id Hi. by apply (leases_applied e g Hl id).
Qed.

Lemma replayed_group_frame es g :
  wheel_base_tick (replayed_group options_ es g) = wheel_base_tick g ∧
  length (deadline_wheel (replayed_group options_ es g)) = length (deadline_wheel g).
Proof.
  revert g. induction es as [|e es IH]; intros g; [done|].
  destruct (IH (let g := applied options_ e g in
    set_next_sequence (Z.max (next_sequence g) (u64 (ev_sequence e + 1))) g)) as [H1 H2].
  unfold replayed_group in *. cbn [foldl]. rewrite H1, H2. cbn.
  by rewrite applied_base, applied_wheel_length.
Qed.

Lemma replayed_group_next es g :
  is_u64 (next_sequence g) → is_u64 (next_sequence (replayed_group options_ es g)).
Proof.
  revert g. induction es as [|e es IH]; intros g Hn; [done|]. apply IH. cbn.
  rewrite applied_next. pose proof (u64_range (ev_sequence e + 1)). lia.
Qed.

(** A property of entries that the base has and every event establishes
    holds after a replay. *)
Lemma replayed_forall (P : MessageId → MessageRuntime → Prop) es m :
  map_Forall P m →
  Forall (λ e, ∀ rt, P (ev_id e) rt → P (ev_id e) (apply_runtime e rt)) es →
  map_Forall P (replayed es m).
Proof.
  revert m. induction es as [|e es IH]; intros m Hm Hes; [done|].
  apply Forall_cons in Hes as [He Hes]. apply IH; [|done].
  intros id rt [(<- & rt0 & Hrt0 & ->)|[Hne Hrt]]%lookup_alter_Some.
  - apply He. by apply Hm.
  - by apply Hm.
Qed.

(** What the files of a group may say for the group to be well formed: no
    live entry above the retry limit, and the snapshot's offsets are those
    of the log. *)
Definition sane (rs : list Record_) (snap : gmap MessageId MessageRuntime)
    (es : list TransitionEvent) : Prop :=
  0 <= max_retry_count options_ ∧
  map_Forall (λ id rt, (live rt → retry_count rt <= max_retry_count options_) ∧
    0 <= rt_offset rt ∧ ∃ r, rs !! Z.to_nat (rt_offset rt) = Some r ∧ record_id r = id) snap ∧
  Forall (λ e, ev_state e = kReady ∨ ev_state e = kInFlight →
               ev_retry_count e <= max_retry_count options_) es.

Lemma loaded_ok rs next snap es base t t' st :
  distinct_ids rs → sane rs snap es → is_u64 next → is_u64 base →
  group_ok options_ (loaded options_ rs next snap es base t t' st) ∧
  tracks rs (loaded options_ rs next snap es base t t' st) ∧
  (∀ id rt, runtime (loaded options_ rs next snap es base t t' st) !! id = Some rt →
     state rt ≠ kInFlight).
Proof.
  intros Hd (Hmax & Hsnap & Hes) Hn Hb. set (reason := "recovered-default-ready").
  assert (map_Forall (λ id rt, (live rt → retry_count rt <= max_retry_count options_) ∧
    0 <= rt_offset rt ∧ ∃ r, rs !! Z.to_nat (rt_offset rt) = Some r ∧ record_id r = id)
    (replayed es (restored snap (log_runtime reason rs)))) as Hall.
  { apply replayed_forall.
    - intros id rt. rewrite lookup_restored.
      destruct (log_runtime reason rs !! id) as [rt0|] eqn:Hlog; [|done].
      apply lookup_log_runtime in Hlog as (i & r & Hr & Hid & ->); [|done].
      destruct (snap !! id) as [rt1|] eqn:Hs; intros [= <-]; [by apply Hsnap|].
      cbn. rewrite Nat2Z.id. split_and!; [done|lia|by exists r].
    - eapply Forall_impl; [exact Hes|]. intros e He rt (_ & Ho & Hr).
      split; [|done]. intros [Hst|Hst]; apply He; auto. }
  assert (∀ id rt, runtime (loaded options_ rs next snap es base t t' st) !! id = Some rt →
    ∃ rt0, replayed es (restored snap (log_runtime reason rs)) !! id = Some rt0 ∧
           rt = take_back t rt0) as Hrt.
  { intros id rt. rewrite loaded_runtime. intros (rt0 & <- & Hrt0)%lookup_fmap_Some. eauto. }
  assert (∀ rt0, state (take_back t rt0) ≠ kInFlight ∧
    retry_count (take_back t rt0) = retry_count rt0 ∧ rt_offset (take_back t rt0) = rt_offset rt0 ∧
    (live (take_back t rt0) → live rt0)) as Htb.
  { intros rt0. unfold take_back, live. destruct (state rt0) eqn:Hst; cbn;
      rewrite ?Hst; split_and!; try done; auto. }
  split_and!; [split|..].
  - unfold loaded, loaded_core. cbn. by rewrite (proj2 (replayed_group_frame _ _)).
  - intros id Hi. unfold loaded, loaded_core in *. cbn [inflight runtime set_ready set_runtime] in *.
    destruct (leases_replayed es (set_runtime (restored snap (log_runtime reason rs))
      (set_next_sequence next (set_base_tick base (set_wheel (replicate kWheelSlots [])
        (new_Group st))))) ltac:(intros i [x Hx];
      by apply (lookup_empty_Some (M := gmap MessageId) i x) in Hx) id Hi)
      as (rt0 & Hrt0 & Hst).
    unfold reason in *. exists (take_back t rt0). rewrite lookup_fmap, Hrt0. split; [done|].
    left. unfold take_back. by rewrite Hst.
  - intros id rt (rt0 & _ & ->)%Hrt Hst. by destruct (Htb rt0).
  - intros id rt (rt0 & Hrt0 & ->)%Hrt Hl. destruct (Htb rt0) as (_ & -> & _ & Hlive).
    apply (Hall id rt0 Hrt0). auto.
  - unfold loaded, loaded_core. cbn. by apply replayed_group_next.
  - unfold loaded, loaded_core. cbn. by rewrite (proj1 (replayed_group_frame _ _)).
  - intros id rt (rt0 & Hrt0 & ->)%Hrt. destruct (Htb rt0) as (_ & _ & -> & _).
    by apply (Hall id rt0 Hrt0).
  - intros id rt (rt0 & _ & ->)%Hrt. by destruct (Htb rt0).
Qed.
End loaded_facts.

Lemma replayed_group_app options_ es es' g :
  replayed_group options_ (es ++ es') g = replayed_group options_ es' (replayed_group options_ es g).
Proof. unfold replayed_group. by rewrite foldl_app. Qed.

(** Sequence numbers found in the log are not given out again. *)
Lemma replayed_group_fresh options_ es g :
  Forall (λ e, 0 <= ev_sequence e < UINT64_MAX) es →
  next_sequence g <= next_sequence (replayed_group options_ es g) ∧
  Forall (λ e, ev_sequence e < next_sequence (replayed_group options_ es g)) es.
Proof.
  revert g. induction es as [|e es IH]; intros g Hes; [done|].
  apply Forall_cons in Hes as [He Hes]. unfold UINT64_MAX in He.
  set (g1 := set_next_sequence (Z.max (next_sequence (applied options_ e g)) (u64 (ev_sequence e + 1)))
    (applied options_ e g)).
  change (replayed_group options_ (e :: es) g) with (replayed_group options_ es g1).
  assert (next_sequence g1 = Z.max (next_sequence g) (ev_sequence e + 1)) as Hg1
    by (unfold g1; cbn; by rewrite applied_next, u64_small by lia).
  destruct (IH g1 Hes) as [Hle Hall]. split; [lia|]. apply Forall_cons; split; [lia|done].
Qed.

(** ** Properties *)

Section properties.
Context `{Env}.
Context (options_ : EngineOptions) (queue_name group_id : string).

Abbreviation event_path := (GroupEventPath options_ queue_name group_id).
Abbreviation state_path := (GroupStatePath options_ queue_name group_id).
Abbreviation Load := (LoadGroupState options_ queue_name group_id).
Abbreviation has_snapshot := (has_snapshot options_ queue_name group_id).
Abbreviation has_events := (has_events options_ queue_name group_id).

(** C11. Loading a group from well-formed files succeeds unless a call is
    refused, and changes no file.  The result is the segment's messages, each
    as the snapshot has it, if it does, taken to its last logged transition,
    with messages in flight made ready again at the second reading of the
    clock, and the ready queue holds, in increasing order, the offsets of the
    messages that are ready at the third; the group satisfies its invariant,
    nothing in it is in flight, and the sequence numbers of the log are not
    given out again. *)
Theorem load_recovers rs post seg next snap es st w :
  indexed rs seg → files w !! path_ seg = Some (log_bytes rs ++ post) → distinct_ids rs →
  has_snapshot w next snap → has_events w es → sane options_ rs snap es → is_u64 next →
  Forall (λ e, ev_sequence e < UINT64_MAX) es →
  let '(o, (w', g')) := Load seg (w, new_Group st) in
  match o with
  | Good _ => files w' = files w ∧ group_ok options_ g' ∧ tracks rs g' ∧
      runtime g' = take_back (reading 1 w) <$>
        replayed es (restored snap (log_runtime "recovered-default-ready" rs)) ∧
      ready_offsets g' = ready_at (reading 2 w) (runtime g') ∧
      (∀ id rt, runtime g' !! id = Some rt → state rt ≠ kInFlight) ∧
      next <= next_sequence g' ∧ Forall (λ e, ev_sequence e < next_sequence g') es
  | Fail _ => ¬ calm_run
  | Throw _ => False
  end.
Proof.
  intros Hidx Hfile Hd Hsnap Hev Hsane Hn Hseq.
  apply wp_run2, (wp_LoadGroupState _ _ _ rs post seg next snap es); [done..| |].
  - intros o w' g' [Hnc Ho] Hf. cbn [fst snd]. by destruct o.
  - intros w' base t t' Hf Hb Ht. cbn [fst snd].
    destruct (loaded_ok options_ rs next snap es base t t' st Hd Hsane Hn Hb) as (Hok & Htr & Hnot).
    assert (Forall (λ e, 0 <= ev_sequence e < UINT64_MAX) es) as Hseq'.
    { pose proof (proj1 Hev) as Hwf. rewrite Forall_forall in *. intros e He.
      destruct (Hwf e He) as [? _]. specialize (Hseq e He). simpl in *. lia. }
    destruct (replayed_group_fresh options_ es
      (set_runtime (restored snap (log_runtime "recovered-default-ready" rs))
        (set_next_sequence next
          (set_base_tick base (set_wheel (replicate kWheelSlots []) (new_Group st))))) Hseq')
      as [Hle Hall].
    split_and!; try done. apply loaded_runtime.
Qed.

(** An acknowledgement that was reported to the consumer survives a restart:
    whatever happened while it was stored, when [AckGroup] returned success
    and the group is loaded again from the files it left, the message is
    acknowledged and holds no lease, so it is never delivered again. *)
Theorem ack_survives_restart rs post seg es st w g id w' g' w2 :
  group_ok options_ g → Forall wf_event es →
  file_bytes w event_path = concat (map encode_event es) →
  wf_id id → map_Forall (λ i rt, wf_id i ∧ wf_runtime rt) (runtime g') →
  Z.of_nat (size (runtime g')) < 2 ^ 64 → 0 <= alloc_limit →
  AckGroup options_ queue_name group_id id (w, g) = (Good tt, (w', g')) →
  files w2 = files w' → indexed rs seg → distinct_ids rs → tracks rs g →
  files w2 !! path_ seg = Some (log_bytes rs ++ post) →
  let '(o, (_, g2)) := Load seg (w2, new_Group st) in
  match o with
  | Good _ => ∃ rt, runtime g2 !! id = Some rt ∧ state rt = kAcked ∧ inflight g2 !! id = None
  | Fail _ => ¬ calm_run
  | Throw _ => False
  end.
Proof.
  intros Hok Hes Hfile Hid Hwf Hsize Halloc Hack Hfw Hidx Hd Htr Hseg.
  pose proof (wp_intro _ _ _ _ _ (wp_AckGroup options_ queue_name group_id id w g Hok) Hack)
    as [Hprog Hpost]. cbn [fst snd] in Hprog, Hpost. unfold settle_post in Hpost.
  destruct (inflight g !! id) as [entry|] eqn:Hin; [|by destruct Hpost].
  destruct Hpost as (rt & e & Hrt & He & (Hr & Hi & Hnx & Hb & items & Hitems & Hst)).
  set (t0 := reading 0 w) in He.
  unfold is_ack in He.
  assert (wf_event e) as Hwe.
  { subst e. pose proof (ok_next _ _ Hok).
    assert (runtime g' !! id = Some (apply_runtime (ack_event t0 (next_sequence g) id rt) rt)) as Hg'.
    { rewrite Hr, applied_runtime, decide_True by done. cbn. by rewrite Hrt. }
    destruct (Hwf _ _ Hg') as (_ & _ & Hret & _ & Hts & _). cbn in *.
    unfold wf_event, wf_string. cbn. split_and!; try done; lia. }
  apply wp_run2, (wp_LoadGroupState _ _ _ rs post seg (next_sequence g') (runtime g') (es ++ [e]));
    [done|done|done| | | |].
  - unfold Recovery.has_snapshot. rewrite Hfw, Hst. exists items. split_and!; try done.
    + rewrite Hnx. apply u64_range.
    + rewrite Hnx. apply u64_range.
    + by rewrite Hitems, length_map_to_list.
  - split; [by apply Forall_app; split; [|apply Forall_singleton]|]. exists []. split; [simpl; lia|].
    unfold file_bytes in *. rewrite Hfw, Hb, Hfile, map_app, concat_app. simpl. by rewrite !app_nil_r.
  - intros o w3 g3 [Hnc Ho] _. cbn [fst snd]. by destruct o.
  - intros w3 base t t' _ _ _. cbn [fst snd].
    destruct (Htr id rt Hrt) as (Hoff & r & Hr0 & Hrid).
    set (base_map := restored (runtime g') (log_runtime "recovered-default-ready" rs)).
    assert (is_Some (replayed es base_map !! id)) as [rt0 Hrt0].
    { rewrite <-elem_of_dom, replayed_dom, elem_of_dom. unfold base_map. rewrite lookup_restored.
      assert (log_runtime "recovered-default-ready" rs !! id = Some (default_runtime
        (Z.of_nat (Z.to_nat (rt_offset rt))) (enqueue_ts (header r)) "recovered-default-ready")) as ->
        by (apply lookup_log_runtime; eauto 6). by eexists. }
    assert (ev_id e = id ∧ ev_state e = kAcked) as [Heid Hest] by (by subst e).
    exists (apply_runtime e rt0). split_and!.
    + rewrite loaded_runtime, lookup_fmap, replayed_app. fold base_map. cbn.
      rewrite Heid, lookup_alter_eq, Hrt0. cbn. unfold take_back. cbn. by rewrite Hest.
    + done.
    + unfold loaded, loaded_core. cbn [inflight set_ready set_runtime].
      rewrite replayed_group_app. cbn [replayed_group foldl inflight set_next_sequence].
      apply eq_None_not_Some. rewrite applied_inflight.
      * rewrite decide_True by done. by rewrite Hest.
      * rewrite replayed_group_runtime, Heid. cbn [runtime set_runtime]. fold base_map. by rewrite Hrt0.
Qed.

(** Recovery makes a message that was in flight ready again but keeps its
    lease entry: if the last logged event of a message delivered it, the
    loaded group has it both ready and leased, so the lease of the previous
    process is still accepted by [AckGroup] and counts toward
    [max_inflight]. *)
Theorem recovery_keeps_stale_lease rs post seg next snap es e st w :
  indexed rs seg → files w !! path_ seg = Some (log_bytes rs ++ post) → distinct_ids rs →
  has_snapshot w next snap → has_events w (es ++ [e]) → ev_state e = kInFlight →
  (∃ r, r ∈ rs ∧ record_id r = ev_id e) → calm_run →
  let '(o, (w', g')) := Load seg (w, new_Group st) in
  o = Good tt ∧ ∃ rt, runtime g' !! ev_id e = Some rt ∧ state rt = kReady ∧
    is_Some (inflight g' !! ev_id e) ∧ ¬ coherent g'.
Proof.
  intros Hidx Hfile Hd Hsnap Hev Hst (r & Hr & Hid) calm.
  apply wp_run2, (wp_LoadGroupState _ _ _ rs post seg next snap (es ++ [e])); [done..| |].
  { intros o w' g' [Hnc _]. by destruct Hnc. }
  intros w' base t t' _ _ _. cbn [fst snd]. split; [done|].
  apply list_elem_of_lookup in Hr as [i Hr].
  set (base_map := restored snap (log_runtime "recovered-default-ready" rs)).
  assert (is_Some (replayed es base_map !! ev_id e)) as [rt0 Hrt0].
  { rewrite <-elem_of_dom, replayed_dom, elem_of_dom. unfold base_map. rewrite lookup_restored.
    assert (log_runtime "recovered-default-ready" rs !! ev_id e = Some (default_runtime
      (Z.of_nat i) (enqueue_ts (header r)) "recovered-default-ready")) as ->
      by (apply lookup_log_runtime; eauto 6). by eexists. }
  set (g' := loaded _ _ _ _ _ _ _ _ _).
  assert (runtime g' !! ev_id e = Some (take_back t (apply_runtime e rt0))) as Hg'.
  { unfold g'. rewrite loaded_runtime, lookup_fmap, replayed_app. fold base_map. cbn.
    by rewrite lookup_alter_eq, Hrt0. }
  assert (state (take_back t (apply_runtime e rt0)) = kReady) as Hready
    by (unfold take_back; cbn; by rewrite Hst).
  assert (is_Some (inflight g' !! ev_id e)) as Hlease.
  { unfold g', loaded, loaded_core. cbn [inflight set_ready set_runtime].
    rewrite replayed_group_app. cbn [replayed_group foldl inflight set_next_sequence].
    apply applied_inflight; [|by rewrite decide_True].
    rewrite replayed_group_runtime. cbn [runtime set_runtime]. fold base_map. by rewrite Hrt0. }
  eexists. split_and!; [done..|]. intros Hc. by rewrite (Hc _ _ Hg' Hlease) in Hready.
Qed.
End properties.

(** ** The demo queue, restarted *)

Section demo.
#[local] Existing Instance demo_env.

Definition demo_store : CheckpointStore := mkCheckpointStore "/d/q/g.checkpoint" kAlways.

(** The delivery is in the log; no snapshot was stored. *)
Definition demo_world2 : World :=
  set_files (<["/d/q/g.events" := encode_event demo_deliver]>) demo_world.

Lemma demo_file2 : files demo_world2 !! path_ demo_segment = Some (log_bytes [demo_record] ++ []).
Proof.
  unfold demo_world2. cbn [set_files files]. rewrite lookup_insert_ne by done. apply demo_file.
Qed.

Lemma demo_distinct : distinct_ids [demo_record].
Proof. apply NoDup_singleton. Qed.

Lemma demo_snapshot : has_snapshot demo_options "q" "g" demo_world2 1 ∅.
Proof. unfold has_snapshot. vm_compute. done. Qed.

Lemma demo_deliver_wf : wf_event demo_deliver.
Proof.
  unfold wf_event, wf_id, wf_string. simpl. split_and!; try lia; try done; vm_compute; done.
Qed.

Lemma demo_events : has_events demo_options "q" "g" demo_world2 ([] ++ [demo_deliver]).
Proof.
  split; [by apply Forall_singleton, demo_deliver_wf|]. exists []. split; [simpl; lia|].
  change (GroupEventPath demo_options "q" "g") with "/d/q/g.events".
  unfold file_bytes, demo_world2. cbn [set_files files]. rewrite lookup_insert_eq. simpl.
  by rewrite !app_nil_r.
Qed.

Lemma demo_calm : calm_run.
Proof. done. Qed.

Lemma demo_sane : sane demo_options [demo_record] ∅ ([] ++ [demo_deliver]).
Proof.
  unfold sane. simpl. split_and!; [lia|apply map_Forall_empty|]. apply Forall_singleton. simpl. lia.
Qed.
End demo.

Lemma load_recovers_witness :
  let '(o, (w', g')) := @LoadGroupState demo_env demo_options "q" "g" demo_segment
                          (demo_world2, new_Group demo_store) in
  o = Good tt ∧ group_ok demo_options g' ∧ ready_offsets g' = [0] ∧
  Forall (λ e, ev_sequence e < next_sequence g') [demo_deliver].
Proof.
  pose proof (@load_recovers demo_env demo_options "q" "g" [demo_record] [] demo_segment 1 ∅
    ([] ++ [demo_deliver]) demo_store demo_world2 demo_indexed demo_file2 demo_distinct demo_snapshot
    demo_events demo_sane ltac:(lia) ltac:(apply Forall_singleton; reflexivity)) as Hl.
  assert (let s := @LoadGroupState demo_env demo_options "q" "g" demo_segment
    (demo_world2, new_Group demo_store) in
    s.1 = Good tt ∧ ready_at (@reading demo_env 2 demo_world2) (runtime s.2.2) = [0]) as [Ho Hready]
    by (vm_compute; split; reflexivity).
  destruct (LoadGroupState _ _ _ _ _) as [o [w' g']]. cbn [fst snd] in *. subst o.
  destruct Hl as (_ & Hok & _ & _ & Hq & _ & _ & Hs).
  split; [reflexivity|]. split; [exact Hok|]. split; [by rewrite Hq|exact Hs].
Defined.

Lemma recovery_keeps_stale_lease_witness :
  let '(o, (w', g')) := @LoadGroupState demo_env demo_options "q" "g" demo_segment
                          (demo_world2, new_Group demo_store) in
  o = Good tt ∧ ¬ coherent g'.
Proof.
  pose proof (@recovery_keeps_stale_lease demo_env demo_options "q" "g" [demo_record] [] demo_segment 1 ∅
    [] demo_deliver demo_store demo_world2 demo_indexed demo_file2 demo_distinct demo_snapshot
    demo_events eq_refl ltac:(exists demo_record; split; [by left|done]) demo_calm) as Hl.
  destruct (LoadGroupState _ _ _ _ _) as [o [w' g']].
  destruct Hl as (Ho & rt & _ & _ & _ & Hc). split; [exact Ho|exact Hc].
Defined.

Lemma ack_survives_restart_witness :
  ∃ w' g', @AckGroup demo_env demo_options "q" "g" demo_id (demo_world2, demo_leased) =
             (Good tt, (w', g')) ∧
    let '(o, (_, g2)) := @LoadGroupState demo_env demo_options "q" "g" demo_segment
                           (w', new_Group demo_store) in
    o = Good tt → ∃ rt, runtime g2 !! demo_id = Some rt ∧ state rt = kAcked ∧
                        inflight g2 !! demo_id = None.
Proof.
  assert (∀ r, @AckGroup demo_env demo_options "q" "g" demo_id (demo_world2, demo_leased) = r →
    r.1 = Good tt ∧
    runtime r.2.2 = {[demo_id := apply_runtime (ack_event 1000 2 demo_id demo_rt) demo_rt]} ∧
    files r.2.1 !! path_ demo_segment = files demo_world2 !! path_ demo_segment) as Hrun
    by (intros r <-; split; [|split]; vm_compute; reflexivity).
  destruct (@AckGroup demo_env demo_options "q" "g" demo_id (demo_world2, demo_leased))
    as [o [w' g']] eqn:Hack.
  destruct (Hrun _ eq_refl) as (Ho & Hrt & Hseg). cbn [fst snd] in Ho, Hrt, Hseg. subst o.
  exists w', g'. split; [reflexivity|].
  pose proof (@ack_survives_restart demo_env demo_options "q" "g" [demo_record] [] demo_segment
    [demo_deliver] demo_store demo_world2 demo_leased demo_id w' g' w' demo_leased_ok
    ltac:(apply Forall_singleton, demo_deliver_wf)
    ltac:(change (GroupEventPath demo_options "q" "g") with "/d/q/g.events"; unfold file_bytes,
      demo_world2; cbn [set_files files]; rewrite lookup_insert_eq; simpl; by rewrite app_nil_r)
    ltac:(unfold wf_id; simpl; lia)
    ltac:(rewrite Hrt; apply map_Forall_singleton; unfold wf_id, wf_runtime, wf_string; simpl;
      split_and!; try lia; vm_compute; done)
    ltac:(rewrite Hrt, map_size_singleton; lia)
    ltac:(simpl; lia) Hack eq_refl demo_indexed demo_distinct
    (group_run_tracks _ _ _ _ _ _ demo_delivered demo_tracks)
    ltac:(rewrite Hseg; apply demo_file2)) as Hl.
  destruct (LoadGroupState _ _ _ _ _) as [o [w2 g2]]. intros ->. exact Hl.
Defined.
