(* ===== verification/Restart.v ===== *)
(** * What a process leaves for the next one

    The files of a group at every moment of a history: the snapshot may be of
    any earlier moment and the transition log goes back further still, and yet
    loading them gives the group as it was, with what was in flight ready
    again. *)
From S2P Require Import Prelude Status Io DurableIo Record SegmentLog Checkpoint Message EventLog.
From S2P Require Import Group Lifecycle Handlers HandlerSpecs Operations Values Engine Recovery.

(** ** Entries up to recovery *)

(** The entry [rt] in memory where the files give [rt0]: the same one, or the
    message was in flight and was made ready when the group was loaded. *)
Definition similar (rt0 rt : MessageRuntime) : Prop :=
  rt0 = rt ∨
  (state rt0 = kInFlight ∧ state rt = kReady ∧ rt_offset rt = rt_offset rt0 ∧
   retry_count rt = retry_count rt0 ∧ rt_enqueue_ts rt = rt_enqueue_ts rt0 ∧
   sequence rt = sequence rt0).

(** What events leave alone. *)
Definition origin (rt : MessageRuntime) : Z * Z := (rt_offset rt, rt_enqueue_ts rt).

Lemma similar_origin rt0 rt : similar rt0 rt → origin rt0 = origin rt.
Proof. unfold origin. intros [->|(_ & _ & -> & _ & -> & _)]; done. Qed.

Lemma similar_take_back t rt : similar rt (take_back t rt).
Proof. unfold similar, take_back. destruct (state rt) eqn:Hst; [by left|by right|by left..]. Qed.

Lemma apply_runtime_origin e rt rt' : origin rt = origin rt' → apply_runtime e rt = apply_runtime e rt'.
Proof. unfold origin, apply_runtime. by intros [= -> ->]. Qed.

(** ** Replaying on similar maps *)

(** The files give [m] where memory has [rts]. *)
Definition mirrors (m rts : gmap MessageId MessageRuntime) : Prop :=
  ∀ id rt, rts !! id = Some rt → ∃ rt0, m !! id = Some rt0 ∧ similar rt0 rt.

Lemma mirrors_alter e m rts :
  mirrors m rts → mirrors (alter (apply_runtime e) (ev_id e) m) (alter (apply_runtime e) (ev_id e) rts).
Proof.
  intros Hm id rt [(<- & rt1 & Hrt1 & ->)|[Hne Hrt]]%lookup_alter_Some.
  - destruct (Hm _ _ Hrt1) as (rt0 & Hrt0 & Hs). rewrite lookup_alter_eq, Hrt0.
    eexists. split; [done|]. left. by apply apply_runtime_origin, similar_origin.
  - rewrite lookup_alter_ne by done. by apply Hm.
Qed.

Lemma mirrors_replayed es m rts : mirrors m rts → mirrors (replayed es m) (replayed es rts).
Proof.
  revert m rts. induction es as [|e es IH]; intros m rts Hm; [exact Hm|].
  apply (IH (alter _ _ m) (alter _ _ rts)). by apply mirrors_alter.
Qed.

(** Replaying acts on every message by itself. *)
Lemma replayed_ext es m m' id : m !! id = m' !! id → replayed es m !! id = replayed es m' !! id.
Proof.
  revert m m'. induction es as [|e es IH]; intros m m' Hm; [exact Hm|].
  apply (IH (alter _ _ m) (alter _ _ m')).
  rewrite !lookup_alter.
  destruct (decide (ev_id e = id)) as [->|]; by rewrite Hm.
Qed.

Lemma replayed_none es m id : Forall (λ e, ev_id e ≠ id) es → replayed es m !! id = m !! id.
Proof.
  revert m. induction es as [|e es IH]; intros m Hes; [done|].
  apply Forall_cons in Hes as [He Hes]. unfold replayed in *. cbn [foldl].
  rewrite IH by done. by rewrite lookup_alter_ne.
Qed.

Lemma replayed_origin es m id : origin <$> replayed es m !! id = origin <$> m !! id.
Proof.
  revert m. induction es as [|e es IH]; intros m; [done|]. unfold replayed in *. cbn [foldl].
  rewrite IH, lookup_alter. destruct (decide (ev_id e = id)) as [->|]; [|done]. by destruct (m !! id).
Qed.

(** A message with an event keeps nothing of where it started but its
    origin. *)
Lemma replayed_agree es m m' id :
  origin <$> m !! id = origin <$> m' !! id → ¬ Forall (λ e, ev_id e ≠ id) es →
  replayed es m !! id = replayed es m' !! id.
Proof.
  induction es as [|e es IH] using rev_ind; intros Ho Hev; [by destruct Hev|].
  rewrite !replayed_app. cbn. rewrite !lookup_alter.
  destruct (decide (ev_id e = id)) as [->|Hid].
  - assert (origin <$> replayed es m !! id = origin <$> replayed es m' !! id) as Heq
      by (by rewrite !replayed_origin).
    destruct (replayed es m !! id), (replayed es m' !! id); simplify_eq/=; [|done].
    f_equal. apply apply_runtime_origin. by apply (f_equal2 pair).
  - apply IH; [done|]. intros Hes. apply Hev, Forall_app. split; [done|]. by apply Forall_singleton.
Qed.

(** Replaying the whole log over a snapshot that has seen a part of it, or all
    of it, is as good as replaying it over the older one. *)
Lemma mirrors_snapshot es snap base rts :
  mirrors (replayed es (restored snap base)) rts →
  mirrors (replayed es (restored rts base)) rts.
Proof.
  intros Hm id rt Hrt. destruct (Hm id rt Hrt) as (rt0 & Hrt0 & Hs).
  pose proof (replayed_origin es (restored snap base) id) as Ho. rewrite Hrt0 in Ho.
  assert (restored rts base !! id = Some rt) as Hsnap.
  { rewrite lookup_restored, Hrt. rewrite lookup_restored in Ho. by destruct (base !! id). }
  destruct (decide (Forall (λ e, ev_id e ≠ id) es)) as [Hnone|Hsome].
  - rewrite replayed_none, Hsnap by done. exists rt. split; [done|by left].
  - rewrite (replayed_agree es _ (restored snap base)); [by exists rt0| |done].
    rewrite Hsnap, <-Ho. cbn. f_equal. symmetry. by apply similar_origin.
Qed.

(** ** The files of a group that runs *)

Section durable.
Context `{Env}.
Context (options_ : EngineOptions) (queue_name group_id : string).

Abbreviation event_path := (GroupEventPath options_ queue_name group_id).
Abbreviation state_path := (GroupStatePath options_ queue_name group_id).
Abbreviation has_snapshot := (has_snapshot options_ queue_name group_id).
Abbreviation config_ok := (config_ok options_ queue_name group_id).
Abbreviation history := (history options_ queue_name group_id).
Abbreviation default_ready := "recovered-default-ready".

(** Over a log of the records [rs] the files of the group give the entries
    [m], before what is in flight is made ready. *)
Definition on_disk (rs : list Record_) (w : World) (m : gmap MessageId MessageRuntime) : Prop :=
  ∃ next snap es, has_snapshot w next snap ∧ Forall wf_event es ∧
    file_bytes w event_path = concat (map encode_event es) ∧ sane options_ rs snap es ∧
    m = replayed es (restored snap (log_runtime default_ready rs)).

(** They give what memory has, up to recovery. *)
Definition durable (rs : list Record_) (w : World) (g : ConsumerGroupState) : Prop :=
  ∃ m, on_disk rs w m ∧ mirrors m (runtime g).

(** Only the group's own files matter. *)
Lemma on_disk_files rs w w' m :
  (∀ p, ¬ foreign options_ queue_name group_id p → files w' !! p = files w !! p) →
  on_disk rs w m → on_disk rs w' m.
Proof.
  intros Hf (next & snap & es & Hsnap & Hwf & Hb & Hs & Hm). exists next, snap, es.
  unfold Recovery.has_snapshot, file_bytes in *.
  rewrite !Hf by (by intros (? & ? & ?)). done.
Qed.

(** *** The events of a run are sane *)

Lemma sane_run rs snap es0 g n es g' :
  sane options_ rs snap es0 → group_ok options_ g → group_run options_ g n es g' →
  sane options_ rs snap (es0 ++ es).
Proof.
  intros (Hmax & Hsnap & Hes0) Hok Hrun. split_and!; [done..|]. apply Forall_app. split; [done|].
  clear Hes0. induction Hrun as [| | |n es g1 e Hrun IH Hlegal _]; [done|done|done|].
  apply Forall_app. split; [done|]. apply Forall_singleton. intros Hst.
  pose proof (group_run_ok _ _ _ _ _ Hrun Hok) as Hok1.
  pose proof (group_ok_applied _ _ _ Hlegal Hok1) as Hok2.
  destruct (legal_known _ _ _ Hlegal) as [rt Hrt].
  apply (ok_retry _ _ Hok2 (ev_id e) (apply_runtime e rt)); [|exact Hst].
  by rewrite applied_runtime, decide_True, Hrt.
Qed.

Lemma sane_snapshot rs snap es g :
  sane options_ rs snap es → group_ok options_ g → tracks rs g → sane options_ rs (runtime g) es.
Proof.
  intros (Hmax & _ & Hes) Hok Ht. split_and!; [done| |done]. intros id rt Hrt.
  split; [by apply (ok_retry _ _ Hok id)|]. by apply Ht.
Qed.

Lemma snapshot_of_typed w g items :
  items ≡ₚ map_to_list (runtime g) → typed g → Z.of_nat (size (runtime g)) < 2 ^ 64 →
  files w !! state_path = Some (encode_snapshot (next_sequence g) items) →
  has_snapshot w (next_sequence g) (runtime g).
Proof.
  intros Hitems [Hrt _ Hn _] Hsize Hst. unfold Recovery.has_snapshot. rewrite Hst.
  exists items. split_and!; try done; [apply Hn..|]. by rewrite Hitems, length_map_to_list.
Qed.

Lemma run_size g n es g' : group_run options_ g n es g' → size (runtime g') = size (runtime g).
Proof.
  intros Hrun. rewrite (group_run_replayed _ _ _ _ _ Hrun), <-!size_dom. by rewrite replayed_dom.
Qed.

(** Along a history in which nothing is refused the files stay durable. *)
Lemma durable_history (calm : calm_run) c tr c' :
  clock_bounded → roomy group_id → config_ok c → typed (group c) →
  Z.of_nat (size (runtime (group c))) < 2 ^ 64 →
  durable (records c) (world c) (group c) → history c tr c' →
  durable (records c) (world c') (group c').
Proof.
  intros Hclock Hroom Hok Hty Hsize (m & (next & snap & es0 & Hsnap & Hwf & Hb & Hsane & ->) & Hm) Hh.
  destruct (history_progress _ _ _ _ _ _ Hclock Hok Hh) as (n & es & Hrun & Hb' & Hst & Hs & _).
  destruct (typed_run _ _ _ _ _ _ Hroom Hrun Hst Hty) as [_ Hes].
  assert (Forall wf_event (es0 ++ es)) as Hall by (by apply Forall_app).
  assert (file_bytes (world c') event_path = concat (map encode_event (es0 ++ es))) as Hfile
    by (rewrite Hb' by done; by rewrite Hb, map_app, concat_app).
  destruct Hok as (Hg & _ & _ & _ & Ht). pose proof (sane_run _ _ _ _ _ _ _ Hsane Hg Hrun) as Hsane'.
  destruct Hs as [Hs|(n1 & es1 & g1 & n2 & es2 & items & -> & Hr1 & Hr2 & Hitems & Hs)].
  - eexists. split; [exists next, snap, (es0 ++ es); split_and!; [|done..]|].
    + unfold Recovery.has_snapshot in *. by rewrite Hs.
    + rewrite replayed_app, (group_run_replayed _ _ _ _ _ Hrun). by apply mirrors_replayed.
  - apply Forall_app in Hst as [Hst1 _].
    destruct (typed_run _ _ _ _ _ _ Hroom Hr1 Hst1 Hty) as [Hty1 _].
    eexists. split; [exists (next_sequence g1), (runtime g1), (es0 ++ es1 ++ es2); split_and!;
      [|done..| |done]|].
    + eapply snapshot_of_typed; [done..| |done]. by rewrite (run_size _ _ _ _ Hr1).
    + eapply sane_snapshot; [done|by eapply group_run_ok|by eapply group_run_tracks].
    + rewrite app_assoc, replayed_app, (group_run_replayed _ _ _ _ _ Hr2).
      apply mirrors_replayed, (mirrors_snapshot _ snap).
      rewrite replayed_app, (group_run_replayed _ _ _ _ _ Hr1). by apply mirrors_replayed.
Qed.
End durable.

(** ** The loaded group *)

Section reload.
Context `{Env}.
Context (options_ : EngineOptions) (queue_name group_id : string).

Abbreviation event_path := (GroupEventPath options_ queue_name group_id).
Abbreviation state_path := (GroupStatePath options_ queue_name group_id).
Abbreviation has_snapshot := (has_snapshot options_ queue_name group_id).
Abbreviation durable := (durable options_ queue_name group_id).
Abbreviation on_disk := (on_disk options_ queue_name group_id).
Abbreviation default_ready := "recovered-default-ready".

Definition wf_entries (m : gmap MessageId MessageRuntime) : Prop :=
  map_Forall (λ id rt, wf_id id ∧ wf_runtime rt) m.

Lemma typed_replayed es g :
  roomy group_id → typed g → Forall wf_event es → typed (replayed_group options_ es g).
Proof.
  intros Hroom. revert g. induction es as [|e es IH]; intros g Hg Hes; [done|].
  apply Forall_cons in Hes as [He Hes]. apply IH; [|done].
  destruct (applied_typed options_ group_id g e Hroom Hg He) as [Hr Hi Hn Hb].
  split; [done..| |done]. cbn. pose proof (u64_range (ev_sequence e + 1)). lia.
Qed.

Lemma log_runtime_wf rs :
  roomy group_id → Forall recoverable rs → distinct_ids rs → Z.of_nat (length rs) < 2 ^ 64 →
  wf_entries (log_runtime default_ready rs).
Proof.
  intros Hroom Hrs Hd Hlen id rt Hrt.
  apply lookup_log_runtime in Hrt as (i & r & Hr & <- & ->); [|done].
  pose proof (lookup_lt_Some _ _ _ Hr) as Hi.
  destruct (proj1 (Forall_lookup _ _) Hrs _ _ Hr) as [[(_ & _ & _ & Hts & Hh & Hl) _] _].
  split; [done|]. pose proof (short_string group_id default_ready Hroom ltac:(simpl; lia)).
  unfold wf_runtime, default_runtime. cbn. split_and!; try done; lia.
Qed.

Lemma restored_wf snap base : wf_entries snap → wf_entries base → wf_entries (restored snap base).
Proof.
  intros Hs Hb id rt. rewrite lookup_restored. destruct (base !! id) eqn:Hbase; [|done].
  destruct (snap !! id) eqn:Hsnap; intros [= <-]; [by apply Hs|by apply Hb].
Qed.

Lemma take_back_wf t rt : roomy group_id → is_u64 t → wf_runtime rt → wf_runtime (take_back t rt).
Proof.
  intros Hroom Ht Hrt. unfold take_back. destruct (state rt); try done.
  pose proof (short_string _ _ Hroom (reason_short kRecoveredInflightToReady I)).
  unfold wf_runtime in *. cbn. tauto.
Qed.

Lemma has_snapshot_wf w next snap : has_snapshot w next snap → wf_entries snap ∧ is_u64 next.
Proof.
  unfold Recovery.has_snapshot. destruct (files w !! state_path).
  - by intros (items & _ & _ & ? & ? & _).
  - intros [-> ->]. split; [apply map_Forall_empty|lia].
Qed.

Lemma typed_loaded rs next snap es base t t' st :
  roomy group_id → Forall recoverable rs → distinct_ids rs → Z.of_nat (length rs) < 2 ^ 64 →
  wf_entries snap → is_u64 next → Forall wf_event es → is_u64 base → is_u64 t →
  typed (loaded options_ rs next snap es base t t' st).
Proof.
  intros Hroom Hrs Hd Hlen Hsnap Hn Hes Hb Ht.
  assert (typed (loaded_core options_ rs next snap es base st)) as [Hr Hi Hn' Hb'].
  { apply typed_replayed; [done| |done]. split; [|by apply map_Forall_empty|done..].
    by apply restored_wf, log_runtime_wf. }
  split; [|done..]. unfold loaded. cbn [runtime set_ready set_runtime].
  intros id rt (rt0 & <- & Hrt0)%lookup_fmap_Some. destruct (Hr _ _ Hrt0).
  split; [done|]. by apply take_back_wf.
Qed.

Lemma loaded_mirrors rs next snap es base t t' st :
  mirrors (replayed es (restored snap (log_runtime default_ready rs)))
    (runtime (loaded options_ rs next snap es base t t' st)).
Proof.
  intros id rt. rewrite loaded_runtime. intros (rt0 & <- & Hrt0)%lookup_fmap_Some.
  exists rt0. split; [done|apply similar_take_back].
Qed.

Lemma loaded_size rs next snap es base t t' st :
  distinct_ids rs → size (runtime (loaded options_ rs next snap es base t t' st)) = length rs.
Proof.
  intros Hd. rewrite loaded_runtime, map_size_fmap, <-size_dom, replayed_dom.
  assert (dom (restored snap (log_runtime default_ready rs)) = dom (log_runtime default_ready rs)) as ->.
  { apply set_eq. intros id. rewrite !elem_of_dom, lookup_restored.
    destruct (log_runtime _ rs !! id); split; intros [x Hx]; by eexists. }
  rewrite size_dom. unfold log_runtime.
  rewrite map_size_list_to_map by (by rewrite log_runtime_keys). by rewrite length_imap.
Qed.

(** A longer log has the same default entry for the messages of the shorter
    one. *)
Lemma log_runtime_more rs more id rt :
  distinct_ids (rs ++ more) → distinct_ids rs → log_runtime default_ready rs !! id = Some rt →
  log_runtime default_ready (rs ++ more) !! id = Some rt.
Proof.
  intros Hd Hd1 Hrt. apply lookup_log_runtime in Hrt as (i & r & Hr & Hid & ->); [|done].
  apply lookup_log_runtime; [done|]. exists i, r. split; [|done]. by apply lookup_app_l_Some.
Qed.

Lemma sane_more rs more snap es : sane options_ rs snap es → sane options_ (rs ++ more) snap es.
Proof.
  intros (? & Hsnap & ?). split_and!; [done| |done]. intros id rt Hrt.
  destruct (Hsnap id rt Hrt) as (? & ? & r & Hr & ?). split_and!; [done..|].
  exists r. split; [by apply lookup_app_l_Some|done].
Qed.

(** Messages that come to the log change nothing for the others. *)
Lemma on_disk_more rs more w m :
  distinct_ids (rs ++ more) → distinct_ids rs → on_disk rs w m →
  ∃ m', on_disk (rs ++ more) w m' ∧ m ⊆ m'.
Proof.
  intros Hd Hd1 (next & snap & es & Hsnap & Hwf & Hb & Hsane & ->). eexists. split.
  { exists next, snap, es. split_and!; [done..|by apply sane_more|done]. }
  apply map_subseteq_spec. intros id rt Hrt. rewrite <-Hrt. apply replayed_ext.
  pose proof (replayed_origin es (restored snap (log_runtime default_ready rs)) id) as Ho.
  rewrite Hrt in Ho. rewrite !lookup_restored in *.
  destruct (log_runtime default_ready rs !! id) as [rt1|] eqn:Hlog; [|done].
  by rewrite (log_runtime_more rs more id rt1).
Qed.

Lemma mirrors_weaken m m' rts : m ⊆ m' → mirrors m rts → mirrors m' rts.
Proof.
  intros Hsub Hm id rt Hrt. destruct (Hm id rt Hrt) as (rt0 & Hrt0 & Hs). exists rt0.
  split; [by eapply lookup_weaken|done].
Qed.

(** Loading what is on disk succeeds when nothing is refused, with every entry
    as it is there but for what was in flight. *)
Lemma wp_load_on_disk (calm : calm_run) rs post seg w m st (Q : outcome unit →
  World * ConsumerGroupState → Prop) :
  roomy group_id → indexed rs seg → files w !! path_ seg = Some (log_bytes rs ++ post) → distinct_ids rs →
  foreign options_ queue_name group_id (path_ seg) → on_disk rs w m →
  (∀ w' g' t, files w' = files w → config_ok options_ queue_name group_id (mkConfiguration rs seg w' g') →
     typed g' → Z.of_nat (size (runtime g')) < 2 ^ 64 → durable rs w' g' →
     runtime g' = take_back t <$> m → Q (Good tt) (w', g')) →
  wp (LoadGroupState options_ queue_name group_id seg) Q (w, new_Group st).
Proof.
  intros Hroom Hidx Hfile Hd Hforeign (next & snap & es & Hsnap & Hwf & Hb & Hsane & ->) HQ.
  destruct (has_snapshot_wf _ _ _ Hsnap) as [Hsw Hn].
  pose proof Hidx as (Hrec & (_ & Hlen) & _).
  apply (wp_LoadGroupState _ _ _ rs post seg next snap es); [done..| | |].
  - split; [done|]. exists []. split; [simpl; lia|by rewrite Hb, app_nil_r].
  - by intros o w' g' [? _].
  - intros w' base t t' Hf Hbase Ht.
    destruct (loaded_ok options_ rs next snap es base t t' st Hd Hsane Hn Hbase) as (Hg & Htr & _).
    apply (HQ w' _ t); [done|..].
    + split_and!; cbn; [done..| |done|done]. exists post. by rewrite Hf.
    + by eapply typed_loaded.
    + by rewrite loaded_size.
    + eexists. split; [|apply loaded_mirrors]. exists next, snap, es.
      unfold Recovery.has_snapshot, file_bytes in *. by rewrite Hf.
    + apply loaded_runtime.
Qed.

Lemma history_records c tr c' :
  history options_ queue_name group_id c tr c' → ∃ more, records c' = records c ++ more.
Proof.
  induction 1 as [|tr rs seg w g op r w' g' _ IH _|tr c1 c2 _ [more IH] ([more' Ho] & _)].
  - exists []. by rewrite app_nil_r.
  - exact IH.
  - exists (more ++ more'). by rewrite Ho, IH, app_assoc.
Qed.
End reload.

(** ** Properties *)

(** What is left of an entry after a restart: a settled message is exactly as
    it was, any other one is ready with its place in the log, its retries and
    its last sequence number. *)
Definition survives (rt rt' : MessageRuntime) : Prop :=
  rt_offset rt' = rt_offset rt ∧ rt_enqueue_ts rt' = rt_enqueue_ts rt ∧
  retry_count rt' = retry_count rt ∧ sequence rt' = sequence rt ∧
  (terminal rt → rt' = rt) ∧ (live rt → state rt' = kReady).

Lemma similar_survives rt0 rt t : similar rt0 rt → survives rt (take_back t rt0).
Proof.
  unfold survives, take_back, terminal, live.
  intros [->|(Hst & Hst' & Ho & Hr & He & Hs)].
  - destruct (state rt) eqn:Hst; cbn; rewrite ?Hst; split_and!; try done; by intros [].
  - rewrite Hst, Hst'. cbn. split_and!; try done. by intros [].
Qed.

Section properties.
Context `{Env}.
Context (options_ : EngineOptions) (queue_name group_id : string).

Abbreviation Load := (LoadGroupState options_ queue_name group_id).
Abbreviation has_snapshot := (has_snapshot options_ queue_name group_id).
Abbreviation config_ok := (config_ok options_ queue_name group_id).
Abbreviation history := (history options_ queue_name group_id).
Abbreviation event_path := (GroupEventPath options_ queue_name group_id).

(** C5. Nothing is lost by a restart.  A group is loaded over a log of messages
    with different identifiers and from well-formed files (a snapshot and
    events that agree with the log and the retry limit); any history of
    operations follows, during which the log only grows, by messages with
    different identifiers again; the process ends at any moment between two
    operations; nothing is refused.  Loading the group again succeeds and
    gives every message of the group: a settled one exactly as it was, every
    other one ready, at its offset, with its retries and its last sequence
    number.  (That the log only grows excludes one case: the first append of a
    process that found the log there already overwrites the first record,
    [SegmentLog.append_after_reopen_overwrites].) *)
Theorem restart_preserves_state rs post seg next snap es st w w1 g1 tr rs2 seg2 w2 g2 st2 w3 :
  calm_run → clock_bounded → roomy group_id →
  indexed rs seg → files w !! path_ seg = Some (log_bytes rs ++ post) → distinct_ids rs →
  foreign options_ queue_name group_id (path_ seg) →
  has_snapshot w next snap → Forall wf_event es → sane options_ rs snap es →
  file_bytes w event_path = concat (map encode_event es) →
  Load seg (w, new_Group st) = (Good tt, (w1, g1)) →
  history (mkConfiguration rs seg w1 g1) tr (mkConfiguration rs2 seg2 w2 g2) →
  distinct_ids rs2 → files w3 = files w2 →
  let '(o, (_, g3)) := Load seg2 (w3, new_Group st2) in
  o = Good tt ∧
  ∀ id rt, runtime g2 !! id = Some rt → ∃ rt3, runtime g3 !! id = Some rt3 ∧ survives rt rt3.
Proof.
  intros calm Hclock Hroom Hidx Hfile Hd Hforeign Hsnap Hwf Hsane Hb Hload Hh Hd2 Hf3.
  assert (on_disk options_ queue_name group_id rs w
    (replayed es (restored snap (log_runtime "recovered-default-ready" rs)))) as Hst by (by exists next, snap, es).
  assert (config_ok (mkConfiguration rs seg w1 g1) ∧ typed g1 ∧ Z.of_nat (size (runtime g1)) < 2 ^ 64 ∧
    durable options_ queue_name group_id rs w1 g1) as (Hok & Hty & Hsize & Hdur).
  { refine (wp_intro _ (λ _ s', config_ok (mkConfiguration rs seg s'.1 s'.2) ∧ typed s'.2 ∧
      Z.of_nat (size (runtime s'.2)) < 2 ^ 64 ∧ durable options_ queue_name group_id rs s'.1 s'.2)
      _ _ _ _ Hload).
    eapply wp_load_on_disk; [done..|]. by intros. }
  destruct (durable_history _ _ _ calm _ _ _ Hclock Hroom Hok Hty Hsize Hdur Hh) as (m & Hm & Hmir).
  destruct (history_records _ _ _ _ _ _ Hh) as [more Hmore].
  destruct (history_run _ _ _ _ _ _ Hclock Hok Hh) as [(_ & Hidx2 & (post2 & Hfile2) & Hforeign2 & _) _].
  cbn [records world group log] in *. subst rs2.
  destruct (on_disk_more _ _ _ _ more _ _ Hd2 Hd Hm) as (m' & Hm' & Hsub).
  apply wp_run2. eapply (wp_load_on_disk _ _ _ calm); [done| |by rewrite Hf3|done..| |].
  - done.
  - eapply on_disk_files; [|done]. by rewrite Hf3.
  - intros w4 g4 t _ _ _ _ _ Hrt4. split; [done|]. intros id rt Hrt.
    destruct (mirrors_weaken _ _ _ Hsub Hmir id rt Hrt) as (rt0 & Hrt0 & Hs).
    exists (take_back t rt0). cbn [snd]. rewrite Hrt4, lookup_fmap, Hrt0.
    split; [done|]. by apply similar_survives.
Qed.
End properties.
