(* ===== verification/EngineSpecs.v ===== *)
(** * What the queue engine promises

    The table of queues: creating, finding, filling; isolation of queues and
    groups; the message that is delivered is the message that was produced;
    replaying a log to a sequence number. *)
From S2P Require Import Prelude Status Io Record SegmentLog Checkpoint Message EventLog Group.
From S2P Require Import Lifecycle Handlers HandlerSpecs Engine Recovery.

(** ** Messages in and out *)

Lemma ordered_entries_perm m : ordered_entries m ≡ₚ map_to_list m.
Proof. apply merge_sort_Permutation. Qed.

Lemma headers_map_ordered m : headers_map (ordered_entries m) = m.
Proof.
  unfold headers_map. rewrite foldl_insert_nodup.
  - rewrite <-(list_to_map_to_list m) at 2. apply list_to_map_proper; [|apply ordered_entries_perm].
    rewrite ordered_entries_perm. apply NoDup_fst_map_to_list.
  - rewrite ordered_entries_perm. apply NoDup_fst_map_to_list.
Qed.

(** ** The table *)

Section table.
Context `{Env}.
Context (options_ : EngineOptions).

(** The group [gid] of queue [q]. *)
Definition find_group (qs : Queues) (q gid : string) : option ConsumerGroupState :=
  st ← qs !! q; groups st !! gid.

Definition find_segment (qs : Queues) (q : string) : option SegmentLog := segment <$> qs !! q.

(** Only group [gid] of queue [q] may differ. *)
Definition only_group (q gid : string) (qs qs' : Queues) : Prop :=
  (∀ q', find_segment qs' q' = find_segment qs q') ∧
  (∀ q' gid', q' ≠ q ∨ gid' ≠ gid → find_group qs' q' gid' = find_group qs q' gid').

Lemma only_group_refl q gid qs : only_group q gid qs qs.
Proof. done. Qed.

Lemma only_group_trans q gid qs1 qs2 qs3 :
  only_group q gid qs1 qs2 → only_group q gid qs2 qs3 → only_group q gid qs1 qs3.
Proof. intros [H1 H2] [H3 H4]. split; intros; [by rewrite H3|by rewrite H4, H2]. Qed.

Lemma only_group_insert q gid qs st g :
  qs !! q = Some st → only_group q gid qs (<[q := set_group gid g st]> qs).
Proof.
  intros Hst. unfold only_group, find_segment, find_group. split; intros q'.
  - destruct (decide (q' = q)) as [->|]; [by rewrite lookup_insert_eq, Hst|by rewrite lookup_insert_ne].
  - intros gid' Hne. destruct (decide (q' = q)) as [->|]; [|by rewrite lookup_insert_ne].
    rewrite lookup_insert_eq, Hst. cbn. destruct Hne; [done|]. by rewrite lookup_insert_ne.
Qed.

Lemma find_group_insert q gid qs st g :
  find_group (<[q := set_group gid g st]> qs) q gid = Some g.
Proof. unfold find_group. rewrite lookup_insert_eq. cbn. apply lookup_insert_eq. Qed.

(** [GetGroup] finds the group or loads it. *)
Lemma wp_GetGroup q gid (Q : outcome unit → World * Queues → Prop) w qs :
  (qs !! q = None → Q (Fail (mkStatus kNotFound "queue not found")) (w, qs)) →
  (∀ st g, qs !! q = Some st → groups st !! gid = Some g → Q (Good tt) (w, qs)) →
  (∀ st o w' g', qs !! q = Some st → groups st !! gid = None →
     LoadGroupState options_ q gid (segment st)
       (w, new_Group (mkCheckpointStore (CheckpointPath options_ q gid) (fsync_policy options_))) =
       (o, (w', g')) →
     Q o (w', match o with Good _ => <[q := set_group gid g' st]> qs | _ => qs end)) →
  wp (GetGroup options_ q gid) Q (w, qs).
Proof.
  intros Hnone Hfound Hload. unfold GetGroup, GetQueue. apply wp_bind, wp_bind, wp_gets_snd.
  destruct (qs !! q) as [st|] eqn:Hst; [|by apply wp_fail, Hnone]. apply wp_ret.
  destruct (groups st !! gid) as [g|] eqn:Hg; [by apply wp_ret, (Hfound st g)|].
  unfold wp. cbn [fst snd].
  destruct (LoadGroupState _ _ _ _ _) as [o [w' g']] eqn:Hrun. cbn [fst snd].
  specialize (Hload st o w' g' eq_refl Hg Hrun). exact Hload.
Qed.

(** After [GetGroup] the group is in the table. *)
Lemma wp_GetGroup_table q gid w qs :
  wp (GetGroup options_ q gid) (λ o s', only_group q gid qs s'.2 ∧
    match o with
    | Good _ => ∃ st g, s'.2 !! q = Some st ∧ groups st !! gid = Some g
    | _ => s'.2 = qs
    end) (w, qs).
Proof.
  apply wp_GetGroup.
  - intros _. split; [apply only_group_refl|done].
  - intros st g Hst Hg. split; [apply only_group_refl|eauto].
  - intros st o w' g' Hst Hg _. cbn [snd]. destruct o as [[]|e|e];
      [|split; [apply only_group_refl|done]..].
    split; [by apply only_group_insert|]. eexists _, g'. rewrite lookup_insert_eq. split; [done|].
    apply lookup_insert_eq.
Qed.

(** A handler runs on the group that [GetGroup] left in the table, and only
    that group is replaced. *)
Lemma wp_on_group {A} q gid (m : SegmentLog → GroupM A) w qs
    (Q : outcome A → World * Queues → Prop) :
  wp (GetGroup options_ q gid) (λ o s', match o with
    | Good _ => ∀ st g, s'.2 !! q = Some st → groups st !! gid = Some g →
        wp (m (segment st)) (λ o p, Q o (p.1, <[q := set_group gid p.2 st]> s'.2)) (s'.1, g)
    | Fail e => Q (Fail e) s'
    | Throw e => Q (Throw e) s'
    end) (w, qs) →
  wp (on_group options_ q gid m) Q (w, qs).
Proof.
  intros HQ. unfold on_group. apply wp_bind, wp_elim. intros o [w1 qs1] Hrun.
  pose proof (wp_intro _ _ _ _ _ (wp_GetGroup_table q gid w qs) Hrun) as [_ Ht].
  pose proof (wp_intro _ _ _ _ _ HQ Hrun) as HQ1. cbn [fst snd] in *.
  destruct o as [[]|e|e]; [|done..]. destruct Ht as (st & g & Hst & Hg).
  specialize (HQ1 st g Hst Hg). unfold wp in *. cbn [fst snd] in *. rewrite Hst, Hg.
  by destruct (m (segment st) (w1, g)) as [o [w2 g2]].
Qed.

Lemma on_group_isolated {A} q gid (m : SegmentLog → GroupM A) w qs :
  wp (on_group options_ q gid m) (λ _ s', only_group q gid qs s'.2) (w, qs).
Proof.
  apply wp_on_group. eapply wp_mono; [apply wp_GetGroup_table|].
  intros [[]|e|e] [w1 qs1] [Honly Hpost]; cbn [fst snd] in *; [|by subst..].
  intros st g Hst Hg. apply wp_elim. intros o [w2 g2] _. cbn [fst snd].
  eapply only_group_trans; [exact Honly|]. by apply only_group_insert.
Qed.
End table.

(** ** Replaying *)

Section replay.
Context `{Env}.
Context (options_ : EngineOptions).

(** The entries of a log from the [k]-th record on, in the order of their
    offsets. *)
Definition entries_from (k : nat) (rs : list Record_) : list (MessageId * MessageRuntime) :=
  imap (λ i r, (record_id r, default_runtime (Z.of_nat (k + i)) (enqueue_ts (header r))
                  "replay-default-ready")) (drop k rs).

Lemma entries_from_S k r rs :
  rs !! k = Some r →
  entries_from k rs =
  (record_id r, default_runtime (Z.of_nat k) (enqueue_ts (header r)) "replay-default-ready")
    :: entries_from (S k) rs.
Proof.
  intros Hr. unfold entries_from. rewrite (drop_S _ _ _ Hr). cbn [imap]. rewrite Nat.add_0_r.
  f_equal. apply imap_ext. intros i x _. cbn. by rewrite Nat.add_succ_r.
Qed.

Lemma wp_replay_messages rs post seg k (Q : outcome unit → World * ConsumerGroupState → Prop) w g :
  indexed rs seg → files w !! path_ seg = Some (log_bytes rs ++ post) → (k <= length rs)%nat →
  (∀ e w' g', files w' = files w → ¬ calm_run → Q (Fail e) (w', g')) →
  (∀ w', files w' = files w → Q (Good tt) (w',
     set_runtime (foldl (λ m it, <[it.1 := it.2]> m) (runtime g) (entries_from k rs)) g)) →
  wp (replay_messages seg (Z.of_nat <$> seq k (length rs - k))) Q (w, g).
Proof.
  intros Hidx Hfile. remember (length rs - k)%nat as n eqn:Hn.
  revert k w g Hn Hfile. induction n as [|n IH]; intros k w g Hn Hfile Hk Hbad Hgood.
  - apply wp_ret. unfold entries_from in Hgood. rewrite drop_ge in Hgood by lia.
    specialize (Hgood w eq_refl). by destruct g.
  - cbn [seq fmap list_fmap replay_messages].
    destruct (lookup_lt_is_Some_2 rs k) as [r Hr]; [lia|].
    apply wp_bind, wp_on_fst. eapply wp_read_or_refused; [done..| |].
    { intros e w1 (Hf1 & _) Hnc. by apply Hbad. }
    intros w1 (Hf1 & _). apply wp_bind, wp_modify_snd.
    apply IH; [lia|by rewrite Hf1|lia| |].
    + intros e w2 g2 Hf2 Hnc. apply Hbad; [congruence|done].
    + intros w2 Hf2. specialize (Hgood w2 ltac:(congruence)).
      rewrite (entries_from_S k r) in Hgood by done. exact Hgood.
Qed.

Lemma foldl_applied_runtime es g :
  runtime (foldl (λ g e, applied options_ e g) g es) = replayed es (runtime g).
Proof.
  revert g. induction es as [|e es IH]; intros g; [done|]. unfold replayed in *. cbn [foldl].
  by rewrite IH, applied_alter.
Qed.

(** The state of the queue's messages after the events up to [n]. *)
Definition state_at (rs : list Record_) (es : list TransitionEvent) (n : Z)
    : gmap MessageId MessageRuntime :=
  replayed (upto n es) (log_runtime "replay-default-ready" rs).

Lemma wp_ReplayGroup q gid n rs post seg es st
    (Q : outcome ReplayResult → World * ConsumerGroupState → Prop) w :
  indexed rs seg → files w !! path_ seg = Some (log_bytes rs ++ post) → distinct_ids rs →
  has_events options_ q gid w es →
  (∀ e w' g', files w' = files w → ¬ calm_run → Q (Fail e) (w', g')) →
  (∀ w' g' s, files w' = files w →
     stats_counts s = (count_in kReady (state_at rs es n), count_in kInFlight (state_at rs es n),
                       count_in kAcked (state_at rs es n), count_in kDead (state_at rs es n)) →
     Q (Good (mkReplay (match last (upto n es) with None => 0 | Some e => ev_sequence e end) s))
       (w', g')) →
  wp (ReplayGroup options_ q gid n seg) Q (w, new_Group st).
Proof.
  intros Hidx Hfile Hd Hev Hbad Hgood. unfold ReplayGroup.
  apply wp_bind. unfold InitScheduler. apply wp_bind, wp_modify_snd, wp_bind, wp_on_fst, wp_now.
  intros w1 Hf1 _ _. apply wp_modify_snd, wp_bind. rewrite (Offsets_indexed rs) by done.
  pose proof (wp_replay_messages rs post seg 0) as Hread. rewrite Nat.sub_0_r in Hread.
  eapply Hread; [done|by rewrite Hf1|lia| |]; clear Hread.
  { intros e w2 g2 Hf2 Hnc. apply Hbad; [congruence|done]. }
  intros w2 Hf2. set (g2 := set_runtime _ _).
  assert (runtime g2 = log_runtime "replay-default-ready" rs) as Hg2.
  { unfold g2. cbn [runtime set_runtime set_base_tick set_wheel new_Group].
    unfold entries_from. rewrite drop_0. apply foldl_insert_nodup.
    by rewrite log_runtime_keys. }
  apply wp_bind, wp_on_fst. eapply wp_LoadTransitions.
  { unfold has_events, file_bytes in *. rewrite Hf2, Hf1. exact Hev. }
  { intros e w3 Hf3 Hnc. apply Hbad; [congruence|done]. }
  intros w3 (Hf3 & _). apply wp_bind. unfold wp at 1. rewrite apply_all_eq by done. cbn [fst snd].
  apply wp_bind, wp_BuildReadyQueue. intros w4 Hf4 _.
  apply wp_bind, wp_gets_snd, wp_bind, wp_on_fst, wp_traverse. intros l w5 Hl (Hf5 & _).
  apply wp_ret, Hgood; [congruence|].
  cbn [runtime set_ready] in Hl. rewrite foldl_applied_runtime, Hg2 in Hl.
  pose proof (count_entries_counts l zero_stats) as Hcount. cbv beta zeta in Hcount.
  rewrite (count_in_perm kReady _ l Hl), (count_in_perm kInFlight _ l Hl),
    (count_in_perm kAcked _ l Hl), (count_in_perm kDead _ l Hl) in Hcount.
  cbn [zero_stats ready_count inflight_count acked_count dead_count] in Hcount.
  by rewrite !Z.add_0_l in Hcount.
Qed.
End replay.

(** ** Properties *)

Section properties.
Context `{Env}.
Context (options_ : EngineOptions).

(** The message a consumer gets is the message that was produced: encoding
    it as a record, storing it and turning the record into a result gives
    the identifier, time, payload, headers and routing key back. *)
Theorem delivered_is_produced m n off count :
  result_message (make_result (stored (set_offset n (record_of m))) off count) = m.
Proof.
  destruct m as [[high low] ts data hs key]. unfold make_result, record_id, record_of. cbn.
  by rewrite headers_map_ordered.
Qed.

(** The operations on one group of one queue leave every other group of
    every queue, and every queue's segment, as they were. *)
Theorem groups_isolated q gid w qs :
  (let '(_, (_, qs')) := ConsumeOnShard options_ q gid (w, qs) in only_group q gid qs qs') ∧
  (∀ id, let '(_, (_, qs')) := AckOnShard options_ q gid id (w, qs) in only_group q gid qs qs') ∧
  (∀ id b, let '(_, (_, qs')) := NackOnShard options_ q gid id b (w, qs) in only_group q gid qs qs') ∧
  (let '(_, (_, qs')) := GetStatsOnShard options_ q gid (w, qs) in only_group q gid qs qs') ∧
  (∀ id, let '(_, (_, qs')) := InspectMessageOnShard options_ q gid id (w, qs) in
         only_group q gid qs qs').
Proof. split_and!; intros; apply wp_run2, on_group_isolated. Qed.

(** On a queue that was not created every operation reports [kNotFound] and
    changes neither the world nor the table; creating a queue that exists
    reports [kAlreadyExists] and changes nothing. *)
Theorem missing_and_existing_queues q gid w qs :
  let nf := mkStatus kNotFound "queue not found" in
  match qs !! q with
  | None =>
      (∀ m, ProduceOnShard options_ q m (w, qs) = (Fail nf, (w, qs))) ∧
      ConsumeOnShard options_ q gid (w, qs) = (Fail nf, (w, qs)) ∧
      (∀ id, AckOnShard options_ q gid id (w, qs) = (Fail nf, (w, qs))) ∧
      (∀ id b, NackOnShard options_ q gid id b (w, qs) = (Fail nf, (w, qs))) ∧
      GetStatsOnShard options_ q gid (w, qs) = (Fail nf, (w, qs)) ∧
      (∀ id, InspectMessageOnShard options_ q gid id (w, qs) = (Fail nf, (w, qs))) ∧
      (∀ n, ReplayToSequenceOnShard options_ q gid n (w, qs) = (Fail nf, (w, qs)))
  | Some _ =>
      CreateQueueOnShard options_ q (w, qs) =
      (Fail (mkStatus kAlreadyExists "queue already exists"), (w, qs))
  end.
Proof.
  cbv zeta. destruct (qs !! q) as [st|] eqn:Hq.
  - unfold CreateQueueOnShard. cbn [snd]. by rewrite Hq.
  - assert (GetQueue q (w, qs) = (Fail (mkStatus kNotFound "queue not found"), (w, qs))) as Hget.
    { unfold GetQueue, bind, gets. cbn [snd]. by rewrite Hq. }
    assert (∀ A (m : SegmentLog → GroupM A), on_group options_ q gid m (w, qs) =
      (Fail (mkStatus kNotFound "queue not found"), (w, qs))) as Hon.
    { intros A m. unfold on_group. apply bind_fail. unfold GetGroup. by apply bind_fail. }
    split_and!; intros; try apply Hon; unfold ProduceOnShard, ReplayToSequenceOnShard;
      by apply bind_fail.
Qed.

(** A produced message's record, as the log of [rs] takes it. *)
Abbreviation next_record rs m := (set_offset (Z.of_nat (length rs)) (record_of m)).

(** The size is what the file has, or less where it cannot be asked for. *)
Lemma wp_SizeBytes seg (Q : outcome Z → World → Prop) w :
  is_Some (fd_ seg) →
  (∀ size w', io_only w w' → size <= Z.of_nat (length (file_bytes w (path_ seg))) →
     (calm_run → size = Z.of_nat (length (file_bytes w (path_ seg)))) → Q (Good size) w') →
  wp (SizeBytes seg) Q w.
Proof.
  intros [p Hp] HQ. unfold wp, SizeBytes, call_ok, syscall, bind, ret, gets. rewrite Hp.
  destruct (io (io_calls w)) eqn:Hio; cbn [fst snd]; apply HQ; try done; [lia|].
  intros [calm _]. by rewrite calm in Hio.
Qed.

(** What producing does to a log of [rs] that is open at its end. *)
Definition produced_post (q : string) (m : Message) (st : QueueState) (rs : list Record_)
    (w : World) (qs : Queues) (o : outcome Z) (w' : World) (qs' : Queues) : Prop :=
  let n := Z.of_nat (length rs) in
  let size := Z.of_nat (length (log_bytes rs)) in
  match o with
  | Good k => k = n ∧ n < max_queue_depth options_ ∧
      (calm_run → size < max_segment_size_bytes options_) ∧
      ∃ seg, qs' = <[q := set_segment seg st]> qs ∧ appendable (rs ++ [next_record rs m]) w' seg
  | Fail e =>
      (max_queue_depth options_ <= n ∧ e = mkStatus kUnavailable "queue is full" ∧
         files w' = files w ∧ qs' = qs) ∨
      (n < max_queue_depth options_ ∧ max_segment_size_bytes options_ <= size ∧
         e = mkStatus kUnavailable "segment size limit reached" ∧ files w' = files w ∧ qs' = qs) ∨
      (¬ calm_run ∧ n < max_queue_depth options_ ∧
         ∃ seg more, qs' = <[q := set_segment seg st]> qs ∧ indexed rs seg ∧
           files w' !! path_ (segment st) = Some (log_bytes rs ++ more))
  | Throw _ => False
  end.

Lemma Produce_appendable q m st rs w qs :
  qs !! q = Some st → appendable rs w (segment st) → recoverable (next_record rs m) →
  (Z.of_nat (length rs) < max_queue_depth options_ → Z.of_nat (length rs) + 1 < 2 ^ 64) →
  let '(o, (w', qs')) := ProduceOnShard options_ q m (w, qs) in
  produced_post q m st rs w qs o w' qs'.
Proof.
  intros Hst Happ Hrec Hlen. pose proof Happ as ((_ & Hnum & Hidx) & Hfile & Hfd).
  assert (next_offset_ (segment st) = Z.of_nat (length rs)) as Hnext.
  { rewrite <-index_next by done. by rewrite <-Hidx. }
  apply wp_run2. unfold ProduceOnShard. apply wp_bind. unfold GetQueue. apply wp_bind, wp_gets_snd.
  rewrite Hst. apply wp_ret. rewrite Hnext.
  destruct (Z.leb_spec (max_queue_depth options_) (Z.of_nat (length rs))) as [Hfull|Hroom].
  { apply wp_fail. by left. }
  apply wp_bind, wp_on_fst, wp_SizeBytes; [by eexists|]. intros size w1 H1 Hsize Hcalm1.
  unfold file_bytes in Hsize, Hcalm1. rewrite Hfile in Hsize, Hcalm1. cbn [default] in Hsize, Hcalm1.
  unfold id in Hsize, Hcalm1.
  destruct (Z.leb_spec (max_segment_size_bytes options_) size) as [Hbig|Hsmall].
  { apply wp_fail. right; left. split_and!; [done|cbn; lia|done|apply H1|done]. }
  unfold wp. cbn [fst snd].
  assert (appendable rs w1 (segment st)) as Happ1.
  { destruct Happ as (? & ? & ?). unfold appendable. by rewrite (proj1 H1). }
  pose proof (Append_appendable rs (record_of m) w1 (segment st) Happ1 Hrec (Hlen Hroom)) as Hpost.
  pose proof (λ calm, Append_calm (record_of m) w1 (segment st) calm ltac:(eauto)) as Hcalm.
  unfold wp in Hcalm.
  destruct (Append (record_of m) (w1, segment st)) as [o [w2 seg]]. cbn [fst snd] in *.
  destruct o as [n|e|e]; [|right; right|done].
  - destruct Hpost as [-> Hseg]. split_and!; [done|done| |by exists seg].
    intros calm. by rewrite <-Hcalm1.
  - destruct Hpost as [Hseg [more Hm]]. split_and!; [by intros calm; destruct (Hcalm calm)|done|].
    by exists seg, more.
Qed.

(** Nothing changes unless the system refused a call. *)
Lemma produced_refused q m st rs w qs e w' qs' :
  produced_post q m st rs w qs (Fail e) w' qs' → (qs' = qs ∧ files w' = files w) ∨ ¬ calm_run.
Proof. by intros [(_ & _ & ? & ?)|[(_ & _ & _ & ? & ?)|[? _]]]; [left|left|right]. Qed.

(** C32. Producing on a queue whose log is open at its end.  Success puts the
    message at the next offset, below [max_queue_depth], in a log that was
    (if its size could be asked for) below [max_segment_size_bytes], and
    leaves the groups alone.  A queue that is full, or a segment that is, is
    reported as [kUnavailable] and no file and no state changes; when nothing
    is refused by the system these are the only failures.  Whatever else
    fails, the messages already in the log stay in its file and indexed at
    their offsets. *)
Theorem produce_appends q m st rs w qs :
  qs !! q = Some st → appendable rs w (segment st) → recoverable (next_record rs m) →
  Z.of_nat (length rs) + 1 < 2 ^ 64 →
  let '(o, (w', qs')) := ProduceOnShard options_ q m (w, qs) in
  produced_post q m st rs w qs o w' qs'.
Proof. intros Hst Happ Hrec Hlen. by apply Produce_appendable. Qed.

(** Creating a queue when nothing is refused. *)
Lemma CreateQueue_run q rs t w qs :
  calm_run → qs !! q = None → Forall recoverable rs → SegmentLog.torn t →
  file_bytes w (SegmentPath options_ q) = log_bytes rs ++ t →
  let '(o, (w', qs')) := CreateQueueOnShard options_ q (w, qs) in
  o = Good tt ∧ files w' = <[SegmentPath options_ q := log_bytes rs]> (files w) ∧
  ∃ seg, qs' = <[q := mkQueue seg ∅]> qs ∧ path_ seg = SegmentPath options_ q ∧
    (next_offset_ seg, offset_to_position_ seg) = index_records 0 rs 0 ∅ ∧ fd_ seg = Some 0%nat.
Proof.
  intros calm Hq Hrec Ht Hfile. unfold CreateQueueOnShard. cbn [fst snd]. rewrite Hq.
  set (path := SegmentPath options_ q) in *.
  set (seg0 := new_SegmentLog path (fsync_policy options_)).
  assert (wp (do! Open in Recover) (λ o p, o = Good tt ∧ files p.1 = <[path := log_bytes rs]> (files w) ∧
    path_ p.2 = path ∧ (next_offset_ p.2, offset_to_position_ p.2) = index_records 0 rs 0 ∅ ∧
    fd_ p.2 = Some 0%nat) (w, seg0)) as Hwp.
  { apply wp_bind. unfold Open. apply wp_bind, wp_on_fst, (calm_create_directories calm).
    intros w1 (Hf1 & _). apply wp_bind, wp_on_fst, (calm_call_ok calm). intros w2 (Hf2 & _).
    apply wp_modify. cbn [path_ seg0 new_SegmentLog].
    set (w3 := set_files _ w2). set (seg1 := set_fd _ seg0).
    assert (files w3 !! path_ seg1 = Some (log_bytes rs ++ t)) as Hf3.
    { unfold w3. cbn. rewrite lookup_insert_eq. f_equal. rewrite <-Hfile. unfold file_bytes.
      by rewrite Hf2, Hf1. }
    pose proof (Recover_run rs t w3 seg1 (proj1 calm) Hrec Ht Hf3 ltac:(by eexists)) as Hrun.
    apply wp_elim. intros o [w4 seg4] Hr. rewrite Hr in Hrun.
    destruct Hrun as (-> & Hf4 & Hidx & Hfd & Hp). cbn [fst snd].
    split_and!; [done| |by rewrite Hp|done|by rewrite Hfd].
    rewrite Hf4. cbn [w3 set_files files]. by rewrite insert_insert_eq, Hf2, Hf1. }
  revert Hwp. unfold wp. destruct ((do! Open in Recover) (w, seg0)) as [o [w' seg]]. cbn [fst snd].
  intros (-> & Hf & Hp & Hidx & Hfd). split_and!; [done..|]. by exists seg.
Qed.

(** Creating a queue over what a previous process left (nothing, or complete
    records and then a torn one) recovers it: the torn record is cut off, the
    complete records are indexed, and the queue is in the table without
    groups.  The descriptor stands at the start of the file, so the log is
    ready for appending only if it is empty. *)
Theorem create_recovers q rs t w qs :
  calm_run → qs !! q = None → Forall recoverable rs → numbered rs → SegmentLog.torn t →
  file_bytes w (SegmentPath options_ q) = log_bytes rs ++ t →
  let '(o, (w', qs')) := CreateQueueOnShard options_ q (w, qs) in
  o = Good tt ∧ ∃ seg, qs' = <[q := mkQueue seg ∅]> qs ∧ path_ seg = SegmentPath options_ q ∧
    indexed rs seg ∧ fd_ seg = Some 0%nat ∧
    files w' !! path_ seg = Some (log_bytes rs) ∧ (rs = [] → appendable rs w' seg).
Proof.
  intros calm Hq Hrec Hnum Ht Hfile.
  pose proof (CreateQueue_run q rs t w qs calm Hq Hrec Ht Hfile) as Hrun.
  destruct (CreateQueueOnShard options_ q (w, qs)) as [o [w' qs']].
  destruct Hrun as (-> & Hf & seg & -> & Hp & Hidx & Hfd). split; [done|]. exists seg.
  assert (files w' !! path_ seg = Some (log_bytes rs)) as Hfile'.
  { rewrite Hf, Hp. apply lookup_insert_eq. }
  split_and!; try done. intros ->. done.
Qed.

(** C33. Replaying to sequence [n] rebuilds, without touching the files, the
    table or any live group, the state the log describes up to [n]: it reports
    how many of the queue's messages are in each state once the events with
    sequence numbers up to [n] have been applied to the messages of the log,
    and the number of the last of them. *)
Theorem replay_to_sequence q gid n st rs post es w qs :
  qs !! q = Some st → indexed rs (segment st) →
  files w !! path_ (segment st) = Some (log_bytes rs ++ post) → distinct_ids rs →
  has_events options_ q gid w es →
  let '(o, (w', qs')) := ReplayToSequenceOnShard options_ q gid n (w, qs) in
  files w' = files w ∧ qs' = qs ∧
  match o with
  | Good r =>
      stats_counts (replay_stats r) =
        (count_in kReady (state_at rs es n), count_in kInFlight (state_at rs es n),
         count_in kAcked (state_at rs es n), count_in kDead (state_at rs es n)) ∧
      applied_sequence r = match last (upto n es) with None => 0 | Some e => ev_sequence e end
  | Fail _ => ¬ calm_run
  | Throw _ => False
  end.
Proof.
  intros Hst Hidx Hfile Hd Hev. apply wp_run2. unfold ReplayToSequenceOnShard, GetQueue.
  apply wp_bind, wp_bind, wp_gets_snd. rewrite Hst. apply wp_ret, wp_on_fst.
  set (st0 := mkCheckpointStore "/tmp/not-used" (fsync_policy options_)).
  assert (wp (ReplayGroup options_ q gid n (segment st)) (λ o p, files p.1 = files w ∧
    match o with
    | Good r => stats_counts (replay_stats r) =
        (count_in kReady (state_at rs es n), count_in kInFlight (state_at rs es n),
         count_in kAcked (state_at rs es n), count_in kDead (state_at rs es n)) ∧
        applied_sequence r = match last (upto n es) with None => 0 | Some e => ev_sequence e end
    | Fail _ => ¬ calm_run
    | Throw _ => False
    end) (w, new_Group st0)) as Hwp by (by eapply wp_ReplayGroup).
  revert Hwp. unfold wp. destruct (ReplayGroup _ _ _ _ _ _) as [o [w' g']]. cbn [fst snd].
  by intros [? ?].
Qed.
End properties.

(** ** The demo queue in a table *)

Section demo.
#[local] Existing Instance demo_env.

Definition demo_queue : QueueState := mkQueue demo_segment ∅.
Definition demo_table : Queues := {["q" := demo_queue]}.
Definition demo_message : Message := mkMessage (mkId 3 4) 6 [Byte.x02] ∅ "k".

(** A queue that was just created, and is empty. *)
Definition fresh_segment : SegmentLog := mkSegmentLog "/d/q/seg-000001.log" kAlways (Some 0%nat) 0 ∅.
Definition fresh_world : World := set_files (<["/d/q/seg-000001.log" := []]>) empty_world.

Lemma fresh_appendable : appendable [] fresh_world fresh_segment.
Proof.
  split; [|split; [apply lookup_insert_eq|done]]. split; [done|]. split; [|done].
  split; [done|simpl; lia].
Qed.

Lemma demo_message_recoverable : recoverable (set_offset 0 (record_of demo_message)).
Proof.
  split.
  - unfold wf_record, wf_header, fits. cbn. split_and!; try lia; done.
  - rewrite record_bytes_length. vm_compute. done.
Qed.
End demo.

Lemma produce_appends_witness :
  let '(o, (w', qs')) := @ProduceOnShard demo_env demo_options "q" demo_message
                           (fresh_world, {["q" := mkQueue fresh_segment ∅]}) in
  o = Good 0 ∧ ∃ seg, @appendable demo_env [set_offset 0 (record_of demo_message)] w' seg.
Proof.
  pose proof (@produce_appends demo_env demo_options "q" demo_message (mkQueue fresh_segment ∅) []
    fresh_world {["q" := mkQueue fresh_segment ∅]} (lookup_singleton_eq _ _) fresh_appendable
    demo_message_recoverable ltac:(simpl; lia)) as Hp.
  assert ((@ProduceOnShard demo_env demo_options "q" demo_message
    (fresh_world, {["q" := mkQueue fresh_segment ∅]})).1 = Good 0) as Ho by (vm_compute; reflexivity).
  destruct (ProduceOnShard _ _ _ _) as [o [w' qs']]. simpl in Ho. subst o.
  destruct Hp as (_ & _ & _ & seg & _ & Happ). split; [reflexivity|]. exists seg. exact Happ.
Defined.

(** The engine restarts over the log of the demo queue. *)
Lemma create_recovers_witness :
  let '(o, (w', qs')) := @CreateQueueOnShard demo_env demo_options "q" (demo_world, ∅) in
  o = Good tt ∧ ∃ seg, qs' = <["q" := mkQueue seg ∅]> ∅ ∧ @indexed demo_env [demo_record] seg.
Proof.
  pose proof (@create_recovers demo_env demo_options "q" [demo_record] [] demo_world ∅ demo_calm
    (lookup_empty _) ltac:(apply Forall_singleton, demo_recoverable)
    ltac:(apply demo_indexed) ltac:(by left)
    ltac:(change (SegmentPath demo_options "q") with (path_ demo_segment); unfold file_bytes;
          rewrite demo_file; reflexivity)) as Hc.
  destruct (CreateQueueOnShard _ _ _) as [o [w' qs']].
  destruct Hc as (Ho & seg & Hqs & _ & Hidx & _). split; [exact Ho|]. exists seg.
  split; [exact Hqs|exact Hidx].
Defined.

(** The log of the demo group says that its message was delivered. *)
Lemma replay_to_sequence_witness :
  let '(o, (w', qs')) := @ReplayToSequenceOnShard demo_env demo_options "q" "g" 5
                           (demo_world2, demo_table) in
  ∃ r, o = Good r ∧ applied_sequence r = 1 ∧ stats_counts (replay_stats r) = (0, 1, 0, 0).
Proof.
  pose proof (@replay_to_sequence demo_env demo_options "q" "g" 5 demo_queue [demo_record] []
    ([] ++ [demo_deliver]) demo_world2 demo_table (lookup_singleton_eq _ _) demo_indexed demo_file2
    demo_distinct demo_events) as Hr.
  destruct (ReplayToSequenceOnShard _ _ _ _ _) as [o [w' qs']].
  destruct Hr as (_ & _ & Hr). destruct o as [r|e|e]; [|destruct (Hr demo_calm)|destruct Hr].
  destruct Hr as [Hs Ha]. exists r. split; [reflexivity|].
  split; [exact Ha|]. refine (eq_trans Hs _). vm_compute. reflexivity.
Defined.
