(* ===== verification/Lease.v ===== *)
(** * When a lease expires

    [ReapExpiredInflight] walks the wheel from its base to the current tick.
    A lease is taken back by the first walk that passes its slot after its
    deadline; a walk that passes the slot in the lease's last tick, before the
    deadline, puts it back into a slot that is then behind the base, and the
    lease stays out until the wheel has gone all the way round. *)
From S2P Require Import Prelude Status Io DurableIo Checkpoint Message EventLog Group Lifecycle.
From S2P Require Import Handlers HandlerSpecs.

Section lease.
Context `{Env}.
Context (options_ : EngineOptions) (queue_name group_id : string).

Abbreviation group_ok := (group_ok options_).

Definition slot_of (tick : Z) : nat := Z.to_nat (tick mod Z.of_nat kWheelSlots).

Definition in_slot (id : MessageId) (k : nat) (g : ConsumerGroupState) : Prop :=
  id ∈ default [] (deadline_wheel g !! k).

(** The lease [entry] of message [id] with runtime entry [rt] is out. *)
Definition out (id : MessageId) (entry : InflightEntry) (rt : MessageRuntime)
    (g : ConsumerGroupState) : Prop :=
  inflight g !! id = Some entry ∧ runtime g !! id = Some rt.

(** The lease was taken back at time [t]. *)
Definition taken_back (t : Z) (id : MessageId) (rt : MessageRuntime) (g : ConsumerGroupState) : Prop :=
  inflight g !! id = None ∧
  ∃ seq, runtime g !! id = Some (apply_runtime (timeout_event options_ t seq id rt) rt).

(** What handling one id [x] of a bucket leaves alone. *)
Definition kept (x : MessageId) (g g' : ConsumerGroupState) : Prop :=
  wheel_base_tick g' = wheel_base_tick g ∧ group_ok g' ∧
  (∀ i, i ≠ x → inflight g' !! i = inflight g !! i ∧ runtime g' !! i = runtime g !! i) ∧
  (∀ i k, in_slot i k g → in_slot i k g') ∧
  (∀ i k, in_slot i k g' → in_slot i k g ∨
     (i = x ∧ ∃ entry, inflight g !! x = Some entry ∧ k = slot_of (bucket_tick entry))).

Lemma timeout_applied_wheel t seq id rt g :
  deadline_wheel (applied options_ (timeout_event options_ t seq id rt) g) = deadline_wheel g.
Proof.
  unfold applied. destruct (runtime g !! _); [|done].
  unfold timeout_event. by destruct (_ <? _).
Qed.

Lemma timeout_not_in_flight t seq id rt : ev_state (timeout_event options_ t seq id rt) ≠ kInFlight.
Proof. unfold timeout_event. by destruct (_ <? _). Qed.

Lemma in_slot_push i k id tick g :
  length (deadline_wheel g) = kWheelSlots →
  in_slot i k (push_wheel id tick g) ↔ in_slot i k g ∨ (i = id ∧ k = slot_of tick).
Proof.
  intros Hl. unfold in_slot, push_wheel, slot_of. cbn [deadline_wheel set_wheel]. rewrite Hl.
  set (j := Z.to_nat _).
  assert (j < length (deadline_wheel g))%nat as Hj.
  { rewrite Hl. unfold j, kWheelSlots. pose proof (Z.mod_pos_bound tick 512). lia. }
  destruct (decide (k = j)) as [->|Hk].
  - rewrite list_lookup_alter_eq. destruct (lookup_lt_is_Some_2 _ _ Hj) as [b ->]. cbn.
    rewrite elem_of_app, list_elem_of_singleton.
    split; [intros [?|?]; auto|intros [?|[? _]]; auto].
  - rewrite list_lookup_alter_ne by done. split; [by left|intros [?|[_ ?]]; done].
Qed.

(** The ways handling [x] can end when nothing is refused. *)
Lemma calm_reap_id (calm : calm_run) t x (Q : outcome unit → World * ConsumerGroupState → Prop) w g :
  group_ok g →
  (∀ w' g', kept x g g' →
     match inflight g !! x, runtime g !! x with
     | Some entry, Some rt =>
         if (wheel_base_tick g <? bucket_tick entry) || (t <? deadline_ms entry)
         then out x entry rt g' ∧
              (in_slot x (slot_of (bucket_tick entry)) g' ∨ wheel_base_tick g < bucket_tick entry)
         else taken_back t x rt g'
     | _, _ => g' = g
     end → Q (Good tt) (w', g')) →
  wp (reap_id options_ queue_name group_id t x) Q (w, g).
Proof.
  intros Hok HQ. assert (kept x g g) as Hrefl by (unfold kept; split_and!; auto).
  apply wp_bind, wp_gets_snd. cbn [snd].
  destruct (inflight g !! x) as [entry|] eqn:Hi; [|by apply wp_ret, HQ].
  destruct (ok_lease _ _ Hok x) as (rt & Hrt & _); [by eexists|]. rewrite Hrt in HQ |- *.
  destruct (Z.ltb_spec (wheel_base_tick g) (bucket_tick entry)) as [Hb|Hb]; cbn [orb] in HQ.
  { apply wp_ret, HQ; [done|]. split; [done|by right]. }
  destruct (Z.ltb_spec t (deadline_ms entry)) as [Ht|Ht].
  { apply wp_modify_snd, HQ.
    - unfold kept. split_and!; try done.
      + by eapply group_ok_core; [apply push_wheel_core|].
      + intros i k Hin. apply in_slot_push; [apply Hok|by left].
      + intros i k [Hin|[-> ->]]%in_slot_push; [by left|right; eauto|apply Hok].
    - split; [done|]. left. apply in_slot_push; [apply Hok|by right]. }
  apply wp_bind. unfold wp at 1. rewrite take_sequence_eq. cbn [fst snd]. fold (bump g).
  rewrite (calm_failpoint calm). apply wp_bind, wp_attempt.
  apply (calm_AppendTransition options_ queue_name group_id calm).
  { exact (group_ok_wheel options_ g Hok). }
  intros w' _. apply wp_ret. set (e := timeout_event options_ t (next_sequence g) x rt).
  assert (ev_id e = x) as He by apply timeout_event_id.
  apply HQ.
  - unfold kept. split_and!.
    + by rewrite applied_base.
    + apply group_ok_applied; [|by apply group_ok_bump].
      apply legal_event_bump, timeout_legal; [by eexists|done].
    + intros i Hne. rewrite applied_inflight_ne by congruence. rewrite applied_runtime.
      by rewrite decide_False by congruence.
    + intros i k. unfold in_slot, e. by rewrite timeout_applied_wheel.
    + intros i k. unfold in_slot, e. rewrite timeout_applied_wheel. by left.
  - split.
    + apply eq_None_not_Some. rewrite applied_inflight by (rewrite He; cbn; by rewrite Hrt).
      rewrite decide_True by done. apply timeout_not_in_flight.
    + exists (next_sequence g). rewrite applied_runtime, decide_True by done. cbn. by rewrite Hrt.
Qed.

(** What handling [x] may do to a group, as [calm_reap_id] has it. *)
Definition reap_effect (t : Z) (x : MessageId) (g g' : ConsumerGroupState) : Prop :=
  kept x g g' ∧
  match inflight g !! x, runtime g !! x with
  | Some entry, Some rt =>
      if (wheel_base_tick g <? bucket_tick entry) || (t <? deadline_ms entry)
      then out x entry rt g' ∧
           (in_slot x (slot_of (bucket_tick entry)) g' ∨ wheel_base_tick g < bucket_tick entry)
      else taken_back t x rt g'
  | _, _ => g' = g
  end.

(** A bucket keeps what every handling of one of its ids keeps. *)
Lemma calm_reap_bucket (calm : calm_run) (I : ConsumerGroupState → Prop) t bucket
    (Q : outcome unit → World * ConsumerGroupState → Prop) w g :
  group_ok g → I g →
  (∀ g1 g2 x, group_ok g1 → I g1 → x ∈ bucket → wheel_base_tick g1 = wheel_base_tick g →
     reap_effect t x g1 g2 → I g2) →
  (∀ w' g', group_ok g' → I g' → wheel_base_tick g' = wheel_base_tick g → Q (Good tt) (w', g')) →
  wp (reap_bucket options_ queue_name group_id t bucket) Q (w, g).
Proof.
  revert w g. induction bucket as [|x bucket IH]; intros w g Hok HI Hstep HQ.
  { by apply wp_ret, HQ. }
  apply wp_bind, calm_reap_id; [done..|]. intros w1 g1 Hk Hm.
  assert (reap_effect t x g g1) as He by (by split).
  pose proof Hk as (Hbase & Hok1 & _).
  apply IH; [done|eapply (Hstep g); [done|done|left|done|done]| |].
  - intros g2 g3 y Hok2 HI2 Hy Hb2 He2. apply (Hstep g2 g3 y); [done..|by right|congruence|done].
  - intros w2 g2 Hok2 HI2 Hb2. apply HQ; [done..|congruence].
Qed.

Lemma wp_reap_bucket_app t l1 l2 (Q : outcome unit → World * ConsumerGroupState → Prop) s :
  wp (do! reap_bucket options_ queue_name group_id t l1 in
      reap_bucket options_ queue_name group_id t l2) Q s →
  wp (reap_bucket options_ queue_name group_id t (l1 ++ l2)) Q s.
Proof.
  revert s. induction l1 as [|x l1 IH]; intros s HQ; [exact HQ|]. cbn [app reap_bucket] in *.
  apply wp_bind, wp_elim. intros o s' Hrun. unfold wp in HQ. rewrite bind_assoc in HQ.
  destruct o as [[]|e|e].
  - rewrite (bind_good _ _ _ _ _ Hrun) in HQ. by apply IH.
  - by rewrite (bind_fail _ _ _ _ _ Hrun) in HQ.
  - by rewrite (bind_throw _ _ _ _ _ Hrun) in HQ.
Qed.

Lemma effect_other t x i g g' :
  reap_effect t x g g' → i ≠ x → inflight g' !! i = inflight g !! i ∧ runtime g' !! i = runtime g !! i.
Proof. intros [(_ & _ & Hk & _) _]. apply Hk. Qed.

(** A lease that was taken back stays so. *)
Lemma effect_taken t x i rt g g' :
  reap_effect t x g g' → taken_back t i rt g → taken_back t i rt g'.
Proof.
  intros He [Hi (seq & Hrt)]. destruct (decide (i = x)) as [->|Hne].
  - destruct He as [_ He]. rewrite Hi in He. subst g'. by split; [|exists seq].
  - destruct (effect_other _ _ _ _ _ He Hne) as [Hi' Hrt'].
    split; [by rewrite Hi'|exists seq; by rewrite Hrt'].
Qed.

(** A lease that is out stays out or is taken back, once it is due. *)
Lemma effect_out t x i entry rt g g' :
  reap_effect t x g g' → out i entry rt g → deadline_ms entry <= t →
  (i = x ∧ bucket_tick entry <= wheel_base_tick g ∧ taken_back t i rt g') ∨
  ((i = x → wheel_base_tick g < bucket_tick entry) ∧ out i entry rt g').
Proof.
  intros He [Hi Hrt] Ht. destruct (decide (i = x)) as [->|Hne].
  - destruct He as [_ He]. rewrite Hi, Hrt in He.
    destruct (Z.ltb_spec (wheel_base_tick g) (bucket_tick entry)); cbn [orb] in He.
    + right. split; [done|apply He].
    + destruct (Z.ltb_spec t (deadline_ms entry)); [lia|]. by left.
  - right. split; [done|]. destruct (effect_other _ _ _ _ _ He Hne) as [Hi' Hrt'].
    split; congruence.
Qed.

Lemma slot_of_inj a b : 0 <= a < b → b < a + Z.of_nat kWheelSlots → slot_of a ≠ slot_of b.
Proof.
  unfold slot_of, kWheelSlots. intros Ha Hb Heq.
  apply Z2Nat.inj in Heq; [|apply Z.mod_pos_bound; lia..].
  pose proof (Z.div_mod a 512 ltac:(lia)) as H1. pose proof (Z.div_mod b 512 ltac:(lia)) as H2.
  change (Z.of_nat 512) with 512 in *. rewrite Heq in H1. lia.
Qed.

(** The slot of the current tick is emptied, the others stay. *)
Lemma clear_slot_core b g : same_core g (set_wheel (<[b := []]> (deadline_wheel g)) g).
Proof. unfold same_core. cbn. by rewrite length_insert. Qed.

Lemma in_clear_slot i k b g :
  k ≠ b → in_slot i k (set_wheel (<[b := []]> (deadline_wheel g)) g) ↔ in_slot i k g.
Proof. intros Hne. unfold in_slot. cbn. by rewrite list_lookup_insert_ne. Qed.

Lemma next_tick_ok g : group_ok g → group_ok (set_base_tick (u64 (wheel_base_tick g + 1)) g).
Proof.
  apply group_ok_core. unfold same_core. cbn. split_and!; try done. intros _. apply u64_range.
Qed.

(** One round of the loop: the bucket of the current tick, then the next
    tick. *)
Lemma calm_reap_tick fuel t nt (I J : ConsumerGroupState → Prop)
    (Q : outcome unit → World * ConsumerGroupState → Prop) w g :
  let slot := slot_of (wheel_base_tick g) in
  let bucket := default [] (deadline_wheel g !! slot) in
  let g0 := set_wheel (<[slot := []]> (deadline_wheel g)) g in
  group_ok g → nt < UINT64_MAX → wheel_base_tick g <= nt →
  (∀ Q', (∀ w1 g1, group_ok g1 → J g1 → wheel_base_tick g1 = wheel_base_tick g → Q' (Good tt) (w1, g1)) →
     wp (reap_bucket options_ queue_name group_id t bucket) Q' (w, g0)) →
  (∀ w1 g1, group_ok g1 → J (set_base_tick (wheel_base_tick g) g1) →
     wheel_base_tick g1 = wheel_base_tick g + 1 →
     wp (reap_ticks options_ queue_name group_id fuel t nt) Q (w1, g1)) →
  wp (reap_ticks options_ queue_name group_id (S fuel) t nt) Q (w, g).
Proof.
  cbv zeta. unfold UINT64_MAX. intros Hok Hnt Hb Hbucket Hrest. cbn [reap_ticks].
  apply wp_bind, wp_gets_snd. cbn [snd]. destruct (Z.leb_spec (wheel_base_tick g) nt); [|lia].
  rewrite (ok_wheel _ _ Hok). fold (slot_of (wheel_base_tick g)).
  apply wp_bind, wp_modify_snd, wp_bind, Hbucket. intros w1 g1 Hok1 HJ Hb1.
  apply wp_bind, wp_modify_snd. pose proof (ok_base _ _ Hok) as Hbr.
  apply Hrest; [by apply next_tick_ok| |].
  - rewrite <-Hb1. by destruct g1.
  - cbn. rewrite Hb1. apply u64_small. lia.
Qed.

Section one_lease.
Context (calm : calm_run) (t : Z) (id : MessageId) (entry : InflightEntry) (rt : MessageRuntime).

Abbreviation bt := (bucket_tick entry).

Lemma out_clear_slot b g :
  out id entry rt g → out id entry rt (set_wheel (<[b := []]> (deadline_wheel g)) g).
Proof. done. Qed.

Lemma calm_ticks_taken fuel nt (Q : outcome unit → World * ConsumerGroupState → Prop) w g :
  group_ok g → nt < UINT64_MAX → nt - wheel_base_tick g < Z.of_nat fuel → taken_back t id rt g →
  (∀ w' g', group_ok g' → taken_back t id rt g' → Q (Good tt) (w', g')) →
  wp (reap_ticks options_ queue_name group_id fuel t nt) Q (w, g).
Proof using calm.
  revert w g. induction fuel as [|fuel IH]; intros w g Hok Hnt Hfuel Htk HQ;
    destruct (Z.leb_spec (wheel_base_tick g) nt) as [Hb|Hb]; try lia.
  1, 3: cbn [reap_ticks]; apply wp_bind, wp_gets_snd; cbn [snd];
    destruct (Z.leb_spec (wheel_base_tick g) nt); [lia|]; by apply wp_ret, HQ.
  apply (calm_reap_tick fuel t nt (λ _, True) (taken_back t id rt)); [done..| |].
  - intros Q' HQ'. apply (calm_reap_bucket calm (taken_back t id rt)).
    + eapply group_ok_core; [apply clear_slot_core|done].
    + done.
    + intros g1 g2 x _ HI _ _ He. by eapply effect_taken.
    + intros w1 g1 Hok1 HI Hb1. by apply HQ'.
  - intros w1 g1 Hok1 HJ Hb1. apply IH; [done|done|lia| |done].
    by destruct g1.
Qed.

(** The walk that passes the slot of a due lease takes it back. *)
Lemma calm_ticks_due fuel nt (Q : outcome unit → World * ConsumerGroupState → Prop) w g :
  group_ok g → nt < UINT64_MAX → nt - wheel_base_tick g < Z.of_nat fuel →
  out id entry rt g → in_slot id (slot_of bt) g → deadline_ms entry <= t →
  wheel_base_tick g <= bt <= nt → nt < wheel_base_tick g + Z.of_nat kWheelSlots →
  (∀ w' g', group_ok g' → taken_back t id rt g' → Q (Good tt) (w', g')) →
  wp (reap_ticks options_ queue_name group_id fuel t nt) Q (w, g).
Proof using calm.
  revert w g. induction fuel as [|fuel IH]; intros w g Hok Hnt Hfuel Hout Hin Hdue Hbt Hlap HQ; [lia|].
  pose proof (ok_base _ _ Hok) as Hbr.
  assert (group_ok (set_wheel (<[slot_of (wheel_base_tick g) := []]> (deadline_wheel g)) g)) as Hok0
    by (by eapply group_ok_core; [apply clear_slot_core|]).
  destruct (decide (wheel_base_tick g = bt)) as [Heq|Hne].
  - apply (calm_reap_tick fuel t nt (λ _, True) (taken_back t id rt)); [done|done|lia| |].
    + intros Q' HQ'. unfold in_slot in Hin. rewrite <-Heq in Hin.
      apply list_elem_of_split in Hin as (l1 & l2 & ->). apply wp_reap_bucket_app, wp_bind.
      apply (calm_reap_bucket calm (λ g1, out id entry rt g1 ∨ taken_back t id rt g1)).
      { done. }
      { by left. }
      { intros g1 g2 x _ [HI|HI] _ _ He; [|right; by eapply effect_taken].
        destruct (effect_out _ _ _ _ _ _ _ He HI Hdue) as [(_ & _ & ?)|[_ ?]]; auto. }
      intros w1 g1 Hok1 HI Hb1. cbn [reap_bucket wheel_base_tick set_wheel] in *.
      apply wp_bind, calm_reap_id; [done..|]. intros w2 g2 Hk Hm.
      assert (reap_effect t id g1 g2) as He by (by split).
      assert (taken_back t id rt g2) as Htk.
      { destruct HI as [HI|HI]; [|by eapply effect_taken].
        destruct (effect_out _ _ _ _ _ _ _ He HI Hdue) as [(_ & _ & ?)|[Hlt _]]; [done|].
        specialize (Hlt eq_refl). lia. }
      apply (calm_reap_bucket calm (taken_back t id rt)); [apply Hk|done| |].
      { intros g3 g4 x _ HI' _ _ He'. by eapply effect_taken. }
      intros w3 g3 Hok3 HI3 Hb3. apply HQ'; [done..|]. destruct Hk as (Hk & _). congruence.
    + intros w1 g1 Hok1 HJ Hb1. apply calm_ticks_taken; [done|done|lia| |done]. by destruct g1.
  - apply (calm_reap_tick fuel t nt (λ _, True)
      (λ g1, out id entry rt g1 ∧ in_slot id (slot_of bt) g1)); [done|done|lia| |].
    + intros Q' HQ'.
      apply (calm_reap_bucket calm (λ g1, out id entry rt g1 ∧ in_slot id (slot_of bt) g1)).
      { done. }
      { split; [done|]. apply in_clear_slot; [|done].
        apply not_eq_sym, slot_of_inj; lia. }
      { intros g1 g2 x _ [HI Hs] _ Hb1 He. cbn [wheel_base_tick set_wheel] in Hb1.
        destruct (effect_out _ _ _ _ _ _ _ He HI Hdue) as [(_ & Hle & _)|[_ HI']]; [lia|].
        split; [done|]. destruct He as [(_ & _ & _ & Hmono & _) _]. by apply Hmono. }
      intros w1 g1 Hok1 [HI Hs] Hb1. by apply HQ'.
    + intros w1 g1 Hok1 [HI Hs] Hb1. apply IH; [done|done|lia| | |done|lia|lia|done].
      * by destruct g1.
      * by destruct g1.
Qed.

(** A walk that does not pass the slot of a lease leaves the lease out. *)
Lemma calm_ticks_missed fuel nt (Q : outcome unit → World * ConsumerGroupState → Prop) w g :
  group_ok g → nt < UINT64_MAX → nt - wheel_base_tick g < Z.of_nat fuel →
  out id entry rt g → (∀ k, in_slot id k g → k = slot_of bt) → 0 <= bt →
  bt < wheel_base_tick g → nt < bt + Z.of_nat kWheelSlots →
  (∀ w' g', group_ok g' → out id entry rt g' → (∀ k, in_slot id k g' → k = slot_of bt) →
     Q (Good tt) (w', g')) →
  wp (reap_ticks options_ queue_name group_id fuel t nt) Q (w, g).
Proof using calm.
  revert w g. induction fuel as [|fuel IH]; intros w g Hok Hnt Hfuel Hout Hin Hbt0 Hbt Hlap HQ;
    destruct (Z.leb_spec (wheel_base_tick g) nt) as [Hb|Hb]; try lia.
  1, 3: cbn [reap_ticks]; apply wp_bind, wp_gets_snd; cbn [snd];
    destruct (Z.leb_spec (wheel_base_tick g) nt); [lia|]; by apply wp_ret, HQ.
  set (I := λ g1, out id entry rt g1 ∧ ∀ k, in_slot id k g1 → k = slot_of bt).
  assert (slot_of bt ≠ slot_of (wheel_base_tick g)) as Hslot by (apply slot_of_inj; lia).
  apply (calm_reap_tick fuel t nt (λ _, True) I); [done|done|lia| |].
  - intros Q' HQ'. apply (calm_reap_bucket calm I).
    + by eapply group_ok_core; [apply clear_slot_core|].
    + split; [done|]. intros k Hk. apply Hin.
      destruct (decide (k = slot_of (wheel_base_tick g))) as [->|]; [|by apply in_clear_slot in Hk].
      unfold in_slot in Hk. cbn in Hk.
      destruct (decide (slot_of (wheel_base_tick g) < length (deadline_wheel g))%nat).
      * rewrite list_lookup_insert_eq in Hk by done. by apply not_elem_of_nil in Hk.
      * rewrite list_insert_ge in Hk by lia. done.
    + intros g1 g2 x _ [HI Hs] Hx _ He.
      assert (id ≠ x) as Hne.
      { intros <-. apply Hslot. symmetry. by apply Hin. }
      destruct (effect_other _ _ _ _ _ He Hne) as [Hi' Hrt']. destruct HI as [Hi Hr].
      split; [split; congruence|]. intros k Hk.
      destruct He as [(_ & _ & _ & _ & Hback) _].
      destruct (Hback _ _ Hk) as [?|[? _]]; [by apply Hs|done].
    + intros w1 g1 Hok1 HI Hb1. by apply HQ'.
  - intros w1 g1 Hok1 [HI Hs] Hb1. apply IH; [done|done|lia| | |done|lia|done|done].
    + by destruct g1.
    + intros k Hk. apply Hs. by destruct g1.
Qed.
End one_lease.
End lease.

(** ** Properties *)

Section properties.
Context `{Env}.
Context (options_ : EngineOptions) (queue_name group_id : string).

(** What the loop leaves, the whole call leaves, but for the ready queue. *)
Lemma calm_reap_walk (I : ConsumerGroupState → Prop) w g :
  group_ok options_ g → clock_bounded → (∀ l g1, I g1 → I (set_ready l g1)) →
  (∀ w1 Q, (∀ w2 g2, I g2 → Q (Good tt) (w2, g2)) →
     let t := u64 (clock (clock_reads w)) in
     let nt := t / tick_ms options_ in
     wp (reap_ticks options_ queue_name group_id (Z.to_nat (nt - wheel_base_tick g + 1)) t nt) Q (w1, g)) →
  let '(o, (w', g')) := ReapExpiredInflight options_ queue_name group_id (w, g) in
  o = Good tt ∧ I g'.
Proof.
  intros Hok Hclock Hready Hwalk. apply wp_run2. unfold ReapExpiredInflight.
  apply wp_bind, wp_gets_snd. cbn [snd]. apply wp_bind.
  pose proof (group_ok_wheel _ _ Hok) as Hw.
  destruct (deadline_wheel g) eqn:Hwheel; [done|]. clear Hw. apply wp_ret.
  apply wp_bind, wp_on_fst, wp_now. intros w1 _ _ _.
  apply wp_bind, wp_gets_snd. cbn [snd]. apply wp_bind. cbv zeta in Hwalk. apply Hwalk.
  intros w2 g2 HI. apply wp_BuildReadyQueue. intros w3 _ _. split; [done|]. by apply Hready.
Qed.

Lemma now_tick_bounded w : clock_bounded → u64 (clock (clock_reads w)) / tick_ms options_ < UINT64_MAX.
Proof.
  intros Hc. pose proof (u64_range (clock (clock_reads w))) as [Hr _].
  pose proof (now_tick_range options_ _ Hr). specialize (Hc (clock_reads w)). lia.
Qed.

(** C27. A lease that is due is taken back: when nothing is refused and the clock
    is at the lease's deadline or later, less than one turn of the wheel from
    where the wheel stands, the walk that passes the lease's slot requeues
    the message with one more retry, or makes it dead when its retries are
    used up, and the lease is gone. *)
Theorem due_lease_expires id entry rt w g :
  calm_run → clock_bounded → group_ok options_ g →
  let t := u64 (clock (clock_reads w)) in
  out id entry rt g → bucket_tick entry = deadline_ms entry / tick_ms options_ →
  in_slot id (slot_of (bucket_tick entry)) g → deadline_ms entry <= t →
  wheel_base_tick g <= bucket_tick entry →
  t / tick_ms options_ < wheel_base_tick g + Z.of_nat kWheelSlots →
  let '(o, (w', g')) := ReapExpiredInflight options_ queue_name group_id (w, g) in
  o = Good tt ∧ taken_back options_ t id rt g'.
Proof.
  cbv zeta. intros calm Hclock Hok Hout Hbt Hslot Hdue Hbase Hlap.
  assert (bucket_tick entry <= u64 (clock (clock_reads w)) / tick_ms options_) as Hle.
  { rewrite Hbt. apply Z.div_le_mono; [unfold tick_ms; lia|done]. }
  apply (calm_reap_walk (taken_back options_ (u64 (clock (clock_reads w))) id rt)); [done..|].
  intros w1 Q HQ. cbv zeta.
  apply (calm_ticks_due options_ queue_name group_id calm _ id entry rt); try done.
  - by apply now_tick_bounded.
  - lia.
  - auto.
Qed.

(** C28. A lease whose slot lies behind the wheel's base stays out, however long
    its deadline has passed, until the wheel has turned round to it: every
    walk that ends less than 512 ticks after the lease's tick leaves the
    lease and the message's entry as they are.  A walk in the lease's last
    tick, before its deadline, leaves it exactly so. *)
Theorem missed_lease_stays id entry rt w g :
  calm_run → clock_bounded → group_ok options_ g →
  out id entry rt g → (∀ k, in_slot id k g → k = slot_of (bucket_tick entry)) →
  0 <= bucket_tick entry < wheel_base_tick g →
  u64 (clock (clock_reads w)) / tick_ms options_ < bucket_tick entry + Z.of_nat kWheelSlots →
  let '(o, (w', g')) := ReapExpiredInflight options_ queue_name group_id (w, g) in
  o = Good tt ∧ out id entry rt g'.
Proof.
  intros calm Hclock Hok Hout Hslot Hbase Hlap.
  apply (calm_reap_walk (out id entry rt)); [done..|].
  intros w1 Q HQ. cbv zeta.
  apply (calm_ticks_missed options_ queue_name group_id calm _ id entry rt); try done.
  - by apply now_tick_bounded.
  - lia.
  - lia.
  - lia.
  - auto.
Qed.
End properties.

(** ** The demo lease *)

Section demo.
Definition demo_entry : InflightEntry := mkInflight 0 30010 300 "g" "7:9:1".

Lemma demo_out : out demo_id demo_entry (apply_runtime demo_deliver demo_rt) demo_leased.
Proof. split; reflexivity. Qed.

Lemma demo_slot k : in_slot demo_id k demo_leased → k = slot_of 300.
Proof.
  change demo_leased with (set_inflight {[demo_id := demo_entry]} (push_wheel demo_id 300
    (set_inflight ∅ (set_runtime {[demo_id := apply_runtime demo_deliver demo_rt]} (bump demo_group))))).
  intros [Hin|[_ ->]]%in_slot_push; [|done|done].
  unfold in_slot in Hin. cbn [deadline_wheel set_inflight set_runtime bump set_next_sequence demo_group] in Hin.
  destruct (replicate kWheelSlots [] !! k) as [b|] eqn:Hb; [|by apply not_elem_of_nil in Hin].
  apply lookup_replicate in Hb as [-> _]. by apply not_elem_of_nil in Hin.
Qed.

(** A walk at 30005, five milliseconds before the deadline, moves the base of
    the wheel past the lease's tick and leaves the lease in its slot. *)
Definition demo_missed : ConsumerGroupState := set_base_tick 301 demo_leased.

Example demo_missed_reached :
  let g := (@ReapExpiredInflight (calm_env 30005) demo_options "q" "g" (demo_world, demo_leased)).2.2 in
  wheel_base_tick g = 301 ∧ inflight g = inflight demo_missed ∧ runtime g = runtime demo_missed ∧
  deadline_wheel g = deadline_wheel demo_missed.
Proof. vm_compute. done. Qed.

Lemma demo_missed_ok : group_ok demo_options demo_missed.
Proof. destruct demo_leased_ok as [H1 H2 H3 H4 H5 H6]. by split. Qed.
End demo.

(** At 40 seconds the lease that ran out at 30.01 is taken back. *)
Lemma due_lease_expires_witness :
  let '(o, (w', g')) := @ReapExpiredInflight (calm_env 40000) demo_options "q" "g"
                          (demo_world, demo_leased) in
  o = Good tt ∧ taken_back demo_options 40000 demo_id (apply_runtime demo_deliver demo_rt) g'.
Proof.
  apply (@due_lease_expires (calm_env 40000) demo_options "q" "g" demo_id demo_entry
    (apply_runtime demo_deliver demo_rt) demo_world demo_leased).
  - split; reflexivity.
  - intros n. reflexivity.
  - exact demo_leased_ok.
  - exact demo_out.
  - reflexivity.
  - unfold in_slot. vm_compute. by left.
  - vm_compute. discriminate.
  - vm_compute. discriminate.
  - vm_compute. reflexivity.
Defined.

(** The same lease, after the walk at 30005: at 40 seconds it is still out. *)
Lemma missed_lease_stays_witness :
  let '(o, (w', g')) := @ReapExpiredInflight (calm_env 40000) demo_options "q" "g"
                          (demo_world, demo_missed) in
  o = Good tt ∧ out demo_id demo_entry (apply_runtime demo_deliver demo_rt) g'.
Proof.
  apply (@missed_lease_stays (calm_env 40000) demo_options "q" "g" demo_id demo_entry
    (apply_runtime demo_deliver demo_rt) demo_world demo_missed).
  - split; reflexivity.
  - intros n. reflexivity.
  - exact demo_missed_ok.
  - exact demo_out.
  - exact demo_slot.
  - simpl. lia.
  - vm_compute. reflexivity.
Defined.
