(* ===== verification/ShardActor.v ===== *)
(** * The shard actor ([src/core/engine/shard_actor.h], [shard_actor.cc])

    A queue of tasks and one worker thread.  The mutex makes pushing a task,
    taking one and clearing [running_] atomic, so a run of the actor is a
    sequence of such actions, in any interleaving: clients submit, someone
    stops the actor, the worker goes on.  A task runs on the shared state of
    the engine and fulfils its promise with a result. *)
From S2P Require Import Prelude.

Section actor.
Context {state result : Type}.

(** A submitted closure with the identity of its promise. *)
Record Task := mkTask { promise : nat; fn : state → result * state }.

Inductive Worker := Idle | Busy (task : Task) | Exited.

Record ShardActor := mkActor {
  tasks_ : list Task;
  running_ : bool;
  worker_ : Worker;
  shared : state;                    (* what the tasks work on *)
  fulfilled : list (nat * result);   (* promises set so far, oldest first *)
}.

Definition new_ShardActor (s : state) : ShardActor := mkActor [] false Exited s [].

(** [Start]: the worker thread begins its loop. *)
Definition Start (a : ShardActor) : ShardActor :=
  mkActor (tasks_ a) true Idle (shared a) (fulfilled a).

(** The part of [Stop] before the join. *)
Definition Stop (a : ShardActor) : ShardActor :=
  mkActor (tasks_ a) false (worker_ a) (shared a) (fulfilled a).

(** The part of [Submit] and [SubmitValue] before [future.get()]. *)
Definition Submit (t : Task) (a : ShardActor) : ShardActor :=
  mkActor (tasks_ a ++ [t]) (running_ a) (worker_ a) (shared a) (fulfilled a).

(** One step of [RunLoop]: [None] while the worker waits on the condition
    variable, and after it returned. *)
Definition RunLoop_step (a : ShardActor) : option ShardActor :=
  match worker_ a with
  | Exited => None
  | Busy t =>
      let '(r, s) := fn t (shared a) in
      Some (mkActor (tasks_ a) (running_ a) Idle s (fulfilled a ++ [(promise t, r)]))
  | Idle =>
      match tasks_ a with
      | t :: ts => Some (mkActor ts (running_ a) (Busy t) (shared a) (fulfilled a))
      | [] =>
          if running_ a then None
          else Some (mkActor [] false Exited (shared a) (fulfilled a))
      end
  end.

Inductive action := ASubmit (t : Task) | AStop | AWork.

Definition act (x : action) (a : ShardActor) : ShardActor :=
  match x with
  | ASubmit t => Submit t a
  | AStop => Stop a
  | AWork => default a (RunLoop_step a)
  end.

Definition run (xs : list action) (a : ShardActor) : ShardActor := foldl (λ a x, act x a) a xs.

Definition submitted (xs : list action) : list Task :=
  omap (λ x, match x with ASubmit t => Some t | _ => None end) xs.

(** ** What a run computes *)

(** Running tasks one after the other. *)
Fixpoint run_tasks (ts : list Task) (s : state) : list (nat * result) * state :=
  match ts with
  | [] => ([], s)
  | t :: ts => let '(r, s) := fn t s in
               let '(rs, s) := run_tasks ts s in ((promise t, r) :: rs, s)
  end.

Definition in_hand (a : ShardActor) : list Task :=
  match worker_ a with Busy t => [t] | _ => [] end.

Lemma run_tasks_snoc ts t s :
  run_tasks (ts ++ [t]) s =
  let '(rs, s1) := run_tasks ts s in
  let '(r, s2) := fn t s1 in (rs ++ [(promise t, r)], s2).
Proof.
  revert s. induction ts as [|t0 ts IH]; intros s; cbn.
  - by destruct (fn t s).
  - destruct (fn t0 s) as [r0 s0]. rewrite IH. destruct (run_tasks ts s0) as [rs s1].
    by destruct (fn t s1).
Qed.

(** The tasks done so far are the oldest submitted ones. *)
Record actor_ok (s0 : state) (all : list Task) (a : ShardActor) : Prop := {
  ok_done : ∃ finished, all = finished ++ in_hand a ++ tasks_ a ∧
                    run_tasks finished s0 = (fulfilled a, shared a);
}.

Lemma act_ok s0 all a x :
  actor_ok s0 all a → actor_ok s0 (all ++ submitted [x]) (act x a).
Proof.
  intros [(finished & -> & Hrun)]. split. destruct x as [t| |]; cbn.
  - exists finished. split; [by rewrite <-!app_assoc|done].
  - exists finished. split; [by rewrite app_nil_r|done].
  - rewrite app_nil_r. unfold RunLoop_step, in_hand.
    destruct (worker_ a) as [|t|] eqn:Hw.
    + destruct (tasks_ a) as [|t ts] eqn:Ht; cbn.
      * destruct (running_ a); cbn; [rewrite Hw, Ht|]; by exists finished.
      * by exists finished.
    + destruct (fn t (shared a)) as [r s] eqn:Hfn. cbn. exists (finished ++ [t]).
      split; [by rewrite <-app_assoc|]. by rewrite run_tasks_snoc, Hrun, Hfn.
    + cbn. rewrite Hw. by exists finished.
Qed.

Lemma run_snoc xs x a : run (xs ++ [x]) a = act x (run xs a).
Proof. unfold run. by rewrite foldl_app. Qed.

Lemma submitted_app xs ys : submitted (xs ++ ys) = submitted xs ++ submitted ys.
Proof. unfold submitted. by rewrite omap_app. Qed.

Lemma run_ok s0 xs : actor_ok s0 (submitted xs) (run xs (Start (new_ShardActor s0))).
Proof.
  induction xs as [|x xs IH] using rev_ind.
  - split. by exists [].
  - rewrite run_snoc, submitted_app. by apply act_ok.
Qed.

(** Work left: two steps for every waiting task, one for the task in hand. *)
Definition work_left (a : ShardActor) : nat :=
  2 * length (tasks_ a) + match worker_ a with Busy _ => 1 | _ => 0 end.

Lemma work_done n a :
  worker_ a ≠ Exited → (work_left a <= n)%nat →
  ∃ k, (k <= n)%nat ∧ let a' := run (replicate k AWork) a in
    tasks_ a' = [] ∧ worker_ a' = Idle ∧ running_ a' = running_ a.
Proof.
  revert a. induction n as [|n IH]; intros a Hw Hl.
  - exists 0%nat. unfold work_left in Hl. destruct (worker_ a) eqn:Hwa; [|lia|done].
    split; [lia|]. cbn. split_and!; [|done..]. destruct (tasks_ a); [done|simpl in Hl; lia].
  - destruct (worker_ a) as [|t|] eqn:Hwa; [| |done].
    + destruct (tasks_ a) as [|t ts] eqn:Ht.
      * exists 0%nat. split; [lia|]. by rewrite <-Ht.
      * destruct (IH (act AWork a)) as (k & Hk & Hend); cbn.
        { unfold RunLoop_step. by rewrite Hwa, Ht. }
        { unfold work_left, RunLoop_step in *. rewrite Hwa, Ht in *. cbn in *. lia. }
        exists (S k). split; [lia|]. cbn in *. destruct Hend as (? & ? & Hr).
        split_and!; [done..|]. unfold run in *. cbn. rewrite Hr. unfold RunLoop_step. by rewrite Hwa, Ht.
    + destruct (fn t (shared a)) as [r s] eqn:Hfn. destruct (IH (act AWork a)) as (k & Hk & Hend); cbn.
      { unfold RunLoop_step. by rewrite Hwa, Hfn. }
      { unfold work_left, RunLoop_step in *. rewrite Hwa, Hfn in *. cbn in *. lia. }
      exists (S k). split; [lia|]. cbn in *. destruct Hend as (? & ? & Hr).
      split_and!; [done..|]. unfold run in *. cbn. rewrite Hr. unfold RunLoop_step. by rewrite Hwa, Hfn.
Qed.

Lemma run_app xs ys a : run (xs ++ ys) a = run ys (run xs a).
Proof. unfold run. by rewrite foldl_app. Qed.

Lemma submitted_work k : submitted (replicate k AWork) = [].
Proof. induction k; [done|]. by cbn. Qed.

(** A worker that returned never takes another task. *)
Lemma exited_stays xs a :
  worker_ a = Exited →
  worker_ (run xs a) = Exited ∧ fulfilled (run xs a) = fulfilled a ∧ shared (run xs a) = shared a.
Proof.
  induction xs as [|x xs IH] using rev_ind; [done|]. intros Hw. destruct (IH Hw) as (He & Hf & Hs).
  rewrite run_snoc. destruct x; cbn; [done..|]. unfold RunLoop_step. by rewrite He.
Qed.
End actor.

Arguments Task : clear implicits.
Arguments ShardActor : clear implicits.
Arguments action : clear implicits.

(** ** Properties *)

(** Whatever way clients, [Stop] and the worker interleave, tasks run one at a
    time, in the order they were submitted, each at most once: at every moment
    the submitted tasks are those that are done, the one in hand and those that
    wait, in this order; the shared state and the results are those of running
    the done ones one after the other. *)
Theorem tasks_run_in_order {state result} (xs : list (action state result)) s0 :
  let a := run xs (Start (new_ShardActor s0)) in
  ∃ finished, submitted xs = finished ++ in_hand a ++ tasks_ a ∧
    run_tasks finished s0 = (fulfilled a, shared a).
Proof. cbv zeta. destruct (run_ok s0 xs) as [Hok]. exact Hok. Qed.

(** [Stop] drains the queue: after it the worker needs at most two steps for
    every waiting task and three more to return, and then every task that was
    submitted before has run and has its result. *)
Theorem stop_drains {state result} (xs : list (action state result)) s0 :
  let a := run xs (Start (new_ShardActor s0)) in
  worker_ a ≠ Exited →
  ∃ k, (k <= 2 * length (tasks_ a) + 2)%nat ∧
    let a' := run (xs ++ [AStop] ++ replicate k AWork) (Start (new_ShardActor s0)) in
    worker_ a' = Exited ∧ tasks_ a' = [] ∧
    run_tasks (submitted xs) s0 = (fulfilled a', shared a').
Proof.
  cbv zeta. set (a := run xs _). intros Hw.
  destruct (work_done (work_left (act AStop a)) (act AStop a)) as (k & Hk & Ht & Hidle & Hr); [done..|].
  exists (S k). split.
  { assert (work_left (act AStop a) <= 2 * length (tasks_ a) + 1)%nat
      by (unfold work_left; cbn; destruct (worker_ a); lia). lia. }
  assert (run (xs ++ [AStop] ++ replicate (S k) AWork) (Start (new_ShardActor s0)) =
    act AWork (run (replicate k AWork) (act AStop a))) as Hrun.
  { rewrite replicate_S_end, !run_app. reflexivity. }
  pose proof (run_ok s0 (xs ++ [AStop] ++ replicate (S k) AWork)) as [(finished & Hall & Hres)].
  rewrite Hrun in *. rewrite !submitted_app, submitted_work in Hall.
  cbn [submitted omap list_omap app] in Hall.
  rewrite app_nil_r in Hall.
  assert (worker_ (act AWork (run (replicate k AWork) (act AStop a))) = Exited ∧
          tasks_ (act AWork (run (replicate k AWork) (act AStop a))) = []) as [He Hn].
  { set (b := run (replicate k AWork) (act AStop a)) in *.
    unfold act, RunLoop_step. rewrite Hidle, Ht, Hr. done. }
  unfold in_hand in Hall. rewrite He, Hn, app_nil_r in Hall. subst finished.
  split_and!; [done..|]. exact Hres.
Qed.

(** Two clients, a stop between them: both tasks run. *)
Lemma stop_drains_witness :
  let inc i := mkTask i (λ n : nat, (n, S n)) in
  let xs := [ASubmit (inc 0%nat); AWork; ASubmit (inc 1%nat)] in
  ∃ k, let a' := run (xs ++ [AStop] ++ replicate k AWork) (Start (new_ShardActor 10%nat)) in
    worker_ a' = Exited ∧ fulfilled a' = [(0%nat, 10%nat); (1%nat, 11%nat)].
Proof.
  cbv zeta. set (xs := [ASubmit _; AWork; ASubmit _]).
  destruct (stop_drains xs 10%nat ltac:(discriminate)) as (k & _ & He & _ & Hr).
  exists k. split; [exact He|]. injection Hr as Hf _. exact (eq_sym Hf).
Defined.

(** A task submitted after the worker returned never runs: its promise stays
    unset and the client that waits for it waits for ever. *)
Theorem submit_after_stop_hangs {state result} (xs ys : list (action state result)) t s0 :
  let a := run xs (Start (new_ShardActor s0)) in
  worker_ a = Exited →
  fulfilled (run (xs ++ ASubmit t :: ys) (Start (new_ShardActor s0))) = fulfilled a.
Proof.
  cbv zeta. intros Hw. rewrite run_app. by apply (exited_stays (ASubmit t :: ys)).
Qed.
