(* ===== verification/ServerConfig.v ===== *)
(** * The server configuration ([src/server/config.cc])

    [LoadServerConfig] on the text of a configuration file.  Text is a list
    of bytes; [std::isspace] is the one of the C locale, and [std::stoull] is
    [strtoull] in base 10 with the exceptions of the C++ function. *)
From stdpp Require Import pretty.
From S2P Require Import Prelude Decimal Status Io Message.

Record ServerConfig := mkConfig {
  engine : EngineOptions;
  bootstrap_queues : list string;
  shutdown_grace : Z;
}.

Abbreviation text := (list byte).

(** ** Characters *)

Definition code_of (c : byte) : Z := byte.unsigned c.

Definition isspace (c : byte) : bool :=
  let z := code_of c in (z =? 32) || ((9 <=? z) && (z <=? 13)).

Definition digit (c : byte) : option Z :=
  let z := code_of c in if (48 <=? z) && (z <=? 57) then Some (z - 48) else None.

Fixpoint drop_spaces (t : text) : text :=
  match t with
  | [] => []
  | c :: t' => if isspace c then drop_spaces t' else t
  end.

Definition Trim (value : text) : text := reverse (drop_spaces (reverse (drop_spaces value))).

(** ** Numbers *)

(** The longest run of digits: its value, and what follows. *)
Fixpoint take_digits (acc : Z) (t : text) : Z * text :=
  match t with
  | [] => (acc, [])
  | c :: t' => match digit c with
               | Some d => take_digits (10 * acc + d) t'
               | None => (acc, t)
               end
  end.

(** [std::stoull]: the value and the characters that were not used, or [None]
    when it throws.  A minus sign negates the value modulo 2^64. *)
Definition stoull (value : text) : option (Z * text) :=
  let t := drop_spaces value in
  let '(negative, t) :=
    match t with
    | c :: t' => if code_of c =? 45 then (true, t') else if code_of c =? 43 then (false, t') else (false, t)
    | [] => (false, t)
    end in
  let '(n, rest) := take_digits 0 t in
  if (length rest =? length t)%nat then None
  else if UINT64_MAX <? n then None
  else Some (if (negative : bool) then u64 (- n) else n, rest).

Definition invalid_integer (key : string) (line_no : Z) : Status :=
  mkStatus kInvalidArgument
    ("invalid integer for key '" +:+ key +:+ "' at line " +:+ pretty line_no).

Definition ParseUint (value : text) (key : string) (line_no : Z) : outcome Z :=
  match stoull value with
  | Some (n, []) => Good n
  | _ => Fail (invalid_integer key line_no)
  end.

Definition ends_with (value suffix : text) : bool :=
  (length suffix <=? length value)%nat &&
  bool_decide (drop (length value - length suffix) value = suffix).

Definition chop (n : nat) (value : text) : text := take (length value - n) value.

(** A count of milliseconds is a signed 64-bit integer. *)
Definition to_ms (n : Z) : Z := let w := u64 n in if w <? 2 ^ 63 then w else w - 2 ^ 64.

(** The number and its multiplier. *)
Definition split_unit (value : text) : text * Z :=
  if ends_with value (bytes_of_string "ms") then (chop 2 value, 1)
  else if ends_with value (bytes_of_string "s") then (chop 1 value, 1000)
  else if ends_with value (bytes_of_string "m") then (chop 1 value, 60 * 1000)
  else if ends_with value (bytes_of_string "h") then (chop 1 value, 60 * 60 * 1000)
  else (value, 1).

Definition ParseDurationMs (value : text) (key : string) (line_no : Z) : outcome Z :=
  match value with
  | [] => Fail (mkStatus kInvalidArgument
            ("empty duration for key '" +:+ key +:+ "' at line " +:+ pretty line_no))
  | _ =>
      let '(numeric, multiplier) := split_unit value in
      obind (ParseUint (Trim numeric) key line_no) (λ n, Good (to_ms (u64 (n * multiplier))))
  end.

(** ** Splitting *)

(** The text up to the first [sep], and what follows it, if it is there. *)
Fixpoint cut (sep : byte) (t : text) : text * option text :=
  match t with
  | [] => ([], None)
  | c :: t' => if bool_decide (c = sep) then ([], Some t')
               else let '(a, b) := cut sep t' in (c :: a, b)
  end.

(** [std::getline] until the stream is at its end: a last piece without
    characters is not delivered. *)
Fixpoint getlines (fuel : nat) (sep : byte) (t : text) : list text :=
  match fuel, t with
  | _, [] => []
  | O, _ => []
  | S fuel, _ =>
      let '(a, b) := cut sep t in
      a :: match b with Some t' => getlines fuel sep t' | None => [] end
  end.

(** Every piece takes at least one character off the text. *)
Definition split_lines (sep : byte) (t : text) : list text := getlines (length t) sep t.

Definition SplitComma (value : text) : list string :=
  omap (λ token, let token := Trim token in
          match token with [] => None | _ => Some (string_of_bytes token) end)
    (split_lines Byte.x2c value).

(** ** The file *)

Definition set_engine (f : EngineOptions → EngineOptions) (c : ServerConfig) : ServerConfig :=
  mkConfig (f (engine c)) (bootstrap_queues c) (shutdown_grace c).

Definition initial_config : ServerConfig :=
  mkConfig (mkOptions "/tmp/pomaiqueue" 1 kAlways 100 10000 5 30000 1000 100 86400000 67108864) [] 5000.

(** One [key = value] pair. *)
Definition apply_key (key : string) (value : text) (line_no : Z) (c : ServerConfig)
    : outcome ServerConfig :=
  let uint := ParseUint value key line_no in
  let duration := ParseDurationMs value key line_no in
  let eng f := Good (set_engine f c) in
  if (key =? "data_dir")%string then
    eng (λ o, mkOptions (string_of_bytes value) (shard_count o) (fsync_policy o) (max_inflight o)
      (max_queue_depth o) (max_retry_count o) (visibility_timeout o) (retry_backoff o)
      (scheduler_tick o) (retention o) (max_segment_size_bytes o))
  else if (key =? "shard_count")%string then obind uint (λ v,
    eng (λ o, mkOptions (data_dir o) (u32 v) (fsync_policy o) (max_inflight o)
      (max_queue_depth o) (max_retry_count o) (visibility_timeout o) (retry_backoff o)
      (scheduler_tick o) (retention o) (max_segment_size_bytes o)))
  else if (key =? "max_inflight")%string then obind uint (λ v,
    eng (λ o, mkOptions (data_dir o) (shard_count o) (fsync_policy o) (u32 v)
      (max_queue_depth o) (max_retry_count o) (visibility_timeout o) (retry_backoff o)
      (scheduler_tick o) (retention o) (max_segment_size_bytes o)))
  else if (key =? "max_queue_depth")%string then obind uint (λ v,
    eng (λ o, mkOptions (data_dir o) (shard_count o) (fsync_policy o) (max_inflight o)
      (u32 v) (max_retry_count o) (visibility_timeout o) (retry_backoff o)
      (scheduler_tick o) (retention o) (max_segment_size_bytes o)))
  else if (key =? "max_retry_count")%string then obind uint (λ v,
    eng (λ o, mkOptions (data_dir o) (shard_count o) (fsync_policy o) (max_inflight o)
      (max_queue_depth o) (u32 v) (visibility_timeout o) (retry_backoff o)
      (scheduler_tick o) (retention o) (max_segment_size_bytes o)))
  else if (key =? "max_segment_size_bytes")%string then obind uint (λ v,
    eng (λ o, mkOptions (data_dir o) (shard_count o) (fsync_policy o) (max_inflight o)
      (max_queue_depth o) (max_retry_count o) (visibility_timeout o) (retry_backoff o)
      (scheduler_tick o) (retention o) v))
  else if (key =? "visibility_timeout")%string then obind duration (λ v,
    eng (λ o, mkOptions (data_dir o) (shard_count o) (fsync_policy o) (max_inflight o)
      (max_queue_depth o) (max_retry_count o) v (retry_backoff o)
      (scheduler_tick o) (retention o) (max_segment_size_bytes o)))
  else if (key =? "retry_backoff")%string then obind duration (λ v,
    eng (λ o, mkOptions (data_dir o) (shard_count o) (fsync_policy o) (max_inflight o)
      (max_queue_depth o) (max_retry_count o) (visibility_timeout o) v
      (scheduler_tick o) (retention o) (max_segment_size_bytes o)))
  else if (key =? "scheduler_tick")%string then obind duration (λ v,
    eng (λ o, mkOptions (data_dir o) (shard_count o) (fsync_policy o) (max_inflight o)
      (max_queue_depth o) (max_retry_count o) (visibility_timeout o) (retry_backoff o)
      v (retention o) (max_segment_size_bytes o)))
  else if (key =? "retention")%string then obind duration (λ v,
    eng (λ o, mkOptions (data_dir o) (shard_count o) (fsync_policy o) (max_inflight o)
      (max_queue_depth o) (max_retry_count o) (visibility_timeout o) (retry_backoff o)
      (scheduler_tick o) v (max_segment_size_bytes o)))
  else if (key =? "shutdown_grace")%string then obind duration (λ v,
    Good (mkConfig (engine c) (bootstrap_queues c) v))
  else if (key =? "fsync_policy")%string then
    let policy p := eng (λ o, mkOptions (data_dir o) (shard_count o) p (max_inflight o)
      (max_queue_depth o) (max_retry_count o) (visibility_timeout o) (retry_backoff o)
      (scheduler_tick o) (retention o) (max_segment_size_bytes o)) in
    if (string_of_bytes value =? "always")%string then policy kAlways
    else if (string_of_bytes value =? "interval")%string then policy kInterval
    else if (string_of_bytes value =? "never")%string then policy kNever
    else Fail (mkStatus kInvalidArgument ("invalid fsync_policy at line " +:+ pretty line_no))
  else if (key =? "bootstrap_queues")%string then
    Good (mkConfig (engine c) (SplitComma value) (shutdown_grace c))
  else Fail (mkStatus kInvalidArgument
         ("unknown config key '" +:+ key +:+ "' at line " +:+ pretty line_no)).

(** One line, its comment removed. *)
Definition apply_line (line : text) (line_no : Z) (c : ServerConfig) : outcome ServerConfig :=
  let line := Trim (cut Byte.x23 line).1 in
  match line with
  | [] => Good c
  | _ =>
      match cut Byte.x3d line with
      | (_, None) => Fail (mkStatus kInvalidArgument ("expected key=value at line " +:+ pretty line_no))
      | (key, Some value) =>
          let key := Trim key in
          match key with
          | [] => Fail (mkStatus kInvalidArgument ("empty key at line " +:+ pretty line_no))
          | _ => apply_key (string_of_bytes key) (Trim value) line_no c
          end
      end
  end.

Fixpoint apply_lines (lines : list text) (line_no : Z) (c : ServerConfig) : outcome ServerConfig :=
  match lines with
  | [] => Good c
  | line :: lines =>
      let line_no := line_no + 1 in
      obind (apply_line line line_no c) (apply_lines lines line_no)
  end.

Definition load_text (t : text) : outcome ServerConfig :=
  obind (apply_lines (split_lines Byte.x0a t) 0 initial_config) (λ c,
    if (data_dir (engine c) =? "")%string
    then Fail (mkStatus kInvalidArgument "data_dir must not be empty")
    else Good c).

Definition LoadServerConfig `{Env} (path : string) : W ServerConfig :=
  let! opened := open_in path in
  match opened with
  | None => fail kNotFound ("cannot open config: " +:+ path)
  | Some s => lift_outcome (load_text (i_rest s))
  end.

Example load_text_example :
  match load_text (bytes_of_string "# demo
data_dir = /d
visibility_timeout=30s # half a minute
max_inflight = 7
bootstrap_queues = a, b,,c") with
  | Good c => (data_dir (engine c), visibility_timeout (engine c), max_inflight (engine c),
               bootstrap_queues c) = ("/d", 30000, 7, ["a"; "b"; "c"])
  | _ => False
  end.
Proof. vm_compute. reflexivity. Qed.


(** ** A printer for configurations *)

Definition decimal (n : Z) : text := bytes_of_string (pretty (Z.to_N n)).

Definition entry (key : string) (value : text) : text :=
  bytes_of_string key ++ [Byte.x3d] ++ value.

Definition policy_name (p : FsyncPolicy) : string :=
  match p with kAlways => "always" | kInterval => "interval" | kNever => "never" end.

Fixpoint comma_separated (qs : list string) : text :=
  match qs with
  | [] => []
  | q :: qs => bytes_of_string q ++ Byte.x2c :: comma_separated qs
  end.

Definition config_entries (c : ServerConfig) : list (string * text) :=
  let o := engine c in
  [("data_dir", bytes_of_string (data_dir o));
   ("shard_count", decimal (shard_count o));
   ("max_inflight", decimal (max_inflight o));
   ("max_queue_depth", decimal (max_queue_depth o));
   ("max_retry_count", decimal (max_retry_count o));
   ("max_segment_size_bytes", decimal (max_segment_size_bytes o));
   ("visibility_timeout", decimal (visibility_timeout o) ++ bytes_of_string "ms");
   ("retry_backoff", decimal (retry_backoff o) ++ bytes_of_string "ms");
   ("scheduler_tick", decimal (scheduler_tick o) ++ bytes_of_string "ms");
   ("retention", decimal (retention o) ++ bytes_of_string "ms");
   ("shutdown_grace", decimal (shutdown_grace c) ++ bytes_of_string "ms");
   ("fsync_policy", bytes_of_string (policy_name (fsync_policy o)));
   ("bootstrap_queues", comma_separated (bootstrap_queues c))].

Definition render_lines (es : list (string * text)) : text :=
  concat (map (λ e, entry e.1 e.2 ++ [Byte.x0a]) es).

Definition render (c : ServerConfig) : text := render_lines (config_entries c).

(** ** Lemmas on the reader *)

Definition tight (t : text) : Prop :=
  (∀ c, head t = Some c → isspace c = false) ∧ (∀ c, last t = Some c → isspace c = false).

Lemma drop_spaces_tight t : (∀ c, head t = Some c → isspace c = false) → drop_spaces t = t.
Proof. destruct t as [|c t]; intros Ht; simpl; [done|]. by rewrite (Ht c). Qed.

Lemma Trim_tight t : tight t → Trim t = t.
Proof.
  intros [Hh Hl]. unfold Trim. rewrite (drop_spaces_tight t) by done.
  rewrite drop_spaces_tight; [apply reverse_involutive|].
  intros c Hc. apply Hl. by rewrite <-head_reverse.
Qed.

Lemma cut_app sep a t : sep ∉ a → cut sep (a ++ sep :: t) = (a, Some t).
Proof.
  induction a as [|c a IH]; intros Hn; simpl.
  - by rewrite bool_decide_true.
  - rewrite elem_of_cons in Hn. rewrite bool_decide_false by naive_solver.
    rewrite IH by naive_solver. done.
Qed.

Lemma cut_none sep a : sep ∉ a → cut sep a = (a, None).
Proof.
  induction a as [|c a IH]; intros Hn; simpl; [done|].
  rewrite elem_of_cons in Hn. rewrite bool_decide_false by naive_solver.
  rewrite IH by naive_solver. done.
Qed.

Lemma cut_length sep t a b : cut sep t = (a, Some b) → (length b < length t)%nat.
Proof.
  revert a b; induction t as [|c t IH]; intros a b; simpl; [done|].
  case_bool_decide; [intros [= <- <-]; lia|].
  destruct (cut sep t) as [a' b']. intros [= <- ->]. pose proof (IH _ _ eq_refl). lia.
Qed.

Lemma getlines_enough n m sep t :
  (length t <= n)%nat → (length t <= m)%nat → getlines n sep t = getlines m sep t.
Proof.
  revert m t; induction n as [|n IH]; intros m t Hn Hm.
  { destruct t; [by destruct m|simpl in Hn; lia]. }
  destruct t as [|c t]; [by destruct m|]. destruct m as [|m]; [simpl in Hm; lia|].
  cbn [getlines]. destruct (cut sep (c :: t)) as [a [b|]] eqn:Hc; [|done].
  apply cut_length in Hc. cbn [length] in *. f_equal. apply IH; lia.
Qed.

Lemma split_lines_app sep a t :
  sep ∉ a → split_lines sep (a ++ sep :: t) = a :: split_lines sep t.
Proof.
  intros Hn. unfold split_lines.
  destruct (length (a ++ sep :: t)) as [|n] eqn:Hl.
  { rewrite length_app in Hl. simpl in Hl. lia. }
  cbn [getlines]. destruct (a ++ sep :: t) as [|c u] eqn:Hu; [by destruct a|].
  rewrite <-Hu, cut_app by done. f_equal. rewrite <-Hu, length_app in Hl. simpl in Hl.
  apply getlines_enough; lia.
Qed.

Lemma digit_char x : (x < 10)%N →
  digit (Ascii.byte_of_ascii (pretty_N_char x)) = Some (Z.of_N x).
Proof.
  intros Hx.
  assert (x = 0 ∨ x = 1 ∨ x = 2 ∨ x = 3 ∨ x = 4 ∨ x = 5 ∨ x = 6 ∨ x = 7 ∨ x = 8 ∨ x = 9)%N
    as Hcases by lia.
  by destruct_or! Hcases; subst x.
Qed.

Lemma take_digits_go (x : N) s :
  take_digits 0 (bytes_of_string (pretty_N_go x s)) = take_digits (Z.of_N x) (bytes_of_string s).
Proof.
  revert s; induction (N.lt_wf_0 x) as [x _ IH]; intros s.
  destruct (decide (x = 0)%N) as [->|Hx]; [by rewrite pretty_N_go_0|].
  rewrite pretty_N_go_step, IH by (try apply N.div_lt; lia).
  change (bytes_of_string (String ?c s)) with (Ascii.byte_of_ascii c :: bytes_of_string s).
  cbn [take_digits]. rewrite digit_char by (apply N.mod_lt; lia).
  f_equal. rewrite <-(N2Z.inj_mul 10), <-N2Z.inj_add. f_equal. symmetry. apply N.div_mod. lia.
Qed.

Lemma take_digits_decimal n : 0 <= n → take_digits 0 (decimal n) = (n, []).
Proof.
  intros Hn. unfold decimal. destruct (decide (n = 0)) as [->|Hne]; [done|].
  rewrite pretty_N_pos, take_digits_go by lia. cbn [take_digits bytes_of_string].
  by rewrite Z2N.id by lia.
Qed.

Definition is_digit (c : byte) : Prop := is_Some (digit c).

Lemma digits_go (x : N) s :
  Forall is_digit (bytes_of_string s) → Forall is_digit (bytes_of_string (pretty_N_go x s)).
Proof. apply go_forall. intros d Hd. exists (Z.of_N d). by apply digit_char. Qed.

Lemma decimal_digits n : Forall is_digit (decimal n).
Proof.
  unfold decimal. destruct (decide (Z.to_N n = 0)%N) as [->|Hn].
  - repeat constructor. by exists 0.
  - rewrite pretty_N_pos by lia. apply digits_go. constructor.
Qed.

Lemma decimal_not_nil n : 0 <= n → decimal n ≠ [].
Proof.
  intros Hn Hnil. pose proof (take_digits_decimal n Hn) as Ht. rewrite Hnil in Ht.
  injection Ht as <-. discriminate Hnil.
Qed.

(** A digit is no space, no sign and no separator. *)
Lemma digit_range c : is_digit c → 48 <= code_of c <= 57.
Proof. intros [d Hd]. unfold digit in Hd. case_match; [lia|done]. Qed.

Lemma digit_not_space c : is_digit c → isspace c = false.
Proof. intros Hc%digit_range. unfold isspace. lia. Qed.

Lemma digits_avoid (b : byte) t : Forall is_digit t → digit b = None → b ∉ t.
Proof. intros Ht Hb Hin. rewrite Forall_forall in Ht. destruct (Ht b Hin) as [d Hd]. congruence. Qed.

Lemma tight_digits t : Forall is_digit t → tight t.
Proof.
  intros Ht. rewrite Forall_forall in Ht. split; intros c Hc; apply digit_not_space, Ht.
  - destruct t; [done|]. injection Hc as ->. left.
  - by apply last_Some_elem_of.
Qed.

Lemma stoull_decimal n : is_u64 n → stoull (decimal n) = Some (n, []).
Proof.
  intros Hn. pose proof (decimal_digits n) as Hd. pose proof (take_digits_decimal n) as Ht.
  pose proof (decimal_not_nil n) as Hne. unfold stoull.
  rewrite (drop_spaces_tight (decimal n)) by (apply tight_digits; done).
  destruct (decimal n) as [|c t]; [by destruct Hne; [lia|]|].
  assert (48 <= code_of c <= 57) as Hc by (apply digit_range; by inversion Hd).
  replace (code_of c =? 45) with false by lia. replace (code_of c =? 43) with false by lia.
  rewrite Ht by lia. unfold UINT64_MAX. cbn [length Nat.eqb].
  replace (2 ^ 64 - 1 <? n) with false by lia. done.
Qed.

Lemma ParseUint_decimal n key line_no : is_u64 n → ParseUint (decimal n) key line_no = Good n.
Proof. intros Hn. unfold ParseUint. by rewrite stoull_decimal. Qed.

Lemma chop_app t u : chop (length u) (t ++ u) = t.
Proof.
  unfold chop. rewrite length_app. replace (_ - _)%nat with (length t) by lia.
  apply take_app_length.
Qed.

Lemma ends_with_tail t u suffix :
  length u = length suffix → ends_with (t ++ u) suffix = bool_decide (u = suffix).
Proof.
  intros Hu. unfold ends_with. rewrite length_app, <-Hu.
  replace (_ - _)%nat with (length t) by lia.
  rewrite drop_app_length. by rewrite (proj2 (Nat.leb_le _ _)) by lia.
Qed.

Lemma ends_with_last value suffix c b :
  last value = Some c → last suffix = Some b → c ≠ b → ends_with value suffix = false.
Proof.
  intros Hc Hb Hne. unfold ends_with. apply andb_false_iff. right. apply bool_decide_false.
  intros Hd. rewrite <-(take_drop (length value - length suffix) value), Hd in Hc.
  rewrite last_app, Hb in Hc. congruence.
Qed.

(** The units of a duration, in milliseconds; no suffix means milliseconds. *)
Definition units : list (text * Z) :=
  [(bytes_of_string "ms", 1); (bytes_of_string "s", 1000); (bytes_of_string "m", 60000);
   (bytes_of_string "h", 3600000); ([], 1)].

Lemma is_digit_ne d b : is_digit d → digit b = None → d ≠ b.
Proof. intros [x Hx] Hb ->. congruence. Qed.

Lemma split_unit_number t d unit :
  is_digit d → unit ∈ units → split_unit ((t ++ [d]) ++ unit.1) = (t ++ [d], unit.2).
Proof.
  intros Hd Hunit. unfold split_unit.
  assert (∀ u, u ≠ [] → last ((t ++ [d]) ++ u) = last u) as Hlast.
  { intros u Hu. rewrite last_app. by destruct (last u) eqn:E; [|apply last_None in E]. }
  assert (∀ b, digit b = None → d ≠ b) as Hne by (intros b; by apply is_digit_ne).
  unfold units in Hunit. rewrite !elem_of_cons, elem_of_nil in Hunit.
  destruct_or! Hunit; subst unit; cbn [fst snd].
  - rewrite ends_with_tail by done. rewrite bool_decide_true by done.
    by rewrite (chop_app _ (bytes_of_string "ms")).
  - rewrite <-app_assoc at 1. rewrite ends_with_tail by done. rewrite bool_decide_false.
    2:{ intros [= Hd']. by apply (Hne Byte.x6d). }
    rewrite ends_with_tail, bool_decide_true by done.
    by rewrite (chop_app _ (bytes_of_string "s")).
  - rewrite (ends_with_last _ _ Byte.x6d Byte.x73), (ends_with_last _ (bytes_of_string "s") Byte.x6d Byte.x73)
      by (rewrite ?Hlast; done).
    rewrite ends_with_tail, bool_decide_true by done.
    by rewrite (chop_app _ (bytes_of_string "m")).
  - rewrite (ends_with_last _ _ Byte.x68 Byte.x73), (ends_with_last _ (bytes_of_string "s") Byte.x68 Byte.x73),
      (ends_with_last _ (bytes_of_string "m") Byte.x68 Byte.x6d) by (rewrite ?Hlast; done).
    rewrite ends_with_tail, bool_decide_true by done.
    by rewrite (chop_app _ (bytes_of_string "h")).
  - rewrite app_nil_r.
    rewrite (ends_with_last _ _ d Byte.x73), (ends_with_last _ (bytes_of_string "s") d Byte.x73),
      (ends_with_last _ (bytes_of_string "m") d Byte.x6d), (ends_with_last _ (bytes_of_string "h") d Byte.x68)
      by (rewrite ?last_snoc; auto).
    done.
Qed.

Lemma ParseDurationMs_unit n unit key line_no :
  0 <= n → unit ∈ units → n * unit.2 < 2 ^ 63 →
  ParseDurationMs (decimal n ++ unit.1) key line_no = Good (n * unit.2).
Proof.
  intros Hn Hunit Hmul.
  assert (1 <= unit.2) as Hpos.
  { unfold units in Hunit. rewrite !elem_of_cons, elem_of_nil in Hunit.
    by destruct_or! Hunit; subst unit; simpl. }
  pose proof (decimal_digits n) as Hd.
  destruct (decimal n) as [|d t _] eqn:Heq using rev_ind.
  { by destruct (decimal_not_nil n Hn). }
  pose proof (split_unit_number t d unit) as Hsplit.
  unfold ParseDurationMs. destruct ((t ++ [d]) ++ unit.1) as [|c u] eqn:Hv.
  { by destruct t. }
  rewrite Hsplit; [|by apply Forall_app in Hd as [_ Hd]; inversion Hd|done].
  rewrite Trim_tight by by apply tight_digits.
  rewrite <-Heq, ParseUint_decimal by nia. cbn [obind]. f_equal.
  unfold to_ms, u64. rewrite !Z.mod_mod by lia. rewrite Z.mod_small by nia.
  by replace (n * unit.2 <? 2 ^ 63) with true by lia.
Qed.

Lemma ParseDurationMs_ms n key line_no :
  0 <= n < 2 ^ 63 → ParseDurationMs (decimal n ++ bytes_of_string "ms") key line_no = Good n.
Proof.
  intros Hn. rewrite <-(Z.mul_1_r n) at 2.
  apply (ParseDurationMs_unit n (bytes_of_string "ms", 1)); [lia|left|simpl; lia].
Qed.

(** ** Reading back what was printed *)

(** A text that the reader neither cuts nor trims. *)
Definition clean (t : text) : Prop := tight t ∧ (Byte.x23 ∉ t) ∧ (Byte.x0a ∉ t).

Definition entry_ok (e : string * text) : Prop :=
  clean (bytes_of_string e.1) ∧ e.1 ≠ "" ∧ (Byte.x3d ∉ bytes_of_string e.1) ∧ clean e.2.

Lemma tight_app a b c : tight a → tight b → a ≠ [] → isspace c = false → tight (a ++ c :: b).
Proof.
  intros [Ha _] [_ Hb] Hne Hc. split; intros x Hx.
  - destruct a; [done|]. by apply Ha.
  - rewrite last_app_cons in Hx. destruct b as [|d b]; [by injection Hx as <-|].
    by apply Hb.
Qed.

Lemma bytes_of_string_nil s : bytes_of_string s = [] → s = "".
Proof. intros Hs. by rewrite <-(string_of_bytes_of_string s), Hs. Qed.

Lemma apply_line_entry e k c :
  entry_ok e → apply_line (entry e.1 e.2) k c = apply_key e.1 e.2 k c.
Proof.
  destruct e as [key value]. intros ((Htk & Hhk & Hnk) & Hne & Heq & Htv & Hhv & _). simpl in *.
  unfold apply_line, entry. simpl.
  assert (bytes_of_string key ≠ []) as Hkey by (intros H%bytes_of_string_nil; done).
  rewrite cut_none.
  2:{ rewrite elem_of_app, elem_of_cons. intros [?|[?|?]]; done. }
  cbn [fst]. rewrite Trim_tight by by apply tight_app.
  destruct (bytes_of_string key ++ Byte.x3d :: value) as [|b t] eqn:Hl.
  { by destruct (bytes_of_string key). }
  rewrite <-Hl, cut_app by done. rewrite !Trim_tight by done.
  destruct (bytes_of_string key) as [|b' t'] eqn:Hk; [done|].
  by rewrite <-Hk, string_of_bytes_of_string.
Qed.

Fixpoint apply_entries (es : list (string * text)) (k : Z) (c : ServerConfig) : outcome ServerConfig :=
  match es with
  | [] => Good c
  | e :: es => obind (apply_key e.1 e.2 (k + 1) c) (apply_entries es (k + 1))
  end.

Lemma load_entries es k c :
  Forall entry_ok es → apply_lines (split_lines Byte.x0a (render_lines es)) k c = apply_entries es k c.
Proof.
  intros Hes; revert k c; induction Hes as [|e es He Hes IH]; intros k c; [done|].
  unfold render_lines. cbn [map concat]. rewrite <-app_assoc. cbn [app].
  rewrite split_lines_app.
  2:{ destruct He as ((_ & _ & ?) & _ & _ & _ & _ & ?).
      unfold entry. rewrite !elem_of_app, elem_of_cons, elem_of_nil.
      intros [?|[[?|?]|?]]; done. }
  cbn [apply_lines apply_entries]. rewrite apply_line_entry by done.
  destruct (apply_key e.1 e.2 (k + 1) c); cbn [obind]; auto.
Qed.

Lemma SplitComma_separated qs :
  Forall (λ q, tight (bytes_of_string q) ∧ q ≠ "" ∧ Byte.x2c ∉ bytes_of_string q) qs →
  SplitComma (comma_separated qs) = qs.
Proof.
  unfold SplitComma. induction 1 as [|q qs (Ht & Hne & Hc) Hqs IH]; [done|].
  cbn [comma_separated]. rewrite split_lines_app by done. cbn [omap list_omap].
  rewrite Trim_tight by done. destruct (bytes_of_string q) as [|b t] eqn:Hq.
  { by apply bytes_of_string_nil in Hq. }
  rewrite <-Hq, string_of_bytes_of_string. by f_equal.
Qed.

(** The configurations that a file can hold. *)
Record printable (c : ServerConfig) : Prop := {
  pc_dir : clean (bytes_of_string (data_dir (engine c))) ∧ data_dir (engine c) ≠ "";
  pc_u32 : Forall (λ n, is_u32 n) [shard_count (engine c); max_inflight (engine c);
                                   max_queue_depth (engine c); max_retry_count (engine c)];
  pc_u64 : is_u64 (max_segment_size_bytes (engine c));
  pc_ms : Forall (λ n, 0 <= n < 2 ^ 63)
    [visibility_timeout (engine c); retry_backoff (engine c); scheduler_tick (engine c);
     retention (engine c); shutdown_grace c];
  pc_queues : Forall (λ q, clean (bytes_of_string q) ∧ q ≠ "" ∧ Byte.x2c ∉ bytes_of_string q)
    (bootstrap_queues c);
}.

Lemma clean_app_digits t u : Forall is_digit t → t ≠ [] → clean u → clean (t ++ u).
Proof.
  intros Ht Hne ([Hh Hl] & Hhash & Hnl). split.
  - destruct (tight_digits t Ht) as [Hth Htl]. split; intros c Hc.
    + destruct t; [done|]. by apply Hth.
    + rewrite last_app in Hc. destruct (last u); [by apply Hl|by apply Htl].
  - rewrite !elem_of_app.
    split; (intros [H|H]; [|done]); by apply (digits_avoid _ t Ht) in H.
Qed.

Definition cleanb (t : text) : bool :=
  forallb (λ c, negb (isspace c) && negb (bool_decide (c = Byte.x23))) t.

Lemma cleanb_clean t : cleanb t = true → clean t.
Proof.
  intros Ht. unfold cleanb in Ht. rewrite List.forallb_forall in Ht.
  assert (∀ c, c ∈ t → isspace c = false ∧ c ≠ Byte.x23) as Hall.
  { intros c Hc%list_elem_of_In%Ht. apply andb_true_iff in Hc as [Hs Hc].
    apply negb_true_iff in Hs, Hc. split; [done|]. by apply bool_decide_eq_false in Hc. }
  repeat split.
  - intros c Hc. apply Hall. destruct t; [done|]. injection Hc as ->. left.
  - intros c Hc. by apply Hall, last_Some_elem_of.
  - intros Hin%Hall. by destruct Hin.
  - intros Hin%Hall. by destruct Hin.
Qed.

Lemma clean_decimal n : 0 <= n → clean (decimal n).
Proof.
  intros Hn. rewrite <-(app_nil_r (decimal n)).
  apply clean_app_digits; [apply decimal_digits|by apply decimal_not_nil|].
  by apply cleanb_clean.
Qed.

Lemma clean_ms n : 0 <= n → clean (decimal n ++ bytes_of_string "ms").
Proof.
  intros Hn. apply clean_app_digits; [apply decimal_digits|by apply decimal_not_nil|].
  by apply cleanb_clean.
Qed.

Lemma clean_queues qs :
  Forall (λ q, clean (bytes_of_string q) ∧ q ≠ "" ∧ Byte.x2c ∉ bytes_of_string q) qs →
  clean (comma_separated qs).
Proof.
  induction 1 as [|q qs ([Ht [Hh Hn]] & Hne & _) _ ([Hth Htl] & IHh & IHn)]; [by apply cleanb_clean|].
  cbn [comma_separated]. split.
  - apply tight_app; try done. by intros Hq%bytes_of_string_nil.
  - rewrite !elem_of_app, !elem_of_cons. split; intros [?|[?|?]]; done.
Qed.

(** Unfold the choice of a literal key. *)
Ltac pick_key := unfold apply_key; cbn [String.eqb Ascii.eqb Bool.eqb].

Lemma config_entries_ok c : printable c → Forall entry_ok (config_entries c).
Proof.
  intros [[Hdir Hdir'] H32 H64 Hms Hq]. rewrite !Forall_cons in H32; rewrite !Forall_cons in Hms.
  destruct H32 as (? & ? & ? & ? & _). destruct Hms as (? & ? & ? & ? & ? & _).
  unfold config_entries. rewrite !Forall_cons. split_and!; [..|done].
  all: split; [by apply cleanb_clean|]; split; [done|];
    (split; [by refine (bool_decide_unpack _ _); vm_compute|]); cbn [snd].
  all: first [done | apply clean_ms; lia | apply clean_decimal; lia | by apply clean_queues | idtac].
  destruct (fsync_policy (engine c)); by apply cleanb_clean.
Qed.

(** C35. Configuration round trip.  Print any configuration whose texts hold no
    comment sign, no line break and no outer spaces, whose counters fit
    [uint32_t] or [uint64_t] and whose durations fit a signed 64-bit count of
    milliseconds, one [key=value] line per key: the loader accepts the text
    and returns exactly that configuration, whatever the defaults were.  So
    every key reaches its own field, and no value of a field is out
    of the reach of a configuration file. *)
Theorem config_roundtrip c : printable c → load_text (render c) = Good c.
Proof.
  intros Hc. pose proof (config_entries_ok c Hc) as Hok.
  destruct Hc as [[Hdir Hdir'] H32 H64 Hms Hq]. rewrite !Forall_cons in H32; rewrite !Forall_cons in Hms.
  destruct H32 as (? & ? & ? & ? & _). destruct Hms as (? & ? & ? & ? & ? & _).
  unfold load_text, render. rewrite load_entries by done. unfold config_entries.
  cbn [apply_entries fst snd]. unfold apply_key. cbn [String.eqb Ascii.eqb Bool.eqb].
  repeat (cbn [obind]; first [rewrite ParseUint_decimal by lia | rewrite ParseDurationMs_ms by lia]).
  cbn [obind]. rewrite !string_of_bytes_of_string, SplitComma_separated.
  2:{ eapply Forall_impl; [exact Hq|]. intros q ([? _] & ? & ?). done. }
  destruct c as [[] qs grace]. cbn in *. rewrite !u32_small by done.
  by match goal with p : FsyncPolicy |- _ => destruct p end; cbn;
    rewrite (proj2 (String.eqb_neq _ _)).
Qed.

Definition demo_config : ServerConfig :=
  mkConfig (mkOptions "/data" 4 kNever 10 20 3 30000 500 50 1000 4096) ["orders"; "mail"] 250.

Lemma config_roundtrip_witness :
  printable demo_config ∧ load_text (render demo_config) = Good demo_config.
Proof.
  assert (printable demo_config) as Hp.
  { split; cbn [demo_config engine bootstrap_queues shutdown_grace data_dir shard_count max_inflight
      max_queue_depth max_retry_count max_segment_size_bytes visibility_timeout retry_backoff
      scheduler_tick retention].
    - split; [by apply cleanb_clean|done].
    - repeat constructor; lia.
    - lia.
    - repeat constructor; lia.
    - repeat (apply Forall_cons; split); [..|apply Forall_nil; exact I];
        (split; [by apply cleanb_clean|]; split; [done|]);
        refine (bool_decide_unpack _ _); vm_compute; exact I. }
  split; [exact Hp|apply config_roundtrip; exact Hp].
Defined.

(** A minus sign is accepted and the value wraps; a quoted value is refused. *)
Example minus_one_accepted :
  ParseUint (bytes_of_string "-1") "shard_count" 1 = Good (2 ^ 64 - 1).
Proof. vm_compute. reflexivity. Qed.

Example quoted_duration_refused :
  ParseDurationMs (Byte.x22 :: bytes_of_string "30s" ++ [Byte.x22]) "visibility_timeout" 8 =
  Fail (invalid_integer "visibility_timeout" 8).
Proof. vm_compute. reflexivity. Qed.
