(* ===== verification/EngineApi.v ===== *)
(** * The engine's public operations ([src/core/engine/queue_engine.cc],
    [src/core/api/pomai_queue.cc])

    [Start], [Stop], the guard of every request and its routing to a shard, and
    the shard workers on the shared table of queues.  A run is an interleaving
    of requests, stops and worker steps.  A task is one step: two shards touch
    different queues, and the table itself is under a mutex.  An exception that
    escapes a task ends the process: nothing happens after it. *)
From S2P Require Import Prelude Status Io Message Handlers HandlerSpecs Engine ShardActor.

Inductive Op :=
  | OpCreateQueue (queue_name : string)
  | OpProduce (queue_name : string) (message : Message)
  | OpConsume (queue_name group_id : string)
  | OpAck (queue_name group_id : string) (id : MessageId)
  | OpNack (queue_name group_id : string) (id : MessageId) (requeue : bool)
  | OpGetStats (queue_name group_id : string)
  | OpInspectMessage (queue_name group_id : string) (id : MessageId)
  | OpReplayToSequence (queue_name group_id : string) (until_sequence : Z).

Definition queue_of (op : Op) : string :=
  match op with
  | OpCreateQueue q | OpProduce q _ | OpConsume q _ | OpAck q _ _ | OpNack q _ _ _
  | OpGetStats q _ | OpInspectMessage q _ _ | OpReplayToSequence q _ _ => q
  end.

Inductive Reply :=
  | ROk
  | ROffset (offset : Z)
  | RMessage (message : option ConsumeResult)
  | RStats (stats : QueueStats)
  | RView (view : MessageDebugView)
  | RReplay (result : ReplayResult).

Section api.
Context `{Env}.
Context (options_ : EngineOptions).
(** [std::hash<std::string>] *)
Context (hash : string → Z).

(** The closure that a request submits. *)
Definition execute (op : Op) : EngM Reply :=
  match op with
  | OpCreateQueue q => do! CreateQueueOnShard options_ q in ret ROk
  | OpProduce q m => let! off := ProduceOnShard options_ q m in ret (ROffset off)
  | OpConsume q g => let! r := ConsumeOnShard options_ q g in ret (RMessage r)
  | OpAck q g id => do! AckOnShard options_ q g id in ret ROk
  | OpNack q g id b => do! NackOnShard options_ q g id b in ret ROk
  | OpGetStats q g => let! s := GetStatsOnShard options_ q g in ret (RStats s)
  | OpInspectMessage q g id => let! v := InspectMessageOnShard options_ q g id in ret (RView v)
  | OpReplayToSequence q g n => let! r := ReplayToSequenceOnShard options_ q g n in ret (RReplay r)
  end.

Abbreviation Store := (World * Queues)%type.
(** A request: the number of its promise, and the operation.  A result
    carries the operation along. *)
Abbreviation Request := (nat * Op)%type.
Abbreviation Shard := (ShardActor Store (Op * outcome Reply)).

Definition task_of (r : Request) : Task Store (Op * outcome Reply) :=
  mkTask r.1 (λ s, let '(o, s) := execute r.2 s in ((r.2, o), s)).

Record QueueEngine := mkEngine {
  store : Store;
  shards_ : list Shard;
  history : list (nat * (Op * outcome Reply));   (* promises fulfilled, oldest first *)
  alive : bool;
}.

Definition new_QueueEngine (s : Store) : QueueEngine := mkEngine s [] [] true.

Definition set_shards (l : list Shard) (e : QueueEngine) : QueueEngine :=
  mkEngine (store e) l (history e) (alive e).

(** ** Workers *)

Definition with_shared (s : Store) (a : Shard) : Shard :=
  mkActor (tasks_ a) (running_ a) (worker_ a) s (fulfilled a).

Definition no_throw (h : nat * (Op * outcome Reply)) : bool :=
  match h.2.2 with Throw _ => false | _ => true end.

(** The worker of shard [i] makes one step, on the store as it is now. *)
Definition work (i : nat) (e : QueueEngine) : QueueEngine :=
  if negb (alive e) then e else
  match a ← shards_ e !! i; pair a <$> RunLoop_step (with_shared (store e) a) with
  | None => e
  | Some (a, a') =>
      let news := drop (length (fulfilled a)) (fulfilled a') in
      mkEngine (shared a') (<[i := a']> (shards_ e)) (history e ++ news) (forallb no_throw news)
  end.

Definition halt (i : nat) (e : QueueEngine) : QueueEngine :=
  set_shards (alter ShardActor.Stop i (shards_ e)) e.

(** ** [Start], [Stop] and requests *)

(** Stop shard [i] and join its worker, which returns after two steps for
    every waiting task and two more. *)
Definition join (i : nat) (e : QueueEngine) : QueueEngine :=
  let waiting := from_option (λ a, length (tasks_ a)) 0%nat (shards_ e !! i) in
  Nat.iter (2 * waiting + 2) (work i) (halt i e).

Definition Stop (e : QueueEngine) : QueueEngine :=
  set_shards [] (foldl (λ e i, join i e) e (seq 0 (length (shards_ e)))).

(** [shards_.clear()] joins the workers that still run. *)
Definition Start (e : QueueEngine) : outcome unit * QueueEngine :=
  if shard_count options_ =? 0
  then (Fail (mkStatus kInvalidArgument "shard_count must be >= 1"), e)
  else
    let e := Stop e in
    (Good tt, set_shards (replicate (Z.to_nat (shard_count options_))
                (ShardActor.Start (new_ShardActor (store e)))) e).

Definition ValidateShardConfig (e : QueueEngine) : outcome unit :=
  if shard_count options_ =? 0
  then Fail (mkStatus kInvalidArgument "shard_count must be >= 1")
  else match shards_ e with
       | [] => Fail (mkStatus kUnavailable "engine not started")
       | _ => Good tt
       end.

Definition ShardForQueue (queue_name : string) : nat :=
  Z.to_nat (hash queue_name mod shard_count options_).

(** A request up to the wait for its future. *)
Definition request (r : Request) (e : QueueEngine) : outcome unit * QueueEngine :=
  match ValidateShardConfig e with
  | Good _ =>
      (Good tt, set_shards (alter (Submit (task_of r)) (ShardForQueue (queue_of r.2)) (shards_ e)) e)
  | o => (o, e)
  end.

(** ** Runs *)

Inductive step_ := SRequest (r : Request) | SHalt (i : nat) | SWork (i : nat).

Definition act_ (x : step_) (e : QueueEngine) : QueueEngine :=
  match x with
  | SRequest r => (request r e).2
  | SHalt i => halt i e
  | SWork i => work i e
  end.

Definition run_ (xs : list step_) (e : QueueEngine) : QueueEngine := foldl (λ e x, act_ x e) e xs.

Definition requests (xs : list step_) : list Request :=
  omap (λ x, match x with SRequest r => Some r | _ => None end) xs.

(** The requests on one shard, and on one queue, of a list of requests. *)
Definition on_shard (i : nat) (rs : list Request) : list Request :=
  filter (λ r, ShardForQueue (queue_of r.2) = i) rs.

Definition on_queue (q : string) (rs : list Request) : list Request :=
  filter (λ r, queue_of r.2 = q) rs.

Definition done_requests (e : QueueEngine) : list Request :=
  map (λ h, (h.1, h.2.1)) (history e).

(** ** The invariant *)

(** The results so far are those of the requests done so far, one after the
    other; and on every shard the requests are the done ones, then the ones
    that wait, in the order of submission. *)
Record engine_ok (s0 : Store) (reqs : list Request) (e : QueueEngine) : Prop := {
  eo_len : length (shards_ e) = Z.to_nat (shard_count options_);
  eo_run : run_tasks (map task_of (done_requests e)) s0 = (history e, store e);
  eo_shard : ∀ i a, shards_ e !! i = Some a → ∃ waiting,
    on_shard i reqs = on_shard i (done_requests e) ++ waiting ∧
    in_hand a ++ tasks_ a = map task_of waiting;
}.

Lemma work_cases i e :
  work i e = e ∨ ∃ a, shards_ e !! i = Some a ∧ alive e = true ∧
    ((∃ a', in_hand a' ++ tasks_ a' = in_hand a ++ tasks_ a ∧
        work i e = mkEngine (store e) (<[i := a']> (shards_ e)) (history e) true) ∨
     (∃ t r s a', worker_ a = Busy t ∧ fn t (store e) = (r, s) ∧
        in_hand a' ++ tasks_ a' = tasks_ a ∧
        work i e = mkEngine s (<[i := a']> (shards_ e)) (history e ++ [(promise t, r)])
                     (no_throw (promise t, r)))).
Proof.
  unfold work. destruct (alive e); [|by left]. cbn [negb].
  destruct (shards_ e !! i) as [a|] eqn:Ha; [|by left]. cbn.
  unfold RunLoop_step. cbn. destruct (worker_ a) as [|t|] eqn:Hw; [| |by left].
  - destruct (tasks_ a) as [|t ts] eqn:Ht.
    + destruct (running_ a); [by left|]. cbn. right. exists a. split_and!; [done..|]. left.
      eexists. rewrite drop_all, app_nil_r. split; [|reflexivity].
      unfold in_hand. cbn. by rewrite Hw, Ht.
    + cbn. right. exists a. split_and!; [done..|]. left. eexists.
      rewrite drop_all, app_nil_r. split; [|reflexivity].
      unfold in_hand. cbn. by rewrite Hw, Ht.
  - destruct (fn t (store e)) as [r s] eqn:Hfn. cbn. right. exists a. split_and!; [done..|]. right.
    exists t, r, s. eexists. rewrite drop_app_length. cbn [forallb]. rewrite andb_true_r.
    split_and!; [done..| |reflexivity]. done.
Qed.

Lemma done_snoc e s l al h :
  done_requests (mkEngine s l (history e ++ [h]) al) = done_requests e ++ [(h.1, h.2.1)].
Proof. unfold done_requests. cbn. by rewrite map_app. Qed.

Lemma on_shard_app i xs ys : on_shard i (xs ++ ys) = on_shard i xs ++ on_shard i ys.
Proof. apply filter_app. Qed.

Lemma on_shard_in i r : ShardForQueue (queue_of r.2) = i → on_shard i [r] = [r].
Proof. intros Hi. unfold on_shard. by rewrite filter_cons_True. Qed.

Lemma on_shard_out i r : ShardForQueue (queue_of r.2) ≠ i → on_shard i [r] = [].
Proof. intros Hi. unfold on_shard. by rewrite filter_cons_False. Qed.

Lemma run_task_of r s :
  fn (task_of r) s = ((r.2, (execute r.2 s).1), (execute r.2 s).2).
Proof. cbn. by destruct (execute r.2 s). Qed.

Lemma work_ok s0 reqs i e : engine_ok s0 reqs e → engine_ok s0 reqs (work i e).
Proof.
  intros Hok. destruct (work_cases i e) as [->|(a & Ha & _ & Hcases)]; [done|].
  destruct Hok as [Hlen Hrun Hshard]. destruct (Hshard i a Ha) as (waiting & Hreq & Hwait).
  assert (i < length (shards_ e))%nat as Hi by by eapply lookup_lt_Some.
  destruct Hcases as [(a' & Hsame & ->)|(t & r & s & a' & Hw & Hfn & Htasks & ->)].
  - split; cbn; [by rewrite length_insert|done|]. intros j b Hb.
    apply list_lookup_insert_Some in Hb as [(<- & <- & _)|[_ Hb]]; [|by apply Hshard].
    exists waiting. by rewrite Hsame.
  - unfold in_hand in Hwait. rewrite Hw in Hwait.
    destruct waiting as [|r0 waiting]; [done|]. injection Hwait as -> Hwait.
    assert (ShardForQueue (queue_of r0.2) = i) as Hr0.
    { assert (r0 ∈ on_shard i reqs) as Hin by (rewrite Hreq; apply elem_of_app; right; left).
      by apply list_elem_of_filter in Hin as [? _]. }
    rewrite run_task_of in Hfn. injection Hfn as <- <-.
    split; rewrite ?done_snoc; cbn [shards_ fst snd promise task_of].
    + by rewrite length_insert.
    + cbn [history store]. rewrite map_app. cbn [map]. rewrite run_tasks_snoc, Hrun.
      rewrite run_task_of. by destruct r0.
    + intros j b Hb. rewrite on_shard_app.
      rewrite <-(surjective_pairing r0).
      apply list_lookup_insert_Some in Hb as [(<- & <- & _)|[Hne Hb]].
      * exists waiting. rewrite on_shard_in, Htasks by done. by rewrite <-app_assoc.
      * destruct (Hshard j b Hb) as (w & Hj & Hjw). exists w.
        rewrite on_shard_out, app_nil_r by congruence. done.
Qed.

Lemma alter_ok s0 reqs reqs' i f e :
  engine_ok s0 reqs e →
  (∀ a waiting, shards_ e !! i = Some a → on_shard i reqs = on_shard i (done_requests e) ++ waiting →
     in_hand a ++ tasks_ a = map task_of waiting → ∃ waiting',
       on_shard i reqs' = on_shard i (done_requests e) ++ waiting' ∧
       in_hand (f a) ++ tasks_ (f a) = map task_of waiting') →
  (∀ j, j ≠ i → on_shard j reqs' = on_shard j reqs) →
  engine_ok s0 reqs' (set_shards (alter f i (shards_ e)) e).
Proof.
  intros [Hlen Hrun Hshard] Hi Hj. split; cbn; [by rewrite length_alter|done|].
  intros j b Hb. destruct (decide (j = i)) as [->|Hne].
  - rewrite list_lookup_alter, decide_True in Hb by done. apply fmap_Some in Hb as (a & Ha & ->).
    destruct (Hshard i a Ha) as (w & Hw & Hwt). by apply (Hi a w).
  - rewrite list_lookup_alter_ne in Hb by done. rewrite Hj by done. by apply Hshard.
Qed.

Lemma halt_ok s0 reqs i e : engine_ok s0 reqs e → engine_ok s0 reqs (halt i e).
Proof. intros Hok. eapply alter_ok; [done| |done]. intros a w _ Hw Ht. by exists w. Qed.

Context (Hcount : 0 < shard_count options_).

Lemma ShardForQueue_lt q : (ShardForQueue q < Z.to_nat (shard_count options_))%nat.
Proof. unfold ShardForQueue. pose proof (Z.mod_pos_bound (hash q) _ Hcount). lia. Qed.

Lemma Validate_started e :
  length (shards_ e) = Z.to_nat (shard_count options_) → ValidateShardConfig e = Good tt.
Proof.
  intros Hlen. unfold ValidateShardConfig. rewrite (proj2 (Z.eqb_neq _ _)) by lia.
  destruct (shards_ e); [|done]. cbn in Hlen. lia.
Qed.

Lemma request_ok s0 reqs r e : engine_ok s0 reqs e → engine_ok s0 (reqs ++ [r]) (request r e).2.
Proof.
  intros Hok. pose proof (Validate_started e (eo_len _ _ _ Hok)) as Hv.
  unfold request. rewrite Hv. cbn [snd]. eapply alter_ok; [done| |].
  - intros a w _ Hw Ht. exists (w ++ [r]). rewrite on_shard_app, on_shard_in by done.
    split; [by rewrite Hw, <-app_assoc|]. rewrite map_app, <-Ht, <-app_assoc. done.
  - intros j Hj. by rewrite on_shard_app, on_shard_out, app_nil_r.
Qed.

Definition started (s0 : Store) : QueueEngine := (Start (new_QueueEngine s0)).2.

Lemma started_ok s0 : engine_ok s0 [] (started s0).
Proof.
  unfold started, Start. rewrite (proj2 (Z.eqb_neq _ _)) by lia. cbn [snd].
  split; cbn; [apply length_replicate|done|].
  intros i a [-> _]%lookup_replicate. by exists [].
Qed.

Lemma requests_app xs ys : requests (xs ++ ys) = requests xs ++ requests ys.
Proof. unfold requests. by rewrite omap_app. Qed.

Lemma run_engine_ok s0 xs : engine_ok s0 (requests xs) (run_ xs (started s0)).
Proof.
  induction xs as [|x xs IH] using rev_ind; [apply started_ok|].
  unfold run_ in *. rewrite foldl_app, requests_app. cbn [foldl].
  destruct x as [r|i|i]; cbn [act_ requests omap list_omap]; rewrite ?app_nil_r.
  - by apply request_ok.
  - by apply halt_ok.
  - by apply work_ok.
Qed.

Lemma on_queue_shard q rs : on_queue q (on_shard (ShardForQueue q) rs) = on_queue q rs.
Proof.
  unfold on_queue, on_shard. rewrite list_filter_filter. apply list_filter_iff.
  intros r. split; [by intros [? _]|by intros ->].
Qed.

Lemma done_prefix s0 reqs q e :
  engine_ok s0 reqs e → on_queue q (done_requests e) `prefix_of` on_queue q reqs.
Proof.
  intros [Hlen _ Hshard]. destruct (lookup_lt_is_Some_2 (shards_ e) (ShardForQueue q)) as [a Ha].
  { rewrite Hlen. apply ShardForQueue_lt. }
  destruct (Hshard _ a Ha) as (w & Hw & _). exists (on_queue q w).
  rewrite <-(on_queue_shard q reqs), Hw, <-(on_queue_shard q (done_requests e)).
  unfold on_queue. by rewrite filter_app.
Qed.

Lemma done_submitted s0 reqs e r : engine_ok s0 reqs e → r ∈ done_requests e → r ∈ reqs.
Proof.
  intros Hok Hr. destruct (done_prefix s0 reqs (queue_of r.2) e Hok) as [l Hl].
  assert (r ∈ on_queue (queue_of r.2) reqs) as Hin.
  { rewrite Hl. apply elem_of_app. left. by apply list_elem_of_filter. }
  by apply list_elem_of_filter in Hin as [_ ?].
Qed.

(** ** Draining *)

Definition drained (a : Shard) : Prop := in_hand a ++ tasks_ a = [].

Lemma work_dead i e : alive e = false → work i e = e.
Proof. intros Hd. unfold work. by rewrite Hd. Qed.

Lemma iter_dead n i e : alive e = false → Nat.iter n (work i) e = e.
Proof. intros Hd. induction n as [|n IH]; [done|]. by rewrite Nat.iter_succ, IH, work_dead. Qed.

Lemma work_other i j e : j ≠ i → shards_ (work i e) !! j = shards_ e !! j.
Proof.
  intros Hne. destruct (work_cases i e) as [->|(a & _ & _ & [(a' & _ & ->)|(t & r & s & a' & _ & _ & _ & ->)])];
    cbn; [done|by rewrite list_lookup_insert_ne..].
Qed.

Lemma work_drained i e a :
  shards_ e !! i = Some a → drained a → ∃ a', shards_ (work i e) !! i = Some a' ∧ drained a'.
Proof.
  intros Ha Hd. pose proof (lookup_lt_Some _ _ _ Ha) as Hi. unfold drained in *.
  destruct (work_cases i e) as [->|(b & Hb & _ & Hcases)]; [by exists a|].
  rewrite Ha in Hb. injection Hb as <-.
  destruct Hcases as [(a' & Hsame & ->)|(t & r & s & a' & Hw & _)].
  - exists a'. cbn. by rewrite list_lookup_insert_eq, Hsame by done.
  - unfold in_hand in Hd. by rewrite Hw in Hd.
Qed.

Lemma iter_drained n i e a :
  shards_ e !! i = Some a → drained a →
  ∃ a', shards_ (Nat.iter n (work i) e) !! i = Some a' ∧ drained a'.
Proof.
  intros Ha Hd. induction n as [|n (a' & Ha' & Hd')]; [by exists a|].
  rewrite Nat.iter_succ. by apply (work_drained i _ a').
Qed.

(** A worker that has something to do does one step of it. *)
Lemma work_progress i e a :
  shards_ e !! i = Some a → alive e = true → worker_ a ≠ Exited → (0 < work_left a)%nat →
  ∃ a', shards_ (work i e) !! i = Some a' ∧ worker_ a' ≠ Exited ∧ (work_left a' < work_left a)%nat.
Proof.
  intros Ha Hal Hex Hl. pose proof (lookup_lt_Some _ _ _ Ha) as Hi.
  unfold work. rewrite Hal, Ha. cbn. unfold RunLoop_step. cbn. unfold work_left in *.
  destruct (worker_ a) as [|t|] eqn:Hw; [| |done].
  - destruct (tasks_ a) as [|t ts] eqn:Ht; [cbn in Hl; lia|]. cbn.
    eexists. rewrite list_lookup_insert_eq by done. split; [done|]. cbn. split; [done|lia].
  - destruct (fn t (store e)) as [r s]. cbn.
    eexists. rewrite list_lookup_insert_eq by done. split; [done|]. cbn. split; [done|lia].
Qed.

Lemma iter_drains n i e a :
  shards_ e !! i = Some a → worker_ a ≠ Exited → (work_left a <= n)%nat →
  alive (Nat.iter n (work i) e) = true →
  ∃ a', shards_ (Nat.iter n (work i) e) !! i = Some a' ∧ drained a'.
Proof.
  revert e a. induction n as [|n IH]; intros e a Ha Hex Hl Hal.
  all: destruct (decide (work_left a = 0)%nat) as [Hz|Hz].
  1,3: apply (iter_drained _ i e a); [done|]; unfold drained, in_hand, work_left in *;
    destruct (worker_ a), (tasks_ a); cbn in *; done || lia.
  - lia.
  - rewrite Nat.iter_succ_r in *. destruct (alive e) eqn:He.
    + destruct (work_progress i e a) as (a' & Ha' & Hex' & Hl'); [done..|lia|].
      apply (IH _ a'); [done..|lia|done].
    + rewrite work_dead, iter_dead in Hal by done. congruence.
Qed.

(** ** [Stop] *)

Lemma iter_other n i j e : j ≠ i → shards_ (Nat.iter n (work i) e) !! j = shards_ e !! j.
Proof. intros Hne. induction n as [|n IH]; [done|]. by rewrite Nat.iter_succ, work_other. Qed.

Lemma join_other i j e : j ≠ i → shards_ (join i e) !! j = shards_ e !! j.
Proof.
  intros Hne. unfold join. rewrite iter_other by done. cbn. by apply list_lookup_alter_ne.
Qed.

Lemma join_drains i e a :
  shards_ e !! i = Some a → worker_ a ≠ Exited → alive (join i e) = true →
  ∃ a', shards_ (join i e) !! i = Some a' ∧ drained a'.
Proof.
  intros Ha Hex Hal. unfold join in *. rewrite Ha in *. cbn [from_option] in *.
  apply (iter_drains _ i _ (ShardActor.Stop a)); [|done| |done].
  - cbn. by rewrite list_lookup_alter, decide_True, Ha.
  - unfold work_left. cbn. destruct (worker_ a); lia.
Qed.

Lemma iter_ok n s0 reqs i e : engine_ok s0 reqs e → engine_ok s0 reqs (Nat.iter n (work i) e).
Proof. intros Hok. induction n as [|n IH]; [done|]. rewrite Nat.iter_succ. by apply work_ok. Qed.

Lemma join_ok s0 reqs i e : engine_ok s0 reqs e → engine_ok s0 reqs (join i e).
Proof. intros Hok. by apply iter_ok, halt_ok. Qed.

Lemma join_alive i e : alive (join i e) = true → alive e = true.
Proof.
  intros Hal. destruct (alive e) eqn:He; [done|]. unfold join in Hal.
  rewrite iter_dead in Hal by done. cbn in Hal. congruence.
Qed.

(** Joining the shards one after the other drains them all. *)
Lemma joins_drain k s0 reqs e :
  engine_ok s0 reqs e → (∀ i a, shards_ e !! i = Some a → worker_ a ≠ Exited) →
  let e' := foldl (λ e i, join i e) e (seq 0 k) in
  engine_ok s0 reqs e' ∧
  (alive e' = true →
   (∀ i a, shards_ e' !! i = Some a → if decide (i < k)%nat then drained a else worker_ a ≠ Exited)).
Proof.
  intros Hok Hex. induction k as [|k IH]; cbv zeta; [done|].
  rewrite seq_S, foldl_app. cbn [foldl Nat.add].
  set (e1 := foldl _ _ (seq 0 k)) in *. destruct IH as [Hok1 Hsh1].
  split; [by apply join_ok|]. intros Hal i a Ha. specialize (Hsh1 (join_alive _ _ Hal)).
  destruct (decide (i = k)) as [->|Hne].
  - rewrite decide_True by lia. destruct (shards_ e1 !! k) as [b|] eqn:Hb.
    + pose proof (Hsh1 k b Hb) as Hbex. rewrite decide_False in Hbex by lia.
      destruct (join_drains k e1 b Hb Hbex Hal) as (a' & Ha' & Hd). congruence.
    + apply lookup_ge_None in Hb. apply lookup_lt_Some in Ha.
      rewrite (eo_len _ _ _ (join_ok _ _ k _ Hok1)), <-(eo_len _ _ _ Hok1) in Ha. lia.
  - rewrite join_other in Ha by done. specialize (Hsh1 i a Ha).
    repeat case_decide; first [done|lia].
Qed.

(** Until a shard is told to stop, its worker stays. *)
Definition no_halt (x : step_) : bool := match x with SHalt _ => false | _ => true end.

Definition awake (a : Shard) : Prop := running_ a = true ∧ worker_ a ≠ Exited.

Lemma RunLoop_awake s a a' :
  awake a → RunLoop_step (with_shared s a) = Some a' → awake a'.
Proof.
  intros [Hr Hw]. unfold RunLoop_step. cbn. destruct (worker_ a) as [|t|]; [| |done].
  - rewrite Hr. destruct (tasks_ a); [done|]. by intros [= <-].
  - destruct (fn t s). by intros [= <-].
Qed.

Lemma run_awake s0 xs :
  forallb no_halt xs = true → Forall awake (shards_ (run_ xs (started s0))).
Proof.
  induction xs as [|x xs IH] using rev_ind; intros Hxs.
  - unfold started, Start. rewrite (proj2 (Z.eqb_neq _ _)) by lia. by apply Forall_replicate.
  - rewrite forallb_app in Hxs. apply andb_true_iff in Hxs as [Hxs Hx].
    specialize (IH Hxs). unfold run_ in *. rewrite foldl_app. cbn [foldl].
    set (e := foldl _ _ xs) in *. destruct x as [r|i|i]; cbn [act_]; [|done|].
    + unfold request. destruct (ValidateShardConfig e); [|done..]. cbn. by apply Forall_alter.
    + unfold work. destruct (alive e); [|done]. cbn [negb].
      destruct (shards_ e !! i) as [a|] eqn:Ha; [|done]. cbn.
      destruct (RunLoop_step _) as [a'|] eqn:Hstep; [|done]. cbn.
      apply Forall_insert; [done|]. apply (RunLoop_awake (store e) a); [|done].
      by eapply Forall_lookup_1.
Qed.
End api.

(** ** Properties *)

(** C30. Whatever the interleaving of clients, worker threads and stops, the requests
    that were answered are an execution of the operations one after the other,
    from the initial store, with exactly the results and the store that this
    sequential execution has; and for every queue the answered requests are the
    oldest submitted ones, in the order of their submission: a later request on
    a queue never overtakes an earlier one, whatever the hash function and the
    number of shards. *)
Theorem requests_serialised `{Env} options_ hash s0 xs :
  0 < shard_count options_ →
  let e := run_ options_ hash xs (started options_ s0) in
  run_tasks (map (task_of options_) (done_requests e)) s0 = (history e, store e) ∧
  ∀ q, on_queue q (done_requests e) `prefix_of` on_queue q (requests xs).
Proof.
  intros Hcount. cbv zeta. pose proof (run_engine_ok options_ hash Hcount s0 xs) as Hok. split.
  - by destruct Hok.
  - intros q. by apply (done_prefix options_ hash Hcount s0).
Qed.

(** C31. [Stop] loses no request: when no shard was stopped before and no task ends
    the process, after [Stop] there is no shard left and every request that was
    submitted has been executed, on every queue in the order of submission, and
    the store is the one of that sequential execution. *)
Theorem stop_completes_requests `{Env} options_ hash s0 xs :
  0 < shard_count options_ → forallb no_halt xs = true →
  let e := Stop (run_ options_ hash xs (started options_ s0)) in
  alive e = true →
  shards_ e = [] ∧
  run_tasks (map (task_of options_) (done_requests e)) s0 = (history e, store e) ∧
  ∀ q, on_queue q (done_requests e) = on_queue q (requests xs).
Proof.
  intros Hcount Hxs. cbv zeta. set (e := run_ _ _ _ _). intros Hal.
  pose proof (run_awake options_ hash Hcount s0 xs Hxs) as Hawake. fold e in Hawake.
  destruct (joins_drain options_ hash (length (shards_ e)) s0 (requests xs) e) as [Hok Hdr].
  { by apply run_engine_ok. }
  { intros i a Ha. apply (Forall_lookup_1 _ _ _ _ Hawake Ha). }
  unfold Stop. set (e' := foldl _ _ _) in *. split; [done|]. split; [by destruct Hok|].
  intros q. change (done_requests (set_shards [] e')) with (done_requests e').
  assert (ShardForQueue options_ hash q < length (shards_ e'))%nat as [a Ha]%lookup_lt_is_Some_2.
  { rewrite (eo_len _ _ _ _ _ Hok). by apply ShardForQueue_lt. }
  pose proof (Hdr Hal _ a Ha) as Hd. rewrite decide_True in Hd.
  2:{ unfold e. rewrite (eo_len _ _ _ _ _ (run_engine_ok options_ hash Hcount s0 xs)).
      by apply ShardForQueue_lt. }
  destruct (eo_shard _ _ _ _ _ Hok _ a Ha) as (w & Hw & Hnil).
  rewrite Hd in Hnil. destruct w; [|done].
  by rewrite <-(on_queue_shard options_ hash q (requests xs)), Hw, app_nil_r, on_queue_shard.
Qed.

(** Two shards; a client creates a queue and produces to it, and consumes from
    a queue that does not exist; nobody worked before [Stop]. *)
Section examples.
#[local] Existing Instance demo_env.

Definition two_shards : EngineOptions :=
  mkOptions "/d" 2 kAlways 100 10000 5 30000 1000 100 86400000 67108864.

Definition demo_hash (q : string) : Z := Z.of_nat (String.length q).

Definition demo_steps : list step_ :=
  [SRequest (0%nat, OpCreateQueue "q"); SRequest (1%nat, OpConsume "mail" "g"); SWork 1;
   SRequest (2%nat, OpProduce "q" (mkMessage (mkId 3 4) 6 [Byte.x02] ∅ "k"))].

Lemma requests_serialised_witness :
let e := run_ two_shards demo_hash demo_steps
           (started two_shards (empty_world, ∅)) in
on_queue "q" (done_requests e) `prefix_of` on_queue "q" (requests demo_steps).
Proof.
apply (requests_serialised two_shards demo_hash (empty_world, ∅) demo_steps).
vm_compute. reflexivity.
Defined.

Lemma stop_completes_requests_witness :
let e := Stop (run_ two_shards demo_hash demo_steps
           (started two_shards (empty_world, ∅))) in
alive e = true ∧ map fst (on_queue "q" (done_requests e)) = [0%nat; 2%nat].
Proof.
assert (alive (Stop (run_ two_shards demo_hash demo_steps
  (started two_shards (empty_world, ∅)))) = true) as Hal.
{ vm_compute. reflexivity. }
split; [exact Hal|].
destruct (stop_completes_requests two_shards demo_hash (empty_world, ∅) demo_steps
  ltac:(vm_compute; reflexivity) ltac:(reflexivity) Hal) as (_ & _ & Hq).
refine (eq_trans (f_equal (map fst) (Hq "q")) _). vm_compute. reflexivity.
Defined.
End examples.
