(* ===== verification/Isolation.v ===== *)
(** * Which files an operation can touch

    For every state and every environment, with no assumption on what the
    files hold: an operation of the engine changes no file but those of the
    group or the log it is called for.  The frames of the primitive calls are
    combined along the structure of the code; plain names (no slash) then
    give different queues and groups different files. *)
From S2P Require Import Prelude Decimal Status Io DurableIo Record SegmentLog Checkpoint Message EventLog.
From S2P Require Import Group Lifecycle Handlers HandlerSpecs Engine Recovery EngineSpecs ShardActor EngineApi.

(** ** Frames *)

(** States that contain a file system. *)
Class HasFiles (S : Type) := files_of : S → gmap string (list byte).
#[global] Instance World_files : HasFiles World := files.
#[global] Instance pair_files {S T : Type} `{HasFiles S} : HasFiles (S * T) := λ s, files_of s.1.

(** From every state with [I], the call changes at most the files of [own] and
    keeps [I]; a value it returns satisfies [R]. *)
Definition frames {S : Type} `{HasFiles S} (I : S → Prop) (own : string → Prop) {A} (m : M S A)
    (R : A → Prop) : Prop :=
  ∀ s, I s → wp m (λ o s', I s' ∧ (∀ p, ¬ own p → files_of s' !! p = files_of s !! p) ∧
                           match o with Good a => R a | _ => True end) s.

Definition always {A} : A → Prop := λ _, True.
Abbreviation touches own m := (frames always own m always).

Create HintDb frames discriminated.

Section rules.
Context {S : Type} `{HasFiles S}.
Context (I : S → Prop) (own : string → Prop).
Implicit Types A B : Type.

Lemma frames_bind {A B} (m : M S A) (f : A → M S B) R R' :
  frames I own m R → (∀ a, R a → frames I own (f a) R') → frames I own (bind m f) R'.
Proof.
  intros Hm Hf s Hs. apply wp_bind. eapply wp_mono; [by apply Hm|].
  intros [a|e|e] s1 (Hs1 & Hk & HR); [|done..].
  eapply wp_mono; [by apply Hf|]. intros o s2 (Hs2 & Hk2 & HR2). split_and!; [done| |done].
  intros p Hp. by rewrite Hk2, Hk.
Qed.

Lemma frames_then {A B} (m : M S A) (f : A → M S B) R :
  frames I own m always → (∀ a, frames I own (f a) R) → frames I own (bind m f) R.
Proof. intros Hm Hf. by eapply frames_bind. Qed.

Lemma frames_mono {A} (m : M S A) (own' : string → Prop) (R R' : A → Prop) :
  frames I own m R → (∀ p, own p → own' p) → (∀ a, R a → R' a) → frames I own' m R'.
Proof.
  intros Hm Hown HR s Hs. eapply wp_mono; [by apply Hm|]. intros o s' (? & Hk & Ho).
  split_and!; [done|by auto|]. destruct o; auto.
Qed.

Lemma frames_still {A} (m : M S A) R :
  (∀ s, (m s).2 = s ∧ match (m s).1 with Good a => R a | _ => True end) → frames I own m R.
Proof. intros Hm s Hs. unfold wp. destruct (Hm s) as [-> ?]. done. Qed.

Lemma frames_ret {A} (a : A) (R : A → Prop) : R a → frames I own (ret a) R.
Proof. intros HR. by apply frames_still. Qed.

Lemma frames_fail {A} c msg (R : A → Prop) : frames I own (fail c msg) R.
Proof. by apply frames_still. Qed.

Lemma frames_throw {A} what (R : A → Prop) : frames I own (throw what) R.
Proof. by apply frames_still. Qed.

Lemma frames_raise {A} e (R : A → Prop) : frames I own (λ s, (Fail e, s)) R.
Proof. by apply frames_still. Qed.

Lemma frames_get : frames I own get always.
Proof. by apply frames_still. Qed.

Lemma frames_gets {T} (f : S → T) : frames I own (gets f) always.
Proof. by apply frames_still. Qed.

Lemma frames_lift {A} (o : outcome A) : frames I own (lift_outcome o) always.
Proof. apply frames_still. intros s. split; [done|]. by destruct o. Qed.

Lemma frames_attempt {A} (m : M S A) : frames I own m always → frames I own (attempt m) always.
Proof.
  intros Hm s Hs. apply wp_attempt. eapply wp_mono; [by apply Hm|].
  by intros [] s' (? & ? & ?).
Qed.

Lemma frames_run {A} (m : M S A) R s o s' :
  frames I own m R → m s = (o, s') → I s → I s' ∧ ∀ p, ¬ own p → files_of s' !! p = files_of s !! p.
Proof. intros Hm Hrun Hs. by apply (wp_intro _ _ _ _ _ (Hm s Hs)) in Hrun as (? & ? & _). Qed.
End rules.

Lemma frames_on_fst {S T A : Type} `{HasFiles S} own (m : M S A) (R : A → Prop) :
  frames always own m R → frames (S := S * T) always own (on_fst m) R.
Proof.
  intros Hm [s t] _. apply wp_on_fst. eapply wp_mono; [by apply Hm|].
  intros o s' (_ & Hk & HR). by split_and!.
Qed.

Lemma frames_on_snd {S T A : Type} `{HasFiles S} own (m : M T A) :
  frames (S := S * T) always own (on_snd m) always.
Proof.
  intros [s t] _. apply wp_on_snd. apply wp_elim. intros o t' _. split_and!; [done|done|].
  by destruct o.
Qed.

#[export] Hint Resolve frames_ret frames_fail frames_throw frames_raise frames_get frames_gets
  frames_lift frames_on_snd : frames.
#[export] Hint Extern 0 (always _) => exact I : frames.
#[export] Hint Extern 0 (_ = _) => reflexivity : frames.

(** One call of the code. *)
Ltac frame_step :=
  first [ solve [apply frames_ret; done]
        | solve [eauto 2 with frames]
        | apply frames_then; [|intros ?]
        | apply frames_attempt
        | apply frames_on_fst
        | case_match ].

Ltac frame := repeat frame_step.

(** ** The primitive calls *)

Section primitives.
Context `{Env}.

Lemma frames_insert path own (f : World → list byte) :
  own path → touches own (modify (λ w, set_files (insert path (f w)) w)).
Proof.
  intros Hown w _. apply wp_modify. split_and!; [done| |done]. intros p Hp. cbn.
  apply lookup_insert_ne. by intros ->.
Qed.

Lemma frames_syscall own : touches own syscall.
Proof. by intros w _. Qed.

Lemma frames_now own : touches own now.
Proof. by intros w _. Qed.

Lemma frames_traverse own `{Countable K} {A} (m : gmap K A) : touches own (traverse m).
Proof. by intros w _. Qed.
#[local] Hint Resolve frames_insert frames_syscall frames_now frames_traverse : frames.

Lemma frames_call_ok own : touches own call_ok.
Proof. unfold call_ok. frame. Qed.
#[local] Hint Resolve frames_call_ok : frames.

Lemma frames_create_directories own : touches own create_directories.
Proof. unfold create_directories. frame. Qed.

Lemma frames_allocate own n : touches own (allocate n).
Proof. unfold allocate. frame. Qed.

Lemma frames_exists own path : touches own (exists_ path).
Proof. unfold exists_. frame. Qed.

Lemma frames_open_in own path : touches own (open_in path).
Proof. unfold open_in. frame. Qed.

Lemma frames_FsyncFile own b : touches own (FsyncFile b).
Proof. unfold FsyncFile. frame. Qed.

Lemma frames_FsyncDir own : touches own FsyncDir.
Proof. unfold FsyncDir. frame. Qed.
#[local] Hint Resolve frames_create_directories frames_allocate frames_exists frames_open_in
  frames_FsyncFile frames_FsyncDir : frames.

Lemma frames_rename (own : string → Prop) tmp final :
  own tmp → own final → touches own (rename tmp final).
Proof.
  intros Htmp Hfinal. unfold rename. apply frames_then; [frame|]. intros b.
  apply frames_then; [frame|]. intros w.
  case_match; [|frame]. frame_step; [|frame]. intros w1 _. apply wp_modify.
  split_and!; [done| |done]. intros p Hp. cbn.
  rewrite lookup_insert_ne by (by intros ->). apply lookup_delete_ne. by intros ->.
Qed.

(** *** Streams: they keep their path *)

Definition on_path (path : string) (out : ofstream) : Prop := o_path out = path.

Lemma frames_open_out (own : string → Prop) trunc path :
  own path →
  frames always own (open_out trunc path)
    (λ r, match r with Some out => on_path path out | None => True end).
Proof. intros Hown. unfold open_out. frame. Qed.

Lemma frames_append_file (own : string → Prop) path data : own path → touches own (append_file path data).
Proof. intros Hown. unfold append_file. frame. Qed.
#[local] Hint Resolve frames_append_file : frames.

Lemma frames_stream_write (own : string → Prop) path out data :
  own path → on_path path out → frames always own (stream_write out data) (on_path path).
Proof. intros Hown <-. unfold stream_write, on_path. frame. Qed.

Lemma frames_flush (own : string → Prop) path out :
  own path → on_path path out → frames always own (flush out) (on_path path).
Proof. intros Hown <-. unfold flush, on_path. frame. Qed.

Lemma frames_close (own : string → Prop) path out :
  own path → on_path path out → touches own (close out).
Proof. intros Hown Hout. unfold close. eapply frames_bind; [by apply frames_flush|]. intros. frame. Qed.
End primitives.

#[export] Hint Resolve frames_insert frames_syscall frames_now frames_traverse frames_call_ok
  frames_create_directories frames_allocate frames_exists frames_open_in frames_FsyncFile
  frames_FsyncDir frames_append_file : frames.

(** ** A group's operations *)

(** The files of a group. *)
Definition group_files (options_ : EngineOptions) (q g : string) (p : string) : Prop :=
  p = GroupEventPath options_ q g ∨ p = GroupStatePath options_ q g ∨
  p = GroupStatePath options_ q g +:+ ".tmp".

Section group.
Context `{Env}.
Context (options_ : EngineOptions) (queue_name group_id : string).

Abbreviation own := (group_files options_ queue_name group_id).

Lemma frames_DurableRename (own' : string → Prop) tmp final policy :
  own' tmp → own' final → touches own' (DurableRename tmp final policy).
Proof.
  intros Htmp Hfinal. unfold DurableRename. pose proof (frames_rename own' tmp final Htmp Hfinal).
  frame.
Qed.

Lemma frames_DurableWriteFile (own' : string → Prop) path gen msg policy :
  own' path → own' (path +:+ ".tmp") → touches own' gen →
  touches own' (DurableWriteFile path (computed_writer gen msg) policy).
Proof.
  intros Hpath Htmp Hgen. unfold DurableWriteFile. apply frames_then; [frame|]. intros _.
  eapply frames_bind; [by apply frames_open_out|]. intros [out|] Hout; [|frame].
  eapply (frames_bind _ _ _ _ (λ r, on_path (path +:+ ".tmp") r.1)).
  { unfold computed_writer, block_writer. apply frames_then; [done|]. intros data.
    eapply frames_bind; [by eapply frames_stream_write|]. intros out' Hout'. by apply frames_ret. }
  intros [out' st] Hout'. cbn in Hout'. destruct st as [e|].
  { apply frames_then; [by eapply frames_close|]. intros _. frame. }
  eapply frames_bind; [by apply frames_flush|]. intros out2 Hout2. case_match.
  - apply frames_then; [by eapply frames_close|]. intros _. frame.
  - apply frames_then; [by eapply frames_close|]. intros _. by apply frames_DurableRename.
Qed.

Lemma frames_PersistGroupState : touches own (PersistGroupState options_ queue_name group_id).
Proof.
  unfold PersistGroupState. frame_step; [frame|]. apply frames_then; [frame|]. intros g.
  apply frames_on_fst, frames_DurableWriteFile; [by right; left|by right; right|frame].
Qed.

Lemma frames_InitScheduler own' : touches own' (InitScheduler options_).
Proof. unfold InitScheduler. frame. Qed.
#[local] Hint Resolve frames_InitScheduler : frames.

Lemma frames_ApplyTransition own' e : touches own' (ApplyTransition options_ e).
Proof. unfold ApplyTransition, ScheduleInflight. frame. Qed.
#[local] Hint Resolve frames_ApplyTransition : frames.

Lemma frames_AppendTransition e : touches own (AppendTransition options_ queue_name group_id e).
Proof.
  assert (own (GroupEventPath options_ queue_name group_id)) as Hown by by left.
  unfold AppendTransition. apply frames_then; [frame|]. intros _. case_match; [frame|].
  eapply frames_bind; [by apply frames_on_fst, frames_open_out|]. intros [out|] Hout; [|frame].
  eapply frames_bind; [by eapply frames_on_fst, frames_stream_write|]. intros out1 Hout1.
  pose proof (λ o H, frames_close own _ o Hown H) as Hclose.
  case_match; [apply frames_then; [by apply frames_on_fst, Hclose|]; intros _; frame|].
  eapply frames_bind; [by eapply frames_on_fst, frames_flush|]. intros out2 Hout2.
  case_match; [apply frames_then; [by apply frames_on_fst, Hclose|]; intros _; frame|].
  apply frames_then; [frame|]. intros _. by apply frames_on_fst, Hclose.
Qed.

Lemma frames_BuildReadyQueue own' : touches own' BuildReadyQueue.
Proof. unfold BuildReadyQueue. frame. Qed.

Lemma frames_take_sequence own' : touches own' take_sequence.
Proof. unfold take_sequence. frame. Qed.
#[local] Hint Resolve frames_PersistGroupState frames_AppendTransition frames_BuildReadyQueue
  frames_take_sequence : frames.

Lemma frames_reap_bucket t bucket : touches own (reap_bucket options_ queue_name group_id t bucket).
Proof.
  induction bucket as [|id bucket IH]; [frame|]. apply frames_then; [|done]. unfold reap_id. frame.
Qed.

Lemma frames_reap_ticks fuel t now_tick :
  touches own (reap_ticks options_ queue_name group_id fuel t now_tick).
Proof.
  pose proof frames_reap_bucket.
  induction fuel as [|fuel IH]; cbn [reap_ticks]; frame.
Qed.

Lemma frames_Reap : touches own (ReapExpiredInflight options_ queue_name group_id).
Proof. pose proof frames_reap_ticks. unfold ReapExpiredInflight. frame. Qed.
#[local] Hint Resolve frames_Reap : frames.

Lemma frames_pread own' path size position : touches own' (pread path size position).
Proof. unfold pread. frame. Qed.
#[local] Hint Resolve frames_pread : frames.

Lemma frames_kv_scan own' path n cursor size : touches own' (kv_scan path n cursor size).
Proof. revert cursor size; induction n as [|n IH]; intros cursor size; cbn [kv_scan]; frame. Qed.
#[local] Hint Resolve frames_kv_scan : frames.

Lemma frames_Read own' seg off : touches own' (Read seg off).
Proof. unfold Read, ReadAt. frame. Qed.
#[local] Hint Resolve frames_Read : frames.

Lemma frames_ConsumeGroup seg : touches own (ConsumeGroup options_ queue_name group_id seg).
Proof. unfold ConsumeGroup, deliver, find_runtime. frame. Qed.

Lemma frames_AckGroup id : touches own (AckGroup options_ queue_name group_id id).
Proof. unfold AckGroup, leased. frame. Qed.

Lemma frames_NackGroup id b : touches own (NackGroup options_ queue_name group_id id b).
Proof. unfold NackGroup, leased, nack_event. frame. Qed.

Lemma frames_StatsGroup : touches own (StatsGroup options_ queue_name group_id).
Proof. unfold StatsGroup. frame. Qed.

Lemma frames_InspectGroup own' id : touches own' (InspectGroup id).
Proof. unfold InspectGroup. frame. Qed.

Lemma frames_LoadTransitions own' path max : touches own' (LoadTransitions path max).
Proof. unfold LoadTransitions. frame. Qed.

Lemma frames_load_snapshot own' path next rts : touches own' (load_snapshot path next rts).
Proof. unfold load_snapshot. frame. Qed.

Lemma frames_read_messages own' seg offsets m : touches own' (read_messages seg offsets m).
Proof. revert m; induction offsets; intros m; cbn [read_messages]; frame. Qed.

Lemma frames_replay_events own' es : touches own' (replay_events options_ es).
Proof. induction es; cbn [replay_events]; frame. Qed.

Lemma frames_replay_messages own' seg offsets : touches own' (replay_messages seg offsets).
Proof. induction offsets; cbn [replay_messages]; frame. Qed.

Lemma frames_apply_all own' es : touches own' (apply_all options_ es).
Proof. induction es; cbn [apply_all]; frame. Qed.
#[local] Hint Resolve frames_LoadTransitions frames_load_snapshot frames_read_messages
  frames_replay_events frames_replay_messages frames_apply_all : frames.

(** Loading and replaying only read. *)
Lemma frames_LoadGroupState own' seg : touches own' (LoadGroupState options_ queue_name group_id seg).
Proof. unfold LoadGroupState. frame. Qed.

Lemma frames_ReplayGroup own' n seg : touches own' (ReplayGroup options_ queue_name group_id n seg).
Proof. unfold ReplayGroup. frame. Qed.
End group.

(** ** A log's operations *)

Section log.
Context `{Env}.
Context (path : string).

Abbreviation at_path := (λ s : World * SegmentLog, path_ s.2 = path).
Abbreviation log_frames m := (frames at_path (eq path) m always).

Lemma frames_on_world {A} (m : W A) : touches (eq path) m → log_frames (on_fst m).
Proof.
  intros Hm [w s] Hs. apply wp_on_fst. eapply wp_mono; [by apply Hm|].
  intros o s' (_ & Hk & HR). by split_and!.
Qed.

Lemma frames_on_index (f : SegmentLog → SegmentLog) :
  (∀ s, path_ (f s) = path_ s) → log_frames (on_snd (modify f)).
Proof. intros Hf [w s] Hs. apply wp_modify_snd. split_and!; [|done..]. cbn. by rewrite Hf. Qed.

(** The file at the log's path is stored, and the log keeps its path. *)
Lemma frames_store (f : World * SegmentLog → World * SegmentLog) :
  (∀ w s, path_ (f (w, s)).2 = path_ s ∧
     ∀ p, p ≠ path_ s → files (f (w, s)).1 !! p = files w !! p) → log_frames (modify f).
Proof.
  intros Hf [w s] Hs. cbn in Hs. destruct (Hf w s) as [Hp Hk]. apply wp_modify. cbn.
  split_and!; [by rewrite Hp|..|done]. intros p Hne. apply Hk. by rewrite Hs.
Qed.

Ltac log_frame :=
  repeat first [ frame_step | apply frames_on_world | apply frames_on_index; by intros
               | apply frames_store; intros ? ?; cbn; split; [done|];
                 intros ? ?; cbn; rewrite ?lookup_insert_ne by done; done ].

Lemma frames_Open : log_frames Open.
Proof. unfold Open. log_frame. Qed.

Lemma frames_Append r : log_frames (Append r).
Proof.
  assert (∀ data, log_frames (write_fd data)) as Hwrite.
  { intros data. unfold write_fd. apply frames_then; [log_frame|]. intros a.
    apply frames_then; [|intros _; log_frame]. destruct a; log_frame. }
  assert (∀ fuel data, log_frames (write_loop fuel data)) as Hloop.
  { intros fuel. induction fuel as [|fuel IH]; intros [|b data]; cbn [write_loop]; log_frame. }
  unfold Append, WriteAll. log_frame.
Qed.
Lemma frames_ftruncate position : touches (eq path) (ftruncate path position).
Proof. unfold ftruncate. frame. Qed.

Lemma frames_this_log : frames at_path (eq path) (gets snd) (λ s, path_ s = path).
Proof. intros [w s] Hs. by apply wp_gets. Qed.

Lemma frames_recover_loop fuel position : log_frames (recover_loop fuel position).
Proof.
  pose proof frames_ftruncate as Hcut. pose proof frames_pread as Hread. pose proof frames_kv_scan as Hkv.
  revert position; induction fuel as [|fuel IH]; intros position; cbn [recover_loop]; [log_frame|].
  eapply frames_bind; [apply frames_this_log|]. intros s Hs. rewrite Hs.
  apply frames_then; [by apply frames_on_world|]. intros [data|]; [|log_frame].
  repeat (case_match; [log_frame|]). apply frames_then; [by apply frames_on_world|].
  intros [size|]; [|log_frame]. apply frames_then; [log_frame|]. intros _.
  apply frames_then; [by apply frames_on_world|]. intros total. log_frame.
Qed.

Lemma frames_Recover : log_frames Recover.
Proof.
  pose proof frames_recover_loop. unfold Recover. apply frames_then; [frame|]. intros [w s].
  case_match; [|log_frame]. apply frames_then; [log_frame|]. intros _. done.
Qed.
End log.

(** ** The engine's operations *)

Section engine.
Context `{Env}.
Context (options_ : EngineOptions).

(** Every log of the table is the one of its queue. *)
Definition located (s : World * Queues) : Prop :=
  map_Forall (λ q st, path_ (segment st) = SegmentPath options_ q) s.2.

Definition same_logs (qs qs' : Queues) : Prop := ∀ q, find_segment qs' q = find_segment qs q.

Lemma located_insert w w' qs q st :
  located (w, qs) → path_ (segment st) = SegmentPath options_ q → located (w', <[q := st]> qs).
Proof. intros Hl Hp. by apply map_Forall_insert_2. Qed.

Lemma frames_GetGroup own q g : frames located own (GetGroup options_ q g) always.
Proof.
  intros [w qs] Hl. apply wp_GetGroup; [done|done|].
  intros st o w' g' Hst _ Hrun.
  apply (frames_run _ own) with (1 := frames_LoadGroupState options_ q g own (segment st)) in Hrun
    as [_ Hk]; [|done].
  split_and!; [|done|by destruct o]. destruct o as [[]|e|e]; [|done..].
  apply (located_insert w); [done|]. by apply (Hl q st).
Qed.

Lemma frames_on_group {A} own q g (m : SegmentLog → GroupM A) :
  (∀ seg, touches own (m seg)) → frames located own (on_group options_ q g m) always.
Proof.
  intros Hm. unfold on_group. apply frames_then; [apply frames_GetGroup|]. intros _ [w qs] Hl.
  unfold wp. cbn [fst snd]. destruct (qs !! q) as [st|] eqn:Hst; [|done].
  destruct (groups st !! g) as [gr|] eqn:Hg; [|done].
  destruct (m (segment st) (w, gr)) as [o [w' gr']] eqn:Hrun.
  apply (frames_run _ own) with (1 := Hm (segment st)) in Hrun as [_ Hk]; [|done]. cbn [fst snd].
  split_and!; [|exact Hk|by destruct o]. apply (located_insert w); [done|]. by apply (Hl q st).
Qed.

Lemma frames_CreateQueue q : frames located (eq (SegmentPath options_ q)) (CreateQueueOnShard options_ q)
  always.
Proof.
  intros [w qs] Hl. unfold CreateQueueOnShard, wp. cbn [fst snd].
  destruct (qs !! q) as [st|] eqn:Hst; [done|].
  destruct ((do! Open in Recover) _) as [o [w' seg]] eqn:Hrun.
  assert (frames (λ s : World * SegmentLog, path_ s.2 = SegmentPath options_ q)
            (eq (SegmentPath options_ q)) (do! Open in Recover) always) as Hf.
  { apply frames_then; [apply frames_Open|]. intros _. apply frames_Recover. }
  apply (frames_run _ _ _ _ _ _ _ Hf) in Hrun as [Hp Hk]; [|done]. cbn [fst snd].
  split_and!; [|exact Hk|by destruct o]. destruct o; [|done..]. by apply (located_insert w).
Qed.

Lemma frames_GetQueue own q :
  frames located own (GetQueue q) (λ st, path_ (segment st) = SegmentPath options_ q).
Proof.
  intros [w qs] Hl. unfold GetQueue. apply wp_bind, wp_gets_snd.
  destruct (qs !! q) as [st|] eqn:Hst; [|by apply wp_fail]. apply wp_ret. split_and!; [done..|].
  by apply (Hl q st).
Qed.

Lemma frames_Produce q m :
  frames located (eq (SegmentPath options_ q)) (ProduceOnShard options_ q m) always.
Proof.
  unfold ProduceOnShard. eapply frames_bind; [apply frames_GetQueue|]. intros st Hp. cbn beta in Hp.
  case_match; [frame|]. apply frames_then.
  { intros [w qs] Hl. apply wp_on_fst.
    assert (touches (eq (SegmentPath options_ q)) (SizeBytes (segment st))) as Hs
      by (unfold SizeBytes; frame).
    eapply wp_mono; [by apply Hs|]. intros o w' (_ & Hk & _). split_and!; [done..|by destruct o]. }
  intros size. case_match; [frame|]. intros [w qs] Hl. unfold wp. cbn [fst snd].
  destruct (Append (record_of m) (w, segment st)) as [o [w' seg]] eqn:Hrun.
  apply (frames_run _ _ _ _ _ _ _ (frames_Append (SegmentPath options_ q) (record_of m))) in Hrun as [Hp'
    Hk]; [|done].
  cbn [fst snd].
  split_and!; [|exact Hk|by destruct o]. by apply (located_insert w).
Qed.

Lemma frames_Replay own q g n : frames located own (ReplayToSequenceOnShard options_ q g n) always.
Proof.
  unfold ReplayToSequenceOnShard. eapply frames_bind; [apply frames_GetQueue|]. intros st _ [w qs] Hl.
  apply wp_on_fst. unfold wp.
  destruct (ReplayGroup _ _ _ _ _ _) as [o [w' g']] eqn:Hrun.
  apply (frames_run _ own) with (1 := frames_ReplayGroup options_ q g own n (segment st)) in Hrun
    as [_ Hk]; [|done]. cbn [fst snd]. split_and!; [done|exact Hk|by destruct o].
Qed.

(** The files an operation may change. *)
Definition op_files (op : Op) (p : string) : Prop :=
  match op with
  | OpCreateQueue q | OpProduce q _ => SegmentPath options_ q = p
  | OpConsume q g | OpAck q g _ | OpNack q g _ _ | OpGetStats q g => group_files options_ q g p
  | OpInspectMessage _ _ _ | OpReplayToSequence _ _ _ => False
  end.

Lemma frames_execute op : frames located (op_files op) (execute options_ op) always.
Proof.
  destruct op as [q|q m|q g|q g id|q g id b|q g|q g id|q g n]; cbn [execute];
    (apply frames_then; [|frame]); cbn [op_files].
  - apply frames_CreateQueue.
  - apply frames_Produce.
  - apply frames_on_group. intros. apply frames_ConsumeGroup.
  - apply frames_on_group. intros. apply frames_AckGroup.
  - apply frames_on_group. intros. apply frames_NackGroup.
  - apply frames_on_group. intros. apply frames_StatsGroup.
  - apply frames_on_group. intros. apply frames_InspectGroup.
  - apply frames_Replay.
Qed.

(** A sequence of requests changes only the files of its operations. *)
Lemma tasks_files rs s p :
  located s → (∀ r, r ∈ rs → ¬ op_files r.2 p) →
  files (run_tasks (map (task_of options_) rs) s).2.1 !! p = files s.1 !! p.
Proof.
  intros Hl Hrs. cut (located (run_tasks (map (task_of options_) rs) s).2 ∧
    files (run_tasks (map (task_of options_) rs) s).2.1 !! p = files s.1 !! p); [by intros []|].
  induction rs as [|r rs IH] using rev_ind; [done|].
  destruct IH as [Hl' Hk]. { intros r' Hr'. apply Hrs, elem_of_app. by left. }
  rewrite map_app. cbn [map]. rewrite run_tasks_snoc.
  destruct (run_tasks _ s) as [hs s1]. cbn [fst snd] in *. rewrite run_task_of. cbn [snd].
  destruct (frames_execute r.2 s1 Hl') as (Hl2 & Hk2 & _). split; [done|].
  rewrite <-Hk. apply Hk2, Hrs, elem_of_app. right. by apply list_elem_of_singleton.
Qed.
End engine.

(** ** Different names, different files *)

(** A name that can be a file name: no slash in it. *)
Definition plain (name : string) : Prop := Byte.x2f ∉ bytes_of_string name.
#[global] Instance plain_dec name : Decision (plain name).
Proof. unfold plain. apply _. Defined.

Lemma plain_prefix name : plain name → String.prefix "/" name = false.
Proof.
  intros Hp. destruct name as [|c name]; [done|]. cbn [String.prefix].
  case_match; [|done]. subst. destruct Hp. left.
Qed.

Lemma plain_app s t : plain s → plain t → plain (s +:+ t).
Proof. unfold plain. rewrite bytes_of_string_app, elem_of_app. tauto. Qed.

Lemma queue_path dir :
  ∃ c, ∀ q f, plain q → q ≠ "" → plain f →
    path_join (path_join dir q) f = c +:+ q +:+ "/" +:+ f.
Proof.
  destruct (path_join_suffix dir "") as [c Hc]. exists c. intros q f Hq Hne Hf.
  specialize (Hc q (plain_prefix q Hq)). cbn in Hc. change ("" +:+ ?q) with q in Hc. rewrite Hc.
  unfold path_join at 1. rewrite (plain_prefix f Hf).
  assert (∃ l b, bytes_of_string q = l ++ [b]) as (l & b & Hb).
  { destruct (bytes_of_string q) as [|b l _] eqn:Hb using rev_ind; [|by exists l, b].
    destruct Hne. by apply bytes_of_string_inj. }
  rewrite bytes_of_string_app, Hb, app_assoc.
  destruct ((bytes_of_string c ++ l) ++ [b]) eqn:Hnil; [by destruct (bytes_of_string c ++ l)|].
  rewrite <-Hnil, last_snoc, bool_decide_eq_false_2; [by rewrite string_app_assoc|].
  intros [= ->]. apply Hq. rewrite Hb. apply elem_of_app. right. by apply list_elem_of_singleton.
Qed.

(** Queue and file name can be read off a path. *)
Lemma queue_path_inj dir q f q' f' :
  plain q → q ≠ "" → plain f → plain q' → q' ≠ "" → plain f' →
  path_join (path_join dir q) f = path_join (path_join dir q') f' → q = q' ∧ f = f'.
Proof.
  intros Hq Hne Hf Hq' Hne' Hf'. destruct (queue_path dir) as [c Hc]. rewrite !Hc by done.
  intros Heq%(inj (String.append c))%(f_equal bytes_of_string).
  rewrite !bytes_of_string_app in Heq. apply separator_inj in Heq as [? ?]; [|done..].
  by split; apply bytes_of_string_inj.
Qed.

Lemma app_inj_tail a s t : a +:+ s = t +:+ s → a = t.
Proof.
  intros Heq%(f_equal bytes_of_string). rewrite !bytes_of_string_app in Heq.
  by apply (inj (.++ _)), bytes_of_string_inj in Heq.
Qed.

Lemma app_last a s b t :
  a +:+ s = b +:+ t → s ≠ "" → t ≠ "" → last (bytes_of_string s) = last (bytes_of_string t).
Proof.
  assert (∀ a s, s ≠ "" → last (bytes_of_string (a +:+ s)) = last (bytes_of_string s)) as Hlast.
  { intros a' s' Hs'. rewrite bytes_of_string_app.
    destruct (bytes_of_string s') as [|x l _] eqn:Hb using rev_ind.
    - destruct Hs'. by apply bytes_of_string_inj.
    - by rewrite app_assoc, !last_snoc. }
  intros Heq Hs Ht. by rewrite <-(Hlast a s Hs), <-(Hlast b t Ht), Heq.
Qed.

(** The names of a group's files in the directory of its queue. *)
Definition suffixes : list string := [".events"; ".state"; ".state.tmp"].

Definition log_name : string := "seg-000001.log".

Lemma group_files_suffix options_ q g p :
  plain q → q ≠ "" → plain g → group_files options_ q g p →
  ∃ x, x ∈ suffixes ∧ p = path_join (path_join (data_dir options_) q) (g +:+ x).
Proof.
  intros Hq Hne Hg Hp. unfold group_files, GroupEventPath, GroupStatePath in Hp.
  destruct Hp as [->|[->| ->]]; [exists ".events"|exists ".state"|exists ".state.tmp"];
    (split; [by apply (bool_decide_unpack _)|]); [done..|].
  destruct (queue_path (data_dir options_)) as [c Hc].
  rewrite !Hc by first [done|by apply plain_app; [done|by apply (bool_decide_unpack _)]].
  by rewrite !string_app_assoc.
Qed.

Lemma plain_suffix g x : plain g → x ∈ suffixes → plain (g +:+ x).
Proof.
  intros Hg Hx. apply plain_app; [done|]. revert Hx. apply Forall_forall.
  by apply (bool_decide_unpack _).
Qed.

Lemma plain_log_name : plain log_name.
Proof. by apply (bool_decide_unpack _). Qed.

Lemma group_files_inj options_ q g q' g' p :
  plain q → q ≠ "" → plain g → plain q' → q' ≠ "" → plain g' →
  group_files options_ q g p → group_files options_ q' g' p → q = q' ∧ g = g'.
Proof.
  intros Hq Hne Hg Hq' Hne' Hg' Hp Hp'.
  apply group_files_suffix in Hp as (x & Hx & ->); [|done..].
  apply group_files_suffix in Hp' as (x' & Hx' & Heq); [|done..].
  apply queue_path_inj in Heq as [-> Heq]; [|by try apply plain_suffix..]. split; [done|].
  unfold suffixes in *. rewrite !elem_of_cons, elem_of_nil in Hx, Hx'.
  destruct_or! Hx; destruct_or! Hx'; subst; first [by apply app_inj_tail in Heq|by apply app_last in Heq].
Qed.

Lemma log_not_group options_ q g q' :
  plain q → q ≠ "" → plain g → plain q' → q' ≠ "" →
  ¬ group_files options_ q g (SegmentPath options_ q').
Proof.
  intros Hq Hne Hg Hq' Hne' Hp. apply group_files_suffix in Hp as (x & Hx & Heq); [|done..].
  apply queue_path_inj in Heq as [_ Heq]; [|by first [done|apply plain_log_name|apply plain_suffix]..].
  change "seg-000001.log" with ("seg-000001" +:+ ".log") in Heq.
  unfold suffixes in Hx. rewrite !elem_of_cons, elem_of_nil in Hx.
  destruct_or! Hx; subst; by apply app_last in Heq.
Qed.

(** ** Property *)

(** The group, and the log, an operation may write. *)
Definition op_group (op : Op) : option (string * string) :=
  match op with
  | OpConsume q g | OpAck q g _ | OpNack q g _ _ | OpGetStats q g => Some (q, g)
  | _ => None
  end.

Definition op_log (op : Op) : option string :=
  match op with OpCreateQueue q | OpProduce q _ => Some q | _ => None end.

Definition plain_op (op : Op) : Prop :=
  plain (queue_of op) ∧ queue_of op ≠ "" ∧ match op_group op with Some (_, g) => plain g | None => True end.

Lemma op_files_group options_ op q g p :
  plain_op op → plain q → q ≠ "" → plain g →
  group_files options_ q g p → op_files options_ op p → op_group op = Some (q, g).
Proof.
  intros (Hpq & Hpne & Hpg) Hq Hne Hg Hp Hop.
  destruct op; cbn in *; subst; first [done|by subst; destruct (log_not_group options_ _ _ _ Hq Hne Hg
    Hpq Hpne)|idtac];
    by destruct (group_files_inj options_ _ _ _ _ p Hq Hne Hg Hpq Hpne Hpg Hp Hop) as [<- <-].
Qed.

Lemma op_files_log options_ op q :
  plain_op op → plain q → q ≠ "" →
  op_files options_ op (SegmentPath options_ q) → op_log op = Some q.
Proof.
  intros (Hpq & Hpne & Hpg) Hq Hne Hop.
  destruct op; cbn [op_files op_log op_group queue_of] in *; first [done|by destruct (log_not_group
    options_ _ _ q Hpq Hpne Hpg Hq Hne)|idtac];
    apply queue_path_inj in Hop as [-> _]; by try apply plain_log_name.
Qed.

(** C17. Nothing is written where nothing was asked for.  Over any interleaving of
    clients and worker threads, under any failures of the file system, a file
    changes only when a request for its queue and group was submitted; and when
    names hold no slash, the files of a group change only by requests that
    consume, settle or count in that very group, and the log of a queue only by
    creating that queue or producing to it: inspecting and replaying write
    nothing, and no request writes the files of another group or queue. *)
Theorem files_isolated `{Env} options_ hash w xs :
  0 < shard_count options_ →
  let e := run_ options_ hash xs (started options_ (w, ∅)) in
  let kept p := files (store e).1 !! p = files w !! p in
  let none (f : Op → Prop) := ∀ r, r ∈ requests xs → ¬ f r.2 in
  (∀ p, none (λ op, op_files options_ op p) → kept p) ∧
  ((∀ r, r ∈ requests xs → plain_op r.2) → ∀ q, plain q → q ≠ "" →
   (∀ g p, plain g → group_files options_ q g p → none (λ op, op_group op = Some (q, g)) → kept p) ∧
   (none (λ op, op_log op = Some q) → kept (SegmentPath options_ q))).
Proof.
  intros Hcount. cbv zeta. set (e := run_ _ _ _ _).
  pose proof (run_engine_ok options_ hash Hcount (w, ∅) xs) as Hok. fold e in Hok.
  assert (∀ p, (∀ r, r ∈ requests xs → ¬ op_files options_ r.2 p) →
            files (store e).1 !! p = files w !! p) as Hkept.
  { intros p Hp. pose proof (tasks_files options_ (done_requests e) (w, ∅) p) as Ht.
    rewrite (eo_run _ _ _ _ _ Hok) in Ht. apply Ht; [by intros ? ?|]. intros r Hr. apply Hp.
    by apply (done_submitted options_ hash Hcount (w, ∅) _ e r Hok). }
  split; [exact Hkept|]. intros Hplain q Hq Hne. split.
  - intros g p Hg Hp Hnone. apply Hkept. intros r Hr Hop. apply (Hnone r Hr).
    by eapply op_files_group; [apply Hplain|..].
  - intros Hnone. apply Hkept. intros r Hr Hop. apply (Hnone r Hr).
    by eapply op_files_log; [apply Hplain|..].
Qed.
