(* ===== verification/Composition.v ===== *)
(** * The engine's threads and a group's histories

    A run of the engine (clients, shard threads, every queue and group at
    once), seen from one group, is a history of that group ([Operations]):
    its own requests are the operations, everything else is what "the rest of
    the engine" may do.  So what holds over every history holds of the replies
    that concurrent clients get. *)
From S2P Require Import Prelude Decimal Status Io Record SegmentLog Message EventLog Group Lifecycle.
From S2P Require Import Handlers HandlerSpecs Operations Engine Recovery EngineSpecs ShardActor EngineApi.
From S2P Require Import Isolation.

(** ** Requests as operations of a group *)

(** The part of a reply that a consumer asked for. *)
Definition reply_part {A} (f : Reply → option A) (o : outcome Reply) : outcome A :=
  match o with
  | Good r => match f r with Some a => Good a | None => Throw "no such reply" end
  | Fail e => Fail e
  | Throw e => Throw e
  end.

Definition as_message (r : Reply) := match r with RMessage m => Some m | _ => None end.
Definition as_status (r : Reply) := match r with ROk => Some tt | _ => None end.
Definition as_stats (r : Reply) := match r with RStats s => Some s | _ => None end.
Definition as_view (r : Reply) := match r with RView v => Some v | _ => None end.

(** What a request and its result are to the group [g] of the queue [q]. *)
Definition group_step (q g : string) (x : Op * outcome Reply) : option (group_op * group_reply) :=
  let mine q' g' (y : group_op * group_reply) :=
    if decide (q' = q ∧ g' = g) then Some y else None in
  match x.1 with
  | OpConsume q' g' => mine q' g' (GConsume, GotMessage (reply_part as_message x.2))
  | OpAck q' g' id => mine q' g' (GAck id, GotStatus (reply_part as_status x.2))
  | OpNack q' g' id b => mine q' g' (GNack id b, GotStatus (reply_part as_status x.2))
  | OpGetStats q' g' => mine q' g' (GStats, GotStats (reply_part as_stats x.2))
  | OpInspectMessage q' g' id => mine q' g' (GInspect id, GotView (reply_part as_view x.2))
  | OpCreateQueue _ | OpProduce _ _ | OpReplayToSequence _ _ _ => None
  end.

(** The promises fulfilled so far, as the group sees them. *)
Definition group_trace (q g : string) (hs : list (nat * (Op * outcome Reply)))
    : list (group_op * group_reply) :=
  omap (λ h, group_step q g h.2) hs.

Section composition.
Context `{Env}.
Context (options_ : EngineOptions) (q g : string).

Abbreviation execute := (execute options_).
Abbreviation history := (Operations.history options_ q g).
Abbreviation config_ok := (config_ok options_ q g).

Lemma on_group_found {A} (m : SegmentLog → GroupM A) w qs st gr :
  qs !! q = Some st → groups st !! g = Some gr →
  on_group options_ q g m (w, qs) =
  let '(o, (w, gr)) := m (segment st) (w, gr) in (o, (w, <[q := set_group g gr st]> qs)).
Proof.
  intros Hst Hgr. unfold on_group, GetGroup, GetQueue, bind, gets. cbn [fst snd]. rewrite Hst. cbn.
  rewrite Hgr. cbn. by rewrite Hst, Hgr.
Qed.

Lemma bind_ret_state {S A B} (m : M S A) (f : A → B) s : ((let! a := m in ret (f a)) s).2 = (m s).2.
Proof. unfold bind. by destruct (m s) as [[] ?]. Qed.

Lemma bind_ret_value {S A B} (m : M S A) (f : A → B) s :
  ((let! a := m in ret (f a)) s).1 =
  match (m s).1 with Good a => Good (f a) | Fail e => Fail e | Throw e => Throw e end.
Proof. unfold bind. by destruct (m s) as [[] ?]. Qed.

(** Operations on another queue leave this one in the table alone. *)
Lemma other_CreateQueue q' w qs :
  q' ≠ q ∨ is_Some (qs !! q) → (CreateQueueOnShard options_ q' (w, qs)).2.2 !! q = qs !! q.
Proof.
  intros Hq. unfold CreateQueueOnShard. cbn [fst snd]. destruct (qs !! q') as [st|] eqn:Hq'; [done|].
  destruct ((do! Open in Recover) _) as [[] [w' seg]]; cbn [snd]; [|done..].
  apply lookup_insert_ne. intros ->. rewrite Hq' in Hq. by destruct Hq as [|[]].
Qed.

Lemma other_Produce q' m w qs : q' ≠ q → (ProduceOnShard options_ q' m (w, qs)).2.2 !! q = qs !! q.
Proof.
  intros Hne. change (wp (ProduceOnShard options_ q' m) (λ _ s', s'.2 !! q = qs !! q) (w, qs)).
  unfold ProduceOnShard, GetQueue. apply wp_bind, wp_bind, wp_gets_snd.
  destruct (qs !! q') as [st|]; [|by apply wp_fail]. apply wp_ret. case_match; [by apply wp_fail|].
  apply wp_bind, wp_on_fst, wp_elim. intros [size|e|e] w1 _; [|done..]. case_match; [by apply wp_fail|].
  unfold wp. cbn [fst snd]. destruct (Append _ _) as [o [w2 seg]]. cbn [snd].
  by apply lookup_insert_ne.
Qed.

Lemma other_Replay q' g' n w qs : (ReplayToSequenceOnShard options_ q' g' n (w, qs)).2.2 = qs.
Proof.
  change (wp (ReplayToSequenceOnShard options_ q' g' n) (λ _ s', s'.2 = qs) (w, qs)).
  unfold ReplayToSequenceOnShard, GetQueue. apply wp_bind, wp_bind, wp_gets_snd.
  destruct (qs !! q') as [st|]; [|by apply wp_fail]. by apply wp_ret, wp_on_fst, wp_elim.
Qed.

(** A request of the group is the operation on the group in the table. *)
Lemma execute_mine op w qs st gr gop r :
  qs !! q = Some st → groups st !! g = Some gr →
  group_step q g (op, (execute op (w, qs)).1) = Some (gop, r) →
  let '(r', (w', gr')) := run_op options_ q g gop (segment st) (w, gr) in
  r' = r ∧ (execute op (w, qs)).2 = (w', <[q := set_group g gr' st]> qs).
Proof.
  intros Hst Hgr. unfold group_step. cbn [fst snd].
  destruct op as [q'|q' m|q' g'|q' g' id|q' g' id b|q' g'|q' g' id|q' g' n]; cbn [fst]; try done;
    (destruct (decide _) as [[-> ->]|]; [|done]); intros [= <- <-]; cbn [run_op];
    unfold EngineApi.execute, ConsumeOnShard, AckOnShard, NackOnShard, GetStatsOnShard,
      InspectMessageOnShard; unfold bind at 1 2; rewrite (on_group_found _ _ _ st gr) by done.
  - by destruct (ConsumeGroup _ _ _ _ _) as [[] [w' gr']].
  - by destruct (AckGroup _ _ _ _ _) as [[[]| |] [w' gr']].
  - by destruct (NackGroup _ _ _ _ _ _) as [[[]| |] [w' gr']].
  - by destruct (StatsGroup _ _ _ _) as [[] [w' gr']].
  - by destruct (InspectGroup _ _) as [[] [w' gr']].
Qed.

(** Any other request leaves the group, and the log unless it makes or
    writes it, as they are in the table. *)
Lemma execute_others op w qs :
  group_step q g (op, (execute op (w, qs)).1) = None → (∀ m, op ≠ OpProduce q m) →
  (op = OpCreateQueue q → is_Some (qs !! q)) →
  let qs' := (execute op (w, qs)).2.2 in
  find_segment qs' q = find_segment qs q ∧ find_group qs' q g = find_group qs q g.
Proof.
  intros Hnone Hprod Hcreate. cbv zeta.
  assert (∀ qs' : Queues, qs' !! q = qs !! q →
    find_segment qs' q = find_segment qs q ∧ find_group qs' q g = find_group qs q g) as Hkeep.
  { unfold find_segment, find_group. by intros qs' ->. }
  assert (∀ {A} q' g' (m : SegmentLog → GroupM A) (f : A → Reply), ¬ (q' = q ∧ g' = g) →
    let qs' := ((let! a := on_group options_ q' g' m in ret (f a)) (w, qs)).2.2 in
    find_segment qs' q = find_segment qs q ∧ find_group qs' q g = find_group qs q g) as Hgroup.
  { intros A q' g' m f Hne. assert (q ≠ q' ∨ g ≠ g') as Hne'.
    { destruct (decide (q = q')) as [->|]; [right|by left]. intros ->. by apply Hne. }
    cbv zeta. rewrite bind_ret_state.
    pose proof (on_group_isolated options_ q' g' m w qs) as [Hs Hg]. by split; [apply Hs|apply Hg]. }
  unfold group_step in Hnone. cbn [fst snd] in Hnone.
  destruct op as [q'|q' m|q' g'|q' g' id|q' g' id b|q' g'|q' g' id|q' g' n]; cbn [EngineApi.execute] in *;
    try (apply Hgroup; intros Hmine; by rewrite decide_True in Hnone).
  - rewrite bind_ret_state. apply Hkeep, other_CreateQueue.
    destruct (decide (q' = q)) as [->|]; [right; by apply Hcreate|by left].
  - rewrite bind_ret_state. apply Hkeep, other_Produce. intros ->. by eapply Hprod.
  - rewrite bind_ret_state, other_Replay. by apply Hkeep.
Qed.

Lemma execute_theirs op w qs st gr :
  qs !! q = Some st → groups st !! g = Some gr → group_step q g (op, (execute op (w, qs)).1) = None →
  (∀ m, op ≠ OpProduce q m) →
  let qs' := (execute op (w, qs)).2.2 in
  ∃ st', qs' !! q = Some st' ∧ segment st' = segment st ∧ groups st' !! g = Some gr.
Proof.
  intros Hst Hgr Hnone Hprod. cbv zeta.
  destruct (execute_others op w qs Hnone Hprod ltac:(by eexists)) as [Hs Hg].
  unfold find_segment, find_group in *. rewrite Hst in Hs, Hg. cbn in Hs, Hg.
  destruct ((execute op (w, qs)).2.2 !! q) as [st'|]; [|done]. injection Hs as Hs. cbn in Hg.
  exists st'. by rewrite Hg.
Qed.

(** ** The group's view of the engine's state *)

(** A message that fits a record at every offset. *)
Definition sound_message (m : Message) : Prop :=
  ∀ n, is_u64 n → recoverable (set_offset n (record_of m)).

Context (Hclock : clock_bounded) (Hdepth : max_queue_depth options_ < 2 ^ 64).
Context (Hq : plain q) (Hq_ne : q ≠ "") (Hg : plain g).
(** Whether the log is written to: then it is open at its end and no call is
    refused. *)
Context (written : Prop) (Hcalm : written → calm_run).

Record seen (c : config) (tr : list (group_op * group_reply)) (s : World * Queues)
    (rs : list Record_) (st : QueueState) (gr : ConsumerGroupState) : Prop := {
  seen_queue : s.2 !! q = Some st;
  seen_group : groups st !! g = Some gr;
  seen_located : located options_ s;
  seen_history : history c tr (mkConfiguration rs (segment st) s.1 gr);
  seen_ok : config_ok (mkConfiguration rs (segment st) s.1 gr);
  seen_log : written → appendable rs s.1 (segment st);
}.

Lemma not_foreign p : ¬ foreign options_ q g p → group_files options_ q g p.
Proof.
  unfold foreign, group_files. intros Hp.
  destruct (decide (p = GroupEventPath options_ q g)); [by left|].
  destruct (decide (p = GroupStatePath options_ q g)); [by right; left|].
  destruct (decide (p = GroupStatePath options_ q g +:+ ".tmp")); [by right; right|].
  by destruct Hp.
Qed.

Lemma seen_path c tr s rs st gr : seen c tr s rs st gr → path_ (segment st) = SegmentPath options_ q.
Proof. intros Hs. by apply (seen_located _ _ _ _ _ _ Hs q st), Hs. Qed.

(** Its own request is one more operation of the history. *)
Lemma seen_mine c tr op s rs st gr x :
  seen c tr s rs st gr → group_step q g (op, (execute op s).1) = Some x →
  ∃ st' gr', seen c (tr ++ [x]) (execute op s).2 rs st' gr'.
Proof.
  intros Hs Hx. destruct s as [w qs], x as [gop r]. pose proof Hs as [Hst Hgr Hl Hh Hok Happ].
  cbn [fst snd] in *. pose proof (execute_mine op w qs st gr gop r Hst Hgr Hx) as Hrun.
  pose proof (run_op_spec options_ q g gop _ Hclock Hok) as Hspec. cbn [log world group] in Hspec.
  destruct (frames_execute options_ op (w, qs) Hl) as (Hl' & _ & _).
  destruct (run_op _ _ _ _ _ _) as [r' [w' gr']] eqn:Hop. destruct Hrun as [-> Hrun].
  destruct Hspec as [Hp _]. rewrite Hrun in Hl' |- *.
  exists (set_group g gr' st), gr'. split; cbn [fst snd].
  - apply lookup_insert_eq.
  - apply lookup_insert_eq.
  - exact Hl'.
  - by eapply history_op.
  - exact (config_ok_op _ _ _ _ _ _ Hok Hp).
  - intros Hw. destruct (Happ Hw) as (Hi & Hf & Hfd). split_and!; [done| |done].
    destruct Hp as (n & es & _ & Hkeep & _). cbn [segment set_group].
    by rewrite Hkeep by apply Hok.
Qed.

(** What somebody else does is nothing to the group, but that the log may grow. *)
Lemma seen_others c tr s s' rs rs' st st' gr :
  seen c tr s rs st gr → s'.2 !! q = Some st' → groups st' !! g = Some gr → located options_ s' →
  (∃ more, rs' = rs ++ more) → indexed rs' (segment st') →
  (∃ post, files s'.1 !! SegmentPath options_ q = Some (log_bytes rs' ++ post)) →
  (∀ p, group_files options_ q g p → files s'.1 !! p = files s.1 !! p) →
  (written → appendable rs' s'.1 (segment st')) → seen c tr s' rs' st' gr.
Proof.
  intros Hs Hst' Hgr' Hl' Hmore Hidx Hfile Hown Happ.
  pose proof (seen_path _ _ _ _ _ _ Hs) as Hpath.
  assert (path_ (segment st') = SegmentPath options_ q) as Hpath' by by apply (Hl' q st').
  assert (others options_ q g (mkConfiguration rs (segment st) s.1 gr)
            (mkConfiguration rs' (segment st') s'.1 gr)) as Ho.
  { unfold others. cbn [records log world group]. rewrite Hpath, Hpath'. split_and!; [done..| |done].
    intros p Hp. by apply Hown, not_foreign. }
  destruct Hs as [_ _ _ Hh Hok _]. split; [done..| | |done].
  - by eapply history_others.
  - by eapply config_ok_others.
Qed.

Lemma step_not_mine op o : group_step q g (op, o) = None → op_group op ≠ Some (q, g).
Proof.
  unfold group_step. intros Hx Hop. destruct op; try done; injection Hop as -> ->;
    cbn [fst] in Hx; by rewrite decide_True in Hx.
Qed.

Lemma own_files_kept op s :
  located options_ s → plain_op op → group_step q g (op, (execute op s).1) = None →
  ∀ p, group_files options_ q g p → files (execute op s).2.1 !! p = files s.1 !! p.
Proof.
  intros Hl Hplain Hx p Hp. destruct (frames_execute options_ op s Hl) as (_ & Hk & _).
  apply Hk. intros Hop. by eapply step_not_mine, op_files_group.
Qed.

Lemma log_kept op s :
  located options_ s → plain_op op → op_log op ≠ Some q →
  files (execute op s).2.1 !! SegmentPath options_ q = files s.1 !! SegmentPath options_ q.
Proof.
  intros Hl Hplain Hlog. destruct (frames_execute options_ op s Hl) as (_ & Hk & _).
  apply Hk. intros Hop. by apply Hlog, (op_files_log options_).
Qed.

(** Creating a queue that exists changes nothing. *)
Lemma create_again w qs : is_Some (qs !! q) → (execute (OpCreateQueue q) (w, qs)).2 = (w, qs).
Proof. intros [st Hst]. cbn [EngineApi.execute]. unfold CreateQueueOnShard, bind. cbn [snd].
by rewrite Hst. Qed.

(** A request of somebody else that does not produce to the queue. *)
Lemma seen_theirs c tr op s rs st gr :
  seen c tr s rs st gr → plain_op op → group_step q g (op, (execute op s).1) = None →
  (∀ m, op ≠ OpProduce q m) →
  ∃ st', seen c tr (execute op s).2 rs st' gr.
Proof.
  intros Hs Hplain Hx Hprod. destruct s as [w qs]. pose proof Hs as [Hst Hgr Hl Hh Hok Happ].
  pose proof (seen_path _ _ _ _ _ _ Hs) as Hpath. cbn [fst snd] in *.
  destruct (decide (op_log op = Some q)) as [Hlog|Hlog].
  { exists st. destruct op as [q'|q' m| | | | | |]; try done; injection Hlog as ->; [|by destruct (Hprod m)].
    by rewrite create_again by eauto. }
  destruct (execute_theirs op w qs st gr Hst Hgr Hx Hprod) as (st' & Hst' & Hseg & Hgr').
  destruct (frames_execute options_ op (w, qs) Hl) as (Hl' & _ & _).
  pose proof (log_kept op (w, qs) Hl Hplain Hlog) as Hfile. cbn [fst] in Hfile.
  destruct Hok as (_ & Hidx & (post & Hpost) & _). cbn [log records world] in *. rewrite Hpath in Hpost.
  exists st'. eapply seen_others; [exact Hs|done..| | | | |]; rewrite ?Hseg, ?Hfile.
  - exists []. by rewrite app_nil_r.
  - done.
  - eauto.
  - by apply own_files_kept.
  - intros Hw. destruct (Happ Hw) as (? & Hf & Hfd). rewrite Hpath in Hf.
    split_and!; [done|by rewrite Hpath, Hfile|done].
Qed.

(** Somebody produces to the queue. *)
Lemma seen_produce c tr m s rs st gr :
  seen c tr s rs st gr → written → sound_message m →
  ∃ rs' st', seen c tr (execute (OpProduce q m) s).2 rs' st' gr ∧
    let o := (execute (OpProduce q m) s).1 in
    (rs' = rs ∧ ∀ r, o ≠ Good r) ∨
    (rs' = rs ++ [set_offset (Z.of_nat (length rs)) (record_of m)] ∧
     o = Good (ROffset (Z.of_nat (length rs)))).
Proof.
  intros Hs Hw Hm. destruct s as [w qs]. pose proof Hs as [Hst Hgr Hl Hh Hok Happ]. cbn [fst snd] in *.
  pose proof (Happ Hw) as Ha. pose proof Ha as ((_ & [_ Hlen] & _) & _).
  pose proof (Produce_appendable options_ q m st rs w qs Hst Ha
    (Hm (Z.of_nat (length rs)) ltac:(lia)) ltac:(lia)) as Hpost.
  assert (∀ p, group_files options_ q g p → files (execute (OpProduce q m) (w, qs)).2.1 !! p = files w !! p)
    as Hown by (by apply own_files_kept).
  destruct (frames_execute options_ (OpProduce q m) (w, qs) Hl) as (Hl' & _ & _).
  cbn [EngineApi.execute] in *. rewrite bind_ret_state, bind_ret_value in *.
  destruct (ProduceOnShard options_ q m (w, qs)) as [o [w' qs']]. cbn [fst snd] in *.
  destruct o as [n|e|e]; [|apply produced_refused in Hpost|done].
  - destruct Hpost as (-> & _ & _ & seg & -> & Happ'). exists (rs ++ [set_offset (Z.of_nat (length rs))
      (record_of m)]).
    exists (set_segment seg st). split; [|by right].
    assert (path_ seg = SegmentPath options_ q) as Hp
      by exact (Hl' q (set_segment seg st) (lookup_insert_eq _ _ _)).
    eapply seen_others; [exact Hs|apply lookup_insert_eq|done|exact Hl'|by eexists|apply Happ'| | |done].
    + exists []. rewrite app_nil_r, <-Hp. apply Happ'.
    + exact Hown.
  - destruct Hpost as [[-> Hf]|Hnc]; [|by destruct Hnc; apply Hcalm].
    exists rs, st. split; [|by left]. pose proof (seen_path _ _ _ _ _ _ Hs) as Hpath.
    eapply seen_others; [exact Hs|done..|by exists []; rewrite app_nil_r|apply Ha| |exact Hown|].
    + exists []. rewrite app_nil_r. cbn [fst]. rewrite Hf, <-Hpath. apply Ha.
    + intros _. unfold appendable. cbn [fst]. by rewrite Hf.
Qed.

(** ** Runs *)

(** The requests that the theorems speak of: plain names, and whoever
    produces to the queue produces messages that fit. *)
Definition sound_op (op : Op) : Prop :=
  plain_op op ∧ ∀ m, op = OpProduce q m → written ∧ sound_message m.

Lemma seen_step c tr op s rs st gr :
  seen c tr s rs st gr → sound_op op →
  ∃ rs' st' gr', seen c (tr ++ option_list (group_step q g (op, (execute op s).1)))
                   (execute op s).2 rs' st' gr'.
Proof.
  intros Hs [Hplain Hprod]. destruct (group_step q g _) as [x|] eqn:Hx; cbn [option_list].
  { destruct (seen_mine c tr op s rs st gr x Hs Hx) as (st' & gr' & ?). eauto. }
  rewrite app_nil_r. destruct op as [| q' m | | | | | |];
    try (destruct (seen_theirs _ _ _ _ _ _ _ Hs Hplain Hx) as [st' ?]; [done|by eauto]).
  destruct (decide (q' = q)) as [->|Hne].
  - destruct (Hprod m eq_refl) as [Hw Hm]. destruct (seen_produce _ _ m _ _ _ _ Hs Hw Hm) as (rs' & st' &
      ? & _).
    eauto.
  - destruct (seen_theirs _ _ _ _ _ _ _ Hs Hplain Hx) as [st' ?]; [congruence|eauto].
Qed.

Lemma seen_tasks c s rs st gr reqs :
  seen c [] s rs st gr → (∀ r, r ∈ reqs → sound_op r.2) →
  let '(hs, s') := run_tasks (map (task_of options_) reqs) s in
  ∃ rs' st' gr', seen c (group_trace q g hs) s' rs' st' gr'.
Proof.
  intros Hs. induction reqs as [|r reqs IH] using rev_ind; intros Hreqs; [by exists rs, st, gr|].
  rewrite map_app. cbn [map]. rewrite run_tasks_snoc.
  specialize (IH ltac:(intros; apply Hreqs, elem_of_app; by left)).
  destruct (run_tasks _ s) as [hs s1]. destruct IH as (rs1 & st1 & gr1 & Hs1). rewrite run_task_of.
  unfold group_trace. rewrite omap_app. apply (seen_step _ _ r.2 _ _ _ _ Hs1), Hreqs, elem_of_app.
  right. by apply list_elem_of_singleton.
Qed.
End composition.

(** A settled message and a later delivery in a list of answers. *)
Lemma trace_settled q g hs l1 i op id l2 :
  hs = l1 ++ (i, (op, Good ROk)) :: l2 → op = OpAck q g id ∨ op = OpNack q g id false →
  ∃ gop, settles gop id ∧
    group_trace q g hs = group_trace q g l1 ++ (gop, GotStatus (Good tt)) :: group_trace q g l2.
Proof.
  intros -> Hop. unfold group_trace. rewrite omap_app.
  destruct Hop as [-> | ->]; eexists; (split; [by (left + right)|]); cbn [omap list_omap snd];
    unfold group_step at 2; cbn [fst snd]; by rewrite decide_True.
Qed.

Lemma trace_delivered q g hs j res :
  (j, (OpConsume q g, Good (RMessage (Some res)))) ∈ hs →
  0 < delivered (msg_id (result_message res)) (group_trace q g hs).
Proof.
  intros Hin. apply (delivered_elem _ (GConsume, GotMessage (Good (Some res)))); [|done].
  apply list_elem_of_omap. exists (j, (OpConsume q g, Good (RMessage (Some res)))).
  split; [done|]. unfold group_step. cbn [fst snd]. by rewrite decide_True.
Qed.

(** ** Properties *)

Section properties.
Context `{Env}.
Context (options_ : EngineOptions) (hash : string → Z).
Context (Hclock : clock_bounded) (Hcount : 0 < shard_count options_).
Context (Hdepth : max_queue_depth options_ < 2 ^ 64).

(** A store whose table has the group, in a good state, and requests that keep
    to plain names; producing to the group's queue needs a log that is open
    at its end, messages that fit, and no refused call. *)
Record observed (q g : string) (w : World) (qs : Queues) (c : config) (reqs : list (nat * Op)) : Prop := {
  ob_names : plain q ∧ q ≠ "" ∧ plain g;
  ob_located : located options_ (w, qs);
  ob_table : ∃ st, qs !! q = Some st ∧ groups st !! g = Some (group c) ∧ log c = segment st;
  ob_world : world c = w;
  ob_ok : config_ok options_ q g c;
  ob_plain : ∀ r, r ∈ reqs → plain_op r.2;
  ob_produce : ∀ r m, r ∈ reqs → r.2 = OpProduce q m →
    calm_run ∧ appendable (records c) w (log c) ∧ sound_message m;
}.

Lemma observed_run q g w qs c xs :
  observed q g w qs c (requests xs) →
  let e := run_ options_ hash xs (started options_ (w, qs)) in
  ∃ rs st gr, (store e).2 !! q = Some st ∧ groups st !! g = Some gr ∧
    Operations.history options_ q g c (group_trace q g (history e))
      (mkConfiguration rs (segment st) (store e).1 gr).
Proof.
  intros [(Hq & Hne & Hg) Hl (st & Hst & Hgr & Hlog) Hw Hok Hplain Hprod]. cbv zeta.
  set (e := run_ _ _ _ _). pose proof (run_engine_ok options_ hash Hcount (w, qs) xs) as He. fold e in He.
  set (written := calm_run ∧ appendable (records c) w (log c)).
  destruct c as [rs seg w0 gr]. cbn [records log world group] in *. subst seg w0.
  pose proof (seen_tasks options_ q g Hclock Hdepth Hq Hne Hg written (λ H, proj1 H)
    (mkConfiguration rs (segment st) w gr) (w, qs) rs st gr (done_requests e)) as Hrun.
  rewrite (eo_run _ _ _ _ _ He) in Hrun. destruct Hrun as (rs' & st' & gr' & [Hst' Hgr' _ Hh _ _]).
  - split; [done..|apply history_nil|done|]. by intros [_ ?].
  - intros r Hr. apply (done_submitted options_ hash Hcount (w, qs) _ e r He) in Hr.
    split; [by apply Hplain|]. intros m Hm. destruct (Hprod r m Hr Hm) as (? & ? & ?). done.
  - by exists rs', st', gr'.
Qed.

(** C6. What a loaded group goes through in a run of the whole engine is a
    history of that group.  The group is in the table when the run begins, in
    a good state, over a log that the table's log indexes; all names are
    without slashes; and if anything is produced to the group's queue, its log
    is open at its end (which it is not after a restart over a log that is
    not empty), the messages fit and nothing is refused.  Otherwise clients on
    any threads send requests of every kind, for every queue and group, in any
    order, and any call may fail.  Then the replies the clients of the group
    got, in the order they were answered, are the operations of the history,
    and it ends with the group and the log that are in the engine's table and
    on its disk.  Hence every theorem about histories is one about such
    runs. *)
Theorem engine_runs_are_histories q g w qs c xs :
  observed q g w qs c (requests xs) →
  let e := run_ options_ hash xs (started options_ (w, qs)) in
  ∃ rs st gr, (store e).2 !! q = Some st ∧ groups st !! g = Some gr ∧
    Operations.history options_ q g c (group_trace q g (history e))
      (mkConfiguration rs (segment st) (store e).1 gr).
Proof. apply observed_run. Qed.

(** C7. A message that a client settled is gone for all clients of the process.
    In a run as in C6 (the group is loaded when it begins; if anything is
    produced to its queue, the log is open at its end and nothing is refused):
    when the engine answered an acknowledgement, or a rejection without
    requeueing, with success, then no request answered after it, whichever
    thread or client sent it and whenever it was submitted, is given the
    message. *)
Theorem engine_never_redelivers q g w qs c xs l1 i op id l2 j res :
  observed q g w qs c (requests xs) →
  history (run_ options_ hash xs (started options_ (w, qs))) = l1 ++ (i, (op, Good ROk)) :: l2 →
  op = OpAck q g id ∨ op = OpNack q g id false →
  (j, (OpConsume q g, Good (RMessage (Some res)))) ∈ l2 →
  msg_id (result_message res) ≠ id.
Proof.
  intros Hob Hhist Hop Hin Hid. destruct (observed_run q g w qs c xs Hob) as (rs & st & gr & _ & _ & Hh).
  destruct (trace_settled q g _ _ _ _ _ _ Hhist Hop) as (gop & Hset & Htr). rewrite Htr in Hh.
  destruct (settled_final options_ q g Hclock _ _ _ _ _ _ (ob_ok _ _ _ _ _ _ Hob) Hset Hh) as [Hz _].
  pose proof (trace_delivered _ _ _ _ _ Hin) as Hpos. rewrite Hid in Hpos. lia.
Qed.
End properties.
