(* ===== verification/Lives.v ===== *)
(** * One process after another

    The engine is started over the files of a data directory, runs, ends at
    any moment between two steps of its workers, and is started again over
    what it left.  Seen from one group: first the group is not in the table
    ([asleep]), the first request that names it loads it ([awake]), and from
    then on its requests are a history. *)
From S2P Require Import Prelude Decimal Status Io Record SegmentLog Checkpoint Message EventLog Group Lifecycle.
From S2P Require Import Handlers HandlerSpecs Operations Values Engine Recovery Restart EngineSpecs.
From S2P Require Import ShardActor EngineApi Isolation Composition.

(** ** What a process promises the next ones *)

(** A reply that reports a failure. *)
Definition failed (x : group_op * group_reply) : Prop :=
  match x.2 with
  | GotMessage (Fail _) | GotStatus (Fail _) | GotStats (Fail _) | GotView (Fail _) => True
  | _ => False
  end.

(** [m] and [m'] are the entries that the files give before and after the
    replies [tr]: what was settled before is not delivered, what is settled on
    the way is not delivered later, and both are settled in the files. *)
Definition keeps_settled (m : gmap MessageId MessageRuntime) (tr : list (group_op * group_reply))
    (m' : gmap MessageId MessageRuntime) : Prop :=
  (∀ id rt, m !! id = Some rt → terminal rt → delivered id tr = 0 ∧ m' !! id = Some rt) ∧
  (∀ tr1 op id tr2, settles op id → tr = tr1 ++ (op, GotStatus (Good tt)) :: tr2 →
     delivered id tr2 = 0 ∧ ∃ rt, m' !! id = Some rt ∧ terminal rt).

Lemma app_eq_cons_split {A} (l1 l2 k1 : list A) x k2 :
  l1 ++ l2 = k1 ++ x :: k2 →
  (∃ k, l1 = k1 ++ x :: k ∧ k2 = k ++ l2) ∨ (∃ k, l2 = k ++ x :: k2 ∧ k1 = l1 ++ k).
Proof.
  revert k1. induction l1 as [|y l1 IH]; intros k1 Heq; [right; by exists k1|].
  destruct k1 as [|z k1]; injection Heq as <- Heq; [left; by exists l1|].
  destruct (IH k1 Heq) as [(k & -> & ->)|(k & -> & ->)]; [left; by exists k|right; by exists k].
Qed.

Lemma keeps_settled_app m tr m' tr' m'' :
  keeps_settled m tr m' → keeps_settled m' tr' m'' → keeps_settled m (tr ++ tr') m''.
Proof.
  intros [Hk Hs] [Hk' Hs']. split.
  - intros id rt Hrt Ht. destruct (Hk id rt Hrt Ht) as [Hz Hrt']. destruct (Hk' id rt Hrt' Ht) as [Hz' ?].
    rewrite delivered_app. split; [lia|done].
  - intros tr1 op id tr2 Hop [(k & -> & ->)|(k & -> & ->)]%app_eq_cons_split.
    + destruct (Hs tr1 op id k Hop eq_refl) as (Hz & rt & Hrt & Ht).
      destruct (Hk' id rt Hrt Ht) as [Hz' Hrt']. rewrite delivered_app. split; [lia|eauto].
    + by eapply Hs'.
Qed.

Lemma failed_not_delivers id x : failed x → ¬ delivers id x.
Proof. destruct x as [op [[[]| |]| | |]]; cbn; by intros ? []. Qed.

Lemma delivered_failed id tr : Forall failed tr → delivered id tr = 0.
Proof.
  intros Htr. apply delivered_none. eapply Forall_impl; [done|]. apply failed_not_delivers.
Qed.

Lemma failed_keeps m tr m' : Forall failed tr → m ⊆ m' → keeps_settled m tr m'.
Proof.
  intros Htr Hsub. split.
  - intros id rt Hrt _. split; [by apply delivered_failed|by eapply lookup_weaken].
  - intros tr1 op id tr2 _ ->. apply Forall_app in Htr as [_ Htr]. by apply Forall_cons in Htr as [[] _].
Qed.

Section lives.
Context `{Env}.
Context (options_ : EngineOptions) (q g : string).
Context (calm : calm_run) (Hclock : clock_bounded) (Hdepth : max_queue_depth options_ < 2 ^ 64).
Context (Hq : plain q) (Hq_ne : q ≠ "") (Hg : plain g) (Hroom : roomy g).

Abbreviation execute := (execute options_).
Abbreviation log_path := (SegmentPath options_ q).
Abbreviation on_disk := (on_disk options_ q g).
Abbreviation history := (Operations.history options_ q g).

(** ** A history keeps its promise *)

Lemma history_keeps c tr rs seg w gr m t :
  config_ok options_ q g c → typed (group c) → Z.of_nat (size (runtime (group c))) < 2 ^ 64 →
  durable options_ q g (records c) (world c) (group c) → runtime (group c) = take_back t <$> m →
  history c tr (mkConfiguration rs seg w gr) → distinct_ids rs → distinct_ids (records c) →
  ∃ m', on_disk rs w m' ∧ keeps_settled m tr m'.
Proof.
  intros Hok Hty Hsize Hdur Hrt Hh Hd Hd0.
  destruct (durable_history _ _ _ calm _ _ _ Hclock Hroom Hok Hty Hsize Hdur Hh) as (m1 & Hm1 & Hmir).
  destruct (history_records _ _ _ _ _ _ Hh) as [more Hmore]. cbn [records world group] in *. subst rs.
  destruct (on_disk_more _ _ _ _ more _ _ Hd Hd0 Hm1) as (m' & Hm' & Hsub).
  pose proof (mirrors_weaken _ _ _ Hsub Hmir) as Hmir'.
  exists m'. split; [done|].
  assert (∀ id rt, runtime gr !! id = Some rt → terminal rt → m' !! id = Some rt) as Hback.
  { intros id rt Hid Ht. destruct (Hmir' id rt Hid) as (rt0 & Hrt0 & [->|(_ & Hst & _)]); [done|].
    by destruct Ht as [Ht|Ht]; rewrite Ht in Hst. }
  split.
  - intros id rt Hid Ht.
    assert (runtime (group c) !! id = Some rt) as Hid'.
    { rewrite Hrt, lookup_fmap, Hid. cbn. f_equal. unfold take_back.
      by destruct Ht as [Hst|Hst]; rewrite Hst. }
    destruct (history_run _ _ _ _ _ _ Hclock Hok Hh) as [_ (n & es & Hrun & Hdel)].
    destruct Hok as (Hgok & _). cbn [group] in *.
    destruct (terminal_absorbing _ _ _ _ _ id rt Hrun Hgok Hid' Ht) as (Hid2 & _ & Hz).
    split; [|by apply Hback]. specialize (Hdel id). unfold delivered in *. lia.
  - intros tr1 op id tr2 Hop ->.
    destruct (settled_final _ _ _ Hclock _ _ _ _ _ _ Hok Hop Hh) as (Hz & rt & Hid & Hst & _).
    split; [done|]. exists rt.
    assert (terminal rt) as Ht by (unfold terminal; rewrite Hst; destruct Hop as [-> | ->]; auto).
    split; [by apply Hback|done].
Qed.

(** ** What the files hold between two processes *)

Record resting (rs : list Record_) (w : World) (m : gmap MessageId MessageRuntime) : Prop := {
  rest_log : file_bytes w log_path = log_bytes rs;
  rest_records : Forall recoverable rs ∧ numbered rs;
  rest_distinct : distinct_ids rs;
  rest_group : on_disk rs w m;
}.

(** Nothing was written yet. *)
Lemma resting_nothing w :
  0 <= max_retry_count options_ → files w !! log_path = None →
  files w !! GroupEventPath options_ q g = None → files w !! GroupStatePath options_ q g = None →
  resting [] w ∅.
Proof.
  intros Hmax Hlog Hevents Hstate.
  split; [unfold file_bytes; by rewrite Hlog|by split; [|split; [|simpl; lia]]|by apply NoDup_nil_2|].
  exists 1, ∅, []. unfold has_snapshot, file_bytes. rewrite Hstate, Hevents. unfold sane. by split_and!.
Qed.

Lemma record_id_of n m : record_id (set_offset n (record_of m)) = msg_id m.
Proof. by destruct m as [[]]. Qed.

(** The messages that were to be produced to the queue, and those that were,
    with the offsets that were answered. *)
Record ledger := mkLedger {
  asked : list MessageId;
  answered : list (Z * Message);
}.

Definition note (op : Op) (o : outcome Reply) (L : ledger) : ledger :=
  match op with
  | OpProduce q' m =>
      if decide (q' = q)
      then mkLedger (asked L ++ [msg_id m])
             (match o with Good (ROffset n) => answered L ++ [(n, m)] | _ => answered L end)
      else L
  | _ => L
  end.

(** The records of the log are messages asked for, in that order, and among
    them are the answered ones, at their offsets. *)
Definition from (L : ledger) (rs : list Record_) : Prop :=
  record_id <$> rs `sublist_of` asked L ∧
  Forall (λ x, 0 <= x.1 ∧ rs !! Z.to_nat x.1 = Some (set_offset x.1 (record_of x.2))) (answered L).

(** The identifiers of the messages to be produced. *)
Definition wanted (op : Op) : list MessageId :=
  match op with OpProduce q' m => if decide (q' = q) then [msg_id m] else [] | _ => [] end.

Definition posted (reqs : list (nat * Op)) : list MessageId := concat (map (λ r, wanted r.2) reqs).

Definition notes (L : ledger) (hs : list (nat * (Op * outcome Reply))) : ledger :=
  foldl (λ L h, note h.2.1 h.2.2 L) L hs.

Lemma posted_app xs ys : posted (xs ++ ys) = posted xs ++ posted ys.
Proof. unfold posted. by rewrite map_app, concat_app. Qed.

Lemma asked_note op o L : asked (note op o L) = asked L ++ wanted op.
Proof.
  destruct op; cbn; rewrite ?app_nil_r; try done. case_decide; [done|]. by rewrite app_nil_r.
Qed.

Lemma asked_notes L hs : asked (notes L hs) = asked L ++ posted (map (λ h, (h.1, h.2.1)) hs).
Proof.
  revert L. induction hs as [|h hs IH]; intros L; [by rewrite app_nil_r|].
  change (notes L (h :: hs)) with (notes (note h.2.1 h.2.2 L) hs). rewrite IH, asked_note.
  by rewrite <-app_assoc.
Qed.

Lemma from_distinct L rs : from L rs → NoDup (asked L) → distinct_ids rs.
Proof. intros [Hs _] Hd. by eapply sublist_NoDup. Qed.

Lemma note_other op o L : (∀ m, op ≠ OpProduce q m) → note op o L = L.
Proof.
  intros Hop. destruct op as [|q' m| | | | | |]; try done. cbn. rewrite decide_False; [done|].
  intros ->. by eapply Hop.
Qed.

Lemma from_failed L rs m o : from L rs → (∀ r, o ≠ Good r) → from (note (OpProduce q m) o L) rs.
Proof.
  intros [Hs Hk] Ho. unfold note. rewrite decide_True by done. split; cbn [asked answered].
  - by apply sublist_inserts_r.
  - destruct o as [r|e|e]; [by destruct (Ho r)|done..].
Qed.

Lemma from_produced L rs m :
  from L rs →
  from (note (OpProduce q m) (Good (ROffset (Z.of_nat (length rs)))) L)
    (rs ++ [set_offset (Z.of_nat (length rs)) (record_of m)]).
Proof.
  intros [Hs Hk]. unfold note. rewrite decide_True by done. split; cbn [asked answered].
  - rewrite fmap_app. apply sublist_app; [done|]. cbn. by rewrite record_id_of.
  - apply Forall_app. split.
    + eapply Forall_impl; [exact Hk|]. intros x [? Hx]. split; [done|by apply lookup_app_l_Some].
    + apply Forall_singleton. cbn. rewrite Nat2Z.id. split; [lia|by apply list_lookup_middle].
Qed.

(** ** The phases of a process *)

Section phases.
Context (written : Prop) (m0 : gmap MessageId MessageRuntime).

Abbreviation seen := (seen options_ q g written).

(** The group is not in the table; its files and the log are at rest. *)
Record sleeping (L : ledger) (tr : list (group_op * group_reply)) (s : World * Queues)
    (rs : list Record_) (m : gmap MessageId MessageRuntime) : Prop := {
  sl_rest : resting rs s.1 m;
  sl_sub : m0 ⊆ m;
  sl_from : from L rs;
  sl_trace : Forall failed tr;
  sl_located : located options_ s;
  sl_group : find_group s.2 q g = None;
  sl_segment : match find_segment s.2 q with
    | None => written → rs = []
    | Some seg => indexed rs seg ∧ files s.1 !! log_path = Some (log_bytes rs) ∧
                  (written → fd_ seg = Some (length (log_bytes rs)))
    end;
}.

(** The group was loaded, as [c], after the failures [pre]. *)
Record waking (L : ledger) (tr : list (group_op * group_reply)) (s : World * Queues)
    (c : config) (pre tr' : list (group_op * group_reply)) (rs : list Record_) (st : QueueState)
    (gr : ConsumerGroupState) (t : Z) (m : gmap MessageId MessageRuntime) : Prop := {
  wk_failed : Forall failed pre;
  wk_trace : tr = pre ++ tr';
  wk_seen : seen c tr' s rs st gr;
  wk_ok : config_ok options_ q g c;
  wk_typed : typed (group c) ∧ Z.of_nat (size (runtime (group c))) < 2 ^ 64;
  wk_durable : durable options_ q g (records c) (world c) (group c);
  wk_loaded : runtime (group c) = take_back t <$> m ∧ m0 ⊆ m;
  wk_from : from L rs;
  wk_file : files s.1 !! log_path = Some (log_bytes rs);
}.

Definition phase (L : ledger) (tr : list (group_op * group_reply)) (s : World * Queues) : Prop :=
  (∃ rs m, sleeping L tr s rs m) ∨ (∃ c pre tr' rs st gr t m, waking L tr s c pre tr' rs st gr t m).

(** A process ends in the middle of any phase. *)
Lemma phase_ends L tr s :
  phase L tr s → NoDup (asked L) →
  ∃ rs m, resting rs s.1 m ∧ from L rs ∧ keeps_settled m0 tr m.
Proof.
  intros [(rs & m & [Hrest Hsub Hfrom Htr _ _ _])|(c & pre & tr' & rs & st & gr & t & m &
    [Hpre -> Hs Hokc [Hty Hsize] Hdur [Hrt Hsub] Hfrom Hfile])] Hd.
  - exists rs, m. split_and!; [done..|]. by apply failed_keeps.
  - destruct Hs as [_ _ _ Hh Hok _].
    pose proof (from_distinct _ _ Hfrom Hd) as Hdist.
    assert (distinct_ids (records c)) as Hdist0.
    { destruct (history_records _ _ _ _ _ _ Hh) as [more Hmore]. cbn [records] in Hmore.
      unfold distinct_ids in *. rewrite Hmore, fmap_app in Hdist. by apply NoDup_app in Hdist as [? _]. }
    destruct (history_keeps _ _ _ _ _ _ _ _ Hokc Hty Hsize Hdur Hrt Hh Hdist Hdist0) as (m' & Hm' & Hkeep).
    exists rs, m'. split_and!; [|done|].
    + destruct Hok as (_ & (Hrec & Hnum & _) & _). split; [|done..].
      unfold file_bytes. by rewrite Hfile.
    + by eapply keeps_settled_app, Hkeep; apply failed_keeps.
Qed.

(** It begins with an empty table. *)
Lemma phase_begins L rs w :
  resting rs w m0 → from L rs → (written → rs = []) → phase L [] (w, ∅).
Proof.
  intros Hrest Hfrom Hw. left. by exists rs, m0.
Qed.

(** *** One request *)

(** A request for a queue that does not exist fails. *)
Lemma mine_absent op w qs x :
  qs !! q = None → group_step q g (op, (execute op (w, qs)).1) = Some x →
  failed x ∧ (execute op (w, qs)).2 = (w, qs).
Proof.
  intros Hnone. assert (∀ {A} (m : SegmentLog → GroupM A),
    on_group options_ q g m (w, qs) = (Fail (mkStatus kNotFound "queue not found"), (w, qs))) as Hon.
  { intros A m. unfold on_group, GetGroup, GetQueue, bind, gets. cbn [snd]. by rewrite Hnone. }
  unfold group_step. cbn [fst snd].
  destruct op as [q'|q' m|q' g'|q' g' id|q' g' id b|q' g'|q' g' id|q' g' n]; try done;
    (destruct (decide _) as [[-> ->]|]; [|done]); intros [= <-];
    unfold EngineApi.execute, ConsumeOnShard, AckOnShard, NackOnShard, GetStatsOnShard,
      InspectMessageOnShard, bind; by rewrite Hon.
Qed.

(** The first request that names the group loads it, and then runs as if the
    group had been there. *)
Lemma execute_loaded op s s1 o x :
  GetGroup options_ q g s = (Good tt, s1) → GetGroup options_ q g s1 = (Good tt, s1) →
  group_step q g (op, o) = Some x → execute op s = execute op s1.
Proof.
  intros H0 H1. assert (∀ {A} (m : SegmentLog → GroupM A),
    on_group options_ q g m s = on_group options_ q g m s1) as Hon.
  { intros A m. unfold on_group. unfold bind at 1 2. by rewrite H0, H1. }
  unfold group_step. cbn [fst snd].
  destruct op as [q'|q' m|q' g'|q' g' id|q' g' id b|q' g'|q' g' id|q' g' n]; try done;
    (destruct (decide _) as [[-> ->]|]; [|done]); intros _;
    unfold EngineApi.execute, ConsumeOnShard, AckOnShard, NackOnShard, GetStatsOnShard,
      InspectMessageOnShard; unfold bind at 1 2; by rewrite Hon.
Qed.

Lemma log_foreign : foreign options_ q g log_path.
Proof.
  pose proof (log_not_group options_ q g q Hq Hq_ne Hg Hq Hq_ne) as Hn.
  unfold foreign, group_files in *. tauto.
Qed.

(** A request of the group leaves the log alone. *)
Lemma mine_log_kept op s o x :
  located options_ s → group_step q g (op, o) = Some x →
  files (execute op s).2.1 !! log_path = files s.1 !! log_path.
Proof.
  intros Hl Hx. destruct (frames_execute options_ op s Hl) as (_ & Hk & _). apply Hk. intros Hop.
  pose proof (log_not_group options_ q g q Hq Hq_ne Hg Hq Hq_ne) as Hn. unfold group_step in Hx.
  destruct op; cbn [fst snd] in Hx; try done; destruct (decide _) as [[-> ->]|]; done.
Qed.

Lemma load_group rs w qs st m :
  qs !! q = Some st → groups st !! g = None → path_ (segment st) = log_path →
  indexed rs (segment st) → files w !! log_path = Some (log_bytes rs) → distinct_ids rs →
  on_disk rs w m →
  ∃ w1 g1 t, let s1 := (w1, <[q := set_group g g1 st]> qs) in
    GetGroup options_ q g (w, qs) = (Good tt, s1) ∧ GetGroup options_ q g s1 = (Good tt, s1) ∧
    files w1 = files w ∧ config_ok options_ q g (mkConfiguration rs (segment st) w1 g1) ∧ typed g1 ∧
    Z.of_nat (size (runtime g1)) < 2 ^ 64 ∧ durable options_ q g rs w1 g1 ∧
    runtime g1 = take_back t <$> m.
Proof.
  intros Hst Hgr Hpath Hidx Hfile Hd Hdisk.
  assert (wp (GetGroup options_ q g) (λ o s', o = Good tt ∧ ∃ w1 g1 t,
    s' = (w1, <[q := set_group g g1 st]> qs) ∧ files w1 = files w ∧
    config_ok options_ q g (mkConfiguration rs (segment st) w1 g1) ∧ typed g1 ∧
    Z.of_nat (size (runtime g1)) < 2 ^ 64 ∧ durable options_ q g rs w1 g1 ∧
    runtime g1 = take_back t <$> m) (w, qs)) as Hwp.
  { apply wp_GetGroup; [by rewrite Hst|congruence|]. intros st' o w1 g1 Hst' _ Hrun. simplify_eq.
    assert (wp (LoadGroupState options_ q g (segment st)) (λ o s', o = Good tt ∧ ∃ t, files s'.1 = files w ∧
      config_ok options_ q g (mkConfiguration rs (segment st) s'.1 s'.2) ∧ typed s'.2 ∧
      Z.of_nat (size (runtime s'.2)) < 2 ^ 64 ∧ durable options_ q g rs s'.1 s'.2 ∧
      runtime s'.2 = take_back t <$> m) (w, new_Group (mkCheckpointStore (CheckpointPath options_ q g)
        (fsync_policy options_)))) as Hload.
    { apply (wp_load_on_disk _ _ _ calm rs [] _ _ m); [done..|by rewrite Hpath, app_nil_r|done| |done|].
      - rewrite Hpath. apply log_foreign.
      - intros w' g' t Hf ? ? ? ? ?. split; [done|]. by exists t. }
    apply (wp_intro _ _ _ _ _ Hload) in Hrun as (-> & t & Hf & ?). split; [done|]. by exists w1, g1, t. }
  unfold wp in Hwp. destruct (GetGroup options_ q g (w, qs)) as [o s1]. cbn [fst snd] in Hwp.
  destruct Hwp as (-> & w1 & g1 & t & -> & ?). exists w1, g1, t. split_and!; [done| |tauto..].
  unfold GetGroup, GetQueue, bind, gets. cbn [snd]. rewrite lookup_insert_eq. cbn.
  by rewrite lookup_insert_eq.
Qed.

Lemma sleeping_mine L tr op s x rs m :
  sleeping L tr s rs m → NoDup (asked L) → group_step q g (op, (execute op s).1) = Some x →
  phase L (tr ++ [x]) (execute op s).2.
Proof.
  intros [Hrest Hsub Hfrom Htr Hl Hgroup Hseg] Hd Hx. destruct s as [w qs]. cbn [fst snd] in *.
  destruct (qs !! q) as [st|] eqn:Hst.
  2: { destruct (mine_absent op w qs x Hst Hx) as [Hf Hsame]. rewrite Hsame. left. exists rs, m.
       split; try done.
       apply Forall_app. split; [done|by apply Forall_singleton]. }
  unfold find_group, find_segment in Hgroup, Hseg. rewrite Hst in Hgroup, Hseg. cbn in Hgroup, Hseg.
  destruct Hseg as (Hidx & Hfile & Hfd). pose proof (Hl q st Hst) as Hpath.
  destruct (load_group rs w qs st m Hst Hgroup Hpath Hidx Hfile (rest_distinct _ _ _ Hrest) (rest_group _
    _ _ Hrest))
    as (w1 & g1 & t & H0 & H1 & Hf & Hok & Hty & Hsize & Hdur & Hrt).
  rewrite (execute_loaded op _ _ _ _ H0 H1 Hx) in Hx |- *.
  set (c := mkConfiguration rs (segment st) w1 g1) in *.
  assert (seen c [] (w1, <[q := set_group g g1 st]> qs) rs (set_group g g1 st) g1) as Hs.
  { split; cbn [fst snd].
    - apply lookup_insert_eq.
    - apply lookup_insert_eq.
    - by apply (located_insert _ w).
    - apply history_nil.
    - exact Hok.
    - intros Hw. split_and!; [done| |by apply Hfd]. cbn [segment set_group]. by rewrite Hf, Hpath. }
  destruct (seen_mine _ _ _ Hclock _ _ _ _ _ _ _ _ _ Hs Hx) as (st' & gr' & Hs').
  right. exists c, tr, [x], rs, st', gr', t, m. split; try done.
  rewrite (mine_log_kept _ _ _ _ (seen_located _ _ _ _ _ _ _ _ _ _ Hs) Hx). cbn [fst]. by rewrite Hf.
Qed.

Lemma resting_kept rs w w' m :
  files w' !! log_path = files w !! log_path →
  (∀ p, group_files options_ q g p → files w' !! p = files w !! p) →
  resting rs w m → resting rs w' m.
Proof.
  intros Hlog Hown [Hb Hrec Hd Hdisk]. split; [|done..|].
  - unfold file_bytes in *. by rewrite Hlog.
  - eapply on_disk_files; [|done]. intros p Hp. by apply Hown, not_foreign.
Qed.

(** Somebody else's request, not for the log. *)
Lemma sleeping_others L tr op s rs m :
  sleeping L tr s rs m → plain_op op → group_step q g (op, (execute op s).1) = None →
  op_log op ≠ Some q → sleeping L tr (execute op s).2 rs m.
Proof.
  intros [Hrest Hsub Hfrom Htr Hl Hgroup Hseg] Hplain Hx Hlog. destruct s as [w qs].
  destruct (execute_others options_ q g op w qs Hx) as [Hs Hgr]; [by intros m' ->|by intros ->|].
  pose proof (log_kept options_ q Hq Hq_ne op (w, qs) Hl Hplain Hlog) as Hfile.
  destruct (frames_execute options_ op (w, qs) Hl) as (Hl' & _ & _).
  cbn [fst snd] in *. split; try done.
  - eapply resting_kept; [exact Hfile| |done]. by apply (own_files_kept options_ q g Hq Hq_ne Hg op (w, qs)).
  - by rewrite Hgr.
  - rewrite Hs. destruct (find_segment qs q); [|done]. by rewrite Hfile.
Qed.

(** The queue is created, or was. *)
Lemma sleeping_create L tr s rs m :
  sleeping L tr s rs m → sleeping L tr (execute (OpCreateQueue q) s).2 rs m.
Proof.
  intros Hs. destruct s as [w qs]. destruct (qs !! q) as [st|] eqn:Hst.
  { by rewrite create_again by eauto. }
  destruct Hs as [Hrest Hsub Hfrom Htr Hl Hgroup Hseg].
  pose proof Hrest as [Hb [Hrec Hnum] Hd Hdisk]. cbn [fst snd] in *.
  unfold find_segment in Hseg. rewrite Hst in Hseg. cbn in Hseg.
  pose proof (CreateQueue_run options_ q rs [] w qs calm Hst Hrec ltac:(by left)
    ltac:(by rewrite app_nil_r)) as Hrun.
  destruct (frames_execute options_ (OpCreateQueue q) (w, qs) Hl) as (Hl' & Hk & _).
  cbn [EngineApi.execute] in *. rewrite bind_ret_state in *.
  destruct (CreateQueueOnShard options_ q (w, qs)) as [o [w' qs']]. cbn [fst snd] in *.
  destruct Hrun as (-> & Hf & seg & -> & Hp & Hidx & Hfd).
  assert (∀ p, group_files options_ q g p → files w' !! p = files w !! p) as Hown.
  { intros p Hp'. apply Hk. cbn. intros <-. by apply (log_not_group options_ q g q) in Hp'. }
  assert (files w' !! log_path = Some (log_bytes rs)) as Hlog by (rewrite Hf; apply lookup_insert_eq).
  split; try done; cbn [fst snd].
  - split; [unfold file_bytes; by rewrite Hlog|done..|].
    eapply on_disk_files; [|done]. intros p Hp'. by apply Hown, not_foreign.
  - unfold find_group. by rewrite lookup_insert_eq.
  - unfold find_segment. rewrite lookup_insert_eq. cbn. split_and!; [done..|]. intros Hw. by rewrite Hseg.
Qed.

(** A message is produced while nobody uses the group. *)
Lemma sleeping_produce L tr mg s rs m :
  let o := (execute (OpProduce q mg) s).1 in
  sleeping L tr s rs m → written → sound_message mg → NoDup (asked (note (OpProduce q mg) o L)) →
  ∃ rs' m', sleeping (note (OpProduce q mg) o L) tr (execute (OpProduce q mg) s).2 rs' m'.
Proof.
  cbv zeta. intros Hs Hw Hm Hd. destruct s as [w qs].
  pose proof Hs as [Hrest Hsub Hfrom Htr Hl Hgroup Hseg]. cbn [fst snd] in *.
  destruct (qs !! q) as [st|] eqn:Hst.
  2: { exists rs, m. cbn [EngineApi.execute]. unfold ProduceOnShard, GetQueue, bind, gets. cbn [snd].
       rewrite Hst. split; try done. by apply from_failed. }
  unfold find_group, find_segment in Hgroup, Hseg. rewrite Hst in Hgroup, Hseg. cbn in Hgroup, Hseg.
  destruct Hseg as (Hidx & Hfile & Hfd). pose proof (Hl q st Hst) as Hpath.
  assert (appendable rs w (segment st)) as Ha by (split_and!; [done|by rewrite Hpath|by apply Hfd]).
  pose proof Hidx as (_ & [_ Hlen] & _).
  pose proof (Produce_appendable options_ q mg st rs w qs Hst Ha
    (Hm (Z.of_nat (length rs)) ltac:(lia)) ltac:(lia)) as Hpost.
  destruct (frames_execute options_ (OpProduce q mg) (w, qs) Hl) as (Hl' & Hk & _).
  cbn [EngineApi.execute] in *. rewrite bind_ret_state, bind_ret_value in *.
  destruct (ProduceOnShard options_ q mg (w, qs)) as [o [w' qs']]. cbn [fst snd] in *.
  assert (∀ p, group_files options_ q g p → files w' !! p = files w !! p) as Hown.
  { intros p Hp'. apply Hk. cbn. intros <-. by apply (log_not_group options_ q g q) in Hp'. }
  destruct o as [n|e|e]; [|apply produced_refused in Hpost|done].
  - destruct Hpost as (-> & _ & _ & seg & -> & Happ').
    set (rs' := rs ++ [set_offset (Z.of_nat (length rs)) (record_of mg)]) in *.
    assert (path_ seg = log_path) as Hp by exact (Hl' q (set_segment seg st) (lookup_insert_eq _ _ _)).
    destruct Happ' as (Hidx' & Hfile' & Hfd').
    pose proof (from_produced _ _ mg Hfrom) as Hfrom'.
    pose proof (from_distinct _ _ Hfrom' Hd) as Hdist'.
    destruct (on_disk_more _ _ _ _ [set_offset (Z.of_nat (length rs)) (record_of mg)] _ _ Hdist'
      (rest_distinct _ _ _ Hrest) (rest_group _ _ _ Hrest)) as (m' & Hm' & Hsub').
    exists rs', m'. rewrite Hp in Hfile'. split; try done; cbn [fst snd].
    + split; [unfold file_bytes; by rewrite Hfile'|by destruct Hidx' as (? & ? & _)|done|].
      eapply on_disk_files; [|done]. intros p Hp'. by apply Hown, not_foreign.
    + by transitivity m.
    + unfold find_group. by rewrite lookup_insert_eq.
    + unfold find_segment. by rewrite lookup_insert_eq.
  - destruct Hpost as [[-> Hf]|Hnc]; [|done]. exists rs, m. split; try done; cbn [fst snd].
    + eapply resting_kept; [by rewrite Hf| |done]. intros p _. by rewrite Hf.
    + by apply from_failed.
    + unfold find_group. by rewrite Hst.
    + unfold find_segment. rewrite Hst. cbn. by rewrite Hf.
Qed.

(** The group in use, whoever sends the request. *)
Lemma waking_step L tr op s c pre tr' rs st gr t m :
  let '(o, s') := execute op s in
  waking L tr s c pre tr' rs st gr t m → sound_op q written op →
  ∃ tr1 rs1 st1 gr1, waking (note op o L) (tr ++ option_list (group_step q g (op, o))) s'
    c pre tr1 rs1 st1 gr1 t m.
Proof.
  rewrite (surjective_pairing (execute op s)).
  intros [Hpre -> Hs Hok Hty Hdur Hload Hfrom Hfile] [Hplain Hprod].
  pose proof (seen_located _ _ _ _ _ _ _ _ _ _ Hs) as Hl. set (o := (execute op s).1).
  assert (∀ tr1 rs1 st1 gr1, seen c tr1 (execute op s).2 rs1 st1 gr1 →
    (pre ++ tr') ++ option_list (group_step q g (op, o)) = pre ++ tr1 →
    from (note op o L) rs1 → files (execute op s).2.1 !! log_path = Some (log_bytes rs1) →
    ∃ tr1 rs1 st1 gr1, waking (note op o L) ((pre ++ tr') ++ option_list (group_step q g (op, o)))
      (execute op s).2 c pre tr1 rs1 st1 gr1 t m) as Hdone.
  { intros tr1 rs1 st1 gr1 Hs1 Htr1 Hfrom1 Hfile1. by exists tr1, rs1, st1, gr1. }
  destruct (group_step q g _) as [x|] eqn:Hx; cbn [option_list] in *.
  { destruct (seen_mine _ _ _ Hclock _ _ _ _ _ _ _ _ _ Hs Hx) as (st1 & gr1 & Hs1).
    apply (Hdone _ _ _ _ Hs1); [by rewrite app_assoc|by rewrite note_other by (by intros ? ->)|].
    by rewrite (mine_log_kept _ _ _ _ Hl Hx). }
  destruct (decide (op_log op = Some q)) as [Hlog|Hlog].
  2: { destruct (seen_theirs _ _ _ Hq Hq_ne Hg _ _ _ _ _ _ _ _ Hs Hplain Hx ltac:(by intros m' ->)) as
         [st1 Hs1].
       apply (Hdone _ _ _ _ Hs1); [by rewrite app_nil_r|by rewrite note_other by (by intros ? ->)|].
       by rewrite (log_kept options_ q Hq Hq_ne op s Hl Hplain Hlog). }
  destruct op as [q'|q' mg| | | | | |]; try done; injection Hlog as ->.
  - destruct s as [w qs]. rewrite create_again in * by (eexists; apply Hs).
    by apply (Hdone _ _ _ _ Hs); [rewrite app_nil_r|..].
  - destruct (Hprod mg eq_refl) as [Hw Hm].
    destruct (seen_produce _ _ _ Hdepth Hq Hq_ne Hg _ (λ _, calm) _ _ mg _ _ _ _ Hs Hw Hm)
      as (rs1 & st1 & Hs1 & Hrs1).
    apply (Hdone _ _ _ _ Hs1); [by rewrite app_nil_r| |].
    + unfold o. destruct Hrs1 as [[-> Ho]|[-> ->]]; [by apply from_failed|by apply from_produced].
    + destruct (seen_log _ _ _ _ _ _ _ _ _ _ Hs1 Hw) as (_ & Hf & _).
      by rewrite (seen_path _ _ _ _ _ _ _ _ _ _ Hs1) in Hf.
Qed.

Lemma phase_step L tr op s :
  let '(o, s') := execute op s in
  phase L tr s → sound_op q written op → NoDup (asked (note op o L)) →
  phase (note op o L) (tr ++ option_list (group_step q g (op, o))) s'.
Proof.
  rewrite (surjective_pairing (execute op s)).
  intros [(rs & m & Hs)|(c & pre & tr' & rs & st & gr & t & m & Hs)] Hsound Hd.
  2: { pose proof (waking_step L tr op s c pre tr' rs st gr t m) as Hw.
       rewrite (surjective_pairing (execute op s)) in Hw. destruct (Hw Hs Hsound) as (tr1 & rs1 & st1 &
         gr1 & Hs1).
       right. by exists c, pre, tr1, rs1, st1, gr1, t, m. }
  destruct Hsound as [Hplain Hprod]. destruct (group_step q g _) as [x|] eqn:Hx; cbn [option_list].
  { rewrite note_other in * by (by intros ? ->). by eapply sleeping_mine. }
  rewrite app_nil_r. left. destruct (decide (op_log op = Some q)) as [Hlog|Hlog].
  - destruct op as [q'|q' mg| | | | | |]; try done; injection Hlog as ->.
    + exists rs, m. by apply sleeping_create.
    + destruct (Hprod mg eq_refl) as [Hw Hm]. by eapply sleeping_produce.
  - exists rs, m. rewrite note_other by (by intros ? ->). by apply sleeping_others.
Qed.

Lemma phase_run L reqs tr s :
  phase L tr s → (∀ r, r ∈ reqs → sound_op q written r.2) →
  let '(hs, s') := run_tasks (map (task_of options_) reqs) s in
  NoDup (asked (notes L hs)) → phase (notes L hs) (tr ++ group_trace q g hs) s'.
Proof.
  intros Hp. induction reqs as [|r reqs IH] using rev_ind; intros Hreqs; [cbn; by rewrite !app_nil_r|].
  rewrite map_app. cbn [map]. rewrite run_tasks_snoc.
  specialize (IH ltac:(intros; apply Hreqs, elem_of_app; by left)).
  destruct (run_tasks _ s) as [hs s1]. rewrite run_task_of. unfold group_trace in *.
  rewrite omap_app, app_assoc. intros Hd.
  assert (notes L (hs ++ [(r.1, (r.2, (execute r.2 s1).1))]) = note r.2 (execute r.2 s1).1 (notes L hs))
    as Hnotes by (unfold notes; by rewrite foldl_app).
  change (promise (task_of options_ r)) with r.1 in *. rewrite Hnotes in Hd |- *.
  pose proof (phase_step (notes L hs) (tr ++ omap (λ h, group_step q g h.2) hs) r.2 s1) as Hstep.
  rewrite (surjective_pairing (execute r.2 s1)) in Hstep. apply Hstep; [apply IH| |done].
  - rewrite asked_note in Hd. by apply NoDup_app in Hd as [? _].
  - apply Hreqs, elem_of_app. right. by apply list_elem_of_singleton.
Qed.
End phases.

(** ** Processes *)

Context (hash : string → Z) (Hcount : 0 < shard_count options_).

(** The engines that run one after the other, each with an empty table over
    the files that the one before it left. *)
Fixpoint processes (w : World) (xss : list (list step_)) : list QueueEngine :=
  match xss with
  | [] => []
  | xs :: xss =>
      let e := run_ options_ hash xs (started options_ (w, ∅)) in e :: processes (store e).1 xss
  end.

Lemma posted_on_queue reqs : posted (EngineApi.on_queue q reqs) = posted reqs.
Proof.
  unfold posted, EngineApi.on_queue. induction reqs as [|[n op] reqs IH]; [done|].
  rewrite filter_cons. cbn [map concat snd]. case_decide as Hop; cbn [map concat snd]; [by rewrite IH|].
  rewrite IH. destruct op as [|q' mg| | | | | |]; try done. cbn in *. by rewrite decide_False.
Qed.

Lemma posted_done s0 reqs e :
  engine_ok options_ hash s0 reqs e → ∃ more, posted reqs = posted (done_requests e) ++ more.
Proof.
  intros He. destruct (done_prefix options_ hash Hcount s0 reqs q e He) as [l Hl].
  exists (posted l). by rewrite <-posted_on_queue, Hl, posted_app, posted_on_queue.
Qed.

(** A process in the middle of its work. *)
Lemma process_phase written L rs w m xs :
  resting rs w m → from L rs → (written → rs = []) →
  (∀ r, r ∈ requests xs → sound_op q written r.2) → NoDup (asked L ++ posted (requests xs)) →
  let e := run_ options_ hash xs (started options_ (w, ∅)) in
  let L' := notes L (EngineApi.history e) in
  NoDup (asked L') ∧ phase written m L' (group_trace q g (EngineApi.history e)) (store e).
Proof.
  intros Hrest Hfrom Hw Hreqs Hd. cbv zeta. set (e := run_ _ _ _ _).
  pose proof (run_engine_ok options_ hash Hcount (w, ∅) xs) as He. fold e in He.
  destruct (posted_done _ _ _ He) as [more Hmore]. rewrite Hmore, app_assoc in *.
  apply NoDup_app in Hd as (Hd & _). rewrite asked_notes. split; [done|].
  pose proof (phase_run written m L (done_requests e) [] (w, ∅)
    (phase_begins _ _ _ _ _ Hrest Hfrom Hw)) as Hrun.
  rewrite (eo_run _ _ _ _ _ He) in Hrun. apply Hrun; [|by rewrite asked_notes].
  intros r Hr. by apply Hreqs, (done_submitted options_ hash Hcount (w, ∅) _ e r He).
Qed.

Definition no_produce (xs : list step_) : Prop :=
  ∀ r, r ∈ requests xs → plain_op r.2 ∧ ∀ mg, r.2 ≠ OpProduce q mg.

Lemma no_produce_posted reqs : (∀ r mg, r ∈ reqs → r.2 ≠ OpProduce q mg) → posted reqs = [].
Proof.
  induction reqs as [|r reqs IH]; intros Hno; [done|].
  change (posted (r :: reqs)) with (wanted r.2 ++ posted reqs).
  rewrite IH by (intros; apply Hno; by right). rewrite app_nil_r.
  pose proof (λ mg, Hno r mg ltac:(left)) as Hr. destruct r.2 as [|q' mg| | | | | |]; try done. cbn.
  rewrite decide_False; [done|]. intros ->. by eapply Hr.
Qed.

Lemma no_produce_notes L hs :
  (∀ h mg, h ∈ hs → h.2.1 ≠ OpProduce q mg) → notes L hs = L.
Proof.
  revert L. induction hs as [|h hs IH]; intros L Hno; [done|].
  change (notes L (h :: hs)) with (notes (note h.2.1 h.2.2 L) hs).
  rewrite note_other by (intros mg; apply Hno; left). apply IH. intros. apply Hno. by right.
Qed.

(** A later process, to which nothing is produced, notes nothing. *)
Lemma later_phase L rs w m xs :
  resting rs w m → from L rs → NoDup (asked L) → no_produce xs →
  let e := run_ options_ hash xs (started options_ (w, ∅)) in
  phase False m L (group_trace q g (EngineApi.history e)) (store e).
Proof.
  intros Hrest Hfrom Hd Hno. cbv zeta. set (e := run_ _ _ _ _).
  destruct (process_phase False L rs w m xs Hrest Hfrom) as [_ Hp].
  - done.
  - intros r Hr. destruct (Hno r Hr) as [Hplain Hne]. split; [done|]. intros mg Hmg. by destruct (Hne mg).
  - rewrite no_produce_posted, app_nil_r; [done|]. intros r mg Hr. by apply Hno.
  - fold e in Hp. rewrite no_produce_notes in Hp; [done|]. intros h mg Hh.
    pose proof (run_engine_ok options_ hash Hcount (w, ∅) xs) as He. fold e in He.
    apply (Hno (h.1, h.2.1)), (done_submitted options_ hash Hcount (w, ∅) _ e _ He).
    unfold done_requests. apply list_elem_of_fmap. by exists h.
Qed.

Lemma processes_keep xss L rs w m :
  resting rs w m → from L rs → NoDup (asked L) → Forall no_produce xss →
  ∃ m', keeps_settled m (group_trace q g (concat (map EngineApi.history (processes w xss)))) m'.
Proof.
  revert rs w m. induction xss as [|xs xss IH]; intros rs w m Hrest Hfrom Hd Hxss.
  { exists m. by apply failed_keeps. }
  apply Forall_cons in Hxss as [Hxs Hxss].
  pose proof (later_phase L rs w m xs Hrest Hfrom Hd Hxs) as Hp. cbv zeta in Hp.
  destruct (phase_ends _ _ _ _ _ Hp Hd) as (rs' & m' & Hrest' & Hfrom' & Hk).
  destruct (IH rs' _ m' Hrest' Hfrom' Hd Hxss) as [m'' Hk']. exists m''.
  cbn [processes map concat]. unfold group_trace in *. rewrite omap_app. by eapply keeps_settled_app.
Qed.

Lemma later_process e xss L rs w m :
  resting rs w m → from L rs → NoDup (asked L) → Forall no_produce xss → e ∈ processes w xss →
  ∃ rs' w' m' xs, resting rs' w' m' ∧ from L rs' ∧ no_produce xs ∧
    e = run_ options_ hash xs (started options_ (w', ∅)).
Proof.
  revert rs w m. induction xss as [|xs xss IH]; intros rs w m Hrest Hfrom Hd Hxss Hin;
    [by apply elem_of_nil in Hin|].
  apply Forall_cons in Hxss as [Hxs Hxss]. cbn [processes] in Hin.
  apply elem_of_cons in Hin as [->|Hin]; [by exists rs, w, m, xs|].
  pose proof (later_phase L rs w m xs Hrest Hfrom Hd Hxs) as Hp. cbv zeta in Hp.
  destruct (phase_ends _ _ _ _ _ Hp Hd) as (rs' & m' & Hrest' & Hfrom' & _).
  by eapply IH.
Qed.

(** ** What was produced *)

Lemma answered_note op o L x : x ∈ answered L → x ∈ answered (note op o L).
Proof.
  intros Hx. destruct op as [|q' m| | | | | |]; try done. cbn. case_decide; [|done]. cbn.
  destruct o as [[]| |]; try done. apply elem_of_app. by left.
Qed.

Lemma answered_kept L hs x : x ∈ answered L → x ∈ answered (notes L hs).
Proof.
  revert L. induction hs as [|h hs IH]; intros L Hx; [done|].
  by apply (IH (note h.2.1 h.2.2 L)), answered_note.
Qed.

Lemma answered_notes L hs i m n :
  (i, (OpProduce q m, Good (ROffset n))) ∈ hs → (n, m) ∈ answered (notes L hs).
Proof.
  revert L. induction hs as [|h hs IH]; intros L Hin; [by apply elem_of_nil in Hin|].
  change (notes L (h :: hs)) with (notes (note h.2.1 h.2.2 L) hs).
  apply elem_of_cons in Hin as [<-|Hin]; [|by apply IH].
  apply answered_kept. cbn. rewrite decide_True by done. cbn. apply elem_of_app. right.
  by apply list_elem_of_singleton.
Qed.

Lemma on_disk_dom rs w m i r :
  on_disk rs w m → distinct_ids rs → rs !! i = Some r → is_Some (m !! record_id r).
Proof.
  intros (next & snap & es & _ & _ & _ & _ & ->) Hd Hr.
  pose proof (replayed_origin es (restored snap (log_runtime "recovered-default-ready" rs)) (record_id r)) as Ho.
  rewrite lookup_restored in Ho.
  assert (log_runtime "recovered-default-ready" rs !! record_id r =
    Some (default_runtime (Z.of_nat i) (enqueue_ts (header r)) "recovered-default-ready")) as Hlog
    by (apply lookup_log_runtime; [done|]; by exists i, r).
  rewrite Hlog in Ho. destruct (replayed _ _ !! record_id r); [by eexists|done].
Qed.

(** A log that is indexed gives the message back. *)
Lemma read_back L rs w seg m n :
  from L rs → (n, m) ∈ answered L → indexed rs seg → files w !! path_ seg = Some (log_bytes rs) →
  ∃ r, (Read seg n w).1 = Good r ∧ ∀ off count, result_message (make_result r off count) = m.
Proof.
  intros [_ Hk] Hin Hidx Hfile. rewrite Forall_forall in Hk. destruct (Hk _ Hin) as [Hn Hr]. cbn [fst snd] in *.
  exists (stored (set_offset n (record_of m))). split; [|intros; apply delivered_is_produced].
  rewrite (read_log rs [] w seg n (proj1 calm) Hidx) by (by rewrite app_nil_r).
  by rewrite bool_decide_eq_true_2, Hr.
Qed.

Lemma phase_read written m0 L tr s st m n :
  phase written m0 L tr s → (n, m) ∈ answered L → s.2 !! q = Some st →
  ∃ r, (Read (segment st) n s.1).1 = Good r ∧ ∀ off count, result_message (make_result r off count) = m.
Proof.
  intros [(rs & m' & [_ _ Hfrom _ Hl _ Hseg])|(c & pre & tr' & rs & st' & gr & t & m' & Hs)] Hin Hst.
  - unfold find_segment in Hseg. rewrite Hst in Hseg. destruct Hseg as (Hidx & Hfile & _).
    eapply read_back; [done..|]. by rewrite (Hl q st Hst).
  - pose proof (wk_seen _ _ _ _ _ _ _ _ _ _ _ _ _ Hs) as Hseen.
    pose proof (seen_queue _ _ _ _ _ _ _ _ _ _ Hseen) as Hst'.
    simplify_eq. destruct (seen_ok _ _ _ _ _ _ _ _ _ _ Hseen) as (_ & Hidx & _).
    eapply read_back; [apply Hs|done|exact Hidx|].
    rewrite (seen_path _ _ _ _ _ _ _ _ _ _ Hseen). apply Hs.
Qed.

(** The messages that the files give are known to the group from its loading. *)
Lemma phase_known written m0 L tr s st gr id :
  phase written m0 L tr s → is_Some (m0 !! id) → s.2 !! q = Some st → groups st !! g = Some gr →
  is_Some (runtime gr !! id).
Proof.
  intros [(rs & m & [_ _ _ _ _ Hgr _])|(c & pre & tr' & rs & st' & gr' & t & m & Hs)] [rt Hid] Hst Hg'.
  - unfold find_group in Hgr. rewrite Hst in Hgr. cbn in Hgr. congruence.
  - destruct Hs as [_ _ [Hst' Hgr' _ Hh _ _] Hok _ _ [Hrt Hsub] _ _]. simplify_eq.
    destruct (history_run _ _ _ _ _ _ Hclock Hok Hh) as [_ (k & es & Hrun & _)]. cbn [group] in Hrun.
    rewrite (group_run_replayed _ _ _ _ _ Hrun). apply elem_of_dom. rewrite replayed_dom. apply elem_of_dom.
    rewrite Hrt, lookup_fmap, (lookup_weaken _ _ _ _ Hid Hsub). by eexists.
Qed.
End lives.

(** ** Properties *)

Section properties.
Context `{Env}.
Context (options_ : EngineOptions) (hash : string → Z) (q g : string) (w : World).
Context (xs : list step_) (xss : list (list step_)).
Context (calm : calm_run) (Hclock : clock_bounded) (Hcount : 0 < shard_count options_).
Context (Hdepth : max_queue_depth options_ < 2 ^ 64) (Hmax : 0 <= max_retry_count options_).
Context (Hq : plain q) (Hq_ne : q ≠ "") (Hg : plain g) (Hroom : roomy g).

(** The queue and the group have no files yet; the first process is asked to
    produce messages that fit, with different identifiers; the later ones
    produce nothing to the queue. *)
Record from_scratch : Prop := {
  fs_log : files w !! SegmentPath options_ q = None;
  fs_events : files w !! GroupEventPath options_ q g = None;
  fs_state : files w !! GroupStatePath options_ q g = None;
  fs_first r : r ∈ requests xs → plain_op r.2 ∧ ∀ m, r.2 = OpProduce q m → sound_message m;
  fs_distinct : NoDup (posted q (requests xs));
  fs_later : Forall (no_produce q) xss;
}.

Abbreviation first := (run_ options_ hash xs (started options_ (w, ∅))).
Abbreviation later := (processes options_ hash (store first).1 xss).

Lemma first_phase :
  from_scratch →
  let L := notes q (mkLedger [] []) (EngineApi.history first) in
  NoDup (asked L) ∧
  phase options_ q g True ∅ L (group_trace q g (EngineApi.history first)) (store first).
Proof.
  intros [Hlog Hevents Hstate Hxs Hd _].
  apply (process_phase options_ q g calm Hclock Hdepth Hq Hq_ne Hg Hroom hash Hcount True (mkLedger [] []) []).
  - by apply resting_nothing.
  - split; [by apply sublist_nil_l|done].
  - done.
  - intros r Hr. destruct (Hxs r Hr) as [Hplain Hm]. split; [done|].
    intros mg Hmg. split; [done|by apply Hm].
  - done.
Qed.

(** C1. A settled message is gone for ever, as long as nothing is produced to
    its queue after a restart.  The queue and the group have no files at the
    beginning, names have no slash, the messages fit and have different
    identifiers, and nothing is refused.  A first process serves any requests
    of any clients on any number of threads, for all queues and groups; then
    the engine is stopped or killed between two steps of its workers and
    started again any number of times, each later process serving any requests
    but none that produces to this queue.  Once an acknowledgement, or a
    rejection without requeueing, was answered with success, by whichever
    process, no consume request that is answered after it, by that process or
    any later one, is given the message.  (The restriction is needed: after a
    restart the log's descriptor stands at the start of the file, and the first
    append overwrites the first record,
    [SegmentLog.append_after_reopen_overwrites].) *)
Theorem settled_for_good l1 i op id l2 j res :
  from_scratch →
  EngineApi.history first ++ concat (map EngineApi.history later) = l1 ++ (i, (op, Good ROk)) :: l2 →
  op = OpAck q g id ∨ op = OpNack q g id false →
  (j, (OpConsume q g, Good (RMessage (Some res)))) ∈ l2 →
  msg_id (result_message res) ≠ id.
Proof.
  intros Hfs Hall Hop Hin Hid. destruct (first_phase Hfs) as [Hd Hp]. cbv zeta in *.
  destruct (phase_ends _ _ _ calm Hclock Hroom _ _ _ _ _ Hp Hd) as (rs & m & Hrest & Hfrom & Hk).
  destruct (processes_keep options_ q g calm Hclock Hdepth Hq Hq_ne Hg Hroom hash Hcount xss _ rs _ m
    Hrest Hfrom Hd (fs_later Hfs)) as [m' Hk'].
  destruct (trace_settled q g _ _ _ _ _ _ Hall Hop) as (gop & Hset & Htr).
  unfold group_trace in Htr at 1. rewrite omap_app in Htr.
  destruct (keeps_settled_app _ _ _ _ _ Hk Hk') as [_ Hfinal].
  destruct (Hfinal _ _ id _ Hset Htr) as [Hz _].
  pose proof (trace_delivered _ _ _ _ _ Hin) as Hpos. rewrite Hid in Hpos. lia.
Qed.

(** C3. What was produced is not lost, as long as nothing is produced to its
    queue after a restart.  In the setting of C1 (only the first process
    produces to the queue, messages that fit and have different identifiers,
    nothing is refused), when the first process answered a produce request
    with an offset, then in it and in every later process, at any moment at
    which the queue is in the table, reading the log at that offset gives a
    record that a consumer gets as exactly the message that was produced; and
    in every later process the group, from the moment it is loaded, knows the
    message. *)
Theorem produced_for_good i m n :
  from_scratch →
  (i, (OpProduce q m, Good (ROffset n))) ∈ EngineApi.history first →
  (∀ e st, e ∈ first :: later → (store e).2 !! q = Some st →
     ∃ r, (Read (segment st) n (store e).1).1 = Good r ∧
       ∀ off count, result_message (make_result r off count) = m) ∧
  (∀ e st gr, e ∈ later → (store e).2 !! q = Some st → groups st !! g = Some gr →
     is_Some (runtime gr !! msg_id m)).
Proof.
  intros Hfs Hin. destruct (first_phase Hfs) as [Hd Hp]. cbv zeta in *.
  pose proof (answered_notes q (mkLedger [] []) _ _ _ _ Hin) as Hnm. set (L := notes _ _ _) in *.
  destruct (phase_ends _ _ _ calm Hclock Hroom _ _ _ _ _ Hp Hd) as (rs & m1 & Hrest & Hfrom & _).
  assert (∀ e, e ∈ later → ∃ m' tr, phase options_ q g False m' L tr (store e) ∧ is_Some (m' !! msg_id m))
    as Hlater.
  { intros e He. destruct (later_process options_ q g calm Hclock Hdepth Hq Hq_ne Hg Hroom hash Hcount
      e xss L rs _ m1 Hrest Hfrom Hd (fs_later Hfs) He) as (rs' & w' & m' & ys & Hrest' & Hfrom' & Hys & ->).
    exists m'. eexists. split; [by eapply later_phase|].
    destruct Hfrom' as [_ Hk]. rewrite Forall_forall in Hk. destruct (Hk _ Hnm) as [_ Hr].
    cbn [fst snd] in Hr. rewrite <-(record_id_of n m). eapply on_disk_dom; [apply Hrest'|apply Hrest'|done]. }
  split.
  - intros e st [->|He]%elem_of_cons Hst; [by eapply phase_read|].
    destruct (Hlater e He) as (m' & tr & Hp' & _). by eapply phase_read.
  - intros e st gr He Hst Hgr. destruct (Hlater e He) as (m' & tr & Hp' & Hid). by eapply phase_known.
Qed.
End properties.
