(* ===== verification/Facade.v ===== *)
(** * The library's interface ([src/core/api/pomai_queue.cc])

    [PomaiQueue] forwards every request to the engine, whose methods
    ([QueueEngine::CreateQueue] and the others in
    [src/core/engine/queue_engine.cc]) submit a task to a shard and wait for
    its future.  The programs that use the library are written against the
    class [QueueService]; [SeqQueue] is the specification of the class, a
    queue without shards and threads, and [Implements] says what it means to
    refine it.  [PomaiQueue] does, for one caller at a time: a request answers
    what its operation answers on the store as it is, and leaves no task
    behind. *)
From S2P Require Import Prelude Status Io Message Handlers HandlerSpecs Engine ShardActor EngineApi.

(** ** The interface *)

Class QueueService (S : Type) := {
  new_service : EngineOptions → World → S;
  service_world : S → World;
  outside : ∀ {A}, W A → M S A;             (* the caller's own file accesses *)
  Start_ : M S unit;
  Stop_ : M S unit;
  Destroy_ : M S unit;
  CreateQueue_ : string → M S unit;
  Produce_ : string → Message → M S Z;
  Consume_ : string → string → M S (option ConsumeResult);
  Ack_ : string → string → MessageId → M S unit;
  Nack_ : string → string → MessageId → bool → M S unit;
  GetStats_ : string → string → M S QueueStats;
  InspectMessage_ : string → string → MessageId → M S MessageDebugView;
  ReplayToSequence_ : string → string → Z → M S ReplayResult;
}.

(** What a reply carries, for the request that it answers. *)
Section replies.
Context {S : Type}.
Definition reply_unit (r : Reply) : M S unit :=
  match r with ROk => ret tt | _ => throw "reply" end.
Definition reply_offset (r : Reply) : M S Z :=
  match r with ROffset off => ret off | _ => throw "reply" end.
Definition reply_message (r : Reply) : M S (option ConsumeResult) :=
  match r with RMessage m => ret m | _ => throw "reply" end.
Definition reply_stats (r : Reply) : M S QueueStats :=
  match r with RStats s => ret s | _ => throw "reply" end.
Definition reply_view (r : Reply) : M S MessageDebugView :=
  match r with RView v => ret v | _ => throw "reply" end.
Definition reply_replay (r : Reply) : M S ReplayResult :=
  match r with RReplay x => ret x | _ => throw "reply" end.
End replies.

(** ** The specification: a queue that executes requests itself *)

Record SeqQueue := mkSeq {
  sq_options : EngineOptions;
  sq_store : World * Queues;
  sq_up : bool;
}.

Section seq.
Context `{Env}.

Definition seq_call (op : Op) : M SeqQueue Reply := λ q,
  if shard_count (sq_options q) =? 0
  then (Fail (mkStatus kInvalidArgument "shard_count must be >= 1"), q)
  else if negb (sq_up q) then (Fail (mkStatus kUnavailable "engine not started"), q)
  else let '(o, s) := execute (sq_options q) op (sq_store q) in
       (o, mkSeq (sq_options q) s (sq_up q)).

Definition seq_start : M SeqQueue unit := λ q,
  if shard_count (sq_options q) =? 0
  then (Fail (mkStatus kInvalidArgument "shard_count must be >= 1"), q)
  else (Good tt, mkSeq (sq_options q) (sq_store q) true).

Definition seq_stop : M SeqQueue unit := λ q, (Good tt, mkSeq (sq_options q) (sq_store q) false).

#[global] Instance SeqQueue_service : QueueService SeqQueue := {|
  new_service o w := mkSeq o (w, ∅) false;
  service_world q := (sq_store q).1;
  outside A m := λ q, let '(o, w) := m (sq_store q).1 in
                      (o, mkSeq (sq_options q) (w, (sq_store q).2) (sq_up q));
  Start_ := seq_start;
  Stop_ := seq_stop;
  Destroy_ := seq_stop;
  CreateQueue_ q := bind (seq_call (OpCreateQueue q)) reply_unit;
  Produce_ q m := bind (seq_call (OpProduce q m)) reply_offset;
  Consume_ q g := bind (seq_call (OpConsume q g)) reply_message;
  Ack_ q g id := bind (seq_call (OpAck q g id)) reply_unit;
  Nack_ q g id b := bind (seq_call (OpNack q g id b)) reply_unit;
  GetStats_ q g := bind (seq_call (OpGetStats q g)) reply_stats;
  InspectMessage_ q g id := bind (seq_call (OpInspectMessage q g id)) reply_view;
  ReplayToSequence_ q g n := bind (seq_call (OpReplayToSequence q g n)) reply_replay;
|}.
End seq.

(** ** The engine's blocking methods *)

Section calls.
Context `{Env}.
Context (options_ : EngineOptions) (hash : string → Z).

Definition reply_to (n : nat) (e : QueueEngine) : option (outcome Reply) :=
  (λ it, it.2.2.2) <$> list_find (λ h, h.1 = n) (history e).

(** A request of a caller that waits for its future; the worker of the shard
    takes two steps for every task that waits. *)
Definition call (op : Op) : M QueueEngine Reply := λ e,
  let n := length (history e) in
  match request options_ hash (n, op) e with
  | (Good _, e) =>
      let i := ShardForQueue options_ hash (queue_of op) in
      let waiting := from_option (λ a, length (tasks_ a)) 0%nat (shards_ e !! i) in
      let e := Nat.iter (2 * waiting) (work i) e in
      (default (Throw "blocked") (reply_to n e), e)
  | (Fail st, e) => (Fail st, e)
  | (Throw what, e) => (Throw what, e)
  end.
End calls.

Module Requests.
Section requests.
Context `{Env}.
Context (options_ : EngineOptions) (hash : string → Z).

Abbreviation call := (call options_ hash).

Definition CreateQueue q : M QueueEngine unit := bind (call (OpCreateQueue q)) reply_unit.
Definition Produce q m : M QueueEngine Z := bind (call (OpProduce q m)) reply_offset.
Definition Consume q g : M QueueEngine (option ConsumeResult) :=
  bind (call (OpConsume q g)) reply_message.
Definition Ack q g id : M QueueEngine unit := bind (call (OpAck q g id)) reply_unit.
Definition Nack q g id b : M QueueEngine unit := bind (call (OpNack q g id b)) reply_unit.
Definition GetStats q g : M QueueEngine QueueStats := bind (call (OpGetStats q g)) reply_stats.
Definition InspectMessage q g id : M QueueEngine MessageDebugView :=
  bind (call (OpInspectMessage q g id)) reply_view.
Definition ReplayToSequence q g n : M QueueEngine ReplayResult :=
  bind (call (OpReplayToSequence q g n)) reply_replay.
End requests.
End Requests.

(** [~QueueEngine] *)
Definition destroy_QueueEngine `{Env} (e : QueueEngine) : QueueEngine := Stop e.

(** ** [PomaiQueue] *)

Record PomaiQueue := mkPomaiQueue {
  options_ : EngineOptions;
  engine_ : QueueEngine;
}.

Definition set_engine_ (e : QueueEngine) (q : PomaiQueue) : PomaiQueue :=
  mkPomaiQueue (options_ q) e.

(** A method of the member [engine_]. *)
Definition forward {A} (m : EngineOptions → M QueueEngine A) : M PomaiQueue A := λ q,
  zoom engine_ set_engine_ (m (options_ q)) q.

Definition set_store (s : World * Queues) (e : QueueEngine) : QueueEngine :=
  mkEngine s (shards_ e) (history e) (alive e).

Module Api.
Section api.
Context `{Env} (hash : string → Z).

Definition new_PomaiQueue (o : EngineOptions) (w : World) : PomaiQueue :=
  mkPomaiQueue o (new_QueueEngine (w, ∅)).

Definition Start : M PomaiQueue unit := forward (λ o e, EngineApi.Start o e).
Definition Stop : M PomaiQueue unit := forward (λ _ e, (Good tt, EngineApi.Stop e)).
Definition CreateQueue q : M PomaiQueue unit := forward (λ o, Requests.CreateQueue o hash q).
Definition Produce q m : M PomaiQueue Z := forward (λ o, Requests.Produce o hash q m).
Definition Consume q g : M PomaiQueue (option ConsumeResult) :=
  forward (λ o, Requests.Consume o hash q g).
Definition Ack q g id : M PomaiQueue unit := forward (λ o, Requests.Ack o hash q g id).
Definition Nack q g id b : M PomaiQueue unit := forward (λ o, Requests.Nack o hash q g id b).
Definition GetStats q g : M PomaiQueue QueueStats := forward (λ o, Requests.GetStats o hash q g).
Definition InspectMessage q g id : M PomaiQueue MessageDebugView :=
  forward (λ o, Requests.InspectMessage o hash q g id).
Definition ReplayToSequence q g n : M PomaiQueue ReplayResult :=
  forward (λ o, Requests.ReplayToSequence o hash q g n).

(** The destructor of the member [engine_]. *)
Definition destroy_PomaiQueue : M PomaiQueue unit :=
  forward (λ _ e, (Good tt, destroy_QueueEngine e)).
End api.
End Api.

#[global] Instance PomaiQueue_service `{Env} (hash : string → Z) : QueueService PomaiQueue := {|
  new_service := Api.new_PomaiQueue;
  service_world q := (store (engine_ q)).1;
  outside A m := forward (λ _, zoom store set_store (on_fst m));
  Start_ := Api.Start;
  Stop_ := Api.Stop;
  Destroy_ := Api.destroy_PomaiQueue;
  CreateQueue_ := Api.CreateQueue hash;
  Produce_ := Api.Produce hash;
  Consume_ := Api.Consume hash;
  Ack_ := Api.Ack hash;
  Nack_ := Api.Nack hash;
  GetStats_ := Api.GetStats hash;
  InspectMessage_ := Api.InspectMessage hash;
  ReplayToSequence_ := Api.ReplayToSequence hash;
|}.

(** ** Refinement

    [refines obs valid m sp]: from a valid state the call ends as the
    specification's does on the observed state, and the state it leaves is
    observed as the specification's and is valid, unless an exception ended the
    process. *)

Definition thrown {A} (o : outcome A) : bool := match o with Throw _ => true | _ => false end.

Section refinement.
Context {T U : Type} (obs : T → U) (valid : T → Prop).

Definition refines {A} (m : M T A) (sp : M U A) : Prop :=
  ∀ s, valid s → sp (obs s) = ((m s).1, obs (m s).2) ∧ (thrown (m s).1 = false → valid (m s).2).

Lemma refines_ret {A} (a : A) : refines (ret a) (ret a).
Proof. by intros s Hs. Qed.

Lemma refines_fail {A} c msg : refines (A:=A) (fail c msg) (fail c msg).
Proof. by intros s Hs. Qed.

Lemma refines_throw {A} what : refines (A:=A) (throw what) (throw what).
Proof. by intros s Hs. Qed.

Lemma refines_bind {A B} (m : M T A) sp (f : A → M T B) g :
  refines m sp → (∀ a, refines (f a) (g a)) → refines (bind m f) (bind sp g).
Proof.
  intros Hm Hf s Hs. destruct (Hm s Hs) as [Heq Hv]. unfold bind. rewrite Heq.
  destruct (m s) as [[a|e|e] s']; cbn in *; [by apply Hf, Hv|by split..].
Qed.

Lemma refines_attempt {A} (m : M T A) sp : refines m sp → refines (attempt m) (attempt sp).
Proof.
  intros Hm s Hs. destruct (Hm s Hs) as [Heq Hv]. unfold attempt. rewrite Heq.
  destruct (m s) as [[a|e|e] s']; cbn in *; by split.
Qed.
End refinement.

Create HintDb refines discriminated.
#[export] Hint Resolve refines_ret refines_fail refines_throw : refines.

(** The contract of the class: the service is observed as a [SeqQueue]. *)
Class Implements `{Env} (S : Type) `{QueueService S} := {
  observe : S → SeqQueue;
  usable : S → Prop;
  new_ok o w : is_u32 (shard_count o) → usable (new_service o w);
  new_observed o w : observe (new_service o w) = new_service o w;
  world_observed s : service_world (observe s) = service_world s;
  outside_ok A (m : W A) : refines observe usable (outside m) (outside m);
  start_ok : refines observe usable Start_ Start_;
  stop_ok : refines observe usable Stop_ Stop_;
  destroy_ok : refines observe usable Destroy_ Destroy_;
  create_ok q : refines observe usable (CreateQueue_ q) (CreateQueue_ q);
  produce_ok q m : refines observe usable (Produce_ q m) (Produce_ q m);
  consume_ok q g : refines observe usable (Consume_ q g) (Consume_ q g);
  ack_ok q g id : refines observe usable (Ack_ q g id) (Ack_ q g id);
  nack_ok q g id b : refines observe usable (Nack_ q g id b) (Nack_ q g id b);
  stats_ok q g : refines observe usable (GetStats_ q g) (GetStats_ q g);
  inspect_ok q g id : refines observe usable (InspectMessage_ q g id) (InspectMessage_ q g id);
  replay_ok q g n : refines observe usable (ReplayToSequence_ q g n) (ReplayToSequence_ q g n);
}.

#[export] Hint Resolve outside_ok start_ok stop_ok destroy_ok create_ok produce_ok consume_ok
  ack_ok nack_ok stats_ok inspect_ok replay_ok : refines.

(** ** The facade implements the specification *)

Section facade_ok.
Context `{Env} (hash : string → Z).

Abbreviation Shard := (ShardActor (World * Queues) (Op * outcome Reply)).

(** A worker that waits for tasks. *)
Definition waiting_shard (a : Shard) : Prop :=
  tasks_ a = [] ∧ running_ a = true ∧ worker_ a = Idle.

(** Nothing is submitted and not answered; promises are numbered by the
    requests before them. *)
Record quiet (o : EngineOptions) (e : QueueEngine) : Prop := {
  q_alive : alive e = true;
  q_shards : shards_ e = [] ∨
    (0 < shard_count o ∧ length (shards_ e) = Z.to_nat (shard_count o));
  q_waiting : Forall waiting_shard (shards_ e);
  q_promises : map fst (history e) = seq 0 (length (history e));
}.

Definition seq_view (q : PomaiQueue) : SeqQueue :=
  mkSeq (options_ q) (store (engine_ q))
    (match shards_ (engine_ q) with [] => false | _ => true end).

Definition usable_queue (q : PomaiQueue) : Prop :=
  0 <= shard_count (options_ q) ∧ quiet (options_ q) (engine_ q).

Abbreviation refines_ := (refines seq_view usable_queue).

(** An idle worker with one task does it in two steps. *)
Lemma work_twice i e a t :
  alive e = true → shards_ e !! i = Some a → tasks_ a = [t] → worker_ a = Idle →
  ∃ a', Nat.iter 2 (work i) e =
    mkEngine (fn t (store e)).2 (<[i := a']> (shards_ e))
      (history e ++ [(promise t, (fn t (store e)).1)]) (no_throw (promise t, (fn t (store e)).1)) ∧
    tasks_ a' = [] ∧ running_ a' = running_ a ∧ worker_ a' = Idle.
Proof.
  intros Hal Ha Ht Hw. pose proof (lookup_lt_Some _ _ _ Ha) as Hi.
  set (a1 := mkActor [] (running_ a) (Busy t) (store e) (fulfilled a)).
  assert (work i e = mkEngine (store e) (<[i := a1]> (shards_ e)) (history e) true) as Hstep.
  { unfold work. rewrite Hal, Ha. cbn. unfold RunLoop_step. cbn. rewrite Hw, Ht. cbn.
    by rewrite drop_all, app_nil_r. }
  cbn [Nat.iter]. unfold Nat.iter. cbn. rewrite Hstep. unfold work. cbn [alive shards_ negb].
  rewrite list_lookup_insert_eq by done. cbn. unfold RunLoop_step. cbn.
  destruct (fn t (store e)) as [r s]. cbn. rewrite list_insert_insert_eq, drop_app_length.
  cbn [forallb]. rewrite andb_true_r. by eexists.
Qed.

Lemma reply_to_last n e h :
  map fst (history e) = seq 0 n → h.1 = n →
  list_find (λ h, h.1 = n) (history e ++ [h]) = Some (length (history e), h).
Proof.
  intros Hp Hn. apply list_find_Some. split_and!; [|done|].
  - by rewrite lookup_app_r, Nat.sub_diag by done.
  - intros j y Hy Hj Heq. rewrite lookup_app_l in Hy by done.
    assert (map fst (history e) !! j = Some y.1) as Hl by by rewrite list_lookup_fmap, Hy.
    rewrite Hp in Hl. apply lookup_seq in Hl. lia.
Qed.

(** A request of the only caller of a started engine. *)
Lemma call_started o op e :
  quiet o e → shards_ e ≠ [] →
  ∃ e', call o hash op e = ((execute o op (store e)).1, e') ∧
    store e' = (execute o op (store e)).2 ∧ shards_ e' ≠ [] ∧
    (thrown (execute o op (store e)).1 = false → quiet o e').
Proof.
  intros [Hal Hsh Hwait Hp] Hne. destruct Hsh as [?|[Hpos Hlen]]; [done|].
  unfold call, request. rewrite Validate_started by done. cbn [queue_of snd].
  set (i := ShardForQueue o hash (queue_of op)). set (n := length (history e)).
  destruct (lookup_lt_is_Some_2 (shards_ e) i) as [a Ha].
  { rewrite Hlen. by apply ShardForQueue_lt. }
  destruct (proj1 (Forall_lookup _ _) Hwait i a Ha) as (Ht & Hr & Hw).
  set (e1 := set_shards _ e). set (a1 := Submit (task_of o (n, op)) a).
  assert (shards_ e1 !! i = Some a1) as Ha1.
  { cbn. by rewrite list_lookup_alter, decide_True, Ha. }
  assert (tasks_ a1 = [task_of o (n, op)]) as Ht1 by (cbn; by rewrite Ht).
  rewrite Ha1. cbn [from_option]. rewrite Ht1. cbn [length Nat.mul Nat.add].
  destruct (work_twice i e1 a1 _ Hal Ha1 Ht1 Hw) as (a2 & -> & Hq).
  rewrite run_task_of. unfold reply_to. cbn [history store promise task_of fst snd].
  rewrite (reply_to_last n e) by done. cbn [fmap option_fmap option_map default fst snd].
  change (store e1) with (store e).
  assert (length (<[i:=a2]> (shards_ e1)) = length (shards_ e)) as Hlen'.
  { cbn. by rewrite length_insert, length_alter. }
  eexists. split; [reflexivity|]. split; [done|]. split.
  { cbn [shards_]. intros Heq. rewrite Heq in Hlen'. by destruct (shards_ e). }
  intros Hthrow. split; cbn [alive shards_ history].
  - unfold no_throw. cbn. by destruct (execute o op (store e)).1.
  - right. by rewrite Hlen'.
  - apply Forall_lookup. intros j b [(-> & <- & _)|[Hne' Hb]]%list_lookup_insert_Some.
    + unfold waiting_shard. cbn in Hq. by rewrite Hr in Hq.
    + cbn in Hb. rewrite list_lookup_alter_ne in Hb by done. by eapply Forall_lookup_1.
  - change (history e1) with (history e). rewrite map_app, length_app, seq_app. cbn. by rewrite Hp.
Qed.

Lemma call_stopped o op e :
  shards_ e = [] →
  call o hash op e =
  (Fail (if shard_count o =? 0 then mkStatus kInvalidArgument "shard_count must be >= 1"
         else mkStatus kUnavailable "engine not started"), e).
Proof.
  intros Hs. unfold call, request, ValidateShardConfig. rewrite Hs.
  by destruct (shard_count o =? 0).
Qed.

Lemma call_ok op : refines_ (forward (λ o, call o hash op)) (seq_call op).
Proof.
  intros [o e] [Hcount Hq]. cbn in *. unfold seq_call, forward, zoom, seq_view. cbn.
  destruct (shards_ e) as [|a0 l] eqn:Hsh.
  - rewrite call_stopped by done. destruct (shard_count o =? 0); cbn; by rewrite Hsh.
  - destruct (call_started o op e Hq) as (e' & -> & Hst & Hne & Hq'); [by rewrite Hsh|].
    destruct (q_shards _ _ Hq) as [Hnil|[Hpos _]]; [by rewrite Hsh in Hnil|].
    rewrite (proj2 (Z.eqb_neq _ _)) by lia. cbn. split; [|intros; split; auto].
    destruct (execute o op (store e)) as [r s]. cbn in *. rewrite Hst. by destruct (shards_ e').
Qed.
(** *** [Start] and [Stop] *)

(** Nothing but the shards changes. *)
Definition same_results (e e' : QueueEngine) : Prop :=
  store e' = store e ∧ history e' = history e ∧ alive e' = alive e.

#[local] Instance same_results_preorder : PreOrder same_results.
Proof. split; unfold same_results; repeat intro; destruct_and?; split_and!; congruence. Qed.

Lemma work_idle i e :
  (∀ a, shards_ e !! i = Some a → drained a) → same_results e (work i e).
Proof.
  intros Hd. destruct (work_cases i e) as [->|(a & Ha & Hal & [(a' & _ & ->)|(t & r & s & a' & Hw & _)])].
  - done.
  - by rewrite <-Hal.
  - specialize (Hd a Ha). unfold drained, in_hand in Hd. by rewrite Hw in Hd.
Qed.

Lemma iter_idle n i e :
  (∀ a, shards_ e !! i = Some a → drained a) → same_results e (Nat.iter n (work i) e).
Proof.
  intros Hd. induction n as [|n IH]; [done|]. rewrite Nat.iter_succ. etrans; [exact IH|].
  apply work_idle. intros b Hb. destruct (shards_ e !! i) as [a|] eqn:Ha.
  - destruct (iter_drained n i e a Ha (Hd a eq_refl)) as (a' & Ha' & Hd'). by simplify_eq.
  - assert (length (shards_ (Nat.iter n (work i) e)) = length (shards_ e)) as Hlen.
    { clear. induction n as [|n IH]; [done|]. rewrite Nat.iter_succ, <-IH.
      destruct (work_cases i (Nat.iter n (work i) e))
        as [->|(? & _ & _ & [(? & _ & ->)|(? & ? & ? & ? & _ & _ & _ & ->)])]; cbn;
        by rewrite ?length_insert. }
    apply lookup_ge_None in Ha. apply lookup_lt_Some in Hb. lia.
Qed.

Lemma join_idle i e :
  (∀ a, shards_ e !! i = Some a → waiting_shard a) → same_results e (join i e).
Proof.
  intros Hd. unfold join. trans (halt i e); [done|]. apply iter_idle.
  intros a. cbn. rewrite list_lookup_alter, decide_True by done.
  destruct (shards_ e !! i) as [b|]; [|done]. intros [= <-].
  destruct (Hd b eq_refl) as (Ht & _ & Hw). unfold drained, in_hand. cbn. by rewrite Ht, Hw.
Qed.

Lemma Stop_quiet e : Forall waiting_shard (shards_ e) → same_results e (EngineApi.Stop e).
Proof.
  intros Hw.
  assert (∀ n k e', (∀ i a, (k <= i)%nat → shards_ e' !! i = Some a → waiting_shard a) →
            same_results e' (foldl (λ e i, join i e) e' (seq k n))) as Hjoins.
  { intros n. induction n as [|n IH]; intros k e' Hk; [done|]. cbn [seq foldl].
    trans (join k e'); [apply join_idle; intros a; by apply Hk|]. apply IH. intros i a Hi.
    rewrite join_other by lia. apply Hk. lia. }
  apply (Hjoins (length (shards_ e)) 0%nat). intros i a _ Ha. by eapply Forall_lookup_1.
Qed.

Lemma quiet_stopped o e e' :
  quiet o e → same_results e e' → quiet o (set_shards [] e').
Proof.
  intros [Hal _ _ Hp] (_ & Hh & Ha). split; cbn; [congruence|by left|by constructor|by rewrite Hh].
Qed.

Lemma Stop_ok : refines_ (forward (λ _ e, (Good tt, EngineApi.Stop e))) seq_stop.
Proof.
  intros [o e] [Hcount Hq]. cbn in *. pose proof (Stop_quiet e (q_waiting _ _ Hq)) as Hs.
  unfold seq_stop, seq_view. cbn [forward]. split; [|intros _; split; [done|]].
  - destruct Hs as (Hst & _). unfold set_engine_, EngineApi.Stop in *. cbn in *. by rewrite Hst.
  - by apply (quiet_stopped o e (EngineApi.Stop e)).
Qed.

Lemma Start_ok : refines_ (forward (λ o e, EngineApi.Start o e)) seq_start.
Proof.
  intros [o e] [Hcount Hq]. cbn in *. unfold seq_start, forward, zoom, EngineApi.Start, seq_view. cbn.
  destruct (Z.eqb_spec (shard_count o) 0) as [Hz|Hz]; [by split|]. cbn.
  pose proof (Stop_quiet e (q_waiting _ _ Hq)) as (Hst & Hh & Hal). destruct Hq as [Hal0 _ _ Hp].
  split.
  - unfold EngineApi.Stop in *. cbn in *. rewrite Hst. destruct (Z.to_nat (shard_count o)) eqn:Hn; [lia|done].
  - intros _. split; [done|]. unfold EngineApi.Stop in *. cbn in *.
    split; cbn; [congruence| | |by rewrite Hh].
    + right. rewrite length_replicate. lia.
    + by apply Forall_replicate.
Qed.

(** *** Requests *)

Lemma forward_call {A} op (f : Reply → M QueueEngine A) (g : Reply → M SeqQueue A) :
  (∀ r, ∃ o, f r = lift_outcome o ∧ g r = lift_outcome o) →
  refines_ (forward (λ o, bind (call o hash op) f)) (bind (seq_call op) g).
Proof.
  intros Hf [o e] Hv. destruct (call_ok op (mkPomaiQueue o e) Hv) as [Heq Hv'].
  unfold bind. rewrite Heq. unfold forward, zoom, bind in *. cbn [options_ engine_] in *.
  destruct (call o hash op e) as [[r|st|what] e']; cbn in *; [|by split..].
  destruct (Hf r) as (x & -> & ->). unfold lift_outcome. cbn. split; [done|]. intros _. by apply Hv'.
Qed.

Lemma outside_refines {A} (m : W A) :
  refines_ (outside (QueueService:=PomaiQueue_service hash) m) (outside m).
Proof.
  intros [o e] [Hcount [Hal Hs Hw Hp]]. cbn in *. unfold forward, zoom, on_fst. cbn.
  unfold zoom. destruct (m (store e).1) as [r w]. cbn. by split.
Qed.

#[local] Ltac reply := apply forward_call; intros []; first [by eexists (Good _)|by eexists (Throw _)].

Lemma new_usable o w : is_u32 (shard_count o) → usable_queue (Api.new_PomaiQueue o w).
Proof. intros Ho. split; cbn; [lia|]. split; cbn; [done|by left|by constructor|done]. Qed.

#[global] Instance PomaiQueue_implements : @Implements _ PomaiQueue (PomaiQueue_service hash).
Proof.
  refine (Build_Implements _ PomaiQueue (PomaiQueue_service hash) seq_view usable_queue
    new_usable (λ _ _, eq_refl) (λ _, eq_refl) (@outside_refines)
    Start_ok Stop_ok Stop_ok _ _ _ _ _ _ _ _); intros; reply.
Defined.
End facade_ok.

(** ** Programs over the interface *)

(** A call of a program that uses the library. *)
Inductive Call := CStart | CStop | CRequest (op : Op).

Section programs.
Context {S : Type} `{QueueService S}.

Definition perform (c : Call) : M S Reply :=
  match c with
  | CStart => do! Start_ in ret ROk
  | CStop => do! Stop_ in ret ROk
  | CRequest (OpCreateQueue q) => do! CreateQueue_ q in ret ROk
  | CRequest (OpProduce q m) => let! off := Produce_ q m in ret (ROffset off)
  | CRequest (OpConsume q g) => let! r := Consume_ q g in ret (RMessage r)
  | CRequest (OpAck q g id) => do! Ack_ q g id in ret ROk
  | CRequest (OpNack q g id b) => do! Nack_ q g id b in ret ROk
  | CRequest (OpGetStats q g) => let! s := GetStats_ q g in ret (RStats s)
  | CRequest (OpInspectMessage q g id) => let! v := InspectMessage_ q g id in ret (RView v)
  | CRequest (OpReplayToSequence q g n) => let! r := ReplayToSequence_ q g n in ret (RReplay r)
  end.

Fixpoint perform_all (cs : list Call) : M S (list (Reply + Status)) :=
  match cs with
  | [] => ret []
  | c :: cs =>
      let! r := attempt (perform c) in
      let! rs := perform_all cs in
      ret (r :: rs)
  end.
End programs.

(** Walk through a program call by call. *)
Ltac refine_step :=
  match goal with
  | |- refines _ _ (bind _ _) (bind _ _) => apply refines_bind; [|intros ?]
  | |- refines _ _ (attempt _) (attempt _) => apply refines_attempt
  | |- refines _ _ (match ?x with _ => _ end) _ => destruct x
  | |- refines _ _ (if ?x then _ else _) _ => destruct x
  | |- refines _ _ _ _ => solve [eauto with refines typeclass_instances]
  end.

Section refined_programs.
Context `{Env} {S : Type} `{I : Implements S}.

Lemma perform_refines c : refines observe usable (perform c) (perform c).
Proof. unfold perform. repeat refine_step. Qed.

Lemma perform_all_refines cs : refines observe usable (perform_all cs) (perform_all cs).
Proof.
  induction cs as [|c cs IH]; cbn [perform_all];
    repeat first [apply perform_refines|apply IH|refine_step].
Qed.
End refined_programs.

(** ** Properties *)

(** C15. The library refines a queue without shards and threads.  Whatever one
    caller does (starting and stopping included, in any order), every call of
    [PomaiQueue] answers what the operation answers when it is executed on the
    store directly, errors and exceptions included, and leaves the same store;
    none waits for ever.  So neither the number of shards nor the hash
    function can be observed. *)
Theorem facade_refines_sequential `{Env} hash options w cs :
  is_u32 (shard_count options) →
  let '(replies, q) :=
    perform_all (H:=PomaiQueue_service hash) cs (Api.new_PomaiQueue options w) in
  perform_all cs (mkSeq options (w, ∅) false) = (replies, seq_view q).
Proof.
  intros Ho. pose proof (new_usable options w Ho) as Hu.
  destruct (perform_all_refines (I:=PomaiQueue_implements hash) cs _ Hu) as [Heq _].
  by destruct (perform_all cs (Api.new_PomaiQueue options w)).
Qed.

Section examples.
#[local] Existing Instance demo_env.

Definition demo_calls : list Call :=
  [CRequest (OpConsume "q" "g"); CStart; CRequest (OpCreateQueue "q");
   CRequest (OpProduce "q" (mkMessage (mkId 3 4) 6 [Byte.x02] ∅ "k"));
   CRequest (OpAck "q" "g" (mkId 3 4)); CStop; CRequest (OpGetStats "q" "g")].

Lemma facade_refines_sequential_witness :
  (perform_all demo_calls (mkSeq two_shards (empty_world, ∅) false)).1 =
  Good [inr (mkStatus kUnavailable "engine not started"); inl ROk; inl ROk; inl (ROffset 0);
        inr (mkStatus kNotFound "inflight not found"); inl ROk;
        inr (mkStatus kUnavailable "engine not started")].
Proof.
  pose proof (facade_refines_sequential demo_hash two_shards empty_world demo_calls
    ltac:(split; vm_compute; congruence)) as Heq.
  destruct (perform_all (H:=PomaiQueue_service demo_hash) demo_calls
    (Api.new_PomaiQueue two_shards empty_world)) as [replies q] eqn:Hrun.
  rewrite Heq. cbn [fst]. change replies with (replies, q).1. rewrite <-Hrun.
  vm_compute. reflexivity.
Defined.
End examples.
