(* ===== verification/Server.v ===== *)
(** * The server processes ([src/server/main.cc],
    [src/cmd/pomaiqueue-server/main.cc])

    Both binaries read a configuration, start the library, create the
    bootstrap queues and wait for a signal.  They are programs over
    [QueueService]; what is proved about them on the specification [SeqQueue]
    holds of [PomaiQueue] by refinement.  A process is its queue, the signal
    flag and what it printed; a call of [main] ends with an exit code, or with
    an exception that nothing catches. *)
From stdpp Require Import pretty.
From S2P Require Import Prelude Status Io Record SegmentLog Message Handlers HandlerSpecs Engine.
From S2P Require Import Recovery EngineSpecs ServerConfig EngineApi Facade.

(** ** The process *)

Inductive Line := Out (text : string) | Err (text : string).

Record Process (S : Type) := mkProcess {
  queue : S;
  g_shutdown : bool;
  console : list Line;
}.
Arguments mkProcess {S} queue g_shutdown console.
Arguments queue {S} p.
Arguments g_shutdown {S} p.
Arguments console {S} p.

(** How a process ended: its exit code, the files, the lines it printed. *)
Record Exit := mkExit {
  exit_code : outcome Z;
  files_left : World;
  printed : list Line;
}.

Definition endl : string := String.String (Ascii.ascii_of_nat 10) "".

Section process.
Context {S : Type}.

Definition set_queue (q : S) (p : Process S) : Process S := mkProcess q (g_shutdown p) (console p).

Definition on_queue_ {A} (m : M S A) : M (Process S) A := zoom queue set_queue m.

Definition print (l : Line) : M (Process S) unit :=
  modify (λ p, mkProcess (queue p) (g_shutdown p) (console p ++ [l])).

Definition cout (s : string) : M (Process S) unit := print (Out s).
Definition cerr (s : string) : M (Process S) unit := print (Err s).

(** [HandleSignal] *)
Definition HandleSignal (p : Process S) : Process S := mkProcess (queue p) true (console p).
End process.

(** The argument after the first [key], or [def]. *)
Fixpoint value_after (def key : string) (args : list string) : string :=
  match args with
  | k :: rest => match rest with
                 | v :: _ => if (k =? key)%string then v else value_after def key rest
                 | [] => def
                 end
  | [] => def
  end.

(** [ArgValue]: [argv[0]] is skipped. *)
Definition ArgValue (argv : list string) (key : string) : string := value_after "" key (tail argv).

Section server.
Context `{Env} {S : Type} `{QueueService S}.

(** Whether a signal arrived between the loads number [i-1] and [i] of the
    flag. *)
Context (signals : nat → bool).

(** [while (!g_shutdown.load()) sleep_for(200ms)] *)
Fixpoint wait_for_signal (fuel i : nat) : M (Process S) unit :=
  match fuel with
  | O => throw "waiting for a signal: out of fuel"
  | Datatypes.S fuel =>
      do! (if signals i then modify HandleSignal else ret tt) in
      let! stop := gets g_shutdown in
      if (stop : bool) then ret tt else wait_for_signal fuel (Datatypes.S i)
  end.

(** ** [src/server/main.cc] *)

(** The loop over [cfg.bootstrap_queues]; [Some code] is a return from
    [main]. *)
Fixpoint legacy_bootstrap (qs : list string) : M (Process S) (option Z) :=
  match qs with
  | [] => ret None
  | q :: qs =>
      let! create := attempt (on_queue_ (CreateQueue_ q)) in
      match create with
      | inr st =>
          if decide (code st = kAlreadyExists)
          then do! cout ("[startup] queue ready: " +:+ q +:+ endl) in legacy_bootstrap qs
          else
            do! cerr ("[startup] bootstrap queue failed queue=" +:+ q +:+ " err=" +:+ message st +:+ endl) in
            do! attempt (on_queue_ Stop_) in
            ret (Some 5)
      | inl _ => do! cout ("[startup] queue ready: " +:+ q +:+ endl) in legacy_bootstrap qs
      end
  end.

(** [main] from [queue.Start()] on. *)
Definition legacy_serve (fuel : nat) (qs : list string) : M (Process S) Z :=
  let! start := attempt (on_queue_ Start_) in
  match start with
  | inr st => do! cerr ("[startup] engine start failed: " +:+ message st +:+ endl) in ret 4
  | inl _ =>
      let! failed := legacy_bootstrap qs in
      match failed with
      | Some code => ret code
      | None =>
          do! cout ("[ready] server loop active; waiting for SIGINT/SIGTERM" +:+ endl) in
          do! wait_for_signal fuel 0 in
          do! cout ("[shutdown] signal received, stopping engine" +:+ endl) in
          let! stop := attempt (on_queue_ Stop_) in
          match stop with
          | inr st => do! cerr ("[shutdown] engine stop failed: " +:+ message st +:+ endl) in ret 6
          | inl _ => do! cout ("[shutdown] complete" +:+ endl) in ret 0
          end
      end
  end.

Definition legacy_banner (c : ServerConfig) : list Line :=
  [Out ("[startup] pomaiqueue_server starting" +:+ endl);
   Out ("[startup] data_dir=" +:+ data_dir (engine c) +:+ " shards=" +:+ pretty (shard_count (engine c))
     +:+ " max_inflight=" +:+ pretty (max_inflight (engine c)) +:+ endl)].

Definition legacy_usage : string := "usage: pomaiqueue_server --config <path>" +:+ endl.

(** ** [src/cmd/pomaiqueue-server/main.cc] *)

Fixpoint bootstrap (qs : list string) : M (Process S) (option Z) :=
  match qs with
  | [] => ret None
  | q :: qs =>
      let! create := attempt (on_queue_ (CreateQueue_ q)) in
      match create with
      | inr st =>
          if decide (code st = kAlreadyExists) then bootstrap qs
          else
            do! cerr ("[startup] bootstrap queue failed queue=" +:+ q +:+ " err=" +:+ message st +:+ endl) in
            do! attempt (on_queue_ Stop_) in
            ret (Some 5)
      | inl _ => bootstrap qs
      end
  end.

Definition serve (fuel : nat) (qs : list string) : M (Process S) Z :=
  let! start := attempt (on_queue_ Start_) in
  match start with
  | inr st => do! cerr ("[startup] engine start failed: " +:+ message st +:+ endl) in ret 4
  | inl _ =>
      let! failed := bootstrap qs in
      match failed with
      | Some code => ret code
      | None =>
          do! wait_for_signal fuel 0 in
          let! stop := attempt (on_queue_ Stop_) in
          match stop with
          | inr st => do! cerr ("[shutdown] engine stop failed: " +:+ message st +:+ endl) in ret 6
          | inl _ => ret 0
          end
      end
  end.

Definition banner (c : ServerConfig) : list Line := [].

Definition usage : string := "usage: pomaiqueue-server --config <path>" +:+ endl.

(** ** [main] *)

(** The life of a process' queue: constructed on options, destroyed at every
    return from [main]. *)
Definition run_process (o : EngineOptions) (lines : list Line) (body : M (Process S) Z) (w : World)
    : Exit :=
  let '(r, p) := (let! code := body in do! on_queue_ Destroy_ in ret code)
                   (mkProcess (new_service o w) false lines) in
  mkExit r (service_world (queue p)) (console p).

(** [main] up to the construction of the queue. *)
Definition run_main (usage : string) (banner : ServerConfig → list Line)
    (serve : list string → M (Process S) Z) (argv : list string) (w : World) : Exit :=
  let config_path := ArgValue argv "--config" in
  if (config_path =? "")%string then mkExit (Good 2) w [Err usage]
  else
    let '(cfg, w) := LoadServerConfig config_path w in
    match cfg with
    | Fail st => mkExit (Good 3) w [Err ("[startup] config error: " +:+ message st +:+ endl)]
    | Throw what => mkExit (Throw what) w []
    | Good cfg => run_process (engine cfg) (banner cfg) (serve (bootstrap_queues cfg)) w
    end.

Definition legacy_main (fuel : nat) : list string → World → Exit :=
  run_main legacy_usage legacy_banner (legacy_serve fuel).

Definition main (fuel : nat) : list string → World → Exit :=
  run_main usage banner (serve fuel).
End server.

(** ** Refinement *)

Section refined.
Context `{Env} {S : Type} `{I : Implements S}.
Context (signals : nat → bool).

Definition observe_process (p : Process S) : Process SeqQueue :=
  mkProcess (observe (queue p)) (g_shutdown p) (console p).

Definition usable_process (p : Process S) : Prop := usable (queue p).

Abbreviation refinesP := (refines observe_process usable_process).

Lemma on_queue_refines {A} (m : M S A) sp :
  refines observe usable m sp → refinesP (on_queue_ m) (on_queue_ sp).
Proof.
  intros Hm p Hp. destruct (Hm (queue p) Hp) as [Heq Hv]. unfold on_queue_, zoom. cbn.
  rewrite Heq. by destruct (m (queue p)) as [o q].
Qed.

Lemma print_refines l : refinesP (print l) (print l).
Proof. by intros p Hp. Qed.

Lemma gets_shutdown_refines : refinesP (gets g_shutdown) (gets g_shutdown).
Proof. by intros p Hp. Qed.

Lemma signal_refines : refinesP (modify HandleSignal) (modify HandleSignal).
Proof. by intros p Hp. Qed.

#[local] Hint Resolve print_refines gets_shutdown_refines signal_refines : refines.

#[local] Ltac refine_process :=
  repeat first [apply on_queue_refines; solve [eauto with refines typeclass_instances]
               |progress unfold cout, cerr|refine_step].

Lemma wait_refines fuel i : refinesP (wait_for_signal signals fuel i) (wait_for_signal signals fuel i).
Proof. revert i. induction fuel as [|fuel IH]; intros i; cbn; refine_process. Qed.

Lemma bootstrap_refines qs : refinesP (bootstrap qs) (bootstrap qs).
Proof. induction qs as [|q qs IH]; cbn; refine_process. Qed.

Lemma legacy_bootstrap_refines qs : refinesP (legacy_bootstrap qs) (legacy_bootstrap qs).
Proof. induction qs as [|q qs IH]; cbn; refine_process. Qed.

Lemma serve_refines fuel qs : refinesP (serve signals fuel qs) (serve signals fuel qs).
Proof. unfold serve. refine_process; [apply bootstrap_refines|apply wait_refines]. Qed.

Lemma legacy_serve_refines fuel qs :
  refinesP (legacy_serve signals fuel qs) (legacy_serve signals fuel qs).
Proof. unfold legacy_serve. refine_process; [apply legacy_bootstrap_refines|apply wait_refines]. Qed.
End refined.

(** ** The configuration's shard count *)

Lemma apply_key_shards key value n c c' :
  apply_key key value n c = Good c' →
  is_u32 (shard_count (engine c)) → is_u32 (shard_count (engine c')).
Proof.
  unfold apply_key, obind, set_engine. intros Hk Hc.
  repeat (case_match; simplify_eq/=; try done; try apply u32_range).
Qed.

Lemma apply_line_shards line n c c' :
  apply_line line n c = Good c' →
  is_u32 (shard_count (engine c)) → is_u32 (shard_count (engine c')).
Proof.
  unfold apply_line. repeat (case_match; try done); try (by intros [= <-]); apply apply_key_shards.
Qed.

Lemma apply_lines_shards lines n c c' :
  apply_lines lines n c = Good c' →
  is_u32 (shard_count (engine c)) → is_u32 (shard_count (engine c')).
Proof.
  revert n c. induction lines as [|l ls IH]; intros n c; cbn; [by intros [= <-]|].
  unfold obind. destruct (apply_line l (n + 1) c) as [c1| |] eqn:Hl; [|done..].
  intros Hls Hc. by eapply IH, apply_line_shards.
Qed.

Lemma load_text_shards t c : load_text t = Good c → is_u32 (shard_count (engine c)).
Proof.
  unfold load_text, obind. destruct (apply_lines _ _ _) as [c1| |] eqn:Hl; [|done..].
  case_match; [done|]. intros [= <-]. eapply apply_lines_shards; [done|]. cbn. lia.
Qed.

Lemma LoadServerConfig_shards `{Env} path w c w' :
  LoadServerConfig path w = (Good c, w') → is_u32 (shard_count (engine c)).
Proof.
  unfold LoadServerConfig, bind. destruct (open_in path w) as [[[s|]| |] w1]; [|done..].
  intros [= Hl <-]. by eapply load_text_shards.
Qed.

(** The loader reports every mistake as a [Status]. *)
Lemma apply_line_total line n c : thrown (apply_line line n c) = false.
Proof.
  unfold apply_line, apply_key, obind, set_engine, ParseDurationMs, ParseUint, obind.
  by repeat (case_match; try done).
Qed.

Lemma LoadServerConfig_total `{Env} path w : thrown (LoadServerConfig path w).1 = false.
Proof.
  assert (∀ t, thrown (load_text t) = false) as Hload.
  { intros t. unfold load_text, obind.
    assert (∀ ls n c, thrown (apply_lines ls n c) = false) as Hls.
    { intros ls. induction ls as [|l ls IH]; intros n c; [done|]. cbn. unfold obind.
      pose proof (apply_line_total l (n + 1) c) as Hl. by destruct (apply_line l (n + 1) c). }
    specialize (Hls (split_lines Byte.x0a t) 0 initial_config).
    destruct (apply_lines _ _ _); [by case_match|done..]. }
  change (wp (LoadServerConfig path) (λ o _, thrown o = false) w).
  apply wp_bind, wp_bind, wp_call_ok. intros b w' _. apply wp_bind, wp_get, wp_ret.
  destruct (if (b : bool) then files w' !! path else None); [|done]. apply wp_lift, Hload.
Qed.

Lemma calm_LoadServerConfig `{Env} path w text c :
  calm_run → files w !! path = Some text → load_text text = Good c →
  ∃ w', LoadServerConfig path w = (Good c, w') ∧ files w' = files w.
Proof.
  intros calm Hfile Htext.
  assert (wp (LoadServerConfig path) (λ o w', o = Good c ∧ files w' = files w) w) as Hwp.
  { apply wp_bind, wp_bind, (calm_call_ok calm). intros w1 (Hf & _). apply wp_bind, wp_get, wp_ret.
    rewrite Hf, Hfile. by apply wp_lift. }
  apply wp_run in Hwp. destruct (LoadServerConfig path w) as [o w']. destruct Hwp as [-> ?]. by exists w'.
Qed.

Section main_refined.
Context `{Env} {S : Type} `{I : Implements S}.

Lemma run_process_refined o lines (body : M (Process S) Z) sbody w :
  is_u32 (shard_count o) → refines observe_process usable_process body sbody →
  run_process o lines body w = run_process (S:=SeqQueue) o lines sbody w.
Proof.
  intros Ho Href. pose proof (new_ok (S:=S) o w Ho) as Hu. unfold run_process.
  set (all := (let! code := body in do! on_queue_ Destroy_ in ret code)).
  set (sall := (let! code := sbody in do! on_queue_ Destroy_ in ret code)).
  assert (refines observe_process usable_process all sall) as Hb.
  { apply refines_bind; [exact Href|]. intros code. apply refines_bind; [|intros; apply refines_ret].
    apply on_queue_refines, destroy_ok. }
  destruct (Hb (mkProcess (new_service o w) false lines) Hu) as [Heq _].
  unfold observe_process at 1 in Heq. cbn [queue g_shutdown console] in Heq.
  rewrite new_observed in Heq. rewrite Heq.
  destruct (all _) as [r p]. cbn [fst snd]. f_equal. symmetry. apply (world_observed (queue p)).
Qed.

(** Either [main] is the one of the specification. *)
Lemma run_main_refined use ban (sv : list string → M (Process S) Z) sp argv w :
  (∀ qs, refines observe_process usable_process (sv qs) (sp qs)) →
  run_main use ban sv argv w = run_main (S:=SeqQueue) use ban sp argv w.
Proof.
  intros Href. unfold run_main. destruct (ArgValue argv "--config" =? "")%string; [done|].
  destruct (LoadServerConfig _ w) as [[c| |] w'] eqn:Hc; [|done..].
  apply run_process_refined; [by eapply LoadServerConfig_shards|apply Href].
Qed.

Lemma main_refined signals fuel argv w :
  main (S:=S) signals fuel argv w = main (S:=SeqQueue) signals fuel argv w.
Proof. apply run_main_refined. intros qs. apply serve_refines. Qed.

Lemma legacy_main_refined signals fuel argv w :
  legacy_main (S:=S) signals fuel argv w = legacy_main (S:=SeqQueue) signals fuel argv w.
Proof. apply run_main_refined. intros qs. apply legacy_serve_refines. Qed.
End main_refined.

(** ** The two binaries *)

Section equivalence.
Context `{Env} {S : Type} `{QueueService S}.
Context (signals : nat → bool).

Definition is_error (l : Line) : bool := match l with Err _ => true | Out _ => false end.

(** A process of which the standard output is not seen. *)
Definition silent (p : Process S) : Process S :=
  mkProcess (queue p) (g_shutdown p) (List.filter is_error (console p)).

Abbreviation equals := (refines silent (λ _, True)).

Lemma on_queue_equals {A} (m : M S A) : equals (on_queue_ m) (on_queue_ m).
Proof. intros p _. unfold on_queue_, zoom. cbn. by destruct (m (queue p)). Qed.

Lemma cerr_equals s : equals (cerr s) (cerr s).
Proof. intros p _. split; [|done]. unfold silent. cbn. by rewrite List.filter_app. Qed.

Lemma cout_equals {A} s (k sp : M (Process S) A) :
  equals k sp → equals (do! cout s in k) sp.
Proof.
  intros Hk p _. unfold bind, cout, print, modify. cbn.
  destruct (Hk (mkProcess (queue p) (g_shutdown p) (console p ++ [Out s])) Logic.I) as [Heq Hv].
  split; [|done]. rewrite <-Heq. f_equal. unfold silent. cbn.
  by rewrite List.filter_app, app_nil_r.
Qed.

#[local] Hint Resolve on_queue_equals cerr_equals : refines.

#[local] Ltac equal_step := first [apply cout_equals|refine_step].

Lemma gets_shutdown_equals : equals (gets g_shutdown) (gets g_shutdown).
Proof. by intros p Hp. Qed.

Lemma signal_equals : equals (modify HandleSignal) (modify HandleSignal).
Proof. by intros p Hp. Qed.

#[local] Hint Resolve gets_shutdown_equals signal_equals : refines.

Lemma wait_equals fuel i : equals (wait_for_signal signals fuel i) (wait_for_signal signals fuel i).
Proof. revert i. induction fuel as [|fuel IH]; intros i; cbn; repeat equal_step. Qed.

Lemma bootstrap_equals qs : equals (legacy_bootstrap qs) (bootstrap qs).
Proof. induction qs as [|q qs IH]; cbn; repeat equal_step. Qed.

#[local] Hint Resolve wait_equals bootstrap_equals : refines.

Lemma serve_equals fuel qs : equals (legacy_serve signals fuel qs) (serve signals fuel qs).
Proof. unfold legacy_serve, serve. repeat equal_step. Qed.
End equivalence.

(** ** What the specification does *)

Section spec.
Context `{Env}.
Context (signals : nat → bool).

Abbreviation Proc := (Process SeqQueue).

(** A started queue. *)
Definition started_queue (o : EngineOptions) (q : SeqQueue) : Prop :=
  sq_options q = o ∧ sq_up q = true ∧ shard_count o ≠ 0.

Section logs.
Context (o : EngineOptions).
(** The complete records of every log. *)
Context (logs : string → list Record_).

(** What a previous process may have left of a queue: complete records and then
    a torn one; nothing at all is one case of it. *)
Definition left_over (w : World) (q : string) : Prop :=
  let path := SegmentPath o q in
  Forall recoverable (logs path) ∧ numbered (logs path) ∧
  ∃ t, SegmentLog.torn t ∧ file_bytes w path = log_bytes (logs path) ++ t.

(** The queue is open: its complete records are indexed, and its file holds
    nothing else. *)
Definition queue_ready (s : World * Queues) (q : string) : Prop :=
  let path := SegmentPath o q in
  ∃ st, s.2 !! q = Some st ∧ indexed (logs path) (segment st) ∧ path_ (segment st) = path ∧
    files s.1 !! path = Some (log_bytes (logs path)).

Lemma left_over_insert w w' q q' :
  files w' = <[SegmentPath o q := log_bytes (logs (SegmentPath o q))]> (files w) →
  left_over w q' → left_over w' q'.
Proof.
  intros Hf (Hr & Hn & t & Ht & Hb). split_and!; [done..|].
  destruct (decide (SegmentPath o q = SegmentPath o q')) as [Heq|Hne].
  - exists []. split; [by left|]. unfold file_bytes. by rewrite Hf, Heq, lookup_insert_eq, app_nil_r.
  - exists t. split; [done|]. unfold file_bytes. by rewrite Hf, lookup_insert_ne.
Qed.

Lemma ready_insert w w' qs q st q' :
  files w' = <[SegmentPath o q := log_bytes (logs (SegmentPath o q))]> (files w) →
  q' ≠ q → queue_ready (w, qs) q' → queue_ready (w', <[q := st]> qs) q'.
Proof.
  intros Hf Hne (st' & Hst & Hidx & Hp & Hfile). exists st'. cbn [fst snd] in *.
  rewrite lookup_insert_ne by done. split_and!; [done..|]. rewrite Hf.
  destruct (decide (SegmentPath o q = SegmentPath o q')) as [->|?].
  - by rewrite lookup_insert_eq.
  - by rewrite lookup_insert_ne.
Qed.

(** One queue of the list: it is created, or it is there already. *)
Lemma create_ready q sq :
  calm_run → started_queue o sq → left_over (sq_store sq).1 q →
  (∀ q', is_Some ((sq_store sq).2 !! q') → queue_ready (sq_store sq) q') →
  ∃ r w qs, CreateQueue_ q sq = (r, mkSeq o (w, qs) true) ∧
    (r = Good tt ∨ r = Fail (mkStatus kAlreadyExists "queue already exists")) ∧
    (∀ q', left_over (sq_store sq).1 q' → left_over w q') ∧
    is_Some (qs !! q) ∧ (∀ q', is_Some ((sq_store sq).2 !! q') → is_Some (qs !! q')) ∧
    (∀ q', is_Some (qs !! q') → queue_ready (w, qs) q').
Proof.
  destruct sq as [o' [w qs] up]. cbn [sq_store fst snd]. intros calm (Ho & Hup & Hcount) Hleft Hready.
  cbn in Ho, Hup. subst o' up. cbn. unfold bind, seq_call. cbn.
  rewrite (proj2 (Z.eqb_neq _ _)) by done. unfold bind.
  destruct (qs !! q) as [st|] eqn:Hq.
  - unfold CreateQueueOnShard. cbn. rewrite Hq. eexists _, _, _.
    split_and!; [reflexivity|by right|by eauto|by eauto|by eauto|done].
  - pose proof Hleft as (Hrec & Hnum & t & Ht & Hb).
    pose proof (CreateQueue_run o q _ t w qs calm Hq Hrec Ht Hb) as Hrun.
    destruct (CreateQueueOnShard o q (w, qs)) as [r [w' qs']].
    destruct Hrun as (-> & Hf & seg & -> & Hp & Hidx & _). cbn. eexists _, _, _.
    split_and!; [reflexivity|by left| | | |].
    + intros q'. by apply (left_over_insert _ _ q).
    + rewrite lookup_insert_eq. by eexists.
    + intros q' Hs. destruct (decide (q' = q)) as [->|Hne]; rewrite ?lookup_insert_eq; [by eexists|].
      by rewrite lookup_insert_ne.
    + intros q'. destruct (decide (q' = q)) as [->|Hne].
      * intros _. eexists. cbn. rewrite lookup_insert_eq, Hf, lookup_insert_eq. by split_and!.
      * rewrite lookup_insert_ne by done. intros Hs. apply (ready_insert w w'); auto.
Qed.

Lemma bootstrap_ready names sq flag lines :
  calm_run → started_queue o sq → (∀ q, q ∈ names → left_over (sq_store sq).1 q) →
  (∀ q', is_Some ((sq_store sq).2 !! q') → queue_ready (sq_store sq) q') →
  ∃ sq', bootstrap names (mkProcess sq flag lines) = (Good None, mkProcess sq' flag lines) ∧
    started_queue o sq' ∧
    (∀ q, q ∈ names ∨ is_Some ((sq_store sq).2 !! q) → queue_ready (sq_store sq') q).
Proof.
  intros calm. revert sq. induction names as [|q names IH]; intros sq Hst Hleft Hready.
  - exists sq. split_and!; [done|done|]. intros q [Hq|Hq]; [by apply elem_of_nil in Hq|auto].
  - destruct (create_ready q sq calm Hst) as (r & w & qs & Hc & Hr & Hl & Hq & Hkeep & Hrd).
    { apply Hleft. left. }
    { done. }
    destruct (IH (mkSeq o (w, qs) true)) as (sq' & Hb & Hst' & Hall).
    { by destruct Hst as (? & ? & ?). }
    { intros q' Hin. apply Hl, Hleft. by right. }
    { done. }
    exists sq'. split_and!; [|done|].
    + cbn [bootstrap]. unfold bind, attempt, on_queue_, zoom. cbn [queue]. rewrite Hc.
      by destruct Hr as [-> | ->].
    + intros q' [Hin|Hin]; [apply elem_of_cons in Hin as [->|Hin]|]; apply Hall; cbn; auto.
Qed.
End logs.

(** A signal that comes in time ends the wait. *)
Lemma wait_ends n fuel i (p : Proc) :
  signals n = true → (i <= n)%nat → (n - i < fuel)%nat →
  ∃ p', wait_for_signal signals fuel i p = (Good tt, p') ∧
    queue p' = queue p ∧ console p' = console p ∧ g_shutdown p' = true.
Proof.
  intros Hn. revert i p. induction fuel as [|fuel IH]; intros i p Hi Hf; [lia|].
  cbn [wait_for_signal].
  assert (∃ p1 : Proc, (if signals i then modify HandleSignal else ret tt) p = (Good tt, p1) ∧
    queue p1 = queue p ∧ console p1 = console p ∧ (signals i = true → g_shutdown p1 = true))
    as (p1 & H1 & Hq1 & Hc1 & Hs1).
  { destruct (signals i); by eexists. }
  rewrite (bind_good _ _ _ _ _ H1). unfold bind at 1, gets. destruct (g_shutdown p1) eqn:Hg.
  - by exists p1.
  - destruct (decide (i = n)) as [->|Hne]; [by specialize (Hs1 Hn)|].
    destruct (IH (S i) p1) as (p' & Hw & Hq & Hc & Hs); [lia..|].
    exists p'. split_and!; congruence.
Qed.
End spec.

(** ** Every way a server can end *)

Section exits.
Context `{Env}.
Context (signals : nat → bool).

(** The exceptions of opening and recovering a log. *)
Definition storage_exception (what : string) : Prop :=
  what = "filesystem_error" ∨ what = "bad_alloc".

Lemma CreateQueue_outcome o q s :
  match (CreateQueueOnShard o q s).1 with
  | Good _ => True
  | Fail st => code st = kIOError ∨ code st = kAlreadyExists
  | Throw what => storage_exception what
  end.
Proof.
  unfold CreateQueueOnShard. destruct (s.2 !! q); [by right|].
  set (seg0 := new_SegmentLog _ _).
  assert (wp (do! Open in Recover) (λ o p,
    match o with
    | Good _ => True
    | Fail st => code st = kIOError ∨ code st = kAlreadyExists
    | Throw what => storage_exception what
    end) (s.1, seg0)) as Hwp.
  { apply wp_bind. unfold Open. apply wp_bind, wp_on_fst, wp_create_directories.
    intros w1 _. split; [|by left]. apply wp_bind, wp_on_fst, wp_call_ok. intros b w2 _.
    destruct b; cbn [negb]; [|apply wp_bind, wp_modify, wp_fail; by left]. apply wp_modify.
    eapply wp_mono; [apply Recover_any|]. cbn. intros r p (Hr & _).
    destruct r; [done|by left|by right]. }
  unfold wp in Hwp. by destruct ((do! Open in Recover) (s.1, seg0)) as [r [w seg]].
Qed.

Lemma bootstrap_outcome o names sq flag lines :
  started_queue o sq →
  let '(r, p) := bootstrap names (mkProcess sq flag lines) in
  match r with
  | Good None => started_queue o (queue p) ∧ console p = lines
  | Good (Some c) => c = 5 ∧ ∃ q st, q ∈ names ∧ code st = kIOError ∧ console p = lines ++
      [Err ("[startup] bootstrap queue failed queue=" +:+ q +:+ " err=" +:+ message st +:+ endl)]
  | Fail _ => False
  | Throw what => storage_exception what
  end.
Proof.
  revert sq. induction names as [|q names IH]; intros sq Hst; [done|].
  cbn [bootstrap]. unfold bind at 1, attempt, on_queue_, zoom. cbn [queue].
  destruct sq as [o' s up]. destruct Hst as (Ho & Hup & Hcount). cbn in Ho, Hup. subst o' up.
  cbn [CreateQueue_ SeqQueue_service]. unfold bind at 1, seq_call. cbn [sq_options sq_up sq_store].
  rewrite (proj2 (Z.eqb_neq _ _)) by done. cbn [negb execute]. unfold bind at 1.
  pose proof (CreateQueue_outcome o q s) as Hout.
  assert (∀ s', match bootstrap names (mkProcess (mkSeq o s' true) flag lines) with
    (r, p) => match r with
      | Good None => started_queue o (queue p) ∧ console p = lines
      | Good (Some c) => c = 5 ∧ ∃ q' st, q' ∈ q :: names ∧ code st = kIOError ∧ console p = lines ++
          [Err ("[startup] bootstrap queue failed queue=" +:+ q' +:+ " err=" +:+ message st +:+ endl)]
      | Fail _ => False
      | Throw what => storage_exception what
      end end) as Hrest.
  { intros s'. specialize (IH (mkSeq o s' true) ltac:(done)).
    destruct (bootstrap names _) as [[[c|]| |] p]; [|done..].
    destruct IH as (-> & q' & st & Hin & ?). split; [done|]. exists q', st. split; [by right|done]. }
  destruct (CreateQueueOnShard o q s) as [[[]|st|what] s']; cbn in *; [apply Hrest| |done].
  destruct (decide (code st = kAlreadyExists)) as [|Hne]; [apply Hrest|].
  destruct Hout as [Hio|?]; [|done]. cbn. split; [done|]. exists q, st. split; [by left|done].
Qed.

(** [serve] on a queue that was just constructed. *)
Lemma serve_outcome n fuel o w names :
  signals n = true → (n < fuel)%nat →
  let '(r, p) := serve signals fuel names (mkProcess (mkSeq o (w, ∅) false) false []) in
  match r with
  | Good c =>
      c = 4 ∧ shard_count o = 0 ∨
      shard_count o ≠ 0 ∧
        (c = 0 ∧ console p = [] ∨
         c = 5 ∧ ∃ q st, q ∈ names ∧ code st = kIOError ∧ console p =
           [Err ("[startup] bootstrap queue failed queue=" +:+ q +:+ " err=" +:+ message st +:+ endl)])
  | Fail _ => False
  | Throw what => storage_exception what
  end.
Proof.
  intros Hn Hfuel. unfold serve. unfold bind at 1, attempt at 1, on_queue_ at 1, zoom. cbn [queue].
  cbn [Start_ SeqQueue_service]. unfold seq_start. cbn [sq_options].
  destruct (Z.eqb_spec (shard_count o) 0) as [Hz|Hz]; cbn; [by left|].
  set (sq := mkSeq o (w, ∅) true).
  pose proof (bootstrap_outcome o names sq false [] ltac:(done)) as Hb.
  unfold bind at 1, set_queue. cbn [g_shutdown console]. fold sq.
  destruct (bootstrap names (mkProcess sq false [])) as [[[c|]|st|what] p]; cbn in *; try done.
  - right. split; [done|]. right. done.
  - destruct Hb as [_ Hlines].
    destruct (wait_ends signals n fuel 0 p Hn ltac:(lia) ltac:(lia)) as (p' & Hw & _ & Hc & _).
    rewrite (bind_good _ _ _ _ _ Hw). cbn. right. split; [done|]. left. split; [done|].
    unfold set_queue. cbn. congruence.
Qed.
End exits.

(** ** Properties *)

(** C38. The two server binaries differ in what they print on standard output
    only: on the same arguments and files, under the same signals and the same
    environment, and over any implementation of the interface, they end with
    the same exit code or exception, leave the same files and, but for the
    program's name in the usage line, print the same errors; the newer one
    prints nothing else. *)
Theorem servers_equivalent `{Env} {S : Type} `{QueueService S} signals fuel argv w :
  let old := legacy_main (S:=S) signals fuel argv w in
  let new := main (S:=S) signals fuel argv w in
  exit_code new = exit_code old ∧ files_left new = files_left old ∧
  (ArgValue argv "--config" ≠ "" → printed new = List.filter is_error (printed old)).
Proof.
  cbv zeta. unfold legacy_main, main, run_main, run_process.
  destruct (String.eqb_spec (ArgValue argv "--config") "") as [->|Hne]; [done|].
  destruct (LoadServerConfig _ w) as [[c| |] w']; [|done..].
  set (q := new_service (engine c) w').
  assert (refines (T:=Process S) silent (λ _, True)
    (let! code := legacy_serve signals fuel (bootstrap_queues c) in do! on_queue_ Destroy_ in ret code)
    (let! code := serve signals fuel (bootstrap_queues c) in do! on_queue_ Destroy_ in ret code)) as Hb.
  { apply refines_bind; [apply serve_equals|]. intros code.
    apply refines_bind; [apply on_queue_equals|intros; apply refines_ret]. }
  destruct (Hb (mkProcess q false (legacy_banner c)) Logic.I) as [Heq _].
  unfold silent at 1 in Heq. cbn [queue g_shutdown console legacy_banner List.filter is_error] in Heq.
  change (banner c) with (@nil Line). rewrite Heq.
  by destruct (bind (legacy_serve _ _ _) _ _) as [o p].
Qed.

(** Every way the server can end, once a signal arrives.  It returns 2 when
    no configuration is named, 3 when the configuration cannot be loaded, 4
    when [shard_count] is 0, 5 when a bootstrap queue cannot be opened, with
    the queue and the error on standard error, and 0 otherwise, with nothing
    printed; a queue that exists already is not an error, and the code 6 never
    occurs, because [Stop] never fails.  The only exceptions that end it are
    those of creating a directory and of the allocator. *)
Theorem server_exit_codes `{Env} hash signals n fuel argv w :
  signals n = true → (n < fuel)%nat →
  let path := ArgValue argv "--config" in
  let e := main (S:=PomaiQueue) (H0:=PomaiQueue_service hash) signals fuel argv w in
  match exit_code e with
  | Good c =>
      (c = 2 ∧ path = "") ∨
      path ≠ "" ∧
      ((c = 3 ∧ ∃ st w', LoadServerConfig path w = (Fail st, w')) ∨
       ∃ cfg w', LoadServerConfig path w = (Good cfg, w') ∧
         ((c = 4 ∧ shard_count (engine cfg) = 0) ∨
          shard_count (engine cfg) ≠ 0 ∧
            (c = 0 ∧ printed e = [] ∨
             c = 5 ∧ ∃ q st, q ∈ bootstrap_queues cfg ∧ code st = kIOError ∧ printed e =
               [Err ("[startup] bootstrap queue failed queue=" +:+ q +:+ " err=" +:+ message st +:+ endl)])))
  | Fail _ => False
  | Throw what => storage_exception what
  end.
Proof.
  intros Hn Hfuel. cbv zeta. rewrite (main_refined (I:=PomaiQueue_implements hash)).
  unfold main, run_main, run_process.
  destruct (String.eqb_spec (ArgValue argv "--config") "") as [Heq|Hne]; [by left|].
  destruct (LoadServerConfig _ w) as [[c|st|what] w'] eqn:Hload.
  - pose proof (serve_outcome signals n fuel (engine c) w' (bootstrap_queues c) Hn Hfuel) as Hs.
    change (new_service (engine c) w') with (mkSeq (engine c) (w', ∅) false).
    unfold bind. change (banner c) with (@nil Line).
    destruct (serve _ _ _ _) as [[r|e|e] p]; cbn; [|done..].
    right. split; [done|]. right. exists c, w'. split; [done|]. exact Hs.
  - cbn. right. split; [done|]. left. split; [done|]. by eexists _, _.
  - pose proof (LoadServerConfig_total (ArgValue argv "--config") w) as Ht. by rewrite Hload in Ht.
Qed.

(** A server that is started over what a previous process left (nothing,
    or complete records and then a torn one in each log) comes up and goes down
    in order: when the configuration can be read and names at least one shard,
    nothing is refused and a signal arrives, it exits with 0 and prints
    nothing, and the logs of all bootstrap queues hold exactly their complete
    records; a queue that is named twice is opened once.  It does so for every
    hash function and number of shards. *)
Theorem server_serves `{Env} hash signals n fuel argv w text cfg logs :
  calm_run → signals n = true → (n < fuel)%nat →
  ArgValue argv "--config" ≠ "" → files w !! ArgValue argv "--config" = Some text →
  load_text text = Good cfg → shard_count (engine cfg) ≠ 0 →
  (∀ q, q ∈ bootstrap_queues cfg → left_over (engine cfg) logs w q) →
  let e := main (S:=PomaiQueue) (H0:=PomaiQueue_service hash) signals fuel argv w in
  exit_code e = Good 0 ∧ printed e = [] ∧
  ∀ q, q ∈ bootstrap_queues cfg →
    files (files_left e) !! SegmentPath (engine cfg) q =
    Some (log_bytes (logs (SegmentPath (engine cfg) q))).
Proof.
  intros calm Hn Hfuel Harg Hfile Htext Hcount Hleft. cbv zeta.
  rewrite (main_refined (I:=PomaiQueue_implements hash)). unfold main, run_main, run_process.
  destruct (String.eqb_spec (ArgValue argv "--config") "") as [|_]; [done|].
  assert (∃ w', LoadServerConfig (ArgValue argv "--config") w = (Good cfg, w') ∧ files w' = files w)
    as (w' & -> & Hf).
  { by eapply calm_LoadServerConfig. }
  set (o := engine cfg) in *. set (names := bootstrap_queues cfg) in *.
  destruct (bootstrap_ready o logs names (mkSeq o (w', ∅) true) false [])
    as (sq' & Hb & (Ho & Hup & _) & Hready); [done|done| | |].
  { intros q Hq. destruct (Hleft q Hq) as (Hr & Hnum & t & Ht & Hbytes). split_and!; [done..|].
    exists t. split; [done|]. unfold file_bytes. cbn. by rewrite Hf. }
  { intros q [st Hq]. cbn [sq_store snd] in Hq. by rewrite lookup_empty in Hq. }
  destruct (wait_ends signals n fuel 0 (mkProcess sq' false []) Hn ltac:(lia) ltac:(lia))
    as (p' & Hw & Hq' & Hc & _).
  assert (∃ p2, serve signals fuel names (mkProcess (mkSeq o (w', ∅) false) false []) = (Good 0, p2) ∧
    sq_store (queue p2) = sq_store sq' ∧ console p2 = []) as (p2 & Hs & Hst & Hlines).
  { unfold serve. unfold bind at 1, attempt, on_queue_, zoom. cbn [queue Start_ SeqQueue_service].
    unfold seq_start. cbn [sq_options]. rewrite (proj2 (Z.eqb_neq _ _)) by done.
    unfold set_queue at 1. cbn [g_shutdown console sq_store].
    rewrite (bind_good _ _ _ _ _ Hb), (bind_good _ _ _ _ _ Hw).
    eexists. split; [reflexivity|]. cbn. by rewrite Hq', Hc. }
  change (new_service o w') with (mkSeq o (w', ∅) false). change (banner cfg) with (@nil Line).
  rewrite (bind_good _ _ _ _ _ Hs).
  unfold bind, on_queue_, zoom, set_queue, ret. cbn. rewrite Hst, Hlines.
  split_and!; [done..|].
  intros q Hq. destruct (Hready q (or_introl Hq)) as (st & _ & _ & _ & Hfq). exact Hfq.
Qed.

Section examples.
#[local] Existing Instance demo_env.

(** A configuration that names a queue twice. *)
Definition demo_config_text : text :=
  bytes_of_string ("data_dir = /d" +:+ endl +:+ "shard_count = 2" +:+ endl +:+
    "bootstrap_queues = q, q" +:+ endl).

Definition config_world : World := set_files (<["/c" := demo_config_text]>) empty_world.

Definition demo_argv : list string := ["pomaiqueue-server"; "--config"; "/c"].

(** A signal arrives at the third look at the flag. *)
Definition third_poll (i : nat) : bool := (i =? 2)%nat.

Lemma server_exit_codes_witness :
  exit_code (main (S:=PomaiQueue) (H0:=PomaiQueue_service demo_hash) third_poll 3 ["server"] config_world)
  = Good 2 ∧
  match exit_code (main (S:=PomaiQueue) (H0:=PomaiQueue_service demo_hash) third_poll 3 demo_argv config_world)
  with Fail _ => False | _ => True end.
Proof.
  split.
  - vm_compute. reflexivity.
  - pose proof (server_exit_codes demo_hash third_poll 2 3 demo_argv config_world
      ltac:(reflexivity) ltac:(lia)) as He.
    cbv zeta in He. revert He. set (r := exit_code _). generalize r. clear r.
    intros [c|st|what] He; [exact Logic.I|exact He|exact Logic.I].
Defined.

Lemma server_serves_witness :
  let e := main (S:=PomaiQueue) (H0:=PomaiQueue_service demo_hash) third_poll 3 demo_argv config_world in
  exit_code e = Good 0 ∧ files (files_left e) !! "/d/q/seg-000001.log" = Some [].
Proof.
  assert (∃ cfg, load_text demo_config_text = Good cfg ∧
    data_dir (engine cfg) = "/d" ∧ shard_count (engine cfg) = 2 ∧ bootstrap_queues cfg = ["q"; "q"])
    as (cfg & Hload & Hdir & Hcount & Hnames).
  { eexists. split; [vm_compute; reflexivity|]. done. }
  assert (SegmentPath (engine cfg) "q" = "/d/q/seg-000001.log") as Hpath.
  { unfold SegmentPath. rewrite Hdir. vm_compute. reflexivity. }
  pose proof (server_serves demo_hash third_poll 2 3 demo_argv config_world demo_config_text cfg
    (λ _, []) demo_calm ltac:(reflexivity) ltac:(lia) ltac:(vm_compute; congruence)
    ltac:(vm_compute; reflexivity) Hload ltac:(rewrite Hcount; lia)) as Hs.
  destruct Hs as (He & _ & Hq).
  - intros q Hin. assert (q = "q") as ->.
    { rewrite Hnames in Hin. apply elem_of_cons in Hin as [->|Hin]; [done|].
      by apply list_elem_of_singleton in Hin. }
    split_and!; [by constructor|by split|]. exists []. split; [by left|].
    rewrite Hpath. vm_compute. reflexivity.
  - split; [exact He|]. specialize (Hq "q"). rewrite Hpath, Hnames in Hq. apply Hq. left.
Defined.
End examples.
