(* ===== verification/Ctl.v ===== *)
(** * The command line tool ([src/cli/pomaiqctl.cc])

    [pomaiqctl] starts a library of its own over a data directory, carries out
    one command and stops it.  Like the servers it is a program over
    [QueueService]; numbers are read by [std::stoull], whose exceptions nothing
    catches. *)
From stdpp Require Import pretty.
From S2P Require Import Prelude Status Io Message Handlers HandlerSpecs Engine Recovery ServerConfig.
From S2P Require Import EngineApi Facade Server.

(** [ArgValue] of this program looks at [argv[0]] too. *)
Definition ArgValueOr (argv : list string) (key def : string) : string := value_after def key argv.

Definition StateName (s : MessageState) : string :=
  match s with
  | kReady => "READY"
  | kInFlight => "IN_FLIGHT"
  | kAcked => "ACKED"
  | kDead => "DEAD"
  end.

Definition quote : string := String.String (Ascii.ascii_of_nat 34) "".

(** One line of the printed object. *)
Definition json_number (key : string) (z : Z) (last : bool) : string :=
  "  " +:+ quote +:+ key +:+ quote +:+ ": " +:+ pretty z +:+ (if last then "" else ",") +:+ endl.
Definition json_string (key value : string) (last : bool) : string :=
  "  " +:+ quote +:+ key +:+ quote +:+ ": " +:+ quote +:+ value +:+ quote +:+
  (if last then "" else ",") +:+ endl.

Definition show_view (x : MessageDebugView) : string :=
  "{" +:+ endl +:+
  json_string "state" (StateName (view_state x)) false +:+
  json_number "sequence" (view_sequence x) false +:+
  json_number "enqueue_time_ms" (enqueue_time_ms x) false +:+
  json_number "last_transition_time_ms" (last_transition_time_ms x) false +:+
  json_number "retry_count" (view_retry_count x) false +:+
  json_number "next_visible_at_ms" (next_visible_at_ms x) false +:+
  json_string "last_transition_reason" (view_reason x) false +:+
  json_string "lease_owner" (lease_owner x) false +:+
  json_string "lease_token" (view_lease_token x) true +:+
  "}" +:+ endl.

Definition show_replay (r : ReplayResult) : string :=
  "{" +:+ endl +:+
  json_number "applied_sequence" (applied_sequence r) false +:+
  json_number "ready" (ready_count (replay_stats r)) false +:+
  json_number "inflight" (inflight_count (replay_stats r)) false +:+
  json_number "acked" (acked_count (replay_stats r)) false +:+
  json_number "dead" (dead_count (replay_stats r)) true +:+
  "}" +:+ endl.

Definition usage_line : string := "usage: pomaiqctl <inspect|replay|bugreport> ..." +:+ endl.

Definition set_data_dir (dir : string) (o : EngineOptions) : EngineOptions :=
  mkOptions dir (shard_count o) (fsync_policy o) (max_inflight o) (max_queue_depth o)
    (max_retry_count o) (visibility_timeout o) (retry_backoff o) (scheduler_tick o) (retention o)
    (max_segment_size_bytes o).

Definition ctl_options (argv : list string) : EngineOptions :=
  set_data_dir (ArgValueOr argv "--data_dir" "/tmp/pomaiqueue") default_options.

Section ctl.
Context `{Env} {S : Type} `{QueueService S}.

Definition stoull_ (s : string) : M (Process S) Z :=
  match stoull (bytes_of_string s) with
  | Some (n, _) => ret n
  | None => throw "stoull"
  end.

(** [return Usage();] *)
Definition Usage : M (Process S) Z := do! cerr usage_line in ret 1.

(** The code after the command, where it is reached. *)
Definition finish : M (Process S) Z :=
  let! stop := attempt (on_queue_ Stop_) in
  match stop with
  | inr st => do! cerr ("stop failed: " +:+ message st +:+ endl) in ret 5
  | inl _ => ret 0
  end.

Definition inspect (argv : list string) : M (Process S) Z :=
  let queue_name := ArgValueOr argv "--queue" "" in
  let group_id := ArgValueOr argv "--group" "default" in
  let! id_high := stoull_ (ArgValueOr argv "--id_high" "1") in
  let! id_low := stoull_ (ArgValueOr argv "--offset" (ArgValueOr argv "--id" "0")) in
  let! explain := attempt (on_queue_ (InspectMessage_ queue_name group_id (mkId id_high id_low))) in
  match explain with
  | inr st => do! cerr ("inspect failed: " +:+ message st +:+ endl) in ret 3
  | inl x => do! cout (show_view x) in finish
  end.

Definition replay (argv : list string) : M (Process S) Z :=
  let queue_name := ArgValueOr argv "--queue" "" in
  let group_id := ArgValueOr argv "--group" "default" in
  let! until_seq := stoull_ (ArgValueOr argv "--until_seq" "") in
  let! replayed := attempt (on_queue_ (ReplayToSequence_ queue_name group_id until_seq)) in
  match replayed with
  | inr st => do! cerr ("replay failed: " +:+ message st +:+ endl) in ret 4
  | inl r => do! cout (show_replay r) in finish
  end.

(** What is written, one string for every [<<]. *)
Definition report (argv : list string) : list string :=
  ["pomaiqueue bugreport" +:+ endl;
   "queue="; ArgValueOr argv "--queue" ""; endl;
   "group="; ArgValueOr argv "--group" "default"; endl;
   "from_seq="; ArgValueOr argv "--from-seq" "0"; endl;
   "to_seq="; ArgValueOr argv "--to-seq" "0"; endl;
   "data_dir="; data_dir (ctl_options argv); endl].

Fixpoint write_strings (out : ofstream) (l : list string) : W ofstream :=
  match l with
  | [] => ret out
  | s :: l => let! out := stream_write out (bytes_of_string s) in write_strings out l
  end.

(** [false] when the file cannot be opened; errors of writing are not seen. *)
Definition write_report (path : string) (l : list string) : W bool :=
  let! bundle := open_out true path in
  match bundle with
  | None => ret false
  | Some bundle =>
      let! bundle := write_strings bundle l in
      do! close bundle in
      ret true
  end.

Definition bugreport (argv : list string) : M (Process S) Z :=
  let out := ArgValueOr argv "--out" "/tmp/pomaiqueue-bugreport.txt" in
  let! written := on_queue_ (outside (write_report out (report argv))) in
  if negb written then do! cerr ("bugreport failed: cannot open output" +:+ endl) in ret 6
  else do! cout ("wrote " +:+ out +:+ endl) in finish.

(** [main] from [queue.Start()] on. *)
Definition command (argv : list string) (cmd : string) : M (Process S) Z :=
  let! st := attempt (on_queue_ Start_) in
  match st with
  | inr st => do! cerr ("start failed: " +:+ message st +:+ endl) in ret 2
  | inl _ =>
      if (cmd =? "inspect")%string then inspect argv
      else if (cmd =? "replay")%string then replay argv
      else if (cmd =? "bugreport")%string then bugreport argv
      else Usage
  end.

Definition ctl_main (argv : list string) (w : World) : Exit :=
  match argv !! 1%nat with
  | None => mkExit (Good 1) w [Err usage_line]
  | Some cmd => run_process (ctl_options argv) [] (command argv cmd) w
  end.
End ctl.

(** ** Refinement *)

Section refined.
Context `{Env} {S : Type} `{I : Implements S}.

Abbreviation refinesP := (refines (T:=Process S) observe_process usable_process).

#[local] Hint Resolve print_refines : refines.

#[local] Ltac refine_ctl :=
  repeat first [apply on_queue_refines; solve [eauto with refines typeclass_instances]
               |progress unfold stoull_, Usage, finish, cout, cerr|refine_step].

Lemma command_refines argv cmd : refinesP (command argv cmd) (command argv cmd).
Proof. unfold command, inspect, replay, bugreport. refine_ctl. Qed.

Lemma ctl_main_refined argv w : ctl_main (S:=S) argv w = ctl_main (S:=SeqQueue) argv w.
Proof.
  unfold ctl_main. destruct (argv !! 1%nat) as [cmd|]; [|done].
  apply run_process_refined; [cbn; lia|apply command_refines].
Qed.
End refined.

(** ** What the specification does *)

Section spec.
Context `{Env}.

(** A queue that was started and in which nothing was created. *)
Definition bare_queue (o : EngineOptions) (w : World) : SeqQueue := mkSeq o (w, ∅) true.

Lemma bare_inspect o w q g id :
  shard_count o ≠ 0 →
  InspectMessage_ q g id (bare_queue o w) =
  (Fail (mkStatus kNotFound "queue not found"), bare_queue o w).
Proof. intros Ho. cbn. unfold bind, seq_call. cbn. by rewrite (proj2 (Z.eqb_neq _ _)). Qed.

Lemma bare_replay o w q g n :
  shard_count o ≠ 0 →
  ReplayToSequence_ q g n (bare_queue o w) =
  (Fail (mkStatus kNotFound "queue not found"), bare_queue o w).
Proof. intros Ho. cbn. unfold bind, seq_call. cbn. by rewrite (proj2 (Z.eqb_neq _ _)). Qed.

(** *** Writing the report *)

Definition report_bytes (l : list string) : list byte := concat (map bytes_of_string l).

(** What has reached the file or waits in the buffer of the stream: all that
    was written, or a prefix of it and nothing more to come. *)
Definition written (path : string) (all : list byte) (out : ofstream) (w : World) : Prop :=
  o_path out = path ∧
  if o_good out then file_bytes w path ++ o_buf out = all else file_bytes w path `prefix_of` all.

Lemma wp_write_strings path l done out w :
  written path done out w →
  wp (write_strings out l) (λ o w', ∃ out', o = Good out' ∧
    written path (done ++ report_bytes l) out' w' ∧ file_only path w w') w.
Proof.
  revert out w done. induction l as [|s l IH]; intros out w done' Hw; cbn [write_strings].
  - apply wp_ret. exists out. by rewrite app_nil_r.
  - unfold report_bytes. cbn [map concat]. rewrite app_assoc. apply wp_bind.
    assert (wp (stream_write out (bytes_of_string s)) (λ o w', ∃ out', o = Good out' ∧
      written path (done' ++ bytes_of_string s) out' w' ∧ file_only path w w') w) as Hone.
    { destruct Hw as [<- Hw]. destruct (o_good out) eqn:Hg.
      - apply wp_stream_write; [done| |].
        + intros w' Hio. eexists. split; [reflexivity|]. split; [|by rewrite Hio].
          split; [done|]. cbn. by rewrite (file_bytes_io_only w w'), <-Hw, app_assoc.
        + intros w' part Hf Hpre Hbytes. eexists. split; [reflexivity|]. split; [|done].
          split; [done|]. cbn. rewrite Hbytes, <-Hw, <-app_assoc. by apply prefix_app.
      - unfold stream_write. rewrite Hg. apply wp_ret. exists out. split; [done|]. split; [|done].
        split; [done|]. rewrite Hg. by apply prefix_app_r. }
    eapply wp_mono; [exact Hone|]. intros o w' (out' & -> & Hw' & Hf).
    eapply wp_mono; [by apply IH|]. intros o w'' (out'' & -> & Hw'' & Hf'').
    exists out''. split; [done|]. split; [done|]. by etrans.
Qed.

Lemma wp_write_report path l w :
  wp (write_report path l) (λ o w', file_only path w w' ∧
    (o = Good false ∧ files w' = files w ∨
     o = Good true ∧ file_bytes w' path `prefix_of` report_bytes l)) w.
Proof.
  unfold write_report. apply wp_bind, wp_open_out.
  - intros w' Hio. apply wp_ret. split; [by rewrite Hio|]. left. by destruct Hio.
  - intros w1 Hf1 Hopen. apply wp_bind.
    eapply wp_mono; [apply (wp_write_strings path l []); split; [done|]; unfold file_bytes; by rewrite Hopen|].
    intros o w2 (out & -> & [Hp Hw] & Hf2). apply wp_bind. unfold close. apply wp_bind.
    assert (wp (flush out) (λ o w', is_good o = true ∧ file_only path w2 w' ∧
      file_bytes w' path `prefix_of` report_bytes l) w2) as Hflush.
    { cbn [app] in Hw. destruct (o_good out) eqn:Hg; subst path.
      - apply wp_flush; [done| |].
        + intros w3 part Hf3 Hpre Hb. split_and!; [done..|]. rewrite Hb, <-Hw. by apply prefix_app.
        + intros w3 Hf3 Hb. split_and!; [done..|]. unfold file_bytes at 1. rewrite Hb. cbn. by rewrite Hw.
      - unfold flush. rewrite Hg. apply wp_ret. by split_and!. }
    eapply wp_mono; [exact Hflush|]. intros [r|e|e] w3 (Hgood & Hf3 & Hpre); [|done..].
    apply wp_ret, wp_ret. split; [by rewrite Hf1, Hf2|]. by right.
Qed.

Lemma calm_write_report path l w :
  calm_run →
  wp (write_report path l) (λ o w', o = Good true ∧ files w' !! path = Some (report_bytes l)) w.
Proof.
  intros calm. unfold write_report. apply wp_bind, (calm_open_out calm). intros w1 _ Hopen.
  apply wp_bind.
  assert (∀ l out w', o_good out = true → o_path out = path → file_bytes w' path = [] →
    wp (write_strings out l) (λ o w2, file_bytes w2 path = [] ∧
      o = Good (mkOfstream path (o_buf out ++ report_bytes l) true)) w') as Hstrings.
  { clear l Hopen. intros l. induction l as [|s l IH]; intros out w' Hg Hp Hb; cbn [write_strings].
    - apply wp_ret. split; [done|]. destruct out. cbn in *. subst. unfold report_bytes. cbn.
      by rewrite app_nil_r.
    - apply wp_bind, (calm_stream_write calm); [done|]. intros w2 Hio.
      eapply wp_mono; [apply IH; [done|done|by rewrite (file_bytes_io_only w' w2)]|].
      intros o w3 [Hb3 ->]. split; [done|]. unfold report_bytes. cbn. by rewrite app_assoc. }
  eapply wp_mono; [apply Hstrings; [done|done|unfold file_bytes; by rewrite Hopen]|].
  intros o w2 [Hb ->]. cbn [o_buf app]. apply wp_bind. unfold close. apply wp_bind.
  apply (calm_flush calm); [done|]. intros w3 _ Hfile. apply wp_ret, wp_ret. split; [done|].
  cbn in Hfile. by rewrite Hb in Hfile.
Qed.

(** A command that ends, run as a process. *)
Lemma run_command argv cmd w (body : M (Process SeqQueue) Z) r p :
  command argv cmd = (let! st := attempt (on_queue_ Start_) in
    match st with
    | inr st => do! cerr ("start failed: " +:+ message st +:+ endl) in ret 2
    | inl _ => body
    end) →
  body (mkProcess (bare_queue (ctl_options argv) w) false []) = (r, p) →
  run_process (ctl_options argv) [] (command argv cmd) w =
  mkExit r (sq_store (queue p)).1 (console p).
Proof.
  intros -> Hbody. unfold run_process. unfold bind, attempt, on_queue_, zoom, set_queue. cbn.
  change (mkSeq _ _ true) with (bare_queue (ctl_options argv) w). rewrite Hbody.
  by destruct r.
Qed.
End spec.

(** ** Properties *)

(** C39. The tool cannot inspect or replay anything.  It starts an engine of its
    own and never creates the queue it asks about, and an engine finds only
    the queues that were created in its process; so whatever the data
    directory holds, [inspect] and [replay] either die of an argument that is
    no number or report that the queue is not found, with the exit codes 3 and
    4, and touch no file. *)
Theorem ctl_never_answers `{Env} hash argv w cmd :
  argv !! 1%nat = Some cmd → cmd = "inspect" ∨ cmd = "replay" →
  let e := ctl_main (S:=PomaiQueue) (H0:=PomaiQueue_service hash) argv w in
  files_left e = w ∧
  (exit_code e = Throw "stoull" ∧ printed e = [] ∨
   exit_code e = Good (if (cmd =? "inspect")%string then 3 else 4) ∧
   printed e = [Err (cmd +:+ " failed: queue not found" +:+ endl)]).
Proof.
  intros Hcmd Hwhich. cbv zeta. rewrite (ctl_main_refined (I:=PomaiQueue_implements hash)).
  unfold ctl_main. rewrite Hcmd. destruct Hwhich as [-> | ->].
  - destruct (inspect argv (mkProcess (bare_queue (ctl_options argv) w) false [])) as [r p] eqn:Hr.
    rewrite (run_command argv "inspect" w (inspect argv) r p eq_refl Hr).
    revert Hr. unfold inspect, stoull_.
    destruct (stoull _) as [[hi rest]|]; [|intros [= <- <-]; cbn; auto].
    destruct (stoull _) as [[lo rest']|]; [|intros [= <- <-]; cbn; auto].
    unfold bind, attempt, on_queue_, zoom. cbn [queue ret]. rewrite bare_inspect by (cbn; lia).
    intros [= <- <-]. cbn. auto.
  - destruct (replay argv (mkProcess (bare_queue (ctl_options argv) w) false [])) as [r p] eqn:Hr.
    rewrite (run_command argv "replay" w (replay argv) r p eq_refl Hr).
    revert Hr. unfold replay, stoull_.
    destruct (stoull _) as [[n rest]|]; [|intros [= <- <-]; cbn; auto].
    unfold bind, attempt, on_queue_, zoom. cbn [queue ret]. rewrite bare_replay by (cbn; lia).
    intros [= <- <-]. cbn. auto.
Qed.

(** [bugreport] writes what its command line says, line by line, into the
    output file and nothing about any queue: when nothing is refused it exits
    with 0 and the file holds exactly the six lines; whatever fails it touches
    no other file, and it leaves a prefix of those lines, without noticing that
    a write failed, or exits with 6 and changes nothing when the file cannot be
    opened. *)
Theorem ctl_bugreport `{Env} hash argv w :
  argv !! 1%nat = Some "bugreport" →
  let out := ArgValueOr argv "--out" "/tmp/pomaiqueue-bugreport.txt" in
  let e := ctl_main (S:=PomaiQueue) (H0:=PomaiQueue_service hash) argv w in
  (∀ p, p ≠ out → files (files_left e) !! p = files w !! p) ∧
  (exit_code e = Good 6 ∧ files (files_left e) = files w ∨
   exit_code e = Good 0 ∧ file_bytes (files_left e) out `prefix_of` report_bytes (report argv)) ∧
  (calm_run →
   exit_code e = Good 0 ∧ files (files_left e) !! out = Some (report_bytes (report argv))).
Proof.
  intros Hcmd. cbv zeta. rewrite (ctl_main_refined (I:=PomaiQueue_implements hash)).
  unfold ctl_main. rewrite Hcmd. set (out := ArgValueOr argv "--out" _).
  pose proof (wp_run _ _ _ (wp_write_report out (report argv) w)) as Hany.
  assert (calm_run → let '(o, w') := write_report out (report argv) w in
    o = Good true ∧ files w' !! out = Some (report_bytes (report argv))) as Hcalm.
  { intros calm. apply wp_run. by apply calm_write_report. }
  destruct (bugreport argv (mkProcess (bare_queue (ctl_options argv) w) false [])) as [r p] eqn:Hr.
  rewrite (run_command argv "bugreport" w (bugreport argv) r p eq_refl Hr).
  revert Hr. unfold bugreport. fold out. unfold bind at 1, on_queue_ at 1, zoom. cbn [queue].
  cbn [outside SeqQueue_service bare_queue sq_store fst snd sq_options sq_up].
  destruct (write_report out (report argv) w) as [o w'].
  destruct Hany as ((Hf & _) & [[-> Hsame]|[-> Hpre]]); intros [= <- <-]; cbn.
  - split_and!; [exact Hf|by left|]. intros calm. by destruct (Hcalm calm) as [? _].
  - split_and!; [exact Hf|by right|]. intros calm. split; [done|]. by apply Hcalm.
Qed.

Section examples.
#[local] Existing Instance demo_env.

Lemma ctl_never_answers_witness :
  printed (ctl_main (S:=PomaiQueue) (H0:=PomaiQueue_service demo_hash)
    ["pomaiqctl"; "inspect"; "--queue"; "jobs"; "--offset"; "1"] demo_world) =
  [Err ("inspect failed: queue not found" +:+ endl)].
Proof.
  destruct (ctl_never_answers demo_hash ["pomaiqctl"; "inspect"; "--queue"; "jobs"; "--offset"; "1"]
    demo_world "inspect" eq_refl (or_introl eq_refl)) as [_ [[He _]|[_ Hp]]].
  - exfalso. revert He. vm_compute. discriminate.
  - exact Hp.
Defined.

Lemma ctl_bugreport_witness :
  let e := ctl_main (S:=PomaiQueue) (H0:=PomaiQueue_service demo_hash)
    ["pomaiqctl"; "bugreport"; "--out"; "/r"; "--queue"; "jobs"] empty_world in
  exit_code e = Good 0 ∧
  files (files_left e) !! "/r" = Some (bytes_of_string ("pomaiqueue bugreport
queue=jobs
group=default
from_seq=0
to_seq=0
data_dir=/tmp/pomaiqueue
")).
Proof.
  destruct (ctl_bugreport demo_hash ["pomaiqctl"; "bugreport"; "--out"; "/r"; "--queue"; "jobs"]
    empty_world eq_refl) as (_ & _ & Hc).
  destruct (Hc demo_calm) as [He Hf]. split; [exact He|].
  refine (eq_trans Hf _). vm_compute. reflexivity.
Defined.
End examples.
