(* ===== verification/Stress.v ===== *)
(** * The stress tool ([src/cli/pomaiqueue_stress.cc])

    A program over [QueueService] that produces, consumes and acknowledges in
    rounds until a time is over, counts, and compares the counts.  The steady
    clock and what is printed (rates and percentiles of durations) are the
    environment's; [assert] does not evaluate its argument when the tool is
    compiled with [NDEBUG]. *)
From stdpp Require Import pretty.
From S2P Require Import Prelude Decimal Status Io Record SegmentLog Checkpoint Message EventLog Group.
From S2P Require Import Lifecycle Handlers HandlerSpecs Operations Values Engine Recovery Restart EngineSpecs.
From S2P Require Import ServerConfig ShardActor EngineApi Isolation Composition Lives Facade Server Ctl.

(** ** The arguments *)

Record StressArgs := mkStress {
  seconds : Z;
  producers : Z;
  consumers : Z;
  payload_bytes : Z;
  queues : Z;
}.

Definition default_stress : StressArgs := mkStress 3 2 2 64 1.

(** [std::stoi]: [None] when it throws. *)
Definition stoi (value : text) : option Z :=
  let t := drop_spaces value in
  let '(negative, t) :=
    match t with
    | c :: t' => if code_of c =? 45 then (true, t') else if code_of c =? 43 then (false, t') else (false, t)
    | [] => (false, t)
    end in
  let '(n, rest) := take_digits 0 t in
  if (length rest =? length t)%nat then None
  else
    let n := if (negative : bool) then - n else n in
    if (- 2 ^ 31 <=? n) && (n <? 2 ^ 31) then Some n else None.

Definition set_arg (k : string) (v : Z) (a : StressArgs) : StressArgs :=
  if (k =? "--seconds")%string then mkStress v (producers a) (consumers a) (payload_bytes a) (queues a)
  else if (k =? "--producers")%string then mkStress (seconds a) v (consumers a) (payload_bytes a) (queues a)
  else if (k =? "--consumers")%string then mkStress (seconds a) (producers a) v (payload_bytes a) (queues a)
  else if (k =? "--payload_bytes")%string then mkStress (seconds a) (producers a) (consumers a) v (queues a)
  else if (k =? "--queues")%string then mkStress (seconds a) (producers a) (consumers a) (payload_bytes a) v
  else a.

(** Pairs of a key and a number; a last key without one is ignored. *)
Fixpoint stress_args (args : list string) (a : StressArgs) : option StressArgs :=
  match args with
  | k :: v :: rest =>
      match stoi (bytes_of_string v) with
      | Some n => stress_args rest (set_arg k n a)
      | None => None
      end
  | _ => Some a
  end.

(** ** Rounds *)

Definition stress_queue (qi : Z) : string := "q" +:+ pretty qi.

(** [for (int i = 0; i < n; ++i)] *)
Definition upto_int (n : Z) : list Z := map Z.of_nat (seq 0 (Z.to_nat n)).

Definition stress_message (a : StressArgs) (p produced : Z) : Message :=
  mkMessage (mkId (u64 (p + 1)) produced) produced
    (replicate (Z.to_nat (u64 (payload_bytes a))) Byte.x07) ∅ "stress".

Section stress.
Context `{Env} {S : Type} `{QueueService S}.
Context (ndebug : bool) (elapsed : nat → Z) (summary : Z → Z → string).
Context (a : StressArgs).

Definition succeeds {A} (m : M (Process S) A) : M (Process S) bool :=
  let! r := attempt m in ret (match r with inl _ => true | inr _ => false end).

Definition assert_ (m : M (Process S) bool) : M (Process S) unit :=
  if ndebug then ret tt
  else let! b := m in if (b : bool) then ret tt else throw "assertion failed".

Fixpoint create_queues (qis : list Z) : M (Process S) unit :=
  match qis with
  | [] => ret tt
  | qi :: qis =>
      do! assert_ (succeeds (on_queue_ (CreateQueue_ (stress_queue qi)))) in create_queues qis
  end.

(** One producer: a message for every queue, up to the first refusal. *)
Fixpoint produce_queues (p : Z) (qis : list Z) (produced : Z) : M (Process S) Z :=
  match qis with
  | [] => ret produced
  | qi :: qis =>
      let produced := u64 (produced + 1) in
      do! on_queue_ (outside (allocate (u64 (payload_bytes a)))) in
      let! st := attempt (on_queue_ (Produce_ (stress_queue qi) (stress_message a p produced))) in
      match st with
      | inl _ => produce_queues p qis produced
      | inr _ => ret produced
      end
  end.

Fixpoint produce_all (ps : list Z) (produced : Z) : M (Process S) Z :=
  match ps with
  | [] => ret produced
  | p :: ps => let! produced := produce_queues p (upto_int (queues a)) produced in produce_all ps produced
  end.

(** One consumer: asks every queue, and acknowledges what it gets. *)
Fixpoint consume_queues (qis : list Z) : M (Process S) unit :=
  match qis with
  | [] => ret tt
  | qi :: qis =>
      let! con := attempt (on_queue_ (Consume_ (stress_queue qi) "g")) in
      do! match con with
          | inl (Some res) =>
              assert_ (succeeds (on_queue_ (Ack_ (stress_queue qi) "g" (msg_id (result_message res)))))
          | _ => ret tt
          end in
      consume_queues qis
  end.

Fixpoint consume_all (cs : list Z) : M (Process S) unit :=
  match cs with
  | [] => ret tt
  | _ :: cs => do! consume_queues (upto_int (queues a)) in consume_all cs
  end.

(** The rounds while less than [seconds] have passed at their beginning. *)
Fixpoint rounds (fuel k : nat) (produced : Z) : M (Process S) Z :=
  match fuel with
  | O => throw "stress rounds: out of fuel"
  | Datatypes.S fuel =>
      if elapsed k <? seconds a then
        let! produced := produce_all (upto_int (producers a)) produced in
        do! consume_all (upto_int (consumers a)) in
        rounds fuel (Datatypes.S k) produced
      else ret produced
  end.

(** Statistics that fail count as zeros where the assertion is not compiled. *)
Fixpoint count_acked (qis : list Z) (acked : Z) : M (Process S) Z :=
  match qis with
  | [] => ret acked
  | qi :: qis =>
      let! st := attempt (on_queue_ (GetStats_ (stress_queue qi) "g")) in
      do! assert_ (ret (match st with inl _ => true | inr _ => false end)) in
      count_acked qis (u64 (acked + match st with inl s => acked_count s | inr _ => 0 end))
  end.

(** [main] from the construction of the queue on. *)
Definition stress (fuel : nat) : M (Process S) Z :=
  do! assert_ (succeeds (on_queue_ Start_)) in
  do! create_queues (upto_int (queues a)) in
  let! produced := rounds fuel 0 0 in
  let! acked := count_acked (upto_int (queues a)) 0 in
  do! cout (summary produced acked) in
  do! attempt (on_queue_ Stop_) in
  ret (if produced <? acked then 2 else 0).
End stress.

(** [std::filesystem::remove_all] *)
Definition below (base p : string) : bool :=
  (p =? base)%string || String.prefix (base +:+ "/") p.

Definition remove_all `{Env} (base : string) : W unit :=
  let! b := Io.call_ok in
  if (b : bool) then modify (set_files (filter (λ it, below base it.1 = false))) else throw "remove_all".

Definition stress_options (base : string) : EngineOptions :=
  let o := set_data_dir base default_options in
  mkOptions (data_dir o) (shard_count o) (fsync_policy o) (max_inflight o) 500000 (max_retry_count o)
    (visibility_timeout o) (retry_backoff o) (scheduler_tick o) (retention o) (max_segment_size_bytes o).

(** [temp] is the directory for temporary files. *)
Definition stress_main `{Env} {S : Type} `{QueueService S} (ndebug : bool) (elapsed : nat → Z)
    (summary : Z → Z → string) (temp : string) (fuel : nat) (argv : list string) (w : World) : Exit :=
  match stress_args (tail argv) default_stress with
  | None => mkExit (Throw "stoi") w []
  | Some a =>
      let base := path_join temp "pomaiqueue-stress" in
      let '(o, w) := remove_all base w in
      match o with
      | Good _ => run_process (stress_options base) [] (stress ndebug elapsed summary a fuel) w
      | Fail st => mkExit (Fail st) w []
      | Throw what => mkExit (Throw what) w []
      end
  end.

(** ** Refinement *)

Section refined.
Context `{Env} {S : Type} `{I : Implements S}.
Context (ndebug : bool) (elapsed : nat → Z) (summary : Z → Z → string) (a : StressArgs).

Abbreviation refinesP := (refines (T:=Process S) observe_process usable_process).

#[local] Hint Resolve print_refines : refines.

#[local] Ltac refine_stress :=
  repeat first [apply on_queue_refines; solve [eauto with refines typeclass_instances]
               |progress unfold assert_, succeeds, cout|refine_step].

Lemma create_queues_refines qis : refinesP (create_queues ndebug qis) (create_queues ndebug qis).
Proof. induction qis; cbn; refine_stress. Qed.

Lemma produce_queues_refines p qis n : refinesP (produce_queues a p qis n) (produce_queues a p qis n).
Proof. revert n. induction qis; intros n; cbn; refine_stress. Qed.

Lemma produce_all_refines ps n : refinesP (produce_all a ps n) (produce_all a ps n).
Proof. revert n. induction ps; intros n; cbn; refine_stress; apply produce_queues_refines. Qed.

Lemma consume_queues_refines qis : refinesP (consume_queues ndebug qis) (consume_queues ndebug qis).
Proof. induction qis; cbn; refine_stress. Qed.

Lemma consume_all_refines cs : refinesP (consume_all ndebug a cs) (consume_all ndebug a cs).
Proof. induction cs; cbn; refine_stress; apply consume_queues_refines. Qed.

Lemma rounds_refines fuel k n : refinesP (rounds ndebug elapsed a fuel k n) (rounds ndebug elapsed a fuel k n).
Proof.
  revert k n. induction fuel as [|fuel IH]; intros k n; cbn; refine_stress;
    [apply produce_all_refines|apply consume_all_refines].
Qed.

Lemma count_acked_refines qis n : refinesP (count_acked ndebug qis n) (count_acked ndebug qis n).
Proof. revert n. induction qis; intros n; cbn; refine_stress. Qed.

Lemma stress_refines fuel :
  refinesP (stress ndebug elapsed summary a fuel) (stress ndebug elapsed summary a fuel).
Proof.
  unfold stress. refine_stress; [apply create_queues_refines|apply rounds_refines|apply count_acked_refines].
Qed.
End refined.

Lemma stress_main_refined {S : Type} `{I : Implements S} ndebug elapsed summary temp fuel argv w :
  stress_main (S:=S) ndebug elapsed summary temp fuel argv w =
  stress_main (S:=SeqQueue) ndebug elapsed summary temp fuel argv w.
Proof.
  unfold stress_main. destruct (stress_args _ _) as [a|]; [|done].
  destruct (remove_all _ w) as [[] w']; [|done..].
  apply run_process_refined; [cbn; lia|apply stress_refines].
Qed.

(** ** Counting *)

Section counting.
Context `{Env}.
Context (options_ : EngineOptions) (q g : string).
Context (calm : calm_run) (Hclock : clock_bounded) (Hdepth : max_queue_depth options_ < 2 ^ 64).
Context (Hq : plain q) (Hq_ne : q ≠ "") (Hg : plain g) (Hroom : roomy g).
Context (written : Prop) (m0 : gmap MessageId MessageRuntime).

Abbreviation phase := (phase options_ q g written m0).
Abbreviation execute := (execute options_).

Lemma tracks_size rs gr : tracks rs gr → distinct_ids rs → (size (runtime gr) <= length rs)%nat.
Proof.
  intros Ht Hd. rewrite <-size_dom, <-(length_fmap record_id rs).
  rewrite <-(size_list_to_set (C := gset MessageId) (record_id <$> rs)) by exact Hd.
  apply subseteq_size. intros id (rt & Hrt)%elem_of_dom. apply elem_of_list_to_set.
  destruct (Ht id rt Hrt) as (_ & r & Hr & <-). apply list_elem_of_fmap. exists r. split; [done|].
  by eapply list_elem_of_lookup_2.
Qed.

Lemma phase_size L tr s st gr :
  phase L tr s → NoDup (asked L) → s.2 !! q = Some st → groups st !! g = Some gr →
  (size (runtime gr) <= length (asked L))%nat.
Proof.
  intros [(rs & m & [_ _ _ _ _ Hgr _])|(c & pre & tr' & rs & st' & gr' & t & m & Hs)] Hd Hst Hg'.
  - unfold find_group in Hgr. rewrite Hst in Hgr. cbn in Hgr. congruence.
  - destruct Hs as [_ _ [Hst' Hgr' _ _ Hok _] _ _ _ _ Hfrom _]. simplify_eq.
    etrans; [apply (tracks_size rs); [apply Hok|by eapply from_distinct]|].
    destruct Hfrom as [Hsub%sublist_length _]. by rewrite length_fmap in Hsub.
Qed.

(** Where a request of the group runs: on the group in the table, after it was
    loaded. *)
Lemma phase_ready L tr s o x op :
  phase L tr s → NoDup (asked L) → group_step q g (op, o) = Some x → s.2 !! q = None ∨
  ∃ w1 qs1 st gr, execute op s = execute op (w1, qs1) ∧ qs1 !! q = Some st ∧ groups st !! g = Some gr ∧
    group_ok options_ gr.
Proof.
  intros [(rs & m & [Hrest _ Hfrom _ Hl Hgr Hseg])|(c & pre & tr' & rs & st' & gr' & t & m & Hs)] Hd Hx.
  - destruct s as [w qs]. cbn [fst snd] in *. destruct (qs !! q) as [st|] eqn:Hst; [right|by left].
    unfold find_group, find_segment in Hgr, Hseg. rewrite Hst in Hgr, Hseg. cbn in Hgr, Hseg.
    destruct Hseg as (Hidx & Hfile & _).
    destruct (load_group options_ q g calm Hq Hq_ne Hg Hroom rs w qs st m Hst Hgr (Hl q st Hst) Hidx Hfile
      (rest_distinct _ _ _ _ _ _ Hrest) (rest_group _ _ _ _ _ _ Hrest))
      as (w1 & g1 & t & H0 & H1 & _ & Hok & _).
    exists w1, (<[q := set_group g g1 st]> qs), (set_group g g1 st), g1.
    rewrite (execute_loaded options_ q g op _ _ _ _ H0 H1 Hx).
    split_and!; [done|apply lookup_insert_eq|apply lookup_insert_eq|apply Hok].
  - right. destruct Hs as [_ _ [Hst' Hgr' _ _ Hok _] _ _ _ _ _ _]. destruct s as [w qs].
    exists w, qs, st', gr'. split_and!; [done..|apply Hok].
Qed.

(** The statistics count no more acknowledged messages than were asked for. *)
Lemma phase_stats L tr s x s' :
  phase L tr s → NoDup (asked L) → execute (OpGetStats q g) s = (Good (RStats x), s') →
  0 <= acked_count x <= Z.of_nat (length (asked L)).
Proof.
  intros Hp Hd Hrun.
  pose proof (phase_step options_ q g calm Hclock Hdepth Hq Hq_ne Hg Hroom written m0 L tr (OpGetStats q g) s)
    as Hstep.
  rewrite Hrun, note_other in Hstep by done.
  specialize (Hstep Hp ltac:(by split_and!) Hd).
  assert (∀ o, group_step q g (OpGetStats q g, o) = Some (GStats, GotStats (reply_part as_stats o))) as Hx.
  { intros o. unfold group_step. cbn. by rewrite decide_True. }
  destruct (phase_ready L tr s _ _ _ Hp Hd (Hx (Good (RStats x)))) as [Hnone|(w1 & qs1 & st & gr & Heq & Hst & Hgr & Hok)].
  { destruct s as [w qs]. cbn in Hnone. pose proof (Hx (execute (OpGetStats q g) (w, qs)).1) as Hy.
    destruct (mine_absent options_ q g _ _ _ _ Hnone Hy) as [Hf _]. by rewrite Hrun in Hf. }
  rewrite Heq in Hrun. pose proof (Hx (execute (OpGetStats q g) (w1, qs1)).1) as Hy.
  pose proof (execute_mine options_ q g _ w1 qs1 st gr _ _ Hst Hgr Hy) as Hop. rewrite Hrun in Hop.
  cbn [run_op reply_part as_stats fst snd] in Hop.
  destruct (StatsGroup options_ q g (w1, gr)) as [o [w2 gr2]] eqn:Hstats. destruct Hop as [[= ->] ->].
  destruct (wp_intro _ _ _ _ _ (wp_StatsGroup options_ q g w1 gr Hclock Hok) Hstats) as [_ (Hc & Hsum & _)].
  cbn [snd] in *. injection Hc as Hr Hi Ha Hdead.
  pose proof (phase_size L _ _ (set_group g gr2 st) gr2 Hstep Hd (lookup_insert_eq _ _ _) (lookup_insert_eq _ _ _)).
  unfold count_in in *. lia.
Qed.
End counting.

(** ** The names of the tool *)

Lemma upto_int_range n qi : qi ∈ upto_int n → 0 <= qi < n.
Proof.
  intros (k & -> & Hk%elem_of_seq)%list_elem_of_fmap. lia.
Qed.

Lemma upto_int_nodup n : NoDup (upto_int n).
Proof. apply NoDup_fmap_2; [apply _|apply NoDup_seq]. Qed.

Lemma upto_int_length n : Z.of_nat (length (upto_int n)) = Z.max 0 n.
Proof. unfold upto_int. rewrite length_map, length_seq. lia. Qed.

Lemma stress_queue_plain qi : 0 <= qi → plain (stress_queue qi) ∧ stress_queue qi ≠ "".
Proof.
  intros Hqi. unfold stress_queue. split; [|done]. apply plain_app; [by apply (bool_decide_unpack _)|].
  by apply digits_no_slash, pretty_digits.
Qed.

Lemma stress_queue_ok n qi : qi ∈ upto_int n → plain (stress_queue qi) ∧ stress_queue qi ≠ "".
Proof. intros Hqi%upto_int_range. apply stress_queue_plain. lia. Qed.

Lemma stress_queue_inj qi qj : stress_queue qi = stress_queue qj → qi = qj.
Proof. unfold stress_queue. intros Heq%(inj (String.append "q")). by apply (inj pretty). Qed.

Lemma prefix_refl_app s t : String.prefix s (s +:+ t) = true.
Proof.
  induction s as [|c s IH]; [by destruct t|]. change (String c s +:+ t) with (String c (s +:+ t)).
  cbn [String.prefix]. by destruct (Ascii.ascii_dec c c).
Qed.

(** What is below a directory. *)
Lemma below_path base q f :
  base ≠ "" → last (bytes_of_string base) ≠ Some Byte.x2f → plain q → plain f →
  below base (path_join (path_join base q) f) = true.
Proof.
  intros Hb Hl Hq Hf. unfold below. apply orb_true_iff. right.
  assert (path_join base q = (base +:+ "/") +:+ q) as ->.
  { unfold path_join. rewrite (plain_prefix q Hq), bool_decide_eq_false_2 by done.
    destruct (bytes_of_string base) eqn:Hbytes; [|by rewrite string_app_assoc].
    destruct Hb. by apply bytes_of_string_inj. }
  unfold path_join. rewrite (plain_prefix f Hf). rewrite !bytes_of_string_app.
  destruct (_ ++ _) eqn:Hnil; [by destruct (bytes_of_string base)|].
  case_bool_decide; rewrite string_app_assoc; apply prefix_refl_app.
Qed.

(** ** A run of the tool *)

(** What can be said of a call when it returns. *)
Definition triple {T A} (P : T → Prop) (m : M T A) (Q : A → T → Prop) : Prop :=
  ∀ s, P s → wp m (λ o s', ∀ v, o = Good v → Q v s') s.

Section triples.
Context {T : Type}.

Lemma triple_ret {A} (P : T → Prop) (v : A) Q : (∀ s, P s → Q v s) → triple P (ret v) Q.
Proof. intros HQ s Hs v' [= <-]. by apply HQ. Qed.

Lemma triple_throw {A} (P : T → Prop) what (Q : A → T → Prop) : triple P (throw what) Q.
Proof. by intros s Hs v. Qed.

Lemma triple_bind {A B} P R (m : M T A) (f : A → M T B) Q :
  triple P m R → (∀ v, triple (R v) (f v) Q) → triple P (bind m f) Q.
Proof.
  intros Hm Hf s Hs. apply wp_bind. eapply wp_mono; [by apply Hm|]. intros [v|e|e] s' HR; [|done..].
  by apply Hf, HR.
Qed.

Lemma triple_mono {A} (P P' : T → Prop) (m : M T A) (Q Q' : A → T → Prop) :
  triple P m Q → (∀ s, P' s → P s) → (∀ v s, Q v s → Q' v s) → triple P' m Q'.
Proof. intros Hm HP HQ s Hs. eapply wp_mono; [by apply Hm, HP|]. eauto. Qed.

(** What the states before have in common. *)
Lemma triple_and {A} (φ : Prop) P (m : M T A) Q :
  (φ → triple P m Q) → triple (λ s, φ ∧ P s) m Q.
Proof. intros Hm s [Hφ Hs]. by apply Hm. Qed.

Lemma triple_ex {A X} (P : X → T → Prop) (m : M T A) Q :
  (∀ x, triple (P x) m Q) → triple (λ s, ∃ x, P x s) m Q.
Proof. intros Hm s [x Hs]. by apply (Hm x). Qed.
Lemma triple_assume {A} (φ : Prop) P (m : M T A) Q :
  (∀ s, P s → φ) → (φ → triple P m Q) → triple P m Q.
Proof. intros Hφ Hm s Hs. by apply Hm; [apply (Hφ s)|]. Qed.
End triples.

Lemma triple_assert {T} ndebug (P : Process T → Prop) {A} (m : M (Process T) A) :
  triple P (attempt m) (λ _, P) → triple P (assert_ ndebug (succeeds m)) (λ _, P).
Proof.
  intros Hm. unfold assert_. destruct ndebug; [by apply triple_ret|].
  eapply (triple_bind _ (λ _, P)).
  - eapply triple_bind; [exact Hm|]. intros r. by apply triple_ret.
  - intros [|]; [by apply triple_ret|apply triple_throw].
Qed.

Section run.
Context `{Env}.
Context (ndebug : bool) (elapsed : nat → Z) (summary : Z → Z → string) (a : StressArgs) (base : string).
Context (calm : calm_run) (Hclock : clock_bounded) (Hlimit : 2 ^ 33 <= alloc_limit).
Context (Hpayload : - 2 ^ 31 <= payload_bytes a < 2 ^ 31).

Abbreviation options_ := (stress_options base).
Abbreviation qis := (upto_int (queues a)).
Abbreviation phase_of qi := (phase options_ (stress_queue qi) "g" True ∅).

(** How many messages the queues [l] were asked to take. *)
Definition asked_total (Ls : Z → ledger) (l : list Z) : Z :=
  foldr (λ qi n, Z.of_nat (length (asked (Ls qi))) + n) 0 l.

(** After [n] messages were made. *)
Record stressed (Ls : Z → ledger) (n : Z) (s : World * Queues) : Prop := {
  sd_phase qi : qi ∈ qis → ∃ tr, phase_of qi (Ls qi) tr s;
  sd_distinct qi : NoDup (asked (Ls qi));
  sd_ids qi id : id ∈ asked (Ls qi) → id_low id <= n;
  sd_total : asked_total Ls qis <= n;
}.

Lemma asked_total_other Ls Ls' l :
  (∀ qi, qi ∈ l → asked (Ls' qi) = asked (Ls qi)) → asked_total Ls' l = asked_total Ls l.
Proof.
  induction l as [|qi l IH]; intros Hsame; [done|]. cbn. rewrite Hsame by left.
  f_equal. apply IH. intros qj Hj. apply Hsame. by right.
Qed.

(** One more message for one of the queues. *)
Lemma asked_total_one Ls Ls' l qi id :
  NoDup l → asked (Ls' qi) = asked (Ls qi) ++ [id] → (∀ qj, qj ≠ qi → asked (Ls' qj) = asked (Ls qj)) →
  asked_total Ls' l <= asked_total Ls l + 1.
Proof.
  intros Hl Hqi Hqj. induction Hl as [|qj l Hnot Hl IH]; [cbn; lia|]. cbn.
  destruct (decide (qj = qi)) as [->|Hne]; [|rewrite Hqj by done; unfold asked_total in *; lia].
  rewrite Hqi, length_app. cbn.
  pose proof (asked_total_other Ls Ls' l ltac:(intros qj Hj; apply Hqj; by intros ->)) as Heq.
  unfold asked_total in Heq. rewrite Heq. lia.
Qed.

Lemma stress_roomy : roomy "g".
Proof. split; [lia|]. unfold wf_string. cbn. lia. Qed.

Lemma stress_phase_step qi L tr op s :
  qi ∈ qis →
  let '(o, s') := execute options_ op s in
  phase_of qi L tr s → sound_op (stress_queue qi) True op → NoDup (asked (note (stress_queue qi) op o L)) →
  phase_of qi (note (stress_queue qi) op o L)
    (tr ++ option_list (group_step (stress_queue qi) "g" (op, o))) s'.
Proof.
  intros Hqi. destruct (stress_queue_ok _ _ Hqi) as [Hq Hne].
  apply phase_step; [done|done|cbn; lia|done|done|by apply (bool_decide_unpack _)|apply stress_roomy].
Qed.

Lemma stressed_more Ls n n' s : stressed Ls n s → n <= n' → stressed Ls n' s.
Proof.
  intros [Hp Hd Hi Ht] Hn. split; [done..| |lia]. intros qi id Hid. pose proof (Hi _ _ Hid). lia.
Qed.

(** A request that produces nothing. *)
Lemma stressed_step Ls n op s :
  stressed Ls n s → plain_op op → (∀ q m, op ≠ OpProduce q m) → stressed Ls n (execute options_ op s).2.
Proof.
  intros [Hp Hd Hi Ht] Hop Hno. split; [|done..]. intros qi Hqi. destruct (Hp qi Hqi) as [tr Htr].
  pose proof (stress_phase_step qi (Ls qi) tr op s Hqi) as Hstep.
  destruct (execute options_ op s) as [o s']. rewrite note_other in Hstep by done. eexists.
  apply Hstep; [done|by split; [|intros m ->; edestruct Hno]|done].
Qed.

(** A message that is larger than the ones before. *)
Lemma stressed_produce Ls n m qi s :
  stressed Ls n s → qi ∈ qis → sound_message m → id_low (msg_id m) = n + 1 →
  ∃ Ls', stressed Ls' (n + 1) (execute options_ (OpProduce (stress_queue qi) m) s).2.
Proof.
  intros [Hp Hd Hi Ht] Hqi Hm Hid. set (op := OpProduce (stress_queue qi) m).
  set (o := (execute options_ op s).1). exists (λ qj, note (stress_queue qj) op o (Ls qj)).
  destruct (stress_queue_ok _ _ Hqi) as [Hq Hne].
  assert (∀ qj, asked (note (stress_queue qj) op o (Ls qj)) =
    asked (Ls qj) ++ if decide (qi = qj) then [msg_id m] else []) as Hasked.
  { intros qj. rewrite asked_note. unfold op. cbn. f_equal.
    destruct (decide (qi = qj)) as [->|Hij]; [by rewrite decide_True|].
    rewrite decide_False; [done|]. by intros ?%stress_queue_inj. }
  assert (∀ qj, NoDup (asked (note (stress_queue qj) op o (Ls qj)))) as Hd'.
  { intros qj. rewrite Hasked. case_decide; [|by rewrite app_nil_r]. apply NoDup_app. split_and!; [done| |].
    - intros id Hin ->%list_elem_of_singleton. pose proof (Hi _ _ Hin). lia.
    - apply NoDup_singleton. }
  split; [|done| |].
  - intros qj Hqj. destruct (Hp qj Hqj) as [tr Htr].
    pose proof (stress_phase_step qj (Ls qj) tr op s Hqj) as Hstep.
    rewrite (surjective_pairing (execute options_ op s)) in Hstep. eexists.
    apply Hstep; [done| |apply Hd']. split; [by split_and!|]. by intros m' [= _ <-].
  - intros qj id. rewrite Hasked, elem_of_app. intros [Hin|Hin]; [pose proof (Hi _ _ Hin); lia|].
    case_decide; [|by apply elem_of_nil in Hin]. apply list_elem_of_singleton in Hin as ->. lia.
  - pose proof (asked_total_one Ls (λ qj, note (stress_queue qj) op o (Ls qj)) qis qi (msg_id m)
      (upto_int_nodup _)) as Hone.
    cut (asked_total (λ qj, note (stress_queue qj) op o (Ls qj)) qis <= asked_total Ls qis + 1); [lia|].
    apply Hone; [by rewrite Hasked, decide_True|]. intros qj Hne'. by rewrite Hasked, decide_False, app_nil_r.
Qed.

(** *** Calls *)

Abbreviation proc := (Process SeqQueue).

Definition running Ls n (p : proc) : Prop :=
  sq_options (queue p) = options_ ∧ stressed Ls n (sq_store (queue p)).

(** A request either is not executed and fails, or is. *)
Lemma call_result {A} op (f : Reply → M SeqQueue A) (p : proc) :
  sq_options (queue p) = options_ → (∀ r s, (f r s).2 = s) →
  wp (attempt (on_queue_ (bind (seq_call op) f)))
    (λ o p', ∀ v, o = Good v → sq_options (queue p') = options_ ∧
       (sq_store (queue p') = sq_store (queue p) ∧ (∀ x, v ≠ inl x) ∨
        sq_store (queue p') = (execute options_ op (sq_store (queue p))).2 ∧
        ∀ x, v = inl x → ∃ r s, (execute options_ op (sq_store (queue p))).1 = Good r ∧ (f r s).1 = Good x)) p.
Proof.
  intros Ho Hf. destruct p as [[o_ s up] b l]. cbn [queue sq_options sq_store] in *. subst o_.
  unfold wp, attempt, on_queue_, zoom, seq_call, bind. cbn [queue sq_options sq_store sq_up].
  destruct (shard_count options_ =? 0); [intros v [= <-]; split; [done|]; by left|].
  destruct up; cbn [negb]; [|intros v [= <-]; split; [done|]; by left].
  destruct (execute options_ op s) as [[r|e|e] s'] eqn:Hrun; cbn [fst snd].
  - pose proof (Hf r (mkSeq options_ s' true)) as Hs. destruct (f r _) as [[x|e|e] q'] eqn:Hfr; cbn in Hs; subst q';
      intros v [= <-]; (split; [done|]); right; (split; [done|]).
    + intros x' [= <-]. exists r, (mkSeq options_ s' true). by rewrite Hfr.
    + done.
  - intros v [= <-]. split; [done|]. by right.
  - done.
Qed.

(** A call that changes nothing of the queue's data. *)
Lemma triple_quiet {A} Ls n (m : M SeqQueue A) :
  (∀ s, sq_options (m s).2 = sq_options s ∧ sq_store (m s).2 = sq_store s) →
  triple (running Ls n) (attempt (on_queue_ m)) (λ _, running Ls n).
Proof.
  intros Hm p [Ho Hs]. unfold wp, attempt, on_queue_, zoom. specialize (Hm (queue p)).
  destruct (m (queue p)) as [[] q]; cbn [fst snd] in *; intros v [= <-];
    (split; cbn [queue set_queue]; [by rewrite (proj1 Hm)|by rewrite (proj2 Hm)]).
Qed.

Lemma triple_call {A} Ls n op (f : Reply → M SeqQueue A) :
  (∀ r s, (f r s).2 = s) → plain_op op → (∀ q m, op ≠ OpProduce q m) →
  triple (running Ls n) (attempt (on_queue_ (bind (seq_call op) f))) (λ _, running Ls n).
Proof.
  intros Hf Hop Hno p [Ho Hs]. eapply wp_mono; [by apply call_result|].
  intros o p' Hp v Hv. destruct (Hp v Hv) as [Ho' [[Heq _]|[Heq _]]]; (split; [done|]); rewrite Heq; [done|].
  by apply stressed_step.
Qed.

Lemma reply_unit_pure r (s : SeqQueue) : (reply_unit r s).2 = s.
Proof. by destruct r. Qed.
Lemma reply_offset_pure r (s : SeqQueue) : (reply_offset r s).2 = s.
Proof. by destruct r. Qed.
Lemma reply_message_pure r (s : SeqQueue) : (reply_message r s).2 = s.
Proof. by destruct r. Qed.
Lemma reply_stats_pure r (s : SeqQueue) : (reply_stats r s).2 = s.
Proof. by destruct r. Qed.

#[local] Hint Resolve reply_unit_pure reply_offset_pure reply_message_pure reply_stats_pure : core.

Lemma triple_stress_call {A} Ls n qi op (f : Reply → M SeqQueue A) :
  qi ∈ qis → (∀ r s, (f r s).2 = s) →
  op ∈ [OpCreateQueue (stress_queue qi); OpConsume (stress_queue qi) "g"; OpGetStats (stress_queue qi) "g"] ∨
    (∃ id, op = OpAck (stress_queue qi) "g" id) →
  triple (running Ls n) (attempt (on_queue_ (bind (seq_call op) f))) (λ _, running Ls n).
Proof.
  intros Hqi Hf Hop. destruct (stress_queue_ok _ _ Hqi) as [Hq Hne].
  assert (plain "g") as Hg by by apply (bool_decide_unpack _).
  rewrite !elem_of_cons, elem_of_nil in Hop. destruct_or! Hop; try done; [..|destruct Hop as [id Hop]];
    subst op; by apply triple_call.
Qed.

Lemma stress_sound p n :
  is_u64 n → u64 (payload_bytes a) <= alloc_limit → sound_message (stress_message a p n).
Proof.
  intros Hn Hpl k Hk. pose proof alloc_limit_max. unfold u64 in *.
  set (size := Z.to_nat (payload_bytes a mod 2 ^ 64)).
  assert (Z.of_nat size < 2 ^ 32) as Hsize.
  { unfold size. destruct (decide (0 <= payload_bytes a)).
    - rewrite Z.mod_small; lia.
    - rewrite <-(Z.mod_add _ 1), Z.mod_small in Hpl; lia. }
  split.
  - unfold wf_record, wf_header, fits, u64, string_size. cbn [stress_message record_of set_offset
      header headers routing_key payload magic version offset enqueue_ts msg_id_high msg_id_low msg_enqueue_ts
      msg_id id_high id_low msg_payload msg_headers msg_routing_key]. fold size.
    rewrite length_replicate. split_and!; try done; try lia; apply u64_range.
  - rewrite record_bytes_length. unfold body_bytes. rewrite !length_app.
    cbn [stress_message record_of set_offset headers routing_key payload msg_payload msg_headers msg_routing_key].
    unfold u64. fold size. rewrite length_replicate.
    change (Z.of_nat (sizeof_RecordHeader + (0 + (6 + size))) <= alloc_limit). unfold sizeof_RecordHeader. lia.
Qed.

(** *** The tool's loops *)

Lemma all_qis : Forall (.∈ qis) qis.
Proof. by apply Forall_forall. Qed.

Lemma triple_create_queues Ls n l :
  Forall (.∈ qis) l → triple (running Ls n) (create_queues ndebug l) (λ _, running Ls n).
Proof.
  induction l as [|qi l IH]; intros Hl; [by apply triple_ret|]. apply Forall_cons in Hl as [Hqi Hl].
  eapply (triple_bind _ (λ _, running Ls n)); [|intros _; by apply IH].
  apply triple_assert, (triple_stress_call _ _ qi); [done|auto|left; left].
Qed.

Lemma triple_consume_queues Ls n l :
  Forall (.∈ qis) l → triple (running Ls n) (consume_queues ndebug l) (λ _, running Ls n).
Proof.
  induction l as [|qi l IH]; intros Hl; [by apply triple_ret|]. apply Forall_cons in Hl as [Hqi Hl].
  eapply (triple_bind _ (λ _, running Ls n)).
  { apply (triple_stress_call _ _ qi); [done|auto|left; right; left]. }
  intros con. eapply (triple_bind _ (λ _, running Ls n)); [|intros _; by apply IH].
  destruct con as [[res|]|]; [|by apply triple_ret..].
  apply triple_assert, (triple_stress_call _ _ qi); [done|auto|right; by eexists].
Qed.

Lemma triple_consume_all Ls n cs :
  triple (running Ls n) (consume_all ndebug a cs) (λ _, running Ls n).
Proof.
  induction cs as [|c cs IH]; [by apply triple_ret|].
  eapply (triple_bind _ (λ _, running Ls n)); [by apply triple_consume_queues, all_qis|by intros _].
Qed.

Definition runs n (p : proc) : Prop := ∃ Ls, running Ls n p.

(** At most [k] messages were added to [n]. *)
Definition added n k (n' : Z) (p : proc) : Prop := n <= n' <= n + k ∧ runs n' p.

Lemma triple_runs {A} n (m : M proc A) :
  (∀ Ls, triple (running Ls n) m (λ _, running Ls n)) → triple (runs n) m (λ _, runs n).
Proof.
  intros Hm. apply triple_ex. intros Ls. eapply triple_mono; [apply Hm|done|]. intros v p Hp. by exists Ls.
Qed.

Lemma triple_produce_queues pr l n :
  Forall (.∈ qis) l → 0 <= n → n + Z.of_nat (length l) < 2 ^ 64 →
  triple (runs n) (produce_queues a pr l n) (added n (Z.of_nat (length l))).
Proof.
  revert n. induction l as [|qi l IH]; intros n Hl Hn Hlt.
  { apply triple_ret. intros p Hp. split; [cbn; lia|done]. }
  apply Forall_cons in Hl as [Hqi Hl]. cbn [length] in Hlt. cbn [produce_queues].
  rewrite (u64_small (n + 1)) by lia.
  eapply (triple_bind _ (λ _ p, u64 (payload_bytes a) <= alloc_limit ∧ runs n p)).
  { intros p Hp. apply wp_zoom. unfold outside, SeqQueue_service, allocate, wp. destruct p as [[o_ s up] b q].
    destruct (Z.leb_spec (u64 (payload_bytes a)) alloc_limit); [|done]. intros v _. split; [done|].
    destruct s. exact Hp. }
  intros _. eapply (triple_bind _ (λ _, runs (n + 1))).
  - intros p (Hpl & Ls & Ho & Hs). eapply wp_mono; [by apply call_result; [|auto]|].
    intros o p' Hp v Hv. destruct (Hp v Hv) as [Ho' [[Heq _]|[Heq _]]].
    + exists Ls. split; [done|]. rewrite Heq. apply (stressed_more _ n); [done|lia].
    + destruct (stressed_produce Ls n (stress_message a pr (n + 1)) qi _ Hs Hqi) as [Ls' Hs'];
        [apply stress_sound; [lia|done]|done|].
      exists Ls'. split; [done|]. by rewrite Heq.
  - intros [off|st].
    + eapply triple_mono; [apply IH; [done|lia..]|done|]. intros n' p [? ?]. split; [cbn; lia|done].
    + apply triple_ret. intros p Hp. split; [cbn; lia|done].
Qed.

Abbreviation per_producer := (Z.max 0 (queues a)).

Lemma triple_produce_all ps n :
  0 <= n → n + Z.of_nat (length ps) * per_producer < 2 ^ 64 →
  triple (runs n) (produce_all a ps n) (added n (Z.of_nat (length ps) * per_producer)).
Proof.
  revert n. induction ps as [|pr ps IH]; intros n Hn Hlt.
  { apply triple_ret. intros p Hp. split; [cbn; lia|done]. }
  cbn [length produce_all] in *.
  eapply triple_bind; [apply triple_produce_queues; [apply all_qis|done|rewrite upto_int_length; lia]|].
  intros n1. rewrite upto_int_length. apply triple_and. intros Hn1.
  eapply triple_mono; [apply IH; lia|done|]. intros n' p [? ?]. split; [lia|done].
Qed.

Abbreviation per_round := (Z.max 0 (producers a) * per_producer).

Lemma triple_rounds fuel k n :
  0 <= n → n + Z.of_nat fuel * per_round < 2 ^ 64 →
  triple (runs n) (rounds ndebug elapsed a fuel k n) (added n (Z.of_nat fuel * per_round)).
Proof.
  revert k n. induction fuel as [|fuel IH]; intros k n Hn Hlt; [apply triple_throw|]. cbn [rounds].
  assert (0 <= per_round) by lia.
  destruct (_ <? _); [|apply triple_ret; intros p Hp; split; [lia|done]].
  eapply triple_bind; [apply triple_produce_all; [done|rewrite upto_int_length; lia]|].
  intros n1. rewrite upto_int_length. apply triple_and. intros Hn1.
  eapply (triple_bind _ (λ _, runs n1)); [apply triple_runs; intros Ls; apply triple_consume_all|].
  intros _. eapply triple_mono; [apply IH; lia|done|]. intros n' p [? ?]. split; [lia|done].
Qed.

(** The statistics of one queue. *)
Lemma triple_stats Ls n qi :
  qi ∈ qis →
  triple (running Ls n) (attempt (on_queue_ (GetStats_ (stress_queue qi) "g")))
    (λ v p, match v with
            | inl x => 0 <= acked_count x <= Z.of_nat (length (asked (Ls qi)))
            | inr _ => True
            end ∧ running Ls n p).
Proof.
  intros Hqi p Hp. pose proof Hp as [Ho Hs]. destruct (stress_queue_ok _ _ Hqi) as [Hq Hne].
  eapply wp_mono; [by apply call_result; [|auto]|]. intros o p' Hr v Hv.
  destruct (Hr v Hv) as [Ho' [[Heq Hno]|[Heq Hx]]].
  { split; [by destruct v; [edestruct Hno|]|]. split; [done|by rewrite Heq]. }
  split.
  2: { split; [done|]. rewrite Heq. apply stressed_step; [done| |done].
    split_and!; [done..|by apply (bool_decide_unpack _)]. }
  - destruct v as [x|st]; [|done]. destruct (Hx x eq_refl) as (r & s & Hrun & Hreply).
    destruct r; try done. injection Hreply as ->. destruct (sd_phase _ _ _ Hs qi Hqi) as [tr Htr].
    eapply phase_stats; [done|done| |done|done| |apply stress_roomy|exact Htr|apply Hs|];
      [cbn; lia|by apply (bool_decide_unpack _)|]. by rewrite <-Hrun, <-surjective_pairing.
Qed.

Lemma triple_count_acked Ls n l acked :
  Forall (.∈ qis) l → 0 <= acked → acked + asked_total Ls l <= n → n < 2 ^ 64 →
  triple (running Ls n) (count_acked ndebug l acked) (λ acked' _, acked' <= n).
Proof.
  revert acked. induction l as [|qi l IH]; intros acked Hl Hacked Hn Hlt.
  { apply triple_ret. intros p _. cbn in Hn. lia. }
  apply Forall_cons in Hl as [Hqi Hl]. cbn [asked_total foldr] in Hn. fold (asked_total Ls l) in Hn.
  assert (0 <= asked_total Ls l) by (clear; induction l; cbn; [lia|]; unfold asked_total in *; lia).
  eapply triple_bind; [by apply triple_stats|]. intros v. apply triple_and. intros Hv.
  set (m := match v with inl s => acked_count s | inr _ => 0 end).
  assert (0 <= m <= Z.of_nat (length (asked (Ls qi)))) as Hm by (destruct v; cbn in *; lia).
  rewrite u64_small by lia.
  eapply (triple_bind _ (λ _, running Ls n)); [|intros _; apply IH; [done|lia..]].
  unfold assert_. destruct ndebug; [by apply triple_ret|].
  eapply (triple_bind _ (λ _, running Ls n)); [by apply triple_ret|].
  intros [|]; [by apply triple_ret|apply triple_throw].
Qed.

Lemma triple_stress fuel :
  Z.of_nat fuel * per_round < 2 ^ 64 →
  triple (runs 0) (stress ndebug elapsed summary a fuel) (λ code _, code ≠ 2).
Proof.
  intros Hfuel. unfold stress.
  eapply (triple_bind _ (λ _, runs 0)).
  { apply triple_runs. intros Ls. apply triple_assert, triple_quiet. intros [o_ s up].
    cbn. unfold seq_start. by case_match. }
  intros _. eapply (triple_bind _ (λ _, runs 0)).
  { apply triple_runs. intros Ls. apply triple_create_queues, all_qis. }
  intros _. eapply triple_bind; [apply triple_rounds; lia|].
  intros n. apply triple_and. intros Hn. apply triple_ex. intros Ls.
  apply (triple_assume (asked_total Ls qis <= n)); [intros p [_ Hs]; apply Hs|]. intros Htotal.
  eapply triple_bind; [apply (triple_count_acked Ls n); [apply all_qis|lia..]|]. intros acked.
  apply (triple_assume (acked <= n)); [by intros p Hp|]. intros Hacked.
  do 2 (eapply (triple_bind _ (λ _ _, True)); [by intros p Hp v Hv|intros _]).
  apply triple_ret. intros p _. destruct (Z.ltb_spec n acked); lia.
Qed.
End run.

(** The arguments are [int]s. *)
Definition is_int (z : Z) : Prop := - 2 ^ 31 <= z < 2 ^ 31.

Lemma stoi_int t n : stoi t = Some n → is_int n.
Proof.
  unfold stoi. repeat case_match; try done; intros [= <-]; unfold is_int; lia.
Qed.

Lemma stress_args_int args a0 a :
  is_int (payload_bytes a0) → stress_args args a0 = Some a → is_int (payload_bytes a).
Proof.
  revert a0. induction args as [[|k [|v args]] IH] using (well_founded_induction
    (Wf_nat.well_founded_ltof _ length)); intros a0 Ha0; [by intros [= <-]..|]. cbn [stress_args].
  destruct (stoi _) as [n|] eqn:Hn; [|done]. apply IH; [unfold ltof; cbn; lia|]. apply stoi_int in Hn.
  unfold set_arg. by repeat case_match.
Qed.

Lemma stress_base temp :
  path_join temp "pomaiqueue-stress" ≠ "" ∧
  last (bytes_of_string (path_join temp "pomaiqueue-stress")) ≠ Some Byte.x2f.
Proof.
  assert (∃ c, path_join temp "pomaiqueue-stress" = c +:+ "pomaiqueue-stress") as [c ->].
  { unfold path_join. change (String.prefix _ _) with false. cbv iota. case_match; [by exists ""|].
    case_bool_decide; [by exists temp|]. exists (temp +:+ "/"). by rewrite string_app_assoc. }
  split; [by destruct c|]. rewrite bytes_of_string_app.
  change (bytes_of_string "pomaiqueue-stress") with (bytes_of_string "pomaiqueue-stres" ++ [Byte.x73]).
  by rewrite app_assoc, last_snoc.
Qed.

Lemma remove_all_below `{Env} base w w' p :
  remove_all base w = (Good tt, w') → below base p = true → files w' !! p = None.
Proof.
  unfold remove_all, bind. destruct (Io.call_ok w) as [[[]| |] w1]; try done. intros [= <-] Hp.
  apply map_lookup_filter_None_2. right. intros x _. cbn. by rewrite Hp.
Qed.

Lemma run_process_wp `{Env} {S : Type} `{QueueService S} o lines (body : M (Process S) Z) w P n :
  P (mkProcess (new_service o w) false lines) → triple P body (λ code _, code ≠ n) →
  exit_code (run_process o lines body w) ≠ Good n.
Proof.
  intros HP Hbody. unfold run_process.
  assert (triple P (let! code := body in do! on_queue_ Destroy_ in ret code) (λ code _, code ≠ n)) as Hall.
  { eapply triple_bind; [exact Hbody|]. intros code. apply (triple_assume (code ≠ n)); [done|]. intros Hne.
    eapply (triple_bind _ (λ _ _, True)); [by intros p Hp v Hv|]. intros _. by apply triple_ret. }
  specialize (Hall _ HP). apply wp_run in Hall.
  destruct (bind body _ _) as [r p]. cbn. intros ->. by apply (Hall n).
Qed.

(** C16. The stress tool's own check passes.  When no call of the system is
    refused, the clock is in its range, a buffer of eight gibibytes is granted
    and the number of messages fits 64 bits, the tool, run over the public
    queue with its shards and workers, never ends with the exit code 2:
    whatever its arguments, the acknowledged messages that the statistics of
    all its queues count are no more than the messages that it produced. *)
Theorem stress_counts_agree {S : Type} `{I : Implements S} ndebug elapsed summary temp fuel argv a w :
  calm_run → clock_bounded → 2 ^ 33 <= alloc_limit →
  stress_args (tail argv) default_stress = Some a →
  Z.of_nat fuel * (Z.max 0 (producers a) * Z.max 0 (queues a)) < 2 ^ 64 →
  exit_code (stress_main (S:=S) ndebug elapsed summary temp fuel argv w) ≠ Good 2.
Proof.
  intros calm Hclock Hlimit Ha Hfuel. rewrite stress_main_refined. unfold stress_main. rewrite Ha.
  set (base := path_join temp "pomaiqueue-stress"). destruct (remove_all base w) as [[[]| |] w1] eqn:Hrm; [|done..].
  eapply (run_process_wp _ _ _ _ (runs a base 0)).
  2: { apply (triple_stress ndebug elapsed summary a base); [done..| |done].
    by eapply stress_args_int, Ha. }
  exists (λ _, mkLedger [] []). split; [done|]. split.
  - intros qi Hqi. exists []. destruct (stress_queue_ok _ _ Hqi) as [Hq Hne].
    apply (phase_begins _ _ _ _ _ _ []); [|split; [apply sublist_nil_l|done]|done].
    assert (∀ f, plain f → files w1 !! path_join (path_join base (stress_queue qi)) f = None) as Hnone.
    { intros f Hf. eapply remove_all_below; [exact Hrm|]. by apply below_path; [apply stress_base..| |]. }
    apply resting_nothing; [cbn; lia|..]; apply Hnone; by apply (bool_decide_unpack _).
  - intros. apply NoDup_nil_2.
  - by intros qi id ?%elem_of_nil.
  - unfold asked_total. induction (upto_int (queues a)) as [|qi l IH]; [done|exact IH].
Qed.

(** ** A run: two rounds of two messages to one queue

    Only the messages of the first round are acknowledged: the group does not
    learn of the later ones. *)

Section demo.
#[local] Existing Instance demo_env.

Definition demo_argv : list string := ["stress"; "--payload_bytes"; "5"; "--seconds"; "1"].

Definition demo_elapsed (k : nat) : Z := if (k <? 2)%nat then 0 else 1.

Definition demo_summary (produced acked : Z) : string := pretty produced +:+ " " +:+ pretty acked.

Definition demo_stress : Exit :=
  stress_main (S:=PomaiQueue) (H0:=PomaiQueue_service demo_hash) false demo_elapsed demo_summary
    "/tmp" 3 demo_argv empty_world.

Lemma stress_counts_agree_witness :
  exit_code demo_stress ≠ Good 2 ∧ exit_code demo_stress = Good 0 ∧ printed demo_stress = [Out "4 2"].
Proof.
  split; [|vm_compute; split; reflexivity].
  apply (stress_counts_agree (I:=PomaiQueue_implements demo_hash) false demo_elapsed demo_summary "/tmp" 3
    demo_argv (mkStress 1 2 2 5 1) empty_world demo_calm demo_clock);
    [vm_compute; discriminate|vm_compute; reflexivity|vm_compute; reflexivity].
Defined.
End demo.
