(* ===== verification/Witnesses.v ===== *)
(** * The storage and history theorems at concrete inputs

    The formats, the log and the histories of a group with the demo data of
    the engine's files: one record, one lease, one checkpoint. *)
From S2P Require Import Prelude Status Io DurableIo Record SegmentLog Checkpoint Message EventLog.
From S2P Require Import ShardActor EngineApi Isolation Composition Lives.
From S2P Require Import Group Lifecycle Handlers HandlerSpecs Operations Engine Recovery.
From S2P Require Import EngineSpecs Values Restart.

Section witnesses.
#[local] Existing Instance demo_env.

Lemma record_roundtrip_witness :
  wf_record demo_record ∧ obind (EncodeRecord demo_record) DecodeRecord = Good (stored demo_record).
Proof.
  split; [apply demo_recoverable|]. apply record_roundtrip. apply demo_recoverable.
Defined.

(** Its body is the two bytes of the key and the payload. *)
Lemma record_burst_detected_witness :
  ∃ pre msg, EncodeRecord demo_record = Good (pre ++ [Byte.x6b; Byte.x01] ++ []) ∧
    DecodeRecord (pre ++ [Byte.x6b; Byte.x03] ++ []) = Fail (mkStatus kCorruption msg).
Proof.
  assert (EncodeRecord demo_record =
    Good (header_bytes (encoded_header demo_record) ++ [Byte.x6b; Byte.x01] ++ [])) as Henc.
  { rewrite EncodeRecord_eq. reflexivity. }
  exists (header_bytes (encoded_header demo_record)).
  destruct (record_burst_detected demo_record _ _ [Byte.x6b; Byte.x03] _
    (proj1 demo_recoverable) Henc ltac:(rewrite header_bytes_length; apply Nat.le_refl)
    ltac:(simpl; lia) eq_refl ltac:(discriminate)) as [msg Hmsg].
  exists msg. split; [exact Henc|exact Hmsg].
Defined.

Lemma append_keeps_log_witness :
  let '(o, (w', s')) := Append (record_of demo_message) (fresh_world, fresh_segment) in
  o = Good 0 ∧ appendable [set_offset 0 (record_of demo_message)] w' s'.
Proof.
  pose proof (append_keeps_log [] (record_of demo_message) fresh_world fresh_segment
    fresh_appendable demo_message_recoverable ltac:(simpl; lia)) as Ha.
  assert ((Append (record_of demo_message) (fresh_world, fresh_segment)).1 = Good 0) as Ho
    by (vm_compute; reflexivity).
  destruct (Append _ _) as [o [w' s']]. simpl in Ho. subst o.
  split; [reflexivity|]. exact (proj2 Ha).
Defined.

Lemma read_log_witness :
  (Read demo_segment 0 demo_world).1 = Good (stored demo_record) ∧
  (Read demo_segment 1 demo_world).1 = Fail (mkStatus kNotFound "offset not found").
Proof.
  split.
  - exact (read_log [demo_record] [] demo_world demo_segment 0 ltac:(done) demo_indexed demo_file).
  - exact (read_log [demo_record] [] demo_world demo_segment 1 ltac:(done) demo_indexed demo_file).
Defined.

(** The first ten bytes of a second record follow the log. *)
Definition torn_world : World :=
  set_files (<["/d/q/seg-000001.log" := log_bytes [demo_record] ++ take 10 (record_bytes demo_record)]>)
    empty_world.

Lemma demo_torn : SegmentLog.torn (take 10 (record_bytes demo_record)).
Proof.
  right. exists demo_record. destruct demo_recoverable as [Hwf Hlim].
  split_and!; [done| |..|done].
  - exists (drop 10 (record_bytes demo_record)). by rewrite take_drop.
  - intros Heq%(f_equal length). rewrite length_take, record_bytes_length in Heq.
    vm_compute in Heq. discriminate.
Qed.

Lemma recover_torn_tail_witness :
  let '(o, (w', s')) := Recover (torn_world, demo_segment) in
  o = Good tt ∧ files w' !! "/d/q/seg-000001.log" = Some (log_bytes [demo_record]) ∧
  next_offset_ s' = 1.
Proof.
  pose proof (recover_torn_tail [demo_record] _ torn_world demo_segment ltac:(done)
    ltac:(apply Forall_singleton, demo_recoverable) demo_torn ltac:(apply lookup_insert_eq)
    ltac:(eexists; reflexivity)) as Hr.
  destruct (Recover _) as [o [w' s']]. destruct Hr as (Ho & Hf & Hi & _).
  split; [exact Ho|]. split.
  - rewrite Hf. apply lookup_insert_eq.
  - injection Hi as Hn _. exact Hn.
Defined.

(** The log was just reopened: the descriptor stands at its start. *)
Definition reopened_segment : SegmentLog :=
  mkSegmentLog "/d/q/seg-000001.log" kAlways (Some 0%nat) 1 {[0 := 0%nat]}.

Lemma reopened_indexed : indexed (demo_record :: []) reopened_segment.
Proof. destruct demo_indexed as (H1 & H2 & H3). split; [exact H1|]. split; [exact H2|exact H3]. Qed.

Lemma second_recoverable : recoverable (set_offset 1 (record_of demo_message)).
Proof.
  split.
  - unfold wf_record, wf_header, fits. cbn. split_and!; try lia; done.
  - rewrite record_bytes_length. vm_compute. done.
Qed.

Lemma append_after_reopen_overwrites_witness :
  let '(o, (w', s')) := Append (record_of demo_message) (demo_world, reopened_segment) in
  o = Good 1 ∧ (Read s' 0 w').1 = Good (stored (set_offset 1 (record_of demo_message))).
Proof.
  apply (append_after_reopen_overwrites [] demo_record (record_of demo_message) demo_world
    reopened_segment ltac:(done) eq_refl reopened_indexed eq_refl
    ltac:(pose proof demo_file as Hf; rewrite app_nil_r in Hf; exact Hf) second_recoverable).
Defined.

Lemma checkpoint_roundtrip_witness :
  let '(r, w') := Save demo_store 42 empty_world in
  r = Good tt ∧ (Load demo_store w').1 = Good 42.
Proof.
  pose proof (checkpoint_roundtrip demo_store 42 empty_world ltac:(lia)) as Hc.
  destruct (Save demo_store 42 empty_world) as [r w']. destruct Hc as [Hr Hl].
  pose proof (Hr demo_calm) as ->. split; [reflexivity|].
  apply Hl; [reflexivity|discriminate].
Defined.

(** The first byte of a checkpoint is cleared. *)
Lemma checkpoint_damage_detected_witness :
  ∃ msg, load_bytes (Byte.x00 :: drop 1 (blob_bytes (saved_blob 42))) = Fail (mkStatus kCorruption msg).
Proof.
  apply (checkpoint_damage_detected 42 [] (take 1 (blob_bytes (saved_blob 42))) [Byte.x00]
    (drop 1 (blob_bytes (saved_blob 42)))).
  - lia.
  - symmetry. apply take_drop.
  - vm_compute. reflexivity.
  - vm_compute. lia.
  - intros Heq. vm_compute in Heq. discriminate Heq.
  - left. vm_compute. lia.
Defined.

(** A log of one event and the first ten bytes of another. *)
Definition torn_events : World :=
  set_files (<["/e" := concat (map encode_event [demo_deliver]) ++ take 10 (encode_event demo_deliver)]>)
    empty_world.

Definition short_events : World :=
  set_files (<["/e" := concat (map encode_event [demo_deliver]) ++ take 7 (encode_event demo_deliver)]>)
    empty_world.

Lemma cut_event n : (n < length (encode_event demo_deliver))%nat →
  take n (encode_event demo_deliver) `prefix_of` encode_event demo_deliver ∧
  take n (encode_event demo_deliver) ≠ encode_event demo_deliver.
Proof.
  intros Hn. split.
  - exists (drop n (encode_event demo_deliver)). by rewrite take_drop.
  - intros Heq%(f_equal length). rewrite length_take in Heq. lia.
Qed.

Lemma events_roundtrip_witness :
  (LoadTransitions "/e" 5 short_events).1 = Good [demo_deliver] ∧
  (LoadTransitions "/e" 5 torn_events).1 = Fail (mkStatus kCorruption "events corrupted").
Proof.
  split.
  - refine (eq_trans (events_roundtrip "/e" 5 short_events [demo_deliver] demo_deliver
      (take 7 (encode_event demo_deliver)) (lookup_insert_eq _ _ _)
      (proj2 (Forall_singleton _ _) demo_deliver_wf) demo_deliver_wf
      (proj1 (cut_event 7 _)) (proj2 (cut_event 7 _)) _) _);
      [vm_compute; lia|vm_compute; lia|discriminate|vm_compute; reflexivity].
  - refine (eq_trans (events_roundtrip "/e" 5 torn_events [demo_deliver] demo_deliver
      (take 10 (encode_event demo_deliver)) (lookup_insert_eq _ _ _)
      (proj2 (Forall_singleton _ _) demo_deliver_wf) demo_deliver_wf
      (proj1 (cut_event 10 _)) (proj2 (cut_event 10 _)) _) _);
      [vm_compute; lia|vm_compute; lia|discriminate|vm_compute; reflexivity].
Defined.

Definition demo_map : gmap MessageId MessageRuntime := {[demo_id := demo_rt]}.

Definition snapshot_world : World :=
  set_files (<["/s" := encode_snapshot 9 (map_to_list demo_map)]>) empty_world.

Lemma snapshot_roundtrip_witness :
  (load_snapshot "/s" 1 demo_map snapshot_world).1 = Good (9, restored demo_map demo_map).
Proof.
  apply (snapshot_roundtrip "/s" 9 1 snapshot_world (map_to_list demo_map) demo_map demo_map).
  - apply lookup_insert_eq.
  - reflexivity.
  - apply map_Forall_singleton. unfold wf_id, wf_runtime, wf_string. simpl.
    split_and!; try lia; vm_compute; done.
  - lia.
  - vm_compute. reflexivity.
  - discriminate.
Defined.

(** ** Histories of the demo group: deliver, acknowledge, ask again *)

Definition start : config := mkConfiguration [demo_record] demo_segment demo_world demo_group.

Lemma start_ok : config_ok demo_options "q" "g" start.
Proof.
  split; [apply demo_group_ok|]. split; [apply demo_indexed|].
  split; [exists []; apply demo_file|]. split; [apply demo_foreign|apply demo_tracks].
Qed.

Definition demo_ops : list group_op := [GConsume; GAck demo_id; GConsume; GStats].
Definition played := play demo_options "q" "g" demo_ops demo_segment (demo_world, demo_group).
Definition ended : config := mkConfiguration [demo_record] demo_segment played.2.1 played.2.2.

Lemma demo_history : history demo_options "q" "g" start played.1 ended.
Proof. apply play_history. Qed.

Lemma settled_never_redelivered_witness :
  delivered demo_id (drop 2 played.1) = 0 ∧
  ∃ rt, runtime (group ended) !! demo_id = Some rt ∧ state rt = kAcked ∧
    inflight (group ended) !! demo_id = None.
Proof.
  apply (settled_never_redelivered demo_options "q" "g" demo_clock start (take 1 played.1)
    (GAck demo_id) demo_id (drop 2 played.1) ended start_ok).
  - left. reflexivity.
  - assert (take 1 played.1 ++ (GAck demo_id, GotStatus (Good tt)) :: drop 2 played.1 = played.1)
      as -> by (vm_compute; reflexivity).
    apply demo_history.
Defined.

Lemma deliveries_bounded_witness :
  delivered demo_id played.1 = 1 ∧ delivered demo_id played.1 <= 6.
Proof.
  split; [vm_compute; reflexivity|].
  apply (deliveries_bounded demo_options "q" "g" demo_clock start played.1 ended demo_id demo_rt
    start_ok demo_coherent); [simpl; lia|reflexivity|simpl; lia|apply demo_history].
Defined.


Lemma history_keeps_invariant_witness :
  config_ok demo_options "q" "g" ended ∧ coherent (group ended).
Proof.
  destruct (history_keeps_invariant demo_options "q" "g" demo_clock start played.1 ended start_ok
    demo_history) as [Hok Hc].
  split; [exact Hok|exact (Hc demo_coherent)].
Defined.

Lemma history_log_sequences_witness :
  1 <= next_sequence (group ended) <= 9 ∧
  ∃ es, file_bytes (world ended) "/d/q/g.events" = concat (map encode_event es) ∧
    StronglySorted Z.lt (map ev_sequence es).
Proof.
  destruct (history_log_sequences demo_options "q" "g" demo_clock start played.1 ended start_ok
    demo_history ltac:(vm_compute; reflexivity)) as [Hn (es & Hb & _ & _ & Hs)].
  split; [exact Hn|]. exists es. split; [exact (Hb demo_calm)|exact Hs].
Defined.

(** A second message is in the log; the group was loaded before it came. *)
Definition second_record : Record_ := set_offset 1 (record_of demo_message).
Definition late_segment : SegmentLog :=
  mkSegmentLog "/d/q/seg-000001.log" kAlways (Some 132%nat) 2 {[0 := 0%nat; 1 := 66%nat]}.
Definition late_world : World :=
  set_files (<["/d/q/seg-000001.log" := log_bytes [demo_record; second_record]]>) empty_world.
Definition late : config := mkConfiguration [demo_record; second_record] late_segment late_world demo_group.

Lemma late_ok : config_ok demo_options "q" "g" late.
Proof.
  split; [apply demo_group_ok|]. split; [|split; [|split]].
  - split; [|split]; cbn [late records log].
    + apply Forall_cons. split; [apply demo_recoverable|].
      apply Forall_singleton, second_recoverable.
    + split; [|simpl; lia]. intros i r Hi.
      destruct i as [|[|i]]; [by injection Hi as <-..|done].
    + vm_compute. reflexivity.
  - exists []. rewrite app_nil_r. apply lookup_insert_eq.
  - apply demo_foreign.
  - intros id rt Hrt. destruct (demo_tracks id rt Hrt) as (Hoff & r & Hr & Hid).
    split; [exact Hoff|]. exists r. split; [|exact Hid].
    by apply (lookup_app_l_Some [demo_record] [second_record]).
Qed.

Definition late_ops : list group_op := [GConsume; GAck demo_id; GConsume; GConsume].
Definition late_played := play demo_options "q" "g" late_ops late_segment (late_world, demo_group).

(** It is in the log, nothing is refused, and nobody gets it. *)
Lemma late_message_never_delivered_witness :
  (Read late_segment 1 late_world).1 = Good (stored second_record) ∧
  delivered (record_id second_record) late_played.1 = 0.
Proof.
  split; [vm_compute; reflexivity|].
  apply (late_message_never_delivered demo_options "q" "g" demo_clock late late_played.1
    (mkConfiguration [demo_record; second_record] late_segment late_played.2.1 late_played.2.2)
    (record_id second_record) late_ok).
  - reflexivity.
  - apply play_history.
Defined.
(** ** Values, tokens and restarts *)

Lemma demo_roomy : roomy "g".
Proof. split; vm_compute; done. Qed.

Lemma demo_typed : typed demo_group.
Proof.
  split; [|by apply map_Forall_empty|simpl; lia|simpl; lia].
  intros id rt [-> ->]%demo_lookup. unfold wf_id, wf_runtime, wf_string. simpl.
  split_and!; try lia; vm_compute; done.
Qed.

Lemma demo_named : named demo_group.
Proof. by apply map_Forall_empty. Qed.

Lemma history_typed_witness :
  typed (group ended) ∧
  ∃ es, es ≠ [] ∧ Forall wf_event es ∧
    file_bytes (world ended) "/d/q/g.events" = concat (map encode_event es).
Proof.
  destruct (history_typed demo_options "q" "g" demo_clock start played.1 ended demo_roomy start_ok
    demo_typed demo_history) as [Hty (n & es & _ & Hr & Hes & Hb)].
  split; [exact Hty|]. exists es. split; [|split; [exact Hes|exact (Hb demo_calm)]].
  intros ->. assert (state <$> runtime (group ended) !! demo_id = Some kAcked) as Hst
    by (vm_compute; reflexivity).
  rewrite Hr in Hst. vm_compute in Hst. discriminate.
Defined.

(** After the first delivery, and two operations later. *)
Definition first_lease : config := after demo_options "q" "g" [GConsume] start.
Definition later : config := after demo_options "q" "g" [GStats; GConsume] first_lease.

Lemma first_lease_good : config_ok demo_options "q" "g" first_lease ∧ typed (group first_lease).
Proof.
  pose proof (after_history demo_options "q" "g" [GConsume] start) as Hh.
  destruct (history_progress _ _ _ _ _ _ demo_clock start_ok Hh) as (n & es & Hrun & _ & Hst & _).
  destruct (history_run _ _ _ _ _ _ demo_clock start_ok Hh) as [Hok _].
  split; [exact Hok|]. apply (typed_run _ _ _ _ _ _ demo_roomy Hrun Hst demo_typed).
Qed.

Lemma first_lease_named : named (group first_lease).
Proof.
  intros id x Hx.
  assert (inflight (group first_lease) =
    {[demo_id := mkInflight 0 31000 310 "g" (make_token demo_id 1)]}) as Heq by (vm_compute; reflexivity).
  rewrite Heq in Hx. apply lookup_singleton_Some in Hx as [<- <-].
  split; [split; simpl; lia|]. exists 1. split; [reflexivity|].
  assert (next_sequence (group first_lease) = 2) as -> by (vm_compute; reflexivity). lia.
Qed.

Lemma lease_tokens_unique_witness :
  named (group later) ∧
  ∀ id x id' x', inflight (group first_lease) !! id = Some x →
    inflight (group later) !! id' = Some x' → lease_token x = lease_token x' → id' = id ∧ x' = x.
Proof.
  refine (lease_tokens_unique demo_options "q" "g" demo_clock first_lease _ later demo_roomy
    (proj1 first_lease_good) (proj2 first_lease_good) first_lease_named
    (after_history demo_options "q" "g" [GStats; GConsume] first_lease) _).
  vm_compute. reflexivity.
Defined.

(** The group is loaded with the message in flight, so it is ready; it is
    delivered and acknowledged; it stays acknowledged. *)
Definition first_load := LoadGroupState demo_options "q" "g" demo_segment (demo_world2, new_Group demo_store).
Definition second_life := play demo_options "q" "g" [GConsume; GAck demo_id] demo_segment first_load.2.

Lemma restart_preserves_state_witness :
  let '(o, (_, g3)) := LoadGroupState demo_options "q" "g" demo_segment
                         (second_life.2.1, new_Group demo_store) in
  o = Good tt ∧ ∃ rt3, runtime g3 !! demo_id = Some rt3 ∧ state rt3 = kAcked.
Proof.
  assert (first_load = (Good tt, (first_load.2.1, first_load.2.2))) as Hload.
  { assert (first_load.1 = Good tt) as Hg by (vm_compute; reflexivity).
    destruct first_load as [o [w1 g1]]. simpl in *. by subst o. }
  pose proof (restart_preserves_state demo_options "q" "g" [demo_record] [] demo_segment 1 ∅
    ([] ++ [demo_deliver]) demo_store demo_world2 first_load.2.1 first_load.2.2 second_life.1
    [demo_record] demo_segment second_life.2.1 second_life.2.2 demo_store second_life.2.1
    demo_calm demo_clock demo_roomy demo_indexed demo_file2 demo_distinct
    demo_foreign demo_snapshot (proj1 demo_events) demo_sane
    ltac:(change (GroupEventPath demo_options "q" "g") with "/d/q/g.events"; unfold file_bytes,
      demo_world2; cbn [set_files files]; rewrite lookup_insert_eq; simpl; by rewrite app_nil_r)
    Hload
    ltac:(unfold second_life; destruct first_load.2 as [w1 g1]; apply play_history)
    demo_distinct eq_refl) as Hr.
  assert (∃ rt, runtime second_life.2.2 !! demo_id = Some rt ∧ state rt = kAcked) as (rt & Hrt & Hst)
    by (eexists; split; vm_compute; reflexivity).
  destruct (LoadGroupState _ _ _ _ _) as [o [w4 g3]]. destruct Hr as [Ho Hs]. split; [exact Ho|].
  destruct (Hs _ _ Hrt) as (rt3 & Hrt3 & _ & _ & _ & _ & Hterm & _). exists rt3.
  split; [exact Hrt3|]. rewrite Hterm; [exact Hst|]. left. exact Hst.
Defined.

(** ** Runs of the engine *)

Lemma demo_sound : sound_message demo_message.
Proof.
  intros n Hn. split.
  - unfold wf_record, wf_header, fits. cbn. split_and!; try lia; done.
  - rewrite record_bytes_length. vm_compute. done.
Qed.

Lemma late_appendable : appendable [demo_record; second_record] late_world late_segment.
Proof.
  split; [apply late_ok|]. split; [apply lookup_insert_eq|vm_compute; reflexivity].
Qed.

(** A group that was loaded with both messages. *)
Definition second_id : MessageId := mkId 3 4.
Definition second_rt : MessageRuntime := mkRuntime kReady 1 0 6 6 6 0 "recovered-default-ready".
Definition two_group : ConsumerGroupState :=
  mkGroup [0; 1] ∅ {[demo_id := demo_rt; second_id := second_rt]} (replicate kWheelSlots []) 0 1
    (mkCheckpointStore "/d/q/g.checkpoint" kAlways).
Definition two : config := mkConfiguration [demo_record; second_record] late_segment late_world two_group.
Definition two_table : Queues := {["q" := mkQueue late_segment {["g" := two_group]}]}.

Lemma two_lookup id rt :
  runtime two_group !! id = Some rt → (id = demo_id ∧ rt = demo_rt) ∨ (id = second_id ∧ rt = second_rt).
Proof.
  change (runtime two_group) with ({[demo_id := demo_rt; second_id := second_rt]} : gmap MessageId
    MessageRuntime).
  intros [[<- <-]|[_ [<- <-]%lookup_singleton_Some]]%lookup_insert_Some; auto.
Qed.

Lemma two_ok : config_ok demo_options "q" "g" two.
Proof.
  destruct late_ok as (_ & Hidx & Hfile & Hforeign & _).
  split; [|split; [exact Hidx|split; [exact Hfile|split; [exact Hforeign|]]]].
  - split; cbn [two group].
    + reflexivity.
    + intros id. unfold two_group. cbn. rewrite lookup_empty. by intros [].
    + by intros id rt [[-> ->]|[-> ->]]%two_lookup.
    + by intros id rt [[-> ->]|[-> ->]]%two_lookup.
    + simpl. lia.
    + simpl. lia.
  - intros id rt [[-> ->]|[-> ->]]%two_lookup; (split; [simpl; lia|]).
    + by exists demo_record.
    + by exists second_record.
Qed.

(** Two clients of the group, a producer, and one that creates another queue. *)
Definition engine_steps : list step_ :=
  [SRequest (0%nat, OpConsume "q" "g"); SRequest (1%nat, OpProduce "q" demo_message);
   SRequest (2%nat, OpAck "q" "g" demo_id); SWork 0; SWork 0; SRequest (3%nat, OpCreateQueue "r");
   SRequest (4%nat, OpConsume "q" "g"); SWork 0; SWork 0; SWork 0; SWork 0; SWork 0; SWork 0;
   SWork 0; SWork 0].
Definition engine_end := run_ demo_options demo_hash engine_steps (started demo_options (late_world,
  two_table)).

Lemma engine_observed : observed demo_options "q" "g" late_world two_table two (requests engine_steps).
Proof.
  split.
  - split_and!; by apply (bool_decide_unpack _).
  - intros q st. cbn [snd]. unfold two_table. intros [<- <-]%lookup_singleton_Some. reflexivity.
  - exists (mkQueue late_segment {["g" := two_group]}). split_and!; reflexivity.
  - reflexivity.
  - apply two_ok.
  - intros r Hr. unfold requests, engine_steps in Hr. cbn [omap list_omap] in Hr.
    rewrite !elem_of_cons, elem_of_nil in Hr.
    destruct_or! Hr; subst; (split_and!; [by apply (bool_decide_unpack _)|done|by cbn;
      try apply (bool_decide_unpack _)]).
  - intros r m Hr Hm. unfold requests, engine_steps in Hr. cbn [omap list_omap] in Hr.
    rewrite !elem_of_cons, elem_of_nil in Hr.
    destruct_or! Hr; subst; try done. injection Hm as <-.
    split_and!; [apply demo_calm|apply late_appendable|apply demo_sound].
Qed.

Lemma engine_runs_are_histories_witness :
  length (group_trace "q" "g" (EngineApi.history engine_end)) = 3%nat ∧
  ∃ rs st gr, Operations.history demo_options "q" "g" two
    (group_trace "q" "g" (EngineApi.history engine_end))
    (mkConfiguration rs (segment st) (store engine_end).1 gr).
Proof.
  split; [vm_compute; reflexivity|].
  destruct (engine_runs_are_histories demo_options demo_hash demo_clock ltac:(simpl; lia)
    ltac:(simpl; lia) "q" "g" late_world two_table two engine_steps engine_observed)
    as (rs & st & gr & _ & _ & Hh).
  exists rs, st, gr. exact Hh.
Defined.

(** The first message is acknowledged; the next request is given the other. *)
Lemma engine_never_redelivers_witness :
  ∃ res, (4%nat, (OpConsume "q" "g", Good (RMessage (Some res)))) ∈ drop 3 (EngineApi.history engine_end) ∧
    msg_id (result_message res) ≠ demo_id.
Proof.
  set (res := make_result (stored second_record) 1 1).
  assert ((4%nat, (OpConsume "q" "g", Good (RMessage (Some res)))) ∈ drop 3 (EngineApi.history engine_end))
    as Hin.
  { apply (list_elem_of_lookup_2 _ 1). vm_compute. reflexivity. }
  exists res. split; [exact Hin|].
  apply (engine_never_redelivers demo_options demo_hash demo_clock ltac:(simpl; lia)
    ltac:(simpl; lia) "q" "g" late_world two_table two engine_steps (take 2 (EngineApi.history engine_end))
    2%nat (OpAck "q" "g" demo_id) demo_id (drop 3 (EngineApi.history engine_end)) 4%nat res engine_observed);
    [|left; reflexivity|exact Hin].
  vm_compute. reflexivity.
Defined.

(** The requests of [engine_steps] leave the files of another group alone. *)
Lemma files_isolated_witness :
  files (store (run_ demo_options demo_hash engine_steps (started demo_options (demo_world2, ∅)))).1
    !! "/d/q/h.events" = None.
Proof.
  pose proof (files_isolated demo_options demo_hash demo_world2 engine_steps ltac:(simpl; lia)) as [_ Hk].
  destruct (Hk (ob_plain _ _ _ _ _ _ _ engine_observed) "q" ltac:(by apply (bool_decide_unpack _))
    ltac:(discriminate)) as [Hg _].
  refine (eq_trans (Hg "h" "/d/q/h.events" ltac:(by apply (bool_decide_unpack _)) _ _) _).
  - left. vm_compute. reflexivity.
  - intros r Hr. unfold requests, engine_steps in Hr. cbn [omap list_omap] in Hr.
    rewrite !elem_of_cons, elem_of_nil in Hr. by destruct_or! Hr; subst.
  - vm_compute. reflexivity.
Defined.

(** ** Two processes *)

Definition other_message : Message := mkMessage (mkId 5 6) 7 [Byte.x03] ∅ "k".

Lemma other_sound : sound_message other_message.
Proof.
  intros n Hn. split.
  - unfold wf_record, wf_header, fits. cbn. split_and!; try lia; done.
  - rewrite record_bytes_length. vm_compute. done.
Qed.

Definition do_all (ops : list Op) : list step_ :=
  imap (λ i op, SRequest (i, op)) ops ++ concat (map (λ _, [SWork 0; SWork 0]) ops).

(** Two messages are produced, one is delivered and acknowledged; the next
    process is asked for the other one. *)
Definition first_steps : list step_ :=
  do_all [OpCreateQueue "q"; OpProduce "q" demo_message; OpProduce "q" other_message;
          OpConsume "q" "g"; OpAck "q" "g" second_id].
Definition second_steps : list step_ :=
  do_all [OpCreateQueue "q"; OpConsume "q" "g"; OpInspectMessage "q" "g" second_id].

Definition first_process := run_ demo_options demo_hash first_steps (started demo_options (empty_world, ∅)).
Definition second_process :=
  run_ demo_options demo_hash second_steps (started demo_options ((store first_process).1, ∅)).

Lemma demo_from_scratch : from_scratch demo_options "q" "g" empty_world first_steps [second_steps].
Proof.
  split.
  - reflexivity.
  - reflexivity.
  - reflexivity.
  - intros r Hr. unfold requests, first_steps, do_all in Hr. cbn in Hr.
    rewrite !elem_of_cons, elem_of_nil in Hr.
    destruct_or! Hr; subst; (split; [split_and!; by apply (bool_decide_unpack _)|]); intros m Hm;
      try discriminate Hm;
      injection Hm as <-; [apply demo_sound|apply other_sound].
  - by apply (bool_decide_unpack _).
  - apply Forall_singleton. intros r Hr. unfold requests, second_steps, do_all in Hr. cbn in Hr.
    rewrite !elem_of_cons, elem_of_nil in Hr.
    destruct_or! Hr; subst; (split; [split_and!; by apply (bool_decide_unpack _)|intros m Hm; discriminate Hm]).
Qed.

Lemma settled_for_good_witness :
  ∃ j res, (j, (OpConsume "q" "g", Good (RMessage (Some res)))) ∈ EngineApi.history second_process ∧
    msg_id (result_message res) ≠ second_id.
Proof.
  set (res := make_result (stored (set_offset 1 (record_of other_message))) 1 1).
  exists 1%nat, res.
  assert ((1%nat, (OpConsume "q" "g", Good (RMessage (Some res)))) ∈ EngineApi.history second_process) as Hin.
  { apply (list_elem_of_lookup_2 _ 1). vm_compute. reflexivity. }
  split; [exact Hin|].
  assert (EngineApi.history (run_ demo_options demo_hash first_steps (started demo_options (empty_world, ∅))) ++
      concat (map EngineApi.history (processes demo_options demo_hash
        (store (run_ demo_options demo_hash first_steps (started demo_options (empty_world, ∅)))).1
        [second_steps])) =
    take 4 (EngineApi.history first_process) ++
      (4%nat, (OpAck "q" "g" second_id, Good ROk)) :: EngineApi.history second_process) as Hall
    by (vm_compute; reflexivity).
  apply (settled_for_good demo_options demo_hash "q" "g" empty_world first_steps [second_steps] demo_calm
    demo_clock ltac:(simpl; lia) ltac:(simpl; lia) ltac:(simpl; lia) ltac:(by apply (bool_decide_unpack _))
    ltac:(discriminate) ltac:(by apply (bool_decide_unpack _)) demo_roomy (take 4 (EngineApi.history
      first_process)) 4%nat
    (OpAck "q" "g" second_id) second_id (EngineApi.history second_process) 1%nat res demo_from_scratch
      Hall); [left; reflexivity|exact Hin].
Defined.

Lemma produced_for_good_witness :
  ∃ st gr, (store second_process).2 !! "q" = Some st ∧ groups st !! "g" = Some gr ∧
    is_Some (runtime gr !! mkId 5 6) ∧
    ∃ r, (Read (segment st) 1 (store second_process).1).1 = Good r ∧
      ∀ off count, result_message (make_result r off count) = other_message.
Proof.
  assert ((2%nat, (OpProduce "q" other_message, Good (ROffset 1))) ∈
    EngineApi.history (run_ demo_options demo_hash first_steps (started demo_options (empty_world, ∅))))
    as Hin.
  { apply (list_elem_of_lookup_2 _ 2). vm_compute. reflexivity. }
  assert (second_process ∈ processes demo_options demo_hash
    (store (run_ demo_options demo_hash first_steps (started demo_options (empty_world, ∅)))).1
    [second_steps]) as He by (unfold second_process, first_process; left).
  destruct (produced_for_good demo_options demo_hash "q" "g" empty_world first_steps [second_steps] demo_calm
    demo_clock ltac:(simpl; lia) ltac:(simpl; lia) ltac:(simpl; lia) ltac:(by apply (bool_decide_unpack _))
    ltac:(discriminate) ltac:(by apply (bool_decide_unpack _)) demo_roomy 2%nat other_message 1
    demo_from_scratch Hin) as [Hread Hknown].
  assert (∃ st gr, (store second_process).2 !! "q" = Some st ∧ groups st !! "g" = Some gr)
    as (st & gr & Hst & Hgr) by (do 2 eexists; split; vm_compute; reflexivity).
  exists st, gr. split; [exact Hst|]. split; [exact Hgr|]. split.
  - exact (Hknown second_process st gr He Hst Hgr).
  - apply (Hread second_process st); [right; exact He|exact Hst].
Defined.
End witnesses.
